(* ===== verification/_CoqProject ===== *)
-Q . S2P
Prelude.v
Protocol.v
Float64.v
Text.v
Rate.v
PQueue.v
LossTracker.v
Stats.v
Report.v
Runtime.v
Errors.v
Helpers.v
BlockIO.v
SysFile.v
Crypto.v
Auth.v
Control.v
Messages.v
Net.v
SockAddr.v
Udp.v
Rio.v
RioNotify.v
Sender.v
SenderSys.v
Receiver.v
ReceiverSys.v
EndToEnd.v
Run.v
Systems.v
Repair.v
DataPath.v
Transfer.v
Served.v
Os.v
Handlers.v
Service.v
ControlPlane.v
Cli.v
