(* ===== verification/Prelude.v ===== *)
(** * girth: a verification development

    girth (src/) moves one object over UDP between two hosts, reliably and at a paced rate,
    under a TCP control connection.  A client opens the control connection, sends a Hello
    (push or pull, name, sizes, rates, key share, proof) and gets an Ack; then a sender and a
    receiver run the data plane over UDP; a final message with checksums ends the transfer.

    ** The parts and the files that model them

    - src/protocol.rs: PDU layouts, encoders, decoders, block counting.  [Protocol].
    - src/rate.rs: RTT estimator and rate controller, on IEEE binary64.  [Float64] (the
      arithmetic, on the Standard Library's SpecFloat) and [Rate].
    - src/losstracker.rs: the bitmap of received blocks and the loss scanner with its heap of
      due times.  [PQueue] (BinaryHeap of Reverse, shared with the sender) and [LossTracker].
    - src/stats.rs, src/runtime.rs, src/error.rs: counters and snapshots ([Stats]), the report
      lines, the summary and the reporter thread ([Report], on the number formats and the
      reading of key=value lines in [Text]), live controls and the shared handle, whose calls
      are sequences of single accesses ([Runtime]), error classes ([Errors]).
    - src/log.rs, src/util.rs: the process-wide logger, the pacing sleep, the trace line.
      [Helpers].
    - src/io.rs: the traits BlockSource and BlockSink as classes with laws, the in-memory and
      file-backed implementations as instances, a file sink over the answers of its device.
      [BlockIO]; the positional file loops of src/sys/mod.rs are in [SysFile].
    - src/crypto.rs, src/auth.rs: nonces, sealing, negotiation, key agreement ([Crypto]); the
      transcripts and their MACs ([Auth]).
    - src/control.rs: messages, framing, parameters ([Control]); the messages as JSON objects,
      under the attributes of the structs ([Messages]).
    - src/sys: socket addresses in memory ([Net], [SockAddr]); the batched and one-by-one UDP
      backends of linux.rs and portable.rs ([Udp]); the registered-I/O engine of rio.rs
      ([Rio]), its completion event and its handles ([RioNotify]); creating sockets, opening
      and preallocating files, the termination flag ([Os]).  What a backend promises the data plane is a class with laws ([Batching],
      [Receiving]); each backend is an instance.
    - src/sender.rs: retransmit queue, PDU building, prefetching, ticks, the pacing loop, the
      feedback thread, waiting for the peer ([Sender]); its threads with the pooled buffers
      they exchange as an interleaved step relation ([SenderSys]).
    - src/receiver.rs: set-up, the stages of a packet, the flusher's writes, the stages of a
      feedback iteration ([Receiver]); its workers, its flusher, its feedback thread and the
      thread of [run] with its joins as one interleaved step relation, with executable
      schedules ([ReceiverSys]); what [run] does around them and what it returns: START, the
      feedback cadence, writeback, the result ([Run]).
    - The composition of the two ends, [EndToEnd], and of their concurrent systems,
      [Systems]; the repair of losses by rounds of feedback and retransmission, [Repair]; the
      loops over the socket backends, [DataPath].
    - src/transfer.rs: names, limits, warm starts, sessions ([Transfer]); opening served
      objects without following links ([Served]); the server's
      connection handler, both request handlers and both client cores as traces of effects
      over an environment ([Handlers]); the server's settings, its listener with its worker
      threads, and the client's entry points with and without a handle ([Service]); client and
      server over one exchange ([ControlPlane]).
    - src/bin/girth.rs: flags, number parsing, dispatch, the commands, the exit status.  [Cli].
    - This file: panicking computations, wrap-around integers, little-endian bytes, bounded
      buffer accesses, and the tactics and hints on them.

    ** How the code is modelled

    A function of the source is a definition of the same name where Rocq allows it.  Whatever
    can stop the process in safe Rust (an index or slice out of range, a failed clamp,
    division by zero; the release profile has panic = "abort") is the value [Panic] of
    [outcome]; fallible code returns [result].  Machine integers are [Z] with [wrap] written
    out where the source's arithmetic wraps (release arithmetic does not trap).  f64 is
    [spec_float] at precision 53.  State is a record passed explicitly; the threads of the
    sender, of the receiver and of the listener interleave between the atomic stages of their
    loop bodies; the receiver's feedback thread acts on what it read at its own earlier
    moments (the views of a [Pass]).  The clock, the
    random source, the environment variables and the answers of system calls are arguments;
    what is relied on of the kernel ([mmsg_contract], [recv_contract], [rio_contract],
    [read_contract]) is a named predicate, or a class with laws where it has state (the
    completion queue of [RioNotify], the file system of [Served]).  Crates are classes with the
    laws they document (CRC-32C, AEAD, X25519, HKDF, HMAC, JSON text, base64, socket2), each with a concrete instance the
    witnesses run on.

    ** What the theorems show

    - The transfer.  On any network that delivers the sender's datagrams in any order, with
      loss and repetition, mixed with anything the checks refuse, and for any interleaving of
      the threads of both ends: what is flushed is the source, done means the sink is the source
      ([systems_integrity], [end_to_end_integrity], [receiver_no_block_lost]); the sender's
      threads account for every pooled buffer and announce FIN only after the whole file
      ([sender_threads_sound]); when every block arrives the transfer completes
      ([end_to_end_delivery]), and a run that gets it there exists ([systems_complete]); when
      the first pass is lost, in part or but for the FIN, rounds of NACKs and retransmissions
      complete it, whatever is lost of them, after as many fruitful rounds as there are blocks
      ([lossy_transfer_completes]); a receiver's run that returns success has every block, and
      has stored the file if it was not stopped ([run_ok_stored]); a pull's START gets through
      if any copy does ([start_bootstraps]).  These theorems are about a sink whose calls
      succeed ([BlockSinkLaws]); [write_error_blocks_completion] and the theorems that no
      datagram panics an end are about any sink.
    - The ends.  The sender's PDUs carry the blocks they name, in bounded batches,
      retransmissions first; feedback is acted on only from the peer and only within the
      configured rate; no datagram panics either end; the loss scanner requests exactly the
      missing blocks that are due.
    - The backends.  What a batch puts on the wire and what a worker sees are the datagrams, in
      order, whatever the kernel splits or refuses; the Windows slot pool never leaks and is
      never read while the kernel owns it; no wake-up of its harvester is lost
      ([rio_no_lost_wakeup]).
    - The control plane.  The handshake makes two matching ends; effects are gated by
      authentication; served paths stay in the directory and
      links are not followed ([served_never_follows]); the messages survive the wire, unknown
      fields ignored ([control_messages_roundtrip]); success means that the checksum a sink
      reports is the announced one;
      limits are exact; the listener serves at most the configured number of connections; a
      caller's handle is settled with the call's result.
    - The command line.  [parse] is the flag grammar; a server without a token needs the
      explicit flag, one with a token serves nobody without it ([cli_server_guarded]).
    - Status.  The report lines parse back ([report_line_parses]), the reporter accounts for
      every byte once and is on time ([reporter_accounts]); the first logger wins; the pacing
      sleep neither undersleeps nor spins longer than its tail ([precise_sleep_bounds]).
    - Codecs, rates, crypto: round trips, ranges in spite of rounding, nonce uniqueness, what
      the proofs bind.
    - Where the code does not do what it means to, the theorem states what it does:
      [low_ceiling_aborts], [write_error_blocks_completion], [session_connect_error_unmarked],
      [stopped_run_unwritten], [client_mac_nul_ambiguous], [rio_feedback_cut],
      [failed_setup_leaks], [wrapped_nack_resent].

    ** Bounds and fuel

    Loops that are not structural take fuel, and their results are proved for enough of it:
    [batch_loop] gets the queue length plus the batch size plus one, [collect_loop] one step
    per heap entry, [flush_pass] one per block, [crc_loop] one per MiB; a theorem about such a
    loop states that it returns.  Loops over system calls take the list of answers as fuel;
    their theorems say how many answers are enough.

    ** What is not modelled

    Thread creation, the text of the log messages and where the trace calls stand
    (no effect on a transfer); the writeback hint sync_file_range (its ranges are modelled, it
    has no effect a program can observe); socket timeouts of the control connection; the texts
    the command line prints; the key generation, randomness and CPU detection of the system,
    which are arguments; unwinding, since the release profile aborts on a panic. *)

From Stdlib Require Export Strings.Byte.
From stdpp Require Export prelude gmap strings.
Set Default Proof Using "Type".
Open Scope Z_scope.
Coercion Z.of_nat : nat >-> Z.

(** ** Panicking computations

    Safe Rust stops the process when an index or a slice bound is out of range
    ([panic = "abort"] in the release profile).  A computation that can do so
    returns an [outcome]; a value is [Done], the stop is [Panic]. *)

Inductive outcome (A : Type) : Type :=
| Done (a : A)
| Panic.
Arguments Done {A} a.
Arguments Panic {A}.

Global Instance outcome_ret : MRet outcome := @Done.
Global Instance outcome_bind : MBind outcome := λ A B f m,
  match m with Done a => f a | Panic => Panic end.
Global Instance outcome_fmap : FMap outcome := λ A B f m,
  match m with Done a => Done (f a) | Panic => Panic end.

Definition is_done {A} (m : outcome A) : Prop := ∃ a, m = Done a.

Lemma Done_inj {A} (a b : A) : Done a = Done b → a = b.
Proof. congruence. Qed.

Lemma outcome_bind_done {A B} (m : outcome A) (f : A → outcome B) b :
  (m ≫= f) = Done b ↔ ∃ a, m = Done a ∧ f a = Done b.
Proof.
  destruct m as [a|]; simpl; split; [by eauto| |done|]; intros (a'&E&?).
  - by injection E as ->.
  - done.
Qed.

(** ** Result values *)

(** [Result<A, E>]. *)
Inductive result (A E : Type) : Type :=
| Ok (a : A)
| Err (e : E).
Arguments Ok {A E} a.
Arguments Err {A E} e.

(** ** Machine integers

    A [w]-bit unsigned integer is a [Z] in [[0, 2^w)].  The release profile
    leaves overflow checks off, so [+], [-] and [*] wrap: [wrap w].  The [as]
    casts between widths are written out the same way. *)

Definition wrap (w : Z) (z : Z) : Z := z mod 2 ^ w.
Definition u64_max : Z := 2 ^ 64 - 1.
Definition i64_max : Z := 2 ^ 63 - 1.

(** [x as u64] for an [i64] value, [x as i64] for a [u64] value. *)
Definition i64_as_u64 (z : Z) : Z := wrap 64 z.
Definition u64_as_i64 (z : Z) : Z := wrap 64 (z + 2 ^ 63) - 2 ^ 63.

Definition is_uint (w : Z) (z : Z) : Prop := 0 ≤ z < 2 ^ w.
Definition is_i64 (z : Z) : Prop := - 2 ^ 63 ≤ z < 2 ^ 63.

Abbreviation is_u8 := (is_uint 8).
Abbreviation is_u16 := (is_uint 16).
Abbreviation is_u32 := (is_uint 32).
Abbreviation is_u64 := (is_uint 64).

Global Instance is_uint_dec w z : Decision (is_uint w z).
Proof. unfold is_uint. apply _. Defined.
Global Instance is_i64_dec z : Decision (is_i64 z).
Proof. unfold is_i64. apply _. Defined.

(** [checked_add], [saturating_sub] and [saturating_mul] on [u64]. *)
Definition checked_add_u64 (a b : Z) : option Z :=
  if a + b <=? u64_max then Some (a + b) else None.
Definition saturating_sub_u64 (a b : Z) : Z := Z.max 0 (a - b).
Definition saturating_mul_u64 (a b : Z) : Z := Z.min u64_max (a * b).

(** [a.div_ceil(b)] on unsigned integers (a zero divisor panics). *)
Definition div_ceil (a b : Z) : Z := (a + b - 1) / b.

Lemma wrap_small w z : is_uint w z → wrap w z = z.
Proof. intros. unfold wrap. apply Z.mod_small. done. Qed.

Lemma wrap_range w z : 0 ≤ w → is_uint w (wrap w z).
Proof. intros. apply Z.mod_pos_bound. lia. Qed.

Lemma wrap_wrap w z : wrap w (wrap w z) = wrap w z.
Proof. unfold wrap. by rewrite Zmod_mod. Qed.

Lemma u64_as_i64_range z : is_i64 (u64_as_i64 z).
Proof.
  unfold u64_as_i64, is_i64. pose proof (wrap_range 64 (z + 2 ^ 63)) as [??]; lia.
Qed.

Lemma u64_as_i64_as_u64 z : is_i64 z → u64_as_i64 (i64_as_u64 z) = z.
Proof.
  unfold is_i64, u64_as_i64, i64_as_u64, wrap. intros.
  rewrite Zplus_mod_idemp_l, Z.mod_small by lia. lia.
Qed.

Lemma i64_as_u64_as_i64 z : is_u64 z → i64_as_u64 (u64_as_i64 z) = z.
Proof.
  unfold is_uint, u64_as_i64, i64_as_u64, wrap. intros.
  rewrite Zminus_mod_idemp_l, Z.mod_small; lia.
Qed.

Lemma u64_as_i64_small z : 0 ≤ z < 2 ^ 63 → u64_as_i64 z = z.
Proof. unfold u64_as_i64, wrap. intros. rewrite Z.mod_small; lia. Qed.

Lemma u64_as_i64_large z : 2 ^ 63 ≤ z < 2 ^ 64 → u64_as_i64 z = z - 2 ^ 64.
Proof.
  unfold u64_as_i64, wrap. intros.
  replace (z + 2 ^ 63) with ((z - 2 ^ 63) + 1 * 2 ^ 64) by lia.
  rewrite Z_mod_plus_full, Z.mod_small; lia.
Qed.

Lemma div_ceil_bounds a b : 0 < b → b * (div_ceil a b - 1) < a ≤ b * div_ceil a b.
Proof.
  intros. unfold div_ceil.
  pose proof (Z.div_mod (a + b - 1) b ltac:(lia)).
  pose proof (Z.mod_pos_bound (a + b - 1) b ltac:(lia)). lia.
Qed.

Lemma div_ceil_le a b n : 0 < b → a ≤ b * n ↔ div_ceil a b ≤ n.
Proof. intros. pose proof (div_ceil_bounds a b). nia. Qed.

(** ** Bytes

    Datagrams and file contents are lists of [byte]; [byte_to_Z] and
    [byte_of_Z] are the casts to and from wider integers. *)

Definition byte_to_Z (b : byte) : Z := Z.of_N (Byte.to_N b).
Definition byte_of_Z (z : Z) : byte := default x00 (Byte.of_N (Z.to_N (wrap 8 z))).

Global Instance byte_eq_dec : EqDecision byte := Byte.byte_eq_dec.

Lemma byte_to_Z_range b : is_u8 (byte_to_Z b).
Proof.
  unfold is_uint, byte_to_Z. pose proof (Byte.to_N_bounded b). lia.
Qed.

Lemma byte_to_of_Z z : byte_to_Z (byte_of_Z z) = wrap 8 z.
Proof.
  unfold byte_of_Z, byte_to_Z. pose proof (wrap_range 8 z) as [??]; [lia|].
  destruct (Byte.of_N (Z.to_N (wrap 8 z))) as [b|] eqn:E; simpl.
  - apply Byte.to_of_N in E. rewrite E. lia.
  - apply Byte.of_N_None_iff in E. lia.
Qed.

Lemma byte_of_to_Z b : byte_of_Z (byte_to_Z b) = b.
Proof.
  unfold byte_of_Z. rewrite wrap_small by apply byte_to_Z_range.
  unfold byte_to_Z. by rewrite N2Z.id, Byte.of_to_N.
Qed.

Global Instance byte_to_Z_inj : Inj (=) (=) byte_to_Z.
Proof. intros a b E. by rewrite <-(byte_of_to_Z a), E, byte_of_to_Z. Qed.

(** [v.to_le_bytes()] and [uN::from_le_bytes]. *)
Fixpoint to_le_bytes (n : nat) (v : Z) : list byte :=
  match n with
  | O => []
  | S n' => byte_of_Z v :: to_le_bytes n' (v / 256)
  end.

Fixpoint from_le_bytes (bs : list byte) : Z :=
  match bs with
  | [] => 0
  | b :: bs' => byte_to_Z b + 256 * from_le_bytes bs'
  end.

Lemma length_to_le_bytes n v : length (to_le_bytes n v) = n.
Proof. revert v. induction n; intros; simpl; [done|]. by rewrite IHn. Qed.

Lemma from_le_bytes_range bs : is_uint (8 * length bs) (from_le_bytes bs).
Proof.
  unfold is_uint. induction bs as [|b bs IH]; simpl; [lia|].
  pose proof (byte_to_Z_range b) as [??].
  replace (8 * S (length bs)) with (8 + 8 * length bs) by lia.
  rewrite Z.pow_add_r by lia. lia.
Qed.

Lemma from_to_le_bytes (n : nat) v : from_le_bytes (to_le_bytes n v) = wrap (8 * n) v.
Proof.
  revert v. induction n as [|n IH]; intros v; simpl.
  - unfold wrap. by rewrite Z.mod_1_r.
  - rewrite IH, byte_to_of_Z. unfold wrap.
    replace (8 * S n) with (8 + 8 * n) by lia.
    rewrite Z.pow_add_r by lia. change (2 ^ 8) with 256.
    rewrite (Z.rem_mul_r v 256) by lia. lia.
Qed.

Lemma from_to_le_bytes_id (n : nat) v :
  is_uint (8 * n) v → from_le_bytes (to_le_bytes n v) = v.
Proof. intros. rewrite from_to_le_bytes. by apply wrap_small. Qed.

Lemma to_from_le_bytes bs : to_le_bytes (length bs) (from_le_bytes bs) = bs.
Proof.
  induction bs as [|b bs IH]; simpl; [done|].
  pose proof (byte_to_Z_range b) as [??].
  f_equal.
  - unfold byte_of_Z, wrap. change (2 ^ 8) with 256.
    rewrite (Z.mul_comm 256), Z_mod_plus_full.
    change 256 with (2 ^ 8). rewrite <-(byte_of_to_Z b) at 2. done.
  - rewrite (Z.mul_comm 256), Z.div_add, Z.div_small by lia. exact IH.
Qed.

(** ** Buffers

    [buf[i]], [buf[a..b]] and [buf[off..off + src.len()].copy_from_slice(src)];
    each of them panics out of range. *)

Definition buf_get {A} (buf : list A) (i : nat) : outcome A :=
  match buf !! i with Some x => Done x | None => Panic end.

Definition buf_slice {A} (buf : list A) (a b : nat) : outcome (list A) :=
  if (a <=? b)%nat && (b <=? length buf)%nat
  then Done (take (b - a) (drop a buf)) else Panic.

Definition buf_write {A} (buf : list A) (off : nat) (src : list A) : outcome (list A) :=
  if (off + length src <=? length buf)%nat then Done (list_inserts off src buf) else Panic.

Definition buf_set {A} (buf : list A) (i : nat) (x : A) : outcome (list A) :=
  buf_write buf i [x].

Section buffers.
Context {A : Type}.
Implicit Types (buf src : list A) (off a b : nat).

Lemma buf_write_done buf off src :
  (off + length src ≤ length buf)%nat →
  buf_write buf off src = Done (list_inserts off src buf).
Proof. intros. unfold buf_write. by rewrite (proj2 (Nat.leb_le _ _)). Qed.

Lemma buf_write_inv buf off src buf' :
  buf_write buf off src = Done buf' →
  (off + length src ≤ length buf)%nat ∧ buf' = list_inserts off src buf.
Proof.
  unfold buf_write. destruct (Nat.leb_spec (off + length src) (length buf)); [|done].
  by injection 1 as <-.
Qed.

Lemma buf_slice_done buf a b :
  (a ≤ b ≤ length buf)%nat → buf_slice buf a b = Done (take (b - a) (drop a buf)).
Proof. intros []. unfold buf_slice. by rewrite !(proj2 (Nat.leb_le _ _)) by done. Qed.

Lemma buf_get_done buf i x : buf !! i = Some x → buf_get buf i = Done x.
Proof. unfold buf_get. by intros ->. Qed.

Lemma buf_get_lt buf i : (i < length buf)%nat → is_done (buf_get buf i).
Proof. intros [x E]%lookup_lt_is_Some. exists x. by apply buf_get_done. Qed.

Lemma lookup_inserts_if buf off src i :
  (off + length src ≤ length buf)%nat →
  list_inserts off src buf !! i =
    if decide (off ≤ i < off + length src)%nat then src !! (i - off)%nat else buf !! i.
Proof.
  intros. case_decide.
  - apply list_lookup_inserts; lia.
  - destruct (decide (i < off)%nat).
    + by apply list_lookup_inserts_lt.
    + apply list_lookup_inserts_ge. lia.
Qed.

(** A slice of a written buffer: inside the window it is the written bytes,
    outside it is what was there. *)
Lemma slice_inserts_eq buf off src :
  (off + length src ≤ length buf)%nat →
  take (length src) (drop off (list_inserts off src buf)) = src.
Proof.
  intros. apply list_eq. intros i.
  destruct (decide (i < length src)%nat).
  - rewrite lookup_take_lt, lookup_drop, lookup_inserts_if by lia.
    rewrite decide_True by lia. f_equal. lia.
  - rewrite lookup_take_ge by lia. symmetry. apply lookup_ge_None. lia.
Qed.

Lemma slice_inserts_ne buf off src a n :
  (off + length src ≤ length buf)%nat → (a + n ≤ off ∨ off + length src ≤ a)%nat →
  take n (drop a (list_inserts off src buf)) = take n (drop a buf).
Proof.
  intros ? Hd. apply list_eq. intros i.
  destruct (decide (i < n)%nat).
  - rewrite !lookup_take_lt, !lookup_drop, lookup_inserts_if by lia.
    by rewrite decide_False by lia.
  - by rewrite !lookup_take_ge by lia.
Qed.

Lemma buf_slice_inserts_eq buf off src a b :
  (off + length src ≤ length buf)%nat → a = off → b = (off + length src)%nat →
  buf_slice (list_inserts off src buf) a b = Done src.
Proof.
  intros ? -> ->. rewrite buf_slice_done by (rewrite length_inserts; lia).
  replace (off + length src - off)%nat with (length src) by lia.
  by rewrite slice_inserts_eq.
Qed.

Lemma buf_slice_inserts_ne buf off src a b :
  (off + length src ≤ length buf)%nat → (a ≤ b)%nat → (b ≤ off ∨ off + length src ≤ a)%nat →
  buf_slice (list_inserts off src buf) a b = buf_slice buf a b.
Proof.
  intros. unfold buf_slice. rewrite length_inserts.
  destruct (_ && _); [|done]. rewrite slice_inserts_ne by lia. done.
Qed.

Lemma buf_get_inserts_eq buf off x :
  (off + 1 ≤ length buf)%nat → buf_get (list_inserts off [x] buf) off = Done x.
Proof.
  intros. apply buf_get_done. rewrite lookup_inserts_if by (simpl; lia).
  rewrite decide_True by (simpl; lia). by rewrite Nat.sub_diag.
Qed.

Lemma buf_get_inserts_ne buf off src i :
  (off + length src ≤ length buf)%nat → (i < off ∨ off + length src ≤ i)%nat →
  buf_get (list_inserts off src buf) i = buf_get buf i.
Proof.
  intros. unfold buf_get. rewrite lookup_inserts_if by done. by rewrite decide_False by lia.
Qed.

Lemma drop_inserts buf off src n :
  (off + length src ≤ n)%nat → drop n (list_inserts off src buf) = drop n buf.
Proof.
  intros. apply list_eq. intros i. rewrite !lookup_drop.
  apply list_lookup_inserts_ge. lia.
Qed.

(** A prefix long enough to hold the slice decides it. *)
Lemma buf_slice_take buf n a b :
  (a ≤ b ≤ n)%nat → (n ≤ length buf)%nat → buf_slice (take n buf) a b = buf_slice buf a b.
Proof.
  intros [] ?. rewrite !buf_slice_done by (rewrite ?length_take; lia).
  rewrite skipn_firstn_comm, take_take. by rewrite Nat.min_l by lia.
Qed.

Lemma buf_slice_take_eq buf1 buf2 n a b :
  take n buf1 = take n buf2 → (n ≤ length buf1)%nat → (n ≤ length buf2)%nat →
  (a ≤ b ≤ n)%nat → buf_slice buf1 a b = buf_slice buf2 a b.
Proof.
  intros E ???. rewrite <-(buf_slice_take buf1 n), <-(buf_slice_take buf2 n) by done.
  by rewrite E.
Qed.

Lemma take_inserts buf off src n :
  (n ≤ off)%nat → take n (list_inserts off src buf) = take n buf.
Proof.
  intros. apply list_eq. intros i. destruct (decide (i < n)%nat).
  - rewrite !lookup_take_lt by done. apply list_lookup_inserts_lt. lia.
  - by rewrite !lookup_take_ge by lia.
Qed.

Lemma take_inserts_in buf off src n :
  (off + length src ≤ n ≤ length buf)%nat →
  take n (list_inserts off src buf) = list_inserts off src (take n buf).
Proof.
  intros []. apply list_eq. intros i. rewrite (lookup_inserts_if (take n buf)) by (rewrite length_take; lia).
  destruct (decide (i < n)%nat).
  - rewrite lookup_take_lt, lookup_inserts_if by lia. case_decide; [done|]. by rewrite lookup_take_lt.
  - rewrite lookup_take_ge, decide_False, lookup_take_ge by lia. done.
Qed.

Lemma buf_get_take buf n i : (i < n)%nat → buf_get (take n buf) i = buf_get buf i.
Proof. intros. unfold buf_get. by rewrite lookup_take_lt. Qed.
End buffers.

(** [buf_len] closes the length side conditions of the buffer lemmas;
    [buf_simpl] runs a sequence of writes and reads. *)
Global Arguments to_le_bytes : simpl never.

Ltac buf_len :=
  rewrite ?length_inserts, ?length_to_le_bytes; simpl length;
  rewrite ?length_to_le_bytes; try lia.

Ltac buf_step :=
  first
    [ rewrite buf_write_done by buf_len
    | rewrite buf_slice_inserts_eq by buf_len
    | rewrite buf_slice_inserts_ne by buf_len
    | rewrite buf_get_inserts_eq by buf_len
    | rewrite buf_get_inserts_ne by buf_len ].

Ltac buf_simpl := repeat (buf_step; cbn [mbind outcome_bind fmap outcome_fmap]).

(** ** Counting *)

Section counting.
Context {A : Type} (P Q : A → Prop) `{!∀ x, Decision (P x), !∀ x, Decision (Q x)}.
Implicit Types l : list A.

Lemma length_filter_le l : (∀ x, x ∈ l → P x → Q x) → (length (filter P l) ≤ length (filter Q l))%nat.
Proof.
  induction l as [|y l IH]; intros Hsub; [done|]. rewrite !filter_cons.
  specialize (IH ltac:(intros; apply Hsub; [by right|done])). repeat case_decide; simpl; try lia.
  match goal with Hn : ¬ Q y |- _ => destruct Hn; apply Hsub; [by left|done] end.
Qed.

Lemma length_filter_lt l x :
  (∀ y, y ∈ l → P y → Q y) → x ∈ l → Q x → ¬ P x → (length (filter P l) < length (filter Q l))%nat.
Proof.
  intros Hsub (l1 & l2 & ->)%list_elem_of_split HQ HP. rewrite !filter_app, !length_app, !filter_cons.
  rewrite (decide_False (P := P x)), (decide_True (P := Q x)) by done. simpl.
  pose proof (length_filter_le l1 ltac:(intros; apply Hsub; [set_solver|done])).
  pose proof (length_filter_le l2 ltac:(intros; apply Hsub; [set_solver|done])). lia.
Qed.
End counting.
