(* ===== verification/Protocol.v ===== *)
(** * Wire protocol (src/protocol.rs)

    The PDU layouts, their encoders and decoders, and the block arithmetic.
    Encoders write into a caller's buffer and panic when it is too short, as the
    slice operations of the source do; decoders read a datagram of any length.
    CRC32C is a crate of its own and stays a parameter ([Crc32c]). *)

From S2P Require Import Prelude.

Definition PROTOCOL_VERSION : Z := 1.
Definition DEFAULT_BLOCK_SIZE : Z := 1400.
Definition DATA_HEADER_SIZE : nat := 36.

Definition PDU_DATA : Z := 1.
Definition PDU_FEEDBACK : Z := 2.
Definition PDU_START : Z := 5.
Definition PDU_FIN : Z := 4.

Definition FLAG_RETRANSMIT : Z := Z.shiftl 1 0.
Definition FLAG_TICK_N : Z := Z.shiftl 1 1.
Definition FLAG_HAS_TICK : Z := Z.shiftl 1 2.
Definition FLAG_LAST_BLOCK : Z := Z.shiftl 1 3.

Definition FEEDBACK_HEADER_SIZE : nat := 36.
Definition NACK_ENTRY_SIZE : nat := 16.

(** ** CRC32C

    The [crc32c] crate: a running checksum.  What the program relies on is that
    appending piecewise is appending the whole, which the crate documents. *)

Class Crc32c := {
  crate_crc32c : list byte → Z;
  crate_crc32c_append : Z → list byte → Z
}.

Class Crc32cLaws `{!Crc32c} : Prop := {
  crc_range c b : is_u32 c → is_u32 (crate_crc32c_append c b);
  crc_nil c : is_u32 c → crate_crc32c_append c [] = c;
  crc_app c a b :
    crate_crc32c_append (crate_crc32c_append c a) b = crate_crc32c_append c (a ++ b);
  crc_whole b : crate_crc32c b = crate_crc32c_append 0 b
}.

Definition crc32c `{!Crc32c} (b : list byte) : Z := crate_crc32c b.
Definition crc32c_append `{!Crc32c} (crc : Z) (b : list byte) : Z :=
  crate_crc32c_append crc b.

(** The checksum itself (reflected Castagnoli polynomial, bit by bit), a concrete
    instance of the interface. *)

Definition castagnoli_bit (c : Z) : Z :=
  if Z.odd c then Z.lxor (Z.shiftr c 1) 0x82F63B78 else Z.shiftr c 1.
Definition castagnoli_byte (c : Z) (b : byte) : Z :=
  Nat.iter 8 castagnoli_bit (Z.lxor c (byte_to_Z b)).
Definition castagnoli_append (crc : Z) (b : list byte) : Z :=
  Z.lxor (foldl castagnoli_byte (Z.lxor crc 0xFFFFFFFF) b) 0xFFFFFFFF.

Definition castagnoli : Crc32c := {|
  crate_crc32c := castagnoli_append 0;
  crate_crc32c_append := castagnoli_append
|}.

Lemma lxor_range w a b : 0 ≤ w → is_uint w a → is_uint w b → is_uint w (Z.lxor a b).
Proof.
  intros Hw [Ha0 Ha] [Hb0 Hb]. assert (0 ≤ Z.lxor a b) by (apply Z.lxor_nonneg; lia).
  split; [done|].
  apply Z.bounded_iff_bits_nonneg; [done..|]. intros l ?. rewrite Z.lxor_spec.
  rewrite (proj1 (Z.bounded_iff_bits_nonneg w a Hw Ha0) Ha l) by done.
  by rewrite (proj1 (Z.bounded_iff_bits_nonneg w b Hw Hb0) Hb l) by done.
Qed.

Lemma lxor_cancel a b : Z.lxor (Z.lxor a b) b = a.
Proof. by rewrite Z.lxor_assoc, Z.lxor_nilpotent, Z.lxor_0_r. Qed.

Lemma castagnoli_bit_range c : is_u32 c → is_u32 (castagnoli_bit c).
Proof.
  intros [??]. assert (is_u32 (Z.shiftr c 1)).
  { rewrite Z.shiftr_div_pow2 by lia. change (2 ^ 1) with 2. unfold is_uint.
    split; [apply Z.div_pos; lia|apply Z.div_lt_upper_bound; lia]. }
  unfold castagnoli_bit. destruct (Z.odd c); [|done]. by apply lxor_range.
Qed.

Lemma castagnoli_fold_range b : ∀ c, is_u32 c → is_u32 (foldl castagnoli_byte c b).
Proof.
  induction b as [|x b IH]; intros c Hc; simpl; [done|]. apply IH. unfold castagnoli_byte.
  simpl. do 8 apply castagnoli_bit_range. apply lxor_range; [done..|].
  pose proof (byte_to_Z_range x) as [??]. unfold is_uint. lia.
Qed.

Lemma castagnoli_laws : @Crc32cLaws castagnoli.
Proof.
  split; simpl; unfold castagnoli_append.
  - intros c b Hc. apply lxor_range; [done| |done]. apply castagnoli_fold_range.
    by apply lxor_range.
  - intros c _. apply lxor_cancel.
  - intros c a b. by rewrite lxor_cancel, foldl_app.
  - done.
Qed.

(** ** Little-endian helpers

    [put_uN] writes at an offset of the buffer ([&mut buf[off..]] in the
    source), [get_uN] reads the head of a slice. *)

Definition put_u16 (buf : list byte) (off : nat) (v : Z) : outcome (list byte) :=
  buf_write buf off (to_le_bytes 2 v).
Definition put_u32 (buf : list byte) (off : nat) (v : Z) : outcome (list byte) :=
  buf_write buf off (to_le_bytes 4 v).
Definition put_u64 (buf : list byte) (off : nat) (v : Z) : outcome (list byte) :=
  buf_write buf off (to_le_bytes 8 v).

Definition get_u16 (b : list byte) : outcome Z := from_le_bytes <$> buf_slice b 0 2.
Definition get_u32 (b : list byte) : outcome Z := from_le_bytes <$> buf_slice b 0 4.
Definition get_u64 (b : list byte) : outcome Z := from_le_bytes <$> buf_slice b 0 8.

Global Arguments get_u16 : simpl never.
Global Arguments get_u32 : simpl never.
Global Arguments get_u64 : simpl never.

Definition put_echo_tick (buf : list byte) (v : Z) : outcome (list byte) :=
  put_u64 buf 16 v.

(** ** DATA *)

Record DataHeader := mkDataHeader {
  dh_flags : Z;
  dh_payload_len : Z;
  dh_session : Z;
  dh_block_seq : Z;
  dh_echo_tick : Z;
  dh_rex_index : Z;
  dh_payload_crc : Z
}.

Global Instance DataHeader_eq_dec : EqDecision DataHeader.
Proof. solve_decision. Defined.

(** The field types: u8, u16, u32, u64, u64, i64, u32. *)
Definition wf_data_header (h : DataHeader) : Prop :=
  is_u8 (dh_flags h) ∧ is_u16 (dh_payload_len h) ∧ is_u32 (dh_session h) ∧
  is_u64 (dh_block_seq h) ∧ is_u64 (dh_echo_tick h) ∧ is_i64 (dh_rex_index h) ∧
  is_u32 (dh_payload_crc h).

Definition encode_data_header (buf : list byte) (h : DataHeader) : outcome (list byte) :=
  buf ← buf_set buf 0 (byte_of_Z PDU_DATA);
  buf ← buf_set buf 1 (byte_of_Z (dh_flags h));
  buf ← put_u16 buf 2 (dh_payload_len h);
  buf ← put_u32 buf 4 (dh_session h);
  buf ← put_u64 buf 8 (dh_block_seq h);
  buf ← put_u64 buf 16 (dh_echo_tick h);
  buf ← put_u64 buf 24 (i64_as_u64 (dh_rex_index h));
  put_u32 buf 32 (dh_payload_crc h).

Definition decode_data_header (buf : list byte) : outcome (option DataHeader) :=
  if (length buf <? DATA_HEADER_SIZE)%nat then Done None else
  b0 ← buf_get buf 0;
  if negb (byte_to_Z b0 =? PDU_DATA) then Done None else
  b1 ← buf_get buf 1;
  plen ← buf_slice buf 2 4 ≫= get_u16;
  session ← buf_slice buf 4 8 ≫= get_u32;
  seq ← buf_slice buf 8 16 ≫= get_u64;
  tick ← buf_slice buf 16 24 ≫= get_u64;
  rex ← buf_slice buf 24 32 ≫= get_u64;
  crc ← buf_slice buf 32 36 ≫= get_u32;
  Done (Some {| dh_flags := byte_to_Z b1; dh_payload_len := plen; dh_session := session;
                dh_block_seq := seq; dh_echo_tick := tick; dh_rex_index := u64_as_i64 rex;
                dh_payload_crc := crc |}).

(** ** FEEDBACK *)

Record FeedbackHeader := mkFeedbackHeader {
  fh_tick_is_network : bool;
  fh_nack_count : Z;
  fh_session : Z;
  fh_tick : Z;
  fh_target_rate : Z;
  fh_hi_contig : Z;
  fh_done : bool
}.

Record NackEntry := mkNackEntry {
  ne_block_seq : Z;
  ne_rex_index : Z
}.

Global Instance FeedbackHeader_eq_dec : EqDecision FeedbackHeader.
Proof. solve_decision. Defined.
Global Instance NackEntry_eq_dec : EqDecision NackEntry.
Proof. solve_decision. Defined.

Definition wf_feedback_header (h : FeedbackHeader) : Prop :=
  is_u16 (fh_nack_count h) ∧ is_u32 (fh_session h) ∧ is_u64 (fh_tick h) ∧
  is_u64 (fh_target_rate h) ∧ is_u64 (fh_hi_contig h).
Definition wf_nack (n : NackEntry) : Prop :=
  is_u64 (ne_block_seq n) ∧ is_i64 (ne_rex_index n).

(** The loop of [encode_feedback]: one 16-byte entry per NACK from [off]. *)
Fixpoint encode_nacks (buf : list byte) (off : nat) (nacks : list NackEntry)
    : outcome (list byte * nat) :=
  match nacks with
  | [] => Done (buf, off)
  | n :: nacks' =>
      buf ← put_u64 buf off (ne_block_seq n);
      buf ← put_u64 buf (off + 8) (i64_as_u64 (ne_rex_index n));
      encode_nacks buf (off + NACK_ENTRY_SIZE) nacks'
  end.

Definition encode_feedback (buf : list byte) (h : FeedbackHeader) (nacks : list NackEntry)
    : outcome (list byte * nat) :=
  buf ← buf_set buf 0 (byte_of_Z PDU_FEEDBACK);
  let flags := if fh_tick_is_network h then Z.lor 0 FLAG_TICK_N else 0 in
  buf ← buf_set buf 1 (byte_of_Z flags);
  buf ← put_u16 buf 2 (wrap 16 (length nacks));
  buf ← put_u32 buf 4 (fh_session h);
  buf ← put_u64 buf 8 (fh_tick h);
  buf ← put_u64 buf 16 (fh_target_rate h);
  buf ← put_u64 buf 24 (fh_hi_contig h);
  buf ← buf_set buf 32 (byte_of_Z (if fh_done h then 1 else 0));
  buf ← buf_set buf 33 (byte_of_Z 0);
  buf ← buf_set buf 34 (byte_of_Z 0);
  buf ← buf_set buf 35 (byte_of_Z 0);
  encode_nacks buf FEEDBACK_HEADER_SIZE nacks.

(** The loop of [decode_feedback]: [count] entries from [off]. *)
Fixpoint decode_nacks (buf : list byte) (off : nat) (count : nat) : outcome (list NackEntry) :=
  match count with
  | O => Done []
  | S count' =>
      seq ← buf_slice buf off (off + 8) ≫= get_u64;
      rex ← buf_slice buf (off + 8) (off + 16) ≫= get_u64;
      rest ← decode_nacks buf (off + NACK_ENTRY_SIZE) count';
      Done ({| ne_block_seq := seq; ne_rex_index := u64_as_i64 rex |} :: rest)
  end.

Definition decode_feedback (buf : list byte)
    : outcome (option (FeedbackHeader * list NackEntry)) :=
  if (length buf <? FEEDBACK_HEADER_SIZE)%nat then Done None else
  b0 ← buf_get buf 0;
  if negb (byte_to_Z b0 =? PDU_FEEDBACK) then Done None else
  b1 ← buf_get buf 1;
  count ← buf_slice buf 2 4 ≫= get_u16;
  session ← buf_slice buf 4 8 ≫= get_u32;
  tick ← buf_slice buf 8 16 ≫= get_u64;
  rate ← buf_slice buf 16 24 ≫= get_u64;
  hi ← buf_slice buf 24 32 ≫= get_u64;
  done ← buf_get buf 32;
  let need := (FEEDBACK_HEADER_SIZE + Z.to_nat count * NACK_ENTRY_SIZE)%nat in
  if (length buf <? need)%nat then Done None else
  nacks ← decode_nacks buf FEEDBACK_HEADER_SIZE (Z.to_nat count);
  Done (Some ({| fh_tick_is_network := negb (Z.land (byte_to_Z b1) FLAG_TICK_N =? 0);
                 fh_nack_count := wrap 16 (length nacks); fh_session := session;
                 fh_tick := tick; fh_target_rate := rate; fh_hi_contig := hi;
                 fh_done := byte_to_Z done =? 1 |}, nacks)).

(** ** START and FIN *)

Definition encode_start (buf : list byte) (session : Z) : outcome (list byte * nat) :=
  buf ← buf_set buf 0 (byte_of_Z PDU_START);
  buf ← buf_set buf 1 (byte_of_Z 0);
  buf ← buf_set buf 2 (byte_of_Z 0);
  buf ← buf_set buf 3 (byte_of_Z 0);
  buf ← put_u32 buf 4 session;
  Done (buf, 8%nat).

Definition decode_start (buf : list byte) : outcome (option Z) :=
  if (length buf <? 8)%nat then Done None else
  b0 ← buf_get buf 0;
  if negb (byte_to_Z b0 =? PDU_START) then Done None else
  session ← buf_slice buf 4 8 ≫= get_u32;
  Done (Some session).

Definition encode_fin (buf : list byte) (session total_blocks : Z)
    : outcome (list byte * nat) :=
  buf ← buf_set buf 0 (byte_of_Z PDU_FIN);
  buf ← buf_set buf 1 (byte_of_Z 0);
  buf ← buf_set buf 2 (byte_of_Z 0);
  buf ← buf_set buf 3 (byte_of_Z 0);
  buf ← put_u32 buf 4 session;
  buf ← put_u64 buf 8 total_blocks;
  Done (buf, 16%nat).

Definition decode_fin (buf : list byte) : outcome (option (Z * Z)) :=
  if (length buf <? 16)%nat then Done None else
  b0 ← buf_get buf 0;
  if negb (byte_to_Z b0 =? PDU_FIN) then Done None else
  session ← buf_slice buf 4 8 ≫= get_u32;
  total ← buf_slice buf 8 16 ≫= get_u64;
  Done (Some (session, total)).

(** [pdu_type]: the type byte, 0 when the datagram is empty. *)
Definition pdu_type (buf : list byte) : Z :=
  match buf with [] => 0 | b :: _ => byte_to_Z b end.

(** [num_blocks]: how many fixed-size blocks a file of [size] bytes has. *)
Definition num_blocks (size block_size : Z) : outcome Z :=
  if size <=? 0 then Done 0
  else if block_size =? 0 then Panic else Done (div_ceil size block_size).

(** ** Reading back what was written *)

Lemma buf_slice_all (n : nat) v :
  buf_slice (to_le_bytes n v) 0 n = Done (to_le_bytes n v).
Proof.
  rewrite buf_slice_done by (rewrite length_to_le_bytes; lia).
  rewrite drop_0, Nat.sub_0_r, take_ge by (rewrite length_to_le_bytes; lia). done.
Qed.

Lemma get_u16_le v : is_u16 v → get_u16 (to_le_bytes 2 v) = Done v.
Proof. intros. unfold get_u16. rewrite buf_slice_all. cbn [fmap outcome_fmap]. by rewrite from_to_le_bytes_id. Qed.
Lemma get_u32_le v : is_u32 v → get_u32 (to_le_bytes 4 v) = Done v.
Proof. intros. unfold get_u32. rewrite buf_slice_all. cbn [fmap outcome_fmap]. by rewrite from_to_le_bytes_id. Qed.
Lemma get_u64_le v : is_u64 v → get_u64 (to_le_bytes 8 v) = Done v.
Proof. intros. unfold get_u64. rewrite buf_slice_all. cbn [fmap outcome_fmap]. by rewrite from_to_le_bytes_id. Qed.

Ltac wire_simpl :=
  repeat first
    [ buf_step
    | rewrite get_u16_le by done
    | rewrite get_u32_le by done
    | rewrite get_u64_le by done
    | progress cbn [mbind outcome_bind fmap outcome_fmap] ].

(** [encode_data_header] writes the 36 header bytes and nothing else. *)
Lemma encode_data_header_done buf h :
  (DATA_HEADER_SIZE ≤ length buf)%nat →
  ∃ buf', encode_data_header buf h = Done buf' ∧ length buf' = length buf ∧
          drop DATA_HEADER_SIZE buf' = drop DATA_HEADER_SIZE buf.
Proof.
  unfold DATA_HEADER_SIZE. intros Hl. unfold encode_data_header, buf_set, put_u16, put_u32, put_u64.
  wire_simpl. eexists. split; [done|]. split; [by buf_len|].
  repeat rewrite drop_inserts by buf_len. done.
Qed.

Lemma decode_encode_data_header buf h buf' :
  (DATA_HEADER_SIZE ≤ length buf)%nat → wf_data_header h →
  encode_data_header buf h = Done buf' →
  decode_data_header buf' = Done (Some h).
Proof.
  destruct h as [fl pl ss sq tk rx cr]. intros Hl (Hfl&Hpl&Hss&Hsq&Htk&Hrx&Hcr) He.
  revert He. unfold DATA_HEADER_SIZE in Hl.
  unfold encode_data_header, buf_set, put_u16, put_u32, put_u64.
  wire_simpl. intros <-%Done_inj. unfold decode_data_header.
  rewrite (proj2 (Nat.ltb_ge _ _)) by (unfold DATA_HEADER_SIZE; buf_len).
  wire_simpl. rewrite !byte_to_of_Z. change (wrap 8 PDU_DATA =? PDU_DATA) with true. cbn [negb dh_flags].
  assert (is_u64 (i64_as_u64 rx)) by (apply wrap_range; lia).
  wire_simpl. rewrite wrap_small, u64_as_i64_as_u64 by done. done.
Qed.

Lemma encode_nacks_spec nacks : ∀ buf off,
  Forall wf_nack nacks → (off + NACK_ENTRY_SIZE * length nacks ≤ length buf)%nat →
  ∃ buf', encode_nacks buf off nacks = Done (buf', off + NACK_ENTRY_SIZE * length nacks)%nat ∧
    length buf' = length buf ∧ take off buf' = take off buf ∧
    decode_nacks buf' off (length nacks) = Done nacks.
Proof.
  unfold NACK_ENTRY_SIZE.
  induction nacks as [|[sq rx] nacks IH]; intros buf off Hwf Hl; simpl length in *.
  { exists buf. rewrite Nat.mul_0_r, Nat.add_0_r. done. }
  apply Forall_cons in Hwf as [[Hsq Hrx] Hwf]. simpl in Hsq, Hrx.
  cbn [encode_nacks decode_nacks ne_block_seq ne_rex_index]. unfold put_u64.
  wire_simpl.
  set (buf1 := list_inserts (off + 8) _ _).
  assert (length buf1 = length buf) as Hl1 by (unfold buf1; by buf_len).
  destruct (IH buf1 (off + 16)%nat Hwf) as (buf' & He & Hl' & Ht & Hd); [lia|].
  exists buf'. unfold NACK_ENTRY_SIZE. rewrite He. split; [do 2 f_equal; lia|]. split; [lia|].
  split.
  - apply (f_equal (take off)) in Ht. rewrite !take_take, Nat.min_l in Ht by lia.
    rewrite Ht. unfold buf1. rewrite !take_inserts by lia. done.
  - rewrite !(buf_slice_take_eq buf' buf1 (off + 16)) by (done || lia).
    assert (is_u64 (i64_as_u64 rx)) by (apply wrap_range; lia).
    unfold buf1. replace (off + 16)%nat with (off + 8 + 8)%nat at 1 by lia.
    wire_simpl. fold buf1. rewrite Hd. wire_simpl.
    by rewrite u64_as_i64_as_u64.
Qed.

Lemma decode_nacks_take count : ∀ buf off n,
  (off + NACK_ENTRY_SIZE * count ≤ n ≤ length buf)%nat →
  decode_nacks (take n buf) off count = decode_nacks buf off count.
Proof.
  unfold NACK_ENTRY_SIZE. induction count as [|count IH]; intros buf off n []; [done|].
  cbn [decode_nacks]. rewrite !buf_slice_take by lia.
  unfold NACK_ENTRY_SIZE. by rewrite IH by lia.
Qed.

(** The buffer after the header part of [encode_feedback]. *)
Definition feedback_header_bytes (h : FeedbackHeader) (count : Z) (buf : list byte) : list byte :=
  let flags := if fh_tick_is_network h then Z.lor 0 FLAG_TICK_N else 0 in
  list_inserts 35 [byte_of_Z 0] $ list_inserts 34 [byte_of_Z 0] $
  list_inserts 33 [byte_of_Z 0] $
  list_inserts 32 [byte_of_Z (if fh_done h then 1 else 0)] $
  list_inserts 24 (to_le_bytes 8 (fh_hi_contig h)) $
  list_inserts 16 (to_le_bytes 8 (fh_target_rate h)) $
  list_inserts 8 (to_le_bytes 8 (fh_tick h)) $
  list_inserts 4 (to_le_bytes 4 (fh_session h)) $
  list_inserts 2 (to_le_bytes 2 count) $
  list_inserts 1 [byte_of_Z flags] $ list_inserts 0 [byte_of_Z PDU_FEEDBACK] buf.

Lemma encode_feedback_split buf h nacks :
  (FEEDBACK_HEADER_SIZE ≤ length buf)%nat →
  encode_feedback buf h nacks =
    encode_nacks (feedback_header_bytes h (wrap 16 (length nacks)) buf)
      FEEDBACK_HEADER_SIZE nacks.
Proof.
  unfold FEEDBACK_HEADER_SIZE. intros.
  unfold encode_feedback, buf_set, put_u16, put_u32, put_u64. wire_simpl. done.
Qed.

Lemma length_feedback_header_bytes h count buf :
  length (feedback_header_bytes h count buf) = length buf.
Proof. unfold feedback_header_bytes. by rewrite !length_inserts. Qed.

(** The header part of [decode_feedback] over those bytes. *)
Lemma decode_feedback_header b h count buf :
  (FEEDBACK_HEADER_SIZE ≤ length buf)%nat → (FEEDBACK_HEADER_SIZE ≤ length b)%nat →
  take FEEDBACK_HEADER_SIZE b =
    take FEEDBACK_HEADER_SIZE (feedback_header_bytes h count buf) →
  is_u16 count → wf_feedback_header h →
  decode_feedback b =
    (if (length b <? FEEDBACK_HEADER_SIZE + Z.to_nat count * NACK_ENTRY_SIZE)%nat
     then Done None else
     nacks ← decode_nacks b FEEDBACK_HEADER_SIZE (Z.to_nat count);
     Done (Some ({| fh_tick_is_network := fh_tick_is_network h;
                    fh_nack_count := wrap 16 (length nacks); fh_session := fh_session h;
                    fh_tick := fh_tick h; fh_target_rate := fh_target_rate h;
                    fh_hi_contig := fh_hi_contig h; fh_done := fh_done h |}, nacks))).
Proof.
  unfold FEEDBACK_HEADER_SIZE. intros Hl Hb Ht Hc (_&Hss&Htk&Hrt&Hhi).
  unfold decode_feedback, FEEDBACK_HEADER_SIZE.
  rewrite (proj2 (Nat.ltb_ge _ _)) by lia.
  rewrite <-!(buf_get_take b 36) by lia. rewrite <-!(buf_slice_take b 36) by lia.
  rewrite Ht. rewrite !buf_get_take by lia.
  rewrite !buf_slice_take by (rewrite ?length_feedback_header_bytes; lia).
  unfold feedback_header_bytes. wire_simpl. rewrite !byte_to_of_Z.
  change (wrap 8 PDU_FEEDBACK =? PDU_FEEDBACK) with true. cbn [negb]. wire_simpl.
  by destruct (fh_tick_is_network h), (fh_done h).
Qed.

(** ** Panic freedom of the decoders *)

Lemma get_uN_range (n : nat) (b : list byte) a e :
  (a + n = e)%nat → (e ≤ length b)%nat →
  ∃ v, (buf_slice b a e ≫= λ s, from_le_bytes <$> buf_slice s 0 n) = Done v ∧
       is_uint (8 * n) v.
Proof.
  intros. rewrite buf_slice_done by lia. cbn [mbind outcome_bind].
  assert (length (take (e - a) (drop a b)) = n) as Hn
    by (rewrite length_take, length_drop; lia).
  rewrite buf_slice_done by lia. cbn [fmap outcome_fmap].
  eexists. split; [done|]. rewrite drop_0, Nat.sub_0_r, take_ge by lia.
  rewrite <-Hn at 1. apply from_le_bytes_range.
Qed.

(** Reads of the decoders, one after the other, each in range. *)
Ltac read_ok :=
  repeat match goal with
  | |- context [buf_slice ?b ?a ?e ≫= get_u16] =>
      destruct (get_uN_range 2 b a e) as (? & Hr & ?); [lia|lia|]; unfold get_u16 at 1; rewrite Hr; clear Hr
  | |- context [buf_slice ?b ?a ?e ≫= get_u32] =>
      destruct (get_uN_range 4 b a e) as (? & Hr & ?); [lia|lia|]; unfold get_u32 at 1; rewrite Hr; clear Hr
  | |- context [buf_slice ?b ?a ?e ≫= get_u64] =>
      destruct (get_uN_range 8 b a e) as (? & Hr & ?); [lia|lia|]; unfold get_u64 at 1; rewrite Hr; clear Hr
  | |- context [buf_get ?b ?i] =>
      destruct (buf_get_lt b i) as [? Hr]; [lia|]; rewrite Hr; clear Hr
  | |- context [match Done _ with _ => _ end] => progress simpl
  | _ => progress cbn [mbind outcome_bind]
  end.

Lemma decode_data_header_total buf :
  ∃ r, decode_data_header buf = Done r ∧ from_option wf_data_header True r.
Proof.
  unfold decode_data_header, DATA_HEADER_SIZE.
  destruct (Nat.ltb_spec (length buf) 36); [by eexists|].
  read_ok. destruct (negb _); [by eexists|]. read_ok. eexists. split; [done|].
  unfold wf_data_header; simpl. pose proof byte_to_Z_range. pose proof u64_as_i64_range. naive_solver.
Qed.

Lemma decode_nacks_total count : ∀ buf off,
  (off + NACK_ENTRY_SIZE * count ≤ length buf)%nat →
  ∃ nacks, decode_nacks buf off count = Done nacks ∧ length nacks = count ∧
           Forall wf_nack nacks.
Proof.
  unfold NACK_ENTRY_SIZE. induction count as [|count IH]; intros buf off Hl; [by exists []|].
  cbn [decode_nacks]. unfold NACK_ENTRY_SIZE. read_ok.
  destruct (IH buf (off + 16)%nat) as (nacks & -> & <- & ?); [lia|]. simpl.
  eexists. split; [done|]. split; [done|]. constructor; [|done].
  split; [done|]. apply u64_as_i64_range.
Qed.

Lemma decode_feedback_total buf :
  ∃ r, decode_feedback buf = Done r ∧
    ∀ h nacks, r = Some (h, nacks) →
      wf_feedback_header h ∧ Forall wf_nack nacks ∧ fh_nack_count h = length nacks ∧
      (FEEDBACK_HEADER_SIZE + NACK_ENTRY_SIZE * length nacks ≤ length buf)%nat.
Proof.
  unfold decode_feedback, FEEDBACK_HEADER_SIZE.
  destruct (Nat.ltb_spec (length buf) 36); [by eexists|].
  read_ok. destruct (negb _); [by eexists|]. read_ok.
  match goal with |- context [decode_nacks _ _ (Z.to_nat ?c)] => rename c into count end.
  match goal with H : is_uint _ count |- _ => rename H into Hcount end.
  destruct (Nat.ltb_spec (length buf) (36 + Z.to_nat count * NACK_ENTRY_SIZE));
    [by eexists|]. unfold NACK_ENTRY_SIZE in *.
  destruct (decode_nacks_total (Z.to_nat count) buf 36) as (nacks & -> & Hn & ?);
    [unfold NACK_ENTRY_SIZE; lia|]. simpl.
  eexists. split; [done|]. intros h' nacks' [= <- <-]. unfold is_uint in Hcount.
  assert (is_u16 (length nacks)) by (unfold is_uint; lia). rewrite wrap_small by done.
  unfold wf_feedback_header; simpl. split_and!; try done. lia.
Qed.

(** A feedback PDU cut short is not read: the count in its header asks for more bytes. *)
Lemma decode_feedback_cut buf h nacks m :
  decode_feedback buf = Done (Some (h, nacks)) →
  (m < FEEDBACK_HEADER_SIZE + NACK_ENTRY_SIZE * length nacks)%nat → decode_feedback (take m buf) = Done None.
Proof.
  intros E Hm. destruct (decode_feedback_total buf) as (r & Er & Hr). rewrite E in Er. apply Done_inj in Er as <-.
  destruct (Hr _ _ eq_refl) as (_ & _ & _ & Hl). revert E. unfold decode_feedback.
  rewrite length_take_le by lia. destruct (Nat.ltb_spec m FEEDBACK_HEADER_SIZE) as [|Hh]; [done|].
  rewrite (proj2 (Nat.ltb_ge _ _)) by lia. unfold FEEDBACK_HEADER_SIZE in *. rewrite !buf_get_take by lia.
  rewrite !buf_slice_take by lia.
  destruct (buf_get buf 0) as [b0|]; cbn [mbind outcome_bind]; [|done]. destruct (negb _); [done|].
  destruct (buf_get buf 1) as [b1|]; cbn [mbind outcome_bind]; [|done].
  destruct (buf_slice buf 2 4 ≫= get_u16) as [count|] eqn:Ec; [|done]. cbn [mbind outcome_bind].
  destruct (buf_slice buf 4 8 ≫= get_u32) as [session|]; cbn [mbind outcome_bind]; [|done].
  destruct (buf_slice buf 8 16 ≫= get_u64) as [tick|]; cbn [mbind outcome_bind]; [|done].
  destruct (buf_slice buf 16 24 ≫= get_u64) as [rate|]; cbn [mbind outcome_bind]; [|done].
  destruct (buf_slice buf 24 32 ≫= get_u64) as [hi|]; cbn [mbind outcome_bind]; [|done].
  destruct (buf_get buf 32) as [dn|]; cbn [mbind outcome_bind]; [|done].
  destruct (Nat.ltb_spec (length buf) (36 + Z.to_nat count * NACK_ENTRY_SIZE)); [done|].
  destruct (decode_nacks_total (Z.to_nat count) buf 36) as (ns & -> & Hlen & _); [unfold NACK_ENTRY_SIZE in *; lia|].
  cbn [mbind outcome_bind]. intros [= _ ->]. unfold NACK_ENTRY_SIZE in *. rewrite (proj2 (Nat.ltb_lt _ _)); [done|]. lia.
Qed.

Lemma decode_start_total buf : is_done (decode_start buf).
Proof.
  unfold decode_start. destruct (Nat.ltb_spec (length buf) 8); [by eexists|].
  read_ok. destruct (negb _); [by eexists|]. read_ok. by eexists.
Qed.

Lemma decode_fin_total buf :
  ∃ r, decode_fin buf = Done r ∧
       from_option (λ '(s, t), is_u32 s ∧ is_u64 t) True r.
Proof.
  unfold decode_fin. destruct (Nat.ltb_spec (length buf) 16); [by eexists|].
  read_ok. destruct (negb _); [by eexists|]. read_ok. eexists. split; [done|]. done.
Qed.

(** [encode_start] and [encode_fin] on a buffer of exactly their length, as the
    callers allocate it. *)
Lemma encode_start_done session buf :
  length buf = 8%nat → is_u32 session →
  ∃ buf', encode_start buf session = Done (buf', 8%nat) ∧ length buf' = 8%nat ∧
    pdu_type buf' = PDU_START ∧ decode_start buf' = Done (Some session).
Proof.
  intros. unfold encode_start, buf_set, put_u32. wire_simpl.
  eexists. split; [done|]. split; [by buf_len|]. split.
  - by do 8 (destruct buf as [|? buf]; [done|]).
  - unfold decode_start. rewrite (proj2 (Nat.ltb_ge _ _)) by buf_len. wire_simpl.
    rewrite byte_to_of_Z. change (wrap 8 PDU_START =? PDU_START) with true. cbn [negb].
    wire_simpl. done.
Qed.

Lemma encode_fin_done session total buf :
  length buf = 16%nat → is_u32 session → is_u64 total →
  ∃ buf', encode_fin buf session total = Done (buf', 16%nat) ∧ length buf' = 16%nat ∧
    pdu_type buf' = PDU_FIN ∧ decode_fin buf' = Done (Some (session, total)).
Proof.
  intros. unfold encode_fin, buf_set, put_u32, put_u64. wire_simpl.
  eexists. split; [done|]. split; [by buf_len|]. split.
  - by do 16 (destruct buf as [|? buf]; [done|]).
  - unfold decode_fin. rewrite (proj2 (Nat.ltb_ge _ _)) by buf_len. wire_simpl.
    rewrite byte_to_of_Z. change (wrap 8 PDU_FIN =? PDU_FIN) with true. cbn [negb].
    wire_simpl. done.
Qed.

Lemma num_blocks_done size bs :
  0 < bs →
  ∃ n, num_blocks size bs = Done n ∧ 0 ≤ n ∧
    (0 < size → bs * (n - 1) < size ≤ bs * n) ∧ (size ≤ 0 → n = 0).
Proof.
  intros. unfold num_blocks. destruct (Z.leb_spec size 0).
  { exists 0. split; [done|]. split; [done|]. split; [lia|done]. }
  rewrite (proj2 (Z.eqb_neq bs 0)) by lia. eexists. split; [done|].
  pose proof (div_ceil_bounds size bs ltac:(done)). split; [nia|]. split; [done|lia].
Qed.

(** Result: a DATA header survives the wire.  Encoding any well-typed header into a
    buffer of at least 36 bytes succeeds, leaves the payload bytes after it as they
    were, and decoding the result gives the header back. *)
Theorem data_header_roundtrip buf h :
  wf_data_header h → (DATA_HEADER_SIZE ≤ length buf)%nat →
  ∃ buf', encode_data_header buf h = Done buf' ∧
    drop DATA_HEADER_SIZE buf' = drop DATA_HEADER_SIZE buf ∧
    decode_data_header buf' = Done (Some h).
Proof.
  intros Hwf Hl. destruct (encode_data_header_done buf h Hl) as (buf' & He & _ & Hd).
  exists buf'. split; [done|]. split; [done|]. by eapply decode_encode_data_header.
Qed.

Lemma data_header_roundtrip_witness :
  let h := mkDataHeader 15 1400 0xDEADBEEF 0x0123456789ABCDEF 123456789 (-42) 0xCAFEBABE in
  ∃ buf', encode_data_header (replicate 40 xff) h = Done buf' ∧
    drop DATA_HEADER_SIZE buf' = drop DATA_HEADER_SIZE (replicate 40 xff) ∧
    decode_data_header buf' = Done (Some h).
Proof.
  intros h. apply (data_header_roundtrip (replicate 40 xff) h).
  - unfold h, wf_data_header, is_uint, is_i64; simpl. lia.
  - simpl. unfold DATA_HEADER_SIZE. lia.
Defined.

Lemma encode_feedback_length buf h nacks buf' n :
  encode_feedback buf h nacks = Done (buf', n) → length buf' = length buf.
Proof.
  assert (∀ b off src b', @buf_write byte b off src = Done b' → length b' = length b) as Hw.
  { intros b off src b' [_ ->]%buf_write_inv. apply length_inserts. }
  assert (∀ nacks b off b' n, encode_nacks b off nacks = Done (b', n) → length b' = length b) as Hn.
  { clear -Hw. induction nacks as [|x nacks IH]; intros b off b' n; cbn [encode_nacks].
    - by intros [= <- _].
    - intros (b1 & E1 & (b2 & E2 & E3)%outcome_bind_done)%outcome_bind_done.
      rewrite (IH _ _ _ _ E3), (Hw _ _ _ _ E2). by eapply Hw. }
  unfold encode_feedback, buf_set, put_u16, put_u32, put_u64. intros E.
  repeat match type of E with
  | (buf_write _ _ _ ≫= _) = Done _ =>
      let b := fresh "b" in let Eb := fresh "Eb" in
      apply outcome_bind_done in E as (b & Eb & E); apply Hw in Eb
  end.
  apply Hn in E. congruence.
Qed.

(** The blocks of a file are the indices below [num_blocks]. *)
Lemma num_blocks_index size bs n seq :
  0 < bs → num_blocks size bs = Done n → 0 ≤ seq → seq < n ↔ seq * bs < size.
Proof.
  intros Hbs E Hs. destruct (num_blocks_done size bs Hbs) as (m & E' & Hm & Hp & Hz).
  rewrite E in E'. apply Done_inj in E' as <-. destruct (decide (size ≤ 0)); [specialize (Hz ltac:(lia)); nia|].
  specialize (Hp ltac:(lia)). nia.
Qed.

(** [decode_feedback] after [encode_feedback]. *)
Lemma decode_encode_feedback buf h nacks :
  wf_feedback_header h → Forall wf_nack nacks → Z.of_nat (length nacks) < 2 ^ 16 →
  (FEEDBACK_HEADER_SIZE + NACK_ENTRY_SIZE * length nacks ≤ length buf)%nat →
  ∃ buf' n, encode_feedback buf h nacks = Done (buf', n) ∧
    n = (FEEDBACK_HEADER_SIZE + NACK_ENTRY_SIZE * length nacks)%nat ∧
    decode_feedback (take n buf') =
      Done (Some (mkFeedbackHeader (fh_tick_is_network h) (length nacks) (fh_session h)
                    (fh_tick h) (fh_target_rate h) (fh_hi_contig h) (fh_done h), nacks)).
Proof.
  intros Hh Hn Hc Hl. assert (is_u16 (length nacks)) as H16 by (unfold is_uint; lia).
  assert (FEEDBACK_HEADER_SIZE ≤ length buf)%nat as Hl0 by lia.
  rewrite encode_feedback_split, (wrap_small 16) by done.
  destruct (encode_nacks_spec nacks (feedback_header_bytes h (length nacks) buf)
              FEEDBACK_HEADER_SIZE Hn) as (buf' & He & Hl' & Ht & Hd).
  { rewrite length_feedback_header_bytes. lia. }
  rewrite length_feedback_header_bytes in Hl'.
  eexists buf', _. split; [done|]. split; [done|].
  rewrite (decode_feedback_header _ h (length nacks) buf) by
    (rewrite ?length_take, ?take_take, ?Nat.min_l; done || lia).
  rewrite Nat2Z.id, (proj2 (Nat.ltb_ge _ _)) by (rewrite length_take; lia).
  rewrite decode_nacks_take by lia. rewrite Hd. simpl. by rewrite wrap_small.
Qed.

(** Result: a FEEDBACK PDU survives the wire.  For at most 65535 well-typed NACKs and a
    buffer that holds them, [encode_feedback] succeeds, returns the exact PDU length,
    and [decode_feedback] on that prefix returns the header (its count being the number
    of entries) and the same NACKs in the same order. *)
Theorem feedback_roundtrip buf h nacks :
  wf_feedback_header h → Forall wf_nack nacks → Z.of_nat (length nacks) < 2 ^ 16 →
  (FEEDBACK_HEADER_SIZE + NACK_ENTRY_SIZE * length nacks ≤ length buf)%nat →
  ∃ buf' n, encode_feedback buf h nacks = Done (buf', n) ∧
    n = (FEEDBACK_HEADER_SIZE + NACK_ENTRY_SIZE * length nacks)%nat ∧
    decode_feedback (take n buf') =
      Done (Some (mkFeedbackHeader (fh_tick_is_network h) (length nacks) (fh_session h)
                    (fh_tick h) (fh_target_rate h) (fh_hi_contig h) (fh_done h), nacks)).
Proof. apply decode_encode_feedback. Qed.

Lemma feedback_roundtrip_witness :
  ∃ buf' n, encode_feedback (replicate 84 x00) (mkFeedbackHeader true 0 7 999 250000000 12345 true)
              [mkNackEntry 1 1; mkNackEntry 5 5; mkNackEntry 99999 99999] = Done (buf', n) ∧
    n = 84%nat ∧
    decode_feedback (take n buf') =
      Done (Some (mkFeedbackHeader true 3 7 999 250000000 12345 true,
                  [mkNackEntry 1 1; mkNackEntry 5 5; mkNackEntry 99999 99999])).
Proof.
  apply (feedback_roundtrip (replicate 84 x00) (mkFeedbackHeader true 0 7 999 250000000 12345 true)
           [mkNackEntry 1 1; mkNackEntry 5 5; mkNackEntry 99999 99999]).
  - unfold wf_feedback_header, is_uint; simpl. lia.
  - repeat constructor; simpl; unfold is_uint, is_i64; lia.
  - simpl. lia.
  - simpl. unfold FEEDBACK_HEADER_SIZE, NACK_ENTRY_SIZE. lia.
Defined.

(** Result: no datagram panics a decoder, and what a decoder accepts is well-typed.
    On every byte string [decode_data_header], [decode_feedback], [decode_start] and
    [decode_fin] return; an accepted DATA header has its fields in range, and an
    accepted FEEDBACK has exactly as many NACKs as it announces, all inside the
    datagram. *)
Theorem decoders_total (buf : list byte) :
  (∃ r, decode_data_header buf = Done r ∧ from_option wf_data_header True r) ∧
  (∃ r, decode_feedback buf = Done r ∧
     ∀ h nacks, r = Some (h, nacks) →
       wf_feedback_header h ∧ Forall wf_nack nacks ∧ fh_nack_count h = length nacks ∧
       (FEEDBACK_HEADER_SIZE + NACK_ENTRY_SIZE * length nacks ≤ length buf)%nat) ∧
  (∃ r, decode_start buf = Done r) ∧
  (∃ r, decode_fin buf = Done r).
Proof.
  split; [apply decode_data_header_total|]. split; [apply decode_feedback_total|].
  split; [apply decode_start_total|]. destruct (decode_fin_total buf) as (r & ? & _). eauto.
Qed.

(** Result: [num_blocks] is the least number of blocks that covers the file: for a
    positive block size it never panics, is 0 exactly on an empty file, and otherwise
    all blocks but the last are full and the last one is not empty. *)
Theorem num_blocks_exact size bs :
  0 < bs →
  ∃ n, num_blocks size bs = Done n ∧ 0 ≤ n ∧ (n = 0 ↔ size ≤ 0) ∧
    (0 < size → bs * (n - 1) < size ≤ bs * n).
Proof.
  intros Hbs. destruct (num_blocks_done size bs Hbs) as (n & ? & ? & Hpos & Hneg).
  exists n. split_and!; try done. destruct (decide (size ≤ 0)); [naive_solver|].
  specialize (Hpos ltac:(lia)). split; [|done]. nia.
Qed.

Lemma num_blocks_exact_witness :
  ∃ n, num_blocks 2801 1400 = Done n ∧ 0 ≤ n ∧ (n = 0 ↔ 2801 ≤ 0) ∧
    (0 < 2801 → 1400 * (n - 1) < 2801 ≤ 1400 * n).
Proof. apply (num_blocks_exact 2801 1400). lia. Defined.
