(* ===== verification/Float64.v ===== *)
(** * IEEE 754 binary64

    The [f64] arithmetic the rate and RTT code uses, on the Standard Library's
    executable specification of binary floating point ([SpecFloat], precision 53,
    maximal exponent 1024): round to nearest even, signed zeros, infinities and NaN,
    with Rust's saturating casts and its panicking [clamp].

    A finite value is read through [f64_num], its exact numerator over [2^1074]:
    comparisons of valid floats are comparisons of these integers. *)

From Corelib Require Export SpecFloat.
From S2P Require Import Prelude.

Create HintDb f64.

Definition f64 : Type := spec_float.

Definition f64_add : f64 → f64 → f64 := SFadd 53 1024.
Definition f64_sub : f64 → f64 → f64 := SFsub 53 1024.
Definition f64_mul : f64 → f64 → f64 := SFmul 53 1024.
Definition f64_div : f64 → f64 → f64 := SFdiv 53 1024.
Definition f64_abs : f64 → f64 := SFabs.
Definition f64_lt : f64 → f64 → bool := SFltb.
Definition f64_le : f64 → f64 → bool := SFleb.
Definition f64_eq : f64 → f64 → bool := SFeqb.
Definition f64_gt (x y : f64) : bool := f64_lt y x.

(** [n as f64] for an integer [n]. *)
Definition f64_of_Z (n : Z) : f64 := binary_normalize 53 1024 n 0 false.

(** The literal [n / d] (both exact in binary64): the nearest double. *)
Definition f64_ratio (n d : Z) : f64 := f64_div (f64_of_Z n) (f64_of_Z d).

Definition f64_zero : f64 := S754_zero false.

(** [x as uN]: truncation, saturating; NaN is 0. *)
Definition f64_to_uint (w : Z) (x : f64) : Z :=
  match x with
  | S754_nan => 0
  | S754_zero _ => 0
  | S754_infinity s => if s then 0 else 2 ^ w - 1
  | S754_finite s m e => if s then 0 else Z.min (2 ^ w - 1) (Z.shiftl (Zpos m) e)
  end.
Definition f64_to_u64 : f64 → Z := f64_to_uint 64.

(** [x as i64]: truncation toward zero, saturating; NaN is 0. *)
Definition f64_to_i64 (x : f64) : Z :=
  match x with
  | S754_nan => 0
  | S754_zero _ => 0
  | S754_infinity s => if s then - 2 ^ 63 else 2 ^ 63 - 1
  | S754_finite s m e =>
      let t := Z.shiftl (Zpos m) e in
      if s then Z.max (- 2 ^ 63) (- t) else Z.min (2 ^ 63 - 1) t
  end.

Definition f64_is_nan (x : f64) : bool := match x with S754_nan => true | _ => false end.

(** [f64::max]: the other operand when one is NaN. *)
Definition f64_max (x y : f64) : f64 :=
  if f64_is_nan x then y else if f64_is_nan y then x else if f64_lt x y then y else x.

(** [x.clamp(lo, hi)]: panics unless [lo <= hi]; a NaN stays. *)
Definition f64_clamp (x lo hi : f64) : outcome f64 :=
  if f64_le lo hi then
    let x := if f64_lt x lo then lo else x in
    let x := if f64_gt x hi then hi else x in
    Done x
  else Panic.

(** ** Valid floats and their exact values *)

Definition f64_valid (x : f64) : Prop := valid_binary 53 1024 x = true.
Definition f64_finite (x : f64) : Prop :=
  match x with S754_zero _ | S754_finite _ _ _ => True | _ => False end.

Lemma f64_finite_dec x : f64_finite x ∨ ¬ f64_finite x.
Proof. destruct x; simpl; tauto. Qed.

Definition f64_num (x : f64) : Z :=
  match x with
  | S754_finite s m e => (if s then -1 else 1) * (Zpos m * 2 ^ (e + 1074))
  | _ => 0
  end.

Lemma digits2_spec p : 2 ^ (Zpos (digits2_pos p) - 1) ≤ Zpos p < 2 ^ Zpos (digits2_pos p).
Proof.
  induction p as [p IH|p IH|]; simpl digits2_pos; [..|simpl; lia].
  all: rewrite Pos2Z.inj_succ;
    replace (Z.succ (Z.pos (digits2_pos p)) - 1) with (Z.succ (Z.pos (digits2_pos p) - 1)) by lia;
    rewrite !Z.pow_succ_r by lia; lia.
Qed.

Lemma pow2_lt_inv a b : 0 ≤ b → 2 ^ a < 2 ^ b → a < b.
Proof. intros ??. by apply (Z.pow_lt_mono_r_iff 2). Qed.

Lemma digits2_unique p d : 2 ^ (d - 1) ≤ Zpos p < 2 ^ d → Zpos (digits2_pos p) = d.
Proof.
  intros [H1 H2]. destruct (digits2_spec p) as [H3 H4].
  assert (0 ≤ d) by (destruct (Z.neg_nonneg_cases d); [|done]; rewrite Z.pow_neg_r in H2 by lia; lia).
  pose proof (pow2_lt_inv (d - 1) (Zpos (digits2_pos p)) ltac:(lia) ltac:(lia)).
  pose proof (pow2_lt_inv (Zpos (digits2_pos p) - 1) d ltac:(lia) ltac:(lia)). lia.
Qed.

Lemma digits2_le p d : Zpos p < 2 ^ d → Zpos (digits2_pos p) ≤ d.
Proof.
  intros H2. destruct (digits2_spec p) as [H3 H4].
  assert (0 ≤ d) by (destruct (Z.neg_nonneg_cases d); [|done]; rewrite Z.pow_neg_r in H2 by lia; lia).
  pose proof (pow2_lt_inv (Zpos (digits2_pos p) - 1) d ltac:(lia) ltac:(lia)). lia.
Qed.

Lemma digits2_ge p d : 2 ^ (d - 1) ≤ Zpos p → d ≤ Zpos (digits2_pos p).
Proof.
  intros H2. destruct (digits2_spec p) as [H3 H4].
  pose proof (pow2_lt_inv (d - 1) (Zpos (digits2_pos p)) ltac:(lia) ltac:(lia)). lia.
Qed.

Lemma fexp64 e : fexp 53 1024 e = Z.max (e - 53) (-1074).
Proof. done. Qed.

(** A valid finite mantissa has at most 53 bits; a normal one exactly 53. *)
Lemma valid_finite_inv s m e :
  f64_valid (S754_finite s m e) →
  -1074 ≤ e ≤ 971 ∧ Zpos m < 2 ^ 53 ∧ (e = -1074 ∨ 2 ^ 52 ≤ Zpos m).
Proof.
  unfold f64_valid. simpl. unfold bounded, canonical_mantissa. rewrite fexp64.
  rewrite andb_true_iff, Z.eqb_eq, Z.leb_le. intros [H1 H2].
  destruct (digits2_spec m) as [H3 H4].
  assert (Zpos (digits2_pos m) ≤ 53) as Hd by lia.
  split; [lia|]. split.
  - eapply Z.lt_le_trans; [done|]. by apply Z.pow_le_mono_r.
  - destruct (decide (e = -1074)); [by left|right].
    replace 52 with (Zpos (digits2_pos m) - 1) by lia. done.
Qed.

Lemma valid_finite_intro s m e :
  -1074 ≤ e ≤ 971 → Zpos m < 2 ^ 53 → (e = -1074 ∨ 2 ^ 52 ≤ Zpos m) →
  f64_valid (S754_finite s m e).
Proof.
  intros He Hm Hc. unfold f64_valid. simpl. unfold bounded, canonical_mantissa.
  rewrite fexp64, andb_true_iff, Z.eqb_eq, Z.leb_le. split; [|lia].
  pose proof (digits2_le m 53 Hm). destruct Hc as [->|Hc]; [lia|].
  pose proof (digits2_ge m 53 ltac:(done)). lia.
Qed.

Lemma pow2_pos a : 0 ≤ a → 0 < 2 ^ a.
Proof. intros. apply Z.pow_pos_nonneg; lia. Qed.

Lemma pow2_ge_1 a : 0 ≤ a → 1 ≤ 2 ^ a.
Proof. intros H%pow2_pos. lia. Qed.

(** A normal float lies above every float with a smaller exponent. *)
Lemma num_exponent_lt a b x y :
  0 ≤ a → a < b → Zpos x < 2 ^ 53 → 2 ^ 52 ≤ Zpos y → Zpos x * 2 ^ a < Zpos y * 2 ^ b.
Proof.
  intros Ha Hab Hx Hy. replace b with (a + 1 + (b - a - 1)) by lia.
  rewrite !Z.pow_add_r by lia. change (2 ^ 1) with 2.
  pose proof (pow2_ge_1 (b - a - 1) ltac:(lia)) as HB. pose proof (pow2_pos a Ha) as HA.
  apply Z.lt_le_trans with (2 ^ 53 * 2 ^ a); [by apply Z.mul_lt_mono_pos_r|].
  apply Z.le_trans with (Zpos y * (2 ^ a * 2)).
  { replace (Zpos y * (2 ^ a * 2)) with (2 * Zpos y * 2 ^ a) by ring.
    apply Z.mul_le_mono_nonneg_r; lia. }
  apply Z.mul_le_mono_nonneg_l; [lia|]. nia.
Qed.

(** Comparison of valid finite floats is comparison of exact values. *)
Lemma compare_pos_num m1 e1 m2 e2 :
  f64_valid (S754_finite false m1 e1) → f64_valid (S754_finite false m2 e2) →
  match e1 ?= e2 with Lt => Lt | Gt => Gt | Eq => Pos.compare_cont Eq m1 m2 end =
  (Zpos m1 * 2 ^ (e1 + 1074) ?= Zpos m2 * 2 ^ (e2 + 1074)).
Proof.
  intros (He1&Hm1&Hc1)%valid_finite_inv (He2&Hm2&Hc2)%valid_finite_inv.
  destruct (Z.compare_spec e1 e2) as [->|Hl|Hl].
  - rewrite <-Zmult_compare_compat_r; [done|]. apply Z.lt_gt, pow2_pos. lia.
  - symmetry. apply Z.compare_lt_iff, num_exponent_lt; [lia..|]. destruct Hc2; [lia|done].
  - symmetry. apply Z.compare_gt_iff, num_exponent_lt; [lia..|]. destruct Hc1; [lia|done].
Qed.

Lemma f64_compare_num x y :
  f64_valid x → f64_valid y → f64_finite x → f64_finite y →
  SFcompare x y = Some (f64_num x ?= f64_num y).
Proof.
  assert (∀ m e, f64_valid (S754_finite false m e) → 0 < Zpos m * 2 ^ (e + 1074)) as Hpos.
  { intros m e (?&?&?)%valid_finite_inv. pose proof (pow2_pos (e + 1074) ltac:(lia)). nia. }
  destruct x as [sx| | |sx mx ex], y as [sy| | |sy my ey]; try done; intros Hx Hy _ _;
    unfold f64_num; cbn [SFcompare]; f_equal.
  - destruct sy; symmetry; [apply Z.compare_gt_iff|apply Z.compare_lt_iff];
      pose proof (Hpos my ey Hy); lia.
  - destruct sx; symmetry; [apply Z.compare_lt_iff|apply Z.compare_gt_iff];
      pose proof (Hpos mx ex Hx); lia.
  - pose proof (Hpos mx ex Hx); pose proof (Hpos my ey Hy).
    pose proof (compare_pos_num mx ex my ey Hx Hy) as Hc.
    destruct sx, sy.
    + replace (-1 * (Zpos mx * 2 ^ (ex + 1074))) with (- (Zpos mx * 2 ^ (ex + 1074))) by ring.
      replace (-1 * (Zpos my * 2 ^ (ey + 1074))) with (- (Zpos my * 2 ^ (ey + 1074))) by ring.
      rewrite Z.compare_opp, (Z.compare_antisym (Zpos mx * 2 ^ (ex + 1074))), <-Hc.
      by destruct (ex ?= ey).
    + symmetry. apply Z.compare_lt_iff. lia.
    + symmetry. apply Z.compare_gt_iff. lia.
    + rewrite !Z.mul_1_l. done.
Qed.

Lemma f64_le_num x y :
  f64_valid x → f64_valid y → f64_finite x → f64_finite y →
  f64_le x y = (f64_num x <=? f64_num y).
Proof.
  intros. unfold f64_le, SFleb. rewrite f64_compare_num by done.
  unfold Z.leb. by destruct (_ ?= _).
Qed.

Lemma f64_lt_num x y :
  f64_valid x → f64_valid y → f64_finite x → f64_finite y →
  f64_lt x y = (f64_num x <? f64_num y).
Proof.
  intros. unfold f64_lt, SFltb. rewrite f64_compare_num by done.
  unfold Z.ltb. by destruct (_ ?= _).
Qed.

(** The saturating cast reads the exact value. *)
Lemma f64_to_uint_num w x :
  f64_valid x → f64_finite x → 0 ≤ w →
  f64_to_uint w x = Z.max 0 (Z.min (2 ^ w - 1) (f64_num x / 2 ^ 1074)).
Proof.
  intros Hv Hf Hw. pose proof (pow2_ge_1 w Hw).
  destruct x as [s| | |s m e]; try done.
  { cbn [f64_to_uint f64_num]. rewrite Z.div_0_l by lia. lia. }
  apply valid_finite_inv in Hv as (He&_&_).
  pose proof (pow2_pos (e + 1074) ltac:(lia)).
  unfold f64_to_uint, f64_num. destruct s.
  - assert (-1 * (Zpos m * 2 ^ (e + 1074)) / 2 ^ 1074 < 0); [|lia].
    apply Z.div_lt_upper_bound; [lia|]. nia.
  - rewrite Z.mul_1_l.
    assert (Zpos m * 2 ^ (e + 1074) / 2 ^ 1074 = Z.shiftl (Zpos m) e) as ->.
    { destruct (decide (0 ≤ e)).
      - rewrite Z.shiftl_mul_pow2, Z.pow_add_r by lia.
        rewrite Z.mul_assoc, Z.div_mul by lia. done.
      - rewrite Z.shiftl_div_pow2 by lia.
        replace (2 ^ 1074) with (2 ^ (- e) * 2 ^ (e + 1074))
          by (rewrite <-Z.pow_add_r by lia; f_equal; lia).
        rewrite Z.div_mul_cancel_r by lia. done. }
    assert (0 ≤ Z.shiftl (Zpos m) e) by (apply Z.shiftl_nonneg; lia). lia.
Qed.

Lemma f64_to_uint_mono w x y :
  f64_valid x → f64_valid y → f64_finite x → f64_finite y → 0 ≤ w →
  f64_le x y = true → f64_to_uint w x ≤ f64_to_uint w y.
Proof.
  intros ????? Hle. rewrite f64_le_num, Z.leb_le in Hle by done.
  rewrite !f64_to_uint_num by done.
  pose proof (Z.div_le_mono _ _ (2 ^ 1074) ltac:(lia) Hle). lia.
Qed.

(** ** Rounding keeps floats valid *)

Lemma shr_1_m r : 0 ≤ shr_m r → shr_m (shr_1 r) = shr_m r / 2.
Proof.
  destruct r as [m rr ss]. simpl. intros. rewrite <-Z.div2_div.
  by destruct m as [|[]|[]].
Qed.

Lemma iter_shr_m p : ∀ r, 0 ≤ shr_m r → shr_m (SpecFloat.iter_pos shr_1 p r) = shr_m r / 2 ^ Zpos p.
Proof.
  assert (∀ r q, 0 ≤ shr_m r → 0 ≤ q → 0 ≤ shr_m r / 2 ^ q) as Hnn.
  { intros. apply Z.div_pos; [done|by apply pow2_pos]. }
  induction p as [p IH|p IH|]; intros r Hr; simpl SpecFloat.iter_pos.
  - rewrite IH; rewrite IH; rewrite ?shr_1_m; try done; try (apply Z.div_pos; lia).
    2: { apply Z.div_pos; [apply Z.div_pos; lia|by apply pow2_pos]. }
    rewrite !Z.div_div by lia. f_equal. rewrite (Pos2Z.inj_xI p).
    replace (2 * Zpos p + 1) with (1 + Zpos p + Zpos p) by lia.
    rewrite !Z.pow_add_r by lia. ring.
  - rewrite IH; rewrite IH; try done; [|by apply Hnn].
    rewrite Z.div_div by lia. f_equal. rewrite (Pos2Z.inj_xO p).
    rewrite <-(Z.add_diag (Zpos p)), Z.pow_add_r by lia. done.
  - by apply shr_1_m.
Qed.

Lemma shr_record_of_loc_m m l : shr_m (shr_record_of_loc m l) = m.
Proof. by destruct l as [|[]]. Qed.

(** [shr_fexp] with room to shift divides and lands on the canonical exponent. *)
Lemma shr_fexp_spec m e l :
  0 ≤ m → e ≤ fexp 53 1024 (Zdigits2 m + e) →
  let e' := fexp 53 1024 (Zdigits2 m + e) in
  ∃ r, shr_fexp 53 1024 m e l = (r, e') ∧ shr_m r = m / 2 ^ (e' - e).
Proof.
  intros Hm He e'. unfold shr_fexp. fold e'.
  destruct (e' - e) as [|p|p] eqn:E; [..|lia]; simpl.
  - replace e' with e by lia. eexists. split; [done|]. rewrite shr_record_of_loc_m.
    by rewrite Z.div_1_r.
  - eexists. split; [f_equal; lia|]. rewrite iter_shr_m; rewrite shr_record_of_loc_m; done.
Qed.

Lemma Zdigits2_spec m : 0 < m → 2 ^ (Zdigits2 m - 1) ≤ m < 2 ^ Zdigits2 m.
Proof. destruct m; try lia. intros _. apply digits2_spec. Qed.

Lemma Zdigits2_unique m d : 0 < m → 2 ^ (d - 1) ≤ m < 2 ^ d → Zdigits2 m = d.
Proof. destruct m; try lia. intros _. apply digits2_unique. Qed.

Lemma round_nearest_even_bounds m l : m ≤ round_nearest_even m l ≤ m + 1.
Proof. destruct l as [|[]]; simpl; try lia. destruct (Z.even m); lia. Qed.

(** The mantissa after the first shift: below [2^53], and full unless subnormal. *)
Lemma first_shift m e :
  0 ≤ m → e ≤ fexp 53 1024 (Zdigits2 m + e) →
  let e' := fexp 53 1024 (Zdigits2 m + e) in
  0 ≤ m / 2 ^ (e' - e) < 2 ^ 53 ∧ (e' = -1074 ∨ 2 ^ 52 ≤ m / 2 ^ (e' - e)).
Proof.
  intros Hm He e'. pose proof (pow2_pos (e' - e) ltac:(lia)) as Hp.
  destruct (decide (m = 0)) as [->|Hm0].
  { rewrite Z.div_0_l by lia. split; [lia|]. left. unfold e' in *. rewrite fexp64 in *.
    simpl in *. lia. }
  destruct (Zdigits2_spec m ltac:(lia)) as [Hlo Hhi].
  set (d := Zdigits2 m) in *. unfold e' in *. rewrite fexp64 in *.
  split.
  - split; [by apply Z.div_pos|]. apply Z.div_lt_upper_bound; [done|].
    rewrite <-Z.pow_add_r by lia. eapply Z.lt_le_trans; [done|].
    apply Z.pow_le_mono_r; lia.
  - destruct (decide (d + e - 53 ≤ -1074)); [left; lia|right].
    apply Z.div_le_lower_bound; [done|]. rewrite <-Z.pow_add_r by lia.
    eapply Z.le_trans; [|done]. apply Z.pow_le_mono_r; lia.
Qed.

(** The mantissa after rounding and the second shift. *)
Lemma second_shift m e :
  0 ≤ m ≤ 2 ^ 53 → -1074 ≤ e → (e = -1074 ∨ 2 ^ 52 ≤ m) →
  e ≤ fexp 53 1024 (Zdigits2 m + e) ∧
  let e' := fexp 53 1024 (Zdigits2 m + e) in
  0 ≤ m / 2 ^ (e' - e) < 2 ^ 53 ∧ -1074 ≤ e' ∧ (e' = -1074 ∨ 2 ^ 52 ≤ m / 2 ^ (e' - e)).
Proof.
  intros Hm He Hc. assert (e ≤ fexp 53 1024 (Zdigits2 m + e)) as Hle.
  { rewrite fexp64. destruct Hc as [->|Hc]; [lia|].
    destruct (Zdigits2_spec m ltac:(lia)) as [_ Hhi].
    pose proof (pow2_lt_inv 52 (Zdigits2 m)). destruct m; simpl in *; lia. }
  split; [done|]. intros e'.
  pose proof (first_shift m e ltac:(lia) Hle) as [H1 H2]. fold e' in H1, H2.
  split; [done|]. split; [unfold e'; rewrite fexp64; lia|done].
Qed.

Lemma binary_round_aux_valid s m e l :
  0 ≤ m → e ≤ fexp 53 1024 (Zdigits2 m + e) →
  f64_valid (binary_round_aux 53 1024 s m e l) ∧
  binary_round_aux 53 1024 s m e l ≠ S754_nan.
Proof.
  intros Hm He. unfold binary_round_aux.
  destruct (shr_fexp_spec m e l Hm He) as (r1 & -> & Hr1).
  destruct (first_shift m e Hm He) as [Hb1 Hc1].
  set (e1 := fexp 53 1024 (Zdigits2 m + e)) in *.
  set (m2 := round_nearest_even (shr_m r1) (loc_of_shr_record r1)).
  pose proof (round_nearest_even_bounds (shr_m r1) (loc_of_shr_record r1)) as Hrn.
  fold m2 in Hrn. rewrite Hr1 in Hrn.
  assert (-1074 ≤ e1) as He1 by (unfold e1; rewrite fexp64; lia).
  destruct (second_shift m2 e1) as (Hle2 & Hb2 & He2 & Hc2); [lia|done| |].
  { destruct Hc1; [by left|right; lia]. }
  destruct (shr_fexp_spec m2 e1 loc_Exact ltac:(lia) Hle2) as (r2 & -> & Hr2).
  rewrite Hr2. set (e2 := fexp 53 1024 (Zdigits2 m2 + e1)) in *.
  destruct (m2 / 2 ^ (e2 - e1)) as [|p|p]; [done| |lia].
  destruct (Z.leb_spec e2 (1024 - 53)); [|done].
  split; [|done]. apply valid_finite_intro; [lia|lia|done].
Qed.

Lemma shl_align_spec m e e' :
  ∃ mz ez, shl_align m e e' = (mz, ez) ∧ ez = Z.min e e' ∧ Zpos mz = Zpos m * 2 ^ (e - ez).
Proof.
  unfold shl_align. destruct (e' - e) as [|d|d] eqn:E.
  - exists m, e. rewrite Z.sub_diag. split_and!; [done|lia|lia].
  - exists m, e. rewrite Z.sub_diag. split_and!; [done|lia|lia].
  - eexists _, e'. split; [done|]. split; [lia|].
    replace (e - e') with (Zpos d) by lia. clear E.
    induction d as [|d IH] using Pos.peano_ind; [simpl; lia|].
    rewrite Pos.iter_succ, Pos2Z.inj_xO, IH, Pos2Z.inj_succ, Z.pow_succ_r by lia. ring.
Qed.

Lemma binary_round_ok m e :
  let '(mz, ez) := shl_align m e (fexp 53 1024 (Zpos (digits2_pos m) + e)) in
  ez ≤ fexp 53 1024 (Zdigits2 (Zpos mz) + ez).
Proof.
  destruct (shl_align_spec m e (fexp 53 1024 (Zpos (digits2_pos m) + e))) as (mz & ez & -> & Hez & Hmz).
  assert (Zdigits2 (Zpos mz) = Zpos (digits2_pos m) + (e - ez)) as ->.
  { apply Zdigits2_unique; [lia|]. rewrite Hmz. destruct (digits2_spec m) as [Hlo Hhi].
    pose proof (pow2_pos (e - ez) ltac:(lia)) as Hp.
    replace (Zpos (digits2_pos m) + (e - ez) - 1) with (Zpos (digits2_pos m) - 1 + (e - ez)) by lia.
    rewrite !Z.pow_add_r by lia. split.
    - by apply Z.mul_le_mono_nonneg_r; [lia|].
    - by apply Z.mul_lt_mono_pos_r. }
  replace (Zpos (digits2_pos m) + (e - ez) + ez) with (Zpos (digits2_pos m) + e) by lia. lia.
Qed.

Lemma binary_round_valid s m e :
  f64_valid (binary_round 53 1024 s m e) ∧ binary_round 53 1024 s m e ≠ S754_nan.
Proof.
  unfold binary_round. pose proof (binary_round_ok m e) as Hok.
  destruct (shl_align _ _ _) as [mz ez]. by apply binary_round_aux_valid.
Qed.

Lemma binary_normalize_valid m e sz :
  f64_valid (binary_normalize 53 1024 m e sz) ∧ binary_normalize 53 1024 m e sz ≠ S754_nan.
Proof. destruct m; simpl; [done|apply binary_round_valid..]. Qed.

Lemma f64_of_Z_valid n : f64_valid (f64_of_Z n).
Proof. apply binary_normalize_valid. Qed.

Lemma f64_add_valid x y : f64_valid x → f64_valid y → f64_valid (f64_add x y).
Proof.
  destruct x as [[]|[]| |], y as [[]|[]| |]; try done. intros _ _. apply binary_normalize_valid.
Qed.

Lemma f64_sub_valid x y : f64_valid x → f64_valid y → f64_valid (f64_sub x y).
Proof.
  destruct x as [[]|[]| |], y as [[]|[]| |]; try done. intros _ _. apply binary_normalize_valid.
Qed.

Lemma f64_abs_valid x : f64_valid x → f64_valid (f64_abs x).
Proof. by destruct x. Qed.

Lemma mul_digits a b :
  Zpos (digits2_pos a) + Zpos (digits2_pos b) - 1 ≤ Zpos (digits2_pos (a * b)).
Proof.
  apply digits2_ge. destruct (digits2_spec a) as [Ha _], (digits2_spec b) as [Hb _].
  replace (Zpos (digits2_pos a) + Zpos (digits2_pos b) - 1 - 1)
    with (Zpos (digits2_pos a) - 1 + (Zpos (digits2_pos b) - 1)) by lia.
  rewrite Z.pow_add_r, Pos2Z.inj_mul by lia.
  apply Z.mul_le_mono_nonneg; try done; apply Z.pow_nonneg; lia.
Qed.

Lemma mul_core_ok sx mx ex sy my ey :
  f64_valid (S754_finite sx mx ex) → f64_valid (S754_finite sy my ey) →
  ex + ey ≤ fexp 53 1024 (Zdigits2 (Zpos (mx * my)) + (ex + ey)).
Proof.
  intros Hx Hy. cbn [Zdigits2]. rewrite fexp64.
  apply valid_finite_inv in Hx as (?&?&Hx), Hy as (?&?&Hy).
  pose proof (mul_digits mx my).
  destruct Hx as [->|Hx]; [destruct Hy as [->|Hy]; [lia|]|].
  - pose proof (digits2_ge my 53 ltac:(done)). lia.
  - pose proof (digits2_ge mx 53 ltac:(done)). lia.
Qed.

Lemma f64_mul_valid x y : f64_valid x → f64_valid y → f64_valid (f64_mul x y).
Proof.
  destruct x as [| | |sx mx ex], y as [| | |sy my ey]; try done. intros Hx Hy.
  apply binary_round_aux_valid; [lia|]. by apply (mul_core_ok sx mx ex sy my ey).
Qed.

Lemma div_core_ok mx ex my ey :
  let '(q, e, l) := SFdiv_core_binary 53 1024 (Zpos mx) ex (Zpos my) ey in
  0 ≤ q ∧ e ≤ fexp 53 1024 (Zdigits2 q + e).
Proof.
  unfold SFdiv_core_binary. cbn [Zdigits2].
  set (d1 := Zpos (digits2_pos mx)). set (d2 := Zpos (digits2_pos my)).
  set (e' := Z.min (fexp 53 1024 (d1 + ex - (d2 + ey))) (ex - ey)).
  assert (0 ≤ ex - ey - e') as Hs by lia.
  set (m' := match ex - ey - e' with Z0 => Zpos mx | Zpos _ => _ | Zneg _ => 0 end).
  assert (m' = Zpos mx * 2 ^ (ex - ey - e')) as Hm'.
  { unfold m'. destruct (ex - ey - e') eqn:E; [lia| |lia]. by rewrite Z.shiftl_mul_pow2. }
  pose proof (Z.div_eucl_eq m' (Zpos my) ltac:(lia)) as Hq.
  pose proof (Z.mod_pos_bound m' (Zpos my) ltac:(lia)) as Hr. unfold Z.modulo in Hr.
  destruct (Z.div_eucl m' (Zpos my)) as [q r].
  pose proof (pow2_pos (ex - ey - e') Hs). assert (0 ≤ q) as Hq0 by nia.
  split; [done|].
  destruct (digits2_spec mx) as [Hx1 Hx2], (digits2_spec my) as [Hy1 Hy2].
  fold d1 in Hx1, Hx2. fold d2 in Hy1, Hy2.
  assert (d1 + (ex - ey - e') - d2 ≤ Zdigits2 q) as Hd.
  { destruct (decide (d1 + (ex - ey - e') - d2 ≤ 0)); [destruct q; simpl; lia|].
    assert (2 ^ (d1 + (ex - ey - e') - d2 - 1) ≤ q) as Hge.
    { apply Z.lt_succ_r, (Z.mul_lt_mono_pos_l (2 ^ d2)); [apply pow2_pos; lia|].
      rewrite <-Z.pow_add_r by lia.
      replace (d2 + (d1 + (ex - ey - e') - d2 - 1)) with (d1 - 1 + (ex - ey - e')) by lia.
      rewrite Z.pow_add_r by lia.
      apply Z.le_lt_trans with m'; [rewrite Hm'; apply Z.mul_le_mono_nonneg_r; lia|].
      apply Z.lt_le_trans with (Zpos my * Z.succ q); [nia|].
      apply Z.mul_le_mono_nonneg_r; lia. }
    destruct q as [|q|q]; [|by apply digits2_ge|lia].
    pose proof (pow2_pos (d1 + (ex - ey - e') - d2 - 1) ltac:(lia)). lia. }
  assert (e' ≤ Z.max (d1 + ex - (d2 + ey) - 53) (-1074)) as He' by (unfold e'; rewrite fexp64; lia).
  rewrite fexp64. clearbody e'. lia.
Qed.

Lemma f64_div_valid x y : f64_valid x → f64_valid y → f64_valid (f64_div x y).
Proof.
  destruct x as [| | |sx mx ex], y as [| | |sy my ey]; try done. intros _ _.
  unfold f64_div, SFdiv. pose proof (div_core_ok mx ex my ey) as Hc.
  destruct (SFdiv_core_binary _ _ _ _ _ _) as [[q e] l]. destruct Hc as [??].
  by apply binary_round_aux_valid.
Qed.

(** Integers up to [2^53] are exact. *)
Lemma binary_round_aux_exact s p e :
  f64_valid (S754_finite s p e) →
  binary_round_aux 53 1024 s (Zpos p) e loc_Exact = S754_finite s p e.
Proof.
  intros Hv. unfold f64_valid in Hv. simpl in Hv. unfold bounded, canonical_mantissa in Hv.
  apply andb_true_iff in Hv as [Hc%Z.eqb_eq Hb].
  assert (∀ l, shr_fexp 53 1024 (Zpos p) e l = (shr_record_of_loc (Zpos p) l, e)) as Hs.
  { intros l. unfold shr_fexp. cbn [Zdigits2]. rewrite Hc, Z.sub_diag. done. }
  unfold binary_round_aux. rewrite Hs. cbn [shr_record_of_loc shr_m loc_of_shr_record round_nearest_even].
  rewrite Hs. cbn [shr_record_of_loc shr_m]. by rewrite Hb.
Qed.

Lemma f64_of_Z_pos p :
  Zpos p < 2 ^ 53 →
  f64_finite (f64_of_Z (Zpos p)) ∧ f64_num (f64_of_Z (Zpos p)) = Zpos p * 2 ^ 1074.
Proof.
  intros Hp. unfold f64_of_Z, binary_normalize, binary_round.
  pose proof (digits2_le p 53 Hp) as Hd. destruct (digits2_spec p) as [Hlo Hhi].
  set (d := Zpos (digits2_pos p)) in *.
  destruct (shl_align_spec p 0 (fexp 53 1024 (d + 0))) as (mz & ez & -> & Hez & Hmz).
  rewrite fexp64 in Hez. assert (ez = d - 53) as -> by lia. clear Hez.
  assert (2 ^ 52 ≤ Zpos mz < 2 ^ 53) as Hmz'.
  { rewrite Hmz. pose proof (pow2_pos (0 - (d - 53)) ltac:(lia)).
    assert (2 ^ 52 = 2 ^ (d - 1) * 2 ^ (0 - (d - 53))) as ->
      by (rewrite <-Z.pow_add_r by lia; f_equal; lia).
    assert (2 ^ 53 = 2 ^ d * 2 ^ (0 - (d - 53))) as ->
      by (rewrite <-Z.pow_add_r by lia; f_equal; lia).
    split.
    - apply Z.mul_le_mono_nonneg_r; lia.
    - by apply Z.mul_lt_mono_pos_r. }
  rewrite binary_round_aux_exact by (apply valid_finite_intro; [lia|lia|right; lia]).
  split; [done|]. unfold f64_num. rewrite Hmz, Z.mul_1_l, <-Z.mul_assoc, <-Z.pow_add_r by lia.
  do 2 f_equal. lia.
Qed.

Lemma f64_of_Z_exact n :
  0 ≤ n < 2 ^ 53 → f64_finite (f64_of_Z n) ∧ f64_num (f64_of_Z n) = n * 2 ^ 1074.
Proof.
  intros Hn. destruct n as [|p|p]; [by rewrite Z.mul_0_l|apply f64_of_Z_pos; lia|lia].
Qed.

Lemma f64_to_uint_of_Z w n :
  0 ≤ w → 0 ≤ n < 2 ^ 53 → n < 2 ^ w → f64_to_uint w (f64_of_Z n) = n.
Proof.
  intros Hw Hn Hnw. destruct (f64_of_Z_exact n Hn) as [Hf Hnum].
  rewrite f64_to_uint_num, Hnum, Z.div_mul by (done || apply f64_of_Z_valid || lia). lia.
Qed.

Lemma f64_le_of_Z a b :
  0 ≤ a < 2 ^ 53 → 0 ≤ b < 2 ^ 53 → f64_le (f64_of_Z a) (f64_of_Z b) = (a <=? b).
Proof.
  intros Ha Hb. destruct (f64_of_Z_exact a Ha) as [Hfa Ha'], (f64_of_Z_exact b Hb) as [Hfb Hb'].
  rewrite f64_le_num by (done || apply f64_of_Z_valid). rewrite Ha', Hb'.
  apply eq_iff_eq_true. rewrite !Z.leb_le. nia.
Qed.

Lemma f64_lt_of_Z a b :
  0 ≤ a < 2 ^ 53 → 0 ≤ b < 2 ^ 53 → f64_lt (f64_of_Z a) (f64_of_Z b) = (a <? b).
Proof.
  intros Ha Hb. destruct (f64_of_Z_exact a Ha) as [Hfa Ha'], (f64_of_Z_exact b Hb) as [Hfb Hb'].
  rewrite f64_lt_num by (done || apply f64_of_Z_valid). rewrite Ha', Hb'.
  apply eq_iff_eq_true. rewrite !Z.ltb_lt. nia.
Qed.

(** ** Clamping *)

(** [clamp] of anything but NaN into a range of finite floats. *)
Lemma f64_clamp_spec x lo hi :
  f64_valid x → f64_valid lo → f64_valid hi → f64_finite lo → f64_finite hi →
  f64_num lo ≤ f64_num hi → x ≠ S754_nan →
  ∃ y, f64_clamp x lo hi = Done y ∧ f64_valid y ∧ f64_finite y ∧
       f64_num lo ≤ f64_num y ≤ f64_num hi.
Proof.
  intros Hx Hlo Hhi Flo Fhi Hle Hnan. unfold f64_clamp, f64_gt.
  rewrite f64_le_num, (proj2 (Z.leb_le _ _)) by done.
  assert (f64_lt hi lo = false) as Hhl by (rewrite f64_lt_num by done; apply Z.ltb_ge; lia).
  destruct (f64_finite_dec x) as [Fx|Fx].
  - rewrite (f64_lt_num x lo) by done. destruct (Z.ltb_spec (f64_num x) (f64_num lo)).
    + rewrite Hhl. eexists. split_and!; done.
    + rewrite f64_lt_num by done. destruct (Z.ltb_spec (f64_num hi) (f64_num x)).
      * eexists. split_and!; done.
      * eexists. split_and!; done.
  - destruct x as [|[]| |]; try done.
    + replace (f64_lt (S754_infinity true) lo) with true by (by destruct lo as [|[]| |]).
      rewrite Hhl. eexists. split_and!; done.
    + replace (f64_lt (S754_infinity false) lo) with false by (by destruct lo as [|[]| |]).
      replace (f64_lt hi (S754_infinity false)) with true by (by destruct hi as [|[]| |]).
      eexists. split_and!; done.
Qed.

(** [clamp] panics on an empty range. *)
Lemma f64_clamp_empty x lo hi : f64_le lo hi = false → f64_clamp x lo hi = Panic.
Proof. unfold f64_clamp. by intros ->. Qed.

(** ** Non-negative floats *)

(** Neither NaN nor negative; zeros of both signs count. *)
Definition f64_nonneg (x : f64) : Prop :=
  match x with
  | S754_nan => False
  | S754_zero _ => True
  | S754_infinity s => s = false
  | S754_finite s _ _ => s = false
  end.

Lemma f64_nonneg_not_nan x : f64_nonneg x → x ≠ S754_nan.
Proof. by destruct x. Qed.

Lemma binary_round_aux_sign s m e l :
  match binary_round_aux 53 1024 s m e l with
  | S754_zero s' | S754_infinity s' | S754_finite s' _ _ => s' = s
  | S754_nan => True
  end.
Proof.
  unfold binary_round_aux. destruct (shr_fexp 53 1024 m e l) as [r1 e1].
  destruct (shr_fexp _ _ _ e1 _) as [r2 e2]. destruct (shr_m r2); [done| |done].
  by destruct (_ <=? _).
Qed.

Lemma binary_round_aux_nonneg m e l :
  0 ≤ m → e ≤ fexp 53 1024 (Zdigits2 m + e) →
  f64_nonneg (binary_round_aux 53 1024 false m e l).
Proof.
  intros Hm He. pose proof (binary_round_aux_sign false m e l) as Hs.
  destruct (binary_round_aux_valid false m e l Hm He) as [_ Hn].
  by destruct (binary_round_aux _ _ _ _ _ _).
Qed.

Lemma binary_round_nonneg m e : f64_nonneg (binary_round 53 1024 false m e).
Proof.
  destruct (binary_round_valid false m e) as [_ Hn]. revert Hn. unfold binary_round.
  destruct (shl_align _ _ _) as [mz ez].
  pose proof (binary_round_aux_sign false (Zpos mz) ez loc_Exact) as Hs.
  by destruct (binary_round_aux _ _ _ _ _ _).
Qed.

Lemma f64_of_Z_nonneg n : 0 ≤ n → f64_nonneg (f64_of_Z n).
Proof. destruct n; [done|intros _; apply binary_round_nonneg|lia]. Qed.

Lemma f64_add_nonneg x y : f64_nonneg x → f64_nonneg y → f64_nonneg (f64_add x y).
Proof.
  destruct x as [[]|[]| |[]], y as [[]|[]| |[]]; try done. intros _ _.
  unfold f64_add, SFadd. cbn [cond_Zopp].
  destruct (fst _), (fst _); simpl; apply binary_round_nonneg.
Qed.

Lemma f64_mul_nonneg x y :
  f64_valid x → f64_valid y → f64_nonneg x → f64_nonneg y →
  f64_finite x → (f64_finite y ∨ f64_lt f64_zero x = true) → f64_nonneg (f64_mul x y).
Proof.
  destruct x as [[]| | |[] mx ex], y as [[]|[]| |[] my ey]; try done; try naive_solver.
  intros Hx Hy _ _ _ _. apply binary_round_aux_nonneg; [lia|].
  by apply (mul_core_ok false mx ex false my ey).
Qed.

Lemma f64_div_nonneg x y :
  f64_nonneg x → f64_finite x → f64_lt f64_zero y = true → f64_nonneg (f64_div x y).
Proof.
  destruct x as [[]| | |[] mx ex], y as [[]|[]| |[] my ey]; try done.
  intros _ _ _. unfold f64_div, SFdiv. pose proof (div_core_ok mx ex my ey) as Hc.
  destruct (SFdiv_core_binary _ _ _ _ _ _) as [[q e] l]. destruct Hc as [??].
  by apply binary_round_aux_nonneg.
Qed.

Lemma f64_nonneg_num x : f64_nonneg x → f64_valid x → 0 ≤ f64_num x.
Proof.
  destruct x as [| | |[] m e]; simpl; try done. intros _ (?&?&?)%valid_finite_inv.
  pose proof (pow2_pos (e + 1074) ltac:(lia)). nia.
Qed.

(** ** Rounding does not cross a representable value

    An exact value [m * 2^e] (scaled by [2^2148], below every exponent that sums and
    products of valid floats reach) that is at most a valid float rounds to a finite
    float that is at most it.  So sums and products that are bounded by a
    representable number do not overflow. *)

Lemma shr_1_exact m : m mod 2 = 0 →
  shr_1 (Build_shr_record m false false) = Build_shr_record (m / 2) false false.
Proof.
  intros Hm. rewrite <-Z.div2_div.
  assert (Z.even m = true) as He by (rewrite Zeven_mod; by apply Z.eqb_eq).
  by destruct m as [|[p|p|]|[p|p|]].
Qed.

Lemma iter_shr_exact p : ∀ m, m mod 2 ^ Zpos p = 0 →
  SpecFloat.iter_pos shr_1 p (Build_shr_record m false false) =
  Build_shr_record (m / 2 ^ Zpos p) false false.
Proof.
  assert (∀ m a b, 0 ≤ a → 0 ≤ b → m mod 2 ^ (a + b) = 0 →
            m mod 2 ^ a = 0 ∧ (m / 2 ^ a) mod 2 ^ b = 0 ∧ m / 2 ^ (a + b) = m / 2 ^ a / 2 ^ b) as Hsplit.
  { intros m a b Ha Hb Hm. pose proof (pow2_pos a Ha). pose proof (pow2_pos b Hb).
    rewrite Z.pow_add_r in * by done. apply Z.mod_divide in Hm as [k ->]; [|nia].
    rewrite (Z.mul_comm (2 ^ a)), Z.mul_assoc.
    rewrite Z.mod_mul, !Z.div_mul, Z.mod_mul by lia. rewrite <-Z.mul_assoc, Z.div_mul by lia. done. }
  induction p as [p IH|p IH|]; intros m Hm; cbn [SpecFloat.iter_pos].
  - rewrite (Pos2Z.inj_xI p) in *. replace (2 * Zpos p + 1) with (1 + (Zpos p + Zpos p)) in * by lia.
    apply Hsplit in Hm as (Hm1 & Hm2 & ->); [|lia..].
    apply Hsplit in Hm2 as (Hm2 & Hm3 & ->); [|lia..].
    rewrite shr_1_exact by done. by rewrite !IH.
  - rewrite (Pos2Z.inj_xO p), <-(Z.add_diag (Zpos p)) in *.
    apply Hsplit in Hm as (Hm1 & Hm2 & ->); [|lia..]. by rewrite !IH.
  - by apply shr_1_exact.
Qed.

(** First shift and rounding of an exact value: a multiple of the shift is kept. *)
Lemma round_exact_shift m e l :
  0 ≤ m → e ≤ fexp 53 1024 (Zdigits2 m + e) →
  let e1 := fexp 53 1024 (Zdigits2 m + e) in
  ∃ r, shr_fexp 53 1024 m e l = (r, e1) ∧
    let m2 := round_nearest_even (shr_m r) (loc_of_shr_record r) in
    m / 2 ^ (e1 - e) ≤ m2 ≤ m / 2 ^ (e1 - e) + 1 ∧
    (l = loc_Exact → m mod 2 ^ (e1 - e) = 0 → m2 = m / 2 ^ (e1 - e)).
Proof.
  intros Hm He e1. destruct (shr_fexp_spec m e l Hm He) as (r & Hr & Hrm).
  fold e1 in Hr, Hrm. exists r. split; [done|]. intros m2.
  pose proof (round_nearest_even_bounds (shr_m r) (loc_of_shr_record r)) as Hb.
  fold m2 in Hb. split; [lia|]. intros -> Hd.
  unfold shr_fexp in Hr. fold e1 in Hr. unfold m2. cbn [shr_record_of_loc] in Hr.
  destruct (e1 - e) as [|p|p] eqn:E; [..|lia]; cbn [shr] in Hr.
  - injection Hr as <- _. simpl. by rewrite Z.div_1_r.
  - rewrite iter_shr_exact in Hr by done. by injection Hr as <- _.
Qed.

(** The rounded value, on the grid of its exponent, stays below the bound. *)
Lemma round_grid_le m e M E m2 :
  let e1 := fexp 53 1024 (Zdigits2 m + e) in
  0 ≤ m → -2148 ≤ e → e ≤ e1 → -1074 ≤ E → Zpos M < 2 ^ 53 →
  m2 ≤ m / 2 ^ (e1 - e) + 1 → (m mod 2 ^ (e1 - e) = 0 → m2 = m / 2 ^ (e1 - e)) ∨
    m * 2 ^ (e + 2148) < Zpos M * 2 ^ (E + 2148) →
  m * 2 ^ (e + 2148) ≤ Zpos M * 2 ^ (E + 2148) →
  m2 * 2 ^ (e1 + 2148) ≤ Zpos M * 2 ^ (E + 2148).
Proof.
  intros e1 Hm He0 He HE HM Hb Hx Hle.
  destruct (first_shift m e Hm He) as [Hb1 Hc1]. fold e1 in Hb1, Hc1.
  assert (-1074 ≤ e1) as He1 by (unfold e1; rewrite fexp64; lia).
  pose proof (pow2_pos (e1 - e) ltac:(lia)) as Hp1.
  pose proof (Z.div_mod m (2 ^ (e1 - e)) ltac:(lia)) as Hdm.
  pose proof (Z.mod_pos_bound m (2 ^ (e1 - e)) Hp1) as Hmb.
  destruct (decide (e1 ≤ E)) as [HeE|HeE].
  - assert (Zpos M * 2 ^ (E + 2148) = Zpos M * 2 ^ (E - e1) * 2 ^ (e1 + 2148)) as HQ
      by (rewrite <-Z.mul_assoc, <-Z.pow_add_r by lia; do 2 f_equal; lia).
    assert (Zpos M * 2 ^ (E + 2148) = Zpos M * 2 ^ (E - e1) * 2 ^ (e1 - e) * 2 ^ (e + 2148)) as HQ'.
    { rewrite HQ, <-(Z.mul_assoc _ (2 ^ (e1 - e))), <-Z.pow_add_r by lia. do 2 f_equal. lia. }
    pose proof (pow2_pos (e + 2148) ltac:(lia)) as Hpe.
    rewrite HQ' in Hle, Hx. rewrite HQ. apply Z.mul_le_mono_nonneg_r; [apply Z.pow_nonneg; lia|].
    apply (Z.mul_le_mono_pos_r _ _ _ Hpe) in Hle.
    destruct Hx as [Hx|Hx%(Z.mul_lt_mono_pos_r _ _ _ Hpe)]; [|nia].
    destruct (decide (m mod 2 ^ (e1 - e) = 0)) as [H0|H0]; [rewrite Hx by done|]; nia.
  - exfalso. destruct Hc1 as [Hc1|Hc1]; [lia|].
    assert (2 ^ 52 * 2 ^ (e1 + 2148) ≤ m * 2 ^ (e + 2148)) as H1.
    { replace (e1 + 2148) with (e1 - e + (e + 2148)) by lia.
      rewrite Z.pow_add_r, Z.mul_assoc by lia.
      apply Z.mul_le_mono_nonneg_r; [apply Z.pow_nonneg; lia|]. nia. }
    assert (Zpos M * 2 ^ (E + 2148) < 2 ^ 52 * 2 ^ (e1 + 2148)); [|lia].
    apply Z.lt_le_trans with (2 ^ 53 * 2 ^ (E + 2148)).
    + apply Z.mul_lt_mono_pos_r; [apply pow2_pos; lia|done].
    + rewrite <-!Z.pow_add_r by lia. apply Z.pow_le_mono_r; lia.
Qed.

Lemma round_le m e l M E :
  0 ≤ m → -2148 ≤ e → e ≤ fexp 53 1024 (Zdigits2 m + e) →
  f64_valid (S754_finite false M E) →
  m * 2 ^ (e + 2148) ≤ Zpos M * 2 ^ (E + 2148) →
  (l ≠ loc_Exact → m * 2 ^ (e + 2148) < Zpos M * 2 ^ (E + 2148)) →
  f64_finite (binary_round_aux 53 1024 false m e l) ∧
  f64_num (binary_round_aux 53 1024 false m e l) ≤ Zpos M * 2 ^ (E + 1074).
Proof.
  intros Hm He0 He HM Hle Hl.
  apply valid_finite_inv in HM as (HE & HM & _).
  unfold binary_round_aux. destruct (round_exact_shift m e l Hm He) as (r1 & -> & Hb & Hx).
  destruct (first_shift m e Hm He) as [Hb1 Hc1].
  set (e1 := fexp 53 1024 (Zdigits2 m + e)) in *.
  set (m2 := round_nearest_even (shr_m r1) (loc_of_shr_record r1)) in *.
  assert (-1074 ≤ e1) as He1 by (unfold e1; rewrite fexp64; lia).
  assert (m2 * 2 ^ (e1 + 2148) ≤ Zpos M * 2 ^ (E + 2148)) as Hkey.
  { apply (round_grid_le m e M E m2); [done|done|done|lia|done|apply Hb| |done].
    destruct l; [by left; apply Hx|right; by apply Hl]. }
  destruct (second_shift m2 e1) as (Hle2 & Hb2 & He2 & Hc2); [lia|done| |].
  { destruct Hc1; [by left|right; lia]. }
  destruct (shr_fexp_spec m2 e1 loc_Exact ltac:(lia) Hle2) as (r2 & -> & Hr2).
  rewrite Hr2. set (e2 := fexp 53 1024 (Zdigits2 m2 + e1)) in *.
  pose proof (pow2_pos (e2 - e1) ltac:(lia)) as Hp2.
  assert (m2 / 2 ^ (e2 - e1) * 2 ^ (e2 + 2148) ≤ Zpos M * 2 ^ (E + 2148)) as Hkey2.
  { eapply Z.le_trans; [|exact Hkey].
    replace (e2 + 2148) with (e2 - e1 + (e1 + 2148)) by lia. rewrite Z.pow_add_r, Z.mul_assoc by lia.
    apply Z.mul_le_mono_nonneg_r; [apply Z.pow_nonneg; lia|].
    pose proof (Z.mul_div_le m2 (2 ^ (e2 - e1)) Hp2). lia. }
  clearbody e2 m2. destruct (m2 / 2 ^ (e2 - e1)) as [|p|p]; [|..|lia].
  { split; [done|]. simpl. pose proof (pow2_pos (E + 1074) ltac:(lia)). nia. }
  destruct (Z.leb_spec e2 (1024 - 53)) as [Hle3|Hgt].
  - split; [done|]. unfold f64_num. rewrite Z.mul_1_l.
    apply (Z.mul_le_mono_pos_r _ _ (2 ^ 1074)); [apply pow2_pos; lia|].
    rewrite <-!Z.mul_assoc, <-!Z.pow_add_r by lia.
    by replace (e2 + 1074 + 1074) with (e2 + 2148) by lia;
      replace (E + 1074 + 1074) with (E + 2148) by lia.
  - exfalso. destruct Hc2 as [Hc2|Hc2]; [lia|].
    assert (Zpos M * 2 ^ (E + 2148) < 2 ^ 53 * 2 ^ (971 + 2148)) as H1.
    { apply Z.lt_le_trans with (2 ^ 53 * 2 ^ (E + 2148)).
      - apply Z.mul_lt_mono_pos_r; [apply pow2_pos; lia|done].
      - apply Z.mul_le_mono_nonneg_l; [lia|]. apply Z.pow_le_mono_r; lia. }
    assert (2 ^ 52 * 2 ^ (e2 + 2148) ≤ Zpos p * 2 ^ (e2 + 2148)) as H2
      by (apply Z.mul_le_mono_nonneg_r; [apply Z.pow_nonneg; lia|done]).
    assert (2 ^ 53 * 2 ^ (971 + 2148) ≤ 2 ^ 52 * 2 ^ (e2 + 2148)); [|lia].
    rewrite <-!Z.pow_add_r by lia. apply Z.pow_le_mono_r; lia.
Qed.

(** The other direction: truncation to a coarser grid stays above a valid float. *)
Lemma grid_ge m e e1 M E :
  0 ≤ m → -2148 ≤ e → e ≤ e1 → -1074 ≤ e1 → -1074 ≤ E → Zpos M < 2 ^ 53 →
  (e1 = -1074 ∨ 2 ^ 52 ≤ m / 2 ^ (e1 - e)) →
  Zpos M * 2 ^ (E + 2148) ≤ m * 2 ^ (e + 2148) →
  Zpos M * 2 ^ (E + 2148) ≤ m / 2 ^ (e1 - e) * 2 ^ (e1 + 2148).
Proof.
  intros Hm He0 He He1 HE HM Hc Hle. destruct (decide (e1 ≤ E)) as [HeE|HeE].
  - replace (E + 2148) with (E - e1 + (e1 + 2148)) in * by lia.
    rewrite Z.pow_add_r, Z.mul_assoc in * by lia.
    apply Z.mul_le_mono_nonneg_r; [apply Z.pow_nonneg; lia|].
    apply Z.div_le_lower_bound; [apply pow2_pos; lia|].
    replace (e1 + 2148) with (e1 - e + (e + 2148)) in Hle by lia.
    rewrite Z.pow_add_r, Z.mul_assoc in Hle by lia.
    apply Z.mul_le_mono_pos_r in Hle; [lia|apply pow2_pos; lia].
  - destruct Hc as [Hc|Hc]; [lia|].
    transitivity (2 ^ 53 * 2 ^ (E + 2148)).
    + apply Z.mul_le_mono_nonneg_r; [apply Z.pow_nonneg; lia|lia].
    + transitivity (2 ^ 52 * 2 ^ (e1 + 2148)).
      * rewrite <-!Z.pow_add_r by lia. apply Z.pow_le_mono_r; lia.
      * apply Z.mul_le_mono_nonneg_r; [apply Z.pow_nonneg; lia|done].
Qed.

Lemma round_ge m e l M E :
  0 ≤ m → -2148 ≤ e → e ≤ fexp 53 1024 (Zdigits2 m + e) →
  f64_valid (S754_finite false M E) →
  Zpos M * 2 ^ (E + 2148) ≤ m * 2 ^ (e + 2148) →
  f64_finite (binary_round_aux 53 1024 false m e l) →
  Zpos M * 2 ^ (E + 1074) ≤ f64_num (binary_round_aux 53 1024 false m e l).
Proof.
  intros Hm He0 He HM Hle. apply valid_finite_inv in HM as (HE & HM & _).
  unfold binary_round_aux. destruct (round_exact_shift m e l Hm He) as (r1 & -> & Hb & _).
  destruct (first_shift m e Hm He) as [Hb1 Hc1].
  set (e1 := fexp 53 1024 (Zdigits2 m + e)) in *.
  set (m2 := round_nearest_even (shr_m r1) (loc_of_shr_record r1)) in *.
  assert (-1074 ≤ e1) as He1 by (unfold e1; rewrite fexp64; lia).
  destruct (second_shift m2 e1) as (Hle2 & Hb2 & He2 & Hc2); [lia|done| |].
  { destruct Hc1; [by left|right; lia]. }
  destruct (shr_fexp_spec m2 e1 loc_Exact ltac:(lia) Hle2) as (r2 & -> & Hr2).
  rewrite Hr2. set (e2 := fexp 53 1024 (Zdigits2 m2 + e1)) in *.
  assert (Zpos M * 2 ^ (E + 2148) ≤ m2 / 2 ^ (e2 - e1) * 2 ^ (e2 + 2148)) as Hkey.
  { apply grid_ge; [lia|lia|done|done|lia|done|done|].
    transitivity (m / 2 ^ (e1 - e) * 2 ^ (e1 + 2148)).
    - apply grid_ge; [lia|lia|done|done|lia|done|done|done].
    - apply Z.mul_le_mono_nonneg_r; [apply Z.pow_nonneg; lia|lia]. }
  clearbody e2 m2. destruct (m2 / 2 ^ (e2 - e1)) as [|p|p]; [|..|lia].
  { pose proof (pow2_pos (E + 2148) ltac:(lia)). nia. }
  destruct (Z.leb_spec e2 (1024 - 53)) as [Hle3|Hgt]; [|done]. intros _.
  unfold f64_num. rewrite Z.mul_1_l.
  apply (Z.mul_le_mono_pos_r _ _ (2 ^ 1074)); [apply pow2_pos; lia|].
  rewrite <-!Z.mul_assoc, <-!Z.pow_add_r by lia.
  by replace (e2 + 1074 + 1074) with (e2 + 2148) by lia;
    replace (E + 1074 + 1074) with (E + 2148) by lia.
Qed.

(** [r] is a rounding of a number of the sign of [z], of absolute value at most [b]:
    finite, on the same side of zero, and within the bound. *)
Definition rounds_within (r : f64) (z b : Z) : Prop :=
  f64_finite r ∧ Z.abs (f64_num r) ≤ b ∧ (0 ≤ z → 0 ≤ f64_num r) ∧ (z ≤ 0 → f64_num r ≤ 0).

Lemma f64_num_opp x : f64_num (SFopp x) = - f64_num x.
Proof. destruct x as [| | |[]]; simpl; lia. Qed.

Lemma f64_finite_opp x : f64_finite (SFopp x) ↔ f64_finite x.
Proof. by destruct x. Qed.

Lemma binary_round_aux_opp m e l :
  binary_round_aux 53 1024 true m e l = SFopp (binary_round_aux 53 1024 false m e l).
Proof.
  unfold binary_round_aux. destruct (shr_fexp 53 1024 m e l) as [r1 e1].
  destruct (shr_fexp _ _ _ e1 _) as [r2 e2]. destruct (shr_m r2); [done| |done].
  by destruct (_ <=? _).
Qed.

Lemma rounds_within_opp r z b : rounds_within r z b → rounds_within (SFopp r) (- z) b.
Proof.
  unfold rounds_within. rewrite f64_num_opp, f64_finite_opp. intros (?&?&?&?).
  split_and!; [done|lia|lia|lia].
Qed.

(** Rounding of a signed magnitude. *)
Lemma round_aux_within (s : bool) m e l M E z :
  0 ≤ m → -2148 ≤ e → e ≤ fexp 53 1024 (Zdigits2 m + e) → f64_valid (S754_finite false M E) →
  m * 2 ^ (e + 2148) ≤ Zpos M * 2 ^ (E + 2148) →
  (l ≠ loc_Exact → m * 2 ^ (e + 2148) < Zpos M * 2 ^ (E + 2148)) →
  (if s then z < 0 else 0 < z) →
  rounds_within (binary_round_aux 53 1024 s m e l) z (f64_num (S754_finite false M E)).
Proof.
  intros Hm He0 He HM Hle Hl Hz. destruct (round_le m e l M E) as [Hf Hb]; [done..|].
  pose proof (binary_round_aux_nonneg m e l Hm He) as Hn.
  pose proof (binary_round_aux_valid false m e l Hm He) as [Hv _].
  pose proof (f64_nonneg_num _ Hn Hv) as H0.
  assert (rounds_within (binary_round_aux 53 1024 false m e l) (Z.abs z)
            (f64_num (S754_finite false M E))) as Hw.
  { split; [done|]. change (f64_num (S754_finite false M E)) with (1 * (Zpos M * 2 ^ (E + 1074))).
    split_and!; [lia|lia|]. destruct s; lia. }
  destruct s.
  - rewrite binary_round_aux_opp. replace z with (- Z.abs z) by lia. by apply rounds_within_opp.
  - by replace z with (Z.abs z) by lia.
Qed.

Lemma round_within (s : bool) m e M E z :
  -2148 ≤ e → f64_valid (S754_finite false M E) →
  Zpos m * 2 ^ (e + 2148) ≤ Zpos M * 2 ^ (E + 2148) →
  (if s then z < 0 else 0 < z) →
  rounds_within (binary_round 53 1024 s m e) z (f64_num (S754_finite false M E)).
Proof.
  intros He HM Hle Hz. unfold binary_round.
  destruct (shl_align_spec m e (fexp 53 1024 (Zpos (digits2_pos m) + e)))
    as (mz & ez & E1 & Hez & Hmz).
  pose proof (binary_round_ok m e) as Hok. rewrite E1 in Hok |- *.
  apply round_aux_within; [lia|rewrite fexp64 in Hez; lia|done|done| |done|done].
  rewrite Hmz, <-Z.mul_assoc, <-Z.pow_add_r by (rewrite fexp64 in Hez; lia).
  by replace (e - ez + (ez + 2148)) with (e + 2148) by lia.
Qed.

Lemma rounds_within_zero s b : 0 ≤ b → rounds_within (S754_zero s) 0 b.
Proof. intros. split_and!; simpl; lia || done. Qed.

Lemma rounds_within_self x b : f64_finite x → Z.abs (f64_num x) ≤ b → rounds_within x (f64_num x) b.
Proof. intros. split_and!; done. Qed.

Lemma normalize_within m e sz M E :
  -2148 ≤ e → f64_valid (S754_finite false M E) →
  Z.abs m * 2 ^ (e + 2148) ≤ Zpos M * 2 ^ (E + 2148) →
  rounds_within (binary_normalize 53 1024 m e sz) m (f64_num (S754_finite false M E)).
Proof.
  intros He HM Hle. destruct m as [|p|p].
  - apply rounds_within_zero. by apply f64_nonneg_num.
  - by apply round_within.
  - by apply round_within.
Qed.

Lemma rounds_within_sign r z z' b :
  (0 ≤ z' → 0 ≤ z) → (z' ≤ 0 → z ≤ 0) → rounds_within r z b → rounds_within r z' b.
Proof. intros ?? (?&?&?&?). split_and!; eauto. Qed.

(** The value of a signed mantissa after alignment to a smaller exponent. *)
Lemma aligned_num s m e (p : positive) ez :
  -1074 ≤ ez ≤ e → Zpos p = Zpos m * 2 ^ (e - ez) →
  f64_num (S754_finite s m e) = cond_Zopp s (Zpos p) * 2 ^ (ez + 1074).
Proof.
  intros He ->. unfold f64_num. replace (e + 1074) with (e - ez + (ez + 1074)) by lia.
  rewrite Z.pow_add_r by lia. destruct s; cbn [cond_Zopp]; lia.
Qed.

Lemma sum_within a b e sz M E z :
  -1074 ≤ e → f64_valid (S754_finite false M E) → z = (a + b) * 2 ^ (e + 1074) →
  Z.abs z ≤ f64_num (S754_finite false M E) →
  rounds_within (binary_normalize 53 1024 (a + b) e sz) z (f64_num (S754_finite false M E)).
Proof.
  intros He HM -> Hle. pose proof (pow2_pos (e + 1074) ltac:(lia)) as Hp.
  apply rounds_within_sign with (a + b); [nia|nia|].
  apply normalize_within; [lia|done|].
  pose proof (valid_finite_inv _ _ _ HM) as (HE&_&_).
  apply (Z.mul_le_mono_nonneg_r _ _ (2 ^ 1074)) in Hle; [|apply Z.pow_nonneg; lia].
  unfold f64_num in Hle. rewrite Z.mul_1_l, Z.abs_mul, (Z.abs_eq (2 ^ _)) in Hle by lia.
  rewrite <-!Z.mul_assoc, <-!Z.pow_add_r in Hle by lia.
  by replace (e + 2148) with (e + 1074 + 1074) by lia;
    replace (E + 2148) with (E + 1074 + 1074) by lia.
Qed.

(** A bounded sum neither overflows nor crosses the bound, and keeps its sign. *)
Lemma f64_add_within x y M E :
  f64_valid x → f64_valid y → f64_finite x → f64_finite y → f64_valid (S754_finite false M E) →
  Z.abs (f64_num x + f64_num y) ≤ f64_num (S754_finite false M E) →
  rounds_within (f64_add x y) (f64_num x + f64_num y) (f64_num (S754_finite false M E)).
Proof.
  intros Hx Hy Fx Fy HM Hle. pose proof (f64_nonneg_num (S754_finite false M E) eq_refl HM) as Hpos.
  destruct x as [sx| | |sx mx ex], y as [sy| | |sy my ey]; try done.
  - destruct sx, sy; by apply rounds_within_zero.
  - rewrite Z.add_0_r in *. by apply (rounds_within_self (S754_finite sx mx ex)).
  - apply valid_finite_inv in Hx as (Hex&_&_), Hy as (Hey&_&_). unfold f64_add, SFadd.
    destruct (shl_align_spec mx ex (Z.min ex ey)) as (a & ea & -> & Hea & Ha).
    destruct (shl_align_spec my ey (Z.min ex ey)) as (b & eb & -> & Heb & Hb).
    assert (ea = Z.min ex ey) as -> by lia. assert (eb = Z.min ex ey) as -> by lia.
    apply sum_within; [lia|done| |done].
    rewrite (aligned_num sx mx ex a (Z.min ex ey)), (aligned_num sy my ey b (Z.min ex ey)) by lia.
    cbn [fst]. lia.
Qed.

(** A difference is the sum with the opposite. *)
Lemma f64_sub_add x y : f64_finite x → f64_finite y → f64_sub x y = f64_add x (SFopp y).
Proof.
  destruct x as [[]| | |sx mx ex], y as [[]| | |sy my ey]; try done. intros _ _.
  unfold f64_sub, f64_add, SFsub, SFadd, SFopp. f_equal. by destruct sy, sx.
Qed.

Lemma f64_sub_within x y M E :
  f64_valid x → f64_valid y → f64_finite x → f64_finite y → f64_valid (S754_finite false M E) →
  Z.abs (f64_num x - f64_num y) ≤ f64_num (S754_finite false M E) →
  rounds_within (f64_sub x y) (f64_num x - f64_num y) (f64_num (S754_finite false M E)).
Proof.
  intros Hx Hy Fx Fy HM Hle. rewrite f64_sub_add by done. rewrite <-Z.add_opp_r, <-f64_num_opp in *.
  apply f64_add_within; [done|by destruct y|done|by apply f64_finite_opp|done|done].
Qed.

(** A sum above a positive float stays above it. *)
Lemma f64_add_ge x y M E :
  f64_valid x → f64_valid y → f64_finite x → f64_finite y → f64_valid (S754_finite false M E) →
  f64_num (S754_finite false M E) ≤ f64_num x + f64_num y → f64_finite (f64_add x y) →
  f64_num (S754_finite false M E) ≤ f64_num (f64_add x y).
Proof.
  intros Hx Hy Fx Fy HM Hle. pose proof (valid_finite_inv _ _ _ HM) as (HE&_&_).
  pose proof (pow2_pos (E + 1074) ltac:(lia)) as HpE.
  destruct x as [sx| | |sx mx ex], y as [sy| | |sy my ey]; try done.
  - simpl in Hle. nia.
  - by rewrite Z.add_0_r in Hle.
  - apply valid_finite_inv in Hx as (Hex&_&_), Hy as (Hey&_&_). unfold f64_add, SFadd.
    destruct (shl_align_spec mx ex (Z.min ex ey)) as (a & ea & -> & Hea & Ha).
    destruct (shl_align_spec my ey (Z.min ex ey)) as (b & eb & -> & Heb & Hb).
    assert (ea = Z.min ex ey) as -> by lia. assert (eb = Z.min ex ey) as -> by lia. cbn [fst].
    rewrite (aligned_num sx mx ex a (Z.min ex ey)), (aligned_num sy my ey b (Z.min ex ey)) in Hle by lia.
    set (ez := Z.min ex ey) in *. rewrite <-Z.mul_add_distr_r in Hle.
    pose proof (pow2_pos (ez + 1074) ltac:(lia)) as Hpz. change (f64_num (S754_finite false M E)) with (1 * (Zpos M * 2 ^ (E + 1074))) in *.
    rewrite Z.mul_1_l in *.
    destruct (cond_Zopp sx (Zpos a) + cond_Zopp sy (Zpos b)) as [|p|p]; [nia| |nia].
    cbn [binary_normalize]. unfold binary_round.
    destruct (shl_align_spec p ez (fexp 53 1024 (Zpos (digits2_pos p) + ez)))
      as (mz & e' & E1 & Hez & Hmz).
    pose proof (binary_round_ok p ez) as Hok. rewrite E1 in Hok |- *.
    apply round_ge; [lia|rewrite fexp64 in Hez; lia|done|done|].
    rewrite Hmz, <-Z.mul_assoc, <-Z.pow_add_r by (rewrite fexp64 in Hez; lia).
    replace (ez - e' + (e' + 2148)) with (ez + 1074 + 1074) by lia.
    replace (E + 2148) with (E + 1074 + 1074) by lia.
    rewrite (Z.pow_add_r 2 (E + 1074)), (Z.pow_add_r 2 (ez + 1074)), !Z.mul_assoc by lia.
    apply Z.mul_le_mono_nonneg_r; [apply Z.pow_nonneg; lia|done].
Qed.

Lemma xorb_sign sx sy mx ex my ey :
  f64_valid (S754_finite sx mx ex) → f64_valid (S754_finite sy my ey) →
  let z := f64_num (S754_finite sx mx ex) * f64_num (S754_finite sy my ey) in
  (if xorb sx sy then z < 0 else 0 < z) ∧
  Z.abs z = Zpos mx * 2 ^ (ex + 1074) * (Zpos my * 2 ^ (ey + 1074)).
Proof.
  intros (?&_&_)%valid_finite_inv (?&_&_)%valid_finite_inv z.
  pose proof (pow2_pos (ex + 1074) ltac:(lia)). pose proof (pow2_pos (ey + 1074) ltac:(lia)).
  unfold z, f64_num. destruct sx, sy; cbn [xorb]; split; nia.
Qed.

(** A bounded product likewise; [2^1074] rescales the product of numerators. *)
Lemma f64_mul_within x y M E :
  f64_valid x → f64_valid y → f64_finite x → f64_finite y → f64_valid (S754_finite false M E) →
  Z.abs (f64_num x * f64_num y) ≤ f64_num (S754_finite false M E) * 2 ^ 1074 →
  rounds_within (f64_mul x y) (f64_num x * f64_num y) (f64_num (S754_finite false M E)).
Proof.
  intros Hx Hy Fx Fy HM Hle. pose proof (f64_nonneg_num (S754_finite false M E) eq_refl HM) as Hpos.
  destruct x as [sx| | |sx mx ex], y as [sy| | |sy my ey]; try done;
    rewrite ?Z.mul_0_l, ?Z.mul_0_r; try by apply rounds_within_zero.
  destruct (xorb_sign sx sy mx ex my ey Hx Hy) as [Hs Habs]. rewrite Habs in Hle.
  pose proof (mul_core_ok _ _ _ _ _ _ Hx Hy) as Hok.
  apply valid_finite_inv in Hx as (Hex&_&_), Hy as (Hey&_&_).
  pose proof (valid_finite_inv _ _ _ HM) as (HE&_&_).
  apply round_aux_within; [lia|lia|done|done| |done|done].
  unfold f64_num in Hle. rewrite Z.mul_1_l, <-(Z.mul_assoc (Zpos M)), <-Z.pow_add_r in Hle by lia.
  replace (E + 2148) with (E + 1074 + 1074) by lia. etransitivity; [|exact Hle].
  apply Z.eq_le_incl. replace (ex + ey + 2148) with (ex + 1074 + (ey + 1074)) by lia.
  rewrite Z.pow_add_r, Pos2Z.inj_mul by lia. ring.
Qed.

(** The division core: floor quotient on a finer grid, exact only without remainder. *)
Lemma div_core_value mx ex my ey :
  let '(q, e, l) := SFdiv_core_binary 53 1024 (Zpos mx) ex (Zpos my) ey in
  Z.min (-1074) (ex - ey) ≤ e ≤ ex - ey ∧ q * Zpos my ≤ Zpos mx * 2 ^ (ex - ey - e) ∧
  (l ≠ loc_Exact → q * Zpos my < Zpos mx * 2 ^ (ex - ey - e)).
Proof.
  unfold SFdiv_core_binary. rewrite fexp64. set (e' := Z.min _ (ex - ey)).
  assert (Z.min (-1074) (ex - ey) ≤ e' ≤ ex - ey) as He by (unfold e'; lia). clearbody e'.
  assert ((match ex - ey - e' with Z0 => Zpos mx | Zpos _ => Z.shiftl (Zpos mx) (ex - ey - e')
           | Zneg _ => 0 end) = Zpos mx * 2 ^ (ex - ey - e')) as ->.
  { destruct (ex - ey - e') as [|p|p] eqn:Es; [lia| |lia]. by rewrite Z.shiftl_mul_pow2 by lia. }
  set (n := Zpos mx * _). pose proof (Z_div_mod n (Zpos my) ltac:(lia)) as Hdm.
  destruct (Z.div_eucl n (Zpos my)) as [q r]. destruct Hdm as [Hn Hr].
  split; [done|]. split; [lia|]. intros Hl.
  assert (r ≠ 0) by (intros ->; apply Hl; unfold new_location; by destruct (Z.even _)). lia.
Qed.

(** A bounded quotient likewise. *)
Lemma f64_div_within x y M E :
  f64_valid x → f64_valid y → f64_finite x → f64_finite y → f64_num y ≠ 0 →
  f64_valid (S754_finite false M E) →
  Z.abs (f64_num x) * 2 ^ 1074 ≤ f64_num (S754_finite false M E) * Z.abs (f64_num y) →
  rounds_within (f64_div x y) (f64_num x * f64_num y) (f64_num (S754_finite false M E)).
Proof.
  intros Hx Hy Fx Fy Hy0 HM Hle. pose proof (f64_nonneg_num (S754_finite false M E) eq_refl HM) as Hpos.
  destruct x as [sx| | |sx mx ex], y as [sy| | |sy my ey]; try done.
  destruct (xorb_sign sx sy mx ex my ey Hx Hy) as [Hs _].
  apply valid_finite_inv in Hx as (Hex&_&_), Hy as (Hey&_&_).
  pose proof (valid_finite_inv _ _ _ HM) as (HE&_&_).
  unfold f64_div, SFdiv. pose proof (div_core_ok mx ex my ey) as Hc.
  pose proof (div_core_value mx ex my ey) as Hv.
  destruct (SFdiv_core_binary _ _ _ _ _ _) as [[q e] l].
  destruct Hc as [Hq Hok], Hv as (He & Hqm & Hl).
  pose proof (pow2_pos (ex + 1074) ltac:(lia)). pose proof (pow2_pos (ey + 1074) ltac:(lia)) as Hp.
  pose proof (pow2_pos (e + 2148 + (ey + 1074)) ltac:(lia)) as Hp'.
  assert (Zpos mx * 2 ^ (ex - ey - e) * 2 ^ (e + 2148 + (ey + 1074)) ≤
          Zpos M * 2 ^ (E + 2148) * (Zpos my * 2 ^ (ey + 1074))) as Hmid.
  { replace (Z.abs (f64_num (S754_finite sx mx ex))) with (Zpos mx * 2 ^ (ex + 1074)) in Hle
      by (simpl; destruct sx; nia).
    replace (Z.abs (f64_num (S754_finite sy my ey))) with (Zpos my * 2 ^ (ey + 1074)) in Hle
      by (simpl; destruct sy; nia).
    apply (Z.mul_le_mono_nonneg_r _ _ (2 ^ 1074)) in Hle; [|apply Z.pow_nonneg; lia].
    rewrite <-Z.mul_assoc, <-Z.pow_add_r by lia.
    replace (ex - ey - e + (e + 2148 + (ey + 1074))) with (ex + 1074 + 1074 + 1074) by lia.
    replace (E + 2148) with (E + 1074 + 1074) by lia.
    rewrite (Z.pow_add_r 2 (ex + 1074 + 1074)), (Z.pow_add_r 2 (ex + 1074)),
      (Z.pow_add_r 2 (E + 1074)) by lia.
    unfold f64_num in Hle. lia. }
  apply round_aux_within; [done|lia|done|done|..|done].
  - apply (Z.mul_le_mono_pos_r _ _ (Zpos my * 2 ^ (ey + 1074))); [nia|].
    etransitivity; [|exact Hmid]. rewrite (Z.pow_add_r 2 (e + 2148)) by lia.
    rewrite (Z.pow_add_r 2 (e + 2148)) in Hp' by lia. nia.
  - intros Hl'%Hl. apply (Z.mul_lt_mono_pos_r (Zpos my * 2 ^ (ey + 1074))); [nia|].
    eapply Z.lt_le_trans; [|exact Hmid]. rewrite (Z.pow_add_r 2 (e + 2148)) by lia.
    rewrite (Z.pow_add_r 2 (e + 2148)) in Hp' by lia. nia.
Qed.

(** ** A damped step between two values *)

Lemma pow2_float k :
  0 ≤ k ≤ 2045 → ∃ M E, f64_valid (S754_finite false M E) ∧ f64_num (S754_finite false M E) = 2 ^ k.
Proof.
  intros Hk. pose proof (pow2_pos k ltac:(lia)). destruct (decide (k ≤ 52)).
  - exists (Z.to_pos (2 ^ k)), (-1074). split.
    + apply valid_finite_intro; [lia| |by left]. rewrite Z2Pos.id by done.
      apply Z.pow_lt_mono_r; lia.
    + simpl. rewrite Z2Pos.id by done. lia.
  - exists (2 ^ 52)%positive, (k - 52 - 1074). split.
    + apply valid_finite_intro; [lia|done|by right].
    + unfold f64_num. change (Zpos (2 ^ 52)) with (2 ^ 52).
      rewrite Z.mul_1_l, <-Z.pow_add_r by lia. f_equal. lia.
Qed.

Lemma pos_float x :
  f64_valid x → f64_finite x → 0 < f64_num x → ∃ M E, x = S754_finite false M E.
Proof.
  destruct x as [| | |[] m e]; try done; [|by eauto].
  intros (?&_&_)%valid_finite_inv _. pose proof (pow2_pos (e + 1074) ltac:(lia)). simpl. nia.
Qed.

Lemma rounds_within_null r b : rounds_within r 0 b → f64_num r = 0.
Proof. intros (_&_&?&?). lia. Qed.

(** [h] scales its argument down at least fourfold. *)
Definition damping (h : f64 → f64) : Prop := ∀ d M E,
  f64_valid d → f64_finite d → f64_valid (S754_finite false M E) →
  Z.abs (f64_num d) ≤ 4 * f64_num (S754_finite false M E) →
  f64_valid (h d) ∧ rounds_within (h d) (f64_num d) (f64_num (S754_finite false M E)).

Lemma mul_damping c :
  f64_valid c → f64_finite c → 0 < f64_num c → 4 * f64_num c ≤ 2 ^ 1074 →
  damping (f64_mul c).
Proof.
  intros Hc Fc H0 H4 d M E Hd Fd HM Hle. split; [by apply f64_mul_valid|].
  apply rounds_within_sign with (f64_num c * f64_num d); [nia|nia|].
  apply f64_mul_within; [done..|]. rewrite Z.abs_mul, (Z.abs_eq (f64_num c)) by lia. nia.
Qed.

Lemma div_damping c :
  f64_valid c → f64_finite c → 4 * 2 ^ 1074 ≤ f64_num c → damping (λ d, f64_div d c).
Proof.
  intros Hc Fc H4 d M E Hd Fd HM Hle. pose proof (pow2_pos 1074 ltac:(lia)) as Hp.
  pose proof (f64_nonneg_num (S754_finite false M E) eq_refl HM) as H0.
  split; [by apply f64_div_valid|].
  apply rounds_within_sign with (f64_num d * f64_num c); [nia|nia|].
  apply f64_div_within; [done..|lia|done|]. rewrite (Z.abs_eq (f64_num c)) by lia.
  generalize dependent (2 ^ 1074). intros p ??. nia.
Qed.

(** [x + h (y - x)] lies between zero and the larger of [x] and [y]. *)
Lemma blend_down h x y :
  damping h → f64_valid x → f64_valid y → f64_finite x → f64_finite y →
  0 ≤ f64_num y ≤ f64_num x →
  let r := f64_add x (h (f64_sub y x)) in
  f64_finite r ∧ 0 ≤ f64_num r ≤ f64_num x.
Proof.
  intros Hh Vx Vy Fx Fy Hxy. cbv zeta.
  assert (∃ M E, f64_valid (S754_finite false M E) ∧
            f64_num x ≤ f64_num (S754_finite false M E) ∧
            (0 < f64_num x → x = S754_finite false M E)) as (M & E & HM & Hb & Hbx).
  { destruct (decide (0 < f64_num x)) as [H0|H0].
    - destruct (pos_float x) as (M & E & ->); [done..|]. by exists M, E.
    - destruct (pow2_float 0) as (M & E & HM & HE); [lia|]. exists M, E. split_and!; [done| |done].
      rewrite HE. lia. }
  pose proof (f64_sub_within y x M E Vy Vx Fy Fx HM ltac:(lia)) as (Fd & Bd & _ & Sd).
  destruct (Hh (f64_sub y x) M E) as (Vh & Fh & Bh & _ & Sh);
    [by apply f64_sub_valid|done|done|lia|].
  destruct (decide (0 < f64_num x)) as [H0|H0].
  - assert (f64_num (S754_finite false M E) = f64_num x) as Hnx by (by rewrite <-(Hbx H0)).
    rewrite Hnx in *.
    destruct (f64_add_within x (h (f64_sub y x)) M E) as (Fr & Br & Sr & _);
      [done..|rewrite Hnx; lia|]. rewrite Hnx in Br. split; [done|lia].
  - pose proof (f64_sub_within y x M E Vy Vx Fy Fx HM ltac:(lia)) as Hd.
    replace (f64_num y - f64_num x) with 0 in Hd by lia. apply rounds_within_null in Hd.
    pose proof (Hh (f64_sub y x) M E ltac:(by apply f64_sub_valid) Fd HM ltac:(lia)) as [_ Hh'].
    rewrite Hd in Hh'. apply rounds_within_null in Hh'.
    pose proof (f64_add_within x (h (f64_sub y x)) M E Vx Vh Fx Fh HM ltac:(lia)) as Hr.
    pose proof Hr as (Fr & _). replace (f64_num x + _) with 0 in Hr by lia.
    apply rounds_within_null in Hr. split; [done|lia].
Qed.

Lemma blend_up h x y :
  damping h → f64_valid x → f64_valid y → f64_finite x → f64_finite y →
  0 ≤ f64_num x < f64_num y → f64_num y ≤ 2 ^ 2045 →
  let r := f64_add x (h (f64_sub y x)) in
  f64_finite r ∧ 0 ≤ f64_num r ≤ f64_num y.
Proof.
  intros Hh Vx Vy Fx Fy Hxy Hy. cbv zeta.
  set (δ := f64_num y - f64_num x). set (k := Z.log2_up δ).
  assert (0 ≤ k ≤ 2045) as Hk.
  { split; [apply Z.log2_up_nonneg|]. apply Z.log2_up_le_pow2; unfold δ; lia. }
  assert (δ ≤ 2 ^ k ∧ 2 ^ Z.max (k - 2) 0 ≤ δ ∧ 2 ^ k ≤ 4 * 2 ^ Z.max (k - 2) 0) as (Hd1 & Hd2 & Hd3).
  { destruct (decide (δ = 1)) as [H1|H1]; [unfold k; rewrite H1; vm_compute; done|].
    pose proof (Z.log2_up_spec δ ltac:(unfold δ; lia)) as [Ha Hb]. fold k in Ha, Hb.
    split; [done|]. destruct (Z.max_spec (k - 2) 0) as [[Hm ->]|[Hm ->]].
    - split; [simpl; lia|]. assert (k = 0 ∨ k = 1) as [->| ->] by lia; simpl; lia.
    - split; [|rewrite <-(Z.pow_add_r 2 2) by lia; apply Z.pow_le_mono_r; lia].
      apply Z.lt_le_incl, Z.le_lt_trans with (2 ^ Z.pred k); [apply Z.pow_le_mono_r; lia|done]. }
  destruct (pow2_float k Hk) as (M & E & HM & HE).
  destruct (pow2_float (Z.max (k - 2) 0)) as (M' & E' & HM' & HE'); [lia|].
  destruct (f64_sub_within y x M E) as (Fd & Bd & Sd & _); [done..|rewrite HE; fold δ; lia|].
  destruct (Hh (f64_sub y x) M' E') as (Vh & Fh & Bh & Sh & _);
    [by apply f64_sub_valid|done|done|rewrite HE'; lia|].
  destruct (pos_float y) as (My & Ey & Ey'); [done|done|lia|].
  fold δ in Sd. rewrite HE' in Bh. unfold δ in Hd2.
  destruct (f64_add_within x (h (f64_sub y x)) My Ey) as (Fr & Br & Sr & _);
    [done..|by rewrite <-Ey'|rewrite <-Ey'; lia|].
  rewrite <-Ey' in Br. split; [done|]. lia.
Qed.

Lemma blend h x y :
  damping h → f64_valid x → f64_valid y → f64_finite x → f64_finite y →
  0 ≤ f64_num x → 0 ≤ f64_num y ≤ 2 ^ 2045 →
  let r := f64_add x (h (f64_sub y x)) in
  f64_finite r ∧ 0 ≤ f64_num r ≤ Z.max (f64_num x) (f64_num y).
Proof.
  intros Hh Vx Vy Fx Fy Hx Hy r. destruct (decide (f64_num y ≤ f64_num x)).
  - destruct (blend_down h x y) as [Hf Hb]; [done..|lia|]. fold r in Hf, Hb. split; [done|]. lia.
  - destruct (blend_up h x y) as [Hf Hb]; [done..|lia|lia|]. fold r in Hf, Hb. split; [done|]. lia.
Qed.

(** Integer bounds on an exact sum are bounds on the rounded one. *)
Lemma f64_add_int_bounds x y lo hi :
  f64_valid x → f64_valid y → f64_finite x → f64_finite y →
  0 ≤ lo → 0 < hi < 2 ^ 53 →
  lo * 2 ^ 1074 ≤ f64_num x + f64_num y ≤ hi * 2 ^ 1074 →
  f64_valid (f64_add x y) ∧ f64_finite (f64_add x y) ∧
  lo * 2 ^ 1074 ≤ f64_num (f64_add x y) ≤ hi * 2 ^ 1074.
Proof.
  intros Vx Vy Fx Fy Hlo Hhi Hb. pose proof (pow2_pos 1074 ltac:(lia)) as Hp.
  assert (lo ≤ hi) as Hlh by nia.
  assert (∀ n, 0 < n < 2 ^ 53 → ∃ M E, f64_valid (S754_finite false M E) ∧
            f64_num (S754_finite false M E) = n * 2 ^ 1074) as Hint.
  { intros n Hn. destruct (f64_of_Z_exact n ltac:(lia)) as [Fn En].
    destruct (pos_float (f64_of_Z n)) as (M & E & EM); [apply f64_of_Z_valid|done|rewrite En; nia|].
    exists M, E. rewrite <-EM. split; [apply f64_of_Z_valid|done]. }
  destruct (Hint hi Hhi) as (M & E & HM & HE).
  destruct (f64_add_within x y M E) as (Fr & Br & Sr & _); [done..|rewrite HE; lia|].
  rewrite HE in Br. split; [by apply f64_add_valid|]. split; [done|]. split; [|lia].
  destruct (decide (lo = 0)) as [->|H0]; [lia|].
  destruct (Hint lo ltac:(lia)) as (M' & E' & HM' & HE'). rewrite <-HE'.
  apply f64_add_ge; [done..|rewrite HE'; lia|done].
Qed.

#[export] Hint Resolve f64_of_Z_valid f64_add_valid f64_sub_valid f64_mul_valid f64_div_valid
  f64_abs_valid f64_of_Z_nonneg f64_add_nonneg f64_nonneg_not_nan : f64.

(** ** Floats with a positive sign

    Zero, finite or infinite, but with the sign bit clear and not a NaN: what products and
    quotients of positive quantities are, underflow and overflow included. *)
Definition f64_plus (x : f64) : Prop :=
  match x with
  | S754_nan => False
  | S754_zero s | S754_infinity s | S754_finite s _ _ => s = false
  end.

Lemma f64_plus_round m e l :
  0 ≤ m → e ≤ fexp 53 1024 (Zdigits2 m + e) → f64_plus (binary_round_aux 53 1024 false m e l).
Proof.
  intros Hm He. pose proof (binary_round_aux_sign false m e l) as Hs.
  destruct (binary_round_aux_valid false m e l Hm He) as [_ Hn]. by destruct (binary_round_aux _ _ _ _ _ _).
Qed.

Lemma f64_plus_of_Z n : 0 ≤ n → f64_plus (f64_of_Z n).
Proof.
  destruct n as [|p|p]; [done| |lia]. intros _. unfold f64_of_Z, binary_normalize, binary_round.
  pose proof (binary_round_ok p 0) as Hok. destruct (shl_align _ _ _) as [mz ez]. by apply f64_plus_round.
Qed.

Lemma f64_plus_mul x m e :
  f64_valid x → f64_valid (S754_finite false m e) → f64_plus x → f64_plus (f64_mul x (S754_finite false m e)).
Proof.
  destruct x as [s|s| |s mx ex]; try done; simpl; intros Hx Hy ->; try done.
  apply f64_plus_round; [lia|]. by apply (mul_core_ok false mx ex false m e).
Qed.

Lemma f64_plus_div m e y : f64_plus y → f64_plus (f64_div (S754_finite false m e) y).
Proof.
  destruct y as [s|s| |s my ey]; try done; simpl; intros ->; try done.
  unfold f64_div, SFdiv. pose proof (div_core_ok m e my ey) as Hc.
  destruct (SFdiv_core_binary _ _ _ _ _ _) as [[q e'] l]. destruct Hc. by apply f64_plus_round.
Qed.

Lemma f64_plus_to_i64 x : f64_plus x → 0 ≤ f64_to_i64 x < 2 ^ 63.
Proof.
  destruct x as [s|s| |s m e]; simpl; try lia; intros ->; [lia|].
  assert (0 ≤ Z.shiftl (Zpos m) e) by (by apply Z.shiftl_nonneg). lia.
Qed.

(** An integer of 64 bits as a float is finite. *)
Lemma f64_of_Z_u64 n :
  0 ≤ n < 2 ^ 64 → f64_finite (f64_of_Z n) ∧ 0 ≤ f64_num (f64_of_Z n) ≤ 2 ^ (64 + 1074).
Proof.
  intros Hn. destruct (pow2_float (64 + 1074)) as (M & E & HM & HE); [lia|].
  destruct (normalize_within n 0 false M E) as (Hf & Hb & Hp & _); [lia|done| |].
  - rewrite Z.abs_eq by lia.
    assert (Zpos M * 2 ^ (E + 1074) = 2 ^ 64 * 2 ^ 1074) as HE'.
    { rewrite <-Z.pow_add_r by lia. rewrite <-HE. cbn [f64_num]. lia. }
    assert (0 ≤ E + 1074) by (apply valid_finite_inv in HM; lia).
    replace (E + 2148) with (E + 1074 + 1074) by lia. rewrite (Z.pow_add_r 2 (E + 1074)) by lia.
    change (0 + 2148) with (1074 + 1074). rewrite (Z.pow_add_r 2 1074 1074) by lia.
    pose proof (pow2_pos 1074 ltac:(lia)). rewrite !Z.mul_assoc, HE'. nia.
  - unfold f64_of_Z. rewrite HE in Hb. split; [done|]. lia.
Qed.

(** Adding one to an integer of 63 bits: at least one. *)
Lemma f64_succ n :
  0 ≤ n < 2 ^ 63 →
  let x := f64_add (f64_of_Z n) (f64_of_Z 1) in
  f64_valid x ∧ f64_finite x ∧ 2 ^ 1074 ≤ f64_num x.
Proof.
  intros Hn x. destruct (f64_of_Z_u64 n ltac:(lia)) as [Fn Bn].
  destruct (f64_of_Z_exact 1 ltac:(lia)) as [F1 E1].
  pose proof (f64_of_Z_valid n) as Vn. pose proof (f64_of_Z_valid 1) as V1.
  pose proof (pow2_pos 1074 ltac:(lia)) as Hp.
  split; [by apply f64_add_valid|].
  destruct (pow2_float (65 + 1074)) as (M & E & HM & HE); [lia|].
  rewrite (Z.pow_add_r 2 64 1074), (Z.pow_add_r 2 65 1074) in * by lia.
  destruct (f64_add_within (f64_of_Z n) (f64_of_Z 1) M E) as (Hf & _);
    [done..|rewrite HE, E1; lia|]. split; [done|].
  destruct (pow2_float 1074) as (M1 & N1 & HM1 & HE1); [lia|].
  rewrite <-HE1. apply f64_add_ge; [done..|rewrite HE1, E1; lia|done].
Qed.

(** A product of small positive integers is a positive float. *)
Lemma f64_mul_ge mx ex my ey M E :
  f64_valid (S754_finite false mx ex) → f64_valid (S754_finite false my ey) →
  f64_valid (S754_finite false M E) →
  let x := S754_finite false mx ex in let y := S754_finite false my ey in
  f64_num (S754_finite false M E) * 2 ^ 1074 ≤ f64_num x * f64_num y →
  f64_finite (f64_mul x y) → f64_num (S754_finite false M E) ≤ f64_num (f64_mul x y).
Proof.
  intros Hx Hy HM x y Hle Hf. unfold x, y, f64_mul, SFmul in *. cbn [xorb] in *.
  pose proof (mul_core_ok false mx ex false my ey Hx Hy) as Hc.
  apply valid_finite_inv in Hx as (Hex & _), Hy as (Hey & _). pose proof (valid_finite_inv _ _ _ HM) as (HE & _).
  assert (Zpos M * 2 ^ (E + 1074) * 2 ^ 1074 ≤ Zpos mx * 2 ^ (ex + 1074) * (Zpos my * 2 ^ (ey + 1074))) as Hle'.
  { cbn [f64_num] in Hle. lia. }
  replace (f64_num (S754_finite false M E)) with (Zpos M * 2 ^ (E + 1074)) by (cbn [f64_num]; lia).
  apply round_ge; [lia|lia|done|done| |done]. rewrite Pos2Z.inj_mul.
  replace (ex + ey + 2148) with (ex + 1074 + (ey + 1074)) by lia.
  replace (E + 2148) with (E + 1074 + 1074) by lia.
  rewrite (Z.pow_add_r 2 (ex + 1074)), (Z.pow_add_r 2 (E + 1074)) by lia. lia.
Qed.

Lemma f64_mul_of_Z a b :
  0 < a < 2 ^ 26 → 0 < b < 2 ^ 26 →
  f64_finite (f64_mul (f64_of_Z a) (f64_of_Z b)) ∧ 0 < f64_num (f64_mul (f64_of_Z a) (f64_of_Z b)).
Proof.
  intros Ha Hb. destruct (f64_of_Z_exact a ltac:(lia)) as [Fa Ea], (f64_of_Z_exact b ltac:(lia)) as [Fb Eb].
  pose proof (f64_of_Z_valid a) as Va. pose proof (f64_of_Z_valid b) as Vb.
  pose proof (pow2_pos 1074 ltac:(lia)) as Hp.
  assert (f64_finite (f64_mul (f64_of_Z a) (f64_of_Z b))) as Hf.
  { destruct (pow2_float (52 + 1074)) as (M & E & HM & HE); [lia|].
    apply (f64_mul_within _ _ M E); [done..|]. rewrite HE, Ea, Eb, Z.pow_add_r by lia. nia. }
  split; [done|]. destruct (pow2_float 1074) as (M & E & HM & HE); [lia|].
  destruct (pos_float (f64_of_Z a)) as (ma & ea & Ea'); [done|done|nia|].
  destruct (pos_float (f64_of_Z b)) as (mb & eb & Eb'); [done|done|nia|].
  rewrite Ea', Eb' in *. pose proof (f64_mul_ge ma ea mb eb M E Va Vb HM) as Hge.
  cbv zeta in Hge. rewrite HE in Hge. rewrite Ea, Eb in Hge. specialize (Hge ltac:(nia) Hf). lia.
Qed.
