(* ===== verification/Text.v ===== *)
(** * Text (the formatting the program takes from the standard library)

    Decimal numerals, [{:.N}] of a double as the standard library renders it (the exact value,
    rounded half to even in the last place shown), and lines of [key=value] fields, with what
    it takes to read both back. *)

From Stdlib Require Import Ascii.
From stdpp Require Import pretty.
From S2P Require Import Prelude Float64.

(** ** Digits *)

Definition is_digit (c : ascii) : bool :=
  let n := Ascii.nat_of_ascii c in ((48 <=? n) && (n <=? 57))%nat.
Definition digit_value (c : ascii) : Z := Z.of_nat (Ascii.nat_of_ascii c) - 48.

(** The leading digits of [s] after the number [acc], how many there are, and the rest. *)
Fixpoint take_digits (acc : Z) (n : Z) (s : string) : Z * Z * string :=
  match s with
  | String c s' => if is_digit c then take_digits (acc * 10 + digit_value c) (n + 1) s' else (acc, n, s)
  | EmptyString => (acc, n, s)
  end.

Lemma string_app_assoc s t u : (s +:+ t) +:+ u = s +:+ (t +:+ u).
Proof. induction s as [|c s IH]; [done|]. exact (f_equal (String c) IH). Qed.
Lemma string_app_nil_r s : s +:+ "" = s.
Proof. induction s as [|c s IH]; [done|]. exact (f_equal (String c) IH). Qed.

Lemma pretty_N_char_digit (d : N) :
  (d < 10)%N → is_digit (pretty_N_char d) = true ∧ digit_value (pretty_N_char d) = Z.of_N d.
Proof.
  intros Hd. assert (d = 0 ∨ d = 1 ∨ d = 2 ∨ d = 3 ∨ d = 4 ∨ d = 5 ∨ d = 6 ∨ d = 7 ∨ d = 8 ∨ d = 9)%N
    as Hcases by lia. by destruct_or! Hcases; subst d.
Qed.

(** The digits of [x] are read back as [x], whatever follows. *)
Lemma take_digits_pretty_go x : ∀ n s, ∃ k, n ≤ k ∧ ((0 < x)%N → n < k) ∧
  take_digits 0 n (pretty_N_go x s) = take_digits (Z.of_N x) k s.
Proof.
  induction (N.lt_wf_0 x) as [x _ IH]. intros n s.
  destruct (decide (x = 0)%N) as [->|Hx]; [exists n; rewrite pretty_N_go_0; split_and!; [lia|lia|done]|].
  rewrite pretty_N_go_step by lia.
  destruct (IH (x / 10)%N ltac:(by apply N.div_lt; lia) n (String (pretty_N_char (x mod 10)) s)) as (k & Hk & _ & ->).
  exists (k + 1). split; [lia|]. split; [lia|]. simpl.
  destruct (pretty_N_char_digit (x mod 10)) as [-> ->]; [by apply N.mod_lt|]. f_equal.
  pose proof (N.div_mod' x 10). lia.
Qed.
Lemma take_digits_pretty_app (x : N) t :
  ∃ k, 0 < k ∧ take_digits 0 0 (pretty x +:+ t) = take_digits (Z.of_N x) k t.
Proof.
  unfold pretty, pretty_N. case_decide as Hx; [subst; exists 1; split; [lia|done]|].
  assert (∀ s, pretty_N_go x s +:+ t = pretty_N_go x (s +:+ t)) as Happ.
  { clear. induction (N.lt_wf_0 x) as [x _ IH]. intros s.
    destruct (decide (x = 0)%N) as [->|Hx]; [by rewrite !pretty_N_go_0|].
    rewrite (pretty_N_go_step x s), (pretty_N_go_step x (s +:+ t)) by lia.
    rewrite IH by (apply N.div_lt; lia). done. }
  rewrite Happ. destruct (take_digits_pretty_go x 0 ("" +:+ t)) as (k & _ & Hk & ->). exists k. split; [lia|done].
Qed.
Lemma take_digits_pretty (x : N) : ∃ k, 0 < k ∧ take_digits 0 0 (pretty x) = (Z.of_N x, k, EmptyString).
Proof.
  destruct (take_digits_pretty_app x "") as (k & Hk & E). exists k. split; [done|].
  by rewrite string_app_nil_r in E.
Qed.

(** ** Characters *)

Fixpoint all_chars (P : ascii → bool) (s : string) : bool :=
  match s with EmptyString => true | String c s' => P c && all_chars P s' end.

Lemma all_chars_app P s t : all_chars P (s +:+ t) = all_chars P s && all_chars P t.
Proof. induction s as [|c s IH]; simpl; [done|]. by rewrite IH, andb_assoc. Qed.

Lemma all_chars_impl (P Q : ascii → bool) s : (∀ c, P c = true → Q c = true) → all_chars P s = true → all_chars Q s = true.
Proof.
  intros HPQ. induction s as [|c s IH]; simpl; [done|]. rewrite !andb_true_iff. intros [? ?]. auto.
Qed.

(** The characters of numbers as the program prints them. *)
Definition numeral_char (c : ascii) : bool :=
  is_digit c || bool_decide (c ∈ ["-"; "."; "i"; "n"; "f"; "N"; "a"]%char).

Lemma pretty_N_numeral (x : N) : all_chars numeral_char (pretty x) = true.
Proof.
  unfold pretty, pretty_N. case_decide; [done|].
  assert (∀ s, all_chars numeral_char s = true → all_chars numeral_char (pretty_N_go x s) = true) as Hgo; [|by apply Hgo].
  induction (N.lt_wf_0 x) as [x _ IH]. intros s Hs.
  destruct (decide (x = 0)%N) as [->|Hx]; [by rewrite pretty_N_go_0|]. rewrite pretty_N_go_step by lia.
  destruct (decide (x / 10 = 0)%N) as [E|]; [rewrite E, pretty_N_go_0|apply IH; [by apply N.div_lt; lia|done|]]; simpl;
    rewrite Hs, andb_true_r; unfold numeral_char; by rewrite (proj1 (pretty_N_char_digit _ (N.mod_lt x 10 ltac:(done)))).
Qed.

Lemma pretty_Z_numeral (z : Z) : all_chars numeral_char (pretty z) = true.
Proof. destruct z as [|p|p]; [done|apply (pretty_N_numeral (Npos p))|]. apply (pretty_N_numeral (Npos p)). Qed.

(** ** [{:.N}] *)

Definition round_half_even (num den : Z) : Z :=
  let q := num / den in
  let r := num mod den in
  if 2 * r <? den then q else if den <? 2 * r then q + 1 else if Z.even q then q else q + 1.

(** The value in units of the last place shown. *)
Definition scaled (digits : nat) (m e : Z) : Z :=
  if 0 <=? e then m * 2 ^ e * 10 ^ digits else round_half_even (m * 10 ^ digits) (2 ^ (- e)).

Fixpoint zeros (n : nat) : string := match n with O => EmptyString | S n => String "0" (zeros n) end.
Definition pad (n : nat) (s : string) : string := zeros (n - String.length s) +:+ s.

Definition show_scaled (digits : nat) (k : Z) : string :=
  pretty (k / 10 ^ digits) +:+ "." +:+ pad digits (pretty (k mod 10 ^ digits)).
Definition show_sign (neg : bool) : string := if neg then "-" else "".

(** [format!("{:.digits}", x)], for a positive number of digits. *)
Definition fixed (digits : nat) (x : f64) : string :=
  match x with
  | S754_nan => "NaN"
  | S754_infinity s => show_sign s +:+ "inf"
  | S754_zero s => show_sign s +:+ show_scaled digits 0
  | S754_finite s m e => show_sign s +:+ show_scaled digits (scaled digits (Zpos m) e)
  end.

Lemma zeros_numeral n : all_chars numeral_char (zeros n) = true.
Proof. by induction n. Qed.

Lemma fixed_numeral digits x : all_chars numeral_char (fixed digits x) = true.
Proof.
  assert (∀ k, all_chars numeral_char (show_scaled digits k) = true) as Hs.
  { intros k. unfold show_scaled, pad. rewrite !all_chars_app, zeros_numeral.
    setoid_rewrite pretty_Z_numeral. done. }
  destruct x as [[]|[]| |[] m e]; unfold fixed; rewrite ?all_chars_app, ?Hs; done.
Qed.

(** ** Reading a number back *)

(** The number [fixed] shows, in units of its last place. *)
Definition read_fixed (digits : nat) (s : string) : option Z :=
  match take_digits 0 0 s with
  | (v, n, String c s') =>
      if negb (bool_decide (c = "."%char)) || (n =? 0) then None else
      match take_digits v 0 s' with
      | (v, n, EmptyString) => if n =? digits then Some v else None
      | _ => None
      end
  | _ => None
  end.

Lemma take_digits_zeros n : ∀ acc k s, take_digits acc k (zeros n +:+ s) = take_digits (acc * 10 ^ n) (k + n) s.
Proof.
  induction n as [|n IH]; intros acc k s.
  { rewrite Z.pow_0_r, Z.mul_1_r, Z.add_0_r. done. }
  change (zeros (S n) +:+ s) with (String "0" (zeros n +:+ s)). cbn [take_digits]. change (is_digit "0") with true.
  cbn beta iota. rewrite IH. change (digit_value "0") with 0. f_equal; [|lia].
  rewrite Nat2Z.inj_succ, Z.pow_succ_r by lia. lia.
Qed.

(** The digits of a number below [10^d] are at most [d], and are read after any prefix. *)
Lemma take_digits_pretty_below (d : nat) : ∀ x s, Z.of_N x < 10 ^ d → ∃ k : nat, (k ≤ d)%nat ∧
  (String.length (pretty_N_go x s) = k + String.length s)%nat ∧
  ∀ acc n, take_digits acc n (pretty_N_go x s) = take_digits (acc * 10 ^ k + Z.of_N x) (n + k) s.
Proof.
  induction d as [|d IH]; intros x s Hx.
  { assert (x = 0)%N as -> by (simpl in Hx; lia). exists O. rewrite pretty_N_go_0. split_and!; [lia|done|].
    intros. f_equal; simpl; lia. }
  destruct (decide (x = 0)%N) as [->|Hne].
  { exists O. rewrite pretty_N_go_0. split_and!; [lia|done|]. intros. f_equal; simpl; lia. }
  rewrite pretty_N_go_step by lia. rewrite Nat2Z.inj_succ, Z.pow_succ_r in Hx by lia.
  destruct (IH (x / 10)%N (String (pretty_N_char (x mod 10)) s)) as (k & Hk & Hl & Ht).
  { rewrite N2Z.inj_div. apply Z.div_lt_upper_bound; simpl; lia. }
  exists (S k). split_and!; [lia|rewrite Hl; simpl; lia|]. intros acc n. rewrite Ht. cbn [take_digits].
  destruct (pretty_N_char_digit (x mod 10)) as [-> ->]; [by apply N.mod_lt|]. f_equal; [|lia].
  rewrite Nat2Z.inj_succ, Z.pow_succ_r by lia. pose proof (N.div_mod' x 10). lia.
Qed.

Lemma take_digits_pad (d : nat) x acc : (0 < d)%nat → Z.of_N x < 10 ^ d →
  take_digits acc 0 (pad d (pretty x)) = (acc * 10 ^ d + Z.of_N x, Z.of_nat d, EmptyString).
Proof.
  intros Hd Hx. unfold pad, pretty, pretty_N. case_decide as E.
  - subst. rewrite take_digits_zeros. simpl. change (is_digit "0") with true. cbn beta iota.
    change (digit_value "0") with 0. f_equal; f_equal; [|lia].
    replace d with (S (d - 1)) at 2 by lia. rewrite Nat2Z.inj_succ, Z.pow_succ_r by lia. lia.
  - destruct (take_digits_pretty_below d x "" Hx) as (k & Hk & -> & Ht). rewrite take_digits_zeros, Ht. simpl.
    f_equal; f_equal; [|lia]. rewrite <-Z.mul_assoc, <-Z.pow_add_r by lia. do 3 f_equal. lia.
Qed.

Lemma read_show_scaled (d : nat) k : (0 < d)%nat → 0 ≤ k → read_fixed d (show_scaled d k) = Some k.
Proof.
  intros Hd Hk. pose proof (Z.pow_pos_nonneg 10 d ltac:(lia) ltac:(lia)) as Hp.
  unfold read_fixed, show_scaled. pose proof (Z.mod_pos_bound k (10 ^ d) Hp) as Hm. pose proof (Z.div_pos k (10 ^ d) Hk Hp).
  assert (∀ z, 0 ≤ z → pretty z = pretty (Z.to_N z)) as Hpretty by (by intros [] ?; [done|done|lia]).
  rewrite !Hpretty by lia. destruct (take_digits_pretty_app (Z.to_N (k / 10 ^ d)) ("." +:+ pad d (pretty (Z.to_N (k mod 10 ^ d)))))
    as (n & Hn & ->). rewrite Z2N.id by lia. change ("." +:+ ?t) with (String "." t). cbn [take_digits]. change (is_digit ".") with false.
  cbn beta iota. rewrite bool_decide_eq_true_2, (proj2 (Z.eqb_neq n 0)) by (done || lia). cbn [negb orb].
  rewrite take_digits_pad by (rewrite ?Z2N.id; lia). rewrite Z.eqb_refl, Z2N.id by lia. f_equal.
  pose proof (Z.div_mod k (10 ^ d)). lia.
Qed.

Lemma round_half_even_near num den : 0 < den → 2 * Z.abs (round_half_even num den * den - num) ≤ den.
Proof.
  intros Hd. unfold round_half_even. pose proof (Z.div_mod num den ltac:(lia)). pose proof (Z.mod_pos_bound num den Hd).
  destruct (Z.ltb_spec (2 * (num mod den)) den); [nia|]. destruct (Z.ltb_spec den (2 * (num mod den))); [nia|].
  destruct (Z.even _); nia.
Qed.

(** What is shown is the value to half a unit of the last place. *)
Lemma fixed_near (d : nat) x : (0 < d)%nat → f64_valid x → f64_finite x → f64_plus x →
  ∃ k, read_fixed d (fixed d x) = Some k ∧ 2 * Z.abs (k * 2 ^ 1074 - f64_num x * 10 ^ d) ≤ 2 ^ 1074.
Proof.
  intros Hd Hv Hf Hp. pose proof (Z.pow_pos_nonneg 10 d ltac:(lia) ltac:(lia)) as Hp10.
  assert (0 < 2 ^ 1074) as H2 by (apply pow2_pos; lia).
  destruct x as [b| | |b m e]; try done; simpl in Hp; subst b; unfold fixed, show_sign, f64_num; cbn [String.append].
  { exists 0. split; [by apply read_show_scaled|]. set (D := 2 ^ 1074) in *. lia. }
  destruct (valid_finite_inv _ _ _ Hv) as (He & _). rewrite Z.mul_1_l. unfold scaled.
  destruct (Z.leb_spec 0 e) as [He0|He0].
  - exists (Zpos m * 2 ^ e * 10 ^ d). pose proof (pow2_pos e He0).
    split; [apply read_show_scaled; [done|repeat apply Z.mul_nonneg_nonneg; lia]|].
    rewrite Z.pow_add_r by lia. set (D := 2 ^ 1074) in *.
    replace (_ - _) with 0 by ring. lia.
  - set (k := round_half_even _ _). pose proof (round_half_even_near (Zpos m * 10 ^ d) (2 ^ (- e)) (pow2_pos (- e) ltac:(lia))) as Hn.
    fold k in Hn. exists k. pose proof (pow2_pos (- e) ltac:(lia)). pose proof (pow2_pos (e + 1074) ltac:(lia)).
    split; [apply read_show_scaled; [done|]|].
    + unfold k, round_half_even. pose proof (Z.div_pos (Zpos m * 10 ^ d) (2 ^ (- e)) ltac:(lia) ltac:(lia)).
      repeat case_match; lia.
    + replace 1074 with (- e + (e + 1074)) at 1 3 by lia. rewrite Z.pow_add_r by lia.
      replace (_ - _) with ((k * 2 ^ (- e) - Zpos m * 10 ^ d) * 2 ^ (e + 1074)) by ring.
      rewrite Z.abs_mul, (Z.abs_eq (2 ^ (e + 1074))), Z.mul_assoc by lia. apply Z.mul_le_mono_nonneg_r; lia.
Qed.

(** ** Lines of [key=value] fields *)

(** The text up to the first [c] and, if there is one, the text after it. *)
Fixpoint split_first (c : ascii) (s : string) : string * option string :=
  match s with
  | EmptyString => (EmptyString, None)
  | String d s' =>
      if bool_decide (d = c) then (EmptyString, Some s') else
      let '(w, rest) := split_first c s' in (String d w, rest)
  end.

(** The words between spaces; a word has a character and the space after it, so the length
    bounds their number. *)
Fixpoint split_words (fuel : nat) (s : string) : option (list string) :=
  match split_first " " s with
  | (w, None) => Some [w]
  | (w, Some rest) => match fuel with O => None | S fuel' => cons w <$> split_words fuel' rest end
  end.

Definition parse_field (w : string) : option (string * string) :=
  match split_first "=" w with (k, Some v) => Some (k, v) | (_, None) => None end.

Definition parse_line (s : string) : option (list (string * string)) :=
  ws ← split_words (String.length s) s; mapM parse_field ws.

Definition show_field (f : string * string) : string := f.1 +:+ "=" +:+ f.2.
Fixpoint show_fields (fs : list (string * string)) : string :=
  match fs with
  | [] => EmptyString
  | [f] => show_field f
  | f :: fs => show_field f +:+ " " +:+ show_fields fs
  end.

(** A word without [c]. *)
Definition free_of (c : ascii) : string → bool := all_chars (λ d, negb (bool_decide (d = c))).

Lemma split_first_app c w t : free_of c w = true → split_first c (w +:+ String c t) = (w, Some t).
Proof.
  induction w as [|d w IH]; intros Hw; simpl.
  { by rewrite bool_decide_eq_true_2. }
  unfold free_of in *. simpl in Hw. apply andb_true_iff in Hw as [Hd Hw]. case_bool_decide; [done|].
  change (split_first c ((w +:+ String c t)%string)) with (split_first c (w +:+ String c t)). by rewrite (IH Hw).
Qed.
Lemma split_first_none c w : free_of c w = true → split_first c w = (w, None).
Proof.
  induction w as [|d w IH]; intros Hw; simpl; [done|]. unfold free_of in *. simpl in Hw.
  apply andb_true_iff in Hw as [Hd Hw]. case_bool_decide; [done|]. by rewrite (IH Hw).
Qed.

(** A field whose key has neither a space nor an equals sign, and whose value has no space. *)
Definition field_ok (f : string * string) : bool := free_of " " f.1 && free_of "=" f.1 && free_of " " f.2.

Lemma free_of_field f : field_ok f = true → free_of " " (show_field f) = true.
Proof.
  unfold field_ok. rewrite !andb_true_iff. intros [[Hk _] Hv]. unfold show_field, free_of in *.
  by rewrite !all_chars_app, Hk, Hv.
Qed.

Lemma length_string_app s t : String.length (s +:+ t) = (String.length s + String.length t)%nat.
Proof. induction s as [|c s IH]; [done|]. exact (f_equal S IH). Qed.

Lemma split_show_fields fs : forallb field_ok fs = true → fs ≠ [] → ∀ fuel,
  (String.length (show_fields fs) ≤ fuel)%nat → split_words fuel (show_fields fs) = Some (show_field <$> fs).
Proof.
  induction fs as [|f [|f' fs] IH]; intros Hok Hne fuel Hf; [done|..].
  - simpl in Hok. rewrite andb_true_r in Hok. cbn [show_fields]. destruct fuel; cbn [split_words];
      by rewrite split_first_none by (by apply free_of_field).
  - change (show_fields (f :: f' :: fs)) with (show_field f +:+ String " " (show_fields (f' :: fs))) in *.
    cbn [forallb] in Hok. apply andb_true_iff in Hok as [Hf1 Hok]. rewrite length_string_app in Hf. simpl String.length in Hf.
    destruct fuel as [|fuel]; [lia|]. cbn [split_words]. rewrite split_first_app by (by apply free_of_field).
    rewrite IH by (done || (cbn [show_fields] in *; lia)). done.
Qed.

Lemma parse_show_fields fs :
  fs ≠ [] → forallb field_ok fs = true → parse_line (show_fields fs) = Some fs.
Proof.
  intros Hne Hok. unfold parse_line. rewrite split_show_fields by done. simpl. clear Hne.
  induction fs as [|[k v] fs IH]; [done|]. cbn [forallb] in Hok. apply andb_true_iff in Hok as [Hf Hok].
  assert (parse_field (show_field (k, v)) = Some (k, v)) as E.
  { unfold parse_field, show_field. cbn [fst snd]. change ("=" +:+ v) with (String "=" v).
    unfold field_ok in Hf. rewrite !andb_true_iff in Hf. by rewrite split_first_app by apply Hf. }
  cbn [fmap list_fmap mapM]. rewrite E. cbn [mbind option_bind]. by rewrite IH.
Qed.

(** Values the program prints. *)
Lemma numeral_free c s : numeral_char c = false → all_chars numeral_char s = true → free_of c s = true.
Proof.
  intros Hc. apply all_chars_impl. intros d Hd. apply negb_true_iff, bool_decide_eq_false_2. intros ->. congruence.
Qed.
Lemma pretty_free (z : Z) : free_of " " (pretty z) = true.
Proof. apply numeral_free; [done|apply pretty_Z_numeral]. Qed.
Lemma fixed_free d x : free_of " " (fixed d x) = true.
Proof. apply numeral_free; [done|apply fixed_numeral]. Qed.
