(* ===== verification/Rate.v ===== *)
(** * RTT estimation and rate control (src/rate.rs)

    The Jacobson-style estimator and the injection-rate controller, on binary64.
    [clamp] panics on an empty range, so operations that clamp return an
    [outcome]. *)

From S2P Require Import Prelude Float64.

Definition RTT_GAIN : f64 := f64_ratio 1 8.
Definition RTT_ATTEN_K : f64 := f64_of_Z 4.
Definition RTT_RTO_K : f64 := f64_of_Z 4.
Definition RTT_PREC_US : f64 := f64_of_Z 1000.
Definition DEF_MIN_RTO_US : f64 := f64_of_Z 2000.
Definition DEF_MAX_RTO_US : f64 := f64_of_Z 4000000.

(** ** RTT estimator *)

Record RttEstimator := mkRttEstimator {
  re_srtt : f64;
  re_vrtt : f64;
  re_min_rtt : f64;
  re_have_any : bool;
  re_min_rto : f64;
  re_max_rto : f64
}.

(** [RttEstimator::new]. *)
Definition rtt_new : RttEstimator :=
  mkRttEstimator f64_zero f64_zero f64_zero false DEF_MIN_RTO_US DEF_MAX_RTO_US.

(** [RttEstimator::rto]. *)
Definition rto (e : RttEstimator) : outcome f64 :=
  f64_clamp (f64_add (re_srtt e) (f64_mul RTT_RTO_K (re_vrtt e))) (re_min_rto e) (re_max_rto e).

(** [RttEstimator::sample]: the updated estimator and its RTO. *)
Definition sample (e : RttEstimator) (rtt : f64) : outcome (RttEstimator * f64) :=
  let rtt := if f64_lt rtt f64_zero then f64_zero else rtt in
  let e' :=
    if negb (re_have_any e) then
      mkRttEstimator rtt (f64_div rtt (f64_of_Z 2)) rtt true (re_min_rto e) (re_max_rto e)
    else
      let err := f64_sub rtt (re_srtt e) in
      let srtt := f64_add (re_srtt e) (f64_mul RTT_GAIN err) in
      let vrtt := f64_add (re_vrtt e)
                    (f64_div (f64_sub (f64_abs err) (re_vrtt e)) RTT_ATTEN_K) in
      let min_rtt := if f64_lt rtt (re_min_rtt e) then rtt else re_min_rtt e in
      mkRttEstimator srtt vrtt min_rtt (re_have_any e) (re_min_rto e) (re_max_rto e) in
  r ← rto e';
  Done (e', r).

(** [RttEstimator::seed]. *)
Definition seed (e : RttEstimator) (srtt_us min_rtt_us : Z) : RttEstimator :=
  if srtt_us =? 0 then e else
  mkRttEstimator (f64_of_Z srtt_us)
    (f64_max (f64_div (f64_of_Z srtt_us) (f64_of_Z 4)) (f64_of_Z 1))
    (if min_rtt_us =? 0 then f64_of_Z srtt_us else f64_of_Z (Z.min min_rtt_us srtt_us))
    true (re_min_rto e) (re_max_rto e).

(** ** Rate controller *)

Inductive RateMode := Fixed | Adaptive.

Global Instance RateMode_eq_dec : EqDecision RateMode.
Proof. solve_decision. Defined.

Record RateConfig := mkRateConfig {
  rc_mode : RateMode;
  rc_target_bps : Z;
  rc_min_bps : Z;
  rc_max_bps : Z;
  rc_alpha : f64
}.

Record RateWarmStart := mkRateWarmStart {
  rw_rate_bps : Z;
  rw_srtt_net_us : Z;
  rw_base_rtt_us : Z
}.

Definition warm_default : RateWarmStart := mkRateWarmStart 0 0 0.

(** [RateWarmStart::is_empty]. *)
Definition warm_is_empty (w : RateWarmStart) : bool :=
  (rw_rate_bps w =? 0) && (rw_srtt_net_us w =? 0) && (rw_base_rtt_us w =? 0).

Record RateController := mkRateController {
  rctl_cfg : RateConfig;
  rctl_rate : f64
}.

(** The defaults [RateController::new] fills in. *)
Definition rate_cfg_defaults (cfg : RateConfig) : RateConfig :=
  mkRateConfig (rc_mode cfg) (rc_target_bps cfg)
    (if rc_min_bps cfg =? 0 then 64 * 1000 else rc_min_bps cfg)
    (if rc_max_bps cfg =? 0 then 10000000000 else rc_max_bps cfg)
    (if f64_eq (rc_alpha cfg) f64_zero then f64_of_Z 30000000 else rc_alpha cfg).

(** [RateController::new]. *)
Definition rate_new (cfg0 : RateConfig) : RateController :=
  let cfg := rate_cfg_defaults cfg0 in
  let start := f64_of_Z (rc_target_bps cfg) in
  let start :=
    match rc_mode cfg with
    | Adaptive =>
        let start := if f64_eq start f64_zero || f64_gt start (f64_of_Z (rc_max_bps cfg))
                     then f64_of_Z (rc_max_bps cfg) else start in
        let start := f64_mul start (f64_ratio 1 20) in
        if f64_lt start (f64_of_Z (rc_min_bps cfg)) then f64_of_Z (rc_min_bps cfg) else start
    | Fixed => start
    end in
  mkRateController cfg start.

(** [RateController::update]: the controller and the target in bits per second. *)
Definition rate_update (c : RateController) (srtt_net_us base_us : f64)
    : outcome (RateController * Z) :=
  let cfg := rctl_cfg c in
  match rc_mode cfg with
  | Fixed =>
      let rate := f64_of_Z (rc_target_bps cfg) in
      Done (mkRateController cfg rate, f64_to_u64 rate)
  | Adaptive =>
      if f64_le srtt_net_us f64_zero then Done (c, f64_to_u64 (rctl_rate c)) else
      base_avg ←
        (if negb (f64_lt base_us (f64_of_Z 5000) && f64_lt srtt_net_us (f64_of_Z 20000))
         then f64_clamp (f64_div base_us srtt_net_us) f64_zero (f64_of_Z 1)
         else Done (f64_of_Z 1));
      let rate := f64_mul (f64_ratio 1 2)
                    (f64_add (f64_add (f64_mul (rctl_rate c) base_avg) (rctl_rate c))
                       (rc_alpha cfg)) in
      rate ← f64_clamp rate (f64_of_Z (rc_min_bps cfg)) (f64_of_Z (rc_max_bps cfg));
      Done (mkRateController cfg rate, f64_to_u64 rate)
  end.

(** [RateController::set_rate]. *)
Definition set_rate (c : RateController) (rate_bps : Z) : outcome RateController :=
  if rate_bps =? 0 then Done c else
  rate ← f64_clamp (f64_of_Z rate_bps) (f64_of_Z (rc_min_bps (rctl_cfg c)))
           (f64_of_Z (rc_max_bps (rctl_cfg c)));
  Done (mkRateController (rctl_cfg c) rate).

(** ** Invariant of the controller

    In fixed mode the configured target is the rate; in adaptive mode the rate
    stays inside the configured range.  The range is required to be non-empty and
    below [2^53], where every integer is a double. *)

Definition cfg_ok (cfg : RateConfig) : Prop :=
  0 < rc_min_bps cfg ≤ rc_max_bps cfg ∧ rc_max_bps cfg < 2 ^ 53 ∧
  f64_valid (rc_alpha cfg) ∧ f64_finite (rc_alpha cfg) ∧ f64_nonneg (rc_alpha cfg).

Definition ctl_ok (c : RateController) : Prop :=
  rc_mode (rctl_cfg c) = Adaptive ∧ cfg_ok (rctl_cfg c) ∧
  f64_valid (rctl_rate c) ∧ f64_finite (rctl_rate c) ∧
  rc_min_bps (rctl_cfg c) * 2 ^ 1074 ≤ f64_num (rctl_rate c) ≤ rc_max_bps (rctl_cfg c) * 2 ^ 1074.

(** A clamp to a non-empty integer range lands in the range. *)
Lemma clamp_range x lo hi :
  f64_valid x → x ≠ S754_nan → 0 ≤ lo ≤ hi → hi < 2 ^ 53 →
  ∃ y, f64_clamp x (f64_of_Z lo) (f64_of_Z hi) = Done y ∧ f64_valid y ∧ f64_finite y ∧
       lo * 2 ^ 1074 ≤ f64_num y ≤ hi * 2 ^ 1074.
Proof.
  intros Hv Hn Hlo Hhi.
  destruct (f64_of_Z_exact lo ltac:(lia)) as [Fl El], (f64_of_Z_exact hi ltac:(lia)) as [Fh Eh].
  destruct (f64_clamp_spec x (f64_of_Z lo) (f64_of_Z hi)) as (y & E & Hy);
    [done|apply f64_of_Z_valid|apply f64_of_Z_valid|done|done|rewrite El, Eh; nia|done|].
  exists y. rewrite El, Eh in Hy. naive_solver.
Qed.

Lemma num_nonneg x : f64_valid x → f64_finite x → 0 ≤ f64_num x → f64_nonneg x.
Proof.
  destruct x as [| | |[] m e]; try done. intros (?&?&?)%valid_finite_inv _ Hn.
  pose proof (pow2_pos (e + 1074) ltac:(lia)). simpl in Hn. nia.
Qed.

(** The integer rate of a double in an integer range. *)
Lemma to_u64_range x lo hi :
  f64_valid x → f64_finite x → 0 ≤ lo → hi < 2 ^ 53 →
  lo * 2 ^ 1074 ≤ f64_num x ≤ hi * 2 ^ 1074 → lo ≤ f64_to_u64 x ≤ hi.
Proof.
  intros Hv Hf Hlo Hhi [H1 H2]. unfold f64_to_u64. rewrite f64_to_uint_num by (done || lia).
  assert (lo ≤ f64_num x / 2 ^ 1074 ≤ hi); [|lia].
  pose proof (pow2_pos 1074 ltac:(lia)).
  split; [by apply Z.div_le_lower_bound; [|rewrite Z.mul_comm]|].
  apply Z.div_le_upper_bound; [done|]. by rewrite Z.mul_comm.
Qed.

Lemma not_le_zero x : x ≠ S754_nan → f64_le x f64_zero = false → f64_lt f64_zero x = true.
Proof. by destruct x as [|[]| |[]]. Qed.

(** The averaging factor [BaseAvg] is a number between 0 and 1. *)
Lemma base_avg_range base srtt :
  f64_valid base → f64_finite base → f64_nonneg base →
  f64_valid srtt → srtt ≠ S754_nan → f64_le srtt f64_zero = false →
  ∃ b, (if negb (f64_lt base (f64_of_Z 5000) && f64_lt srtt (f64_of_Z 20000))
        then f64_clamp (f64_div base srtt) f64_zero (f64_of_Z 1)
        else Done (f64_of_Z 1)) = Done b ∧
       f64_valid b ∧ f64_finite b ∧ f64_nonneg b.
Proof.
  intros Hb Fb Nb Hs Ns Hpos. destruct (negb _).
  - destruct (clamp_range (f64_div base srtt) 0 1) as (y & E & Hv & Hf & Hr);
      [by apply f64_div_valid| |lia|lia|].
    { apply f64_nonneg_not_nan, f64_div_nonneg; [done|done|]. by apply not_le_zero. }
    exists y. split_and!; [exact E|done|done|]. apply num_nonneg; [done|done|lia].
  - exists (f64_of_Z 1). split_and!; done.
Qed.

(** The unclamped Equation 2 value is a number, whatever the factor. *)
Lemma eq2_not_nan rate b alpha :
  f64_valid rate → f64_finite rate → f64_nonneg rate →
  f64_valid b → f64_finite b → f64_nonneg b →
  f64_valid alpha → f64_nonneg alpha →
  let r := f64_mul (f64_ratio 1 2) (f64_add (f64_add (f64_mul rate b) rate) alpha) in
  f64_valid r ∧ r ≠ S754_nan.
Proof.
  intros. assert (f64_valid (f64_mul rate b)) by auto with f64.
  assert (f64_nonneg (f64_mul rate b)) by (apply f64_mul_nonneg; auto).
  split; [apply f64_mul_valid; auto with f64; done|].
  apply f64_nonneg_not_nan, f64_mul_nonneg; auto with f64; done.
Qed.

Lemma ctl_rate_nonneg c : ctl_ok c → f64_nonneg (rctl_rate c).
Proof.
  intros (_ & (Hr & _) & Hv & Hf & Hlo & _). apply num_nonneg; [done|done|].
  pose proof (pow2_pos 1074 ltac:(lia)). nia.
Qed.

(** [update] in adaptive mode. *)
Lemma rate_update_spec c srtt base :
  ctl_ok c →
  f64_valid srtt → srtt ≠ S754_nan →
  f64_valid base → f64_finite base → f64_nonneg base →
  ∃ c' bps, rate_update c srtt base = Done (c', bps) ∧ ctl_ok c' ∧
            rctl_cfg c' = rctl_cfg c ∧
            rc_min_bps (rctl_cfg c) ≤ bps ≤ rc_max_bps (rctl_cfg c).
Proof.
  intros Hok Hs Ns Hb Fb Nb. pose proof (ctl_rate_nonneg c Hok) as Hnn.
  pose proof Hok as (Hm & (Hr & Hmax & Ha & Fa & Na) & Hv & Hf & Hrate).
  unfold rate_update. rewrite Hm. destruct (f64_le srtt f64_zero) eqn:Hpos.
  - exists c, (f64_to_u64 (rctl_rate c)). split; [done|]. split; [done|]. split; [done|].
    apply to_u64_range; [done|done|lia|lia|done].
  - destruct (base_avg_range base srtt) as (b & -> & Hbv & Hbf & Hbn); [done..|].
    cbn [mbind outcome_bind].
    destruct (eq2_not_nan (rctl_rate c) b (rc_alpha (rctl_cfg c))) as [Ev En]; [done..|].
    destruct (clamp_range _ (rc_min_bps (rctl_cfg c)) (rc_max_bps (rctl_cfg c)) Ev En)
      as (y & -> & Hyv & Hyf & Hyr); [lia|lia|].
    eexists _, _. split; [reflexivity|].
    split; [exact (conj Hm (conj (proj1 (proj2 Hok)) (conj Hyv (conj Hyf Hyr))))|]. split; [done|].
    apply to_u64_range; [done|done|lia|lia|done].
Qed.

(** C32: adaptive control never panics and never leaves the configured range: from a
    controller whose range is non-empty, every update with a number for the
    smoothed RTT and a finite non-negative base RTT returns a target between
    [min_bps] and [max_bps], and the invariant holds again. *)
Theorem rate_update_adaptive c srtt base :
  ctl_ok c →
  f64_valid srtt → srtt ≠ S754_nan →
  f64_valid base → f64_finite base → f64_nonneg base →
  ∃ c' bps, rate_update c srtt base = Done (c', bps) ∧ ctl_ok c' ∧
            rctl_cfg c' = rctl_cfg c ∧
            rc_min_bps (rctl_cfg c) ≤ bps ≤ rc_max_bps (rctl_cfg c).
Proof. apply rate_update_spec. Qed.

(** The start rate: the twentieth part of a value in [[0, max]] is in [[0, max]]. *)
Lemma start_twentieth x hi :
  f64_valid x → f64_finite x → f64_nonneg x → 0 < hi < 2 ^ 53 →
  f64_num x ≤ hi * 2 ^ 1074 →
  let y := f64_mul x (f64_ratio 1 20) in
  f64_valid y ∧ f64_finite y ∧ f64_num y ≤ hi * 2 ^ 1074.
Proof.
  intros Hv Hf Hn Hhi Hle y. unfold y.
  assert (f64_valid (f64_ratio 1 20)) as Hv20 by done.
  destruct (f64_of_Z_exact hi ltac:(lia)) as [Fh Eh]. pose proof (pow2_pos 1074 ltac:(lia)) as Hp.
  destruct (pos_float (f64_of_Z hi)) as (M & E & EM); [auto with f64|done|rewrite Eh; nia|].
  pose proof (f64_of_Z_valid hi) as Vh. rewrite EM in Vh, Eh. rewrite <-Eh in Hle |- *.
  destruct (f64_mul_within x (f64_ratio 1 20) M E) as (H1 & H2 & _); [done..| |].
  - pose proof (f64_nonneg_num x Hn Hv).
    assert (0 ≤ f64_num (f64_ratio 1 20) ≤ 2 ^ 1074) by (vm_compute; done). nia.
  - split_and!; [by apply f64_mul_valid|done|lia].
Qed.

Lemma rate_new_start t hi :
  0 ≤ t → 0 < hi < 2 ^ 53 →
  let s := f64_of_Z t in
  let s := if f64_eq s f64_zero || f64_gt s (f64_of_Z hi) then f64_of_Z hi else s in
  f64_valid s ∧ f64_finite s ∧ f64_nonneg s ∧ f64_num s ≤ hi * 2 ^ 1074.
Proof.
  intros Ht Hhi. cbv zeta. destruct (f64_of_Z_exact hi ltac:(lia)) as [Fh Eh].
  destruct (f64_eq _ _ || _) eqn:Hc.
  { rewrite <-Eh. split_and!; auto with f64 lia. }
  apply orb_false_iff in Hc as [_ Hgt]. unfold f64_gt in Hgt.
  pose proof (f64_of_Z_valid t) as Vt. pose proof (f64_of_Z_nonneg t Ht) as Nt.
  assert (f64_finite (f64_of_Z t)) as Ft.
  { destruct (f64_of_Z t) as [|[]| |]; try done. by destruct (f64_of_Z hi) as [|[]| |]. }
  split_and!; [done..|]. rewrite <-Eh.
  rewrite f64_lt_num, Z.ltb_ge in Hgt by auto with f64. done.
Qed.

(** [new] in adaptive mode. *)
Lemma rate_new_spec cfg :
  rc_mode cfg = Adaptive → 0 ≤ rc_target_bps cfg → cfg_ok (rate_cfg_defaults cfg) →
  ctl_ok (rate_new cfg).
Proof.
  intros Hm Ht Hok. pose proof Hok as (Hr & Hmax & _).
  unfold rate_new. cbv zeta. set (d := rate_cfg_defaults cfg) in *.
  assert (rc_mode d = Adaptive) as Hd by done. rewrite Hd.
  destruct (rate_new_start (rc_target_bps d) (rc_max_bps d)) as (Hv & Hf & Hn & Hle);
    [done|lia|].
  set (s := if _ || _ then _ else _) in *.
  destruct (start_twentieth s (rc_max_bps d)) as (Yv & Yf & Yle); [done..|lia|done|].
  destruct (f64_of_Z_exact (rc_min_bps d) ltac:(lia)) as [Fl El].
  split; [done|]. split; [done|]. cbn [rctl_rate rctl_cfg].
  destruct (f64_lt _ (f64_of_Z (rc_min_bps d))) eqn:Hlt.
  - rewrite El. split_and!; auto with f64; [lia|]. nia.
  - rewrite f64_lt_num, Z.ltb_ge, El in Hlt by auto with f64. done.
Qed.

(** Result: a controller built for adaptive mode satisfies the invariant whenever the
    range left after the defaults is non-empty; in particular its start rate,
    a twentieth of the target, is clipped into the range from below and cannot
    exceed it. *)
Theorem rate_new_adaptive cfg :
  rc_mode cfg = Adaptive → 0 ≤ rc_target_bps cfg → cfg_ok (rate_cfg_defaults cfg) →
  ctl_ok (rate_new cfg).
Proof. apply rate_new_spec. Qed.

(** [set_rate] (warm start) keeps the invariant. *)
Theorem set_rate_ok c bps :
  ctl_ok c → 0 ≤ bps → ∃ c', set_rate c bps = Done c' ∧ ctl_ok c' ∧ rctl_cfg c' = rctl_cfg c.
Proof.
  intros Hok Hb. unfold set_rate. destruct (bps =? 0); [by exists c|].
  pose proof Hok as (Hm & Hcfg & _). pose proof Hcfg as (Hr & Hmax & _).
  destruct (clamp_range (f64_of_Z bps) (rc_min_bps (rctl_cfg c)) (rc_max_bps (rctl_cfg c)))
    as (y & -> & Hy); [auto with f64|by apply f64_nonneg_not_nan, f64_of_Z_nonneg|lia|lia|].
  eexists. split; [reflexivity|]. split; [|done]. done.
Qed.

(** Result: fixed mode is exact: the rate is the configured target, from the first
    update on, whatever the measured round trips are. *)
Theorem rate_update_fixed c srtt base :
  rc_mode (rctl_cfg c) = Fixed → 0 ≤ rc_target_bps (rctl_cfg c) < 2 ^ 53 →
  ∃ c', rate_update c srtt base = Done (c', rc_target_bps (rctl_cfg c)) ∧
        rctl_cfg c' = rctl_cfg c.
Proof.
  intros Hm Ht. unfold rate_update. rewrite Hm. unfold f64_to_u64.
  rewrite f64_to_uint_of_Z by lia. eexists. split; [reflexivity|done].
Qed.

(** Result: an empty range stops the process: when the ceiling is below the floor, the
    first adaptive update with a positive smoothed RTT panics in [clamp], and so
    does a warm-start rate.  [RateController::new] creates such a range for every
    configured ceiling below its 64 kbit/s floor. *)
Theorem rate_empty_range_panics c srtt base bps :
  rc_mode (rctl_cfg c) = Adaptive →
  0 ≤ rc_max_bps (rctl_cfg c) < rc_min_bps (rctl_cfg c) → rc_min_bps (rctl_cfg c) < 2 ^ 53 →
  f64_valid srtt → srtt ≠ S754_nan → f64_le srtt f64_zero = false →
  f64_valid base → f64_finite base → f64_nonneg base → bps ≠ 0 →
  rate_update c srtt base = Panic ∧ set_rate c bps = Panic.
Proof.
  intros Hm Hr Hlo Hs Ns Hpos Hb Fb Nb Hbps.
  assert (∀ x, f64_clamp x (f64_of_Z (rc_min_bps (rctl_cfg c)))
                 (f64_of_Z (rc_max_bps (rctl_cfg c))) = Panic) as Hc.
  { intros x. apply f64_clamp_empty. rewrite f64_le_of_Z by lia. apply Z.leb_gt. lia. }
  unfold rate_update, set_rate. rewrite Hm, Hpos, (proj2 (Z.eqb_neq _ _) Hbps).
  destruct (base_avg_range base srtt) as (b & -> & _); [done..|].
  cbn [mbind outcome_bind]. by rewrite !Hc.
Qed.

(** ** Invariant of the estimator

    All three statistics are numbers between zero and [B] microseconds, a bound on
    every sample fed so far, and the RTO range is the default one. *)

Definition num_within (B : Z) (x : f64) : Prop :=
  f64_valid x ∧ f64_finite x ∧ 0 ≤ f64_num x ≤ B * 2 ^ 1074.

Definition est_ok (B : Z) (e : RttEstimator) : Prop :=
  num_within B (re_srtt e) ∧ num_within B (re_vrtt e) ∧ num_within B (re_min_rtt e) ∧
  re_min_rto e = DEF_MIN_RTO_US ∧ re_max_rto e = DEF_MAX_RTO_US.

(** A negative sample counts as zero. *)
Definition clip (rtt : f64) : f64 := if f64_lt rtt f64_zero then f64_zero else rtt.

Lemma clip_num rtt : f64_valid rtt → f64_finite rtt → f64_num (clip rtt) = Z.max 0 (f64_num rtt).
Proof.
  intros Hv Hf. unfold clip. rewrite f64_lt_num by done. simpl (f64_num f64_zero).
  destruct (Z.ltb_spec (f64_num rtt) 0); simpl; lia.
Qed.

Lemma clip_within B rtt :
  0 ≤ B → f64_valid rtt → f64_finite rtt → f64_num rtt ≤ B * 2 ^ 1074 → num_within B (clip rtt).
Proof.
  intros HB Hv Hf Hle. pose proof (pow2_pos 1074 ltac:(lia)) as Hp.
  split; [unfold clip; by destruct (f64_lt _ _)|].
  split; [unfold clip; by destruct (f64_lt _ _)|]. rewrite clip_num by done. nia.
Qed.

Lemma gain_damping : damping (f64_mul RTT_GAIN).
Proof. apply mul_damping; vm_compute; done. Qed.

Lemma atten_damping : damping (λ d, f64_div d RTT_ATTEN_K).
Proof. apply div_damping; vm_compute; done. Qed.

Lemma sub_abs_within B x y :
  0 ≤ B < 2 ^ 53 → num_within B x → num_within B y → num_within B (f64_abs (f64_sub x y)).
Proof.
  intros HB (Vx & Fx & Rx) (Vy & Fy & Ry). pose proof (pow2_pos 1074 ltac:(lia)) as Hp.
  assert (f64_valid (f64_sub x y)) as Vd by (by apply f64_sub_valid).
  assert (∀ z, f64_finite z → f64_finite (f64_abs z) ∧ f64_num (f64_abs z) = Z.abs (f64_num z)) as Ha.
  { intros [| | |s m e]; try done. simpl. pose proof (Z.pow_nonneg 2 (e + 1074) ltac:(lia)).
    intros _. split; [done|]. destruct s; nia. }
  destruct (decide (B = 0)) as [->|HB0].
  - destruct (f64_sub_within x y 1 (-1074)) as (Fd & _ & S1 & S2); [done..|simpl; lia|].
    destruct (Ha _ Fd) as [? En]. split_and!; [by apply f64_abs_valid|done|lia|lia].
  - destruct (f64_of_Z_exact B ltac:(lia)) as [Fb Eb].
    destruct (pos_float (f64_of_Z B)) as (M & E & EM); [auto with f64|done|rewrite Eb; nia|].
    pose proof (f64_of_Z_valid B) as Vb. rewrite EM in Vb, Eb.
    destruct (f64_sub_within x y M E) as (Fd & Bd & _); [done..|rewrite Eb; lia|].
    destruct (Ha _ Fd) as [? En]. rewrite Eb in Bd.
    split_and!; [by apply f64_abs_valid|done|lia|lia].
Qed.

(** One damped step keeps a statistic inside the bound. *)
Lemma blend_within B h x y :
  0 ≤ B < 2 ^ 53 → damping h → (∀ d, f64_valid d → f64_valid (h d)) →
  num_within B x → num_within B y → num_within B (f64_add x (h (f64_sub y x))).
Proof.
  intros HB Hh Hhv (Vx & Fx & Rx) (Vy & Fy & Ry).
  assert (B * 2 ^ 1074 ≤ 2 ^ 2045) as HB'.
  { replace 2045 with (971 + 1074) by lia. rewrite Z.pow_add_r by lia.
    apply Z.mul_le_mono_nonneg_r; [apply Z.pow_nonneg; lia|].
    transitivity (2 ^ 53); [lia|]. apply Z.pow_le_mono_r; lia. }
  destruct (blend h x y) as [Fr Rr]; [done..|lia|lia|].
  split_and!; [apply f64_add_valid; auto with f64|done|lia|lia].
Qed.

(** The RTO of statistics that are numbers is a number in [[2 ms, 4 s]]. *)
Lemma rto_within B e :
  est_ok B e →
  ∃ r, rto e = Done r ∧ f64_valid r ∧ f64_finite r ∧
       2000 * 2 ^ 1074 ≤ f64_num r ≤ 4000000 * 2 ^ 1074.
Proof.
  intros ((Vs & Fs & Rs) & (Vv & Fv & Rv) & _ & Hlo & Hhi). unfold rto. rewrite Hlo, Hhi.
  apply clamp_range; [| |lia|lia].
  - apply f64_add_valid; [done|]. apply f64_mul_valid; [done|done].
  - apply f64_nonneg_not_nan, f64_add_nonneg; [apply num_nonneg; [done..|lia]|].
    apply f64_mul_nonneg; [done|done|done|apply num_nonneg; [done..|lia]|done|by left].
Qed.

Lemma half_within B x : num_within B x → num_within B (f64_div x (f64_of_Z 2)).
Proof.
  intros (Vx & Fx & Rx). pose proof (pow2_pos 1074 ltac:(lia)) as Hp.
  assert (f64_valid (f64_div x (f64_of_Z 2))) as Vd by (apply f64_div_valid; auto with f64).
  destruct (decide (0 < f64_num x)) as [H0|H0].
  - destruct (pos_float x) as (M & E & EM); [done..|]. subst x.
    assert (f64_num (f64_of_Z 2) = 2 * 2 ^ 1074) as E2 by (vm_compute; done).
    destruct (f64_div_within (S754_finite false M E) (f64_of_Z 2) M E) as (Fd & Bd & Sd & _);
      [done|done|done|done|rewrite E2; lia|done|rewrite E2; nia|].
    rewrite E2 in Sd. split_and!; [done|done|apply Sd; nia|lia].
  - destruct x as [s| | |s m e]; try done.
    apply valid_finite_inv in Vx as (?&_&_). pose proof (pow2_pos (e + 1074) ltac:(lia)).
    simpl in *. destruct s; nia.
Qed.

(** One sample: no panic, the invariant again, and [min_rtt] is the smaller of the old
    one and the sample. *)
Lemma sample_step B e rtt :
  0 ≤ B < 2 ^ 53 → est_ok B e →
  f64_valid rtt → f64_finite rtt → f64_num rtt ≤ B * 2 ^ 1074 →
  ∃ e' r, sample e rtt = Done (e', r) ∧ est_ok B e' ∧ re_have_any e' = true ∧
    2000 * 2 ^ 1074 ≤ f64_num r ≤ 4000000 * 2 ^ 1074 ∧
    f64_num (re_min_rtt e') =
      (if re_have_any e then Z.min (f64_num (re_min_rtt e)) (Z.max 0 (f64_num rtt))
       else Z.max 0 (f64_num rtt)).
Proof.
  intros HB Hok Hv Hf Hle. pose proof Hok as (Ws & Wv & Wm & Hlo & Hhi).
  pose proof (clip_within B rtt ltac:(lia) Hv Hf Hle) as Wc. pose proof (clip_num rtt Hv Hf) as Ec.
  unfold sample. fold (clip rtt). cbv zeta. set (e' := if negb _ then _ else _).
  assert (est_ok B e' ∧ re_have_any e' = true ∧
          f64_num (re_min_rtt e') = (if re_have_any e then
            Z.min (f64_num (re_min_rtt e)) (Z.max 0 (f64_num rtt)) else Z.max 0 (f64_num rtt)))
    as (Hok' & Ha' & Hm').
  { unfold e'. destruct (re_have_any e) eqn:Hany; cbn [negb].
    - pose proof (sub_abs_within B (clip rtt) (re_srtt e) HB Wc Ws) as Wabs.
      pose proof Wc as (Vc & Fc & _). pose proof Wm as (Vm & Fm & _).
      split; [|split; [done|]].
      + split_and!; simpl; [..|done|done].
        * apply (blend_within B (f64_mul RTT_GAIN)); auto using gain_damping.
          intros. by apply f64_mul_valid.
        * apply (blend_within B (λ d, f64_div d RTT_ATTEN_K)); auto using atten_damping.
          intros. by apply f64_div_valid.
        * by destruct (f64_lt _ _).
      + simpl. rewrite f64_lt_num by done. rewrite Ec in *.
        destruct (Z.ltb_spec (Z.max 0 (f64_num rtt)) (f64_num (re_min_rtt e))); lia.
    - split; [|done]. exact (conj Wc (conj (half_within B _ Wc) (conj Wc (conj Hlo Hhi)))). }
  destruct (rto_within B e' Hok') as (r & -> & _ & _ & Hr). exists e', r.
  split; [done|]. split; [done|]. split; [done|]. by split.
Qed.

(** The estimator after a sequence of samples. *)
Fixpoint feed (e : RttEstimator) (rtts : list f64) : outcome RttEstimator :=
  match rtts with
  | [] => Done e
  | rtt :: rest => '(e', _) ← sample e rtt; feed e' rest
  end.

Lemma feed_from B rtts : 0 ≤ B < 2 ^ 53 → ∀ e,
  est_ok B e → re_have_any e = true →
  Forall (λ r, f64_valid r ∧ f64_finite r ∧ f64_num r ≤ B * 2 ^ 1074) rtts →
  ∃ e', feed e rtts = Done e' ∧ est_ok B e' ∧
    let mins := f64_num (re_min_rtt e) :: ((λ r, Z.max 0 (f64_num r)) <$> rtts) in
    f64_num (re_min_rtt e') ∈ mins ∧ Forall (λ m, f64_num (re_min_rtt e') ≤ m) mins.
Proof.
  intros HB. induction rtts as [|r rtts IH]; intros e Hok Ha Hall.
  - exists e. simpl. split_and!; [done|done|left|by repeat constructor].
  - apply Forall_cons in Hall as ((Vr & Fr & Rr) & Hall).
    destruct (sample_step B e r) as (e1 & ro & Es & Hok1 & Ha1 & _ & Hmin); [done..|].
    rewrite Ha in Hmin. destruct (IH e1 Hok1 Ha1 Hall) as (e' & Ef & Hok' & Hin & Hle).
    exists e'. simpl. rewrite Es. simpl. split; [done|]. split; [done|].
    cbn [fmap list_fmap] in *. rewrite Hmin in Hin, Hle. inversion Hle as [|?? H1 H2]; subst.
    split; [|constructor; [lia|constructor; [lia|done]]].
    apply elem_of_cons in Hin as [->|Hin]; [|by do 2 right].
    destruct (Z.min_spec (f64_num (re_min_rtt e)) (Z.max 0 (f64_num r))) as [[_ ->]|[_ ->]];
      [left|right; left].
Qed.

Lemma rtt_new_ok B : 0 ≤ B → est_ok B rtt_new.
Proof.
  intros. assert (num_within B f64_zero).
  { pose proof (pow2_pos 1074 ltac:(lia)). split_and!; [done|done|done|]. cbn [f64_num f64_zero]. nia. }
  exact (conj H0 (conj H0 (conj H0 (conj eq_refl eq_refl)))).
Qed.

(** C33: the RTT estimator is sound for any sequence of samples bounded by [B]
    microseconds: no sample panics, the smoothed RTT and its variation never become
    NaN, negative or larger than [B] in spite of rounding, the base RTT is exactly
    the smallest sample (negative samples counting as zero), and the RTO lies in
    [[2 ms, 4 s]]. *)
Theorem rtt_samples_sound B rtt rtts :
  0 ≤ B < 2 ^ 53 →
  Forall (λ r, f64_valid r ∧ f64_finite r ∧ f64_num r ≤ B * 2 ^ 1074) (rtt :: rtts) →
  ∃ e r, feed rtt_new (rtt :: rtts) = Done e ∧ est_ok B e ∧
    rto e = Done r ∧ 2000 * 2 ^ 1074 ≤ f64_num r ≤ 4000000 * 2 ^ 1074 ∧
    let samples := (λ r, Z.max 0 (f64_num r)) <$> (rtt :: rtts) in
    f64_num (re_min_rtt e) ∈ samples ∧ Forall (λ m, f64_num (re_min_rtt e) ≤ m) samples.
Proof.
  intros HB ((Vr & Fr & Rr) & Hall)%Forall_cons.
  destruct (sample_step B rtt_new rtt) as (e1 & ro & Es & Hok1 & Ha1 & _ & Hmin);
    [done|apply rtt_new_ok; lia|done..|].
  destruct (feed_from B rtts HB e1 Hok1 Ha1 Hall) as (e' & Ef & Hok' & Hin & Hle).
  destruct (rto_within B e' Hok') as (r & Er & _ & _ & Hr).
  simpl in Hmin. rewrite Hmin in Hin, Hle. exists e', r. cbn [feed]. rewrite Es.
  split; [done|]. split; [done|]. split; [done|]. by split.
Qed.

(** A warm start with a non-zero smoothed RTT of at most [B] starts inside the bound. *)
Lemma seed_ok B e srtt base :
  1 ≤ B < 2 ^ 53 → est_ok B e → 0 ≤ srtt ≤ B → 0 ≤ base → est_ok B (seed e srtt base).
Proof.
  intros HB Hok Hs Hb. unfold seed. destruct (Z.eqb_spec srtt 0) as [|H0]; [done|].
  pose proof (pow2_pos 1074 ltac:(lia)) as Hp.
  assert (∀ n, 0 ≤ n ≤ B → num_within B (f64_of_Z n)) as Hw.
  { intros n Hn. destruct (f64_of_Z_exact n ltac:(lia)) as [Fn En].
    split_and!; [auto with f64|done|rewrite En; nia..]. }
  destruct Hok as (_ & _ & _ & Hlo & Hhi). split_and!; simpl; [..|done|done].
  - by apply Hw.
  - assert (num_within B (f64_div (f64_of_Z srtt) (f64_of_Z 4))) as Hd.
    { destruct (Hw srtt ltac:(lia)) as (Vs & Fs & Rs). destruct (f64_of_Z_exact srtt ltac:(lia)) as [_ Es].
      destruct (pos_float (f64_of_Z srtt)) as (M & E & EM); [done|done|rewrite Es; nia|].
      destruct (atten_damping (f64_of_Z srtt) M E) as (Vd & Fd & Bd & Sd & _);
        [done|done|by rewrite <-EM|rewrite <-EM, Es; nia|].
      rewrite <-EM in Bd. split_and!; [done|done|apply Sd; lia|]. unfold RTT_ATTEN_K in Bd. lia. }
    unfold f64_max. destruct (f64_is_nan _); [apply (Hw 1); lia|].
    destruct (f64_is_nan _); [done|]. destruct (f64_lt _ _); [apply (Hw 1); lia|done].
  - destruct (base =? 0); apply Hw; lia.
Qed.

(** ** Witnesses *)

(** ** The controller in either mode *)

Definition ctl_any_ok (c : RateController) : Prop :=
  match rc_mode (rctl_cfg c) with
  | Fixed => 0 ≤ rc_target_bps (rctl_cfg c) < 2 ^ 53
  | Adaptive => ctl_ok c
  end.

Lemma rate_update_any B c srtt base :
  ctl_any_ok c → num_within B srtt → num_within B base →
  ∃ c' bps, rate_update c srtt base = Done (c', bps) ∧ ctl_any_ok c' ∧
            rctl_cfg c' = rctl_cfg c ∧ 0 ≤ bps < 2 ^ 53.
Proof.
  unfold ctl_any_ok. intros Hc (Vs & Fs & Hs) (Vb & Fb & Hb).
  destruct (rc_mode (rctl_cfg c)) eqn:Em.
  - unfold rate_update. rewrite Em. unfold f64_to_u64. rewrite f64_to_uint_of_Z by lia.
    eexists _, _. split; [reflexivity|]. simpl. rewrite Em. done.
  - destruct (rate_update_spec c srtt base) as (c' & bps & E & Hok & Ec & Hr);
      [done|done|by destruct srtt|done|done|apply num_nonneg; [done|done|lia]|].
    exists c', bps. rewrite Ec, Em. split; [done|]. split; [done|]. split; [done|].
    destruct Hc as (_ & (? & ? & _) & _). lia.
Qed.

Lemma set_rate_any c bps :
  ctl_any_ok c → cfg_ok (rctl_cfg c) → 0 ≤ bps → ∃ c', set_rate c bps = Done c' ∧ ctl_any_ok c'.
Proof.
  intros Hc Hok Hb. unfold set_rate. destruct (bps =? 0); [by exists c|].
  pose proof Hok as (Hr & Hmax & _).
  destruct (clamp_range (f64_of_Z bps) (rc_min_bps (rctl_cfg c)) (rc_max_bps (rctl_cfg c)))
    as (y & -> & Hy); [auto with f64|by apply f64_nonneg_not_nan, f64_of_Z_nonneg|lia|lia|].
  eexists. split; [reflexivity|]. unfold ctl_any_ok in *. simpl. destruct (rc_mode (rctl_cfg c)) eqn:E; [done|].
  split; [done|]. split; [done|]. exact Hy.
Qed.

Lemma rate_new_any cfg :
  0 ≤ rc_target_bps cfg < 2 ^ 53 → cfg_ok (rate_cfg_defaults cfg) → ctl_any_ok (rate_new cfg).
Proof.
  intros Ht Hok. unfold ctl_any_ok. assert (rctl_cfg (rate_new cfg) = rate_cfg_defaults cfg) as -> by done.
  simpl. destruct (rc_mode cfg) eqn:Em; [done|]. apply rate_new_spec; [done|lia|done].
Qed.

(** Adaptive, target 100 Mbit/s, ceiling 1 Gbit/s, defaults for the rest. *)
Definition demo_cfg : RateConfig := mkRateConfig Adaptive 100000000 0 1000000000 f64_zero.
(** A ceiling of 1 kbit/s, below the 64 kbit/s floor. *)
Definition slow_cfg : RateConfig := mkRateConfig Adaptive 0 0 1000 f64_zero.
(** Fixed at 50 Mbit/s. *)
Definition fixed_cfg : RateConfig := mkRateConfig Fixed 50000000 0 0 f64_zero.

Lemma demo_cfg_ok : cfg_ok (rate_cfg_defaults demo_cfg).
Proof. repeat split; vm_compute; done. Qed.

Lemma demo_ctl_ok : ctl_ok (rate_new demo_cfg).
Proof. split; [done|]. split; [exact demo_cfg_ok|]. repeat split; vm_compute; done. Qed.

Lemma rate_update_adaptive_witness :
  ∃ c' bps, rate_update (rate_new demo_cfg) (f64_of_Z 30000) (f64_of_Z 10000) = Done (c', bps) ∧
            ctl_ok c' ∧ rctl_cfg c' = rctl_cfg (rate_new demo_cfg) ∧ 64000 ≤ bps ≤ 1000000000.
Proof.
  apply (rate_update_adaptive (rate_new demo_cfg) (f64_of_Z 30000) (f64_of_Z 10000));
    first [exact demo_ctl_ok | vm_compute; done].
Defined.

Lemma rate_new_adaptive_witness : ctl_ok (rate_new demo_cfg).
Proof. apply rate_new_adaptive; [done|vm_compute; done|exact demo_cfg_ok]. Defined.

Lemma rate_update_fixed_witness :
  ∃ c', rate_update (rate_new fixed_cfg) (f64_of_Z 30000) (f64_of_Z 10000) = Done (c', 50000000) ∧
        rctl_cfg c' = rctl_cfg (rate_new fixed_cfg).
Proof.
  apply (rate_update_fixed (rate_new fixed_cfg) (f64_of_Z 30000) (f64_of_Z 10000));
    [done|vm_compute; done].
Defined.

Lemma rate_empty_range_panics_witness :
  rate_update (rate_new slow_cfg) (f64_of_Z 30000) (f64_of_Z 10000) = Panic ∧
  set_rate (rate_new slow_cfg) 5000000 = Panic.
Proof. apply rate_empty_range_panics; vm_compute; done. Defined.

Lemma rtt_samples_sound_witness :
  ∃ e r, feed rtt_new [f64_of_Z 12000; f64_of_Z 9000; f64_of_Z 30000] = Done e ∧
    est_ok 60000000 e ∧ rto e = Done r ∧ 2000 * 2 ^ 1074 ≤ f64_num r ≤ 4000000 * 2 ^ 1074 ∧
    let samples := (λ r, Z.max 0 (f64_num r)) <$> [f64_of_Z 12000; f64_of_Z 9000; f64_of_Z 30000] in
    f64_num (re_min_rtt e) ∈ samples ∧ Forall (λ m, f64_num (re_min_rtt e) ≤ m) samples.
Proof.
  apply (rtt_samples_sound 60000000); [lia|]. repeat constructor; vm_compute; done.
Defined.
