(* ===== verification/PQueue.v ===== *)
(** * Priority queues (std::collections::BinaryHeap of Reverse)

    A [BinaryHeap<Reverse<T>>] is used through [push], [peek], [pop] and [len] only.
    With a total order, these see the multiset of the elements and its minimum, so
    the heap is the sorted list of its elements: [peek] and [pop] look at the head.
    [losstracker.rs] keeps due times in one, [sender.rs] sequence numbers. *)

From Stdlib Require Export Sorting.Sorted.
From S2P Require Import Prelude.

(** A total order given by a boolean comparison. *)
Class TotalLe {A} (le : A → A → bool) : Prop := {
  tle_total x y : le x y || le y x = true;
  tle_trans x y z : le x y = true → le y z = true → le x z = true;
}.

Fixpoint pq_push {A} (le : A → A → bool) (x : A) (q : list A) : list A :=
  match q with
  | [] => [x]
  | y :: q' => if le x y then x :: q else y :: pq_push le x q'
  end.

Definition pq_peek {A} (q : list A) : option A := head q.
Definition pq_pop {A} (q : list A) : option (A * list A) :=
  match q with [] => None | x :: q' => Some (x, q') end.
Definition pq_len {A} (q : list A) : nat := length q.

Section pqueue.
Context {A : Type} (le : A → A → bool) `{!TotalLe le}.
Implicit Types (x y : A) (q : list A).

Definition pq_sorted q : Prop := StronglySorted (λ x y, le x y = true) q.

Lemma tle_refl x : le x x = true.
Proof. pose proof (tle_total x x) as H. by destruct (le x x). Qed.

Lemma tle_false x y : le x y = false → le y x = true.
Proof. intros H. pose proof (tle_total x y) as H'. by rewrite H in H'. Qed.

Lemma pq_push_perm x q : pq_push le x q ≡ₚ x :: q.
Proof.
  induction q as [|y q IH]; simpl; [done|]. destruct (le x y); [done|]. rewrite IH. constructor.
Qed.

Lemma pq_push_sorted x q : pq_sorted q → pq_sorted (pq_push le x q).
Proof.
  induction 1 as [|y q Hq IH Hy]; simpl; [by repeat constructor|]. destruct (le x y) eqn:E.
  - constructor; [by constructor|]. constructor; [done|].
    eapply Forall_impl; [exact Hy|]. intros z Hz. by eapply tle_trans.
  - constructor; [done|]. rewrite pq_push_perm. constructor; [by apply tle_false|done].
Qed.

Lemma pq_sorted_nil : pq_sorted [].
Proof. constructor. Qed.

Lemma pq_pop_sorted x q : pq_sorted (x :: q) → pq_sorted q.
Proof. by inversion 1. Qed.

(** The head is a minimum. *)
Lemma pq_head_min x q y : pq_sorted (x :: q) → y ∈ x :: q → le x y = true.
Proof.
  inversion 1 as [|?? _ Hall]; subst. rewrite elem_of_cons, Forall_forall in *.
  intros [->|?]; [apply tle_refl|by apply Hall].
Qed.
End pqueue.

Global Arguments pq_sorted {A} le q.

#[export] Hint Resolve pq_push_sorted pq_pop_sorted pq_sorted_nil : core.

(** The order of [u64]. *)
Global Instance Z_TotalLe : TotalLe Z.leb.
Proof. split; intros *; [destruct (Z.leb_spec x y), (Z.leb_spec y x); simpl; lia|rewrite !Z.leb_le; lia]. Qed.
