(* ===== verification/LossTracker.v ===== *)
(** * Received-block bitmap and loss scanner (src/losstracker.rs)

    [RecvBitmap] is the vector of 64-bit words; its bits are the set of received
    sequence numbers, and [set_and_test] is one atomic [fetch_or].  [LossScanner]
    belongs to the feedback thread; it reads the shared bitmap, which the ingest
    threads only ever grow, so each of its operations takes the bitmap of that
    moment. *)

From S2P Require Import Prelude Float64 Rate PQueue.

(** ** Bitmap *)

Record RecvBitmap := mkRecvBitmap { rb_words : list Z; rb_total : Z }.

(** [RecvBitmap::new]. *)
Definition bitmap_new (total : Z) : RecvBitmap :=
  mkRecvBitmap (replicate (Z.to_nat (div_ceil total 64)) 0) total.

(** [RecvBitmap::set_and_test]: the updated bitmap and whether the bit was clear. *)
Definition set_and_test (bm : RecvBitmap) (seq : Z) : outcome (RecvBitmap * bool) :=
  let i := Z.to_nat (Z.shiftr seq 6) in
  w ← buf_get (rb_words bm) i;
  let mask := wrap 64 (Z.shiftl 1 (Z.land seq 63)) in
  Done (mkRecvBitmap (<[i := Z.lor w mask]> (rb_words bm)) (rb_total bm), Z.land w mask =? 0).

(** [RecvBitmap::is_set]. *)
Definition is_set (bm : RecvBitmap) (seq : Z) : outcome bool :=
  w ← buf_get (rb_words bm) (Z.to_nat (Z.shiftr seq 6));
  Done (negb (Z.land w (wrap 64 (Z.shiftl 1 (Z.land seq 63))) =? 0)).

(** ** Scanner *)

Record HeapItem := mkHeapItem { hi_due : Z; hi_seq : Z }.

(** [HeapItem::cmp]: due time, then sequence number. *)
Definition item_le (a b : HeapItem) : bool :=
  (hi_due a <? hi_due b) || (hi_due a =? hi_due b) && (hi_seq a <=? hi_seq b).

Record LossScanner := mkLossScanner {
  ls_total : Z;
  ls_hi_contig : Z;
  ls_next_scan : Z;
  ls_pending : gset Z;
  ls_heap : list HeapItem
}.

(** [LossScanner::new]. *)
Definition scanner_new (total : Z) : LossScanner := mkLossScanner total 0 0 ∅ [].

(** The loop of [LossScanner::advance], [n] blocks short of the end. *)
Fixpoint advance_loop (n : nat) (bm : RecvBitmap) (s : LossScanner) : outcome LossScanner :=
  if ls_hi_contig s <? ls_total s then
    match n with
    | O => Done s
    | S n' =>
        b ← is_set bm (ls_hi_contig s);
        if b : bool then
          advance_loop n' bm
            (mkLossScanner (ls_total s) (ls_hi_contig s + 1) (ls_next_scan s)
               (ls_pending s ∖ {[ls_hi_contig s]}) (ls_heap s))
        else Done s
    end
  else Done s.

(** [LossScanner::advance]; the contiguous count is the new [ls_hi_contig]. *)
Definition advance (bm : RecvBitmap) (s : LossScanner) : outcome LossScanner :=
  advance_loop (Z.to_nat (ls_total s - ls_hi_contig s)) bm s.

(** The due time of a request made at [now]. *)
Definition due_at (now rto : f64) : Z := f64_to_u64 (f64_add (f64_add now rto) RTT_PREC_US).

(** The loop of [LossScanner::scan_holes] over [n] blocks from [seq]. *)
Fixpoint scan_loop (n : nat) (bm : RecvBitmap) (due seq : Z) (s : LossScanner)
    : outcome LossScanner :=
  match n with
  | O => Done s
  | S n' =>
      b ← is_set bm seq;
      scan_loop n' bm due (seq + 1)
        (if negb b && bool_decide (seq ∉ ls_pending s) then
           mkLossScanner (ls_total s) (ls_hi_contig s) (ls_next_scan s)
             ({[seq]} ∪ ls_pending s) (pq_push item_le (mkHeapItem due seq) (ls_heap s))
         else s)
  end.

(** [LossScanner::scan_holes]. *)
Definition scan_holes (bm : RecvBitmap) (s : LossScanner) (max_seen : Z) (now rto : f64)
    : outcome LossScanner :=
  if ls_total s =? 0 then Done s else
  let max_seen := if ls_total s <=? max_seen then ls_total s - 1 else max_seen in
  let n := Z.to_nat (max_seen + 1 - ls_next_scan s) in
  s' ← scan_loop n bm (due_at now rto) (ls_next_scan s) s;
  Done (if ls_next_scan s' <? max_seen + 1
        then mkLossScanner (ls_total s') (ls_hi_contig s') (max_seen + 1) (ls_pending s') (ls_heap s')
        else s').

(** The loop of [LossScanner::collect_due].  Each pass either emits a block, of which
    there are at most [max], or drops an entry for good, so [max] plus the heap's
    length bounds the passes; [None] would be a pass beyond the bound. *)
Fixpoint collect_loop (fuel : nat) (bm : RecvBitmap) (now : f64) (re_due : Z) (max : nat)
    (out : list Z) (s : LossScanner) : outcome (option (list Z * LossScanner)) :=
  if (length out <? max)%nat then
    match pq_peek (ls_heap s) with
    | None => Done (Some (out, s))
    | Some top =>
        if f64_gt (f64_of_Z (hi_due top)) now then Done (Some (out, s)) else
        match fuel, pq_pop (ls_heap s) with
        | O, _ => Done None
        | _, None => Panic
        | S fuel', Some (top, heap) =>
            if bool_decide (hi_seq top ∉ ls_pending s) then
              collect_loop fuel' bm now re_due max out
                (mkLossScanner (ls_total s) (ls_hi_contig s) (ls_next_scan s) (ls_pending s) heap)
            else
              b ← is_set bm (hi_seq top);
              if b : bool then
                collect_loop fuel' bm now re_due max out
                  (mkLossScanner (ls_total s) (ls_hi_contig s) (ls_next_scan s)
                     (ls_pending s ∖ {[hi_seq top]}) heap)
              else
                collect_loop fuel' bm now re_due max (out ++ [hi_seq top])
                  (mkLossScanner (ls_total s) (ls_hi_contig s) (ls_next_scan s) (ls_pending s)
                     (pq_push item_le (mkHeapItem re_due (hi_seq top)) heap))
        end
    end
  else Done (Some (out, s)).

(** [LossScanner::collect_due]. *)
Definition collect_due (bm : RecvBitmap) (s : LossScanner) (now rto : f64) (max : nat)
    : outcome (option (list Z * LossScanner)) :=
  collect_loop (max + length (ls_heap s)) bm now (due_at now rto) max [] s.

(** [LossScanner::pending_count] and [LossScanner::completed]. *)
Definition pending_count (s : LossScanner) : nat := size (ls_pending s).
Definition completed (s : LossScanner) : bool := ls_hi_contig s =? ls_total s.

(** ** The bitmap is a set *)

Definition bit (bm : RecvBitmap) (seq : Z) : bool :=
  Z.testbit (default 0 (rb_words bm !! Z.to_nat (seq / 64))) (seq mod 64).

Definition wf_bitmap (bm : RecvBitmap) : Prop :=
  Forall is_u64 (rb_words bm) ∧ length (rb_words bm) = Z.to_nat (div_ceil (rb_total bm) 64).

(** The sequence numbers received so far. *)
Definition received (bm : RecvBitmap) : gset Z :=
  list_to_set (filter (λ j, bit bm j = true) (seqZ 0 (rb_total bm))).

Lemma elem_of_received bm j : j ∈ received bm ↔ 0 ≤ j < rb_total bm ∧ bit bm j = true.
Proof. unfold received. rewrite elem_of_list_to_set, list_elem_of_filter, elem_of_seqZ. naive_solver lia. Qed.

Lemma seq_index seq : Z.shiftr seq 6 = seq / 64 ∧ Z.land seq 63 = seq mod 64.
Proof.
  split; [by rewrite Z.shiftr_div_pow2 by lia|]. change 63 with (Z.ones 6).
  by rewrite Z.land_ones by lia.
Qed.

Lemma bit_mask k : 0 ≤ k < 64 → wrap 64 (Z.shiftl 1 k) = 2 ^ k.
Proof.
  intros Hk. rewrite Z.shiftl_1_l. apply wrap_small. split; [apply Z.pow_nonneg; lia|].
  apply Z.pow_lt_mono_r; lia.
Qed.

Lemma land_mask_zero w k : 0 ≤ k → (Z.land w (2 ^ k) =? 0) = negb (Z.testbit w k).
Proof.
  intros Hk. destruct (Z.testbit w k) eqn:E; simpl.
  - apply Z.eqb_neq. intros H0. assert (Z.testbit (Z.land w (2 ^ k)) k = false) by (by rewrite H0, Z.bits_0).
    rewrite Z.land_spec, E, Z.pow2_bits_true in H by done. done.
  - apply Z.eqb_eq. apply Z.bits_inj'. intros i Hi. rewrite Z.land_spec, Z.bits_0.
    destruct (decide (i = k)) as [->|Hne]; [by rewrite E|].
    rewrite Z.pow2_bits_false by lia. by rewrite andb_false_r.
Qed.

Lemma word_index_lt bm seq :
  wf_bitmap bm → 0 ≤ seq < rb_total bm → (Z.to_nat (seq / 64) < length (rb_words bm))%nat.
Proof.
  intros [_ ->] Hs. unfold div_ceil. apply Z2Nat.inj_lt; [apply Z.div_pos; lia|apply Z.div_pos; lia|].
  apply Z.div_lt_upper_bound; [lia|].
  pose proof (Z.div_mod (rb_total bm + 64 - 1) 64 ltac:(lia)).
  pose proof (Z.mod_pos_bound (rb_total bm + 64 - 1) 64 ltac:(lia)). lia.
Qed.

Lemma is_set_spec bm seq :
  wf_bitmap bm → 0 ≤ seq < rb_total bm → is_set bm seq = Done (bit bm seq).
Proof.
  intros Hwf Hs. pose proof (word_index_lt bm seq Hwf Hs) as [w Hw]%lookup_lt_is_Some.
  unfold is_set, bit. destruct (seq_index seq) as [-> ->].
  rewrite (buf_get_done _ _ w) by done. rewrite Hw. cbn [mbind outcome_bind default].
  pose proof (Z.mod_pos_bound seq 64 ltac:(lia)).
  rewrite bit_mask, land_mask_zero by lia. by rewrite negb_involutive.
Qed.

Lemma bit_insert bm seq w j :
  0 ≤ seq → 0 ≤ j → rb_words bm !! Z.to_nat (seq / 64) = Some w →
  bit (mkRecvBitmap (<[Z.to_nat (seq / 64) := Z.lor w (2 ^ (seq mod 64))]> (rb_words bm)) (rb_total bm)) j =
  bool_decide (j = seq) || bit bm j.
Proof.
  intros Hs Hj Hw. unfold bit. cbn [rb_words].
  pose proof (Z.mod_pos_bound seq 64 ltac:(lia)). pose proof (Z.mod_pos_bound j 64 ltac:(lia)).
  pose proof (Z.div_mod seq 64 ltac:(lia)). pose proof (Z.div_mod j 64 ltac:(lia)).
  destruct (decide (j / 64 = seq / 64)) as [E|Hne].
  - rewrite E, list_lookup_insert_eq by (by eapply lookup_lt_Some). rewrite Hw.
    cbn [from_option]. unfold id. rewrite Z.lor_spec, orb_comm. f_equal.
    case_bool_decide as Hjs; [subst; by apply Z.pow2_bits_true; lia|].
    apply Z.pow2_bits_false. lia.
  - rewrite list_lookup_insert_ne.
    + by rewrite bool_decide_eq_false_2 by congruence.
    + pose proof (Z.div_pos seq 64). pose proof (Z.div_pos j 64). lia.
Qed.

Lemma set_and_test_spec bm seq :
  wf_bitmap bm → 0 ≤ seq < rb_total bm →
  ∃ bm', set_and_test bm seq = Done (bm', negb (bit bm seq)) ∧ wf_bitmap bm' ∧
         rb_total bm' = rb_total bm ∧
         ∀ j, 0 ≤ j → bit bm' j = bool_decide (j = seq) || bit bm j.
Proof.
  intros Hwf Hs. pose proof (word_index_lt bm seq Hwf Hs) as [w Hw]%lookup_lt_is_Some.
  unfold set_and_test. destruct (seq_index seq) as [-> ->].
  rewrite (buf_get_done _ _ w) by done. cbn [mbind outcome_bind].
  pose proof (Z.mod_pos_bound seq 64 ltac:(lia)).
  rewrite bit_mask, land_mask_zero by lia. eexists. split; [|split_and!].
  - do 2 f_equal. unfold bit. by rewrite Hw.
  - destruct Hwf as [Hall Hlen]. split; cbn [rb_words rb_total]; [|by rewrite length_insert].
    apply Forall_insert; [done|]. rewrite Forall_lookup in Hall. apply Hall in Hw.
    pose proof (Z.pow_nonneg 2 (seq mod 64) ltac:(lia)). split; [apply Z.lor_nonneg; by destruct Hw|].
    apply Z.log2_lt_cancel. rewrite Z.log2_lor, !Z.log2_pow2 by (destruct Hw; lia).
    destruct (decide (w = 0)) as [->|]; [simpl; lia|].
    assert (Z.log2 w < 64); [|lia]. apply Z.log2_lt_pow2; destruct Hw; lia.
  - done.
  - intros j Hj. by apply bit_insert; [lia..|].
Qed.

Lemma set_received bm seq bm' b :
  wf_bitmap bm → 0 ≤ seq < rb_total bm → set_and_test bm seq = Done (bm', b) →
  wf_bitmap bm' ∧ rb_total bm' = rb_total bm ∧ b = bool_decide (seq ∉ received bm) ∧
  received bm' = {[seq]} ∪ received bm.
Proof.
  intros Hwf Hs E. destruct (set_and_test_spec bm seq Hwf Hs) as (bm1 & E1 & Hwf1 & Ht & Hb).
  rewrite E in E1. apply Done_inj in E1. simplify_eq. split_and!; [done|done|..].
  - destruct (bit bm seq) eqn:Eb; simpl; symmetry;
      [apply bool_decide_eq_false_2|apply bool_decide_eq_true_2]; rewrite elem_of_received, Eb; naive_solver.
  - apply set_eq. intros j. rewrite elem_of_union, elem_of_singleton, !elem_of_received, Ht.
    split.
    + intros [Hj Hbj]. rewrite Hb in Hbj by lia. case_bool_decide; naive_solver.
    + intros [->|[Hj Hbj]]; (split; [done|]); rewrite Hb by lia.
      * by rewrite bool_decide_eq_true_2.
      * rewrite Hbj. apply orb_true_r.
Qed.

(** A bitmap is determined by the bits below its capacity. *)
Lemma bitmap_ext bm1 bm2 :
  wf_bitmap bm1 → wf_bitmap bm2 → rb_total bm1 = rb_total bm2 →
  (∀ j, 0 ≤ j → bit bm1 j = bit bm2 j) → bm1 = bm2.
Proof.
  intros [H1 L1] [H2 L2] Ht Hb. destruct bm1 as [w1 t1], bm2 as [w2 t2]. simpl in *. subst t2.
  f_equal. apply list_eq_same_length with (length w1); [congruence|done|].
  intros i x y Hi Hx Hy. rewrite Forall_lookup in H1, H2. apply H1 in Hx as Rx. apply H2 in Hy as Ry.
  apply Z.bits_inj'. intros k Hk. destruct (decide (k < 64)) as [Hk64|Hk64].
  - specialize (Hb (i * 64 + k) ltac:(lia)). unfold bit in Hb. simpl in Hb.
    rewrite Z.div_add_l, Z.div_small, Z.add_0_r, Nat2Z.id, Hx, Hy in Hb by lia.
    rewrite Z.add_comm, Z_mod_plus_full, Z.mod_small in Hb by lia. done.
  - assert (∀ z, is_u64 z → Z.testbit z k = false) as Hz; [|by rewrite !Hz].
    intros z [Hz0 Hz]. destruct (decide (z = 0)) as [->|]; [apply Z.bits_0|].
    apply Z.bits_above_log2; [done|]. assert (Z.log2 z < 64); [apply Z.log2_lt_pow2; lia|lia].
Qed.

(** The bitmap after the ingest threads' calls, in the order they took effect, and
    what each call reported. *)
Fixpoint set_all (bm : RecvBitmap) (seqs : list Z) : outcome (RecvBitmap * list bool) :=
  match seqs with
  | [] => Done (bm, [])
  | seq :: rest =>
      '(bm, b) ← set_and_test bm seq;
      '(bm, bs) ← set_all bm rest;
      Done (bm, b :: bs)
  end.

Definition count_true (bs : list bool) : nat := length (filter (λ b, b = true) bs).

Lemma set_all_spec seqs : ∀ bm,
  wf_bitmap bm → Forall (λ seq, 0 ≤ seq < rb_total bm) seqs →
  ∃ bm' bs, set_all bm seqs = Done (bm', bs) ∧ wf_bitmap bm' ∧ rb_total bm' = rb_total bm ∧
    (∀ j, 0 ≤ j → bit bm' j = bool_decide (j ∈ seqs) || bit bm j) ∧
    (count_true bs + size (received bm) = size (received bm'))%nat.
Proof.
  induction seqs as [|seq seqs IH]; intros bm Hwf Hall.
  { exists bm, []. split_and!; done. }
  apply Forall_cons in Hall as [Hs Hall].
  destruct (set_and_test_spec bm seq Hwf Hs) as (bm1 & E & Hwf1 & Ht & Hb).
  destruct (set_received bm seq bm1 _ Hwf Hs E) as (_ & _ & Hr & HR).
  destruct (IH bm1 Hwf1) as (bm2 & bs & E2 & Hwf2 & Ht2 & Hb2 & Hc); [by rewrite Ht|].
  exists bm2, (negb (bit bm seq) :: bs). cbn [set_all]. rewrite E. cbn [mbind outcome_bind].
  rewrite E2. split_and!; [done|done|congruence|..].
  - intros j Hj. rewrite Hb2, Hb, orb_assoc by done. f_equal.
    rewrite (bool_decide_ext (j ∈ seq :: seqs) (j ∈ seqs ∨ j = seq)) by (rewrite elem_of_cons; tauto).
    by rewrite bool_decide_or.
  - rewrite <-Hc, HR, Hr. unfold count_true. case_bool_decide as Hin.
    + rewrite filter_cons_True by done. rewrite size_union by set_solver. rewrite size_singleton. simpl. lia.
    + rewrite filter_cons_False by done. by rewrite (subseteq_union_1_L {[seq]} (received bm)) by set_solver.
Qed.

(** C19: concurrent ingest is order-independent: whatever order the atomic
    [set_and_test] calls take effect in, the final bitmap is the same, it holds
    exactly the old bits and the sequence numbers given, and the number of calls
    that reported "first time" is the number of newly received blocks (so each new
    block is counted once, however many duplicates arrive). *)
Theorem bitmap_order_independent bm seqs1 seqs2 :
  wf_bitmap bm → Forall (λ seq, 0 ≤ seq < rb_total bm) seqs1 → seqs1 ≡ₚ seqs2 →
  ∃ bm' bs1 bs2,
    set_all bm seqs1 = Done (bm', bs1) ∧ set_all bm seqs2 = Done (bm', bs2) ∧
    received bm' = received bm ∪ list_to_set seqs1 ∧
    (count_true bs1 = size (received bm') - size (received bm))%nat ∧
    count_true bs2 = count_true bs1.
Proof.
  intros Hwf Hall Hp. destruct (set_all_spec seqs1 bm Hwf Hall) as (b1 & r1 & E1 & W1 & T1 & B1 & C1).
  destruct (set_all_spec seqs2 bm Hwf) as (b2 & r2 & E2 & W2 & T2 & B2 & C2); [by rewrite <-Hp|].
  assert (b1 = b2) as ->.
  { apply bitmap_ext; [done|done|congruence|]. intros j Hj. rewrite B1, B2 by done. f_equal.
    apply bool_decide_ext. by rewrite Hp. }
  exists b2, r1, r2. split_and!; [done|done| |lia|lia]. apply set_eq. intros j.
  rewrite elem_of_union, elem_of_list_to_set, !elem_of_received, T2.
  rewrite Forall_forall in Hall. split.
  - intros [Hj Hb]. rewrite B1 in Hb by lia. case_bool_decide; naive_solver.
  - intros [[Hj Hb]|Hj].
    + rewrite B1, Hb by lia. split; [done|apply orb_true_r].
    + specialize (Hall j Hj). rewrite B1, bool_decide_eq_true_2 by (done || lia). done.
Qed.

Lemma bitmap_new_wf total : wf_bitmap (bitmap_new total) ∧ rb_total (bitmap_new total) = total.
Proof.
  split; [|done]. split; simpl; [by apply Forall_replicate|by rewrite length_replicate].
Qed.

Lemma bitmap_new_clear total j : bit (bitmap_new total) j = false.
Proof.
  unfold bit. simpl. destruct (_ !! _) as [w|] eqn:E; [|apply Z.bits_0].
  apply lookup_replicate in E as [-> _]. apply Z.bits_0.
Qed.

Lemma bitmap_order_independent_witness :
  ∃ bm' bs1 bs2,
    set_all (bitmap_new 100) [3; 70; 3; 99] = Done (bm', bs1) ∧
    set_all (bitmap_new 100) [99; 3; 3; 70] = Done (bm', bs2) ∧
    received bm' = received (bitmap_new 100) ∪ list_to_set [3; 70; 3; 99] ∧
    (count_true bs1 = size (received bm') - size (received (bitmap_new 100)))%nat ∧
    count_true bs2 = count_true bs1.
Proof.
  apply (bitmap_order_independent (bitmap_new 100)).
  - apply bitmap_new_wf.
  - repeat constructor; vm_compute; done.
  - apply (bool_decide_unpack _). vm_compute. done.
Defined.

(** ** Invariant of the scanner *)

Global Instance item_TotalLe : TotalLe item_le.
Proof.
  unfold item_le. split; intros [d1 s1] [d2 s2]; simpl.
  - destruct (Z.ltb_spec d1 d2), (Z.ltb_spec d2 d1), (Z.eqb_spec d1 d2), (Z.eqb_spec d2 d1),
      (Z.leb_spec s1 s2), (Z.leb_spec s2 s1); simpl; done || lia.
  - intros [d3 s3]. simpl. rewrite !orb_true_iff, !andb_true_iff, !Z.ltb_lt, !Z.eqb_eq, !Z.leb_le. lia.
Qed.

Lemma item_le_due a b : item_le a b = true → hi_due a ≤ hi_due b.
Proof. unfold item_le. rewrite orb_true_iff, andb_true_iff, Z.ltb_lt, Z.eqb_eq. lia. Qed.

Definition heap_seqs (s : LossScanner) : list Z := hi_seq <$> ls_heap s.

(** What holds of the scanner against the bitmap it reads: blocks below the contiguous
    mark are received; every missing block already scanned is pending; every pending
    block has its one heap entry. *)
Record scanner_ok (bm : RecvBitmap) (s : LossScanner) : Prop := {
  so_bm : wf_bitmap bm;
  so_total : rb_total bm = ls_total s;
  so_hi : 0 ≤ ls_hi_contig s ≤ ls_total s;
  so_scan : 0 ≤ ls_next_scan s ≤ ls_total s;
  so_contig : ∀ j, 0 ≤ j < ls_hi_contig s → bit bm j = true;
  so_pending : ∀ j, j ∈ ls_pending s → j ∈ heap_seqs s;
  so_missing : ∀ j, 0 ≤ j < ls_next_scan s → bit bm j = false → j ∈ ls_pending s;
  so_nodup : NoDup (heap_seqs s);
  so_heap : ∀ it, it ∈ ls_heap s → 0 ≤ hi_seq it < ls_next_scan s ∧ 0 ≤ hi_due it < 2 ^ 53;
  so_sorted : pq_sorted item_le (ls_heap s)
}.

Lemma scanner_new_ok total : 0 ≤ total → scanner_ok (bitmap_new total) (scanner_new total).
Proof.
  intros Ht. destruct (bitmap_new_wf total) as [Hwf Htot].
  split; simpl; auto with lia; try set_solver; intros; lia || constructor.
Qed.

(** The ingest threads only set bits; the scanner's invariant survives that. *)
Lemma scanner_ok_grow bm bm' s :
  scanner_ok bm s → wf_bitmap bm' → rb_total bm' = rb_total bm →
  (∀ j, 0 ≤ j → bit bm j = true → bit bm' j = true) → scanner_ok bm' s.
Proof.
  intros [] Hwf Ht Hg. split; try done; [congruence| |].
  - intros j Hj. apply Hg; [lia|auto].
  - intros j Hj Hb. apply so_missing0; [done|]. destruct (bit bm j) eqn:E; [|done].
    by rewrite Hg in Hb by (done || lia).
Qed.

Lemma is_set_ok bm s j : scanner_ok bm s → 0 ≤ j < ls_total s → is_set bm j = Done (bit bm j).
Proof. intros [] Hj. apply is_set_spec; [done|]. by rewrite so_total0. Qed.

(** ** [advance] *)

Lemma advance_loop_spec bm (n : nat) : ∀ s,
  scanner_ok bm s → ls_total s - ls_hi_contig s ≤ n →
  ∃ s', advance_loop n bm s = Done s' ∧ scanner_ok bm s' ∧
    ls_total s' = ls_total s ∧ ls_next_scan s' = ls_next_scan s ∧ ls_heap s' = ls_heap s ∧
    ls_pending s' ⊆ ls_pending s ∧ ls_hi_contig s ≤ ls_hi_contig s' ∧
    (ls_hi_contig s' = ls_total s ∨ bit bm (ls_hi_contig s') = false).
Proof.
  induction n as [|n IH]; intros s Hok Hn; pose proof Hok as [].
  { exists s. simpl. destruct (Z.ltb_spec (ls_hi_contig s) (ls_total s)); [lia|].
    split_and!; done || lia. }
  simpl. destruct (Z.ltb_spec (ls_hi_contig s) (ls_total s)); [|exists s; split_and!; done || lia].
  rewrite (is_set_ok bm s) by (done || lia). simpl.
  destruct (bit bm (ls_hi_contig s)) eqn:Eb; [|exists s; split_and!; by auto with lia].
  set (s1 := mkLossScanner _ _ _ _ _).
  assert (scanner_ok bm s1) as Hok1.
  { split; unfold s1; simpl; auto with lia.
    - intros j Hj. destruct (decide (j = ls_hi_contig s)) as [->|]; [done|apply so_contig0; lia].
    - intros j Hj. apply so_pending0. set_solver.
    - intros j Hj Hbj. apply elem_of_difference. split; [by apply so_missing0|].
      rewrite elem_of_singleton. intros ->. congruence. }
  destruct (IH s1 Hok1) as (s' & -> & Hok' & H1 & H2 & H3 & H4 & H5 & H6); [unfold s1; simpl; lia|].
  exists s'. unfold s1 in *; simpl in *. split_and!; auto with lia. set_solver.
Qed.

(** [advance] in full. *)
Lemma advance_spec bm s :
  scanner_ok bm s →
  ∃ s', advance bm s = Done s' ∧ scanner_ok bm s' ∧
    ls_hi_contig s ≤ ls_hi_contig s' ∧
    (∀ j, 0 ≤ j < ls_hi_contig s' → bit bm j = true) ∧
    (ls_hi_contig s' < ls_total s' → bit bm (ls_hi_contig s') = false) ∧
    (completed s' = true ↔ ∀ j, 0 ≤ j < ls_total s' → bit bm j = true).
Proof.
  intros Hok. destruct (advance_loop_spec bm (Z.to_nat (ls_total s - ls_hi_contig s)) s Hok)
    as (s' & E & Hok' & Ht & _ & _ & _ & Hle & Hend); [lia|].
  exists s'. pose proof Hok' as []. unfold completed. rewrite Z.eqb_eq, Ht in *.
  split_and!; [done|done|done|done|intros; destruct Hend; [lia|done]|].
  split; [intros Heq j Hj; apply so_contig0; lia|]. intros Hall.
  destruct Hend as [|Hb]; [done|]. destruct (decide (ls_hi_contig s' = ls_total s)); [done|].
  rewrite Hall in Hb by lia. done.
Qed.

Lemma advance_frame bm s s' :
  scanner_ok bm s → advance bm s = Done s' →
  ls_heap s' = ls_heap s ∧ ls_next_scan s' = ls_next_scan s.
Proof.
  intros Hok E. destruct (advance_loop_spec bm (Z.to_nat (ls_total s - ls_hi_contig s)) s Hok)
    as (s1 & E1 & _ & _ & Hnext & Hheap & _); [lia|].
  unfold advance in E. rewrite E1 in E. apply Done_inj in E as <-. done.
Qed.

(** Result: [advance] moves the contiguous mark to exactly the first missing block (or to
    the end): everything below the new mark is received and the block at the mark is
    not.  It never reads out of the bitmap, and the transfer is reported complete
    exactly when every block has been received. *)
Theorem advance_exact bm s :
  scanner_ok bm s →
  ∃ s', advance bm s = Done s' ∧ scanner_ok bm s' ∧
    ls_hi_contig s ≤ ls_hi_contig s' ∧
    (∀ j, 0 ≤ j < ls_hi_contig s' → bit bm j = true) ∧
    (ls_hi_contig s' < ls_total s' → bit bm (ls_hi_contig s') = false) ∧
    (completed s' = true ↔ ∀ j, 0 ≤ j < ls_total s' → bit bm j = true).
Proof. apply advance_spec. Qed.

(** ** Due times

    The clock is a whole number of microseconds below [2^52] (142 years) and the RTO
    is in the estimator's range, so due times are exact up to a microsecond. *)

Definition rto_ok (rto : f64) : Prop :=
  f64_valid rto ∧ f64_finite rto ∧ 2000 * 2 ^ 1074 ≤ f64_num rto ≤ 4000000 * 2 ^ 1074.

(** The RTO in whole microseconds, rounded down. *)
Definition rto_us (rto : f64) : Z := f64_num rto / 2 ^ 1074.

Lemma rto_us_bounds rto :
  rto_ok rto → 2000 ≤ rto_us rto ≤ 4000000 ∧
  rto_us rto * 2 ^ 1074 ≤ f64_num rto ≤ (rto_us rto + 1) * 2 ^ 1074.
Proof.
  intros (_ & _ & Hlo & Hhi). pose proof (pow2_pos 1074 ltac:(lia)) as Hp. unfold rto_us.
  pose proof (Z.div_mod (f64_num rto) (2 ^ 1074) ltac:(lia)).
  pose proof (Z.mod_pos_bound (f64_num rto) (2 ^ 1074) Hp).
  split; [|lia]. split; [apply Z.div_le_lower_bound; lia|apply Z.div_le_upper_bound; lia].
Qed.

Lemma due_bounds n rto :
  0 ≤ n < 2 ^ 52 → rto_ok rto →
  n + rto_us rto + 1000 ≤ due_at (f64_of_Z n) rto ≤ n + rto_us rto + 1001.
Proof.
  intros Hn Hr. destruct (rto_us_bounds rto Hr) as [Hu Hb]. destruct Hr as (Vr & Fr & _).
  destruct (f64_of_Z_exact n ltac:(lia)) as [Fn En].
  destruct (f64_add_int_bounds (f64_of_Z n) rto (n + rto_us rto) (n + rto_us rto + 1))
    as (V1 & F1 & B1); [auto with f64|done|done|done|lia|lia|rewrite En; lia|].
  assert (f64_num RTT_PREC_US = 1000 * 2 ^ 1074) as E1000 by (vm_compute; done).
  destruct (f64_add_int_bounds (f64_add (f64_of_Z n) rto) RTT_PREC_US
              (n + rto_us rto + 1000) (n + rto_us rto + 1001))
    as (V2 & F2 & B2); [done|done|done|done|lia|lia|rewrite E1000; lia|].
  unfold due_at. apply to_u64_range; [done|done|lia|lia|done].
Qed.

(** Comparing a due time with the clock. *)
Lemma due_gt n d : 0 ≤ n < 2 ^ 52 → 0 ≤ d < 2 ^ 53 → f64_gt (f64_of_Z d) (f64_of_Z n) = (n <? d).
Proof. intros. unfold f64_gt. apply f64_lt_of_Z; lia. Qed.

(** ** [scan_holes] *)

Definition set_next (s : LossScanner) (n : Z) : LossScanner :=
  mkLossScanner (ls_total s) (ls_hi_contig s) n (ls_pending s) (ls_heap s).

Lemma heap_push_perm due seq s :
  hi_seq <$> pq_push item_le (mkHeapItem due seq) (ls_heap s) ≡ₚ seq :: heap_seqs s.
Proof. unfold heap_seqs. by rewrite pq_push_perm. Qed.

(** One block of the scan. *)
Lemma scan_step_ok bm due seq s :
  scanner_ok bm (set_next s seq) → seq < ls_total s → 0 ≤ due < 2 ^ 53 →
  let s' := if negb (bit bm seq) && bool_decide (seq ∉ ls_pending s) then
              mkLossScanner (ls_total s) (ls_hi_contig s) (ls_next_scan s)
                ({[seq]} ∪ ls_pending s) (pq_push item_le (mkHeapItem due seq) (ls_heap s))
            else s in
  scanner_ok bm (set_next s' (seq + 1)).
Proof.
  intros Hok Hseq Hdue s'. destruct Hok as []; simpl in *.
  assert (seq ∉ ls_pending s) as Hnp.
  { intros Hin. apply so_pending0, list_elem_of_fmap in Hin as (it & -> & Hit).
    apply so_heap0 in Hit. lia. }
  assert (seq ∉ heap_seqs s) as Hnh.
  { intros (it & -> & Hit)%list_elem_of_fmap. apply so_heap0 in Hit. lia. }
  unfold s'. rewrite bool_decide_eq_true_2, andb_true_r by done.
  destruct (bit bm seq) eqn:Eb; simpl; (split; simpl; auto with lia).
  - intros j Hj Hb. apply so_missing0; [|done]. destruct (decide (j = seq)); [congruence|lia].
  - intros it Hit. specialize (so_heap0 it Hit). lia.
  - intros j. unfold heap_seqs, set_next. simpl. rewrite heap_push_perm, elem_of_cons. set_solver.
  - intros j Hj Hb. destruct (decide (j = seq)); [set_solver|].
    apply elem_of_union_r, so_missing0; [lia|done].
  - unfold heap_seqs, set_next. simpl. rewrite heap_push_perm. by constructor.
  - intros it. rewrite pq_push_perm, elem_of_cons. intros [->|Hit]; simpl; [lia|].
    specialize (so_heap0 it Hit). lia.
  - by apply pq_push_sorted; [apply _|].
Qed.

Lemma scan_loop_spec bm due n : ∀ seq s,
  scanner_ok bm (set_next s seq) → seq + Z.of_nat n ≤ ls_total s → 0 ≤ due < 2 ^ 53 →
  ∃ s', scan_loop n bm due seq s = Done s' ∧ scanner_ok bm (set_next s' (seq + n)) ∧
    ls_total s' = ls_total s ∧ ls_hi_contig s' = ls_hi_contig s ∧ ls_next_scan s' = ls_next_scan s ∧
    (∀ j, j ∈ ls_pending s' ↔ j ∈ ls_pending s ∨ seq ≤ j < seq + n ∧ bit bm j = false) ∧
    (∀ it, it ∈ ls_heap s' ↔ it ∈ ls_heap s ∨
       hi_due it = due ∧ seq ≤ hi_seq it < seq + n ∧ bit bm (hi_seq it) = false).
Proof.
  induction n as [|n IH]; intros seq s Hok Hn Hdue; cbn [scan_loop].
  { exists s. rewrite Z.add_0_r. split_and!; try done; intros; intuition lia. }
  pose proof Hok as []; simpl in *.
  rewrite (is_set_ok bm (set_next s seq)) by (done || (simpl; lia)). cbn [mbind outcome_bind].
  pose proof (scan_step_ok bm due seq s Hok ltac:(lia) Hdue) as Hok1. cbv zeta in Hok1.
  set (s1 := if _ && _ then _ else _) in *.
  assert (ls_total s1 = ls_total s ∧ ls_hi_contig s1 = ls_hi_contig s ∧
          ls_next_scan s1 = ls_next_scan s) as (T1 & C1 & N1) by (unfold s1; by destruct (_ && _)).
  destruct (IH (seq + 1) s1 Hok1) as (s' & E' & Hok' & T' & C' & N' & P' & H'); [rewrite T1; lia|done|].
  exists s'. replace (seq + S n) with (seq + 1 + n) by lia.
  assert (seq ∉ ls_pending s) as Hnp.
  { intros Hin. apply so_pending0, list_elem_of_fmap in Hin as (it & -> & Hit).
    apply so_heap0 in Hit. lia. }
  split_and!; [done|done|congruence|congruence|congruence|..].
  - intros j. rewrite P'. unfold s1. rewrite (bool_decide_eq_true_2 (seq ∉ _)), andb_true_r by done.
    destruct (bit bm seq) eqn:Eb; simpl.
    + split; [intuition lia|]. intros [?|[? ?]]; [by left|]. right.
      destruct (decide (j = seq)); [congruence|]. split; [lia|done].
    + rewrite elem_of_union, elem_of_singleton. destruct (decide (j = seq)) as [->|]; intuition lia.
  - intros it. rewrite H'. unfold s1. rewrite (bool_decide_eq_true_2 (seq ∉ _)), andb_true_r by done.
    destruct (bit bm seq) eqn:Eb; simpl.
    + split; [intuition lia|]. intros [?|(? & ? & ?)]; [by left|]. right.
      destruct (decide (hi_seq it = seq)); [congruence|]. split_and!; [done|lia|lia|done].
    + rewrite pq_push_perm, elem_of_cons. destruct it as [d q]. simpl.
      destruct (decide (q = seq)) as [->|].
      * split; [intros [[[=]|?]|?]; subst; intuition lia|]. intros [?|(-> & ? & ?)]; intuition.
      * split; [intros [[[=]|?]|?]; subst; intuition lia|]. intuition lia.
Qed.

(** [scan_holes] in full. *)
Lemma scan_holes_spec bm s max_seen n rto :
  scanner_ok bm s → 0 ≤ max_seen → 0 ≤ n < 2 ^ 52 → rto_ok rto →
  ∃ s', scan_holes bm s max_seen (f64_of_Z n) rto = Done s' ∧ scanner_ok bm s' ∧
    ls_total s' = ls_total s ∧ ls_hi_contig s' = ls_hi_contig s ∧
    ls_next_scan s' = Z.max (ls_next_scan s) (Z.min max_seen (ls_total s - 1) + 1) ∧
    (∀ j, j ∈ ls_pending s' ↔ j ∈ ls_pending s ∨
       ls_next_scan s ≤ j < ls_next_scan s' ∧ bit bm j = false) ∧
    (∀ it, it ∈ ls_heap s' → it ∈ ls_heap s ∨
       (hi_seq it ∉ ls_pending s) ∧
       n + rto_us rto + 1000 ≤ hi_due it ≤ n + rto_us rto + 1001).
Proof.
  intros Hok Hm Hn Hr. pose proof (due_bounds n rto Hn Hr) as Hd.
  destruct (rto_us_bounds rto Hr) as [Hu _]. pose proof Hok as [].
  unfold scan_holes. destruct (Z.eqb_spec (ls_total s) 0) as [H0|H0].
  { exists s. split_and!; try done; [lia|intros; intuition lia|by left]. }
  set (m := if ls_total s <=? max_seen then ls_total s - 1 else max_seen).
  assert (m = Z.min max_seen (ls_total s - 1)) as Hmin
    by (unfold m; destruct (Z.leb_spec (ls_total s) max_seen); lia).
  destruct (scan_loop_spec bm (due_at (f64_of_Z n) rto) (Z.to_nat (m + 1 - ls_next_scan s))
              (ls_next_scan s) s) as (s1 & E & Hok1 & T1 & C1 & N1 & P1 & H1).
  { by destruct s. } { lia. } { lia. }
  rewrite E. cbn [mbind outcome_bind]. rewrite N1.
  set (s' := if _ <? _ then _ else _). exists s'.
  assert (s' = set_next s1 (Z.max (ls_next_scan s) (m + 1))) as Es'.
  { unfold s'. destruct (Z.ltb_spec (ls_next_scan s) (m + 1)).
    - by rewrite Z.max_r by lia.
    - rewrite Z.max_l by lia. rewrite <-N1. by destruct s1. }
  rewrite Es'. simpl.
  assert (ls_next_scan s + Z.to_nat (m + 1 - ls_next_scan s) = Z.max (ls_next_scan s) (m + 1))
    as Hnx by lia. rewrite Hnx in *.
  split_and!; [done|done|done|done|lia|..].
  - intros j. rewrite P1. done.
  - intros it Hit. apply H1 in Hit as [?|(-> & Hrange & _)]; [by left|right]. split; [|done].
    intros (it' & Eq & Hit')%so_pending0%list_elem_of_fmap. apply so_heap0 in Hit'. lia.
Qed.

(** C18: [scan_holes] records exactly the holes: the scan frontier moves to just past
    [max_seen] (clipped to the file), the blocks newly pending are exactly the missing
    ones between the old and the new frontier, each with one request scheduled an RTO
    plus the timer precision after now, and the invariant (every missing scanned block
    is pending and scheduled once) holds again. *)
Theorem scan_holes_exact bm s max_seen n rto :
  scanner_ok bm s → 0 ≤ max_seen → 0 ≤ n < 2 ^ 52 → rto_ok rto →
  ∃ s', scan_holes bm s max_seen (f64_of_Z n) rto = Done s' ∧ scanner_ok bm s' ∧
    ls_total s' = ls_total s ∧ ls_hi_contig s' = ls_hi_contig s ∧
    ls_next_scan s' = Z.max (ls_next_scan s) (Z.min max_seen (ls_total s - 1) + 1) ∧
    (∀ j, j ∈ ls_pending s' ↔ j ∈ ls_pending s ∨
       ls_next_scan s ≤ j < ls_next_scan s' ∧ bit bm j = false) ∧
    (∀ it, it ∈ ls_heap s' → it ∈ ls_heap s ∨
       (hi_seq it ∉ ls_pending s) ∧
       n + rto_us rto + 1000 ≤ hi_due it ≤ n + rto_us rto + 1001).
Proof. apply scan_holes_spec. Qed.

(** ** [collect_due] *)

(** What one run of the collection loop does, with the entries [em] it emits. *)
Record collected (bm : RecvBitmap) (n re_due : Z) (room : nat) (s : LossScanner)
    (em : list HeapItem) (s' : LossScanner) : Prop := {
  co_ok : scanner_ok bm s';
  co_total : ls_total s' = ls_total s;
  co_hi : ls_hi_contig s' = ls_hi_contig s;
  co_next : ls_next_scan s' = ls_next_scan s;
  co_em : ∀ t, t ∈ em → t ∈ ls_heap s ∧ hi_due t ≤ n ∧ bit bm (hi_seq t) = false;
  co_nodup : NoDup (hi_seq <$> em);
  co_heap : ∀ it, it ∈ ls_heap s' → it ∈ ls_heap s ∨ hi_due it = re_due;
  co_again : ∀ t, t ∈ em → mkHeapItem re_due (hi_seq t) ∈ ls_heap s';
  co_fate : ∀ it, it ∈ ls_heap s → it ∈ ls_heap s' ∨ it ∈ em ∨ bit bm (hi_seq it) = true;
  co_order : ∀ t it, t ∈ em → it ∈ ls_heap s → it ∈ ls_heap s' → item_le t it = true;
  co_room : (length em ≤ room)%nat;
  co_all : (length em < room)%nat → ∀ it, it ∈ ls_heap s' → n < hi_due it
}.

Lemma collected_nil bm n re_due room s :
  scanner_ok bm s → (room = O ∨ ∀ it, it ∈ ls_heap s → n < hi_due it) →
  collected bm n re_due room s [] s.
Proof.
  intros Hok Hr. split; try done; try set_solver; try (by constructor).
  - simpl. lia.
  - simpl. destruct Hr as [->|?]; [lia|done].
Qed.

(** Heap entries with the same sequence number are the same entry. *)
Lemma heap_unique bm s a b :
  scanner_ok bm s → a ∈ ls_heap s → b ∈ ls_heap s → hi_seq a = hi_seq b → a = b.
Proof.
  intros [] (i & Hi)%list_elem_of_lookup (j & Hj)%list_elem_of_lookup E.
  assert (i = j) as ->.
  { eapply (NoDup_lookup (heap_seqs s) i j (hi_seq a)); [done|..]; unfold heap_seqs;
      rewrite list_lookup_fmap; [by rewrite Hi|by rewrite Hj, E]. }
  congruence.
Qed.

Section collect.
Context (bm : RecvBitmap) (n re_due : Z) (Hre : n < re_due < 2 ^ 53) (Hn : 0 ≤ n).

(** The scanner after its first entry [top] was popped and dropped. *)
Definition dropped (s : LossScanner) (P : gset Z) (heap : list HeapItem) : LossScanner :=
  mkLossScanner (ls_total s) (ls_hi_contig s) (ls_next_scan s) P heap.

Lemma pop_facts s top rest :
  scanner_ok bm s → ls_heap s = top :: rest →
  (hi_seq top ∉ hi_seq <$> rest) ∧ NoDup (hi_seq <$> rest) ∧ (top ∉ rest) ∧
  (∀ it, it ∈ ls_heap s → item_le top it = true) ∧ pq_sorted item_le rest.
Proof.
  intros [] E. unfold heap_seqs in *. rewrite E in *. apply NoDup_cons in so_nodup0 as [H1 H2].
  split_and!; [done|done| |intros it Hit; by eapply pq_head_min; [apply _|..]|by eapply pq_pop_sorted].
  intros Hin. apply H1, list_elem_of_fmap. by exists top.
Qed.

Lemma drop_ok s top rest P :
  scanner_ok bm s → ls_heap s = top :: rest → bit bm (hi_seq top) = true →
  P ⊆ ls_pending s → hi_seq top ∉ P →
  (∀ j, j ∈ ls_pending s → j ≠ hi_seq top → j ∈ P) →
  scanner_ok bm (dropped s P rest).
Proof.
  intros Hok E Hb HP Ht Hkeep. destruct (pop_facts s top rest Hok E) as (_ & Hnd & _ & _ & Hs).
  destruct Hok. split; simpl; try done.
  - intros j Hj. specialize (so_pending0 j (HP j Hj)). unfold heap_seqs in *. rewrite E in so_pending0.
    apply elem_of_cons in so_pending0 as [->|]; [done|done].
  - intros j Hj Hbj. apply Hkeep; [by apply so_missing0|congruence].
  - intros it Hit. apply so_heap0. rewrite E. by right.
Qed.

Lemma top_gone s s1 room em s' top rest :
  scanner_ok bm s → ls_heap s = top :: rest → hi_due top ≤ n →
  (∀ it, it ∈ ls_heap s1 → it ∈ rest ∨ hi_due it = re_due) →
  collected bm n re_due room s1 em s' → top ∉ ls_heap s'.
Proof.
  intros Hok E Hd H1 Hc Hin. destruct (pop_facts s top rest Hok E) as (_ & _ & Hnr & _).
  apply (co_heap _ _ _ _ _ _ _ Hc) in Hin as [Hin|Hin]; [|lia]. apply H1 in Hin as [|]; [done|lia].
Qed.

Lemma collected_drop s top rest P room em s' :
  scanner_ok bm s → ls_heap s = top :: rest → hi_due top ≤ n → bit bm (hi_seq top) = true →
  collected bm n re_due room (dropped s P rest) em s' → collected bm n re_due room s em s'.
Proof.
  intros Hok E Hd Hb Hc.
  pose proof (top_gone s (dropped s P rest) room em s' top rest Hok E Hd ltac:(by left) Hc) as Hg.
  destruct Hc; simpl in *. split; try done; rewrite E.
  - intros t Ht. destruct (co_em0 t Ht) as (? & ? & ?). split_and!; [by right|done|done].
  - intros it Hit. destruct (co_heap0 it Hit); [left; by right|by right].
  - intros it [->|Hit]%elem_of_cons; [by do 2 right|auto].
  - intros t it Ht [->|Hit]%elem_of_cons Hit'; [done|auto].
Qed.

Lemma emit_ok s top rest :
  scanner_ok bm s → ls_heap s = top :: rest →
  scanner_ok bm (dropped s (ls_pending s) (pq_push item_le (mkHeapItem re_due (hi_seq top)) rest)).
Proof.
  intros Hok E. destruct (pop_facts s top rest Hok E) as (Hnt & Hnd & _ & _ & Hs).
  assert (hi_seq <$> pq_push item_le (mkHeapItem re_due (hi_seq top)) rest ≡ₚ hi_seq top :: (hi_seq <$> rest))
    as Hp by (by rewrite pq_push_perm).
  destruct Hok. unfold heap_seqs in *. rewrite E in *. split; simpl; try done; unfold heap_seqs; simpl.
  - intros j Hj. rewrite Hp. by apply so_pending0.
  - rewrite Hp. by constructor.
  - intros it. rewrite pq_push_perm. intros [->|Hit]%elem_of_cons.
    + simpl. split; [|lia]. by apply (so_heap0 top); left.
    + apply so_heap0. by right.
  - by apply pq_push_sorted; [apply _|].
Qed.

Lemma collected_emit s top rest room em s' :
  scanner_ok bm s → ls_heap s = top :: rest → hi_due top ≤ n → bit bm (hi_seq top) = false →
  collected bm n re_due room
    (dropped s (ls_pending s) (pq_push item_le (mkHeapItem re_due (hi_seq top)) rest)) em s' →
  collected bm n re_due (S room) s (top :: em) s'.
Proof.
  intros Hok E Hd Hb Hc. destruct (pop_facts s top rest Hok E) as (Hnt & _ & _ & Hmin & _).
  assert (∀ it, it ∈ pq_push item_le (mkHeapItem re_due (hi_seq top)) rest ↔
            it = mkHeapItem re_due (hi_seq top) ∨ it ∈ rest) as Hpush
    by (intros it; rewrite pq_push_perm; apply elem_of_cons).
  eapply top_gone in Hc as Hg; [|done|done|done|intros it; simpl; rewrite Hpush; intros [->|]; auto].
  destruct Hc; simpl in *.
  assert (∀ t, t ∈ em → t ∈ rest) as Hem.
  { intros t Ht. destruct (co_em0 t Ht) as ([->|]%Hpush & ? & ?); [simpl in *; lia|done]. }
  split; try done; rewrite ?E.
  - intros t [->|Ht]%elem_of_cons; [split_and!; [by left|done|done]|].
    destruct (co_em0 t Ht) as (_ & ? & ?). split_and!; [right; auto|done|done].
  - rewrite fmap_cons. constructor; [|done]. intros (t & Et & Ht)%list_elem_of_fmap.
    apply Hnt, list_elem_of_fmap. exists t. auto.
  - intros it Hit. destruct (co_heap0 it Hit) as [[->|]%Hpush|]; [by right|left; by right|by right].
  - intros t [->|Ht]%elem_of_cons; [|auto].
    destruct (co_fate0 (mkHeapItem re_due (hi_seq top))) as [|[Hin|Hbt]]; [by apply Hpush; left|done|..].
    + destruct (co_em0 _ Hin) as (_ & ? & _). simpl in *. lia.
    + simpl in Hbt. congruence.
  - intros it [->|Hit]%elem_of_cons; [right; left; by left|].
    destruct (co_fate0 it) as [|[|]]; [by apply Hpush; right|by left|right; left; by right|by do 2 right].
  - intros t it [->|Ht]%elem_of_cons Hit Hit'; [by apply Hmin; rewrite E|].
    apply elem_of_cons in Hit as [->|Hit]; [done|]. apply co_order0; [done|by apply Hpush; right|done].
  - simpl. lia.
  - simpl. intros Hl. apply co_all0. lia.
Qed.
End collect.

Lemma collect_loop_spec bm n re_due : n < re_due < 2 ^ 53 → 0 ≤ n < 2 ^ 52 → ∀ fuel max out s,
  scanner_ok bm s → (length out ≤ max)%nat → (max - length out + length (ls_heap s) ≤ fuel)%nat →
  ∃ em s', collect_loop fuel bm (f64_of_Z n) re_due max out s =
             Done (Some (out ++ (hi_seq <$> em), s')) ∧
           collected bm n re_due (max - length out) s em s'.
Proof.
  intros Hre Hn. induction fuel as [|fuel IH]; intros max out s Hok Hl Hf;
    cbn [collect_loop]; (destruct (Nat.ltb_spec (length out) max) as [Hlt|Hge];
    [|exists [], s; rewrite app_nil_r; split; [done|]; apply collected_nil; [done|left; lia]]).
  { destruct (ls_heap s); simpl in *; lia. }
  destruct (ls_heap s) as [|top rest] eqn:E; cbn [pq_peek pq_pop head].
  { exists [], s. rewrite app_nil_r. split; [done|]. apply collected_nil; [done|right]. rewrite E. set_solver. }
  destruct (so_heap _ _ Hok top) as [Hseq Hdue]; [rewrite E; left|].
  rewrite due_gt by lia. destruct (Z.ltb_spec n (hi_due top)) as [Hnd|Hnd].
  { exists [], s. rewrite app_nil_r. split; [done|]. apply collected_nil; [done|right]. intros it Hit.
    destruct (pop_facts bm s top rest Hok E) as (_ & _ & _ & Hmin & _).
    specialize (Hmin it Hit). apply item_le_due in Hmin. lia. }
  pose proof (so_scan _ _ Hok). simpl in Hf.
  case_bool_decide as Hp; [|rewrite (is_set_ok bm s) by (done || lia); cbn [mbind outcome_bind];
                            destruct (bit bm (hi_seq top)) eqn:Eb].
  - assert (bit bm (hi_seq top) = true) as Hb.
    { destruct (bit bm (hi_seq top)) eqn:Eb; [done|]. destruct Hp. by apply (so_missing _ _ Hok). }
    destruct (IH max out (dropped s (ls_pending s) rest)) as (em & s' & E' & Hc);
      [by eapply drop_ok|done|simpl; lia|].
    exists em, s'. split; [exact E'|]. by eapply collected_drop.
  - destruct (IH max out (dropped s (ls_pending s ∖ {[hi_seq top]}) rest)) as (em & s' & E' & Hc);
      [eapply drop_ok; try done; set_solver|done|simpl; lia|].
    exists em, s'. split; [exact E'|]. by eapply collected_drop.
  - destruct (IH max (out ++ [hi_seq top])
                (dropped s (ls_pending s) (pq_push item_le (mkHeapItem re_due (hi_seq top)) rest)))
      as (em & s' & E' & Hc).
    { eapply emit_ok; try done; lia. }
    { rewrite length_app; simpl; lia. }
    { rewrite length_app. simpl. rewrite pq_push_perm. simpl. lia. }
    exists (top :: em), s'. rewrite <-app_assoc in E'. split; [exact E'|].
    replace (max - length out)%nat with (S (max - length (out ++ [hi_seq top])))
      by (rewrite length_app; simpl; lia).
    eapply collected_emit; try done; lia.
Qed.

(** [collect_due] moves neither the scan nor the contiguous mark. *)
Lemma collect_due_next bm s n rto max out s' :
  scanner_ok bm s → 0 ≤ n < 2 ^ 52 → rto_ok rto →
  collect_due bm s (f64_of_Z n) rto max = Done (Some (out, s')) →
  ls_next_scan s' = ls_next_scan s ∧ ls_total s' = ls_total s ∧ ls_hi_contig s' = ls_hi_contig s.
Proof.
  intros Hok Hn Hr E. pose proof (due_bounds n rto Hn Hr) as Hd.
  destruct (rto_us_bounds rto Hr) as [Hu _].
  destruct (collect_loop_spec bm n (due_at (f64_of_Z n) rto) ltac:(lia) Hn
              (max + length (ls_heap s)) max [] s Hok) as (em & s1 & E1 & []); [simpl; lia..|].
  unfold collect_due in E. rewrite E1 in E. apply Done_inj in E. by simplify_eq.
Qed.

(** What is left in the heap was there before, or is a request made again. *)
Lemma collect_due_heap bm s n rto max out s' it :
  scanner_ok bm s → 0 ≤ n < 2 ^ 52 → rto_ok rto →
  collect_due bm s (f64_of_Z n) rto max = Done (Some (out, s')) →
  it ∈ ls_heap s' → it ∈ ls_heap s ∨ hi_due it ≤ n + rto_us rto + 1001.
Proof.
  intros Hok Hn Hr E Hit. pose proof (due_bounds n rto Hn Hr) as Hd.
  destruct (rto_us_bounds rto Hr) as [Hu _].
  destruct (collect_loop_spec bm n (due_at (f64_of_Z n) rto) ltac:(lia) Hn
              (max + length (ls_heap s)) max [] s Hok) as (em & s1 & E1 & []); [simpl; lia..|].
  unfold collect_due in E. rewrite E1 in E. apply Done_inj in E. simplify_eq.
  destruct (co_heap0 it Hit) as [?| ->]; [by left|right; lia].
Qed.

(** [collect_due] in full. *)
Lemma collect_due_spec bm s n rto max :
  scanner_ok bm s → 0 ≤ n < 2 ^ 52 → rto_ok rto →
  ∃ em s', collect_due bm s (f64_of_Z n) rto max = Done (Some (hi_seq <$> em, s')) ∧
    scanner_ok bm s' ∧ NoDup (hi_seq <$> em) ∧ (length em ≤ max)%nat ∧
    (∀ t, t ∈ em → t ∈ ls_heap s ∧ hi_due t ≤ n ∧ bit bm (hi_seq t) = false ∧
       ∃ t', t' ∈ ls_heap s' ∧ hi_seq t' = hi_seq t ∧
             n + rto_us rto + 1000 ≤ hi_due t' ≤ n + rto_us rto + 1001) ∧
    ((length em < max)%nat →
       ∀ it, it ∈ ls_heap s → hi_due it ≤ n → bit bm (hi_seq it) = false → it ∈ em) ∧
    (∀ t it, t ∈ em → it ∈ ls_heap s → it ∈ ls_heap s' → item_le t it = true).
Proof.
  intros Hok Hn Hr. pose proof (due_bounds n rto Hn Hr) as Hd.
  destruct (rto_us_bounds rto Hr) as [Hu _].
  destruct (collect_loop_spec bm n (due_at (f64_of_Z n) rto) ltac:(lia) Hn
              (max + length (ls_heap s)) max [] s Hok) as (em & s' & E & []); [simpl; lia..|].
  simpl in *. rewrite Nat.sub_0_r in *. exists em, s'.
  split; [done|]. split; [done|]. split; [done|]. split; [done|]. split; [|split; [|done]].
  - intros t Ht. destruct (co_em0 t Ht) as (? & ? & ?). split_and!; [done..|].
    eexists. split; [by apply co_again0|]. by split.
  - intros Hl it Hit Hdi Hb. destruct (co_fate0 it Hit) as [Hin|[|]]; [|done|congruence].
    specialize (co_all0 Hl it Hin). lia.
Qed.

(** C17: [collect_due] terminates within its bound and is sound, complete and fair: it
    returns at most [max] distinct blocks, each of them still missing and with a request
    that had come due; each is scheduled again for one RTO later; when fewer than [max]
    are returned, every missing block whose request was due is among them; and when the
    limit cuts the list, the entries left behind are not older than those returned. *)
Theorem collect_due_correct bm s n rto max :
  scanner_ok bm s → 0 ≤ n < 2 ^ 52 → rto_ok rto →
  ∃ em s', collect_due bm s (f64_of_Z n) rto max = Done (Some (hi_seq <$> em, s')) ∧
    scanner_ok bm s' ∧ NoDup (hi_seq <$> em) ∧ (length em ≤ max)%nat ∧
    (∀ t, t ∈ em → t ∈ ls_heap s ∧ hi_due t ≤ n ∧ bit bm (hi_seq t) = false ∧
       ∃ t', t' ∈ ls_heap s' ∧ hi_seq t' = hi_seq t ∧
             n + rto_us rto + 1000 ≤ hi_due t' ≤ n + rto_us rto + 1001) ∧
    ((length em < max)%nat →
       ∀ it, it ∈ ls_heap s → hi_due it ≤ n → bit bm (hi_seq it) = false → it ∈ em) ∧
    (∀ t it, t ∈ em → it ∈ ls_heap s → it ∈ ls_heap s' → item_le t it = true).
Proof. apply collect_due_spec. Qed.

(** ** Witnesses: five blocks, of which block 2 is missing *)

Definition demo_bm : RecvBitmap := mkRecvBitmap [27] 5.
Definition demo_scanner : LossScanner := mkLossScanner 5 0 5 {[2]} [mkHeapItem 9000 2].

Lemma demo_bm_wf : wf_bitmap demo_bm.
Proof. split; [|done]. repeat constructor; vm_compute; done. Qed.

Lemma demo_scanner_ok : scanner_ok demo_bm demo_scanner.
Proof.
  split; simpl; try done; try (intros; lia).
  - exact demo_bm_wf.
  - intros j ->%elem_of_singleton. left.
  - intros j Hj Hb. assert (j = 0 ∨ j = 1 ∨ j = 2 ∨ j = 3 ∨ j = 4) as Hc by lia.
    destruct Hc as [->|[->|[->|[->| ->]]]]; try done.
  - repeat constructor. set_solver.
  - intros it ->%list_elem_of_singleton. simpl. lia.
  - repeat constructor.
Qed.

Lemma demo_rto_ok : rto_ok (f64_of_Z 50000).
Proof. repeat split; vm_compute; done. Qed.

Lemma advance_exact_witness :
  ∃ s', advance demo_bm demo_scanner = Done s' ∧ scanner_ok demo_bm s' ∧ 0 ≤ ls_hi_contig s' ∧
    (∀ j, 0 ≤ j < ls_hi_contig s' → bit demo_bm j = true) ∧
    (ls_hi_contig s' < ls_total s' → bit demo_bm (ls_hi_contig s') = false) ∧
    (completed s' = true ↔ ∀ j, 0 ≤ j < ls_total s' → bit demo_bm j = true).
Proof. exact (advance_exact demo_bm demo_scanner demo_scanner_ok). Defined.

Lemma scan_holes_exact_witness :
  ∃ s', scan_holes demo_bm (set_next (mkLossScanner 5 0 0 ∅ []) 0) 4 (f64_of_Z 1000000) (f64_of_Z 50000)
          = Done s' ∧ ls_next_scan s' = 5 ∧ 2 ∈ ls_pending s'.
Proof.
  destruct (scan_holes_exact demo_bm (set_next (mkLossScanner 5 0 0 ∅ []) 0) 4 1000000 (f64_of_Z 50000))
    as (s' & E & Hok & Ht & Hc & Hn & Hp & Hh); [|lia|lia|exact demo_rto_ok|].
  - split; simpl; try done; try (intros; lia);
      [exact demo_bm_wf|constructor|by intros ? ?%not_elem_of_nil].
  - exists s'. split; [done|]. rewrite Hn. split; [done|]. apply Hp. right. rewrite Hn. done.
Defined.

Lemma collect_due_correct_witness :
  ∃ em s', collect_due demo_bm demo_scanner (f64_of_Z 10000) (f64_of_Z 50000) 10 =
             Done (Some (hi_seq <$> em, s')) ∧ scanner_ok demo_bm s' ∧ NoDup (hi_seq <$> em) ∧
           ((length em < 10)%nat → mkHeapItem 9000 2 ∈ em).
Proof.
  destruct (collect_due_correct demo_bm demo_scanner 10000 (f64_of_Z 50000) 10 demo_scanner_ok)
    as (em & s' & E & Hok & Hnd & _ & _ & Hall & _); [lia|exact demo_rto_ok|].
  exists em, s'. split; [done|]. split; [done|]. split; [done|]. intros Hl.
  apply (Hall Hl); [by left|done|done].
Defined.

(** Executing it: block 2 is requested, and again one RTO later. *)
Example collect_due_run :
  collect_due demo_bm demo_scanner (f64_of_Z 10000) (f64_of_Z 50000) 10 =
  Done (Some ([2], mkLossScanner 5 0 5 {[2]} [mkHeapItem 61000 2])).
Proof. vm_compute. done. Qed.
