(* ===== verification/Stats.v ===== *)
(** * Transfer counters (src/stats.rs)

    [Stats] is the struct of atomic counters and gauges the data-plane threads share;
    it is a total map from its fields to 64-bit values, so that a [store] or a
    [fetch_add] on one field is one update.  [snapshot] copies it and derives the
    progress values; [human_bytes] chooses the unit of a size.  The texts are in [Report]. *)

From Stdlib Require Import Ascii.
From S2P Require Import Prelude Float64.

(** The atomic fields of [struct Stats]. *)
Inductive StatField :=
| bytes_sent | packets_sent | retrans_sent | bytes_recv | packets_recv | payload_recv
| dup_recv | corrupt_recv | nacks_sent | nacks_recv | blocks_written
| target_rate_bps | srtt_path_us | srtt_net_us | base_rtt_us | rto_us | rex_queue_len | hi_contig
| total_bytes | total_blocks | block_size.

Global Instance StatField_eq_dec : EqDecision StatField.
Proof. solve_decision. Defined.

Definition Stats : Type := StatField → Z.

(** [Stats::default]. *)
Definition stats_default : Stats := λ _, 0.

(** [field.store(v)] and [field.fetch_add(n)] (which wraps). *)
Definition stats_store (f : StatField) (v : Z) (s : Stats) : Stats :=
  λ g, if decide (g = f) then v else s g.
Definition stats_fetch_add (f : StatField) (n : Z) (s : Stats) : Stats :=
  stats_store f (wrap 64 (s f + n)) s.

(** [std::time::Duration], and [as_secs_f64]. *)
Record Duration := mkDuration { dur_secs : Z; dur_nanos : Z }.
Definition as_secs_f64 (d : Duration) : f64 :=
  f64_add (f64_of_Z (dur_secs d)) (f64_div (f64_of_Z (dur_nanos d)) (f64_of_Z 1000000000)).

(** [checked_sub] on durations. *)
Definition duration_checked_sub (a b : Duration) : option Duration :=
  let d := (dur_secs a * 1000000000 + dur_nanos a) - (dur_secs b * 1000000000 + dur_nanos b) in
  if d <? 0 then None else Some (mkDuration (d / 1000000000) (d mod 1000000000)).

Definition mbps (delta_bytes : Z) (dt : f64) : f64 :=
  f64_div (f64_div (f64_mul (f64_of_Z delta_bytes) (f64_of_Z 8)) (f64_of_Z 1000000)) dt.

Definition pct (a b : Z) : f64 :=
  if b =? 0 then f64_zero else f64_mul (f64_div (f64_of_Z a) (f64_of_Z b)) (f64_of_Z 100).

Definition qdelay_ms (srtt_net base : Z) : f64 :=
  if srtt_net <? base then f64_zero
  else f64_div (f64_of_Z (srtt_net - base)) (f64_of_Z 1000).

(** A snapshot: the copied counters and the derived values. *)
Record StatsSnapshot := mkStatsSnapshot {
  ss_elapsed : Duration;
  ss_field : Stats;
  ss_progress_bytes : Z;
  ss_progress_blocks : Z;
  ss_percent_complete : f64;
  ss_retrans_percent : f64;
  ss_duplicate_percent : f64;
  ss_queue_delay_us : Z;
  ss_average_send_wire_mbps : f64;
  ss_average_recv_wire_mbps : f64;
  ss_average_recv_goodput_mbps : f64
}.

(** [Stats::snapshot], at [elapsed] after the start. *)
Definition snapshot (s : Stats) (elapsed : Duration) : StatsSnapshot :=
  let elapsed_secs := f64_max (as_secs_f64 elapsed) (f64_ratio 1 1000000000) in
  let progress_blocks := Z.min (Z.max (s hi_contig) (s blocks_written)) (s total_blocks) in
  let progress_bytes :=
    if 0 <? s payload_recv then Z.min (s payload_recv) (s total_bytes)
    else if (0 <? s total_bytes) && (0 <? s block_size) then
      Z.min (saturating_mul_u64 progress_blocks (s block_size)) (s total_bytes)
    else 0 in
  let percent_complete :=
    if 0 <? s total_bytes then
      f64_mul (f64_div (f64_of_Z progress_bytes) (f64_of_Z (s total_bytes))) (f64_of_Z 100)
    else if s total_blocks =? 0 then f64_of_Z 100
    else f64_zero in
  mkStatsSnapshot elapsed s progress_bytes progress_blocks percent_complete
    (pct (s retrans_sent) (s packets_sent)) (pct (s dup_recv) (s packets_recv))
    (saturating_sub_u64 (s srtt_net_us) (s base_rtt_us))
    (mbps (s bytes_sent) elapsed_secs) (mbps (s bytes_recv) elapsed_secs)
    (mbps (s payload_recv) elapsed_secs).

(** [StatsSnapshot::delta_secs] and the rates since an earlier snapshot. *)
Definition delta_secs (cur prev : StatsSnapshot) : f64 :=
  match duration_checked_sub (ss_elapsed cur) (ss_elapsed prev) with
  | Some d => if f64_gt (as_secs_f64 d) f64_zero then as_secs_f64 d else f64_ratio 1 1000000000
  | None => f64_ratio 1 1000000000
  end.

Definition mbps_since (f : StatField) (cur prev : StatsSnapshot) : f64 :=
  mbps (saturating_sub_u64 (ss_field cur f) (ss_field prev f)) (delta_secs cur prev).
Definition send_wire_mbps_since := mbps_since bytes_sent.
Definition recv_wire_mbps_since := mbps_since bytes_recv.
Definition recv_goodput_mbps_since := mbps_since payload_recv.

(** [human_bytes] before rendering: the plain count, or the count, the divisor it is
    shown over and the unit letter.  The unit table panics out of range. *)
Inductive human := HBytes (b : Z) | HUnit (b div : Z) (prefix : ascii).

Definition unit_prefixes : list ascii := ["K"; "M"; "G"; "T"; "P"; "E"]%char.

(** The loop: the quotient shrinks 1024-fold per pass, so seven passes end it. *)
Fixpoint human_loop (fuel : nat) (div : Z) (exp : nat) (n : Z) : option (Z * nat) :=
  if 1024 <=? n then
    match fuel with
    | O => None
    | S fuel' => human_loop fuel' (wrap 64 (div * 1024)) (S exp) (n / 1024)
    end
  else Some (div, exp).

Definition human_bytes (b : Z) : outcome (option human) :=
  if b <? 1024 then Done (Some (HBytes b)) else
  match human_loop 7 1024 0 (b / 1024) with
  | None => Done None
  | Some (div, exp) => p ← buf_get unit_prefixes exp; Done (Some (HUnit b div p))
  end.

(** ** Counters *)

Lemma stats_store_eq f v s : stats_store f v s f = v.
Proof. unfold stats_store. by rewrite decide_True. Qed.

Lemma stats_store_ne f g v s : g ≠ f → stats_store f v s g = s g.
Proof. intros. unfold stats_store. by rewrite decide_False. Qed.

(** ** Progress *)

Definition wf_stats (s : Stats) : Prop := ∀ f, f ≠ rex_queue_len → is_u64 (s f).

(** A ratio of exact integers at most one, as a percentage, lies between 0 and 100. *)
Lemma pct_range a b :
  0 ≤ a ≤ b → 0 < b < 2 ^ 53 →
  let r := f64_mul (f64_div (f64_of_Z a) (f64_of_Z b)) (f64_of_Z 100) in
  f64_finite r ∧ 0 ≤ f64_num r ≤ 100 * 2 ^ 1074.
Proof.
  intros Ha Hb r. pose proof (pow2_pos 1074 ltac:(lia)) as Hp.
  destruct (f64_of_Z_exact a ltac:(lia)) as [Fa Ea], (f64_of_Z_exact b ltac:(lia)) as [Fb Eb].
  destruct (pow2_float 1074) as (M1 & E1 & V1 & N1); [lia|].
  assert (0 < f64_num (f64_of_Z b)) as Hb0 by (rewrite Eb; apply Z.mul_pos_pos; lia).
  destruct (f64_div_within (f64_of_Z a) (f64_of_Z b) M1 E1) as (Fd & Bd & Sd & _);
    [auto with f64..|lia|done| |].
  { rewrite N1, Ea, Eb, !Z.abs_eq by (apply Z.mul_nonneg_nonneg; lia).
    rewrite (Z.mul_comm (2 ^ 1074)). apply Z.mul_le_mono_nonneg_r; [lia|].
    apply Z.mul_le_mono_nonneg_r; lia. }
  assert (f64_num (f64_of_Z 100) = 100 * 2 ^ 1074) as E100 by (vm_compute; done).
  assert (0 ≤ f64_num (f64_div (f64_of_Z a) (f64_of_Z b)) ≤ 2 ^ 1074) as Hq.
  { rewrite N1 in Bd. split; [|lia]. apply Sd. rewrite Ea, Eb.
    apply Z.mul_nonneg_nonneg; apply Z.mul_nonneg_nonneg; lia. }
  destruct (pos_float (f64_of_Z 100)) as (M & E & EM); [auto with f64|done|rewrite E100; lia|].
  assert (f64_valid (S754_finite false M E)) as VM by (rewrite <-EM; auto with f64).
  destruct (f64_mul_within (f64_div (f64_of_Z a) (f64_of_Z b)) (f64_of_Z 100) M E)
    as (Fr & Br & Sr & _); [auto with f64|auto with f64|done|done|done| |].
  { rewrite <-EM, E100. set (q := f64_num (f64_div _ _)) in *.
    rewrite (Z.mul_comm q), Z.abs_eq by (apply Z.mul_nonneg_nonneg; lia).
    apply Z.mul_le_mono_nonneg_l; lia. }
  rewrite <-EM, E100 in Br. unfold r. split; [done|]. split; [|lia]. apply Sr. rewrite E100.
  apply Z.mul_nonneg_nonneg; lia.
Qed.

(** Result: a progress snapshot never overshoots: whatever the counters hold, the reported
    bytes and blocks are at most the announced totals and the percentage is a number
    between 0 and 100. *)
Theorem snapshot_progress_bounded s elapsed :
  wf_stats s → s total_bytes < 2 ^ 53 →
  let snap := snapshot s elapsed in
  0 ≤ ss_progress_bytes snap ≤ s total_bytes ∧
  0 ≤ ss_progress_blocks snap ≤ s total_blocks ∧
  f64_finite (ss_percent_complete snap) ∧
  0 ≤ f64_num (ss_percent_complete snap) ≤ 100 * 2 ^ 1074.
Proof.
  intros Hwf Ht snap.
  destruct (Hwf total_bytes ltac:(done)) as [Htb _], (Hwf total_blocks ltac:(done)) as [Htk _],
    (Hwf payload_recv ltac:(done)) as [Hpr _], (Hwf hi_contig ltac:(done)) as [Hhc _],
    (Hwf block_size ltac:(done)) as [Hbs _].
  assert (0 ≤ ss_progress_blocks snap ≤ s total_blocks) as Hk by (simpl; lia).
  assert (0 ≤ ss_progress_bytes snap ≤ s total_bytes) as Hb.
  { unfold snap, snapshot, saturating_mul_u64, u64_max. cbn [ss_progress_bytes].
    destruct (Z.ltb_spec 0 (s payload_recv)); [lia|].
    destruct (Z.ltb_spec 0 (s total_bytes)), (Z.ltb_spec 0 (s block_size)); simpl; try lia.
    split; [|lia]. apply Z.min_glb; [|lia]. apply Z.min_glb; [lia|].
    apply Z.mul_nonneg_nonneg; [|lia]. cbn in Hk. lia. }
  split; [done|]. split; [done|].
  change (ss_percent_complete snap) with
    (if 0 <? s total_bytes then
       f64_mul (f64_div (f64_of_Z (ss_progress_bytes snap)) (f64_of_Z (s total_bytes))) (f64_of_Z 100)
     else if s total_blocks =? 0 then f64_of_Z 100 else f64_zero).
  destruct (Z.ltb_spec 0 (s total_bytes)) as [H0|H0]; [apply pct_range; lia|].
  destruct (s total_blocks =? 0); split; vm_compute; done.
Qed.

Lemma snapshot_progress_bounded_witness :
  let s := stats_store total_bytes 1000 (stats_store payload_recv 4000 stats_default) in
  0 ≤ ss_progress_bytes (snapshot s (mkDuration 3 0)) ≤ s total_bytes ∧
  0 ≤ ss_progress_blocks (snapshot s (mkDuration 3 0)) ≤ s total_blocks ∧
  f64_finite (ss_percent_complete (snapshot s (mkDuration 3 0))) ∧
  0 ≤ f64_num (ss_percent_complete (snapshot s (mkDuration 3 0))) ≤ 100 * 2 ^ 1074.
Proof.
  apply snapshot_progress_bounded; [|done]. intros [] _; vm_compute; done.
Defined.

(** ** Human-readable sizes *)

Lemma human_loop_spec b : 0 ≤ b < 2 ^ 64 → ∀ fuel exp n,
  (exp ≤ 6)%nat → (6 - exp ≤ fuel)%nat → n = b / 1024 ^ (exp + 1) →
  1 ≤ n →
  ∃ div exp', human_loop fuel (1024 ^ (exp + 1)) exp n = Some (div, exp') ∧
    (exp ≤ exp')%nat ∧ div = 1024 ^ (exp' + 1) ∧ 1 ≤ b / div < 1024.
Proof.
  intros Hb. induction fuel as [|fuel IH]; intros exp n He Hf -> Hn; simpl;
    destruct (Z.leb_spec 1024 (b / 1024 ^ (exp + 1))) as [Hge|Hlt];
    try (exists (1024 ^ (exp + 1)), exp; split_and!; by auto with lia).
  - exfalso. assert (exp = 6)%nat as -> by lia. rewrite Z.div_small in Hge; [lia|].
    split; [lia|]. eapply Z.lt_le_trans; [apply Hb|]. vm_compute. done.
  - assert (exp ≤ 4)%nat as He4.
    { destruct (decide (exp ≤ 4)%nat); [done|]. exfalso.
      assert (b < 1024 * 1024 ^ (exp + 1)).
      { apply Z.lt_le_trans with (1024 ^ 7); [eapply Z.lt_le_trans; [apply Hb|vm_compute; done]|].
        rewrite <-Z.pow_succ_r by lia. apply Z.pow_le_mono_r; lia. }
      assert (b / 1024 ^ (exp + 1) < 1024); [|lia].
      apply Z.div_lt_upper_bound; [apply Z.pow_pos_nonneg; lia|lia]. }
    replace (wrap 64 (1024 ^ (exp + 1) * 1024)) with (1024 ^ (S exp + 1)).
    2: { rewrite wrap_small.
         - replace (S exp + 1) with (Z.succ (exp + 1)) by lia. rewrite Z.pow_succ_r by lia. lia.
         - split; [apply Z.mul_nonneg_nonneg; [apply Z.pow_nonneg|]; lia|].
           apply Z.le_lt_trans with (1024 ^ 5 * 1024); [|vm_compute; done].
           apply Z.mul_le_mono_nonneg_r; [lia|]. apply Z.pow_le_mono_r; lia. }
    destruct (IH (S exp) (b / 1024 ^ (exp + 1) / 1024)) as (div & exp' & E & H1 & H2 & H3);
      [lia|lia| |apply Z.div_le_lower_bound; lia|].
    { rewrite Z.div_div by (try apply Z.pow_nonzero; lia). f_equal.
      replace (S exp + 1) with (Z.succ (exp + 1)) by lia. rewrite Z.pow_succ_r by lia. lia. }
    exists div, exp'. split_and!; auto with lia.
Qed.

Lemma human_bytes_done b :
  is_u64 b →
  ∃ h, human_bytes b = Done (Some h) ∧
    match h with
    | HBytes b' => b' = b ∧ b < 1024
    | HUnit b' div p => b' = b ∧ p ∈ unit_prefixes ∧ 1 ≤ b / div < 1024
    end.
Proof.
  intros Hb. unfold human_bytes. destruct (Z.ltb_spec b 1024) as [Hlt|Hge]; [by eexists|].
  destruct (human_loop_spec b Hb 7 0 (b / 1024)) as (div & exp & E & _ & Hd & Hr);
    [lia|lia|done|apply Z.div_le_lower_bound; lia|].
  change (1024 ^ (0%nat + 1)) with 1024 in E. rewrite E.
  assert (exp < 6)%nat as He.
  { destruct (decide (exp < 6)%nat); [done|]. exfalso.
    assert (b / div < 1); [|lia]. apply Z.div_lt_upper_bound; [rewrite Hd; apply Z.pow_pos_nonneg; lia|].
    eapply Z.lt_le_trans; [apply Hb|]. rewrite Hd, Z.mul_1_r. change (2 ^ 64) with (1024 ^ 6 * 16).
    transitivity (1024 ^ 7); [vm_compute; done|]. apply Z.pow_le_mono_r; lia. }
  destruct (lookup_lt_is_Some_2 unit_prefixes exp) as [p Hp]; [done|].
  rewrite (buf_get_done _ _ p) by done. eexists. split; [reflexivity|].
  split; [done|]. split; [by eapply list_elem_of_lookup_2|done].
Qed.

(** Result: [human_bytes] is total on 64-bit counts: its loop ends, the unit table is never
    indexed out of range, the divisor does not overflow, and the value shown has
    between one and four digits before the point. *)
Theorem human_bytes_total b :
  is_u64 b →
  ∃ h, human_bytes b = Done (Some h) ∧
    match h with
    | HBytes b' => b' = b ∧ b < 1024
    | HUnit b' div p => b' = b ∧ p ∈ unit_prefixes ∧ 1 ≤ b / div < 1024
    end.
Proof. apply human_bytes_done. Qed.

Lemma human_bytes_total_witness :
  ∃ h, human_bytes u64_max = Done (Some h) ∧
    match h with
    | HBytes b' => b' = u64_max ∧ u64_max < 1024
    | HUnit b' div p => b' = u64_max ∧ p ∈ unit_prefixes ∧ 1 ≤ u64_max / div < 1024
    end.
Proof. apply human_bytes_total. vm_compute. done. Defined.
