(* ===== verification/Report.v ===== *)
(** * Reports (src/stats.rs)

    The texts made of the counters: [human_bytes], the periodic [key=value] line of each role,
    the final summary; and the thread that prints the line.  An [Instant] is a count of
    nanoseconds of the monotonic clock. *)

From Stdlib Require Import Ascii.
From stdpp Require Import pretty.
From S2P Require Import Prelude Float64 Text Stats.

(** ** Texts *)

(** What [human_bytes] prints. *)
Definition human_text (h : human) : string :=
  match h with
  | HBytes b => pretty b +:+ " B"
  | HUnit b div p => fixed 2 (f64_div (f64_of_Z b) (f64_of_Z div)) +:+ " " +:+ String p "iB"
  end.

(** [struct Snapshot], and [Stats::snap] at instant [t]. *)
Record Snapshot := mkSnapshot { sn_t : Z; sn_bytes_sent : Z; sn_bytes_recv : Z; sn_payload_recv : Z }.
Definition snap (s : Stats) (t : Z) : Snapshot :=
  mkSnapshot t (s bytes_sent) (s bytes_recv) (s payload_recv).

(** [Instant::duration_since], which saturates. *)
Definition duration_since (t t0 : Z) : Duration :=
  let d := Z.max 0 (t - t0) in mkDuration (d / 1000000000) (d mod 1000000000).

Definition in_mega (v : Z) : f64 := f64_div (f64_of_Z v) (f64_of_Z 1000000).
Definition in_ms (v : Z) : f64 := f64_div (f64_of_Z v) (f64_of_Z 1000).

(** [Stats::format_line]: [el] is the time since the start, [s] what the counters hold while
    the line is formatted. *)
Definition format_line (s : Stats) (role : string) (el dt : f64) (prev cur : Snapshot) : string :=
  if bool_decide (role = "send") then
    "t=" +:+ fixed 1 el +:+ " role=send wire_mbps=" +:+
    fixed 1 (mbps (wrap 64 (sn_bytes_sent cur - sn_bytes_sent prev)) dt) +:+ " target_mbps=" +:+
    fixed 1 (in_mega (s target_rate_bps)) +:+ " pkts=" +:+ pretty (s packets_sent) +:+ " retrans=" +:+
    pretty (s retrans_sent) +:+ " nacks_in=" +:+ pretty (s nacks_recv) +:+ " rexq=" +:+
    pretty (s rex_queue_len) +:+ " hicontig=" +:+ pretty (s hi_contig) +:+ "/" +:+ pretty (s total_blocks)
  else
    let pr := s packets_recv in
    let loss := if 0 <? pr then f64_mul (f64_div (f64_of_Z (s dup_recv)) (f64_of_Z pr)) (f64_of_Z 100)
                else f64_zero in
    let srtt_net := s srtt_net_us in
    let base := s base_rtt_us in
    "t=" +:+ fixed 1 el +:+ " role=recv wire_mbps=" +:+
    fixed 1 (mbps (wrap 64 (sn_bytes_recv cur - sn_bytes_recv prev)) dt) +:+ " goodput_mbps=" +:+
    fixed 1 (mbps (wrap 64 (sn_payload_recv cur - sn_payload_recv prev)) dt) +:+ " pkts=" +:+ pretty pr +:+
    " dup=" +:+ pretty (s dup_recv) +:+ "(" +:+ fixed 2 loss +:+ "%) corrupt=" +:+ pretty (s corrupt_recv) +:+
    " nacks_out=" +:+ pretty (s nacks_sent) +:+ " losstab=" +:+ pretty (s rex_queue_len) +:+
    " srtt_path_ms=" +:+ fixed 1 (in_ms (s srtt_path_us)) +:+ " srtt_net_ms=" +:+ fixed 1 (in_ms srtt_net) +:+
    " base_ms=" +:+ fixed 1 (in_ms base) +:+ " rto_ms=" +:+ fixed 1 (in_ms (s rto_us)) +:+
    " qdelay_ms=" +:+ fixed 1 (qdelay_ms srtt_net base) +:+ " target_mbps=" +:+
    fixed 1 (in_mega (s target_rate_bps)) +:+ " hicontig=" +:+ pretty (s hi_contig) +:+ "/" +:+
    pretty (s total_blocks).

(** [Stats::summary], [elapsed] after the start.  [None] is the loop bound of [human_bytes]. *)
Definition summary (s : Stats) (role : string) (elapsed : Duration) : outcome (option string) :=
  let el := as_secs_f64 elapsed in
  let el := if f64_le el f64_zero then f64_ratio 1 1000000000 else el in
  let rate (bytes : Z) :=
    f64_div (f64_div (f64_mul (f64_of_Z bytes) (f64_of_Z 8)) (f64_of_Z 1000000)) el in
  h ← human_bytes (s total_bytes);
  match h with
  | None => Done None
  | Some h =>
      Done (Some (
        if bool_decide (role = "send") then
          "girth send complete: " +:+ human_text h +:+ " in " +:+ fixed 2 el +:+ "s (wire " +:+
          fixed 1 (rate (s bytes_sent)) +:+ " Mbps) | pkts=" +:+ pretty (s packets_sent) +:+ " retrans=" +:+
          pretty (s retrans_sent) +:+ " (" +:+ fixed 2 (pct (s retrans_sent) (s packets_sent)) +:+
          "%) nacks_in=" +:+ pretty (s nacks_recv)
        else
          "girth recv complete: " +:+ human_text h +:+ " in " +:+ fixed 2 el +:+ "s (goodput " +:+
          fixed 1 (rate (s payload_recv)) +:+ " Mbps, wire " +:+ fixed 1 (rate (s bytes_recv)) +:+
          " Mbps) | pkts=" +:+ pretty (s packets_recv) +:+ " dup=" +:+ pretty (s dup_recv) +:+ " (" +:+
          fixed 2 (pct (s dup_recv) (s packets_recv)) +:+ "%) corrupt=" +:+ pretty (s corrupt_recv) +:+
          " nacks_out=" +:+ pretty (s nacks_sent)))
  end.

(** ** The reporter thread *)

(** The nap of [run_reporter] between looks at the stop flag, in nanoseconds. *)
Definition reporter_slice (interval : Z) : Z := Z.min 50000000 interval.

(** What a pass finds after its nap: the stop flag, the clock when it looks at the time since
    the last report, the clock and the counters of its snapshot, the time since the start and
    the counters while it formats the line, and the clock after it. *)
Record Wake := mkWake {
  wk_stop : bool;
  wk_now : Z;
  wk_t : Z;
  wk_stats : Stats;
  wk_elapsed : Duration;
  wk_live : Stats;
  wk_after : Z
}.

(** A report: the two snapshots it compares, its text, and the clock when it is out. *)
Record Report := mkReport { rp_prev : Snapshot; rp_cur : Snapshot; rp_line : string; rp_at : Z }.

(** One pass: [None] when the thread returns. *)
Definition reporter_turn (role : string) (interval : Z) (w : Wake) (prev : Snapshot) (last : Z)
    : option (Snapshot * Z * option Report) :=
  if wk_stop w then None else
  if Z.max 0 (wk_now w - last) <? interval then Some (prev, last, None) else
  let cur := snap (wk_stats w) (wk_t w) in
  let dt := as_secs_f64 (duration_since (sn_t cur) (sn_t prev)) in
  let dt := if f64_le dt f64_zero then as_secs_f64 (duration_since interval 0) else dt in
  Some (cur, wk_after w,
        Some (mkReport prev cur (format_line (wk_live w) role (as_secs_f64 (wk_elapsed w)) dt prev cur) (wk_after w))).

(** [Stats::run_reporter] over the passes it makes: the reports, and whether it returned. *)
Fixpoint run_reporter (role : string) (interval : Z) (ws : list Wake) (prev : Snapshot) (last : Z)
    : list Report * bool :=
  match ws with
  | [] => ([], false)
  | w :: ws =>
      match reporter_turn role interval w prev last with
      | None => ([], true)
      | Some (prev, last, r) =>
          let '(rs, stopped) := run_reporter role interval ws prev last in
          (match r with Some r => r :: rs | None => rs end, stopped)
      end
  end.

(** ** The line is parseable *)

Definition send_fields (s : Stats) (el dt : f64) (prev cur : Snapshot) : list (string * string) :=
  [("t", fixed 1 el); ("role", "send");
   ("wire_mbps", fixed 1 (mbps (wrap 64 (sn_bytes_sent cur - sn_bytes_sent prev)) dt));
   ("target_mbps", fixed 1 (in_mega (s target_rate_bps))); ("pkts", pretty (s packets_sent));
   ("retrans", pretty (s retrans_sent)); ("nacks_in", pretty (s nacks_recv));
   ("rexq", pretty (s rex_queue_len)); ("hicontig", pretty (s hi_contig) +:+ "/" +:+ pretty (s total_blocks))].

Definition recv_fields (s : Stats) (el dt : f64) (prev cur : Snapshot) : list (string * string) :=
  [("t", fixed 1 el); ("role", "recv");
   ("wire_mbps", fixed 1 (mbps (wrap 64 (sn_bytes_recv cur - sn_bytes_recv prev)) dt));
   ("goodput_mbps", fixed 1 (mbps (wrap 64 (sn_payload_recv cur - sn_payload_recv prev)) dt));
   ("pkts", pretty (s packets_recv));
   ("dup", pretty (s dup_recv) +:+ "(" +:+ fixed 2 (pct (s dup_recv) (s packets_recv)) +:+ "%)");
   ("corrupt", pretty (s corrupt_recv)); ("nacks_out", pretty (s nacks_sent));
   ("losstab", pretty (s rex_queue_len)); ("srtt_path_ms", fixed 1 (in_ms (s srtt_path_us)));
   ("srtt_net_ms", fixed 1 (in_ms (s srtt_net_us))); ("base_ms", fixed 1 (in_ms (s base_rtt_us)));
   ("rto_ms", fixed 1 (in_ms (s rto_us))); ("qdelay_ms", fixed 1 (qdelay_ms (s srtt_net_us) (s base_rtt_us)));
   ("target_mbps", fixed 1 (in_mega (s target_rate_bps)));
   ("hicontig", pretty (s hi_contig) +:+ "/" +:+ pretty (s total_blocks))].

Lemma send_line_shape a b c d e f g h i :
  "t=" +:+ a +:+ " role=send wire_mbps=" +:+ b +:+ " target_mbps=" +:+ c +:+ " pkts=" +:+ d +:+ " retrans=" +:+
    e +:+ " nacks_in=" +:+ f +:+ " rexq=" +:+ g +:+ " hicontig=" +:+ h +:+ "/" +:+ i =
  show_fields [("t", a); ("role", "send"); ("wire_mbps", b); ("target_mbps", c); ("pkts", d); ("retrans", e);
               ("nacks_in", f); ("rexq", g); ("hicontig", h +:+ "/" +:+ i)].
Proof. unfold show_fields, show_field. cbn [fst snd]. by rewrite !string_app_assoc. Qed.

Lemma recv_line_shape a b c d e f g h i j k l m n o p q :
  "t=" +:+ a +:+ " role=recv wire_mbps=" +:+ b +:+ " goodput_mbps=" +:+ c +:+ " pkts=" +:+ d +:+ " dup=" +:+ e +:+ "(" +:+ f +:+
    "%) corrupt=" +:+ g +:+ " nacks_out=" +:+ h +:+ " losstab=" +:+ i +:+ " srtt_path_ms=" +:+ j +:+ " srtt_net_ms=" +:+
    k +:+ " base_ms=" +:+ l +:+ " rto_ms=" +:+ m +:+ " qdelay_ms=" +:+ n +:+ " target_mbps=" +:+ o +:+ " hicontig=" +:+
    p +:+ "/" +:+ q =
  show_fields [("t", a); ("role", "recv"); ("wire_mbps", b); ("goodput_mbps", c); ("pkts", d);
               ("dup", e +:+ "(" +:+ f +:+ "%)"); ("corrupt", g); ("nacks_out", h); ("losstab", i); ("srtt_path_ms", j);
               ("srtt_net_ms", k); ("base_ms", l); ("rto_ms", m); ("qdelay_ms", n); ("target_mbps", o);
               ("hicontig", p +:+ "/" +:+ q)].
Proof. unfold show_fields, show_field. cbn [fst snd]. by rewrite !string_app_assoc. Qed.

(** A field with one of the program's keys and a number, or numbers with marks between. *)
Lemma free_of_app c s t : free_of c (s +:+ t) = free_of c s && free_of c t.
Proof. apply all_chars_app. Qed.
Lemma field_ok_intro k v : free_of " " k && free_of "=" k = true → free_of " " v = true → field_ok (k, v) = true.
Proof. intros Hk Hv. unfold field_ok. cbn [fst snd]. by rewrite Hk, Hv. Qed.

Ltac fields_ok :=
  unfold send_fields, recv_fields; cbn [forallb]; rewrite !andb_true_iff; split_and!; try reflexivity;
  (apply field_ok_intro; [reflexivity|]; rewrite ?free_of_app, ?pretty_free, ?fixed_free; reflexivity).

(** C34: the report line is what its documentation says, parseable.  For any counters, role and
    times, splitting the line at spaces and every word at its first equals sign gives back
    the fields of the role, in order: each counter in full, and each rate and time to the
    places shown. *)
Theorem report_line_parses s role el dt prev cur :
  wf_stats s →
  parse_line (format_line s role el dt prev cur) =
  Some (if bool_decide (role = "send") then send_fields s el dt prev cur else recv_fields s el dt prev cur).
Proof.
  intros Hwf. unfold format_line. case_bool_decide.
  - rewrite send_line_shape. apply parse_show_fields; [done|]. fields_ok.
  - cbv zeta. rewrite recv_line_shape.
    assert ((if 0 <? s packets_recv then f64_mul (f64_div (f64_of_Z (s dup_recv)) (f64_of_Z (s packets_recv))) (f64_of_Z 100)
             else f64_zero) = pct (s dup_recv) (s packets_recv)) as ->.
    { unfold pct. destruct (Hwf packets_recv ltac:(done)) as [? _].
      destruct (Z.ltb_spec 0 (s packets_recv)), (Z.eqb_spec (s packets_recv) 0); [lia|done|done|lia]. }
    apply parse_show_fields; [done|]. fields_ok.
Qed.

(** ** The reporter accounts for everything *)

(** Each report starts where the one before ended. *)
Fixpoint chained (prev : Snapshot) (rs : list Report) : Prop :=
  match rs with [] => True | r :: rs => rp_prev r = prev ∧ chained (rp_cur r) rs end.
Fixpoint last_snap (prev : Snapshot) (rs : list Report) : Snapshot :=
  match rs with [] => prev | r :: rs => last_snap (rp_cur r) rs end.
Definition reported (f : Snapshot → Z) (rs : list Report) : Z :=
  foldr (λ r acc, f (rp_cur r) - f (rp_prev r) + acc) 0 rs.

(** The monotonic clock over the passes. *)
Fixpoint clocked (t : Z) (ws : list Wake) : Prop :=
  match ws with
  | [] => True
  | w :: ws => t ≤ wk_now w ≤ wk_t w ∧ wk_t w ≤ wk_after w ∧ clocked (wk_after w) ws
  end.

Fixpoint last_at (last : Z) (rs : list Report) : Z :=
  match rs with [] => last | r :: rs => last_at (rp_at r) rs end.

Lemma chained_reported f rs : ∀ prev, chained prev rs → reported f rs = f (last_snap prev rs) - f prev.
Proof.
  induction rs as [|r rs IH]; intros prev; [simpl; lia|]. intros [<- Hc]. simpl. rewrite (IH _ Hc). simpl. lia.
Qed.

(** Passes one after the other. *)
Lemma run_reporter_app role interval ws1 ws2 : ∀ prev last, existsb wk_stop ws1 = false →
  let rs1 := (run_reporter role interval ws1 prev last).1 in
  let r2 := run_reporter role interval ws2 (last_snap prev rs1) (last_at last rs1) in
  run_reporter role interval (ws1 ++ ws2) prev last = (rs1 ++ r2.1, r2.2).
Proof.
  induction ws1 as [|w ws1 IH]; intros prev last Hs; cbn [run_reporter app].
  { simpl. by destruct (run_reporter role interval ws2 prev last). }
  simpl in Hs. apply orb_false_iff in Hs as [Hw Hs]. unfold reporter_turn. rewrite Hw.
  destruct (_ <? interval).
  - specialize (IH prev last Hs). simpl in IH. rewrite IH.
    destruct (run_reporter role interval ws1 prev last) as [rs1 b1]. done.
  - set (cur := snap _ _). specialize (IH cur (wk_after w) Hs). simpl in IH. rewrite IH.
    destruct (run_reporter role interval ws1 cur (wk_after w)) as [rs1 b1]. done.
Qed.

Lemma run_reporter_chain role interval ws : ∀ prev last,
  let r := run_reporter role interval ws prev last in
  r.2 = existsb wk_stop ws ∧ chained prev r.1 ∧
  (clocked last ws → sn_t prev ≤ last → Forall (λ r, interval ≤ sn_t (rp_cur r) - sn_t (rp_prev r)) r.1).
Proof.
  induction ws as [|w ws IH]; intros prev last; cbn [run_reporter].
  { split_and!; try done. }
  unfold reporter_turn. destruct (wk_stop w) eqn:Hw; [simpl; rewrite Hw; split_and!; by try constructor|].
  destruct (Z.ltb_spec (Z.max 0 (wk_now w - last)) interval) as [Hlt|Hge].
  - destruct (IH prev last) as (Hb & Hc & Hf). destruct (run_reporter role interval ws prev last) as [rs b].
    simpl in *. rewrite Hw. split_and!; [done|done|]. intros ([??] & ? & Hcl) ?. apply Hf; [|done].
    destruct ws; [done|]. simpl in *. destruct Hcl as ([??] & ? & ?). split_and!; try done; lia.
  - set (cur := snap _ _). destruct (IH cur (wk_after w)) as (Hb & Hc & Hf).
    destruct (run_reporter role interval ws cur (wk_after w)) as [rs b].
    simpl in *. rewrite Hw. split_and!; [done|done|done|]. intros ([??] & ? & Hcl) ?.
    constructor; [simpl; lia|]. apply Hf; [done|]. simpl. lia.
Qed.

(** Result: the reporter accounts for everything and is on time.  Over any passes of the reporter
    thread it returns exactly at the first pass that finds the stop flag set; each report
    starts at the snapshot where the one before ended, so the bytes reported add up to what
    the counters gained; with a monotonic clock no report covers less than the interval;
    and a pass that runs at least the interval after the last report, and only such a pass,
    reports. *)
Theorem reporter_accounts role interval ws prev last :
  let r := run_reporter role interval ws prev last in
  r.2 = existsb wk_stop ws ∧ chained prev r.1 ∧
  (∀ f, reported f r.1 = f (last_snap prev r.1) - f prev) ∧
  (clocked last ws → sn_t prev ≤ last → Forall (λ r, interval ≤ sn_t (rp_cur r) - sn_t (rp_prev r)) r.1) ∧
  (∀ ws1 w ws2, ws = ws1 ++ w :: ws2 → existsb wk_stop (ws1 ++ [w]) = false →
     let rs1 := (run_reporter role interval ws1 prev last).1 in
     ∃ rs2, r.1 = rs1 ++ rs2 ∧
       (interval ≤ Z.max 0 (wk_now w - last_at last rs1) →
          ∃ rw rs3, rs2 = rw :: rs3 ∧ rp_cur rw = snap (wk_stats w) (wk_t w) ∧ rp_at rw = wk_after w) ∧
       (Z.max 0 (wk_now w - last_at last rs1) < interval →
          rs2 = (run_reporter role interval ws2 (last_snap prev rs1) (last_at last rs1)).1)).
Proof.
  intros r. destruct (run_reporter_chain role interval ws prev last) as (Hb & Hc & Hf). split_and!; try done.
  { intros f. by apply chained_reported. }
  intros ws1 w ws2 -> Hs rs1. rewrite existsb_app in Hs. apply orb_false_iff in Hs as [Hs1 Hs2].
  simpl in Hs2. rewrite orb_false_r in Hs2. unfold r. rewrite (run_reporter_app _ _ _ _ _ _ Hs1).
  cbn [fst]. eexists. split; [done|]. fold rs1. cbn [run_reporter]. unfold reporter_turn. rewrite Hs2.
  destruct (Z.ltb_spec (Z.max 0 (wk_now w - last_at last rs1)) interval) as [Hlt|Hge]; (split; [intros|intros]); try lia.
  - by destruct (run_reporter role interval ws2 (last_snap prev rs1) (last_at last rs1)).
  - set (cur := snap _ _). destruct (run_reporter role interval ws2 cur (wk_after w)) as [rs b]. by eexists _, _.
Qed.

(** The summary is always there. *)
Lemma summary_total s role elapsed : wf_stats s → ∃ text, summary s role elapsed = Done (Some text).
Proof.
  intros Hwf. unfold summary. destruct (human_bytes_done (s total_bytes)) as (h & -> & _); [by apply Hwf|].
  by eexists.
Qed.

(** ** Small reports *)

Definition demo_stats : Stats :=
  stats_store packets_recv 40 (stats_store dup_recv 1 (stats_store bytes_recv 50000 stats_default)).

Lemma report_line_parses_witness :
  parse_line (format_line demo_stats "recv" (f64_of_Z 2) (f64_of_Z 1) (snap stats_default 0) (snap demo_stats 1000000000)) =
  Some (recv_fields demo_stats (f64_of_Z 2) (f64_of_Z 1) (snap stats_default 0) (snap demo_stats 1000000000)).
Proof.
  apply (report_line_parses demo_stats "recv" (f64_of_Z 2) (f64_of_Z 1) (snap stats_default 0) (snap demo_stats 1000000000)).
  intros [] _; vm_compute; done.
Defined.

(** The line as printed. *)
Example demo_line :
  format_line demo_stats "recv" (f64_of_Z 2) (f64_ratio 1 4) (snap stats_default 0) (snap demo_stats 1000000000) =
  "t=2.0 role=recv wire_mbps=1.6 goodput_mbps=0.0 pkts=40 dup=1(2.50%) corrupt=0 nacks_out=0 losstab=0 srtt_path_ms=0.0 srtt_net_ms=0.0 base_ms=0.0 rto_ms=0.0 qdelay_ms=0.0 target_mbps=0.0 hicontig=0/0".
Proof. vm_compute. done. Qed.
