(* ===== verification/Runtime.v ===== *)
(** * Transfer control and lifecycle (src/runtime.rs)

    [TransferControl] carries the caller's live controls (rate limit, pause, cancel);
    [TransferHandle] adds the lifecycle phase and the last error.  A handle is shared: each
    method is the sequence of its accesses to the shared fields, and a reader may look between
    any two of them. *)

From S2P Require Import Prelude Float64 Stats.

Definition PHASE_QUEUED : Z := 0.
Definition PHASE_CONNECTING : Z := 1.
Definition PHASE_TRANSFERRING : Z := 2.
Definition PHASE_VERIFYING : Z := 3.
Definition PHASE_COMPLETE : Z := 4.
Definition PHASE_FAILED : Z := 5.
Definition PAUSED_RATE_BPS : Z := 1000000.

Inductive TransferPhase := Queued | Connecting | Transferring | Verifying | Complete | Failed.

Global Instance TransferPhase_eq_dec : EqDecision TransferPhase.
Proof. solve_decision. Defined.

Definition as_u8 (p : TransferPhase) : Z :=
  match p with
  | Queued => PHASE_QUEUED
  | Connecting => PHASE_CONNECTING
  | Transferring => PHASE_TRANSFERRING
  | Verifying => PHASE_VERIFYING
  | Complete => PHASE_COMPLETE
  | Failed => PHASE_FAILED
  end.

Definition from_u8 (v : Z) : TransferPhase :=
  if v =? PHASE_CONNECTING then Connecting
  else if v =? PHASE_TRANSFERRING then Transferring
  else if v =? PHASE_VERIFYING then Verifying
  else if v =? PHASE_COMPLETE then Complete
  else if v =? PHASE_FAILED then Failed
  else Queued.

Record TransferControl := mkTransferControl {
  tc_rate_limit_bps : Z;
  tc_paused : bool;
  tc_cancelled : bool
}.

Definition control_new : TransferControl := mkTransferControl 0 false false.

Definition set_rate_limit (c : TransferControl) (bps : option Z) : TransferControl :=
  mkTransferControl (default 0 bps) (tc_paused c) (tc_cancelled c).

Definition rate_limit_bps (c : TransferControl) : option Z :=
  if tc_rate_limit_bps c =? 0 then None else Some (tc_rate_limit_bps c).

Definition pause (c : TransferControl) : TransferControl :=
  mkTransferControl (tc_rate_limit_bps c) true (tc_cancelled c).
Definition resume (c : TransferControl) : TransferControl :=
  mkTransferControl (tc_rate_limit_bps c) false (tc_cancelled c).
Definition cancel (c : TransferControl) : TransferControl :=
  mkTransferControl (tc_rate_limit_bps c) (tc_paused c) true.

(** [TransferControl::effective_rate_bps]. *)
Definition effective_rate_bps (c : TransferControl) (base : Z) : Z :=
  if tc_paused c then Z.min PAUSED_RATE_BPS (Z.max base 1) else
  match rate_limit_bps c with
  | Some limit => Z.min base (Z.max limit 1)
  | None => base
  end.

(** [effective_rate] and [should_stop] of the data-plane loops, where the control is
    optional. *)
Definition effective_rate (control : option TransferControl) (rate : Z) : Z :=
  match control with Some c => effective_rate_bps c rate | None => rate end.
Definition should_stop (stop : bool) (control : option TransferControl) : bool :=
  stop || match control with Some c => tc_cancelled c | None => false end.
Definition is_paused (control : option TransferControl) : bool :=
  match control with Some c => tc_paused c | None => false end.

Record TransferHandle := mkTransferHandle {
  th_stats : Stats;
  th_control : TransferControl;
  th_phase : Z;
  th_last_error : option string
}.

Definition handle_default : TransferHandle :=
  mkTransferHandle stats_default control_new PHASE_QUEUED None.

Definition handle_phase (h : TransferHandle) : TransferPhase := from_u8 (th_phase h).

(** The accesses of a caller to the handle: the error under its lock, the atomic phase, and the
    atomics of the control. *)
Inductive access :=
| SetError (e : option string)
| StorePhase (v : Z)
| Control (f : TransferControl → TransferControl).

Definition access_apply (h : TransferHandle) (a : access) : TransferHandle :=
  match a with
  | SetError e => mkTransferHandle (th_stats h) (th_control h) (th_phase h) e
  | StorePhase v => mkTransferHandle (th_stats h) (th_control h) v (th_last_error h)
  | Control f => mkTransferHandle (th_stats h) (f (th_control h)) (th_phase h) (th_last_error h)
  end.

(** [TransferHandle::set_phase]: leaving a failure clears the error, then the phase is stored. *)
Definition phase_accesses (p : TransferPhase) : list access :=
  (if decide (p = Failed) then [] else [SetError None]) ++ [StorePhase (as_u8 p)].
Definition set_phase (h : TransferHandle) (p : TransferPhase) : TransferHandle :=
  foldl access_apply h (phase_accesses p).

(** [TransferHandle::set_failed]: the error, then the phase. *)
Definition failed_accesses (err : string) : list access := [SetError (Some err); StorePhase PHASE_FAILED].
Definition set_failed (h : TransferHandle) (err : string) : TransferHandle :=
  foldl access_apply h (failed_accesses err).

(** The calls the control methods of the handle delegate to. *)
Definition handle_control (f : TransferControl → TransferControl) (h : TransferHandle)
    : TransferHandle :=
  mkTransferHandle (th_stats h) (f (th_control h)) (th_phase h) (th_last_error h).

(** ** Rates under control *)

(** Result: the live controls only ever slow a transfer down, never stop it: the effective
    rate is at most the base rate (or the minimal 1 bit/s), at most 1 Mbit/s when paused,
    at most the limit when one is set, and stays positive for a positive base. *)
Theorem effective_rate_bounds control base :
  0 ≤ base →
  let r := effective_rate control base in
  0 ≤ r ≤ Z.max base 1 ∧ (0 < base → 0 < r) ∧
  (is_paused control = true → r ≤ PAUSED_RATE_BPS) ∧
  (∀ c l, control = Some c → tc_paused c = false → rate_limit_bps c = Some l → 0 < l → r ≤ l) ∧
  (is_paused control = false → (∀ c, control = Some c → rate_limit_bps c = None) → r = base).
Proof.
  intros Hb. unfold effective_rate, is_paused, effective_rate_bps, PAUSED_RATE_BPS.
  destruct control as [c|]; cbn zeta.
  - destruct (tc_paused c) eqn:Ep.
    + split_and!; try lia; intros; simplify_eq; congruence.
    + destruct (rate_limit_bps c) as [l|] eqn:El.
      * split_and!; try lia; try done.
        -- intros c' l' ? _ Hl Hp. simplify_eq. lia.
        -- intros _ H. specialize (H c eq_refl). congruence.
      * split_and!; try lia; try done. intros; simplify_eq; congruence.
  - split_and!; try lia; done.
Qed.

Lemma effective_rate_bounds_witness :
  let c := Some (pause (set_rate_limit control_new (Some 500000))) in
  0 ≤ effective_rate c 80000000 ≤ Z.max 80000000 1 ∧ (0 < 80000000 → 0 < effective_rate c 80000000) ∧
  (is_paused c = true → effective_rate c 80000000 ≤ PAUSED_RATE_BPS) ∧
  (∀ c' l, c = Some c' → tc_paused c' = false → rate_limit_bps c' = Some l → 0 < l →
     effective_rate c 80000000 ≤ l) ∧
  (is_paused c = false → (∀ c', c = Some c' → rate_limit_bps c' = None) →
     effective_rate c 80000000 = 80000000).
Proof. apply effective_rate_bounds. lia. Defined.

Lemma effective_rate_nonneg control base :
  0 ≤ base → 0 ≤ effective_rate control base ≤ Z.max base 1.
Proof.
  intros. unfold effective_rate, effective_rate_bps, PAUSED_RATE_BPS. destruct control as [c|]; [|lia].
  destruct (tc_paused c); [lia|]. destruct (rate_limit_bps c); lia.
Qed.

(** ** Lifecycle *)

Lemma phase_roundtrip p : from_u8 (as_u8 p) = p.
Proof. by destruct p. Qed.

(** The calls that reach a handle. *)
Inductive handle_call :=
| CallPhase (p : TransferPhase) | CallFailed (err : string) | CallControl (f : TransferControl → TransferControl).

Definition call_accesses (c : handle_call) : list access :=
  match c with
  | CallPhase p => phase_accesses p
  | CallFailed err => failed_accesses err
  | CallControl f => [Control f]
  end.

Definition handle_apply (h : TransferHandle) (c : handle_call) : TransferHandle :=
  foldl access_apply h (call_accesses c).

(** The phase and the error a history of calls means. *)
Definition life_step (s : TransferPhase * option string) (c : handle_call) : TransferPhase * option string :=
  match c with
  | CallPhase p => (p, None)
  | CallFailed err => (Failed, Some err)
  | CallControl _ => s
  end.
Definition life (calls : list handle_call) : TransferPhase * option string := foldl life_step (Queued, None) calls.

(** What a reader sees of a handle. *)
Definition view (h : TransferHandle) : TransferPhase * option string := (handle_phase h, th_last_error h).

Lemma handle_apply_view h c : c ≠ CallPhase Failed → view (handle_apply h c) = life_step (view h) c.
Proof.
  intros Hc. destruct c as [p|err|f]; [|done|by destruct h].
  unfold handle_apply, call_accesses, phase_accesses. rewrite decide_False by congruence.
  unfold view. simpl. by rewrite <-(phase_roundtrip p) at 2.
Qed.

Lemma handle_apply_all calls : Forall (λ c, c ≠ CallPhase Failed) calls →
  view (foldl handle_apply handle_default calls) = life calls.
Proof.
  unfold life. change (Queued, None) with (view handle_default). generalize handle_default.
  induction calls as [|c calls IH]; intros h Hall; [done|]. apply Forall_cons in Hall as [Hc Hall]. simpl.
  rewrite IH by done. by rewrite handle_apply_view.
Qed.

Lemma life_failed calls : Forall (λ c, c ≠ CallPhase Failed) calls →
  (life calls).1 = Failed ↔ is_Some (life calls).2.
Proof.
  intros Hall. induction calls as [|c calls IH] using rev_ind; [split; [done|by intros []]|].
  apply Forall_app in Hall as [Hall Hc]. apply Forall_cons in Hc as [Hc _]. unfold life. rewrite foldl_app. simpl.
  destruct c as [p|err|f]; simpl; [|by split; [eexists|]|by apply IH].
  split; [intros ->; by destruct Hc|by intros []].
Qed.

(** Some accesses of a history are whole calls, and perhaps the first access of the next. *)
Lemma accesses_prefix calls : ∀ (k : nat),
  ∃ before after, calls = before ++ after ∧
    (take k (calls ≫= call_accesses) = before ≫= call_accesses ∨
     ∃ c a rest, after = c :: rest ∧ take k (calls ≫= call_accesses) = (before ≫= call_accesses) ++ [a] ∧
       ∃ b, call_accesses c = [a; b]).
Proof.
  induction calls as [|c calls IH]; intros k; [exists [], []; split; [done|]; left; by destruct k|].
  cbn [mbind list_bind].
  destruct (decide (k < length (call_accesses c))%nat) as [Hlt|Hge].
  - exists [], (c :: calls). split; [done|]. rewrite take_app_le by lia.
    assert (length (call_accesses c) ≤ 2)%nat as Hl by (destruct c as [[]| |]; simpl; lia).
    destruct k as [|[|k]]; [by left| |lia]. right.
    destruct (call_accesses c) as [|a [|b [|]]] eqn:Ec; simpl in *; try lia.
    exists c, a, calls. split; [done|]. split; [done|]. by exists b.
  - rewrite take_app_ge by lia. destruct (IH (k - length (call_accesses c))%nat) as (before & after & -> & Hb).
    exists (c :: before), after. split; [done|]. cbn [mbind list_bind].
    destruct Hb as [->|(c' & a & rest & -> & -> & Hc)]; [by left|right].
    exists c', a, rest. split; [done|]. split; [by rewrite app_assoc|done].
Qed.

Lemma foldl_calls h calls : foldl access_apply h (calls ≫= call_accesses) = foldl handle_apply h calls.
Proof.
  revert h. induction calls as [|c calls IH]; intros h; [done|]. cbn [mbind list_bind foldl]. rewrite foldl_app. apply IH.
Qed.

(** C40: what a reader sees of a handle one transfer writes to.  Take any history of its calls in
    which failures go through [set_failed], and look after any number of its accesses to the
    shared fields.  The phase is the last one set by some initial part of the calls.  Between
    calls the error is that of these calls, and it is there exactly when the phase is [Failed];
    a reader who looks in the middle of the next call, between its two accesses, sees that
    call's error with the phase before it, and nothing else. *)
Theorem handle_error_iff_failed calls (k : nat) :
  Forall (λ c, c ≠ CallPhase Failed) calls →
  let h := foldl access_apply handle_default (take k (calls ≫= call_accesses)) in
  ∃ before after, calls = before ++ after ∧ handle_phase h = (life before).1 ∧
    ((life before).1 = Failed ↔ is_Some (life before).2) ∧
    (h = foldl handle_apply handle_default before ∧ th_last_error h = (life before).2 ∨
     ∃ c rest, after = c :: rest ∧ length (call_accesses c) = 2%nat ∧ th_last_error h = (life (before ++ [c])).2) ∧
    ((length (calls ≫= call_accesses) ≤ k)%nat → h = foldl handle_apply handle_default calls ∧ view h = life calls).
Proof.
  intros Hall h. destruct (accesses_prefix calls k) as (before & after & E & Hk).
  assert (Forall (λ c, c ≠ CallPhase Failed) before) as Hb by (rewrite E in Hall; by apply Forall_app in Hall as [? _]).
  pose proof (handle_apply_all before Hb) as Hv.
  assert ((length (calls ≫= call_accesses) ≤ k)%nat → h = foldl handle_apply handle_default calls ∧ view h = life calls) as Hend.
  { intros Hle. unfold h. rewrite take_ge, foldl_calls by done. split; [done|]. by apply handle_apply_all. }
  exists before, after. destruct Hk as [Hk|(c & a & rest & -> & Hk & b & Hc)]; unfold h in *; rewrite Hk in *.
  - rewrite foldl_calls in *. split_and!; try done; [by rewrite <-Hv|apply life_failed..|]; try done. left. by rewrite <-Hv.
  - rewrite foldl_app, foldl_calls in *. rewrite E in Hall. apply Forall_app in Hall as [_ [Hne _]%Forall_cons].
    split_and!; try done; try (by apply life_failed).
    + rewrite <-Hv. destruct c as [[]|err|f]; simpl in Hc; try done; by injection Hc as <- _.
    + right. exists c, rest. split; [done|]. rewrite Hc. split; [done|]. unfold life. rewrite foldl_app.
      destruct c as [[]|err|f]; simpl in Hc; try done; by injection Hc as <- _.
Qed.

Lemma handle_error_iff_failed_witness :
  let calls := [CallPhase Connecting; CallFailed "boom"; CallPhase Connecting; CallPhase Complete] in
  let h := foldl access_apply handle_default (take 3 (calls ≫= call_accesses)) in
  view h = (Connecting, Some "boom") ∧
  ∃ before after, calls = before ++ after ∧ handle_phase h = (life before).1.
Proof.
  split; [reflexivity|].
  destruct (handle_error_iff_failed [CallPhase Connecting; CallFailed "boom"; CallPhase Connecting; CallPhase Complete] 3)
    as (before & after & E & Hp & _); [by repeat constructor|]. exact (ex_intro _ before (ex_intro _ after (conj E Hp))).
Defined.

(** Two writers of one handle can leave it failed with no error. *)
Example shared_handle_race :
  view (foldl access_apply handle_default
          [SetError (Some "boom"); SetError None; StorePhase (as_u8 Complete); StorePhase PHASE_FAILED]) = (Failed, None).
Proof. reflexivity. Qed.
