(* ===== verification/Errors.v ===== *)
(** * Errors (src/error.rs)

    [io::Error] as its kind and message, the classified [GirthError], and the
    conversions between them.  Strings are byte strings. *)

From Stdlib Require Import Ascii.
From S2P Require Import Prelude.

(** The [io::ErrorKind]s the program creates or inspects; the rest are [OtherKind]. *)
Inductive io_kind :=
| TimedOut | WouldBlock | NotFoundKind | UnexpectedEof | ConnectionReset
| InvalidInput | AddrNotAvailable | WriteZero | Unsupported | OtherKind.

Global Instance io_kind_eq_dec : EqDecision io_kind.
Proof. solve_decision. Defined.

Record io_error := mkIoError { ie_kind : io_kind; ie_msg : string }.

Inductive GirthError :=
| Timeout | Stopped | AuthDenied | NotFound | VersionMismatch | Integrity
| ProtocolErr (s : string) | Io (e : io_error).

(** [GirthError::is_retryable]. *)
Definition is_retryable (e : GirthError) : bool :=
  match e with Timeout => true | _ => false end.

(** [str::to_ascii_lowercase] and [str::contains]. *)
Definition to_lower (c : ascii) : ascii :=
  let n := Ascii.nat_of_ascii c in
  if (65 <=? n)%nat && (n <=? 90)%nat then Ascii.ascii_of_nat (n + 32) else c.

Fixpoint to_ascii_lowercase (s : string) : string :=
  match s with
  | EmptyString => EmptyString
  | String c s' => String (to_lower c) (to_ascii_lowercase s')
  end.

Fixpoint str_contains (s pat : string) : bool :=
  String.prefix pat s ||
  match s with EmptyString => false | String _ s' => str_contains s' pat end.

(** [GirthError::from_server_err]. *)
Definition from_server_err (msg : string) : GirthError :=
  let m := to_ascii_lowercase msg in
  if str_contains m "version mismatch" then VersionMismatch
  else if str_contains m "auth" || str_contains m "denied" || str_contains m "unauthorized"
  then AuthDenied
  else if str_contains m "no such file" || str_contains m "not found" || str_contains m "notfound"
  then NotFound
  else ProtocolErr msg.

(** [Display for GirthError]. *)
Definition error_to_string (e : GirthError) : string :=
  match e with
  | Timeout => "transfer timed out"
  | Stopped => "transfer cancelled"
  | AuthDenied => "authentication denied"
  | NotFound => "object not found"
  | VersionMismatch => "protocol version mismatch"
  | Integrity => "integrity check failed (crc32c mismatch)"
  | ProtocolErr s => "protocol error: " +:+ s
  | Io e => "io error: " +:+ ie_msg e
  end.

(** [From<io::Error> for GirthError] and [From<GirthError> for io::Error]. *)
Definition from_io (e : io_error) : GirthError :=
  match ie_kind e with
  | TimedOut | WouldBlock => Timeout
  | NotFoundKind => NotFound
  | _ => Io e
  end.

Definition io_other (msg : string) : io_error := mkIoError OtherKind msg.

Definition into_io (e : GirthError) : io_error :=
  match e with
  | Io io => io
  | other => io_other (error_to_string other)
  end.

(** [sys::is_timeout]. *)
Definition is_timeout (e : io_error) : bool :=
  match ie_kind e with WouldBlock | TimedOut => true | _ => false end.

(** ** Classification *)

Lemma to_lower_idemp c : to_lower (to_lower c) = to_lower c.
Proof. by destruct c as [[] [] [] [] [] [] [] []]. Qed.

Lemma lowercase_idemp s : to_ascii_lowercase (to_ascii_lowercase s) = to_ascii_lowercase s.
Proof. induction s as [|c s IH]; simpl; [done|]. by rewrite to_lower_idemp, IH. Qed.

(** The class of a rejection, forgetting the text it carries. *)
Definition err_class (e : GirthError) : nat :=
  match e with
  | Timeout => 0 | Stopped => 1 | AuthDenied => 2 | NotFound => 3
  | VersionMismatch => 4 | Integrity => 5 | ProtocolErr _ => 6 | Io _ => 7
  end.

(** Result: only time-outs are retried: an I/O error becomes retryable exactly when the
    socket reports a time-out, a server's rejection never is, whatever its text, and
    the class of a rejection does not depend on letter case. *)
Theorem error_classification :
  (∀ e, is_retryable (from_io e) = is_timeout e) ∧
  (∀ msg, is_retryable (from_server_err msg) = false) ∧
  (∀ msg, err_class (from_server_err (to_ascii_lowercase msg)) = err_class (from_server_err msg)).
Proof.
  split_and!.
  - by intros [[] m].
  - intros msg. unfold from_server_err. repeat case_match; done.
  - intros msg. unfold from_server_err. rewrite lowercase_idemp. repeat case_match; done.
Qed.
