(* ===== verification/Helpers.v ===== *)
(** * Logging and helpers (src/log.rs, src/util.rs)

    The process-wide logger, which the first installation wins; the pacing loop's sleep, a
    coarse sleep and a busy tail; the trace line.  The clock is in microseconds where the
    code reads [now_micros], in nanoseconds for an [Instant]. *)

From stdpp Require Import pretty.
From S2P Require Import Prelude Float64 Errors Text Stats Report.

(** ** Logging *)

Inductive Level := Error | Warn | Info.
Definition level_str (l : Level) : string :=
  match l with Error => "error" | Warn => "warn" | Info => "info" end.

Section logging.
(** [W] is what a logger can change. *)
Context {W : Type}.

Definition LogFn : Type := Level → string → W → W.

(** The static [LOGGER]; [set_logger] and [log]. *)
Definition Logger : Type := option LogFn.
Definition set_logger (f : LogFn) (l : Logger) : Logger * bool :=
  match l with Some g => (Some g, false) | None => (Some f, true) end.
Definition log (l : Logger) (level : Level) (msg : string) (w : W) : W :=
  match l with Some f => f level msg w | None => w end.
Definition error (l : Logger) : string → W → W := log l Error.
Definition warn (l : Logger) : string → W → W := log l Warn.
Definition info (l : Logger) : string → W → W := log l Info.

(** The calls a process makes. *)
Inductive LogCall := SetLogger (f : LogFn) | LogMsg (level : Level) (msg : string).
Definition log_call (c : LogCall) (s : Logger * W) : Logger * W :=
  match c with
  | SetLogger f => ((set_logger f s.1).1, s.2)
  | LogMsg level msg => (s.1, log s.1 level msg s.2)
  end.
Definition log_calls (cs : list LogCall) (s : Logger * W) : Logger * W := foldl (λ s c, log_call c s) s cs.

(** The messages among some calls. *)
Definition deliver (f : LogFn) (cs : list LogCall) (w : W) : W :=
  foldl (λ w c, match c with LogMsg level msg => f level msg w | SetLogger _ => w end) w cs.

Lemma log_calls_set f cs w : log_calls cs (Some f, w) = (Some f, deliver f cs w).
Proof. revert w. induction cs as [|[g|level msg] cs IH]; intros w; [done|..]; exact (IH _). Qed.

Lemma log_calls_unset cs w : Forall (λ c, ∃ level msg, c = LogMsg level msg) cs → log_calls cs (None, w) = (None, w).
Proof. induction 1 as [|c cs (level & msg & ->) _ IH]; [done|]. exact IH. Qed.
End logging.

(** [init_stderr_logger], over the lines of stderr. *)
Definition stderr_line (level : Level) (msg : string) : string := "girth [" +:+ level_str level +:+ "] " +:+ msg.
Definition init_stderr_logger (l : Logger (W := list string)) : Logger :=
  (set_logger (λ level msg err, err ++ [stderr_line level msg]) l).1.

(** Result: the first logger wins.  A process that logs before any logger is installed writes
    nothing; from the first [set_logger] on, whatever is installed later, every message goes
    to that logger once and in order, and every further [set_logger] says it did nothing. *)
Theorem first_logger_wins {W : Type} (before after : list (LogCall (W := W))) f g w :
  Forall (λ c, ∃ level msg, c = LogMsg level msg) before →
  log_calls (before ++ SetLogger f :: after) (None, w) = (Some f, deliver f after w) ∧
  set_logger g (log_calls (before ++ SetLogger f :: after) (None, w)).1 = (Some f, false).
Proof.
  intros Hb. assert (log_calls (before ++ SetLogger f :: after) (None, w) = (Some f, deliver f after w)) as ->; [|done].
  unfold log_calls. rewrite foldl_app. fold (log_calls before (None, w)). rewrite log_calls_unset by done.
  apply (log_calls_set f after w).
Qed.

(** ** Helpers *)

(** [num_cpu], from what the system reports. *)
Definition num_cpu (parallelism : result Z io_error) : Z :=
  match parallelism with Ok n => n | Err _ => 1 end.

(** [trace] at instant [now]: the start it remembers, and the line, when [GIRTH_TRACE] is set. *)
Definition trace (set : bool) (start : option Z) (now : Z) (msg : string) : option Z * option string :=
  if set then
    let t0 := match start with Some t0 => t0 | None => now end in
    (Some t0, Some ("[trace +" +:+ fixed 3 (as_secs_f64 (duration_since now t0)) +:+ "s] " +:+ msg))
  else (start, None).

(** ** The pacing sleep *)

Definition SPIN_THRESHOLD_US : f64 := f64_of_Z 150.

(** [precise_sleep_us] before it waits: the deadline, and the coarse sleep it asks for. *)
Definition sleep_plan (us : f64) (now : Z) : option (Z * option Z) :=
  if f64_le us f64_zero then None else
  let spin := f64_mul us (f64_ratio 5 100) in
  let spin := if f64_gt spin SPIN_THRESHOLD_US then SPIN_THRESHOLD_US else spin in
  Some (wrap 64 (now + f64_to_u64 us),
        if f64_gt us spin then Some (f64_to_u64 (f64_sub us spin)) else None).

(** The busy loop over what the clock shows. *)
Fixpoint spin_until (deadline : Z) (polls : list Z) : option Z :=
  match polls with
  | [] => None
  | t :: polls => if t <? deadline then spin_until deadline polls else Some t
  end.

(** The clock when the sleep is over; [None] while the clock has not shown enough. *)
Definition precise_sleep_us (us : f64) (now : Z) (polls : list Z) : option Z :=
  match sleep_plan us now with
  | None => Some now
  | Some (deadline, _) => spin_until deadline polls
  end.

Lemma spin_until_spec d polls :
  match spin_until d polls with
  | Some t => t ∈ polls ∧ d ≤ t
  | None => ∀ t, t ∈ polls → t < d
  end.
Proof.
  induction polls as [|t polls IH]; cbn [spin_until]; [by intros t ?%not_elem_of_nil|].
  destruct (Z.ltb_spec t d); [|by split; [left|]]. destruct (spin_until d polls).
  - destruct IH. split; [by right|done].
  - intros t' [->|?]%elem_of_cons; auto.
Qed.

(** The spun tail: between nothing and the whole, and never over the threshold. *)
Lemma spin_bounds us :
  f64_valid us → f64_finite us → 0 < f64_num us →
  let s1 := f64_mul us (f64_ratio 5 100) in
  let spin := if f64_gt s1 SPIN_THRESHOLD_US then SPIN_THRESHOLD_US else s1 in
  f64_valid spin ∧ f64_finite spin ∧ 0 ≤ f64_num spin ≤ f64_num us ∧ f64_num spin ≤ 150 * 2 ^ 1074.
Proof.
  intros Hv Hf Hpos s1 spin. destruct (pos_float us Hv Hf Hpos) as (M & E & EM).
  assert (f64_valid (f64_ratio 5 100) ∧ f64_finite (f64_ratio 5 100)) as [Vc Fc] by (split; vm_compute; done).
  assert (0 < f64_num (f64_ratio 5 100) ≤ 2 ^ 1074) as Hc by (split; vm_compute; done).
  destruct (f64_mul_within us (f64_ratio 5 100) M E) as (F1 & B1 & S1 & _); [done|done|done|done|by rewrite <-EM| |].
  { rewrite <-EM. rewrite Z.abs_eq by (apply Z.mul_nonneg_nonneg; lia). apply Z.mul_le_mono_nonneg_l; lia. }
  rewrite <-EM in B1. fold s1 in F1, B1, S1. assert (0 ≤ f64_num s1) as H1 by (apply S1, Z.mul_nonneg_nonneg; lia).
  assert (f64_valid s1) as V1 by (by apply f64_mul_valid).
  assert (f64_valid SPIN_THRESHOLD_US ∧ f64_finite SPIN_THRESHOLD_US) as [Vt Ft] by (split; vm_compute; done).
  assert (f64_num SPIN_THRESHOLD_US = 150 * 2 ^ 1074) as Et by (vm_compute; done).
  unfold spin, f64_gt. rewrite f64_lt_num by done. pose proof (pow2_pos 1074 ltac:(lia)).
  destruct (Z.ltb_spec (f64_num SPIN_THRESHOLD_US) (f64_num s1)); split_and!; try done; lia.
Qed.

Lemma sleep_plan_bounds us now :
  f64_valid us → f64_finite us → 0 < f64_num us < 2 ^ 52 * 2 ^ 1074 →
  ∃ o, sleep_plan us now = Some (wrap 64 (now + f64_to_u64 us), o) ∧
    match o with Some s => f64_to_u64 us - 150 ≤ s ≤ f64_to_u64 us | None => f64_to_u64 us ≤ 150 end.
Proof.
  intros Hv Hf HU. pose proof (pow2_pos 1074 ltac:(lia)) as HD. unfold sleep_plan.
  rewrite f64_le_num by done. rewrite (proj2 (Z.leb_gt _ _)) by (simpl; lia).
  destruct (spin_bounds us Hv Hf ltac:(lia)) as (Vs & Fs & Hs & Ht). cbv zeta.
  set (spin := if f64_gt (f64_mul us (f64_ratio 5 100)) SPIN_THRESHOLD_US then _ else _) in *.
  eexists. split; [done|]. unfold f64_gt. rewrite f64_lt_num by done.
  set (D := 2 ^ 1074) in *. set (U := f64_num us) in *. set (S := f64_num spin) in *.
  assert (f64_to_u64 us = U / D) as En.
  { unfold f64_to_u64. rewrite f64_to_uint_num by (done || lia). fold U D.
    assert (0 ≤ U / D < 2 ^ 52) by (split; [apply Z.div_pos; lia|apply Z.div_lt_upper_bound; lia]). lia. }
  rewrite En. pose proof (Z.div_mod U D ltac:(lia)) as Hdm. pose proof (Z.mod_pos_bound U D HD) as Hmb.
  assert (0 ≤ U / D < 2 ^ 52) as Hn by (split; [apply Z.div_pos; lia|apply Z.div_lt_upper_bound; lia]).
  destruct (Z.ltb_spec S U) as [Hlt|Hge]; [|nia].
  destruct (f64_add_int_bounds us (SFopp spin) ((U - S) / D) (U / D + 1)) as (Vr & Fr & Br);
    [done|by destruct spin|done|by apply f64_finite_opp|apply Z.div_pos; lia|lia| |].
  { rewrite f64_num_opp. fold U S D. pose proof (Z.mul_div_le (U - S) D HD). lia. }
  rewrite <-f64_sub_add in Vr, Fr, Br by done. fold D in Br.
  destruct (pos_float us Hv Hf ltac:(lia)) as (M & E & EM).
  destruct (f64_sub_within us spin M E) as (_ & Bw & _ & _); [done|done|done|done|by rewrite <-EM|rewrite <-EM; fold U S; lia|].
  rewrite <-EM in Bw. fold U in Bw. unfold f64_to_u64. rewrite f64_to_uint_num by (done || lia). fold D.
  set (R := f64_num (f64_sub us spin)) in *.
  assert ((U - S) / D ≤ R / D) by (apply Z.div_le_lower_bound; lia).
  assert (R / D ≤ U / D) by (apply Z.div_le_mono; lia).
  assert (U / D - 150 ≤ (U - S) / D) by (apply Z.div_le_lower_bound; lia). lia.
Qed.

(** Result: the pacing sleep neither undersleeps nor burns more than its tail.  For a sleep of less
    than 2^52 microseconds on a clock that does not overflow: it is over only when the clock
    shows the requested whole microseconds have passed, and it is over at the first look at
    the clock that shows it; the coarse sleep it asks of the system is at most the requested
    time and leaves at most 150 microseconds to spin. *)
Theorem precise_sleep_bounds us now polls :
  f64_valid us → f64_finite us → f64_num us < 2 ^ 52 * 2 ^ 1074 → 0 ≤ now < 2 ^ 63 →
  (∀ t, precise_sleep_us us now polls = Some t → now + f64_to_u64 us ≤ t) ∧
  (∀ t, t ∈ polls → now + f64_to_u64 us ≤ t → is_Some (precise_sleep_us us now polls)) ∧
  (∀ d s, sleep_plan us now = Some (d, Some s) → f64_to_u64 us - 150 ≤ s ≤ f64_to_u64 us) ∧
  (∀ d, sleep_plan us now = Some (d, None) → f64_to_u64 us ≤ 150).
Proof.
  intros Hv Hf HU Hnow. pose proof (pow2_pos 1074 ltac:(lia)) as HD.
  assert (f64_to_u64 us = Z.max 0 (Z.min (2 ^ 64 - 1) (f64_num us / 2 ^ 1074))) as En by (by apply f64_to_uint_num).
  destruct (Z.lt_ge_cases 0 (f64_num us)) as [Hpos|Hneg].
  - destruct (sleep_plan_bounds us now Hv Hf ltac:(lia)) as (o & E & Ho). unfold precise_sleep_us. rewrite E.
    assert (f64_num us / 2 ^ 1074 < 2 ^ 52) by (apply Z.div_lt_upper_bound; lia).
    rewrite (wrap_small 64) by (unfold is_uint; lia). set (d := now + f64_to_u64 us) in *.
    pose proof (spin_until_spec d polls) as Hspin. split_and!.
    + intros t Et. rewrite Et in Hspin. apply Hspin.
    + intros t Hin Ht. destruct (spin_until d polls); [done|]. specialize (Hspin t Hin). lia.
    + by intros d' s [= _ ->].
    + by intros d' [= _ ->].
  - assert (f64_to_u64 us = 0) as ->.
    { rewrite En. assert (f64_num us / 2 ^ 1074 ≤ 0) by (apply Z.div_le_upper_bound; lia). lia. }
    unfold precise_sleep_us, sleep_plan. rewrite f64_le_num, (proj2 (Z.leb_le _ _)) by done.
    split_and!; try done. intros t [= <-]. lia.
Qed.

(** ** Small cases *)

Lemma first_logger_wins_witness :
  log_calls (W := list string) [LogMsg Info "lost"; SetLogger (λ l m err, err ++ [stderr_line l m]); LogMsg Warn "kept";
             SetLogger (λ _ _ err, err); LogMsg Error "too"] (None, []) =
  (Some (λ l m err, err ++ [stderr_line l m]), ["girth [warn] kept"; "girth [error] too"]).
Proof.
  apply (first_logger_wins (W := list string) [LogMsg Info "lost"]
           [LogMsg Warn "kept"; SetLogger (λ _ _ err, err); LogMsg Error "too"]
           (λ l m err, err ++ [stderr_line l m]) (λ _ _ err, err) []).
  repeat constructor; by eexists _, _.
Defined.

Lemma precise_sleep_bounds_witness :
  (∀ t, precise_sleep_us (f64_of_Z 10000) 77 [9990; 10076; 10080] = Some t → 77 + f64_to_u64 (f64_of_Z 10000) ≤ t) ∧
  sleep_plan (f64_of_Z 10000) 77 = Some (10077, Some 9850).
Proof.
  split; [|vm_compute; done].
  apply (precise_sleep_bounds (f64_of_Z 10000) 77 [9990; 10076; 10080]); [vm_compute; done..|lia].
Defined.
