(* ===== verification/BlockIO.v ===== *)
(** * Positional sources and sinks (src/io.rs)

    The traits [BlockSource] and [BlockSink] are classes; what the data plane relies on
    is stated as their laws, and the in-memory and file-backed implementations are
    instances.  A file source is its bytes; a file sink is its bytes on a device that answers
    each call, with success or with an error after part of it ([FileSink]).  The laws of
    [BlockSinkLaws] are those of a sink whose calls succeed, as the in-memory sink's and a
    file's on a device without errors do ([StableSink]); a theorem that holds of failing
    sinks too does not assume them. *)

From S2P Require Import Prelude Errors Protocol.

(** [bad_range]. *)
Definition bad_range : io_error := mkIoError UnexpectedEof "positional access out of range".

(** ** Interfaces *)

Class BlockSource (S : Type) := {
  src_len : S → Z;
  (** [read_exact_at off buf]: the bytes the buffer of this length is filled with. *)
  src_read_exact_at : S → Z → nat → result (list byte) io_error
}.

Class BlockSourceLaws (S : Type) `{!BlockSource S} := {
  src_content : S → list byte;
  src_len_content s : src_len s = length (src_content s);
  src_read_ok s (off n : nat) : (off + n ≤ length (src_content s))%nat →
    length (src_content s) < 2 ^ 63 →
    src_read_exact_at s off n = Ok (take n (drop off (src_content s)));
  src_read_inv s off n bs : 0 ≤ off → src_read_exact_at s off n = Ok bs →
    bs = take n (drop (Z.to_nat off) (src_content s)) ∧ length bs = n
}.

Class BlockSink (K : Type) := {
  sink_allocate : K → Z → K * result unit io_error;
  sink_write_all_at : K → Z → list byte → K * result unit io_error;
  sink_finalize : K → K * result unit io_error;
  sink_read_crc32c : K → result (option Z) io_error
}.

(** [BlockSource::is_empty]. *)
Definition src_is_empty {Src} `{!BlockSource Src} (s : Src) : bool := src_len s =? 0.

(** A sink that does not fail: what is allocated can be written and read back. *)
Class BlockSinkLaws (K : Type) `{!BlockSink K, !Crc32c} := {
  sink_bytes : K → list byte;
  sink_wf : K → Prop;
  sink_allocate_ok k (n : nat) : n < 2 ^ 63 →
    ∃ k', sink_allocate k n = (k', Ok ()) ∧ sink_wf k' ∧ length (sink_bytes k') = n;
  sink_write_ok k (off : nat) bs : sink_wf k → off + length bs < 2 ^ 63 →
    (off + length bs ≤ length (sink_bytes k))%nat →
    ∃ k', sink_write_all_at k off bs = (k', Ok ()) ∧ sink_wf k' ∧
          sink_bytes k' = list_inserts off bs (sink_bytes k);
  sink_finalize_ok k : sink_wf k →
    ∃ k', sink_finalize k = (k', Ok ()) ∧ sink_wf k' ∧ sink_bytes k' = sink_bytes k;
  sink_crc_ok k : sink_wf k → sink_read_crc32c k = Ok (Some (crc32c_append 0 (sink_bytes k)))
}.

(** ** Whole-content checksums *)

(** The streaming loop of [source_crc32c] and of [FileSink::read_crc32c]: chunks of at
    most 1 MiB, [n] of them left. *)
Fixpoint crc_loop `{!Crc32c} (read : Z → nat → result (list byte) io_error)
    (n : nat) (total off crc : Z) : result Z io_error :=
  if off <? total then
    match n with
    | O => Ok crc
    | S n' =>
        let m := Z.min (total - off) (Z.shiftl 1 20) in
        match read off (Z.to_nat m) with
        | Err e => Err e
        | Ok bs => crc_loop read n' total (off + m) (crc32c_append crc bs)
        end
    end
  else Ok crc.

(** [source_crc32c]. *)
Definition source_crc32c {Src} `{!Crc32c, !BlockSource Src} (src : Src) : result Z io_error :=
  crc_loop (src_read_exact_at src) (Z.to_nat (div_ceil (src_len src) (Z.shiftl 1 20)))
    (src_len src) 0 0.

(** ** In-memory implementations *)

Record MemSource := mkMemSource { ms_data : list byte }.

(** [usize] additions are checked ([checked_add]). *)
Definition mem_read_exact_at (s : MemSource) (off : Z) (n : nat) : result (list byte) io_error :=
  match checked_add_u64 off n with
  | None => Err bad_range
  | Some e => if Z.of_nat (length (ms_data s)) <? e then Err bad_range
              else Ok (take n (drop (Z.to_nat off) (ms_data s)))
  end.

Global Instance mem_source : BlockSource MemSource := {|
  src_len s := length (ms_data s);
  src_read_exact_at := mem_read_exact_at
|}.

Record MemSink := mkMemSink { mk_buf : list byte }.

Definition mem_sink_new : MemSink := mkMemSink [].

(** [Vec::resize(n, 0)]. *)
Definition vec_resize (b : list byte) (n : nat) : list byte := resize n x00 b.

(** [MemSink::allocate]: [clear] then [resize]. *)
Definition mem_allocate (k : MemSink) (len : Z) : MemSink * result unit io_error :=
  (mkMemSink (vec_resize [] (Z.to_nat len)), Ok ()).

(** [MemSink::write_all_at]: grows when the range ends past the buffer. *)
Definition mem_write_all_at (k : MemSink) (off : Z) (src : list byte)
    : MemSink * result unit io_error :=
  match checked_add_u64 off (length src) with
  | None => (k, Err bad_range)
  | Some e =>
      let b := if Z.of_nat (length (mk_buf k)) <? e then vec_resize (mk_buf k) (Z.to_nat e)
               else mk_buf k in
      (mkMemSink (list_inserts (Z.to_nat off) src b), Ok ())
  end.

Global Instance mem_sink `{!Crc32c} : BlockSink MemSink := {|
  sink_allocate := mem_allocate;
  sink_write_all_at := mem_write_all_at;
  sink_finalize k := (k, Ok ());
  sink_read_crc32c k := Ok (Some (crc32c_append 0 (mk_buf k)))
|}.

(** ** File-backed implementations *)

(** Positional file access: a read past the end fails, a write past it extends the file
    with zeros up to the offset; an empty buffer makes no system call. *)
Definition file_read_exact_at (f : list byte) (off : Z) (n : nat) : result (list byte) io_error :=
  if (n =? 0)%nat then Ok [] else
  if Z.of_nat (length f) <? off + n then Err (mkIoError UnexpectedEof "failed to fill whole buffer")
  else Ok (take n (drop (Z.to_nat off) f)).
Definition file_write_all_at (f : list byte) (off : Z) (src : list byte) : list byte :=
  if (length src =? 0)%nat then f else
  list_inserts (Z.to_nat off) src
    (if Z.of_nat (length f) <? off + length src then vec_resize f (Z.to_nat (off + length src)) else f).
Definition file_set_len (f : list byte) (n : Z) : list byte := vec_resize f (Z.to_nat n).

Record FileSource := mkFileSource { fs_file : list byte; fs_len : Z }.

(** [FileSource::from_file] (and [open], once the path is open). *)
Definition file_source_from_file (f : list byte) : FileSource := mkFileSource f (length f).

Global Instance file_source : BlockSource FileSource := {|
  src_len := fs_len;
  src_read_exact_at s := file_read_exact_at (fs_file s)
|}.

(** What the device answers to the successive calls of a sink ([set_len], a positional write, a
    flush, a positional read), as far as they fail: the error, and how far the call got.  No
    further answer is success. *)
Definition device : Type := list (option (nat * io_error)).

Record FileSink := mkFileSink { fk_file : list byte; fk_len : Z; fk_device : device }.

Definition file_sink_from_file (f : list byte) (dev : device) : FileSink := mkFileSink f 0 dev.

Definition next_answer (k : FileSink) : option (nat * io_error) := default None (head (fk_device k)).

(** [FileSink::allocate]: the length is stored first; [fallocate] is best effort, and when
    [set_len] fails it may have extended the file. *)
Definition file_allocate (k : FileSink) (len : Z) : FileSink * result unit io_error :=
  match next_answer k with
  | None => (mkFileSink (file_set_len (fk_file k) len) len (tail (fk_device k)), Ok ())
  | Some (m, e) =>
      (mkFileSink (file_set_len (fk_file k) (Z.max (length (fk_file k)) m)) len (tail (fk_device k)), Err e)
  end.

(** [FileSink::write_all_at]: an error leaves a prefix of the buffer written. *)
Definition file_write (k : FileSink) (off : Z) (src : list byte) : FileSink * result unit io_error :=
  if (length src =? 0)%nat then (k, Ok ()) else
  match next_answer k with
  | None => (mkFileSink (file_write_all_at (fk_file k) off src) (fk_len k) (tail (fk_device k)), Ok ())
  | Some (m, e) =>
      (mkFileSink (file_write_all_at (fk_file k) off (take m src)) (fk_len k) (tail (fk_device k)), Err e)
  end.

(** [FileSink::finalize]: [sync_all]. *)
Definition file_finalize (k : FileSink) : FileSink * result unit io_error :=
  (mkFileSink (fk_file k) (fk_len k) (tail (fk_device k)),
   match next_answer k with None => Ok () | Some (_, e) => Err e end).

(** [FileSink::read_crc32c]: over the allocated length, not the file's; the device answers the
    read of each MiB. *)
Definition file_read_answered (k : FileSink) (off : Z) (n : nat) : result (list byte) io_error :=
  match fk_device k !! Z.to_nat (off / Z.shiftl 1 20) with
  | Some (Some (_, e)) => Err e
  | _ => file_read_exact_at (fk_file k) off n
  end.
Definition file_read_crc32c `{!Crc32c} (k : FileSink) : result (option Z) io_error :=
  match crc_loop (file_read_answered k) (Z.to_nat (div_ceil (fk_len k) (Z.shiftl 1 20))) (fk_len k) 0 0 with
  | Ok crc => Ok (Some crc)
  | Err e => Err e
  end.

Global Instance file_sink `{!Crc32c} : BlockSink FileSink := {|
  sink_allocate := file_allocate;
  sink_write_all_at := file_write;
  sink_finalize := file_finalize;
  sink_read_crc32c := file_read_crc32c
|}.

(** ** The checksum of a source is the checksum of its content *)

Lemma crc_loop_whole `{!Crc32c, !Crc32cLaws} read (content : list byte) :
  (∀ off n : nat, (off + n ≤ length content)%nat → read (Z.of_nat off) n = Ok (take n (drop off content))) →
  ∀ n off, 0 ≤ off ≤ length content → length content - off ≤ Z.of_nat n * Z.shiftl 1 20 →
  crc_loop read n (length content) off (crc32c_append 0 (take (Z.to_nat off) content)) =
  Ok (crc32c_append 0 content).
Proof.
  intros Hread. assert (Z.shiftl 1 20 = 1048576) as Hsh by done.
  induction n as [|n IH]; intros off Hoff Hn; simpl crc_loop;
    (destruct (Z.ltb_spec off (length content)) as [Hlt|Hge];
     [|by rewrite take_ge by lia]); [lia|].
  set (m := Z.min (length content - off) (Z.shiftl 1 20)).
  assert (0 < m ≤ length content - off) as Hm by (unfold m; lia).
  rewrite <-(Z2Nat.id off) at 1 by lia. rewrite Hread by lia.
  rewrite <-(IH (off + m)); [|lia|unfold m; lia]. f_equal.
  unfold crc32c_append. rewrite crc_app. f_equal.
  rewrite Z2Nat.inj_add by lia. rewrite <-(take_drop (Z.to_nat off) content) at 3.
  rewrite take_app_ge by (rewrite length_take; lia). rewrite length_take_le by lia.
  f_equal. f_equal. lia.
Qed.

Lemma crc_passes n : 0 ≤ n → n ≤ Z.of_nat (Z.to_nat (div_ceil n (Z.shiftl 1 20))) * Z.shiftl 1 20.
Proof.
  intros Hn. assert (Z.shiftl 1 20 = 1048576) as Hsh by done.
  pose proof (div_ceil_bounds n (Z.shiftl 1 20) ltac:(lia)) as [_ Hb].
  assert (0 ≤ div_ceil n (Z.shiftl 1 20)) by (unfold div_ceil; apply Z.div_pos; lia). lia.
Qed.

(** The streaming checksum of a source. *)
Lemma source_crc32c_spec {Src} `{!Crc32c, !Crc32cLaws, !BlockSource Src, !BlockSourceLaws Src} (s : Src) :
  length (src_content s) < 2 ^ 63 →
  source_crc32c s = Ok (crc32c_append 0 (src_content s)).
Proof.
  intros Hlen. unfold source_crc32c. rewrite src_len_content.
  pose proof (crc_loop_whole (src_read_exact_at s) (src_content s)
                (λ off n Hn, src_read_ok s off n Hn Hlen)
                (Z.to_nat (div_ceil (length (src_content s)) (Z.shiftl 1 20))) 0) as Hloop.
  assert (crc32c_append 0 [] = 0) as Hnil by (apply crc_nil; vm_compute; done).
  rewrite take_0, Hnil in Hloop. apply Hloop; [lia|]. rewrite Z.sub_0_r. apply crc_passes. lia.
Qed.

(** Result: streaming a source's checksum in 1 MiB pieces gives the checksum of its whole
    content, for every source that reads back its content. *)
Theorem source_crc32c_whole {Src} `{!Crc32c, !Crc32cLaws, !BlockSource Src, !BlockSourceLaws Src} (s : Src) :
  length (src_content s) < 2 ^ 63 →
  source_crc32c s = Ok (crc32c_append 0 (src_content s)).
Proof. apply source_crc32c_spec. Qed.

(** ** The built-in implementations satisfy the laws *)

Lemma checked_add_small a b : a + b < 2 ^ 63 → checked_add_u64 a b = Some (a + b).
Proof. intros. unfold checked_add_u64, u64_max. rewrite (proj2 (Z.leb_le _ _)) by lia. done. Qed.

Global Instance mem_source_laws : BlockSourceLaws MemSource.
Proof.
  refine {| src_content := ms_data |}; simpl; [done|..].
  - intros s off n Hn Hl. unfold mem_read_exact_at. rewrite checked_add_small by lia.
    destruct (Z.ltb_spec (length (ms_data s)) (off + n)); [lia|]. by rewrite Nat2Z.id.
  - intros s off n bs Hoff. unfold mem_read_exact_at. destruct (checked_add_u64 off n) as [e|] eqn:E; [|done].
    unfold checked_add_u64 in E. destruct (_ <=? _); [|done]. injection E as <-.
    destruct (Z.ltb_spec (length (ms_data s)) (off + n)); [done|]. intros [= <-].
    split; [done|]. rewrite length_take, length_drop. lia.
Defined.

(** A source over a file of unchanging content. *)
Record OpenFile := mkOpenFile { of_bytes : list byte }.
Global Instance open_file : BlockSource OpenFile := {|
  src_len f := src_len (file_source_from_file (of_bytes f));
  src_read_exact_at f := src_read_exact_at (file_source_from_file (of_bytes f))
|}.

Global Instance file_source_laws : BlockSourceLaws OpenFile.
Proof.
  refine {| src_content := of_bytes |}; simpl; [done|..]; unfold file_read_exact_at.
  - intros s off n Hn Hl. destruct (Nat.eqb_spec n 0) as [->|]; [done|]. destruct (Z.ltb_spec (length (of_bytes s)) (off + n)); [lia|].
    by rewrite Nat2Z.id.
  - intros s off n bs Hoff. destruct (Nat.eqb_spec n 0) as [->|]; [by intros [= <-]; rewrite take_0|]. destruct (Z.ltb_spec (length (of_bytes s)) (off + n)); [done|].
    intros [= <-]. split; [done|]. rewrite length_take, length_drop. lia.
Defined.

Global Instance mem_sink_laws `{!Crc32c} : BlockSinkLaws MemSink.
Proof.
  refine {| sink_bytes := mk_buf; sink_wf := λ _, True |}; simpl.
  - intros k n Hn. eexists. split; [reflexivity|]. split; [done|]. simpl.
    unfold vec_resize. rewrite length_resize. lia.
  - intros k off bs _ Hb Hle. unfold mem_write_all_at. rewrite checked_add_small by lia.
    destruct (Z.ltb_spec (length (mk_buf k)) (off + length bs)); [lia|].
    eexists. split; [reflexivity|]. simpl. by rewrite Nat2Z.id.
  - intros k _. by exists k.
  - done.
Defined.

Lemma file_slice_prefix (f : list byte) (len off n : nat) :
  (len ≤ length f)%nat → (off + n ≤ length (take len f))%nat →
  file_read_exact_at f off n = Ok (take n (drop off (take len f))).
Proof.
  intros Hl. rewrite length_take_le by done. intros Hn. unfold file_read_exact_at.
  destruct (Nat.eqb_spec n 0) as [->|]; [done|].
  destruct (Z.ltb_spec (length f) (off + n)); [lia|]. rewrite Nat2Z.id, skipn_firstn_comm, take_take.
  by rewrite Nat.min_l by lia.
Qed.

(** A file sink on a device without errors. *)
Record StableSink := mkStableSink { sk_file : list byte; sk_len : Z }.
Definition on_device (k : StableSink) : FileSink := mkFileSink (sk_file k) (sk_len k) [].
Definition off_device {R} (r : FileSink * R) : StableSink * R := (mkStableSink (fk_file r.1) (fk_len r.1), r.2).
Global Instance stable_sink `{!Crc32c} : BlockSink StableSink := {|
  sink_allocate k len := off_device (file_allocate (on_device k) len);
  sink_write_all_at k off src := off_device (file_write (on_device k) off src);
  sink_finalize k := off_device (file_finalize (on_device k));
  sink_read_crc32c k := file_read_crc32c (on_device k)
|}.

Global Instance file_sink_laws `{!Crc32c, !Crc32cLaws} : BlockSinkLaws StableSink.
Proof.
  refine {| sink_bytes := λ k, take (Z.to_nat (sk_len k)) (sk_file k);
            sink_wf := λ k, 0 ≤ sk_len k ≤ length (sk_file k) |}; simpl.
  - intros k n Hn. eexists. split; [reflexivity|]. simpl. unfold file_set_len, vec_resize.
    rewrite length_take, !length_resize, Nat2Z.id. split; lia.
  - intros k off bs Hwf Hb Hle. rewrite length_take in Hle. unfold file_write.
    destruct (Nat.eqb_spec (length bs) 0) as [->%length_zero_iff_nil|];
      [destruct k as [f l]; by exists (mkStableSink f l)|].
    eexists. split; [reflexivity|]. simpl. unfold file_write_all_at. rewrite (proj2 (Nat.eqb_neq _ _)) by done.
    destruct (Z.ltb_spec (length (sk_file k)) (off + length bs)); [lia|].
    rewrite Nat2Z.id, length_inserts. split; [done|].
    apply list_eq. intros i. destruct (decide (i < Z.to_nat (sk_len k))%nat).
    + rewrite lookup_take_lt, !lookup_inserts_if by (rewrite ?length_take; lia).
      case_decide; [done|]. by rewrite lookup_take_lt.
    + rewrite lookup_take_ge by lia. symmetry. apply lookup_ge_None.
      rewrite length_inserts, length_take. lia.
  - intros [f l] Hwf. by exists (mkStableSink f l).
  - intros k Hwf. unfold file_read_crc32c. set (len := Z.to_nat (sk_len k)). cbn [fk_len on_device].
    assert (sk_len k = length (take len (sk_file k))) as Hlen.
    { rewrite length_take. unfold len. lia. }
    assert (crc32c_append 0 [] = 0) as Hnil by (apply crc_nil; vm_compute; done).
    pose proof (crc_loop_whole (file_read_answered (on_device k)) (take len (sk_file k))
      (λ off n, file_slice_prefix (sk_file k) len off n ltac:(unfold len; lia))
      (Z.to_nat (div_ceil (sk_len k) (Z.shiftl 1 20))) 0) as Hloop.
    rewrite take_0, Hnil, <-Hlen in Hloop. rewrite Hloop; [done|lia|].
    rewrite Z.sub_0_r. apply crc_passes. lia.
Defined.

(** ** Reassembly *)

(** Block [seq] of a content cut in blocks of [bs] bytes; the last one may be short. *)
Definition file_block (content : list byte) (bs seq : nat) : list byte :=
  take bs (drop (seq * bs) content).

Lemma length_file_block content bs seq :
  length (file_block content bs seq) = (bs `min` (length content - seq * bs))%nat.
Proof. unfold file_block. by rewrite length_take, length_drop. Qed.

Lemma file_block_lookup content bs i :
  (0 < bs)%nat → file_block content bs (i / bs) !! (i mod bs)%nat = content !! i.
Proof.
  intros Hbs. unfold file_block. pose proof (Nat.mod_upper_bound i bs ltac:(lia)).
  rewrite lookup_take_lt, lookup_drop by done. f_equal.
  pose proof (Nat.div_mod i bs ltac:(lia)). lia.
Qed.

(** The bytes of block [seq] inside a buffer. *)
Definition block_at (bytes : list byte) (bs : nat) (content : list byte) (seq : nat) : Prop :=
  ∀ i, (i < length (file_block content bs seq))%nat →
    bytes !! (seq * bs + i)%nat = file_block content bs seq !! i.

(** A buffer that holds every block in its place is the content. *)
Lemma blocks_all bytes content bs :
  (0 < bs)%nat → length bytes = length content →
  (∀ seq, (seq * bs < length content)%nat → block_at bytes bs content seq) → bytes = content.
Proof.
  intros Hbs Hlen Hall. apply list_eq. intros i. destruct (decide (i < length content)%nat) as [Hi|Hi].
  - pose proof (Nat.div_mod i bs ltac:(lia)) as Hdm.
    pose proof (Nat.mod_upper_bound i bs ltac:(lia)) as Hm.
    rewrite <-(file_block_lookup content bs i Hbs), <-(Hall (i / bs)%nat).
    + f_equal. lia.
    + lia.
    + rewrite length_file_block. lia.
  - rewrite !lookup_ge_None_2 by lia. done.
Qed.

Lemma block_at_write_same bytes bs content seq :
  (seq * bs + length (file_block content bs seq) ≤ length bytes)%nat →
  block_at (list_inserts (seq * bs) (file_block content bs seq) bytes) bs content seq.
Proof.
  intros Hle i Hi. rewrite lookup_inserts_if by done. rewrite decide_True by lia. f_equal. lia.
Qed.

Lemma block_at_write_other bytes bs content seq seq' src :
  seq ≠ seq' → (length src ≤ bs)%nat → (seq' * bs + length src ≤ length bytes)%nat →
  block_at bytes bs content seq → block_at (list_inserts (seq' * bs) src bytes) bs content seq.
Proof.
  intros Hne Hsrc Hle Hat i Hi. rewrite lookup_inserts_if by done.
  rewrite length_file_block in Hi. rewrite decide_False by nia. apply Hat.
  rewrite length_file_block. lia.
Qed.

Section reassembly.
Context `{!Crc32c, !Crc32cLaws} {K : Type} `{!BlockSink K, !BlockSinkLaws K}.
Context (content : list byte) (bs : nat) (Hbs : (0 < bs)%nat) (Hsize : length content < 2 ^ 63).

(** Writing the given blocks, in the given order, duplicates included. *)
Fixpoint write_blocks (k : K) (seqs : list nat) : K * result unit io_error :=
  match seqs with
  | [] => (k, Ok ())
  | seq :: rest =>
      match sink_write_all_at k (seq * bs)%nat (file_block content bs seq) with
      | (k', Ok _) => write_blocks k' rest
      | r => r
      end
  end.

Lemma write_blocks_ok seqs : ∀ k (done : nat → Prop),
  sink_wf k → length (sink_bytes k) = length content →
  Forall (λ seq, (seq * bs < length content)%nat) seqs →
  (∀ seq, done seq → block_at (sink_bytes k) bs content seq) →
  ∃ k', write_blocks k seqs = (k', Ok ()) ∧ sink_wf k' ∧ length (sink_bytes k') = length content ∧
    ∀ seq, done seq ∨ seq ∈ seqs → block_at (sink_bytes k') bs content seq.
Proof.
  induction seqs as [|seq seqs IH]; intros k dn Hwf Hlen Hall Hdone; simpl.
  { exists k. split_and!; [done..|]. intros seq [?|?%not_elem_of_nil]; [auto|done]. }
  apply Forall_cons in Hall as [Hseq Hall]. pose proof (length_file_block content bs seq) as Hl.
  destruct (sink_write_ok k (seq * bs)%nat (file_block content bs seq) Hwf)
    as (k1 & -> & Hwf1 & Hb1); [lia|lia|].
  destruct (IH k1 (λ s, dn s ∨ s = seq)) as (k' & E & Hwf' & Hlen' & Hdone');
    [done|by rewrite Hb1, length_inserts|done| |].
  - intros s Hs. rewrite Hb1. destruct (decide (s = seq)) as [->|Hne].
    + apply block_at_write_same. lia.
    + apply block_at_write_other; [done|lia|lia|]. destruct Hs; [auto|done].
  - exists k'. split_and!; [done..|]. intros s [Hs|Hs]; apply Hdone'; [by left; left|].
    apply elem_of_cons in Hs as [->|]; [left; by right|by right].
Qed.
End reassembly.

(** Result: out-of-order reassembly: allocating a sink and writing every block of a file at
    its offset, in any order and with any duplicates, leaves exactly the file's bytes,
    and the sink's checksum is then the file's. *)
Theorem reassembly_any_order `{!Crc32c, !Crc32cLaws} {K} `{!BlockSink K, !BlockSinkLaws K}
    (content : list byte) (bs : nat) (k0 : K) (seqs : list nat) :
  (0 < bs)%nat → length content < 2 ^ 63 →
  Forall (λ seq, (seq * bs < length content)%nat) seqs →
  (∀ seq, (seq * bs < length content)%nat → seq ∈ seqs) →
  ∃ k1 k2, sink_allocate k0 (length content) = (k1, Ok ()) ∧
    write_blocks content bs k1 seqs = (k2, Ok ()) ∧ sink_bytes k2 = content ∧
    sink_read_crc32c k2 = Ok (Some (crc32c_append 0 content)).
Proof.
  intros Hbs Hsize Hall Hcover.
  destruct (sink_allocate_ok k0 (length content) Hsize) as (k1 & E1 & Hwf1 & Hlen1).
  destruct (write_blocks_ok content bs Hbs Hsize seqs k1 (λ _, False) Hwf1 Hlen1 Hall ltac:(done))
    as (k2 & E2 & Hwf2 & Hlen2 & Hat).
  assert (sink_bytes k2 = content) as Hb.
  { apply (blocks_all _ _ bs); [done|done|]. intros seq Hseq. apply Hat. right. auto. }
  exists k1, k2. split_and!; [done..|]. rewrite sink_crc_ok by done. by rewrite Hb.
Qed.

(** Result: the file-backed sink's checksum covers the allocated length only: on a device without
    errors, bytes written past it, which extend the file, do not change the checksum the
    transfer is verified by. *)
Theorem file_sink_crc_ignores_tail `{!Crc32c, !Crc32cLaws} (k : FileSink) (off : Z) (src : list byte) :
  fk_device k = [] → 0 ≤ fk_len k ≤ length (fk_file k) → fk_len k ≤ off →
  file_read_crc32c (file_write k off src).1 = file_read_crc32c k ∧
  (0 < length src → fk_len k < length (fk_file (file_write k off src).1)).
Proof.
  intros Hd Hwf Hoff. set (k' := (file_write k off src).1).
  assert (fk_device k' = [] ∧ fk_len k' = fk_len k ∧
          take (Z.to_nat (fk_len k)) (fk_file k') = take (Z.to_nat (fk_len k)) (fk_file k) ∧
          length (fk_file k) ≤ length (fk_file k') ∧
          (0 < length src → off + length src ≤ length (fk_file k'))) as (Hd' & Hl & Ht & Hge & Hend).
  { unfold k', file_write, next_answer. rewrite Hd. cbn [head default tail].
    destruct (Nat.eqb_spec (length src) 0) as [E|E]; [simpl; split_and!; done || lia|].
    cbn [fst fk_device fk_len fk_file]. split; [done|]. split; [done|].
    unfold file_write_all_at, vec_resize. rewrite (proj2 (Nat.eqb_neq _ _)) by done. rewrite length_inserts.
    split; [|destruct (Z.ltb_spec (length (fk_file k)) (off + length src)); rewrite ?length_resize; lia].
    rewrite take_inserts by lia. destruct (_ <? _); [|done].
    apply list_eq. intros i. destruct (decide (i < Z.to_nat (fk_len k))%nat).
    - rewrite !lookup_take_lt by done. apply lookup_resize; lia.
    - by rewrite !lookup_take_ge by lia. }
  clearbody k'. destruct k as [f l d], k' as [f' l' d']. simpl in Hd, Hd'. subst d d'. cbn [fk_len fk_file] in *.
  pose proof (sink_crc_ok (mkStableSink f l) Hwf) as H1.
  assert (0 ≤ l' ≤ length f') as Hwf' by lia. pose proof (sink_crc_ok (mkStableSink f' l') Hwf') as H2.
  simpl in H1, H2. unfold on_device in H1, H2. simpl in H1, H2. rewrite H1, H2, Hl, Ht. split; [done|]. lia.
Qed.

(** ** Witnesses *)

Definition demo_content : list byte := [x61; x62; x63; x64; x65; x66; x67].

Lemma source_crc32c_whole_witness :
  @source_crc32c _ castagnoli _ (mkMemSource demo_content) =
  Ok (@crc32c_append castagnoli 0 demo_content).
Proof.
  apply (@source_crc32c_whole _ castagnoli castagnoli_laws _ mem_source_laws (mkMemSource demo_content)).
  vm_compute. done.
Defined.

Lemma reassembly_any_order_witness :
  ∃ k1 k2, sink_allocate (BlockSink := @mem_sink castagnoli) mem_sink_new (length demo_content) = (k1, Ok ()) ∧
    write_blocks (BlockSink0 := @mem_sink castagnoli) demo_content 3 k1 [2; 0; 1; 0]%nat = (k2, Ok ()) ∧
    mk_buf k2 = demo_content ∧
    sink_read_crc32c (BlockSink := @mem_sink castagnoli) k2 =
      Ok (Some (@crc32c_append castagnoli 0 demo_content)).
Proof.
  apply (@reassembly_any_order castagnoli castagnoli_laws MemSink (@mem_sink castagnoli)
           (@mem_sink_laws castagnoli) demo_content 3 mem_sink_new [2; 0; 1; 0]%nat).
  - lia.
  - vm_compute. done.
  - repeat constructor.
  - intros [|[|[|n]]] Hn; [set_solver..|]. simpl in Hn. lia.
Defined.

Lemma file_sink_crc_ignores_tail_witness :
  let k := mkFileSink demo_content 7 [] in
  @file_read_crc32c castagnoli (file_write k 7 [x21; x21]).1 = @file_read_crc32c castagnoli k ∧
  (0 < 2 → 7 < length (fk_file (file_write k 7 [x21; x21]).1)).
Proof.
  apply (@file_sink_crc_ignores_tail castagnoli castagnoli_laws (mkFileSink demo_content 7 []) 7 [x21; x21]);
    vm_compute; done.
Defined.
