(* ===== verification/SysFile.v ===== *)
(** * Positional file access on Windows (src/sys/mod.rs)

    [seek_read] and [seek_write] may move fewer bytes than asked for or be interrupted;
    [read_exact_at] and [write_all_at] loop until the whole buffer is done.  The answers of
    the system calls are arguments, and what is relied on of them is a contract.  The loops
    agree with the whole-buffer operations the file source and sink are built on. *)

From S2P Require Import Prelude Errors Protocol BlockIO.

(** The answer to one call: bytes moved, an interruption, or another error. *)
Inductive io_answer := Moved (n : nat) | Interrupted | IoFailed (e : io_error).

Global Instance io_error_eq_dec : EqDecision io_error.
Proof. solve_decision. Defined.
Global Instance io_answer_eq_dec : EqDecision io_answer.
Proof. solve_decision. Defined.

(** [read_exact_at]: [n] bytes are missing at [off].  [None] while a call has not answered;
    slicing the buffer past its end panics. *)
Fixpoint read_exact_at (answers : list io_answer) (f : list byte) (off : Z) (n : nat)
    : outcome (option (result (list byte) io_error)) :=
  if (n =? 0)%nat then Done (Some (Ok [])) else
  match answers with
  | [] => Done None
  | Moved O :: _ => Done (Some (Err (mkIoError UnexpectedEof "failed to fill whole buffer")))
  | Moved k :: answers' =>
      if (k <=? n)%nat then
        o ← read_exact_at answers' f (wrap 64 (off + k)) (n - k);
        Done (match o with
              | Some (Ok rest) => Some (Ok (take k (drop (Z.to_nat off) f) ++ rest))
              | o => o
              end)
      else Panic
  | Interrupted :: answers' => read_exact_at answers' f off n
  | IoFailed e :: _ => Done (Some (Err e))
  end.

(** [write_all_at]: the file after it as well. *)
Fixpoint write_all_at (answers : list io_answer) (f : list byte) (off : Z) (src : list byte)
    : outcome (option (list byte * result unit io_error)) :=
  match src with
  | [] => Done (Some (f, Ok ()))
  | _ =>
      match answers with
      | [] => Done None
      | Moved O :: _ => Done (Some (f, Err (mkIoError WriteZero "failed to write whole buffer")))
      | Moved k :: answers' =>
          if (k <=? length src)%nat then
            write_all_at answers' (file_write_all_at f off (take k src)) (wrap 64 (off + k)) (drop k src)
          else Panic
      | Interrupted :: answers' => write_all_at answers' f off src
      | IoFailed e :: _ => Done (Some (f, Err e))
      end
  end.

(** What a read may answer: no more than asked for and than there is, and zero only at the end. *)
Fixpoint read_contract (answers : list io_answer) (f : list byte) (off : Z) (n : nat) : Prop :=
  match answers with
  | Moved k :: answers' =>
      (k ≤ n)%nat ∧ (k = O → n = O ∨ Z.of_nat (length f) ≤ off) ∧ (k ≠ O → off + k ≤ length f) ∧
      read_contract answers' f (off + k) (n - k)
  | Interrupted :: answers' => read_contract answers' f off n
  | _ => True
  end.
(** What a write may answer: no more than asked for. *)
Fixpoint write_contract (answers : list io_answer) (n : nat) : Prop :=
  match answers with
  | Moved k :: answers' => (k ≤ n)%nat ∧ write_contract answers' (n - k)
  | Interrupted :: answers' => write_contract answers' n
  | _ => True
  end.

(** ** The loops are the whole-buffer operations *)

(** The answers that are not interruptions. *)
Abbreviation real answers := (filter (λ a, a ≠ Interrupted) answers).

Lemma read_exact_at_spec answers f : ∀ off (n : nat),
  0 ≤ off → off + n < 2 ^ 64 → read_contract answers f off n → Forall (λ a, ∀ e, a ≠ IoFailed e) answers →
  ∃ o, read_exact_at answers f off n = Done o ∧
    (∀ r, o = Some r → r = file_read_exact_at f off n) ∧ ((n ≤ length (real answers))%nat → is_Some o).
Proof.
  induction answers as [|a answers IH]; intros off n Hoff H64 Hc Hf; cbn [read_exact_at]; unfold file_read_exact_at.
  { destruct (Nat.eqb_spec n 0) as [->|Hn]; eexists; (split; [done|]); (split; [naive_solver|]); intros Hl;
      [by eexists|simpl in Hl; lia]. }
  apply Forall_cons in Hf as [Ha Hf]. destruct (Nat.eqb_spec n 0) as [->|Hn].
  { eexists. split; [done|]. split; [naive_solver|by eexists]. }
  destruct a as [[|k]| |e]; [| | |by destruct (Ha e)].
  - destruct Hc as (_ & Hz & _). destruct Hz as [?|Hz]; [done..|]. eexists. split; [done|]. split; [|by eexists].
    intros r [= <-]. by rewrite (proj2 (Z.ltb_lt _ _)) by lia.
  - destruct Hc as (Hk & _ & Hend & Hc). specialize (Hend ltac:(done)). rewrite (proj2 (Nat.leb_le _ _)) by done.
    rewrite wrap_small by (unfold is_uint; lia).
    destruct (IH (off + S k) (n - S k)%nat) as (o & -> & Ho & Hs); [lia|lia|done|done|]. cbn [mbind outcome_bind].
    eexists. split; [done|]. split.
    + destruct o as [r|]; [|done]. specialize (Ho r eq_refl). unfold file_read_exact_at in Ho.
      destruct (Nat.eqb_spec (n - S k) 0) as [E0|_].
      * subst r. intros r [= <-]. rewrite app_nil_r. destruct (Z.ltb_spec (length f) (off + n)); [lia|].
        by replace n with (S k) by lia.
      * destruct (Z.ltb_spec (length f) (off + S k + (n - S k)%nat)); subst r; intros r [= <-].
        { by rewrite (proj2 (Z.ltb_lt _ _)) by lia. }
        rewrite (proj2 (Z.ltb_ge _ _)) by lia. f_equal.
        replace (Z.to_nat (off + S k)) with (Z.to_nat off + S k)%nat by lia.
        rewrite <-drop_drop, take_take_drop. f_equal. lia.
    + rewrite filter_cons_True by done. simpl. intros Hl. destruct Hs as [[] ->]; [lia|by eexists..].
  - rewrite filter_cons_False by tauto. destruct (IH off n Hoff H64 Hc Hf) as (o & Eo & Ho & Hs). exists o.
    split; [done|]. split; [|done]. intros r Hr. rewrite (Ho r Hr). unfold file_read_exact_at.
    by rewrite (proj2 (Nat.eqb_neq _ _) Hn).
Qed.

(** A byte of the file after a write. *)
Lemma file_write_lookup f off src i : 0 ≤ off → src ≠ [] →
  file_write_all_at f off src !! i =
    if decide (Z.to_nat off ≤ i < Z.to_nat off + length src)%nat then src !! (i - Z.to_nat off)%nat
    else if decide (i < length f)%nat then f !! i
    else if decide (i < Z.to_nat off + length src)%nat then Some x00 else None.
Proof.
  intros Hoff Hne. unfold file_write_all_at.
  rewrite (proj2 (Nat.eqb_neq _ _)) by (by destruct src). set (g := if Z.ltb _ _ then _ else f).
  assert ((Z.to_nat off + length src ≤ length g)%nat ∧ ∀ i, (i < Z.to_nat off ∨ Z.to_nat off + length src ≤ i)%nat →
    g !! i = if decide (i < length f)%nat then f !! i
             else if decide (i < Z.to_nat off + length src)%nat then Some x00 else None) as [Hg Hl].
  { unfold g, vec_resize. destruct (Z.ltb_spec (length f) (off + length src)).
    - rewrite length_resize. split; [lia|]. intros j Hj. destruct (decide (j < length f)%nat).
      + apply lookup_resize; lia.
      + destruct (decide (j < _)%nat); [apply lookup_resize_new; lia|apply lookup_resize_old; lia].
    - split; [lia|]. intros j Hj. destruct (decide (j < length f)%nat); [done|].
      rewrite decide_False by lia. apply lookup_ge_None. lia. }
  rewrite lookup_inserts_if by lia. case_decide; [done|]. apply Hl. lia.
Qed.

(** Two adjacent writes are one. *)
Lemma file_write_app f off a b : 0 ≤ off → a ≠ [] →
  file_write_all_at (file_write_all_at f off a) (off + length a) b = file_write_all_at f off (a ++ b).
Proof.
  intros Hoff Ha. destruct (decide (b = [])) as [->|Hb]; [by rewrite app_nil_r|].
  assert (length (file_write_all_at f off a) = Nat.max (length f) (Z.to_nat off + length a)) as Hl.
  { unfold file_write_all_at, vec_resize. rewrite (proj2 (Nat.eqb_neq _ _)) by (by destruct a).
    rewrite length_inserts. destruct (Z.ltb_spec (length f) (off + length a)); rewrite ?length_resize; lia. }
  apply list_eq. intros i. rewrite !file_write_lookup by (lia || (by destruct a) || done). rewrite Hl, length_app.
  replace (Z.to_nat (off + length a)) with (Z.to_nat off + length a)%nat by lia.
  repeat case_decide; try lia; try done.
  - rewrite lookup_app_r by lia. f_equal. lia.
  - rewrite lookup_app_l by lia. done.
Qed.

Lemma write_all_at_spec answers : ∀ f off src,
  0 ≤ off → off + length src < 2 ^ 64 → write_contract answers (length src) →
  ∃ o, write_all_at answers f off src = Done o ∧
    (∀ f' r, o = Some (f', r) → ∃ m, (m ≤ length src)%nat ∧ f' = file_write_all_at f off (take m src) ∧
       (r = Ok () → m = length src)) ∧
    ((length src ≤ length (real answers))%nat → is_Some o).
Proof.
  assert (∀ f off, file_write_all_at f off [] = f) as Hnil by done.
  induction answers as [|a answers IH]; intros f off src Hoff H64 Hc.
  { destruct src as [|x src]; eexists; (split; [done|]); (split; [|simpl; intros; (by eexists) || lia]).
    - intros f' r [= <- <-]. by exists O.
    - done. }
  destruct src as [|x src]; [eexists; split; [done|]; split; [|by eexists]; intros f' r [= <- <-]; by exists O|].
  set (s := x :: src) in *. cbn [write_all_at]. fold s. change (match s with [] => _ | _ :: _ => ?t end) with t.
  destruct a as [[|k]| |e].
  - eexists. split; [done|]. split; [|by eexists]. intros f' r [= <- <-]. exists O. split; [lia|done].
  - destruct Hc as [Hk Hc]. rewrite (proj2 (Nat.leb_le _ _)) by done. rewrite wrap_small by (unfold is_uint; lia).
    destruct (IH (file_write_all_at f off (take (S k) s)) (off + S k) (drop (S k) s)) as (o & -> & Ho & Hs);
      [lia|rewrite length_drop; lia|by rewrite length_drop|].
    eexists. split; [done|]. rewrite length_drop in Ho, Hs. rewrite filter_cons_True by done. split.
    + intros f' r Hr. destruct (Ho f' r Hr) as (m & Hm & -> & Hok). exists (S k + m)%nat. split; [lia|]. split.
      * assert (length (take (S k) s) = S k) as Hlt by (rewrite length_take; lia).
        replace (off + S k) with (off + length (take (S k) s)) by lia. rewrite file_write_app by done.
        by rewrite take_take_drop.
      * intros Hr'. specialize (Hok Hr'). lia.
    + simpl length at 2. intros Hl. apply Hs. lia.
  - rewrite filter_cons_False by tauto. by apply IH.
  - eexists. split; [done|]. split; [|by eexists]. intros f' r [= <- <-]. exists O. split; [lia|done].
Qed.

(** Result: short reads do not show.  However the system splits a read and whatever interruptions
    come between, as long as no other error is reported: the loop never panics, what it
    returns is what one whole read of the file returns (the bytes, or the end-of-file error
    when the file is too short), and it ends once there has been one answer per byte. *)
Theorem read_exact_at_whole answers f off (n : nat) :
  0 ≤ off → off + n < 2 ^ 64 → read_contract answers f off n → Forall (λ a, ∀ e, a ≠ IoFailed e) answers →
  ∃ o, read_exact_at answers f off n = Done o ∧
    (∀ r, o = Some r → r = file_read_exact_at f off n) ∧ ((n ≤ length (real answers))%nat → is_Some o).
Proof. apply read_exact_at_spec. Qed.

(** Result: short writes do not show.  However the system splits a write, the loop never panics;
    when it reports success the file is the one a whole write leaves, when it fails a prefix
    of the buffer has been written at its place and nothing else, and it ends once there has
    been one answer per byte. *)
Theorem write_all_at_whole answers f off src :
  0 ≤ off → off + length src < 2 ^ 64 → write_contract answers (length src) →
  ∃ o, write_all_at answers f off src = Done o ∧
    (∀ f' r, o = Some (f', r) → ∃ m, (m ≤ length src)%nat ∧ f' = file_write_all_at f off (take m src) ∧
       (r = Ok () → m = length src)) ∧
    ((length src ≤ length (real answers))%nat → is_Some o).
Proof. apply write_all_at_spec. Qed.

(** Five bytes in two pieces with an interruption. *)
Lemma read_exact_at_whole_witness :
  read_exact_at [Moved 2; Interrupted; Moved 3] demo_content 1 5 = Done (Some (file_read_exact_at demo_content 1 5)).
Proof.
  destruct (read_exact_at_whole [Moved 2; Interrupted; Moved 3] demo_content 1 5) as (o & E & Ho & Hs);
    [lia|lia|cbn; lia|repeat constructor; discriminate|].
  vm_compute in E. apply Done_inj in E. subst o. rewrite <-(Ho _ eq_refl). vm_compute. reflexivity.
Defined.

Lemma write_all_at_whole_witness :
  ∃ f', write_all_at [Moved 1; Interrupted; Moved 2] demo_content 6 [x01; x02; x03] = Done (Some (f', Ok ())) ∧
    f' = file_write_all_at demo_content 6 [x01; x02; x03].
Proof.
  destruct (write_all_at_whole [Moved 1; Interrupted; Moved 2] demo_content 6 [x01; x02; x03]) as (o & E & Ho & Hs);
    [lia|cbn; lia|cbn; lia|].
  pose proof E as E2. vm_compute in E2. apply Done_inj in E2. subst o. eexists. split; [exact E|].
  destruct (Ho _ _ eq_refl) as (m & _ & Hf & Hm). specialize (Hm eq_refl). subst m. exact Hf.
Defined.
