(* ===== verification/Crypto.v ===== *)
(** * Data-plane encryption (src/crypto.rs)

    The AEAD, X25519 and HKDF crates are parameters: classes with the laws the crates
    document.  Nonces, buffer layout, cipher negotiation and the two ends of the key
    agreement are the program's own and are modelled. *)

From S2P Require Import Prelude.

Inductive Suite := Aes | Cha.

Global Instance Suite_eq_dec : EqDecision Suite.
Proof. solve_decision. Defined.

Definition CIPHER_AES_GCM : string := "aes-256-gcm".
Definition CIPHER_CHACHA : string := "chacha20-poly1305".
Definition AEAD_KEY_LEN : nat := 32.
Definition AEAD_NONCE_LEN : nat := 12.
Definition AEAD_TAG_LEN : nat := 16.

(** ** The crates *)

(** [encrypt_in_place_detached] and [decrypt_in_place_detached] with empty associated
    data: key, nonce, text. *)
Class AeadCrate := {
  aead_encrypt : Suite → list byte → list byte → list byte → option (list byte * list byte);
  aead_decrypt : Suite → list byte → list byte → list byte → list byte → option (list byte)
}.

Class AeadLaws `{!AeadCrate} : Prop := {
  aead_encrypt_total su key nonce pt : length pt < 2 ^ 32 →
    ∃ ct tag, aead_encrypt su key nonce pt = Some (ct, tag) ∧
              length ct = length pt ∧ length tag = AEAD_TAG_LEN;
  aead_decrypt_encrypt su key nonce pt ct tag :
    aead_encrypt su key nonce pt = Some (ct, tag) → aead_decrypt su key nonce ct tag = Some pt;
  aead_decrypt_length su key nonce ct tag pt :
    aead_decrypt su key nonce ct tag = Some pt → length pt = length ct
}.

(** [x25519_dalek] and [hkdf]: public key of a secret, shared secret, key expansion. *)
Class KexCrate := {
  x25519_public : list byte → list byte;
  x25519_shared : list byte → list byte → list byte;
  hkdf_expand : list byte → list byte → list byte → nat → option (list byte)
}.

Class KexLaws `{!KexCrate} : Prop := {
  x25519_public_length sk : length (x25519_public sk) = 32%nat;
  x25519_agree a b : x25519_shared a (x25519_public b) = x25519_shared b (x25519_public a);
  hkdf_expand_ok salt ikm info : ∃ key, hkdf_expand salt ikm info AEAD_KEY_LEN = Some key ∧
                                        length key = AEAD_KEY_LEN
}.

(** ** AEAD of a session *)

Record AeadBox := mkAeadBox { ab_suite : Suite; ab_key : list byte }.

Global Instance AeadBox_eq_dec : EqDecision AeadBox.
Proof. solve_decision. Defined.

(** The bytes of a string ([as_bytes]). *)
Definition str_bytes (s : string) : list byte := String.list_byte_of_string s.

(** [block_nonce]: four zero bytes, then the sequence number. *)
Definition block_nonce (seq : Z) : list byte := replicate 4 x00 ++ to_le_bytes 8 seq.

(** [AeadBox::new]. *)
Definition aead_new (name : string) (key : list byte) : result AeadBox string :=
  if bool_decide (length key ≠ AEAD_KEY_LEN) then Err "girth: bad key length" else
  if bool_decide (name = CIPHER_AES_GCM) then Ok (mkAeadBox Aes key)
  else if bool_decide (name = CIPHER_CHACHA) then Ok (mkAeadBox Cha key)
  else Err "girth: unknown cipher".

Definition overhead (c : AeadBox) : nat := AEAD_TAG_LEN.

Definition aead_name (c : AeadBox) : string :=
  match ab_suite c with Aes => CIPHER_AES_GCM | Cha => CIPHER_CHACHA end.

(** [AeadBox::seal_data]: the buffer with the payload encrypted in place and the tag
    behind it, and the length of the PDU. *)
Definition seal_data `{!AeadCrate} (c : AeadBox) (buf : list byte) (hdr_len plen : nat) (seq : Z)
    : outcome (list byte * nat) :=
  pt ← buf_slice buf hdr_len (hdr_len + plen);
  match aead_encrypt (ab_suite c) (ab_key c) (block_nonce seq) pt with
  | None => Panic
  | Some (ct, tag) =>
      buf ← buf_write buf hdr_len ct;
      buf ← buf_write buf (hdr_len + plen) tag;
      Done (buf, (hdr_len + plen + AEAD_TAG_LEN)%nat)
  end.

(** [AeadBox::open_data]: the payload decrypted in place and the plaintext length. *)
Definition open_data `{!AeadCrate} (c : AeadBox) (payload : list byte) (plen : nat) (seq : Z)
    : outcome (option (list byte * nat)) :=
  let ct_len := (plen + AEAD_TAG_LEN)%nat in
  if (length payload <? ct_len)%nat then Done None else
  ct ← buf_slice payload 0 plen;
  tag ← buf_slice payload plen ct_len;
  match aead_decrypt (ab_suite c) (ab_key c) (block_nonce seq) ct tag with
  | None => Done None
  | Some pt => payload ← buf_write payload 0 pt; Done (Some (payload, plen))
  end.

(** ** Negotiation *)

(** [local_ciphers], given what [aes_hardware] reports. *)
Definition local_ciphers (aes_hardware : bool) : list string :=
  if aes_hardware then [CIPHER_AES_GCM; CIPHER_CHACHA] else [CIPHER_CHACHA; CIPHER_AES_GCM].

(** [choose_cipher]. *)
Fixpoint choose_cipher (prefer peer : list string) : string :=
  match prefer with
  | [] => ""
  | c :: prefer' => if existsb (λ p, bool_decide (p = c)) peer then c else choose_cipher prefer' peer
  end.

Definition ciphers_if (aes_hardware enc : bool) : option (list string) :=
  if enc then Some (local_ciphers aes_hardware) else None.

(** [derive_aead]. *)
Definition derive_aead `{!KexCrate} (priv_key peer_pub : list byte) (session : Z)
    (cipher_name : string) : result AeadBox string :=
  if bool_decide (length peer_pub ≠ 32%nat) then Err "girth: bad peer public key" else
  let secret := x25519_shared priv_key peer_pub in
  let salt := to_le_bytes 4 session in
  let info := str_bytes ("girth data key " +:+ cipher_name) in
  match hkdf_expand salt secret info AEAD_KEY_LEN with
  | None => Err "girth: HKDF failed"
  | Some key => aead_new cipher_name key
  end.

(** [negotiate_crypto_server]; [secret] is the random secret of [gen_keypair]. *)
Definition negotiate_crypto_server `{!KexCrate} (aes_hardware : bool) (secret : list byte)
    (encrypt : bool) (peer_ciphers : list string) (peer_pub : list byte) (session : Z)
    : result (bool * string * list byte * option AeadBox) string :=
  if negb encrypt then Ok (false, "", [], None) else
  let cipher_name := choose_cipher (local_ciphers aes_hardware) peer_ciphers in
  if bool_decide (cipher_name = "") then Err "no common cipher suite" else
  match derive_aead secret peer_pub session cipher_name with
  | Err e => Err e
  | Ok aead => Ok (true, cipher_name, x25519_public secret, Some aead)
  end.

(** [client_crypto]. *)
Definition client_crypto `{!KexCrate} (want server_encrypt : bool) (server_pub : list byte)
    (session : Z) (cipher : string) (priv_key : option (list byte)) : result (option AeadBox) string :=
  if negb server_encrypt then
    if want then Err "server declined encryption" else Ok None
  else
    match priv_key with
    | None => Err "server enabled encryption unexpectedly"
    | Some priv_key =>
        if negb want then Err "server enabled encryption unexpectedly" else
        match derive_aead priv_key server_pub session cipher with
        | Err e => Err e
        | Ok aead => Ok (Some aead)
        end
    end.

(** ** Nonces and sealing *)

Lemma length_block_nonce seq : length (block_nonce seq) = AEAD_NONCE_LEN.
Proof. unfold block_nonce. by rewrite length_app, length_replicate, length_to_le_bytes. Qed.

Lemma block_nonce_inj a b : is_u64 a → is_u64 b → block_nonce a = block_nonce b → a = b.
Proof.
  intros Ha Hb E. apply app_inv_head in E.
  by rewrite <-(from_to_le_bytes_id 8 a), E, from_to_le_bytes_id.
Qed.

Section sealing.
Context `{!AeadCrate, !AeadLaws}.

Lemma seal_data_spec c buf hdr plen seq :
  (hdr + plen + AEAD_TAG_LEN ≤ length buf)%nat → Z.of_nat plen < 2 ^ 32 →
  ∃ ct tag buf', seal_data c buf hdr plen seq = Done (buf', (hdr + plen + AEAD_TAG_LEN)%nat) ∧
    aead_encrypt (ab_suite c) (ab_key c) (block_nonce seq) (take plen (drop hdr buf)) = Some (ct, tag) ∧
    length ct = plen ∧ length tag = AEAD_TAG_LEN ∧ length buf' = length buf ∧
    take hdr buf' = take hdr buf ∧ take (plen + AEAD_TAG_LEN) (drop hdr buf') = ct ++ tag.
Proof.
  intros Hlen Hp. unfold seal_data, AEAD_TAG_LEN in *. rewrite buf_slice_done by lia.
  cbn [mbind outcome_bind]. replace (hdr + plen - hdr)%nat with plen by lia.
  assert (length (take plen (drop hdr buf)) = plen) as Hpt by (rewrite length_take, length_drop; lia).
  destruct (aead_encrypt_total (ab_suite c) (ab_key c) (block_nonce seq) (take plen (drop hdr buf)))
    as (ct & tag & E & Hct & Htag); [lia|]. rewrite E, Hpt in *. unfold AEAD_TAG_LEN in *.
  rewrite buf_write_done by lia. cbn [mbind outcome_bind].
  rewrite buf_write_done by (rewrite length_inserts; lia). cbn [mbind outcome_bind].
  exists ct, tag. eexists. split; [reflexivity|]. rewrite !length_inserts.
  split_and!; [done..| |].
  - by rewrite !take_inserts by lia.
  - apply list_eq. intros i. destruct (decide (i < plen + 16)%nat).
    + rewrite lookup_take_lt, lookup_drop, !lookup_inserts_if by (rewrite ?length_inserts; lia).
      destruct (decide (i < plen)%nat).
      * rewrite decide_False, decide_True, lookup_app_l by lia. f_equal. lia.
      * rewrite decide_True, lookup_app_r by lia. f_equal. lia.
    + rewrite lookup_take_ge by lia. symmetry. apply lookup_ge_None. rewrite length_app. lia.
Qed.

(** Opening never panics, and what it opens is as long as announced. *)
Lemma open_data_total c payload plen seq :
  ∃ r, open_data c payload plen seq = Done r ∧
    ∀ p n, r = Some (p, n) → n = plen ∧ length p = length payload ∧ (plen + AEAD_TAG_LEN ≤ length payload)%nat.
Proof.
  unfold open_data. destruct (Nat.ltb_spec (length payload) (plen + AEAD_TAG_LEN)); [by eexists|].
  unfold AEAD_TAG_LEN in *. rewrite !buf_slice_done by lia. cbn [mbind outcome_bind].
  destruct (aead_decrypt _ _ _ _ _) as [pt|] eqn:E; [|by eexists].
  apply aead_decrypt_length in E. rewrite drop_0, length_take in E.
  rewrite buf_write_done by lia. cbn [mbind outcome_bind]. eexists. split; [done|].
  intros p n [= <- <-]. rewrite length_inserts. done.
Qed.

(** C35: sealing round-trips: a payload sealed in a PDU buffer opens, from the bytes behind
    the header, to the same payload; the cleartext header and the rest of the buffer's
    length are untouched; and no two blocks of a transfer share a nonce. *)
Theorem seal_open_roundtrip c buf hdr plen seq :
  (hdr + plen + AEAD_TAG_LEN ≤ length buf)%nat → Z.of_nat plen < 2 ^ 32 → is_u64 seq →
  ∃ buf' size, seal_data c buf hdr plen seq = Done (buf', size) ∧
    length buf' = length buf ∧ take hdr buf' = take hdr buf ∧
    (∃ payload', open_data c (drop hdr (take size buf')) plen seq = Done (Some (payload', plen)) ∧
       take plen payload' = take plen (drop hdr buf)) ∧
    (∀ seq', is_u64 seq' → block_nonce seq' = block_nonce seq → seq' = seq).
Proof.
  intros Hlen Hp Hseq.
  destruct (seal_data_spec c buf hdr plen seq Hlen Hp) as (ct & tag & buf' & E & Ee & Hct & Htag & Hl & Hh & Hpl).
  exists buf', (hdr + plen + AEAD_TAG_LEN)%nat. split_and!; [done..| |intros; by apply block_nonce_inj].
  assert (drop hdr (take (hdr + plen + AEAD_TAG_LEN) buf') = ct ++ tag) as ->.
  { rewrite <-Hpl, skipn_firstn_comm. f_equal. lia. }
  unfold open_data, AEAD_TAG_LEN in *. rewrite length_app, Hct, Htag.
  destruct (Nat.ltb_spec (plen + 16) (plen + 16)); [lia|].
  rewrite !buf_slice_done by (rewrite length_app; lia). cbn [mbind outcome_bind].
  rewrite drop_0, Nat.sub_0_r, take_app_length' by done. rewrite drop_app_length' by done.
  rewrite (take_ge tag) by lia. erewrite aead_decrypt_encrypt by exact Ee.
  assert (length (take plen (drop hdr buf)) = plen) as Hpt by (rewrite length_take, length_drop; lia).
  rewrite buf_write_done by (rewrite length_app; lia). cbn [mbind outcome_bind].
  eexists. split; [reflexivity|].
  rewrite <-Hpt at 1. rewrite <-(drop_0 (list_inserts 0 _ _)). apply slice_inserts_eq.
  rewrite length_app. lia.
Qed.
End sealing.

(** ** Negotiation *)

Lemma choose_cipher_spec prefer peer :
  Forall (λ c, c ≠ "") prefer →
  let c := choose_cipher prefer peer in
  (c = "" ∧ ∀ x, x ∈ prefer → x ∉ peer) ∨
  (c ∈ peer ∧ ∃ before after, prefer = before ++ c :: after ∧ ∀ x, x ∈ before → x ∉ peer).
Proof.
  intros Hall. induction Hall as [|p prefer Hp Hall IH]; simpl.
  { left. split; [done|]. by intros x ?%not_elem_of_nil. }
  destruct (existsb _ peer) eqn:E.
  - right. apply existsb_exists in E as (x & Hx & ->%bool_decide_eq_true). split; [by apply list_elem_of_In|].
    exists [], prefer. split; [done|]. by intros y ?%not_elem_of_nil.
  - assert (p ∉ peer) as Hn.
    { intros Hin. assert (existsb (λ q, bool_decide (q = p)) peer = true) as Ht; [|congruence].
      apply existsb_exists. exists p. split; [by apply list_elem_of_In|by apply bool_decide_eq_true_2]. }
    simpl in IH. set (c := choose_cipher prefer peer) in *. clearbody c.
    destruct IH as [[-> Hno]|(Hin & b & a & -> & Hno)].
    + left. split; [done|]. intros x [->|?]%elem_of_cons; auto.
    + right. split; [done|]. exists (p :: b), a. split; [done|]. intros x [->|?]%elem_of_cons; auto.
Qed.

Lemma local_ciphers_nonempty hw : Forall (λ c, c ≠ "") (local_ciphers hw).
Proof. destruct hw; by repeat constructor. Qed.

Lemma derive_aead_ok `{!KexCrate, !KexLaws} sk pub session name :
  length pub = 32%nat → name = CIPHER_AES_GCM ∨ name = CIPHER_CHACHA →
  ∃ box, derive_aead sk pub session name = Ok box ∧ aead_name box = name ∧
         length (ab_key box) = AEAD_KEY_LEN.
Proof.
  intros Hl Hn. unfold derive_aead. rewrite bool_decide_eq_false_2 by tauto.
  destruct (hkdf_expand_ok (to_le_bytes 4 session) (x25519_shared sk pub)
              (str_bytes ("girth data key " +:+ name))) as (key & -> & Hk).
  unfold aead_new. rewrite bool_decide_eq_false_2 by tauto.
  destruct Hn as [->| ->]; eexists; (split; [reflexivity|by split]).
Qed.

(** C36: the two ends agree on the key, and encryption is never silently dropped.  When the
    client asks for encryption with its public key and offers a list with a common suite,
    the server enables the first suite of its own preference the client offered, and
    the client, from the server's reply, derives the same AEAD; when the server does not
    enable encryption, a client that wanted it gets an error, never cleartext. *)
Theorem key_agreement `{!KexCrate, !KexLaws} hw sk_c sk_s peer_ciphers session :
  (∃ c, c ∈ local_ciphers hw ∧ c ∈ peer_ciphers) →
  (∃ name box,
     negotiate_crypto_server hw sk_s true peer_ciphers (x25519_public sk_c) session =
       Ok (true, name, x25519_public sk_s, Some box) ∧
     name ∈ peer_ciphers ∧
     (∃ before after, local_ciphers hw = before ++ name :: after ∧ ∀ x, x ∈ before → x ∉ peer_ciphers) ∧
     aead_name box = name ∧
     client_crypto true true (x25519_public sk_s) session name (Some sk_c) = Ok (Some box)) ∧
  (∀ server_encrypt server_pub cipher priv_key,
     client_crypto true server_encrypt server_pub session cipher priv_key ≠ Ok None).
Proof.
  intros (c & Hc1 & Hc2). split.
  - pose proof (choose_cipher_spec (local_ciphers hw) peer_ciphers (local_ciphers_nonempty hw)) as Hch.
    unfold negotiate_crypto_server. cbn [negb]. set (name := choose_cipher _ _) in *.
    destruct Hch as [[_ Hno]|(Hin & b & a & Heq & Hb)]; [by destruct (Hno c Hc1)|].
    assert (name = CIPHER_AES_GCM ∨ name = CIPHER_CHACHA) as Hname.
    { assert (name ∈ local_ciphers hw) as Hl by (rewrite Heq; set_solver).
      destruct hw; unfold local_ciphers in Hl; set_solver. }
    rewrite bool_decide_eq_false_2 by (by destruct Hname as [->| ->]).
    destruct (derive_aead_ok sk_s (x25519_public sk_c) session name) as (box & E & Hn & _);
      [apply x25519_public_length|done|].
    exists name, box. rewrite E. split; [done|]. split; [done|]. split; [by exists b, a|]. split; [done|].
    unfold client_crypto. cbn [negb].
    assert (derive_aead sk_c (x25519_public sk_s) session name = Ok box) as ->; [|done].
    rewrite <-E. unfold derive_aead.
    rewrite !bool_decide_eq_false_2 by (rewrite x25519_public_length; tauto).
    by rewrite x25519_agree.
  - intros [] spub cipher [sk|]; unfold client_crypto; cbn [negb]; try done. by destruct (derive_aead _ _ _ _).
Qed.

(** ** Concrete crates, to run the definitions on *)

(** A stand-in AEAD: the text in clear, the tag a fixed-width digest of key, nonce and text. *)
Definition toy_tag (su : Suite) (key nonce text : list byte) : list byte :=
  to_le_bytes AEAD_TAG_LEN
    (foldl (λ h b, wrap 128 (h * 31 + byte_to_Z b)) (match su with Aes => 7 | Cha => 11 end) (key ++ nonce ++ text)).

Definition toy_aead : AeadCrate := {|
  aead_encrypt su key nonce pt := Some (pt, toy_tag su key nonce pt);
  aead_decrypt su key nonce ct tag :=
    if bool_decide (tag = toy_tag su key nonce ct) then Some ct else None
|}.

Lemma toy_aead_laws : @AeadLaws toy_aead.
Proof.
  split; simpl.
  - intros su key nonce pt _. eexists _, _. split; [reflexivity|]. split; [done|]. apply length_to_le_bytes.
  - intros su key nonce pt ct tag [= <- <-]. by rewrite bool_decide_eq_true_2.
  - intros su key nonce ct tag pt. case_bool_decide; [|done]. by intros [= ->].
Qed.

(** A stand-in key exchange: multiplication modulo [2^256]. *)
Definition toy_exp (sk : list byte) : Z := from_le_bytes sk.
Definition toy_kex : KexCrate := {|
  x25519_public sk := to_le_bytes 32 (toy_exp sk * 9);
  x25519_shared sk pub := to_le_bytes 32 (toy_exp sk * from_le_bytes pub);
  hkdf_expand salt ikm info n := Some (to_le_bytes n (from_le_bytes (salt ++ ikm ++ info)))
|}.

Lemma toy_kex_laws : @KexLaws toy_kex.
Proof.
  split; cbn [x25519_public x25519_shared hkdf_expand toy_kex].
  - intros sk. apply length_to_le_bytes.
  - intros a b. rewrite !from_to_le_bytes. change (8 * 32%nat) with 256.
    assert (∀ n v, to_le_bytes n v = to_le_bytes n (wrap (8 * n) v)) as Hw.
    { intros n v. rewrite <-from_to_le_bytes. rewrite <-(length_to_le_bytes n v) at 2.
      by rewrite to_from_le_bytes. }
    rewrite Hw, (Hw _ (toy_exp b * _)). f_equal. change (8 * 32%nat) with 256. unfold wrap.
    rewrite !Zmult_mod_idemp_r. f_equal. lia.
  - intros salt ikm info. eexists. split; [reflexivity|]. apply length_to_le_bytes.
Qed.

Lemma seal_open_roundtrip_witness :
  let buf := replicate 4 x41 ++ [x61; x62; x63] ++ replicate 20 x00 in
  ∃ buf' size, @seal_data toy_aead (mkAeadBox Aes [x01]) buf 4 3 9 = Done (buf', size) ∧
    length buf' = length buf ∧ take 4 buf' = take 4 buf ∧
    (∃ payload', @open_data toy_aead (mkAeadBox Aes [x01]) (drop 4 (take size buf')) 3 9 =
                   Done (Some (payload', 3%nat)) ∧ take 3 payload' = take 3 (drop 4 buf)) ∧
    (∀ seq', is_u64 seq' → block_nonce seq' = block_nonce 9 → seq' = 9).
Proof.
  apply (@seal_open_roundtrip toy_aead toy_aead_laws (mkAeadBox Aes [x01])
           (replicate 4 x41 ++ [x61; x62; x63] ++ replicate 20 x00) 4 3 9);
    [vm_compute; lia|done|vm_compute; done].
Defined.

Lemma key_agreement_witness :
  (∃ name box,
     @negotiate_crypto_server toy_kex true [x05; x06] true [CIPHER_CHACHA]
       (@x25519_public toy_kex [x02; x03]) 77 = Ok (true, name, @x25519_public toy_kex [x05; x06], Some box) ∧
     name ∈ [CIPHER_CHACHA] ∧
     (∃ before after, local_ciphers true = before ++ name :: after ∧ ∀ x, x ∈ before → x ∉ [CIPHER_CHACHA]) ∧
     aead_name box = name ∧
     @client_crypto toy_kex true true (@x25519_public toy_kex [x05; x06]) 77 name (Some [x02; x03]) =
       Ok (Some box)) ∧
  (∀ server_encrypt server_pub cipher priv_key,
     @client_crypto toy_kex true server_encrypt server_pub 77 cipher priv_key ≠ Ok None).
Proof.
  apply (@key_agreement toy_kex toy_kex_laws true [x02; x03] [x05; x06] [CIPHER_CHACHA] 77).
  exists CIPHER_CHACHA. split; [right; left|left].
Defined.
