(* ===== verification/Auth.v ===== *)
(** * Control-plane authentication (src/auth.rs)

    Proof of possession of a pre-shared key.  HMAC-SHA256 is a parameter; what is
    modelled is the transcript each MAC covers and the two verifications.  Feeding a MAC
    piece by piece ([update]) is feeding it the concatenation. *)

From Stdlib Require Import Ascii.
From S2P Require Import Prelude Crypto.

Class HmacCrate := { hmac_sha256 : list byte → list byte → list byte }.

Class HmacLaws `{!HmacCrate} : Prop := {
  hmac_length key m : length (hmac_sha256 key m) = 32%nat
}.

Definition DOMAIN_CLIENT : list byte := str_bytes "girth-auth-client-v1".
Definition DOMAIN_SERVER : list byte := str_bytes "girth-auth-server-v1".

(** What the client's MAC is computed over. *)
Definition client_transcript (version : Z) (mode name : string) (size : Z) (client_pub : list byte)
    : list byte :=
  DOMAIN_CLIENT ++ to_le_bytes 8 version ++ str_bytes mode ++ x00 :: str_bytes name ++ x00 ::
  to_le_bytes 8 size ++ client_pub.

(** What the server's MAC is computed over. *)
Definition server_transcript (session : Z) (server_pub client_mac : list byte) : list byte :=
  DOMAIN_SERVER ++ to_le_bytes 4 session ++ server_pub ++ client_mac.

(** [mac_new] keys the HMAC with a token of any length. *)
Definition mac_new `{!HmacCrate} (token : list byte) : list byte → list byte := hmac_sha256 token.

Definition client_mac `{!HmacCrate} (token : list byte) (version : Z) (mode name : string)
    (size : Z) (client_pub : list byte) : list byte :=
  mac_new token (client_transcript version mode name size client_pub).

Definition server_mac `{!HmacCrate} (token : list byte) (session : Z) (server_pub client_mac : list byte)
    : list byte :=
  mac_new token (server_transcript session server_pub client_mac).

(** [verify_slice] compares (in constant time) with the MAC of the expected inputs. *)
Definition verify_client_mac `{!HmacCrate} (token : list byte) (version : Z) (mode name : string)
    (size : Z) (client_pub presented : list byte) : bool :=
  bool_decide (presented = mac_new token (client_transcript version mode name size client_pub)).

Definition verify_server_mac `{!HmacCrate} (token : list byte) (session : Z)
    (server_pub client_mac presented : list byte) : bool :=
  bool_decide (presented = mac_new token (server_transcript session server_pub client_mac)).

(** ** Transcripts determine the request *)

Lemma split_at_nul (a b c d : list byte) :
  x00 ∉ a → x00 ∉ b → a ++ x00 :: c = b ++ x00 :: d → a = b ∧ c = d.
Proof.
  revert b. induction a as [|x a IH]; intros [|y b] Ha Hb E; simpl in *; simplify_eq.
  - done.
  - by destruct Hb; left.
  - by destruct Ha; left.
  - destruct (IH b) as [-> ->]; [by intros ?; apply Ha; right|by intros ?; apply Hb; right|done|done].
Qed.

Lemma str_bytes_inj s t : str_bytes s = str_bytes t → s = t.
Proof.
  unfold str_bytes. intros E.
  by rewrite <-(String.string_of_list_byte_of_string s), E, String.string_of_list_byte_of_string.
Qed.

Lemma to_le_bytes_i64_inj a b :
  is_i64 a → is_i64 b → to_le_bytes 8 a = to_le_bytes 8 b → a = b.
Proof.
  intros Ha Hb E. assert (wrap 64 a = wrap 64 b) as Hw.
  { pose proof (from_to_le_bytes 8 a) as H1. rewrite E, from_to_le_bytes in H1. by symmetry. }
  rewrite <-(u64_as_i64_as_u64 a), <-(u64_as_i64_as_u64 b) by done. unfold i64_as_u64. by rewrite Hw.
Qed.

(** A string without NUL characters. *)
Definition nul_free (s : string) : Prop := x00 ∉ str_bytes s.

Lemma client_transcript_inj v m n s p v' m' n' s' p' :
  is_i64 v → is_i64 v' → is_i64 s → is_i64 s' →
  nul_free m → nul_free m' → nul_free n → nul_free n' →
  client_transcript v m n s p = client_transcript v' m' n' s' p' →
  v = v' ∧ m = m' ∧ n = n' ∧ s = s' ∧ p = p'.
Proof.
  intros Hv Hv' Hs Hs' Hm Hm' Hn Hn' E. unfold client_transcript in E. apply app_inv_head in E.
  apply app_inj_1 in E as [E1 E]; [|by rewrite !length_to_le_bytes].
  apply split_at_nul in E as [E2 E]; [|done|done].
  apply split_at_nul in E as [E3 E]; [|done|done].
  apply app_inj_1 in E as [E4 E]; [|by rewrite !length_to_le_bytes].
  split_and!; [by apply to_le_bytes_i64_inj|by apply str_bytes_inj|by apply str_bytes_inj|
    by apply to_le_bytes_i64_inj|done].
Qed.

Lemma server_transcript_inj sess p c sess' p' :
  is_u32 sess → is_u32 sess' →
  server_transcript sess p c = server_transcript sess' p' c → sess = sess' ∧ p = p'.
Proof.
  intros Hs Hs' E. unfold server_transcript in E. apply app_inv_head in E.
  apply app_inj_1 in E as [E1 E]; [|by rewrite !length_to_le_bytes].
  apply app_inv_tail in E. split; [|done].
  by rewrite <-(from_to_le_bytes_id 4 sess), E1, from_to_le_bytes_id.
Qed.

(** C38: the client's proof binds the whole request (strings without NUL, 64-bit version and size).
    The server accepts a presented proof exactly when it is the MAC of the transcript of the
    request it received; so it accepts the proof the holder of the token computed for its own
    request, and accepts that proof for another version, mode, name, size or public key only if
    the two requests' transcripts, which then differ, have the same HMAC under the token. *)
Theorem client_mac_binding `{!HmacCrate} token v m n s p v' m' n' s' p' :
  is_i64 v → is_i64 v' → is_i64 s → is_i64 s' →
  nul_free m → nul_free m' → nul_free n → nul_free n' →
  (∀ presented, verify_client_mac token v' m' n' s' p' presented = true ↔
     presented = hmac_sha256 token (client_transcript v' m' n' s' p')) ∧
  verify_client_mac token v m n s p (client_mac token v m n s p) = true ∧
  ((v, m, n, s, p) ≠ (v', m', n', s', p') →
     client_transcript v m n s p ≠ client_transcript v' m' n' s' p' ∧
     (verify_client_mac token v' m' n' s' p' (client_mac token v m n s p) = true →
      hmac_sha256 token (client_transcript v m n s p) = hmac_sha256 token (client_transcript v' m' n' s' p'))).
Proof.
  intros Hv Hv' Hs Hs' Hm Hm' Hn Hn'. split; [intros presented; apply bool_decide_eq_true|].
  split; [by apply bool_decide_eq_true_2|]. intros Hne. split.
  - intros Eq. apply Hne. apply client_transcript_inj in Eq as (-> & -> & -> & -> & ->); done.
  - by intros E%bool_decide_eq_true.
Qed.

(** Result: the server's reply binds the session and its ephemeral key to the client's proof: the
    client accepts the reply computed for its own proof, and accepts it for another session id
    or server key only if the two transcripts, which then differ, have the same HMAC. *)
Theorem server_mac_binding `{!HmacCrate} token sess p sess' p' cmac :
  is_u32 sess → is_u32 sess' →
  verify_server_mac token sess p cmac (server_mac token sess p cmac) = true ∧
  ((sess, p) ≠ (sess', p') →
     server_transcript sess p cmac ≠ server_transcript sess' p' cmac ∧
     (verify_server_mac token sess' p' cmac (server_mac token sess p cmac) = true →
      hmac_sha256 token (server_transcript sess p cmac) = hmac_sha256 token (server_transcript sess' p' cmac))).
Proof.
  intros Hs Hs'. split; [by apply bool_decide_eq_true_2|]. intros Hne. split.
  - intros Eq. apply Hne. apply server_transcript_inj in Eq as [-> ->]; done.
  - by intros E%bool_decide_eq_true.
Qed.

(** Result: without the restriction on names the transcript is ambiguous: NUL is a legal
    character of a JSON string, and a request for an object whose name contains it can
    have the same transcript, hence the same valid proof, as a request for another
    object with another size and public key. *)
Theorem client_mac_nul_ambiguous `{!HmacCrate} token :
  ∃ n n' s s' p p', (n, s, p) ≠ (n', s', p') ∧ is_i64 s ∧ is_i64 s' ∧
    verify_client_mac token 1 "send" n' s' p' (client_mac token 1 "send" n s p) = true.
Proof.
  exists "a", (String.String "a"%char (String.String Ascii.zero EmptyString)), 0, (2 ^ 56), (x01 :: replicate 31 x02), (replicate 31 x02).
  split; [by intros [=]|]. split; [done|]. split; [done|]. apply bool_decide_eq_true_2.
  unfold client_mac. f_equal.
Qed.

(** ** Witnesses *)

(** A stand-in MAC. *)
Definition toy_hmac : HmacCrate := {|
  hmac_sha256 key m := to_le_bytes 32 (foldl (λ h b, wrap 256 (h * 257 + byte_to_Z b + 1)) 5 (key ++ m))
|}.

Lemma nul_free_check s : forallb (λ b, negb (Byte.eqb b x00)) (str_bytes s) = true → nul_free s.
Proof. rewrite forallb_forall. intros E Hin%list_elem_of_In. by specialize (E _ Hin). Qed.

Lemma client_mac_binding_witness :
  @verify_client_mac toy_hmac [x01] 1 "send" "obj" 100 [x09] (@client_mac toy_hmac [x01] 1 "send" "obj" 100 [x09]) = true ∧
  @verify_client_mac toy_hmac [x01] 1 "recv" "obj" 100 [x09] (@client_mac toy_hmac [x01] 1 "send" "obj" 100 [x09]) = false.
Proof.
  destruct (@client_mac_binding toy_hmac [x01] 1 "send" "obj" 100 [x09] 1 "recv" "obj" 100 [x09]) as (_ & Hself & Hother);
    [done..|apply nul_free_check; reflexivity|apply nul_free_check; reflexivity|
     apply nul_free_check; reflexivity|apply nul_free_check; reflexivity|].
  split; [exact Hself|]. apply not_true_is_false. intros Hacc. destruct Hother as [_ Hcol]; [by intros [=]|].
  specialize (Hcol Hacc). by vm_compute in Hcol.
Defined.

Lemma server_mac_binding_witness :
  @verify_server_mac toy_hmac [x01] 42 [x07] [x03] (@server_mac toy_hmac [x01] 42 [x07] [x03]) = true ∧
  server_transcript 42 [x07] [x03] ≠ server_transcript 43 [x07] [x03].
Proof.
  destruct (@server_mac_binding toy_hmac [x01] 42 [x07] 43 [x07] [x03]) as [Hself Hother]; [vm_compute; done..|].
  split; [exact Hself|]. apply Hother. by intros [=].
Defined.
