(* ===== verification/Control.v ===== *)
(** * Control plane (src/control.rs)

    The handshake messages, their length-prefixed framing on the TCP stream, the shared
    transfer parameters, and base names of paths.  JSON serialization (serde) is a
    parameter of the framing: a class whose law is that parsing inverts printing. *)

From Stdlib Require Import Ascii.
From stdpp Require Import pretty.
From S2P Require Import Prelude Float64 Errors Protocol Rate Stats.

Definition MODE_SEND : string := "send".
Definition MODE_RECV : string := "recv".

Record Hello := mkHello {
  h_version : Z;
  h_mode : string;
  h_name : string;
  h_size : Z;
  h_block_size : Z;
  h_rate_bps : Z;
  h_max_bps : Z;
  h_adaptive : bool;
  h_alpha_bps : Z;
  h_crc32c : Z;
  h_warm_rate_bps : Z;
  h_warm_srtt_net_us : Z;
  h_warm_base_rtt_us : Z;
  h_encrypt : bool;
  h_ciphers : option (list string);
  h_pub_key : option (list byte);
  h_auth_mac : option (list byte)
}.

Record Ack := mkAck {
  a_ok : bool;
  a_err : string;
  a_udp_port : Z;
  a_session : Z;
  a_size : Z;
  a_crc32c : Z;
  a_name : string;
  a_encrypt : bool;
  a_cipher : string;
  a_pub_key : option (list byte);
  a_auth_required : bool;
  a_auth_mac : option (list byte)
}.

(** [Ack::default]. *)
Definition ack_default : Ack := mkAck false "" 0 0 0 0 "" false "" None false None.

(** The integer fields at their widths. *)
Definition wf_hello (h : Hello) : Prop :=
  is_i64 (h_version h) ∧ is_i64 (h_size h) ∧ is_i64 (h_block_size h) ∧ is_u64 (h_rate_bps h) ∧
  is_u64 (h_max_bps h) ∧ is_u64 (h_alpha_bps h) ∧ is_u32 (h_crc32c h) ∧ is_u64 (h_warm_rate_bps h) ∧
  is_u64 (h_warm_srtt_net_us h) ∧ is_u64 (h_warm_base_rtt_us h).

(** ** Framing *)

Class Serde (T : Type) := {
  to_vec : T → result (list byte) string;
  from_slice : list byte → result T string
}.

(** [serde_json]: what is printed parses back. *)
Class SerdeLaws (T : Type) `{!Serde T} : Prop := {
  from_to_vec v b : to_vec v = Ok b → from_slice b = Ok v
}.

(** [write_json]: the bytes appended to the stream. *)
Definition write_json {T} `{!Serde T} (v : T) : result (list byte) io_error :=
  match to_vec v with
  | Err e => Err (io_other e)
  | Ok b => Ok (to_le_bytes 4 (wrap 32 (length b)) ++ b)
  end.

(** [read_exact] on what the stream still holds: the bytes and the rest. *)
Definition read_exact (stream : list byte) (n : nat) : result (list byte * list byte) io_error :=
  if (n <=? length stream)%nat then Ok (take n stream, drop n stream)
  else Err (mkIoError UnexpectedEof "failed to fill whole buffer").

(** [read_json]: the value and the rest of the stream. *)
Definition read_json {T} `{!Serde T} (stream : list byte) : result (T * list byte) io_error :=
  match read_exact stream 4 with
  | Err e => Err e
  | Ok (lenbuf, stream) =>
      let n := from_le_bytes lenbuf in
      if Z.shiftl 1 20 <? n then Err (io_other ("control message too large: " +:+ pretty n)) else
      match read_exact stream (Z.to_nat n) with
      | Err e => Err e
      | Ok (b, stream) =>
          match from_slice b with
          | Ok v => Ok (v, stream)
          | Err e => Err (io_other e)
          end
      end
  end.

(** ** Parameters *)

Record TransferParams := mkTransferParams {
  tp_block_size : Z;
  tp_rate_bps : Z;
  tp_max_bps : Z;
  tp_adaptive : bool;
  tp_alpha_bps : Z;
  tp_read_workers : Z;
  tp_feedback_interval_us : Z;
  tp_net_tick_interval_us : Z;
  tp_report_interval : Duration;
  tp_verbose : bool;
  tp_encrypt : bool
}.

Definition default_params : TransferParams :=
  mkTransferParams DEFAULT_BLOCK_SIZE 100000000 10000000000 false 30000000 0 5000 10000
    (mkDuration 1 0) false false.

(** [TransferParams::rate_config]. *)
Definition rate_config (p : TransferParams) (target : Z) : RateConfig :=
  mkRateConfig (if tp_adaptive p then Adaptive else Fixed) target 0 (tp_max_bps p)
    (f64_of_Z (tp_alpha_bps p)).

(** ** Base names

    [Path::file_name] on Unix: the components are the pieces between slashes, empty ones
    and [.] dropped (a leading [.] of a relative path is kept as the current directory);
    the file name is the last component unless it is [.] or [..]. *)

Definition slash : ascii := "/"%char.

Fixpoint split_slash (s : string) : list string :=
  match s with
  | EmptyString => [EmptyString]
  | String c s' =>
      if bool_decide (c = slash) then EmptyString :: split_slash s'
      else match split_slash s' with
           | [] => [String c EmptyString]
           | p :: ps => String c p :: ps
           end
  end.

(** The components after the first piece, and all of them. *)
Definition keep_piece (p : string) : bool := negb (bool_decide (p = "")) && negb (bool_decide (p = ".")).
Definition components (s : string) : list string :=
  match split_slash s with
  | [] => []
  | p :: ps => (if bool_decide (p = "") then [] else [p]) ++ filter (λ p, keep_piece p = true) ps
  end.

Definition file_name (s : string) : option string :=
  match last (components s) with
  | Some p => if bool_decide (p = ".") || bool_decide (p = "..") then None else Some p
  | None => None
  end.

(** [basename]. *)
Definition basename (p : string) : string := default p (file_name p).

(** ** Framing round trip *)

(** Result: the control framing round-trips: a message of at most 1 MiB written to the stream
    is read back as the same value, leaving exactly what followed it; a length prefix
    above 1 MiB is refused before anything is read or allocated for it; and reading
    never consumes part of a message it reports as truncated. *)
Theorem framing_roundtrip {T} `{!Serde T, !SerdeLaws T} (v : T) b rest :
  to_vec v = Ok b → length b ≤ 2 ^ 20 →
  (∃ msg, write_json v = Ok msg ∧ read_json (msg ++ rest) = Ok (v, rest) ∧
     ∀ n, (n < length msg)%nat → ∃ e, read_json (T := T) (take n msg) = Err e ∧ ie_kind e = UnexpectedEof) ∧
  (∀ len tail, 2 ^ 20 < len < 2 ^ 32 →
     read_json (T := T) (to_le_bytes 4 len ++ tail) = Err (io_other ("control message too large: " +:+ pretty len))).
Proof.
  intros Ev Hb.
  assert (∀ len tail, is_u32 len → read_exact (to_le_bytes 4 len ++ tail) 4 = Ok (to_le_bytes 4 len, tail)) as Hre.
  { intros len tail Hl. unfold read_exact. rewrite length_app, length_to_le_bytes.
    destruct (Nat.leb_spec 4 (4 + length tail)); [|lia].
    rewrite take_app_length', drop_app_length' by (by rewrite length_to_le_bytes). done. }
  assert (is_u32 (length b)) as Hu by (unfold is_uint; lia).
  assert (from_le_bytes (to_le_bytes 4 (length b)) = length b) as Hlen by (by apply from_to_le_bytes_id).
  split.
  - unfold write_json. rewrite Ev, wrap_small by done. eexists. split; [reflexivity|]. split.
    + unfold read_json. rewrite <-app_assoc, Hre, Hlen by done.
      rewrite (proj2 (Z.ltb_ge _ _)) by (change (Z.shiftl 1 20) with (2 ^ 20); lia). unfold read_exact.
      rewrite Nat2Z.id, length_app, (proj2 (Nat.leb_le _ _)) by lia.
      rewrite take_app_length, drop_app_length. by erewrite from_to_vec.
    + intros n Hn. rewrite length_app, length_to_le_bytes in Hn. unfold read_json, read_exact at 1.
      rewrite length_take, length_app, length_to_le_bytes.
      destruct (Nat.leb_spec 4 (n `min` (4 + length b))) as [H4|H4]; [|by eexists].
      rewrite take_take, (Nat.min_l 4 n) by lia. rewrite take_app_length' by (by rewrite length_to_le_bytes).
      rewrite Hlen, (proj2 (Z.ltb_ge _ _)) by (change (Z.shiftl 1 20) with (2 ^ 20); lia).
      unfold read_exact. rewrite Nat2Z.id, length_drop, length_take, length_app, length_to_le_bytes.
      rewrite (proj2 (Nat.leb_gt _ _)) by lia. by eexists.
  - intros len tail Hl. unfold read_json. rewrite Hre by (unfold is_uint; lia).
    rewrite from_to_le_bytes_id by (unfold is_uint; lia).
    rewrite (proj2 (Z.ltb_lt _ _)) by (change (Z.shiftl 1 20) with (2 ^ 20); lia). done.
Qed.

(** A stand-in serializer: strings as their bytes. *)
Definition toy_serde : Serde string := {|
  to_vec s := Ok (String.list_byte_of_string s);
  from_slice b := Ok (String.string_of_list_byte b)
|}.
Lemma toy_serde_laws : @SerdeLaws string toy_serde.
Proof. split. simpl. intros v b [= <-]. by rewrite String.string_of_list_byte_of_string. Qed.

Lemma framing_roundtrip_witness :
  (∃ msg, @write_json _ toy_serde "hello" = Ok msg ∧
     @read_json _ toy_serde (msg ++ [x01]) = Ok ("hello", [x01]) ∧
     ∀ n, (n < length msg)%nat → ∃ e, @read_json _ toy_serde (take n msg) = Err e ∧ ie_kind e = UnexpectedEof) ∧
  (∀ len tail, 2 ^ 20 < len < 2 ^ 32 →
     @read_json _ toy_serde (to_le_bytes 4 len ++ tail) = Err (io_other ("control message too large: " +:+ pretty len))).
Proof.
  apply (@framing_roundtrip _ toy_serde toy_serde_laws "hello" (String.list_byte_of_string "hello") [x01]);
    vm_compute; done.
Defined.
