(* ===== verification/Messages.v ===== *)
(** * Control messages as JSON (src/control.rs)

    What [#[derive(Serialize, Deserialize)]] makes of [Hello] and [Ack] under their attributes:
    camelCase names, fields skipped when they hold their default, defaults for absent fields,
    base64 byte fields; unknown fields are ignored, a repeated or a missing required field is
    an error, and an array of the fields in order is accepted too.  JSON text and base64 are
    the crates', given by classes.  The two mappings are instances of the serializer interface
    of [Control]. *)

From Stdlib Require Import Ascii.
From stdpp Require Import countable.
From S2P Require Import Prelude Errors Control.

(** ** JSON *)

(** [JNum] is a number without fraction or exponent, [JFloat] (its text) any other. *)
#[warnings="-register-all"]
Inductive json :=
| JNull
| JBool (b : bool)
| JNum (n : Z)
| JFloat (text : string)
| JStr (s : string)
| JArr (js : list json)
| JObj (fs : list (string * json)).

(** The texts of the [serde_json] crate. *)
Class JsonText := {
  json_print : json → list byte;
  json_parse : list byte → option json
}.

(** What can be printed: integers of the machine. *)
Fixpoint printable (j : json) : Prop :=
  match j with
  | JNum n => - 2 ^ 63 ≤ n < 2 ^ 64
  | JFloat _ => False
  | JArr js => (fix all (js : list json) : Prop := match js with [] => True | j :: js => printable j ∧ all js end) js
  | JObj fs => (fix all (fs : list (string * json)) : Prop := match fs with [] => True | (_, j) :: fs => printable j ∧ all fs end) fs
  | _ => True
  end.

Class JsonTextLaws `{!JsonText} : Prop := json_parse_print j : printable j → json_parse (json_print j) = Some j.

(** The standard engine of the [base64] crate. *)
Class Base64 := { b64_encode : list byte → string; b64_decode : string → option (list byte) }.
Class Base64Laws `{!Base64} : Prop := b64_decode_encode b : b64_decode (b64_encode b) = Some b.

(** ** Attributes *)

(** [rename_all = "camelCase"] on a field name. *)
Definition to_upper (c : ascii) : ascii :=
  let n := Ascii.nat_of_ascii c in if ((97 <=? n) && (n <=? 122))%nat then Ascii.ascii_of_nat (n - 32) else c.
Fixpoint camel_from (up : bool) (s : string) : string :=
  match s with
  | EmptyString => EmptyString
  | String c s' =>
      if bool_decide (c = "_"%char) then camel_from true s'
      else String (if up then to_upper c else c) (camel_from false s')
  end.
Definition camel (s : string) : string := camel_from false s.

(** [is_false], [is_zero_u64], [String::is_empty], [Option::is_none]. *)
Definition is_false (b : bool) : bool := negb b.
Definition is_zero_u64 (v : Z) : bool := v =? 0.
Definition str_is_empty (s : string) : bool := bool_decide (s = "").
Definition is_none {A} (o : option A) : bool := match o with None => true | Some _ => false end.

(** A field always written, and one written unless [skip]. *)
Definition put (name : string) (j : json) : list (string * json) := [(camel name, j)].
Definition put_unless (skip : bool) (name : string) (j : json) : list (string * json) :=
  if skip then [] else put name j.

(** Reading values: integers in range, booleans, strings, lists of strings, and [Option]s. *)
Definition get_int (lo hi : Z) (j : json) : option Z :=
  match j with JNum n => if (lo <=? n) && (n <? hi) then Some n else None | _ => None end.
Definition get_i64 : json → option Z := get_int (- 2 ^ 63) (2 ^ 63).
Definition get_u64 : json → option Z := get_int 0 (2 ^ 64).
Definition get_u32 : json → option Z := get_int 0 (2 ^ 32).
Definition get_bool (j : json) : option bool := match j with JBool b => Some b | _ => None end.
Definition get_str (j : json) : option string := match j with JStr s => Some s | _ => None end.
Definition get_option {A} (get : json → option A) (j : json) : option (option A) :=
  match j with JNull => Some None | _ => Some <$> get j end.
Definition get_strs (j : json) : option (list string) := match j with JArr js => mapM get_str js | _ => None end.

Section b64opt.
Context `{!Base64}.
(** [b64opt]. *)
Definition put_b64 (v : option (list byte)) : json := match v with Some b => JStr (b64_encode b) | None => JNull end.
Definition get_b64 (j : json) : option (option (list byte)) :=
  s ← get_option get_str j;
  match s with Some s => Some <$> b64_decode s | None => Some None end.
End b64opt.

(** A field of an object: at most one occurrence. *)
Definition find_field (name : string) (fs : list (string * json)) : option (option json) :=
  match filter (λ f, f.1 = camel name) fs with
  | [] => Some None
  | [f] => Some (Some f.2)
  | _ => None
  end.
(** The source of the fields: an object by name, or an array by position. *)
Inductive fields := ByName (fs : list (string * json)) | ByPlace (js : list json).
Definition fetch (src : fields) (name : string) (i : nat) : option (option json) :=
  match src with ByName fs => find_field name fs | ByPlace js => Some (js !! i) end.
Definition need {A} (get : json → option A) (name : string) (i : nat) (src : fields) : option A :=
  v ← fetch src name i; match v with Some j => get j | None => None end.
Definition need_or {A} (d : A) (get : json → option A) (name : string) (i : nat) (src : fields) : option A :=
  v ← fetch src name i; match v with Some j => get j | None => Some d end.
Definition source_of (n : nat) (j : json) : option fields :=
  match j with
  | JObj fs => Some (ByName fs)
  | JArr js => if (length js <=? n)%nat then Some (ByPlace js) else None
  | _ => None
  end.

(** ** The messages *)

Section messages.
Context `{!Base64}.

Definition hello_to_json (h : Hello) : json :=
  JObj (put "version" (JNum (h_version h)) ++ put "mode" (JStr (h_mode h)) ++ put "name" (JStr (h_name h)) ++
        put "size" (JNum (h_size h)) ++ put "block_size" (JNum (h_block_size h)) ++
        put "rate_bps" (JNum (h_rate_bps h)) ++ put "max_bps" (JNum (h_max_bps h)) ++
        put "adaptive" (JBool (h_adaptive h)) ++ put "alpha_bps" (JNum (h_alpha_bps h)) ++
        put "crc32c" (JNum (h_crc32c h)) ++
        put_unless (is_zero_u64 (h_warm_rate_bps h)) "warm_rate_bps" (JNum (h_warm_rate_bps h)) ++
        put_unless (is_zero_u64 (h_warm_srtt_net_us h)) "warm_srtt_net_us" (JNum (h_warm_srtt_net_us h)) ++
        put_unless (is_zero_u64 (h_warm_base_rtt_us h)) "warm_base_rtt_us" (JNum (h_warm_base_rtt_us h)) ++
        put_unless (is_false (h_encrypt h)) "encrypt" (JBool (h_encrypt h)) ++
        put_unless (is_none (h_ciphers h)) "ciphers"
          (match h_ciphers h with Some l => JArr (JStr <$> l) | None => JNull end) ++
        put_unless (is_none (h_pub_key h)) "pub_key" (put_b64 (h_pub_key h)) ++
        put_unless (is_none (h_auth_mac h)) "auth_mac" (put_b64 (h_auth_mac h))).

Definition hello_of_json (j : json) : option Hello :=
  src ← source_of 17 j;
  version ← need get_i64 "version" 0 src;
  mode ← need get_str "mode" 1 src;
  name ← need get_str "name" 2 src;
  size ← need get_i64 "size" 3 src;
  block_size ← need get_i64 "block_size" 4 src;
  rate_bps ← need get_u64 "rate_bps" 5 src;
  max_bps ← need get_u64 "max_bps" 6 src;
  adaptive ← need get_bool "adaptive" 7 src;
  alpha_bps ← need get_u64 "alpha_bps" 8 src;
  crc32c ← need get_u32 "crc32c" 9 src;
  warm_rate_bps ← need_or 0 get_u64 "warm_rate_bps" 10 src;
  warm_srtt_net_us ← need_or 0 get_u64 "warm_srtt_net_us" 11 src;
  warm_base_rtt_us ← need_or 0 get_u64 "warm_base_rtt_us" 12 src;
  encrypt ← need_or false get_bool "encrypt" 13 src;
  ciphers ← need_or None (get_option get_strs) "ciphers" 14 src;
  pub_key ← need_or None get_b64 "pub_key" 15 src;
  auth_mac ← need_or None get_b64 "auth_mac" 16 src;
  Some (mkHello version mode name size block_size rate_bps max_bps adaptive alpha_bps crc32c
          warm_rate_bps warm_srtt_net_us warm_base_rtt_us encrypt ciphers pub_key auth_mac).

Definition ack_to_json (a : Ack) : json :=
  JObj (put "ok" (JBool (a_ok a)) ++ put_unless (str_is_empty (a_err a)) "err" (JStr (a_err a)) ++
        put "udp_port" (JNum (a_udp_port a)) ++ put "session" (JNum (a_session a)) ++ put "size" (JNum (a_size a)) ++
        put "crc32c" (JNum (a_crc32c a)) ++ put "name" (JStr (a_name a)) ++
        put_unless (is_false (a_encrypt a)) "encrypt" (JBool (a_encrypt a)) ++
        put_unless (str_is_empty (a_cipher a)) "cipher" (JStr (a_cipher a)) ++
        put_unless (is_none (a_pub_key a)) "pub_key" (put_b64 (a_pub_key a)) ++
        put_unless (is_false (a_auth_required a)) "auth_required" (JBool (a_auth_required a)) ++
        put_unless (is_none (a_auth_mac a)) "auth_mac" (put_b64 (a_auth_mac a))).

Definition ack_of_json (j : json) : option Ack :=
  src ← source_of 12 j;
  ok ← need get_bool "ok" 0 src;
  err ← need_or "" get_str "err" 1 src;
  udp_port ← need get_i64 "udp_port" 2 src;
  session ← need get_u32 "session" 3 src;
  size ← need get_i64 "size" 4 src;
  crc32c ← need get_u32 "crc32c" 5 src;
  name ← need get_str "name" 6 src;
  encrypt ← need_or false get_bool "encrypt" 7 src;
  cipher ← need_or "" get_str "cipher" 8 src;
  pub_key ← need_or None get_b64 "pub_key" 9 src;
  auth_required ← need_or false get_bool "auth_required" 10 src;
  auth_mac ← need_or None get_b64 "auth_mac" 11 src;
  Some (mkAck ok err udp_port session size crc32c name encrypt cipher pub_key auth_required auth_mac).
End messages.

(** ** Round trip *)

(** An object as the list of its fields, with whether each is skipped. *)
Definition write_fields (l : list (string * bool * json)) : list (string * json) :=
  concat ((λ f : string * bool * json, put_unless f.1.2 f.1.1 f.2) <$> l).

Lemma filter_absent name l : camel name ∉ (λ f : string * bool * json, camel f.1.1) <$> l →
  filter (λ f, f.1 = camel name) (write_fields l) = [].
Proof.
  induction l as [|[[n skip] j] l IH]; [done|]. rewrite fmap_cons, not_elem_of_cons. intros [Hn Hl].
  unfold write_fields. cbn [fmap list_fmap concat]. rewrite filter_app. fold (write_fields l). rewrite IH by done.
  cbn [fst snd] in *. destruct skip; cbn [put_unless put]; [done|]. unfold put. rewrite filter_cons_False by (simpl; congruence). done.
Qed.

Lemma find_write l i name (skip : bool) j :
  NoDup ((λ f : string * bool * json, camel f.1.1) <$> l) → l !! i = Some (name, skip, j) →
  find_field name (write_fields l) = Some (if skip then None else Some j).
Proof.
  intros Hnd Hi. rewrite <-(take_drop_middle l i _ Hi) in Hnd |- *. rewrite fmap_app, fmap_cons in Hnd.
  apply NoDup_app in Hnd as (_ & H1 & Hnd). apply NoDup_cons in Hnd as [H2 _]. cbn [fst snd] in *.
  unfold find_field, write_fields. rewrite fmap_app, concat_app, filter_app, fmap_cons. cbn [concat fst snd]. rewrite filter_app.
  fold (write_fields (take i l)) (write_fields (drop (S i) l)).
  rewrite !filter_absent; [|done|intros Hin; apply (H1 _ Hin); by left].
  destruct skip; cbn [put_unless]; [done|]. unfold put. by rewrite filter_cons_True.
Qed.

Lemma need_written {A} (get : json → option A) l i k name j :
  NoDup ((λ f : string * bool * json, camel f.1.1) <$> l) → l !! i = Some (name, false, j) →
  need get name k (ByName (write_fields l)) = get j.
Proof. intros Hnd Hi. unfold need, fetch. by rewrite (find_write _ _ _ _ _ Hnd Hi). Qed.

Lemma need_or_written {A} (d v : A) (get : json → option A) l i k name (skip : bool) j :
  NoDup ((λ f : string * bool * json, camel f.1.1) <$> l) → l !! i = Some (name, skip, j) →
  (if skip then d = v else get j = Some v) →
  need_or d get name k (ByName (write_fields l)) = Some v.
Proof. intros Hnd Hi Hv. unfold need_or, fetch. rewrite (find_write _ _ _ _ _ Hnd Hi). by destruct skip; simpl; [f_equal|]. Qed.

Lemma get_int_ok lo hi n : lo ≤ n < hi → get_int lo hi (JNum n) = Some n.
Proof. intros ?. unfold get_int. by rewrite (proj2 (Z.leb_le _ _)), (proj2 (Z.ltb_lt _ _)) by lia. Qed.

Section roundtrip.
Context `{!Base64, !Base64Laws}.

Lemma get_put_b64 v : if is_none v then None = v else get_b64 (put_b64 v) = Some v.
Proof. destruct v as [b|]; [|done]. unfold get_b64, put_b64. simpl. by rewrite b64_decode_encode. Qed.
Lemma get_put_strs (v : option (list string)) :
  if is_none v then None = v
  else get_option get_strs (match v with Some l => JArr (JStr <$> l) | None => JNull end) = Some v.
Proof.
  destruct v as [l|]; [|done]. unfold get_option, get_strs. simpl.
  assert (mapM get_str (JStr <$> l) = Some l) as ->; [|done]. induction l as [|s l IH]; [done|].
  rewrite fmap_cons. cbn [mapM get_str mbind option_bind]. by rewrite IH.
Qed.
Lemma get_put_u64 v : is_u64 v → if is_zero_u64 v then 0 = v else get_u64 (JNum v) = Some v.
Proof. intros. unfold is_zero_u64. destruct (Z.eqb_spec v 0); [done|]. by apply get_int_ok. Qed.
Lemma get_put_bool b : if is_false b then false = b else get_bool (JBool b) = Some b.
Proof. by destruct b. Qed.
Lemma get_put_str s : if str_is_empty s then "" = s else get_str (JStr s) = Some s.
Proof. unfold str_is_empty. by case_bool_decide. Qed.

Definition hello_fields (h : Hello) : list (string * bool * json) :=
  [("version", false, JNum (h_version h)); ("mode", false, JStr (h_mode h)); ("name", false, JStr (h_name h));
   ("size", false, JNum (h_size h)); ("block_size", false, JNum (h_block_size h));
   ("rate_bps", false, JNum (h_rate_bps h)); ("max_bps", false, JNum (h_max_bps h));
   ("adaptive", false, JBool (h_adaptive h)); ("alpha_bps", false, JNum (h_alpha_bps h));
   ("crc32c", false, JNum (h_crc32c h));
   ("warm_rate_bps", is_zero_u64 (h_warm_rate_bps h), JNum (h_warm_rate_bps h));
   ("warm_srtt_net_us", is_zero_u64 (h_warm_srtt_net_us h), JNum (h_warm_srtt_net_us h));
   ("warm_base_rtt_us", is_zero_u64 (h_warm_base_rtt_us h), JNum (h_warm_base_rtt_us h));
   ("encrypt", is_false (h_encrypt h), JBool (h_encrypt h));
   ("ciphers", is_none (h_ciphers h), match h_ciphers h with Some l => JArr (JStr <$> l) | None => JNull end);
   ("pub_key", is_none (h_pub_key h), put_b64 (h_pub_key h));
   ("auth_mac", is_none (h_auth_mac h), put_b64 (h_auth_mac h))].

Lemma hello_to_fields h : hello_to_json h = JObj (write_fields (hello_fields h)).
Proof. unfold hello_to_json, write_fields, hello_fields. cbn [fmap list_fmap concat fst snd]. by rewrite app_nil_r. Qed.
Lemma hello_names h : NoDup ((λ f : string * bool * json, camel f.1.1) <$> hello_fields h).
Proof. apply (bool_decide_unpack _). vm_compute. done. Qed.

Definition wf_ack (a : Ack) : Prop :=
  is_i64 (a_udp_port a) ∧ is_u32 (a_session a) ∧ is_i64 (a_size a) ∧ is_u32 (a_crc32c a).

Definition ack_fields (a : Ack) : list (string * bool * json) :=
  [("ok", false, JBool (a_ok a)); ("err", str_is_empty (a_err a), JStr (a_err a));
   ("udp_port", false, JNum (a_udp_port a)); ("session", false, JNum (a_session a)); ("size", false, JNum (a_size a));
   ("crc32c", false, JNum (a_crc32c a)); ("name", false, JStr (a_name a));
   ("encrypt", is_false (a_encrypt a), JBool (a_encrypt a)); ("cipher", str_is_empty (a_cipher a), JStr (a_cipher a));
   ("pub_key", is_none (a_pub_key a), put_b64 (a_pub_key a));
   ("auth_required", is_false (a_auth_required a), JBool (a_auth_required a));
   ("auth_mac", is_none (a_auth_mac a), put_b64 (a_auth_mac a))].

Lemma ack_to_fields a : ack_to_json a = JObj (write_fields (ack_fields a)).
Proof. unfold ack_to_json, write_fields, ack_fields. cbn [fmap list_fmap concat fst snd]. by rewrite app_nil_r. Qed.
Lemma ack_names a : NoDup ((λ f : string * bool * json, camel f.1.1) <$> ack_fields a).
Proof. apply (bool_decide_unpack _). vm_compute. done. Qed.

(** Reading the next field: where it is, and that its value reads back. *)
Ltac read_need Hnd i := rewrite (need_written _ _ i _ _ _ Hnd eq_refl); cbn [mbind option_bind].
Ltac read_int Hnd i := read_need Hnd i; unfold get_i64, get_u64, get_u32; rewrite get_int_ok by assumption; cbn [mbind option_bind].
Ltac read_or Hnd i H := rewrite (need_or_written _ _ _ _ i _ _ _ _ Hnd eq_refl H); cbn [mbind option_bind].

Lemma hello_roundtrip h : wf_hello h → hello_of_json (hello_to_json h) = Some h.
Proof.
  intros (?&?&?&?&?&?&?&?&?&?). rewrite hello_to_fields. unfold hello_of_json. cbn [source_of mbind option_bind].
  pose proof (hello_names h) as Hnd.
  read_int Hnd 0%nat. read_need Hnd 1%nat. cbn [get_str]. cbn [mbind option_bind]. read_need Hnd 2%nat. cbn [get_str mbind option_bind].
  read_int Hnd 3%nat. read_int Hnd 4%nat. read_int Hnd 5%nat. read_int Hnd 6%nat.
  read_need Hnd 7%nat. cbn [get_bool mbind option_bind]. read_int Hnd 8%nat. read_int Hnd 9%nat.
  read_or Hnd 10%nat (get_put_u64 (h_warm_rate_bps h) ltac:(done)).
  read_or Hnd 11%nat (get_put_u64 (h_warm_srtt_net_us h) ltac:(done)).
  read_or Hnd 12%nat (get_put_u64 (h_warm_base_rtt_us h) ltac:(done)).
  read_or Hnd 13%nat (get_put_bool (h_encrypt h)). read_or Hnd 14%nat (get_put_strs (h_ciphers h)).
  read_or Hnd 15%nat (get_put_b64 (h_pub_key h)). read_or Hnd 16%nat (get_put_b64 (h_auth_mac h)). by destruct h.
Qed.

Lemma ack_roundtrip a : wf_ack a → ack_of_json (ack_to_json a) = Some a.
Proof.
  intros (?&?&?&?). rewrite ack_to_fields. unfold ack_of_json. cbn [source_of mbind option_bind].
  pose proof (ack_names a) as Hnd.
  read_need Hnd 0%nat. cbn [get_bool mbind option_bind]. read_or Hnd 1%nat (get_put_str (a_err a)).
  read_int Hnd 2%nat. read_int Hnd 3%nat. read_int Hnd 4%nat. read_int Hnd 5%nat.
  read_need Hnd 6%nat. cbn [get_str mbind option_bind].
  read_or Hnd 7%nat (get_put_bool (a_encrypt a)). read_or Hnd 8%nat (get_put_str (a_cipher a)).
  read_or Hnd 9%nat (get_put_b64 (a_pub_key a)). read_or Hnd 10%nat (get_put_bool (a_auth_required a)).
  read_or Hnd 11%nat (get_put_b64 (a_auth_mac a)). by destruct a.
Qed.
End roundtrip.

(** ** The serializer of the control plane *)

#[export] Instance wf_hello_dec h : Decision (wf_hello h).
Proof. unfold wf_hello, is_i64, is_uint. apply _. Defined.
#[export] Instance wf_ack_dec a : Decision (wf_ack a).
Proof. unfold wf_ack, is_i64, is_uint. apply _. Defined.

Section serde.
Context `{!Base64, !JsonText}.

(** [serde_json::to_vec] and [from_slice]; the types hold only integers of their width. *)
#[export] Instance hello_serde : Serde Hello := {|
  to_vec h := if decide (wf_hello h) then Ok (json_print (hello_to_json h)) else Err "integer out of range";
  from_slice b :=
    match json_parse b ≫= hello_of_json with Some h => Ok h | None => Err "invalid message" end
|}.
#[export] Instance ack_serde : Serde Ack := {|
  to_vec a := if decide (wf_ack a) then Ok (json_print (ack_to_json a)) else Err "integer out of range";
  from_slice b :=
    match json_parse b ≫= ack_of_json with Some a => Ok a | None => Err "invalid message" end
|}.

Context `{!Base64Laws, !JsonTextLaws}.

Lemma printable_obj fs : Forall (λ f : string * json, printable f.2) fs → printable (JObj fs).
Proof. induction 1 as [|[k j] fs Hj _ IH]; [done|]. by split. Qed.
Lemma printable_strs l : printable (JArr (JStr <$> l)).
Proof. induction l as [|s l IH]; [done|]. by split. Qed.
Lemma printable_fields l : Forall (λ f : string * bool * json, f.1.2 = false → printable f.2) l → printable (JObj (write_fields l)).
Proof.
  intros Hl. apply printable_obj. induction Hl as [|[[n skip] j] l Hj _ IH]; [constructor|].
  unfold write_fields. cbn [fmap list_fmap concat fst snd] in *. apply Forall_app. split; [|exact IH].
  destruct skip; cbn [put_unless]; [constructor|]. constructor; [by apply Hj|constructor].
Qed.

Lemma put_b64_printable v : printable (put_b64 v).
Proof. by destruct v. Qed.

Ltac all_printable :=
  repeat (apply Forall_cons_2; [cbn [fst snd]; intros _; try first [apply put_b64_printable | simpl; lia | exact I]|]);
  try apply Forall_nil_2.

#[export] Instance hello_serde_laws : SerdeLaws Hello.
Proof.
  split. intros h b. cbn [to_vec hello_serde]. destruct (decide (wf_hello h)) as [Hwf|]; [|done]. intros [= <-].
  cbn [from_slice hello_serde]. rewrite json_parse_print; [cbn [mbind option_bind]; by rewrite hello_roundtrip|].
  rewrite hello_to_fields. apply printable_fields. destruct Hwf as (?&?&?&?&?&?&?&?&?&?). unfold is_i64, is_uint in *.
  all_printable. destruct (h_ciphers h); [apply printable_strs|done].
Qed.
#[export] Instance ack_serde_laws : SerdeLaws Ack.
Proof.
  split. intros a b. cbn [to_vec ack_serde]. destruct (decide (wf_ack a)) as [Hwf|]; [|done]. intros [= <-].
  cbn [from_slice ack_serde]. rewrite json_parse_print; [cbn [mbind option_bind]; by rewrite ack_roundtrip|].
  rewrite ack_to_fields. apply printable_fields. destruct Hwf as (?&?&?&?). unfold is_i64, is_uint in *.
  all_printable.
Qed.
End serde.

(** ** What an older or newer peer sends *)

(** Fields this version does not know. *)
Definition unknown (known : list string) (fs : list (string * json)) : Prop :=
  ∀ f, f ∈ fs → f.1 ∉ camel <$> known.

Definition hello_keys : list string :=
  ["version"; "mode"; "name"; "size"; "block_size"; "rate_bps"; "max_bps"; "adaptive"; "alpha_bps"; "crc32c";
   "warm_rate_bps"; "warm_srtt_net_us"; "warm_base_rtt_us"; "encrypt"; "ciphers"; "pub_key"; "auth_mac"].
Definition ack_keys : list string :=
  ["ok"; "err"; "udp_port"; "session"; "size"; "crc32c"; "name"; "encrypt"; "cipher"; "pub_key"; "auth_required";
   "auth_mac"].

Lemma find_field_extra name known fs1 ext fs2 :
  unknown known ext → name ∈ known → find_field name (fs1 ++ ext ++ fs2) = find_field name (fs1 ++ fs2).
Proof.
  intros Hu Hn. unfold find_field. rewrite !filter_app.
  replace (filter (λ f : string * json, f.1 = camel name) ext) with ([] : list (string * json)); [done|].
  symmetry. apply elem_of_nil_inv. intros f [Hf Hin]%list_elem_of_filter. apply (Hu f Hin). rewrite Hf. by apply list_elem_of_fmap_2.
Qed.

(** C37: control messages survive the wire.  Every [Hello] and every [Ack] whose integers have
    their width and whose text fits the frame limit of 1 MiB, written as JSON under the
    attributes of the structs and framed, is read back unchanged, with what follows it on the
    connection untouched; and in both messages, fields a peer adds that this version does not
    know, anywhere in the object, change nothing in what is read. *)
Theorem control_messages_roundtrip `{!Base64, !Base64Laws, !JsonText, !JsonTextLaws} :
  (∀ h rest, wf_hello h → length (json_print (hello_to_json h)) ≤ 2 ^ 20 →
     ∃ msg, write_json h = Ok msg ∧ read_json (msg ++ rest) = Ok (h, rest)) ∧
  (∀ a rest, wf_ack a → length (json_print (ack_to_json a)) ≤ 2 ^ 20 →
     ∃ msg, write_json a = Ok msg ∧ read_json (msg ++ rest) = Ok (a, rest)) ∧
  (∀ fs1 ext fs2, unknown hello_keys ext → hello_of_json (JObj (fs1 ++ ext ++ fs2)) = hello_of_json (JObj (fs1 ++ fs2))) ∧
  (∀ fs1 ext fs2, unknown ack_keys ext → ack_of_json (JObj (fs1 ++ ext ++ fs2)) = ack_of_json (JObj (fs1 ++ fs2))).
Proof.
  split_and!.
  - intros h rest Hwf Hl. destruct (framing_roundtrip h (json_print (hello_to_json h)) rest) as [(msg & E1 & E2 & _) _];
      [cbn [to_vec hello_serde]; by rewrite decide_True|done|]. by exists msg.
  - intros a rest Hwf Hl. destruct (framing_roundtrip a (json_print (ack_to_json a)) rest) as [(msg & E1 & E2 & _) _];
      [cbn [to_vec ack_serde]; by rewrite decide_True|done|]. by exists msg.
  - intros fs1 ext fs2 Hu. unfold hello_of_json. cbn [source_of mbind option_bind]. unfold need, need_or, fetch.
    assert (∀ name, name ∈ hello_keys → find_field name (fs1 ++ ext ++ fs2) = find_field name (fs1 ++ fs2)) as Hf
      by (intros; by eapply find_field_extra).
    rewrite !Hf by (apply (bool_decide_unpack _); vm_compute; done). done.
  - intros fs1 ext fs2 Hu. unfold ack_of_json. cbn [source_of mbind option_bind]. unfold need, need_or, fetch.
    assert (∀ name, name ∈ ack_keys → find_field name (fs1 ++ ext ++ fs2) = find_field name (fs1 ++ fs2)) as Hf
      by (intros; by eapply find_field_extra).
    rewrite !Hf by (apply (bool_decide_unpack _); vm_compute; done). done.
Qed.

(** ** Stand-ins for the crates *)

(** JSON as the bits of its code: any value prints to a text that parses back. *)
Definition leaf : Type := bool + Z + string + string.
Fixpoint json_tree (j : json) : gen_tree leaf :=
  match j with
  | JNull => GenNode 0 []
  | JBool b => GenLeaf (inl (inl (inl b)))
  | JNum n => GenLeaf (inl (inl (inr n)))
  | JFloat t => GenLeaf (inl (inr t))
  | JStr s => GenLeaf (inr s)
  | JArr js => GenNode 1 (json_tree <$> js)
  | JObj fs => GenNode 2 ((λ f, GenNode 3 [GenLeaf (inr f.1); json_tree f.2]) <$> fs)
  end.
Fixpoint tree_json (t : gen_tree leaf) : json :=
  match t with
  | GenLeaf (inl (inl (inl b))) => JBool b
  | GenLeaf (inl (inl (inr n))) => JNum n
  | GenLeaf (inl (inr t)) => JFloat t
  | GenLeaf (inr s) => JStr s
  | GenNode 1 ts => JArr (tree_json <$> ts)
  | GenNode 2 ts =>
      JObj ((λ t, match t with GenNode _ [GenLeaf (inr k); v] => (k, tree_json v) | _ => ("", JNull) end) <$> ts)
  | GenNode _ _ => JNull
  end.

Lemma tree_json_tree : ∀ j, tree_json (json_tree j) = j.
Proof.
  fix IH 1. intros [|b|n|t|s|js|fs]; try reflexivity; cbn [json_tree tree_json]; f_equal.
  - induction js as [|j js IHjs]; [reflexivity|]. cbn [fmap list_fmap]. f_equal; [apply IH|exact IHjs].
  - induction fs as [|[k j] fs IHfs]; [reflexivity|]. cbn [fmap list_fmap fst snd]. f_equal; [by rewrite IH|exact IHfs].
Qed.

Fixpoint pos_bits (p : positive) : list byte :=
  match p with xH => [] | xO p => x00 :: pos_bits p | xI p => x01 :: pos_bits p end.
Fixpoint bits_pos (l : list byte) : positive :=
  match l with [] => xH | x00 :: l => xO (bits_pos l) | _ :: l => xI (bits_pos l) end.
Lemma bits_pos_bits p : bits_pos (pos_bits p) = p.
Proof. induction p; simpl; congruence. Qed.

Definition toy_json : JsonText := {|
  json_print j := pos_bits (encode (json_tree j));
  json_parse b := tree_json <$> decode (bits_pos b)
|}.
Lemma toy_json_laws : @JsonTextLaws toy_json.
Proof. intros j _. cbn [json_parse json_print toy_json]. rewrite bits_pos_bits, decode_encode. simpl. by rewrite tree_json_tree. Qed.

Definition toy_base64 : Base64 := {|
  b64_encode := String.string_of_list_byte;
  b64_decode s := Some (String.list_byte_of_string s)
|}.
Lemma toy_base64_laws : @Base64Laws toy_base64.
Proof. intros b. cbn [b64_decode b64_encode toy_base64]. by rewrite String.list_byte_of_string_of_list_byte. Qed.

Definition demo_ack : Ack := mkAck true "" 9000 77 7 1 "f" false "" (Some [x01; x02]) false None.

Lemma control_messages_roundtrip_witness :
  (∃ msg, @write_json Ack (@ack_serde toy_base64 toy_json) demo_ack = Ok msg ∧
    @read_json Ack (@ack_serde toy_base64 toy_json) (msg ++ [xff]) = Ok (demo_ack, [xff])) ∧
  ∀ fs, @ack_of_json toy_base64 (JObj (("future", JNum 1) :: fs)) = @ack_of_json toy_base64 (JObj fs).
Proof.
  destruct (@control_messages_roundtrip toy_base64 toy_base64_laws toy_json toy_json_laws) as (_ & Hack & _ & Hext).
  split; [apply Hack; vm_compute; done|]. intros fs. apply (Hext [] [("future", JNum 1)] fs).
  intros f ->%list_elem_of_singleton. apply (bool_decide_unpack _). vm_compute. done.
Defined.

(** An [Ack] as the object it becomes. *)
Example demo_ack_json : @ack_to_json toy_base64 ack_default =
  JObj [("ok", JBool false); ("udpPort", JNum 0); ("session", JNum 0); ("size", JNum 0); ("crc32c", JNum 0); ("name", JStr "")].
Proof. vm_compute. done. Qed.
