(* ===== verification/Net.v ===== *)
(** * Socket addresses

    [std::net] addresses as the program compares them: by value, and by IP. *)

From S2P Require Import Prelude.

Inductive IpAddr := V4 (ip : Z) | V6 (ip : Z).
Record SocketAddr := mkSocketAddr { sa_ip : IpAddr; sa_port : Z; sa_flowinfo : Z; sa_scope_id : Z }.

Global Instance IpAddr_eq_dec : EqDecision IpAddr.
Proof. solve_decision. Defined.
Global Instance SocketAddr_eq_dec : EqDecision SocketAddr.
Proof. solve_decision. Defined.

(** [expected.is_some_and(|ip| a.ip() != ip)]. *)
Definition foreign_ip (expected : option IpAddr) (a : SocketAddr) : bool :=
  match expected with Some ip => negb (bool_decide (sa_ip a = ip)) | None => false end.
