(* ===== verification/SockAddr.v ===== *)
(** * Socket addresses in memory (src/sys/linux.rs, src/sys/rio.rs)

    The C structures [sockaddr_in] and [sockaddr_in6] as bytes, as the kernel fills them and
    as the Windows backend writes them, and the two parsers that turn them back into a
    [SocketAddr].  The host is little-endian; the address-family number of IPv6 differs
    between the systems. *)

From S2P Require Import Prelude Net.

Definition AF_INET : Z := 2.
Definition AF_INET6_LINUX : Z := 10.
Definition AF_INET6_WINDOWS : Z := 23.

Definition SOCKADDR_IN_SIZE : nat := 16.
Definition SOCKADDR_IN6_SIZE : nat := 28.
Definition SOCKADDR_STORAGE_SIZE : nat := 128.

(** Big-endian fields. *)
Definition to_be_bytes (n : nat) (v : Z) : list byte := reverse (to_le_bytes n v).
Definition from_be_bytes (bs : list byte) : Z := from_le_bytes (reverse bs).

(** [write_sockaddr]: the bytes of the zero-initialised structure for an address. *)
Definition write_sockaddr (af6 : Z) (a : SocketAddr) : list byte :=
  match sa_ip a with
  | V4 ip => to_le_bytes 2 AF_INET ++ to_be_bytes 2 (sa_port a) ++ to_be_bytes 4 ip ++ replicate 8 x00
  | V6 ip => to_le_bytes 2 af6 ++ to_be_bytes 2 (sa_port a) ++ to_le_bytes 4 (sa_flowinfo a) ++
             to_be_bytes 16 ip ++ to_le_bytes 4 (sa_scope_id a)
  end.

(** A field of a structure. *)
Definition field (b : list byte) (off n : nat) : list byte := take n (drop off b).

Definition parse_v4 (b : list byte) : SocketAddr :=
  mkSocketAddr (V4 (from_be_bytes (field b 4 4))) (from_be_bytes (field b 2 2)) 0 0.
Definition parse_v6 (b : list byte) : SocketAddr :=
  mkSocketAddr (V6 (from_be_bytes (field b 8 16))) (from_be_bytes (field b 2 2))
    (from_le_bytes (field b 4 4)) (from_le_bytes (field b 24 4)).

(** Linux: [sockaddr_to_socketaddr] checks the length the kernel reported. *)
Definition sockaddr_to_socketaddr (ss : list byte) (len : nat) : option SocketAddr :=
  let family := from_le_bytes (field ss 0 2) in
  if family =? AF_INET then
    if (len <? SOCKADDR_IN_SIZE)%nat then None else Some (parse_v4 ss)
  else if family =? AF_INET6_LINUX then
    if (len <? SOCKADDR_IN6_SIZE)%nat then None else Some (parse_v6 ss)
  else None.

(** Windows: [parse_addr] on the address scratch of a slot. *)
Definition parse_addr (slot : list byte) : option SocketAddr :=
  let family := from_le_bytes (field slot 0 2) in
  if family =? AF_INET then Some (parse_v4 slot)
  else if family =? AF_INET6_WINDOWS then Some (parse_v6 slot)
  else None.

(** ** Round trip *)

(** The numbers of an address at their widths; IPv4 has no flow or scope. *)
Definition wf_addr (a : SocketAddr) : Prop :=
  is_u16 (sa_port a) ∧
  match sa_ip a with
  | V4 ip => is_u32 ip ∧ sa_flowinfo a = 0 ∧ sa_scope_id a = 0
  | V6 ip => is_uint 128 ip ∧ is_u32 (sa_flowinfo a) ∧ is_u32 (sa_scope_id a)
  end.

Lemma length_to_be_bytes n v : length (to_be_bytes n v) = n.
Proof. unfold to_be_bytes. by rewrite length_reverse, length_to_le_bytes. Qed.

Lemma from_to_be_bytes (n : nat) v : is_uint (8 * n) v → from_be_bytes (to_be_bytes n v) = v.
Proof. intros. unfold from_be_bytes, to_be_bytes. rewrite reverse_involutive. by apply from_to_le_bytes_id. Qed.

(** A field is what was written between what precedes and what follows it. *)
Lemma field_app off n pre x post : length pre = off → length x = n → field (pre ++ x ++ post) off n = x.
Proof. intros <- <-. unfold field. by rewrite drop_app_length, take_app_length. Qed.

Lemma field_head x post n : length x = n → field (x ++ post) 0 n = x.
Proof. by apply (field_app 0 n []). Qed.

Lemma length_write_sockaddr af6 a :
  length (write_sockaddr af6 a) = match sa_ip a with V4 _ => SOCKADDR_IN_SIZE | V6 _ => SOCKADDR_IN6_SIZE end.
Proof.
  unfold write_sockaddr. destruct (sa_ip a); rewrite !length_app, ?length_replicate, ?length_to_be_bytes, ?length_to_le_bytes;
    reflexivity.
Qed.

Lemma write_sockaddr_family af6 a rest :
  is_u16 af6 → from_le_bytes (field (write_sockaddr af6 a ++ rest) 0 2) =
    match sa_ip a with V4 _ => AF_INET | V6 _ => af6 end.
Proof.
  intros Haf. unfold write_sockaddr. destruct (sa_ip a); rewrite <-!app_assoc;
    rewrite field_head by apply length_to_le_bytes.
  - apply from_to_le_bytes_id. vm_compute. done.
  - by apply from_to_le_bytes_id.
Qed.

Lemma parse_v4_written af6 ip port rest :
  is_u32 ip → is_u16 port →
  parse_v4 (write_sockaddr af6 (mkSocketAddr (V4 ip) port 0 0) ++ rest) = mkSocketAddr (V4 ip) port 0 0.
Proof.
  intros Hip Hp. unfold parse_v4, write_sockaddr. simpl sa_ip. cbn match. rewrite <-!app_assoc. simpl sa_port.
  rewrite (field_app 2 2 (to_le_bytes 2 AF_INET) (to_be_bytes 2 port)) by (rewrite ?length_to_le_bytes, ?length_to_be_bytes; done).
  rewrite (app_assoc (to_le_bytes 2 AF_INET)).
  rewrite (field_app 4 4 (to_le_bytes 2 AF_INET ++ to_be_bytes 2 port) (to_be_bytes 4 ip))
    by (rewrite ?length_app, ?length_to_le_bytes, ?length_to_be_bytes; done).
  by rewrite !from_to_be_bytes.
Qed.

Lemma parse_v6_written af6 ip port flow scope rest :
  is_uint 128 ip → is_u16 port → is_u32 flow → is_u32 scope →
  parse_v6 (write_sockaddr af6 (mkSocketAddr (V6 ip) port flow scope) ++ rest) = mkSocketAddr (V6 ip) port flow scope.
Proof.
  intros Hip Hp Hf Hs. unfold parse_v6, write_sockaddr. simpl sa_ip. cbn match. rewrite <-!app_assoc.
  cbn [sa_port sa_flowinfo sa_scope_id].
  set (f := to_le_bytes 2 af6). set (p := to_be_bytes 2 port). set (fl := to_le_bytes 4 flow).
  set (i := to_be_bytes 16 ip). set (sc := to_le_bytes 4 scope).
  assert (length f = 2%nat ∧ length p = 2%nat ∧ length fl = 4%nat ∧ length i = 16%nat ∧ length sc = 4%nat)
    as (Lf & Lp & Lfl & Li & Ls).
  { subst f p fl i sc. by rewrite !length_to_be_bytes, !length_to_le_bytes. }
  rewrite (field_app 2 2 f p) by done.
  rewrite (app_assoc f p), (field_app 4 4 (f ++ p) fl) by (rewrite ?length_app; lia).
  rewrite (app_assoc (f ++ p) fl), (field_app 8 16 ((f ++ p) ++ fl) i) by (rewrite ?length_app; lia).
  rewrite (app_assoc ((f ++ p) ++ fl) i), (field_app 24 4 (((f ++ p) ++ fl) ++ i) sc) by (rewrite ?length_app; lia).
  subst p fl i sc. by rewrite !from_to_be_bytes, !from_to_le_bytes_id.
Qed.

Lemma sockaddr_linux_spec a rest :
  wf_addr a →
  sockaddr_to_socketaddr (write_sockaddr AF_INET6_LINUX a ++ rest) (length (write_sockaddr AF_INET6_LINUX a)) = Some a.
Proof.
  intros [Hp Hip]. unfold sockaddr_to_socketaddr. rewrite write_sockaddr_family by (vm_compute; done).
  rewrite length_write_sockaddr. destruct a as [[ip|ip] port flow scope]; cbn [sa_ip sa_port sa_flowinfo sa_scope_id] in *.
  - destruct Hip as (Hip & -> & ->). rewrite Z.eqb_refl, Nat.ltb_irrefl. by rewrite parse_v4_written.
  - destruct Hip as (Hip & Hf & Hs). cbn [sa_ip]. change (AF_INET6_LINUX =? AF_INET) with false. rewrite Z.eqb_refl, Nat.ltb_irrefl.
    by rewrite parse_v6_written.
Qed.

Lemma sockaddr_windows_spec a rest :
  wf_addr a → parse_addr (write_sockaddr AF_INET6_WINDOWS a ++ rest) = Some a.
Proof.
  intros [Hp Hip]. unfold parse_addr. rewrite write_sockaddr_family by (vm_compute; done).
  destruct a as [[ip|ip] port flow scope]; cbn [sa_ip sa_port sa_flowinfo sa_scope_id] in *.
  - destruct Hip as (Hip & -> & ->). rewrite Z.eqb_refl. by rewrite parse_v4_written.
  - destruct Hip as (Hip & Hf & Hs). change (AF_INET6_WINDOWS =? AF_INET) with false. rewrite Z.eqb_refl.
    by rewrite parse_v6_written.
Qed.

(** Result: a peer address survives its C representation: what [write_sockaddr] puts into a
    slot is read back by the Windows parser as the same address, IPv4 or IPv6, whatever
    follows it in the slot; and the Linux parser reads the same structure back, and refuses
    it when the reported length is shorter than the structure. *)
Theorem sockaddr_roundtrip a rest :
  wf_addr a →
  parse_addr (write_sockaddr AF_INET6_WINDOWS a ++ rest) = Some a ∧
  (let ss := write_sockaddr AF_INET6_LINUX a in
   sockaddr_to_socketaddr (ss ++ rest) (length ss) = Some a ∧
   ∀ len, (len < length ss)%nat → sockaddr_to_socketaddr (ss ++ rest) len = None).
Proof.
  intros Hwf. split; [by apply sockaddr_windows_spec|]. split; [by apply sockaddr_linux_spec|].
  intros len. rewrite length_write_sockaddr. unfold sockaddr_to_socketaddr.
  rewrite write_sockaddr_family by (vm_compute; done). destruct (sa_ip a); intros Hl.
  - rewrite Z.eqb_refl. by rewrite (proj2 (Nat.ltb_lt _ _) Hl).
  - change (AF_INET6_LINUX =? AF_INET) with false. rewrite Z.eqb_refl. by rewrite (proj2 (Nat.ltb_lt _ _) Hl).
Qed.

Lemma sockaddr_roundtrip_witness :
  parse_addr (write_sockaddr AF_INET6_WINDOWS (mkSocketAddr (V6 1) 7400 5 3) ++ replicate 4 x00) =
    Some (mkSocketAddr (V6 1) 7400 5 3).
Proof. apply (sockaddr_roundtrip (mkSocketAddr (V6 1) 7400 5 3) (replicate 4 x00)). vm_compute. intuition congruence. Defined.
