(* ===== verification/Udp.v ===== *)
(** * Batched datagram I/O (src/sys/linux.rs, src/sys/portable.rs)

    The two socket backends behind the data plane: Linux sends and receives many datagrams
    per system call and falls back to one by one; the portable backend always goes one by
    one.  What a backend promises is a class with laws, both backends are instances, and
    the client of the interface is proved against it.  The kernel's answers are arguments;
    what is relied on of them ([sendmmsg] never reports more messages than it was given,
    [recvmmsg] never returns more than there are slots) is stated as a contract. *)

From S2P Require Import Prelude Errors Net SockAddr Protocol.

(** ** What the kernel answers *)

(** A [sendmmsg] call: the number of messages sent, or an error ([EINTR] or not). *)
Inductive mmsg_answer := Sent (r : nat) | SendErr (eintr : bool).

Global Instance mmsg_answer_eq_dec : EqDecision mmsg_answer.
Proof. solve_decision. Defined.

(** The answers during one flush: those of [sendmmsg], in order, and whether [send_to]
    succeeds for the datagram at a position of the queue. *)
Record send_kernel := mkSendKernel { sk_mmsg : list mmsg_answer; sk_send_to : nat → bool }.

(** [sendmmsg(2)] sends at most the messages it is given. *)
Fixpoint mmsg_contract (answers : list mmsg_answer) (n_left : nat) : Prop :=
  match answers with
  | [] => True
  | Sent r :: answers' => (r ≤ n_left)%nat ∧ mmsg_contract answers' (n_left - r)
  | SendErr _ :: answers' => mmsg_contract answers' n_left
  end.

(** ** The Linux sender *)

Record BatchSender := mkBatchSender {
  bs_cap : nat;
  bs_iovs : list (list byte);
  bs_n : nat;
  bs_bad : bool
}.

(** [BatchSender::new]; [no_batch] is the environment switch. *)
Definition sender_new (cap_hint : nat) (no_batch : bool) : BatchSender :=
  let cap := Nat.max cap_hint 8 in mkBatchSender cap (replicate cap []) 0 no_batch.

Definition bs_reset (s : BatchSender) : BatchSender := mkBatchSender (bs_cap s) (bs_iovs s) 0 (bs_bad s).

(** [add]: a full batch ignores the datagram. *)
Definition bs_add (s : BatchSender) (p : list byte) : BatchSender :=
  if (bs_cap s <=? bs_n s)%nat then s
  else mkBatchSender (bs_cap s) (<[bs_n s := p]> (bs_iovs s)) (S (bs_n s)) (bs_bad s).

Definition bs_len (s : BatchSender) : nat := bs_n s.
Definition bs_is_empty (s : BatchSender) : bool := (bs_n s =? 0)%nat.

(** The [sendmmsg] loop on the [n_left] messages not sent yet: the number sent, and whether
    batching is given up; [None] while the kernel has not answered. *)
Fixpoint mmsg_loop (answers : list mmsg_answer) (n_left sent : nat) : option (nat * bool) :=
  if (n_left =? 0)%nat then Some (sent, false) else
  match answers with
  | [] => None
  | SendErr true :: answers' => mmsg_loop answers' n_left sent
  | SendErr false :: _ => Some (sent, true)
  | Sent O :: _ => Some (sent, false)
  | Sent r :: answers' => mmsg_loop answers' (n_left - r) (sent + r)
  end.

(** One [send_to] per datagram, the first at position [i]: the datagrams that left. *)
Fixpoint send_each (ok : nat → bool) (i : nat) (pkts : list (list byte)) : list (list byte) :=
  match pkts with
  | [] => []
  | p :: pkts' => if ok i then p :: send_each ok (S i) pkts' else send_each ok (S i) pkts'
  end.

(** [flush]: the sender, the number of datagrams reported as sent, and those that left the
    host, in order. *)
Definition bs_flush (s : BatchSender) (k : send_kernel) : option (BatchSender * nat * list (list byte)) :=
  let n := bs_n s in
  if (n =? 0)%nat then Some (s, O, []) else
  match (if bs_bad s then Some (O, false) else mmsg_loop (sk_mmsg k) n 0) with
  | None => None
  | Some (sent, failed) =>
      let queue := take n (bs_iovs s) in
      let rest := send_each (sk_send_to k) sent (drop sent queue) in
      Some (mkBatchSender (bs_cap s) (bs_iovs s) n (bs_bad s || failed), (sent + length rest)%nat,
            take sent queue ++ rest)
  end.

(** [set_max_pacing_rate]: the bytes per second handed to the socket. *)
Definition set_max_pacing_rate (bps : Z) : Z :=
  let bytes_per_sec := bps / 8 in if 2 ^ 32 - 1 <? bytes_per_sec then 2 ^ 32 - 1 else bytes_per_sec.

(** ** The portable sender *)

Record PortableSender := mkPortableSender { ps_cap : nat; ps_pkts : list (list byte) }.

Definition portable_new (cap_hint : nat) : PortableSender := mkPortableSender (Nat.max cap_hint 8) [].
Definition ps_reset (s : PortableSender) : PortableSender := mkPortableSender (ps_cap s) [].
Definition ps_add (s : PortableSender) (p : list byte) : PortableSender :=
  if (ps_cap s <=? length (ps_pkts s))%nat then s else mkPortableSender (ps_cap s) (ps_pkts s ++ [p]).
Definition ps_len (s : PortableSender) : nat := length (ps_pkts s).
Definition ps_flush (s : PortableSender) (k : send_kernel) : option (PortableSender * nat * list (list byte)) :=
  let out := send_each (sk_send_to k) 0 (ps_pkts s) in Some (s, length out, out).

(** ** What a backend promises *)

Class Batching (S : Type) := {
  b_reset : S → S;
  b_add : S → list byte → S;
  b_flush : S → send_kernel → option (S * nat * list (list byte))
}.

Class BatchingLaws (S : Type) `{!Batching S} := {
  b_wf : S → Prop;
  b_capacity : S → nat;
  b_queue : S → list (list byte);
  b_reset_law s : b_wf s → b_wf (b_reset s) ∧ b_queue (b_reset s) = [] ∧ b_capacity (b_reset s) = b_capacity s;
  b_add_law s p : b_wf s → b_wf (b_add s p) ∧ b_capacity (b_add s p) = b_capacity s ∧
    b_queue (b_add s p) = if (length (b_queue s) <? b_capacity s)%nat then b_queue s ++ [p] else b_queue s;
  (** A flush offers every queued datagram once, in order. *)
  b_flush_law s k s' n out : b_wf s → mmsg_contract (sk_mmsg k) (length (b_queue s)) →
    b_flush s k = Some (s', n, out) →
    b_wf s' ∧ b_capacity s' = b_capacity s ∧ n = length out ∧
    ∃ sent, out = take sent (b_queue s) ++ send_each (sk_send_to k) sent (drop sent (b_queue s));
  (** It ends once the kernel has given one answer other than [EINTR] per datagram. *)
  b_flush_ends s k : b_wf s →
    (length (b_queue s) ≤ length (filter (λ a, a ≠ SendErr true) (sk_mmsg k)))%nat → is_Some (b_flush s k)
}.

Global Instance linux_batching : Batching BatchSender :=
  {| b_reset := bs_reset; b_add := bs_add; b_flush := bs_flush |}.
Global Instance portable_batching : Batching PortableSender :=
  {| b_reset := ps_reset; b_add := ps_add; b_flush := ps_flush |}.

(** ** The backends keep the promise *)

Lemma mmsg_loop_bound answers : ∀ n_left sent m failed,
  mmsg_contract answers n_left → mmsg_loop answers n_left sent = Some (m, failed) → (sent ≤ m ≤ sent + n_left)%nat.
Proof.
  induction answers as [|[r|[]] answers IH]; intros n_left sent m failed Hc; simpl;
    (destruct (Nat.eqb_spec n_left 0); [intros [= <- <-]; lia|]); [done| | |].
  - destruct Hc as [Hr Hc]. destruct r as [|r]; [intros [= <- <-]; lia|].
    intros E. apply IH in E; [lia|done].
  - by apply IH.
  - intros [= <- <-]. lia.
Qed.

Lemma mmsg_loop_ends answers : ∀ n_left sent,
  (n_left ≤ length (filter (λ a, a ≠ SendErr true) answers))%nat → is_Some (mmsg_loop answers n_left sent).
Proof.
  induction answers as [|a answers IH]; intros n_left sent Hn; simpl; destruct (Nat.eqb_spec n_left 0); try by eexists.
  { simpl in Hn. lia. }
  destruct a as [[|r]|[]]; [by eexists| | |by eexists].
  - rewrite filter_cons_True in Hn by done. simpl in Hn. apply IH. lia.
  - rewrite filter_cons_False in Hn by tauto. by apply IH.
Qed.

Global Instance linux_batching_laws : BatchingLaws BatchSender.
Proof.
  refine {| b_wf := λ s, (bs_n s ≤ bs_cap s)%nat ∧ length (bs_iovs s) = bs_cap s;
            b_capacity := bs_cap; b_queue := λ s, take (bs_n s) (bs_iovs s) |}; simpl.
  - intros s [Hn Hl]. split; [simpl; lia|done].
  - intros s p [Hn Hl]. rewrite length_take_le by lia. unfold bs_add.
    destruct (Nat.leb_spec (bs_cap s) (bs_n s)) as [Hf|Hf].
    + by rewrite (proj2 (Nat.ltb_ge _ _)).
    + rewrite (proj2 (Nat.ltb_lt _ _)) by done. simpl. rewrite length_insert. split; [lia|]. split; [done|].
      rewrite (take_S_r _ _ p) by (apply list_lookup_insert_eq; lia). by rewrite take_insert_ge.
  - intros s k s' n out [Hn Hl] Hc. rewrite length_take_le in Hc by lia. unfold bs_flush.
    destruct (Nat.eqb_spec (bs_n s) 0) as [E0|_].
    { intros [= <- <- <-]. split; [done|]. split; [done|]. split; [done|]. exists O. by rewrite E0. }
    destruct (if bs_bad s then _ else _) as [[sent failed]|] eqn:Eloop; [|done]. intros [= <- <- <-].
    split; [done|]. split; [done|]. split; [|by exists sent].
    assert (sent ≤ bs_n s)%nat.
    { destruct (bs_bad s); [injection Eloop as <- <-; lia|]. apply mmsg_loop_bound in Eloop; [lia|done]. }
    rewrite length_app, !length_take. lia.
  - intros s k [Hn Hl] Hk. rewrite length_take_le in Hk by lia. unfold bs_flush.
    destruct (Nat.eqb_spec (bs_n s) 0); [by eexists|]. destruct (bs_bad s); [by eexists|].
    destruct (mmsg_loop_ends (sk_mmsg k) (bs_n s) 0 Hk) as [[m failed] ->]. by eexists.
Defined.

Global Instance portable_batching_laws : BatchingLaws PortableSender.
Proof.
  refine {| b_wf := λ s, (length (ps_pkts s) ≤ ps_cap s)%nat; b_capacity := ps_cap; b_queue := ps_pkts |}; simpl.
  - intros s Hs. split; [lia|done].
  - intros s p Hs. unfold ps_add. destruct (Nat.leb_spec (ps_cap s) (length (ps_pkts s))).
    + by rewrite (proj2 (Nat.ltb_ge _ _)).
    + rewrite (proj2 (Nat.ltb_lt _ _)) by done. simpl. rewrite length_app. simpl. split; [lia|done].
  - intros s k s' n out Hs _ [= <- <- <-]. split; [done|]. split; [done|]. split; [done|]. by exists O.
  - intros s k _ _. by eexists.
Defined.

(** ** A batch through the interface *)

Lemma send_each_sublist ok pkts : ∀ i, send_each ok i pkts `sublist_of` pkts.
Proof.
  induction pkts as [|p pkts IH]; intros i; simpl; [done|]. destruct (ok i); [by apply sublist_skip|by apply sublist_cons].
Qed.

Lemma send_each_all ok pkts : (∀ i, ok i = true) → ∀ i, send_each ok i pkts = pkts.
Proof. intros Hok. induction pkts as [|p pkts IH]; intros i; simpl; [done|]. by rewrite Hok, IH. Qed.

Section batching.
Context {S : Type} `{!Batching S, !BatchingLaws S}.

Lemma add_all_queue msgs : ∀ s,
  b_wf s → (length (b_queue s) + length msgs ≤ b_capacity s)%nat →
  b_wf (foldl b_add s msgs) ∧ b_queue (foldl b_add s msgs) = b_queue s ++ msgs ∧
  b_capacity (foldl b_add s msgs) = b_capacity s.
Proof.
  induction msgs as [|m msgs IH]; intros s Hs Hl; simpl in *; [by rewrite app_nil_r|].
  destruct (b_add_law s m Hs) as (Hw & Hc & Hq). rewrite (proj2 (Nat.ltb_lt _ _)) in Hq by lia.
  destruct (IH (b_add s m)) as (Hw' & Hq' & Hc'); [done|rewrite Hq, Hc, length_app; simpl; lia|].
  split; [done|]. rewrite Hq', Hq, <-app_assoc, Hc', Hc. done.
Qed.

(** What leaves the host when a batch is built from scratch and flushed. *)
Definition send_batch (s : S) (msgs : list (list byte)) (k : send_kernel) : option (S * nat * list (list byte)) :=
  b_flush (foldl b_add (b_reset s) msgs) k.

Lemma send_batch_spec s msgs k :
  b_wf s → (length msgs ≤ b_capacity s)%nat → mmsg_contract (sk_mmsg k) (length msgs) →
  (∀ s' n out, send_batch s msgs k = Some (s', n, out) →
     b_wf s' ∧ b_capacity s' = b_capacity s ∧ out `sublist_of` msgs ∧ n = length out ∧
     ((∀ i, sk_send_to k i = true) → out = msgs)) ∧
  ((length msgs ≤ length (filter (λ a, a ≠ SendErr true) (sk_mmsg k)))%nat → is_Some (send_batch s msgs k)).
Proof.
  intros Hs Hl Hk. destruct (b_reset_law s Hs) as (Hw & Hq & Hc).
  destruct (add_all_queue msgs (b_reset s)) as (Hw' & Hq' & Hc'); [done|rewrite Hq, Hc; simpl; lia|].
  rewrite Hq in Hq'. simpl in Hq'. unfold send_batch. set (s1 := foldl b_add (b_reset s) msgs) in *. split.
  - intros s' n out E. destruct (b_flush_law s1 k s' n out) as (? & Hc1 & -> & sent & ->);
      [done|by rewrite Hq'|done|]. split; [done|]. split; [congruence|]. rewrite Hq'. split_and!; [|done|].
    + transitivity (take sent msgs ++ drop sent msgs); [|by rewrite take_drop].
      apply sublist_app; [done|apply send_each_sublist].
    + intros Hok. by rewrite send_each_all, take_drop.
  - intros Hn. apply b_flush_ends; [done|by rewrite Hq'].
Qed.

(** Result: a batch leaves the host in order, once.  Whatever the kernel answers within its
    contract (partial batches, interrupted calls, a batch call that is not supported, single
    sends that fail), for a batch within the capacity: the datagrams that leave the host
    are some of the batch in its order and none twice, [flush] reports exactly their
    number, all of them leave when no single send fails, and the flush ends as soon as the
    kernel has given one real answer per datagram.  It holds of every backend that keeps
    the laws of the interface, the Linux and the portable one among them. *)
Theorem batch_sent_in_order s msgs k :
  b_wf s → (length msgs ≤ b_capacity s)%nat → mmsg_contract (sk_mmsg k) (length msgs) →
  (∀ s' n out, send_batch s msgs k = Some (s', n, out) →
     b_wf s' ∧ b_capacity s' = b_capacity s ∧ out `sublist_of` msgs ∧ n = length out ∧
     ((∀ i, sk_send_to k i = true) → out = msgs)) ∧
  ((length msgs ≤ length (filter (λ a, a ≠ SendErr true) (sk_mmsg k)))%nat → is_Some (send_batch s msgs k)).
Proof. apply send_batch_spec. Qed.
End batching.

(** A kernel that is interrupted, sends two datagrams, then refuses batches. *)
Definition demo_kernel : send_kernel := mkSendKernel [SendErr true; Sent 2; SendErr false] (λ _, true).

Lemma batch_sent_in_order_witness :
  send_batch (sender_new 1024 false) [[x01]; [x02]; [x03]; [x04]] demo_kernel =
    Some (mkBatchSender 1024 ([[x01]; [x02]; [x03]; [x04]] ++ replicate 1020 []) 4 true, 4%nat,
          [[x01]; [x02]; [x03]; [x04]]) ∧
  ∀ s' n out, send_batch (sender_new 1024 false) [[x01]; [x02]; [x03]; [x04]] demo_kernel = Some (s', n, out) →
    out `sublist_of` [[x01]; [x02]; [x03]; [x04]] ∧ n = length out.
Proof.
  split; [vm_compute; reflexivity|]. intros s' n out E.
  destruct (batch_sent_in_order (sender_new 1024 false) [[x01]; [x02]; [x03]; [x04]] demo_kernel) as [Hall _];
    [split; [apply Nat.le_0_l|apply length_replicate]|apply Nat.leb_le; vm_compute; reflexivity|vm_compute; lia|].
  destruct (Hall s' n out E) as (_ & _ & Hs & Hn & _). exact (conj Hs Hn).
Defined.

(** ** Receiving *)

(** A [recvmmsg] call: the datagrams with their sources, or an error. *)
Inductive recv_answer :=
| Got (ms : list (list byte * SocketAddr))
| Eintr
| Enosys
| RecvErr (e : io_error).

(** The answers during one receive: those of [recvmmsg], in order, and of [recv_from]. *)
Record recv_kernel := mkRecvKernel {
  kr_mmsg : list recv_answer;
  kr_one : result (list byte * SocketAddr) io_error
}.

(** Addresses the kernel reports are well formed, and [recvmmsg] fills at most the slots it
    is given. *)
Definition recv_contract (k : recv_kernel) (cap : nat) : Prop :=
  (∀ ms, Got ms ∈ kr_mmsg k → (length ms ≤ cap)%nat ∧ Forall (λ m, wf_addr m.2) ms) ∧
  (∀ d a, kr_one k = Ok (d, a) → wf_addr a).

(** [socket2]'s [SockAddr::from]: the C representation. *)
Class Socket2 := sockaddr_bytes : SocketAddr → list byte.
Class Socket2Laws `{!Socket2} : Prop :=
  sockaddr_bytes_layout a : wf_addr a → sockaddr_bytes a = write_sockaddr AF_INET6_LINUX a.

(** The Linux receiver: per slot a stretch of the buffer, the length of the datagram, the
    address structure and its length. *)
Record BatchReceiver := mkBatchReceiver {
  br_cap : nat;
  br_buf_len : nat;
  br_bufs : list byte;
  br_lens : list nat;
  br_addrs : list (list byte);
  br_namelens : list nat;
  br_bad : bool
}.

Definition receiver_new (cap buf_len : nat) (no_batch : bool) : BatchReceiver :=
  mkBatchReceiver cap buf_len (replicate (cap * buf_len) x00) (replicate cap O)
    (replicate cap (replicate SOCKADDR_STORAGE_SIZE x00)) (replicate cap SOCKADDR_STORAGE_SIZE) no_batch.

(** [RecvEngine::worker]: the batch size of an ingest worker. *)
Definition RECV_BATCH : nat := 32.
Definition engine_worker (buf_len : nat) (no_batch : bool) : BatchReceiver := receiver_new RECV_BATCH buf_len no_batch.

(** The kernel (or [recv_one]) fills slot [i]: a longer datagram is cut at the slot. *)
Definition br_store (r : BatchReceiver) (i : nat) (d sa : list byte) : BatchReceiver :=
  mkBatchReceiver (br_cap r) (br_buf_len r)
    (list_inserts (i * br_buf_len r) (take (br_buf_len r) d) (br_bufs r))
    (<[i := Nat.min (length d) (br_buf_len r)]> (br_lens r))
    (alter (list_inserts 0 sa) i (br_addrs r))
    (<[i := length sa]> (br_namelens r)) (br_bad r).
Fixpoint br_store_all (r : BatchReceiver) (i : nat) (ms : list (list byte * SocketAddr)) : BatchReceiver :=
  match ms with
  | [] => r
  | (d, a) :: ms' => br_store_all (br_store r i d (write_sockaddr AF_INET6_LINUX a)) (S i) ms'
  end.

(** The output fields the kernel overwrites are reset before each call. *)
Definition br_clear (r : BatchReceiver) : BatchReceiver :=
  mkBatchReceiver (br_cap r) (br_buf_len r) (br_bufs r) ((λ _, O) <$> br_lens r) (br_addrs r)
    ((λ _, SOCKADDR_STORAGE_SIZE) <$> br_namelens r) (br_bad r).
Definition br_set_bad (r : BatchReceiver) : BatchReceiver :=
  mkBatchReceiver (br_cap r) (br_buf_len r) (br_bufs r) (br_lens r) (br_addrs r) (br_namelens r) true.

Definition recv_one `{!Socket2} (r : BatchReceiver) (one : result (list byte * SocketAddr) io_error)
    : BatchReceiver * result nat io_error :=
  match one with
  | Ok (d, a) => (br_store r 0 d (sockaddr_bytes a), Ok 1%nat)
  | Err e => (r, Err e)
  end.

Fixpoint recv_loop `{!Socket2} (r : BatchReceiver) (answers : list recv_answer)
    (one : result (list byte * SocketAddr) io_error) : option (BatchReceiver * result nat io_error) :=
  match answers with
  | [] => None
  | Eintr :: answers' => recv_loop r answers' one
  | Enosys :: _ => Some (recv_one (br_set_bad r) one)
  | RecvErr e :: _ => Some (r, Err e)
  | Got ms :: _ => Some (br_store_all r 0 ms, Ok (length ms))
  end.

(** [BatchReceiver::recv]; [None] while the kernel has not answered. *)
Definition br_recv `{!Socket2} (r : BatchReceiver) (k : recv_kernel) : option (BatchReceiver * result nat io_error) :=
  if br_bad r then Some (recv_one r (kr_one k)) else recv_loop (br_clear r) (kr_mmsg k) (kr_one k).

(** [message_mut] ([message] is the same view). *)
Definition br_message (r : BatchReceiver) (i : nat) : outcome (list byte * option SocketAddr) :=
  n ← buf_get (br_lens r) i;
  namelen ← buf_get (br_namelens r) i;
  ss ← buf_get (br_addrs r) i;
  let off := (i * br_buf_len r)%nat in
  data ← buf_slice (br_bufs r) off (off + Nat.min n (br_buf_len r));
  Done (data, sockaddr_to_socketaddr ss namelen).

(** The portable receiver: one slot. *)
Record PortableReceiver := mkPortableReceiver {
  pr_buf_len : nat;
  pr_buf : list byte;
  pr_len : nat;
  pr_addr : option SocketAddr
}.
Definition portable_receiver_new (buf_len : nat) : PortableReceiver :=
  mkPortableReceiver buf_len (replicate buf_len x00) 0 None.
Definition pr_recv (r : PortableReceiver) (k : recv_kernel) : option (PortableReceiver * result nat io_error) :=
  match kr_one k with
  | Ok (d, a) =>
      Some (mkPortableReceiver (pr_buf_len r) (list_inserts 0 (take (pr_buf_len r) d) (pr_buf r))
              (Nat.min (length d) (pr_buf_len r)) (Some a), Ok 1%nat)
  | Err e => Some (r, Err e)
  end.
Definition pr_message (r : PortableReceiver) (i : nat) : outcome (list byte * option SocketAddr) :=
  data ← buf_slice (pr_buf r) 0 (pr_len r);
  Done (data, pr_addr r).

(** What a receiving backend promises, whatever its kernel interface [N]: after a receive
    that reports [n] datagrams, view [i] below [n] is the [i]-th datagram the kernel
    delivered, cut at the slot length, with its source (the source of an empty datagram is
    not used); nothing is made up and neither the receive nor a view panics. *)
Class Receiving (R N : Type) := {
  rv_recv : R → N → outcome (option (R * result nat io_error));
  rv_message : R → nat → outcome (list byte * option SocketAddr)
}.

Class ReceivingLaws (R N : Type) `{!Receiving R N} := {
  rv_wf : R → Prop;
  rv_buf_len : R → nat;
  rv_contract : R → N → Prop;
  rv_delivered : N → list (list byte * SocketAddr) → Prop;
  rv_recv_law r k : rv_wf r → rv_contract r k → ∃ o, rv_recv r k = Done o ∧
    ∀ r' res, o = Some (r', res) →
      rv_wf r' ∧ rv_buf_len r' = rv_buf_len r ∧
      ∀ n, res = Ok n → ∃ ms, length ms = n ∧ rv_delivered k ms ∧
        ∀ i d a, ms !! i = Some (d, a) →
          ∃ oa, rv_message r' i = Done (take (rv_buf_len r) d, oa) ∧ (d ≠ [] → oa = Some a)
}.

Definition delivered (k : recv_kernel) (ms : list (list byte * SocketAddr)) : Prop :=
  Got ms ∈ kr_mmsg k ∨ ∃ d a, kr_one k = Ok (d, a) ∧ ms = [(d, a)].

Global Instance linux_receiving `{!Socket2} : Receiving BatchReceiver recv_kernel :=
  {| rv_recv r k := Done (br_recv r k); rv_message := br_message |}.
Global Instance portable_receiving : Receiving PortableReceiver recv_kernel :=
  {| rv_recv r k := Done (pr_recv r k); rv_message := pr_message |}.

Record br_ok (r : BatchReceiver) : Prop := {
  bo_cap : (0 < br_cap r)%nat;
  bo_bufs : length (br_bufs r) = (br_cap r * br_buf_len r)%nat;
  bo_lens : length (br_lens r) = br_cap r;
  bo_addrs : length (br_addrs r) = br_cap r;
  bo_namelens : length (br_namelens r) = br_cap r;
  bo_storage : Forall (λ ss, length ss = SOCKADDR_STORAGE_SIZE) (br_addrs r)
}.

Lemma write_sockaddr_fits af6 a : (length (write_sockaddr af6 a) ≤ SOCKADDR_STORAGE_SIZE)%nat.
Proof. rewrite length_write_sockaddr. unfold SOCKADDR_IN_SIZE, SOCKADDR_IN6_SIZE, SOCKADDR_STORAGE_SIZE. destruct (sa_ip a); lia. Qed.

(** A slot lies inside the buffer. *)
Lemma slot_bound (i cap len : nat) : (i < cap)%nat → (i * len + len ≤ cap * len)%nat.
Proof. intros. nia. Qed.

Lemma br_store_ok r i d sa :
  br_ok r → (i < br_cap r)%nat → br_ok (br_store r i d sa).
Proof.
  intros [] Hi. split; simpl; rewrite ?length_insert, ?length_inserts, ?length_alter; try done.
  apply Forall_alter; [done|]. intros ss _ Hs. by rewrite length_inserts.
Qed.

Lemma receiver_new_ok cap buf_len no_batch : (0 < cap)%nat → br_ok (receiver_new cap buf_len no_batch).
Proof.
  intros. split; cbn [receiver_new br_cap br_buf_len br_bufs br_lens br_addrs br_namelens]; rewrite ?length_replicate; try done.
  apply Forall_replicate, length_replicate.
Qed.

(** What a slot shows right after it was filled. *)
Lemma br_store_message r i d a :
  br_ok r → (i < br_cap r)%nat → wf_addr a →
  br_message (br_store r i d (write_sockaddr AF_INET6_LINUX a)) i = Done (take (br_buf_len r) d, Some a).
Proof.
  intros [] Hi Ha. pose proof (slot_bound i (br_cap r) (br_buf_len r) Hi) as Hb. unfold br_message, br_store.
  cbn [br_lens br_namelens br_addrs br_bufs br_buf_len br_cap].
  rewrite (buf_get_done (<[i:=_]> (br_lens r)) i (Nat.min (length d) (br_buf_len r))) by (apply list_lookup_insert_eq; lia).
  cbn [mbind outcome_bind].
  rewrite (buf_get_done (<[i:=_]> (br_namelens r)) i (length (write_sockaddr AF_INET6_LINUX a))) by (apply list_lookup_insert_eq; lia).
  cbn [mbind outcome_bind]. destruct (lookup_lt_is_Some_2 (br_addrs r) i) as [ss Hss]; [lia|].
  rewrite (buf_get_done (alter _ i (br_addrs r)) i (list_inserts 0 (write_sockaddr AF_INET6_LINUX a) ss))
    by (rewrite list_lookup_alter_eq, Hss; done).
  cbn [mbind outcome_bind]. rewrite Nat.min_l by lia. rewrite Nat.min_comm, <-length_take.
  rewrite buf_slice_inserts_eq by (rewrite ?length_take; lia). cbn [mbind outcome_bind]. do 2 f_equal.
  pose proof (proj1 (Forall_lookup _ _) bo_storage0 i ss Hss) as Hl. cbv beta in Hl.
  pose proof (write_sockaddr_fits AF_INET6_LINUX a) as Hf.
  assert (list_inserts 0 (write_sockaddr AF_INET6_LINUX a) ss =
          write_sockaddr AF_INET6_LINUX a ++ drop (length (write_sockaddr AF_INET6_LINUX a)) ss) as ->.
  { rewrite <-(take_drop (length (write_sockaddr AF_INET6_LINUX a)) (list_inserts _ _ _)).
    rewrite drop_inserts by lia. f_equal. rewrite <-(drop_0 (list_inserts _ _ _)). apply slice_inserts_eq. lia. }
  by apply sockaddr_linux_spec.
Qed.

(** Filling another slot does not change the view. *)
Lemma br_store_other r i j d sa :
  br_ok r → (i < br_cap r)%nat → (j < br_cap r)%nat → i ≠ j →
  br_message (br_store r j d sa) i = br_message r i.
Proof.
  intros [] Hi Hj Hne. pose proof (slot_bound i (br_cap r) (br_buf_len r) Hi).
  pose proof (slot_bound j (br_cap r) (br_buf_len r) Hj).
  assert (i * br_buf_len r + br_buf_len r ≤ j * br_buf_len r ∨ j * br_buf_len r + br_buf_len r ≤ i * br_buf_len r)%nat by nia.
  unfold br_message, br_store, buf_get. cbn [br_lens br_namelens br_addrs br_bufs br_buf_len br_cap].
  rewrite !list_lookup_insert_ne, list_lookup_alter_ne by done.
  destruct (br_lens r !! i) as [n|]; [|done]. destruct (br_namelens r !! i); [|done].
  destruct (br_addrs r !! i); [|done]. cbn [mbind outcome_bind].
  rewrite buf_slice_inserts_ne by (rewrite ?length_take; lia). done.
Qed.

Lemma br_store_all_spec ms : ∀ r i,
  br_ok r → (i + length ms ≤ br_cap r)%nat → Forall (λ m, wf_addr m.2) ms →
  let r' := br_store_all r i ms in
  br_ok r' ∧ br_cap r' = br_cap r ∧ br_buf_len r' = br_buf_len r ∧
  (∀ j, (j < i)%nat → br_message r' j = br_message r j) ∧
  ∀ j d a, ms !! j = Some (d, a) → br_message r' (i + j) = Done (take (br_buf_len r) d, Some a).
Proof.
  induction ms as [|[d a] ms IH]; intros r i Hok Hl Hall; [done|]. simpl in Hl. inversion_clear Hall as [|?? Ha Hms].
  cbn [br_store_all]. set (r1 := br_store r i d _).
  assert (br_ok r1) as Hok1 by (apply br_store_ok; [done|lia]).
  destruct (IH r1 (S i)) as (Hok' & Hc' & Hb' & Hlow & Hm); [done|simpl; lia|done|]. simpl.
  split; [done|]. split; [done|]. split; [done|]. split.
  - intros j Hj. rewrite Hlow by lia. apply br_store_other; (done || lia).
  - intros [|j] d' a'; simpl.
    + intros [= <- <-]. rewrite Nat.add_0_r, Hlow by lia. by apply br_store_message; [|lia|].
    + intros E. rewrite Nat.add_succ_r. by apply Hm.
Qed.

Lemma br_clear_ok r : br_ok r → br_ok (br_clear r).
Proof. intros []. split; simpl; by rewrite ?length_fmap. Qed.
Lemma br_set_bad_ok r : br_ok r → br_ok (br_set_bad r).
Proof. by intros []; split. Qed.

Lemma recv_one_spec `{!Socket2, !Socket2Laws} r k r' res :
  br_ok r → recv_contract k (br_cap r) → recv_one r (kr_one k) = (r', res) →
  br_ok r' ∧ br_cap r' = br_cap r ∧ br_buf_len r' = br_buf_len r ∧
  ∀ n, res = Ok n → ∃ ms, length ms = n ∧ delivered k ms ∧
    ∀ i d a, ms !! i = Some (d, a) → br_message r' i = Done (take (br_buf_len r) d, Some a).
Proof.
  intros Hok [_ Ho]. unfold recv_one. destruct (kr_one k) as [[d a]|e] eqn:E; intros [= <- <-]; [|done].
  pose proof (bo_cap _ Hok). rewrite sockaddr_bytes_layout by (by eapply Ho).
  split; [by apply br_store_ok|]. split; [done|]. split; [done|]. intros n [= <-]. exists [(d, a)]. split; [done|].
  split; [right; by exists d, a|]. intros [|i] d' a'; [|done]. intros [= <- <-]. apply br_store_message; [done|done|].
  by eapply Ho.
Qed.

Lemma br_recv_spec `{!Socket2, !Socket2Laws} r k r' res :
  br_ok r → recv_contract k (br_cap r) → br_recv r k = Some (r', res) →
  br_ok r' ∧ br_cap r' = br_cap r ∧ br_buf_len r' = br_buf_len r ∧
  ∀ n, res = Ok n → ∃ ms, length ms = n ∧ delivered k ms ∧
    ∀ i d a, ms !! i = Some (d, a) → br_message r' i = Done (take (br_buf_len r) d, Some a).
Proof.
  intros Hok Hk. unfold br_recv. destruct (br_bad r); [intros [= E]; by apply (recv_one_spec r k)|].
  destruct k as [answers one]. destruct Hk as [Hgot Hone]. cbn [kr_mmsg kr_one] in *.
  assert (∀ tail, (∀ x, x ∈ tail → x ∈ answers) → recv_loop (br_clear r) tail one = Some (r', res) →
    br_ok r' ∧ br_cap r' = br_cap r ∧ br_buf_len r' = br_buf_len r ∧
    ∀ n, res = Ok n → ∃ ms, length ms = n ∧ delivered (mkRecvKernel answers one) ms ∧
      ∀ i d a, ms !! i = Some (d, a) → br_message r' i = Done (take (br_buf_len r) d, Some a)) as Hloop; cycle 1.
  { by apply Hloop. }
  induction tail as [|[ms| | |e] tail IH]; intros Hsub E; cbn [recv_loop] in E; [done| | | |].
  - injection E as <- <-. destruct (Hgot ms) as [Hl Hwf]; [apply Hsub; by left|].
    destruct (br_store_all_spec ms (br_clear r) 0) as (Hok' & Hc & Hb & _ & Hm); [by apply br_clear_ok|done|done|].
    split; [done|]. split; [done|]. split; [done|]. intros n [= <-]. exists ms. split; [done|].
    split; [left; apply Hsub; by left|]. apply Hm.
  - apply IH; [|done]. intros x Hx. apply Hsub. by right.
  - injection E as E. apply (recv_one_spec (br_set_bad (br_clear r)) (mkRecvKernel answers one));
      [by apply br_set_bad_ok, br_clear_ok|done|done].
  - injection E as <- <-. split; [by apply br_clear_ok|done].
Qed.

Global Instance linux_receiving_laws `{!Socket2, !Socket2Laws} : ReceivingLaws BatchReceiver recv_kernel.
Proof.
  refine {| rv_wf := br_ok; rv_buf_len := br_buf_len; rv_contract r k := recv_contract k (br_cap r);
            rv_delivered := delivered |}.
  intros r k Hok Hk. eexists. split; [done|]. intros r' res E.
  destruct (br_recv_spec r k r' res Hok Hk E) as (Hok' & _ & Hb & Hres). split; [done|]. split; [done|].
  intros n En. destruct (Hres n En) as (ms & Hl & Hd & Hm). exists ms. split; [done|]. split; [done|].
  intros i d a Ei. exists (Some a). split; [by apply Hm|done].
Defined.

Global Instance portable_receiving_laws : ReceivingLaws PortableReceiver recv_kernel.
Proof.
  refine {| rv_wf := λ r, length (pr_buf r) = pr_buf_len r ∧ (pr_len r ≤ pr_buf_len r)%nat;
            rv_buf_len := pr_buf_len; rv_contract _ _ := True; rv_delivered := delivered |}.
  intros r k [Hl Hn] _. eexists. split; [done|]. intros r' res. unfold pr_recv.
  destruct (kr_one k) as [[d a]|e] eqn:E; intros [= <- <-]; [|done].
  cbn [pr_buf pr_len pr_buf_len]. rewrite length_inserts. split; [lia|]. split; [done|]. intros n [= <-]. exists [(d, a)].
  split; [done|]. split; [right; by exists d, a|]. intros [|i] d' a'; [|done]. intros [= <- <-]. exists (Some a).
  split; [|done]. cbn. unfold pr_message. cbn [pr_buf pr_len pr_addr]. rewrite Nat.min_comm, <-length_take.
  rewrite buf_slice_inserts_eq by (rewrite ?length_take; lia). done.
Defined.
