(* ===== verification/Rio.v ===== *)
(** * Registered I/O on Windows (src/sys/rio.rs)

    A fixed pool of registered receive slots.  A slot belongs to the kernel from the moment
    its receive is posted until its completion is dequeued; then the harvester reads it, and
    posts it again at the start of the next harvest, keeping it queued when the post fails.
    Feedback leaves through a ring of send buffers.  The answers of the system are arguments;
    a completion also carries what the kernel had put into the slot. *)

From stdpp Require Import pretty.
From S2P Require Import Prelude Errors Net SockAddr Udp Protocol.

Definition NSLOTS : nat := Z.to_nat 4096.
Definition DEQ : nat := 512.
Definition ADDR_SLOT : nat := 32.
Definition SEND_RING : nat := 16.
Definition SEND_CTX : Z := 2 ^ 64 - 1.
Definition RIO_INVALID_BUFFERID : Z := 0xFFFFFFFF.

(** A completion of the receive queue, with what the kernel wrote for it. *)
Record completion := mkCompletion {
  rr_context : Z;
  rr_bytes : nat;
  rr_status : Z;
  rr_data : list byte;
  rr_from : SocketAddr
}.

(** What a dequeue answers. *)
Inductive dequeued := Completions (cs : list completion) | CorruptCq.

(** The answers during one receive: whether a slot's receive is posted, the dequeue, the
    arming of the notification, whether the event was signalled, and the dequeue after it. *)
Record rio_kernel := mkRioKernel {
  rk_post : nat → bool;
  rk_dequeue : dequeued;
  rk_notify : Z;
  rk_wait : bool;
  rk_dequeue_after : dequeued
}.

(** The core and its harvester.  [ri_out] are the slots posted and not dequeued yet. *)
Record RioReceiver := mkRioReceiver {
  ri_slots : nat;
  ri_buf_len : nat;
  ri_data : list byte;
  ri_addr : list byte;
  ri_out : list nat;
  ri_batch : list (nat * nat);
  ri_pending : list nat;
  ri_armed : bool
}.

(** ** Construction *)

(** The answers while [RioCore::new] runs: buffer ids, handles (zero is a failure), the posts
    and the first notification; [su_wsa] is the error code reported after a failure. *)
Record rio_setup := mkRioSetup {
  su_ioctl : Z;
  su_data_id : Z;
  su_addr_id : Z;
  su_send_data_id : Z;
  su_send_addr_id : Z;
  su_event : bool;
  su_cq : Z;
  su_send_cq : Z;
  su_rq : Z;
  su_post : nat → bool;
  su_notify : Z;
  su_wsa : Z;
  su_os : string
}.

Definition post_recv (ok : bool) (idx : nat) (wsa : Z) : result unit io_error :=
  if ok then Ok () else Err (io_other ("RIOReceiveEx failed (slot " +:+ pretty idx +:+ ", wsa " +:+ pretty wsa +:+ ")")).
Definition arm_notify (r : Z) : result unit io_error :=
  if r =? 0 then Ok () else Err (io_other ("RIONotify failed: " +:+ pretty r)).

(** Posting every slot stops at the first failure. *)
Fixpoint post_all (post : nat → bool) (wsa : Z) (idxs : list nat) : result unit io_error :=
  match idxs with
  | [] => Ok ()
  | i :: idxs' => match post_recv (post i) i wsa with Ok _ => post_all post wsa idxs' | Err e => Err e end
  end.

(** [RioCore::new] and [RecvEngine::worker]. *)
Definition rio_new (slots buf_len : nat) (su : rio_setup) : result RioReceiver io_error :=
  let wsa := pretty (su_wsa su) in
  if negb (su_ioctl su =? 0) then
    Err (io_other ("RIO WSAIoctl(get fn table) failed: r=" +:+ pretty (su_ioctl su) +:+ " wsa=" +:+ wsa)) else
  if su_data_id su =? RIO_INVALID_BUFFERID then
    Err (io_other ("RIORegisterBuffer(data " +:+ pretty (slots * buf_len)%nat +:+ " bytes) failed: wsa=" +:+ wsa)) else
  if su_addr_id su =? RIO_INVALID_BUFFERID then
    Err (io_other ("RIORegisterBuffer(addr " +:+ pretty (slots * ADDR_SLOT)%nat +:+ " bytes) failed: wsa=" +:+ wsa)) else
  if (su_send_data_id su =? RIO_INVALID_BUFFERID) || (su_send_addr_id su =? RIO_INVALID_BUFFERID) then
    Err (io_other ("RIORegisterBuffer(send) failed: wsa=" +:+ wsa)) else
  if negb (su_event su) then Err (io_other ("CreateEventW failed: " +:+ su_os su)) else
  if su_cq su =? 0 then
    Err (io_other ("RIOCreateCompletionQueue(" +:+ pretty (slots + 16)%nat +:+ ") failed: wsa=" +:+ wsa)) else
  if su_send_cq su =? 0 then
    Err (io_other ("RIOCreateCompletionQueue(send, " +:+ pretty (SEND_RING * 4)%nat +:+ ") failed: wsa=" +:+ wsa)) else
  if su_rq su =? 0 then
    Err (io_other ("RIOCreateRequestQueue(maxRecv=" +:+ pretty slots +:+ ") failed: wsa=" +:+ wsa)) else
  match post_all (su_post su) (su_wsa su) (seq 0 slots) with
  | Err e => Err e
  | Ok _ =>
      match arm_notify (su_notify su) with
      | Err e => Err e
      | Ok _ => Ok (mkRioReceiver slots buf_len (replicate (slots * buf_len) x00) (replicate (slots * ADDR_SLOT) x00)
                      (seq 0 slots) [] [] true)
      end
  end.

(** ** Receiving *)

Definition is_recv (c : completion) : bool := negb (rr_context c =? SEND_CTX).
Definition rr_slot (c : completion) : nat := Z.to_nat (wrap 32 (rr_context c)).

(** The kernel's side of a completion: the slot is filled and is no longer the kernel's. *)
Definition kernel_complete (r : RioReceiver) (c : completion) : RioReceiver :=
  if is_recv c then
    mkRioReceiver (ri_slots r) (ri_buf_len r)
      (list_inserts (rr_slot c * ri_buf_len r) (rr_data c) (ri_data r))
      (list_inserts (rr_slot c * ADDR_SLOT) (write_sockaddr AF_INET6_WINDOWS (rr_from c)) (ri_addr r))
      (filter (λ i, i ≠ rr_slot c) (ri_out r)) (ri_batch r) (ri_pending r) (ri_armed r)
  else r.

(** Re-posting the last harvest's slots: [retain] keeps the ones that fail. *)
Definition repost (r : RioReceiver) (post : nat → bool) : outcome RioReceiver :=
  if forallb (λ i, (i <? ri_slots r)%nat) (ri_pending r) then
    Done (mkRioReceiver (ri_slots r) (ri_buf_len r) (ri_data r) (ri_addr r)
            (ri_out r ++ filter (λ i, post i = true) (ri_pending r)) []
            (filter (λ i, post i = false) (ri_pending r)) (ri_armed r))
  else Panic.

(** The loop over the dequeued results. *)
Definition harvest_one (r : RioReceiver) (c : completion) : RioReceiver :=
  if is_recv c then
    let idx := rr_slot c in
    let bytes := if rr_status c =? 0 then rr_bytes c else O in
    mkRioReceiver (ri_slots r) (ri_buf_len r) (ri_data r) (ri_addr r) (ri_out r)
      (ri_batch r ++ [(idx, bytes)]) (ri_pending r ++ [idx]) (ri_armed r)
  else r.
Definition harvest (r : RioReceiver) (cs : list completion) : RioReceiver :=
  foldl harvest_one (foldl kernel_complete r cs) cs.

Definition set_armed (b : bool) (r : RioReceiver) : RioReceiver :=
  mkRioReceiver (ri_slots r) (ri_buf_len r) (ri_data r) (ri_addr r) (ri_out r) (ri_batch r) (ri_pending r) b.

(** What a receive makes of a dequeue's answer. *)
Definition take_completions (r : RioReceiver) (d : dequeued) : outcome (RioReceiver * result nat io_error) :=
  match d with
  | CorruptCq => Done (r, Err (io_other "RIO completion queue corrupt"))
  | Completions [] => Done (r, Err (mkIoError WouldBlock "rio idle"))
  | Completions cs =>
      if (length cs <=? DEQ)%nat then let r := harvest r cs in Done (r, Ok (length (ri_batch r))) else Panic
  end.

Definition rio_recv (r : RioReceiver) (k : rio_kernel) : outcome (RioReceiver * result nat io_error) :=
  r ← repost r (rk_post k);
  match rk_dequeue k with
  | Completions [] =>
      match (if ri_armed r then Ok () else arm_notify (rk_notify k)) with
      | Err e => Done (r, Err e)
      | Ok _ =>
          let r := set_armed true r in
          if rk_wait k then take_completions (set_armed false r) (rk_dequeue_after k)
          else take_completions r (Completions [])
      end
  | d => take_completions r d
  end.

(** [message] and [message_mut]: a view of slot [idx]. *)
Definition rio_view (r : RioReceiver) (idx n : nat) : outcome (list byte * option SocketAddr) :=
  data ← buf_slice (ri_data r) (idx * ri_buf_len r) (idx * ri_buf_len r + n);
  slot ← buf_slice (ri_addr r) (idx * ADDR_SLOT) (idx * ADDR_SLOT + ADDR_SLOT);
  Done (data, parse_addr slot).
Definition rio_message (r : RioReceiver) (i : nat) : outcome (list byte * option SocketAddr) :=
  '(idx, bytes) ← buf_get (ri_batch r) i;
  rio_view r idx (Nat.min bytes (ri_buf_len r)).

(** ** The pool *)

(** The registered regions hold all slots. *)
Record rio_mem (r : RioReceiver) : Prop := {
  ro_data : length (ri_data r) = (ri_slots r * ri_buf_len r)%nat;
  ro_addr : length (ri_addr r) = (ri_slots r * ADDR_SLOT)%nat
}.

(** Every slot is either the kernel's or queued for re-posting, once; what the harvester
    reads is queued, so the kernel does not write it. *)
Record rio_ok (r : RioReceiver) : Prop := {
  ro_pool : ri_out r ++ ri_pending r ≡ₚ seq 0 (ri_slots r);
  ro_mem : rio_mem r;
  ro_batch : (ri_batch r).*1 `sublist_of` ri_pending r
}.

(** What a dequeue may answer: at most [DEQ] results, receives for distinct slots that were
    posted, with what fits a slot and a proper source. *)
Record completions_ok (r : RioReceiver) (cs : list completion) : Prop := {
  co_count : (length cs ≤ DEQ)%nat;
  co_slots : NoDup (rr_slot <$> filter (λ c, is_recv c = true) cs);
  co_recv : ∀ c, c ∈ cs → is_recv c = true →
    rr_slot c ∈ ri_out r ∧ (length (rr_data c) ≤ ri_buf_len r)%nat ∧ wf_addr (rr_from c) ∧
    (rr_status c = 0 → rr_bytes c = length (rr_data c))
}.
Definition dequeue_ok (r : RioReceiver) (d : dequeued) : Prop :=
  match d with Completions cs => completions_ok r cs | CorruptCq => True end.
Definition rio_contract (r : RioReceiver) (k : rio_kernel) : Prop :=
  ∀ r1, repost r (rk_post k) = Done r1 → dequeue_ok r1 (rk_dequeue k) ∧ dequeue_ok r1 (rk_dequeue_after k).

(** The datagrams of a dequeue: a failed receive counts as an empty one. *)
Definition received (cs : list completion) : list (list byte * SocketAddr) :=
  (λ c, (if rr_status c =? 0 then rr_data c else [], rr_from c)) <$> filter (λ c, is_recv c = true) cs.
Definition rio_delivered (k : rio_kernel) (ms : list (list byte * SocketAddr)) : Prop :=
  ∃ cs, ms = received cs ∧ (rk_dequeue k = Completions cs ∨ rk_dequeue_after k = Completions cs).

Abbreviation slots_of cs := (rr_slot <$> filter (λ c, is_recv c = true) cs).

Lemma filter_bool_perm {A} (f : A → bool) (l : list A) :
  filter (λ x, f x = true) l ++ filter (λ x, f x = false) l ≡ₚ l.
Proof.
  induction l as [|x l IH]; [done|]. rewrite !filter_cons. destruct (f x); simpl; [by rewrite IH|].
  by rewrite <-Permutation_middle, IH.
Qed.

Lemma filter_all {A} (P : A → Prop) `{!∀ x, Decision (P x)} (l : list A) : (∀ x, x ∈ l → P x) → filter P l = l.
Proof.
  induction l as [|x l IH]; intros Hl; [done|]. rewrite filter_cons_True by (apply Hl; by left).
  f_equal. apply IH. intros y Hy. apply Hl. by right.
Qed.

(** Taking one element out of a duplicate-free list. *)
Lemma filter_ne_perm {A} `{!EqDecision A} (l : list A) x :
  NoDup l → x ∈ l → l ≡ₚ x :: filter (λ y, y ≠ x) l.
Proof.
  intros Hnd (l1 & l2 & ->)%list_elem_of_split. apply NoDup_app in Hnd as (_ & Hd & Hl2).
  apply NoDup_cons in Hl2 as [Hl2 _]. rewrite filter_app, filter_cons_False by tauto.
  rewrite <-Permutation_middle. f_equiv. rewrite !filter_all; [done|..]; intros y Hy ->; [done|].
  apply (Hd _ Hy). by left.
Qed.

Lemma rio_new_ok slots buf_len su r : rio_new slots buf_len su = Ok r →
  rio_ok r ∧ ri_slots r = slots ∧ ri_buf_len r = buf_len.
Proof.
  unfold rio_new. intros E. repeat (case_match; [done|]). destruct (post_all _ _ _); [|done].
  destruct (arm_notify _); [|done]. injection E as <-. split; [|done].
  split; [|split|]; cbn [ri_out ri_pending ri_slots ri_data ri_addr ri_batch ri_buf_len]; by rewrite ?app_nil_r, ?length_replicate.
Qed.

Lemma rio_ok_nodup r : rio_ok r → NoDup (ri_out r ++ ri_pending r).
Proof. intros []. rewrite ro_pool0. apply NoDup_seq. Qed.

Lemma rio_ok_slot r i : rio_ok r → i ∈ ri_out r ++ ri_pending r → (i < ri_slots r)%nat.
Proof. intros [] Hi. rewrite ro_pool0 in Hi. apply elem_of_seq in Hi. lia. Qed.

Lemma repost_spec r post : rio_ok r → ∃ r1, repost r post = Done r1 ∧ rio_ok r1 ∧
  ri_slots r1 = ri_slots r ∧ ri_buf_len r1 = ri_buf_len r ∧ ri_batch r1 = [] ∧ ri_armed r1 = ri_armed r ∧
  (∀ i, post i = true → i ∈ ri_pending r → i ∈ ri_out r1).
Proof.
  intros Hok. unfold repost. replace (forallb _ _) with true; cycle 1.
  { symmetry. apply forallb_forall. intros i Hi%list_elem_of_In. apply Nat.ltb_lt, (rio_ok_slot r); [done|set_solver]. }
  eexists. split; [done|]. destruct Hok. split; [|split_and!; [done..|]].
  - split; simpl; [|by destruct ro_mem0|apply sublist_nil_l]. by rewrite <-app_assoc, filter_bool_perm.
  - intros i Hp Hi. simpl. apply elem_of_app. right. by apply list_elem_of_filter.
Qed.

(** ** What the kernel wrote is what the views show *)

Lemma addr_slot_bound : (SOCKADDR_IN6_SIZE ≤ ADDR_SLOT)%nat ∧ (SOCKADDR_IN_SIZE ≤ ADDR_SLOT)%nat.
Proof. unfold SOCKADDR_IN6_SIZE, SOCKADDR_IN_SIZE, ADDR_SLOT. lia. Qed.

Lemma write_sockaddr_slot a : (length (write_sockaddr AF_INET6_WINDOWS a) ≤ ADDR_SLOT)%nat.
Proof. rewrite length_write_sockaddr. destruct addr_slot_bound, (sa_ip a); done. Qed.

Lemma addr_slot_written region i a :
  wf_addr a → (i * ADDR_SLOT + ADDR_SLOT ≤ length region)%nat →
  ∃ slot, buf_slice (list_inserts (i * ADDR_SLOT) (write_sockaddr AF_INET6_WINDOWS a) region)
            (i * ADDR_SLOT) (i * ADDR_SLOT + ADDR_SLOT) = Done slot ∧ parse_addr slot = Some a.
Proof.
  intros Ha Hl. pose proof (write_sockaddr_slot a) as Hs. set (sa := write_sockaddr AF_INET6_WINDOWS a) in *.
  rewrite buf_slice_done by (rewrite length_inserts; lia). eexists. split; [done|].
  replace (i * ADDR_SLOT + ADDR_SLOT - i * ADDR_SLOT)%nat with (length sa + (ADDR_SLOT - length sa))%nat by lia.
  rewrite <-take_take_drop, slice_inserts_eq by lia. by apply sockaddr_windows_spec.
Qed.

(** The slot a completion names, seen right after it. *)
Lemma view_complete r c :
  rio_mem r → is_recv c = true → (rr_slot c < ri_slots r)%nat → (length (rr_data c) ≤ ri_buf_len r)%nat →
  wf_addr (rr_from c) → rio_view (kernel_complete r c) (rr_slot c) (length (rr_data c)) = Done (rr_data c, Some (rr_from c)).
Proof.
  intros [] Hr Hs Hl Ha. unfold kernel_complete. rewrite Hr. unfold rio_view.
  cbn [ri_data ri_addr ri_buf_len]. pose proof (slot_bound (rr_slot c) (ri_slots r) (ri_buf_len r) Hs).
  pose proof (slot_bound (rr_slot c) (ri_slots r) ADDR_SLOT Hs).
  rewrite (buf_slice_inserts_eq (ri_data r)) by lia. cbn [mbind outcome_bind].
  destruct (addr_slot_written (ri_addr r) (rr_slot c) (rr_from c) Ha) as (slot & E & Hp); [lia|].
  rewrite E. cbn [mbind outcome_bind]. by rewrite Hp.
Qed.

(** A completion leaves the other slots alone. *)
Lemma view_complete_other r c i n :
  rio_mem r → (rr_slot c < ri_slots r)%nat → (length (rr_data c) ≤ ri_buf_len r)%nat →
  (i < ri_slots r)%nat → (n ≤ ri_buf_len r)%nat → (is_recv c = true → i ≠ rr_slot c) →
  rio_view (kernel_complete r c) i n = rio_view r i n.
Proof.
  intros [] Hs Hl Hi Hn Hne. unfold kernel_complete. destruct (is_recv c); [|done]. specialize (Hne eq_refl).
  unfold rio_view. cbn [ri_data ri_addr ri_buf_len]. pose proof (slot_bound (rr_slot c) (ri_slots r) (ri_buf_len r) Hs).
  pose proof (slot_bound (rr_slot c) (ri_slots r) ADDR_SLOT Hs). pose proof (write_sockaddr_slot (rr_from c)).
  pose proof (slot_bound i (ri_slots r) (ri_buf_len r) Hi). pose proof (slot_bound i (ri_slots r) ADDR_SLOT Hi).
  assert ((i < rr_slot c)%nat ∨ (rr_slot c < i)%nat) as [Hlt|Hlt] by lia.
  - pose proof (slot_bound i (rr_slot c) (ri_buf_len r) Hlt). pose proof (slot_bound i (rr_slot c) ADDR_SLOT Hlt).
    rewrite (buf_slice_inserts_ne (ri_data r)) by lia. by rewrite (buf_slice_inserts_ne (ri_addr r)) by lia.
  - pose proof (slot_bound (rr_slot c) i (ri_buf_len r) Hlt). pose proof (slot_bound (rr_slot c) i ADDR_SLOT Hlt).
    rewrite (buf_slice_inserts_ne (ri_data r)) by lia. by rewrite (buf_slice_inserts_ne (ri_addr r)) by lia.
Qed.

(** An empty view never fails. *)
Lemma view_empty r i : rio_mem r → (i < ri_slots r)%nat → ∃ oa, rio_view r i 0 = Done ([], oa).
Proof.
  intros [] Hi. unfold rio_view. pose proof (slot_bound i (ri_slots r) (ri_buf_len r) Hi).
  pose proof (slot_bound i (ri_slots r) ADDR_SLOT Hi).
  rewrite (buf_slice_done (ri_data r)) by lia. cbn [mbind outcome_bind]. rewrite (buf_slice_done (ri_addr r)) by lia.
  cbn [mbind outcome_bind].
  replace (_ + 0 - _)%nat with O by lia. by eexists.
Qed.

(** ** A harvest *)

Lemma complete_mem r c : rio_mem r → rio_mem (kernel_complete r c).
Proof. intros []. unfold kernel_complete. destruct (is_recv c); [|done]. split; simpl; by rewrite length_inserts. Qed.

Lemma complete_fields r c :
  ri_slots (kernel_complete r c) = ri_slots r ∧ ri_buf_len (kernel_complete r c) = ri_buf_len r ∧
  ri_batch (kernel_complete r c) = ri_batch r ∧ ri_pending (kernel_complete r c) = ri_pending r ∧
  ri_armed (kernel_complete r c) = ri_armed r.
Proof. unfold kernel_complete. by destruct (is_recv c). Qed.

(** The kernel's side of a list of completions. *)
Lemma complete_all cs : ∀ r,
  rio_mem r → NoDup (ri_out r) → NoDup (slots_of cs) →
  (∀ c, c ∈ cs → is_recv c = true → rr_slot c ∈ ri_out r ∧ (rr_slot c < ri_slots r)%nat ∧
     (length (rr_data c) ≤ ri_buf_len r)%nat ∧ wf_addr (rr_from c)) →
  let r' := foldl kernel_complete r cs in
  rio_mem r' ∧ ri_slots r' = ri_slots r ∧ ri_buf_len r' = ri_buf_len r ∧ ri_batch r' = ri_batch r ∧
  ri_pending r' = ri_pending r ∧ ri_armed r' = ri_armed r ∧ ri_out r ≡ₚ slots_of cs ++ ri_out r' ∧
  (∀ i n, (i < ri_slots r)%nat → (n ≤ ri_buf_len r)%nat → i ∉ slots_of cs → rio_view r' i n = rio_view r i n) ∧
  (∀ c, c ∈ cs → is_recv c = true → rio_view r' (rr_slot c) (length (rr_data c)) = Done (rr_data c, Some (rr_from c))).
Proof.
  induction cs as [|c cs IH]; intros r Hmem Hout Hnd Hin; simpl.
  { split_and!; try done. intros c Hc. by apply not_elem_of_nil in Hc. }
  destruct (complete_fields r c) as (Fs & Fb & Fba & Fp & Fa). destruct (is_recv c) eqn:Er.
  - rewrite filter_cons_True in Hnd |- * by done. rewrite fmap_cons in Hnd |- *. apply NoDup_cons in Hnd as [Hni Hnd].
    destruct (Hin c) as (Ho & Hs & Hl & Ha); [by left|done|].
    assert (ri_out (kernel_complete r c) = filter (λ i, i ≠ rr_slot c) (ri_out r)) as Eo
      by (unfold kernel_complete; by rewrite Er).
    destruct (IH (kernel_complete r c)) as (Hm & Es & Eb & Eba & Ep & Ea & Hperm & Hoth & Hsame);
      [by apply complete_mem|rewrite Eo; by apply NoDup_filter|done| |].
    { intros c' Hc' Hr'. destruct (Hin c') as (Ho' & Hs' & Hl' & Ha'); [by right|done|].
      rewrite Eo, Fs, Fb. split_and!; try done. apply list_elem_of_filter. split; [|done].
      intros E. apply Hni. rewrite <-E. apply list_elem_of_fmap. exists c'. split; [done|]. by apply list_elem_of_filter. }
    split_and!; try congruence.
    + rewrite Eo in Hperm. rewrite <-app_comm_cons, <-Hperm. by apply filter_ne_perm.
    + intros i n Hi Hn [Hne Hni']%not_elem_of_cons. rewrite Hoth by (rewrite ?Fs, ?Fb; done).
      by apply view_complete_other.
    + intros c' [->|Hc']%elem_of_cons Hr'; [|by apply Hsame]. rewrite Hoth by (rewrite ?Fs, ?Fb; done).
      by apply view_complete.
  - rewrite filter_cons_False in Hnd |- * by congruence.
    assert (kernel_complete r c = r) as -> by (unfold kernel_complete; by rewrite Er).
    destruct (IH r) as (Hm & Es & Eb & Eba & Ep & Ea & Hperm & Hoth & Hsame); [done|done|done| |].
    { intros c' Hc'. apply Hin. by right. }
    split_and!; try done. intros c' [->|Hc']%elem_of_cons Hr'; [congruence|by apply Hsame].
Qed.

Lemma harvest_all cs : ∀ r,
  let r' := foldl harvest_one r cs in
  ri_slots r' = ri_slots r ∧ ri_buf_len r' = ri_buf_len r ∧ ri_data r' = ri_data r ∧ ri_addr r' = ri_addr r ∧
  ri_out r' = ri_out r ∧ ri_armed r' = ri_armed r ∧ ri_pending r' = ri_pending r ++ slots_of cs ∧
  ri_batch r' = ri_batch r ++
    ((λ c, (rr_slot c, if rr_status c =? 0 then rr_bytes c else O)) <$> filter (λ c, is_recv c = true) cs).
Proof.
  induction cs as [|c cs IH]; intros r; simpl; [by rewrite !app_nil_r|].
  destruct (IH (harvest_one r c)) as (-> & -> & -> & -> & -> & -> & -> & ->). unfold harvest_one.
  destruct (is_recv c) eqn:Er; [|by rewrite filter_cons_False by congruence].
  rewrite filter_cons_True by done. simpl. by rewrite <-!app_assoc.
Qed.

Lemma harvest_spec r cs :
  rio_ok r → ri_batch r = [] → completions_ok r cs →
  let r' := harvest r cs in
  rio_ok r' ∧ ri_slots r' = ri_slots r ∧ ri_buf_len r' = ri_buf_len r ∧
  length (ri_batch r') = length (received cs) ∧
  ∀ i d a, received cs !! i = Some (d, a) →
    ∃ oa, rio_message r' i = Done (take (ri_buf_len r) d, oa) ∧ (d ≠ [] → oa = Some a).
Proof.
  intros Hok Hb [Hcnt Hnd Hrecv]. pose proof (rio_ok_nodup r Hok) as Hnd'. apply NoDup_app in Hnd' as (Hout & _ & _).
  destruct (complete_all cs r) as (Hm & Es & Eb & Eba & Ep & _ & Hperm & _ & Hview); [apply Hok|done|done| |].
  { intros c Hc Hr. destruct (Hrecv c Hc Hr) as (Ho & Hl & Ha & _). split_and!; try done.
    apply (rio_ok_slot r _ Hok), elem_of_app. by left. }
  unfold harvest. set (r1 := foldl kernel_complete r cs) in *.
  destruct (harvest_all cs r1) as (Es2 & Eb2 & Ed2 & Ea2 & Eo2 & _ & Ep2 & Eba2). set (r2 := foldl harvest_one r1 cs) in *.
  rewrite Eba, Hb, app_nil_l in Eba2. simpl.
  assert (rio_ok r2) as Hok2.
  { destruct Hok. split; [|destruct Hm; split|].
    - rewrite Eo2, Ep2, Ep, Es2, Es, <-ro_pool0, Hperm. solve_Permutation.
    - by rewrite Ed2, Es2, Eb2.
    - by rewrite Ea2, Es2.
    - rewrite Eba2, Ep2, <-list_fmap_compose. by apply sublist_inserts_l. }
  split; [done|]. split; [congruence|]. split; [congruence|]. split; [unfold received; by rewrite Eba2, !length_fmap|].
  intros i d a Hi. unfold received in Hi. apply list_lookup_fmap_Some in Hi as (c & [= -> ->] & Hc).
  unfold rio_message. rewrite (buf_get_done _ _ (rr_slot c, if rr_status c =? 0 then rr_bytes c else O))
    by (by rewrite Eba2, list_lookup_fmap, Hc).
  cbn [mbind outcome_bind]. apply list_elem_of_lookup_2, list_elem_of_filter in Hc as [Hr Hin].
  destruct (Hrecv c Hin Hr) as (Ho & Hl & Ha & Hst).
  assert (∀ j n, rio_view r2 j n = rio_view r1 j n) as Hv by (intros; unfold rio_view; by rewrite Ed2, Ea2, Eb2).
  destruct (Z.eqb_spec (rr_status c) 0) as [E0|_].
  - rewrite (Hst E0), Nat.min_l by lia. rewrite Hv, Hview by done. eexists. split; [|done]. by rewrite take_ge.
  - rewrite Nat.min_0_l, take_nil. destruct (view_empty r2 (rr_slot c)) as [oa Hoa].
    + by destruct Hok2.
    + rewrite Es2, Es. apply (rio_ok_slot r _ Hok), elem_of_app. by left.
    + by exists oa.
Qed.

(** What a receive leaves: the pool is whole, and a batch of [n] is the datagrams of a
    dequeue that [P] allows, as the views show them. *)
Definition harvested (P : list completion → Prop) (r r' : RioReceiver) (res : result nat io_error) : Prop :=
  rio_ok r' ∧ ri_slots r' = ri_slots r ∧ ri_buf_len r' = ri_buf_len r ∧
  ∀ n, res = Ok n → ∃ cs, P cs ∧ length (received cs) = n ∧
    ∀ i b a, received cs !! i = Some (b, a) →
      ∃ oa, rio_message r' i = Done (take (ri_buf_len r) b, oa) ∧ (b ≠ [] → oa = Some a).

Lemma take_completions_spec r d :
  rio_ok r → ri_batch r = [] → dequeue_ok r d →
  ∃ r' res, take_completions r d = Done (r', res) ∧ harvested (λ cs, d = Completions cs) r r' res.
Proof.
  intros Hok Hb Hd. destruct d as [[|c cs]|]; [by eexists _, _|..|by eexists _, _]. cbn [take_completions].
  rewrite (proj2 (Nat.leb_le _ _)) by apply Hd.
  destruct (harvest_spec r (c :: cs) Hok Hb Hd) as (Hok' & Hs & Hbl & Hl & Hm).
  eexists _, _. split; [done|]. split_and!; [done..|]. intros n [= <-]. by exists (c :: cs).
Qed.

Lemma set_armed_ok b r : rio_ok r → rio_ok (set_armed b r).
Proof. intros [? [] ?]. split; [done|by split|done]. Qed.
Lemma set_armed_dequeue b r d : dequeue_ok r d → dequeue_ok (set_armed b r) d.
Proof. destruct d; [|done]. intros []. by split. Qed.

Lemma rio_recv_spec r k :
  rio_ok r → rio_contract r k →
  ∃ r' res, rio_recv r k = Done (r', res) ∧
    harvested (λ cs, rk_dequeue k = Completions cs ∨ rk_dequeue_after k = Completions cs) r r' res.
Proof.
  intros Hok Hk. destruct (repost_spec r (rk_post k) Hok) as (r1 & E1 & Hok1 & Hs & Hbl & Hb & _).
  destruct (Hk r1 E1) as [Hd Hda]. unfold rio_recv. rewrite E1. cbn [mbind outcome_bind].
  set (P := λ cs, rk_dequeue k = Completions cs ∨ rk_dequeue_after k = Completions cs).
  assert (∀ b d, dequeue_ok r1 d → (∀ cs, d = Completions cs → P cs) →
    ∃ r' res, take_completions (set_armed b r1) d = Done (r', res) ∧ harvested P r r' res) as Htake.
  { intros b d Hdq Hin. destruct (take_completions_spec (set_armed b r1) d) as (r' & res & E & Hok' & Hs' & Hbl' & Hres);
      [by apply set_armed_ok|done|by apply set_armed_dequeue|]. exists r', res. split; [done|].
    simpl in Hs', Hbl', Hres. unfold harvested. rewrite <-Hs, <-Hbl. split_and!; [done..|].
    intros n Hn. destruct (Hres n Hn) as (cs & Ed & Hl & Hm). exists cs. split; [by apply Hin|done]. }
  assert (set_armed (ri_armed r1) r1 = r1) as Hset by (by destruct r1).
  pose proof (Htake (ri_armed r1)) as Hplain. rewrite Hset in Hplain. unfold P in *.
  destruct (rk_dequeue k) as [[|c cs]|] eqn:Eq; [|apply Hplain; naive_solver..].
  destruct (if ri_armed r1 then Ok () else arm_notify (rk_notify k)) as [[]|e]; cycle 1.
  { eexists _, _. split; [done|]. by split_and!. }
  destruct (rk_wait k).
  - apply (Htake false _ Hda). naive_solver.
  - apply (Htake true (Completions [])); [done|naive_solver].
Qed.

Global Instance rio_receiving : Receiving RioReceiver rio_kernel :=
  {| rv_recv r k := x ← rio_recv r k; Done (Some x); rv_message := rio_message |}.
Global Instance rio_receiving_laws : ReceivingLaws RioReceiver rio_kernel.
Proof.
  refine {| rv_wf := rio_ok; rv_buf_len := ri_buf_len; rv_contract := rio_contract; rv_delivered := rio_delivered |}.
  intros r k Hok Hk. destruct (rio_recv_spec r k Hok Hk) as (r' & res & E & Hok' & _ & Hbl & Hres).
  exists (Some (r', res)). simpl. rewrite E. split; [done|]. intros ?? [= <- <-]. split; [done|]. split; [done|].
  intros n Hn. destruct (Hres n Hn) as (cs & HP & Hl & Hm). exists (received cs). split; [done|]. split; [by exists cs|done].
Defined.

(** ** A run of the harvester *)

Fixpoint rio_run (r : RioReceiver) (ks : list rio_kernel) : outcome RioReceiver :=
  match ks with
  | [] => Done r
  | k :: ks' => '(r, _) ← rio_recv r k; rio_run r ks'
  end.
Fixpoint rio_contracts (r : RioReceiver) (ks : list rio_kernel) : Prop :=
  match ks with
  | [] => True
  | k :: ks' => rio_contract r k ∧ ∀ r' res, rio_recv r k = Done (r', res) → rio_contracts r' ks'
  end.

Lemma rio_run_ok ks : ∀ r, rio_ok r → rio_contracts r ks →
  ∃ r', rio_run r ks = Done r' ∧ rio_ok r' ∧ ri_slots r' = ri_slots r.
Proof.
  induction ks as [|k ks IH]; intros r Hok Hk; [by exists r|]. destruct Hk as [Hk Hks].
  destruct (rio_recv_spec r k Hok Hk) as (r1 & res & E & Hok1 & Hs1 & _). cbn [rio_run]. rewrite E.
  cbn [mbind outcome_bind]. destruct (IH r1 Hok1 (Hks _ _ E)) as (r' & E' & Hok' & Hs).
  exists r'. split; [done|]. split; [done|]. congruence.
Qed.

Lemma rio_pool_spec slots buf_len su r ks :
  rio_new slots buf_len su = Ok r → rio_contracts r ks →
  ∃ r', rio_run r ks = Done r' ∧ ri_out r' ++ ri_pending r' ≡ₚ seq 0 slots ∧
    (∀ i, i ∈ (ri_batch r').*1 → i ∈ ri_pending r' ∧ i ∉ ri_out r') ∧
    ∀ post, ∃ r1, repost r' post = Done r1 ∧ (∀ i, post i = true → i ∈ ri_pending r' → i ∈ ri_out r1) ∧
      ri_pending r1 = filter (λ i, post i = false) (ri_pending r').
Proof.
  intros Hnew Hk. destruct (rio_new_ok _ _ _ _ Hnew) as (Hok & Hsl & _).
  destruct (rio_run_ok ks r Hok Hk) as (r' & E & Hok' & Hs). exists r'. split; [done|]. rewrite <-Hsl, <-Hs.
  split; [apply Hok'|]. split.
  - intros i Hi. assert (i ∈ ri_pending r') as Hp by (eapply elem_of_sublist; [done|apply Hok']).
    split; [done|]. pose proof (rio_ok_nodup r' Hok') as (_ & Hd & _)%NoDup_app. intros Ho. by apply (Hd i).
  - intros post. destruct (repost_spec r' post Hok') as (r1 & E1 & _ & _ & _ & _ & _ & Ho). exists r1. split; [done|].
    split; [done|]. revert E1. unfold repost. destruct (forallb _ _); [|done]. by intros [= <-].
Qed.

(** C12: the pool of receive slots never leaks and the harvester never reads a slot the kernel
    may write.  From the set-up on, after any number of receives, whatever posts fail, whatever
    waits time out, whatever arming or queue errors occur: every one of the slots is either
    posted or queued to be posted again, exactly once; every slot the harvester has views of
    is queued, so it is not the kernel's; and the slots whose post succeeds in the next receive
    are the kernel's again, whatever else happens in it. *)
Theorem rio_pool_conserved buf_len su r ks :
  rio_new NSLOTS buf_len su = Ok r → rio_contracts r ks →
  ∃ r', rio_run r ks = Done r' ∧ ri_out r' ++ ri_pending r' ≡ₚ seq 0 NSLOTS ∧
    (∀ i, i ∈ (ri_batch r').*1 → i ∈ ri_pending r' ∧ i ∉ ri_out r') ∧
    ∀ post, ∃ r1, repost r' post = Done r1 ∧ (∀ i, post i = true → i ∈ ri_pending r' → i ∈ ri_out r1) ∧
      ri_pending r1 = filter (λ i, post i = false) (ri_pending r').
Proof. apply rio_pool_spec. Qed.

(** ** Sending *)

(** The ring of send buffers; [sr_next] is the value under the mutex. *)
Record SendRing := mkSendRing { sr_buf_len : nat; sr_next : nat; sr_data : list byte; sr_addr : list byte }.

Definition ring_new (buf_len : nat) : SendRing :=
  mkSendRing buf_len 0 (replicate (SEND_RING * buf_len) x00) (replicate (SEND_RING * ADDR_SLOT) x00).

(** What a ring slot holds: the first [n] bytes of its data and its address. *)
Definition ring_slot (s : SendRing) (slot n : nat) : outcome (list byte * option SocketAddr) :=
  data ← buf_slice (sr_data s) (slot * sr_buf_len s) (slot * sr_buf_len s + n);
  addr ← buf_slice (sr_addr s) (slot * ADDR_SLOT) (slot * ADDR_SLOT + ADDR_SLOT);
  Done (data, parse_addr addr).

(** [RioCore::send_to], the completed sends reaped: the ring after it, the result, and the
    slot and length of the submitted request.  [wsa] is the error of a refused submit. *)
Definition rio_send_to (s : SendRing) (buf : list byte) (peer : SocketAddr) (wsa : option Z)
    : outcome (SendRing * result nat io_error * (nat * nat)) :=
  let len := Nat.min (length buf) (sr_buf_len s) in
  let slot := sr_next s in
  let next := ((slot + 1) mod SEND_RING)%nat in
  data ← buf_write (sr_data s) (slot * sr_buf_len s) (take len buf);
  addr ← buf_write (sr_addr s) (slot * ADDR_SLOT) (replicate ADDR_SLOT x00);
  addr ← buf_write addr (slot * ADDR_SLOT) (write_sockaddr AF_INET6_WINDOWS peer);
  Done (mkSendRing (sr_buf_len s) next data addr,
        match wsa with Some e => Err (io_other ("RIOSendEx failed: wsa " +:+ pretty e)) | None => Ok len end,
        (slot, len)).

Record ring_ok (s : SendRing) : Prop := {
  sg_next : (sr_next s < SEND_RING)%nat;
  sg_data : length (sr_data s) = (SEND_RING * sr_buf_len s)%nat;
  sg_addr : length (sr_addr s) = (SEND_RING * ADDR_SLOT)%nat
}.

Lemma ring_new_ok buf_len : ring_ok (ring_new buf_len).
Proof.
  split; [cbn [ring_new sr_next]; unfold SEND_RING; lia|..];
    cbn [ring_new sr_data sr_addr sr_buf_len]; by rewrite length_replicate.
Qed.

Lemma rio_send_to_spec s buf peer wsa :
  ring_ok s → wf_addr peer →
  ∃ s', rio_send_to s buf peer wsa =
      Done (s', match wsa with
                | Some e => Err (io_other ("RIOSendEx failed: wsa " +:+ pretty e))
                | None => Ok (Nat.min (length buf) (sr_buf_len s))
                end, (sr_next s, Nat.min (length buf) (sr_buf_len s))) ∧
    ring_ok s' ∧ sr_buf_len s' = sr_buf_len s ∧ sr_next s' = ((sr_next s + 1) mod SEND_RING)%nat ∧
    ring_slot s' (sr_next s) (Nat.min (length buf) (sr_buf_len s)) = Done (take (sr_buf_len s) buf, Some peer) ∧
    ∀ slot n, (slot < SEND_RING)%nat → (n ≤ sr_buf_len s)%nat → slot ≠ sr_next s →
      ring_slot s' slot n = ring_slot s slot n.
Proof.
  intros [] Hp. set (len := Nat.min (length buf) (sr_buf_len s)). unfold rio_send_to. fold len.
  pose proof (slot_bound (sr_next s) SEND_RING (sr_buf_len s) sg_next0) as Bd.
  pose proof (slot_bound (sr_next s) SEND_RING ADDR_SLOT sg_next0) as Ba.
  pose proof (write_sockaddr_slot peer) as Hw.
  assert (length (take len buf) = len) as Hl by (rewrite length_take; lia).
  rewrite (buf_write_done (sr_data s)) by (rewrite Hl; lia). cbn [mbind outcome_bind].
  rewrite (buf_write_done (sr_addr s)) by (rewrite length_replicate; lia). cbn [mbind outcome_bind].
  set (zeroed := list_inserts _ (replicate _ _) (sr_addr s)).
  assert (length zeroed = length (sr_addr s)) as Hz by (unfold zeroed; apply length_inserts).
  rewrite (buf_write_done zeroed) by lia. cbn [mbind outcome_bind]. eexists. split; [done|].
  cbn [sr_buf_len sr_next]. split_and!; try done.
  - split; cbn [sr_next sr_data sr_addr sr_buf_len]; rewrite ?length_inserts; [|done|congruence].
    apply Nat.mod_upper_bound. done.
  - unfold ring_slot. cbn [sr_data sr_addr sr_buf_len]. rewrite (buf_slice_inserts_eq (sr_data s)) by lia.
    cbn [mbind outcome_bind]. destruct (addr_slot_written zeroed (sr_next s) peer Hp) as (sl & E & Hpa); [lia|].
    rewrite E. cbn [mbind outcome_bind]. rewrite Hpa. do 2 f_equal. unfold len.
    destruct (Nat.le_ge_cases (length buf) (sr_buf_len s)); [rewrite !take_ge by lia; done|by rewrite Nat.min_r].
  - intros slot n Hs Hn Hne. unfold ring_slot. cbn [sr_data sr_addr sr_buf_len].
    pose proof (slot_bound slot SEND_RING (sr_buf_len s) Hs). pose proof (slot_bound slot SEND_RING ADDR_SLOT Hs).
    assert ((slot < sr_next s)%nat ∨ (sr_next s < slot)%nat) as [Hlt|Hlt] by lia.
    + pose proof (slot_bound _ _ (sr_buf_len s) Hlt). pose proof (slot_bound _ _ ADDR_SLOT Hlt).
      rewrite (buf_slice_inserts_ne (sr_data s)), (buf_slice_inserts_ne zeroed) by lia. unfold zeroed.
      by rewrite buf_slice_inserts_ne by (rewrite ?length_replicate; lia).
    + pose proof (slot_bound _ _ (sr_buf_len s) Hlt). pose proof (slot_bound _ _ ADDR_SLOT Hlt).
      rewrite (buf_slice_inserts_ne (sr_data s)), (buf_slice_inserts_ne zeroed) by lia. unfold zeroed.
      by rewrite buf_slice_inserts_ne by (rewrite ?length_replicate; lia).
Qed.

(** Several sends; a refused submit has used its slot all the same. *)
Fixpoint rio_sends (s : SendRing) (msgs : list (list byte * SocketAddr * option Z)) : outcome SendRing :=
  match msgs with
  | [] => Done s
  | (buf, peer, wsa) :: msgs' => '(s, _, _) ← rio_send_to s buf peer wsa; rio_sends s msgs'
  end.

Lemma rio_sends_keep msgs : ∀ s slot n,
  ring_ok s → Forall (λ m, wf_addr m.1.2) msgs → (slot < SEND_RING)%nat → (n ≤ sr_buf_len s)%nat →
  (∀ j, (j < length msgs)%nat → slot ≠ ((sr_next s + j) mod SEND_RING)%nat) →
  ∃ s', rio_sends s msgs = Done s' ∧ ring_ok s' ∧ ring_slot s' slot n = ring_slot s slot n.
Proof.
  induction msgs as [|[[buf peer] wsa] msgs IH]; intros s slot n Hs Hall Hsl Hn Hne; [by exists s|].
  apply Forall_cons in Hall as [Hp Hall]. pose proof (sg_next s Hs) as Hlt.
  destruct (rio_send_to_spec s buf peer wsa Hs Hp) as (s1 & E & Hs1 & Hb1 & Hn1 & _ & Hother).
  assert (slot ≠ sr_next s) as Hne0.
  { intros ->. apply (Hne O); [simpl; lia|]. by rewrite Nat.add_0_r, Nat.mod_small. }
  cbn [rio_sends]. rewrite E. cbn [mbind outcome_bind].
  destruct (IH s1 slot n) as (s' & E' & Hs' & Hslot); [done|done|done|by rewrite Hb1| |].
  { intros j Hj. rewrite Hn1. replace ((_ + j) mod _)%nat with ((sr_next s + S j) mod SEND_RING)%nat.
    - apply Hne. simpl. lia.
    - rewrite Nat.Div0.add_mod_idemp_l. f_equal. lia. }
  exists s'. split; [done|]. split; [done|]. rewrite Hslot. by apply Hother.
Qed.

(** Result: feedback in flight keeps its bytes.  A datagram given to the send ring is written, with
    its destination, to a slot of its own; the submitted request still reads that datagram
    after any fifteen further sends, whether their submits are accepted or refused, and the
    ring never writes outside its buffers. *)
Theorem rio_send_in_flight s buf peer wsa more :
  ring_ok s → wf_addr peer → Forall (λ m, wf_addr m.1.2) more → (length more < SEND_RING)%nat →
  ∃ s1 res slot len s2, rio_send_to s buf peer wsa = Done (s1, res, (slot, len)) ∧
    rio_sends s1 more = Done s2 ∧ ring_ok s2 ∧
    ring_slot s2 slot len = Done (take (sr_buf_len s) buf, Some peer).
Proof.
  intros Hs Hp Hall Hl. destruct (rio_send_to_spec s buf peer wsa Hs Hp) as (s1 & E & Hs1 & Hb1 & Hn1 & Hslot & _).
  pose proof (sg_next s Hs) as Hlt.
  destruct (rio_sends_keep more s1 (sr_next s) (Nat.min (length buf) (sr_buf_len s))) as (s2 & E2 & Hs2 & Hkeep);
    [done|done|done|lia| |].
  { intros j Hj. rewrite Hn1, Nat.Div0.add_mod_idemp_l. unfold SEND_RING in *. intros Heq.
    pose proof (Nat.div_mod_eq (sr_next s + 1 + j) 16) as Hdm. rewrite <-Heq in Hdm. lia. }
  eexists s1, _, _, _, s2. split; [done|]. split; [done|]. split; [done|]. by rewrite Hkeep.
Qed.

(** C30: what becomes of a feedback PDU on Windows.  One that fits a send buffer leaves whole.
    One that does not is cut to the buffer, the call still reports success, and the sender
    does not read what arrives: the header asks for more entries than there are bytes.  The
    buffers hold block_size + 100 bytes and a full PDU of 90 NACKs takes 1476, so with blocks
    below 1376 bytes the reports with the most losses never take effect. *)
Theorem rio_feedback_cut s pdu h nacks peer :
  ring_ok s → wf_addr peer → decode_feedback pdu = Done (Some (h, nacks)) →
  ∃ s' out, let len := Nat.min (length pdu) (sr_buf_len s) in
    rio_send_to s pdu peer None = Done (s', Ok len, (sr_next s, len)) ∧
    ring_slot s' (sr_next s) len = Done (out, Some peer) ∧
    ((length pdu ≤ sr_buf_len s)%nat → out = pdu) ∧
    ((sr_buf_len s < FEEDBACK_HEADER_SIZE + NACK_ENTRY_SIZE * length nacks)%nat → decode_feedback out = Done None).
Proof.
  intros Hs Hp Hd. destruct (rio_send_to_spec s pdu peer None Hs Hp) as (s1 & E & _ & _ & _ & Hslot & _).
  exists s1, (take (sr_buf_len s) pdu). split; [done|]. split; [done|]. split; [by apply take_ge|].
  by eapply decode_feedback_cut.
Qed.

(** ** Small runs *)

Lemma post_all_ok wsa idxs : post_all (λ _, true) wsa idxs = Ok ().
Proof. by induction idxs. Qed.

Definition demo_setup : rio_setup := mkRioSetup 0 1 2 3 4 true 5 6 7 (λ _, true) 0 0 "".
Lemma demo_rio_new slots buf_len : rio_new slots buf_len demo_setup =
  Ok (mkRioReceiver slots buf_len (replicate (slots * buf_len) x00) (replicate (slots * ADDR_SLOT) x00)
        (seq 0 slots) [] [] true).
Proof. unfold rio_new. cbn -[replicate post_all seq]. by rewrite post_all_ok. Qed.

Definition demo_from : SocketAddr := mkSocketAddr (V4 0x7F000001) 9000 0 0.
Lemma demo_from_wf : wf_addr demo_from.
Proof. vm_compute. repeat split; done. Qed.

(** A harvest of slot 5, then a wait that times out while its post fails. *)
Definition demo_runs : list rio_kernel :=
  [mkRioKernel (λ _, true) (Completions [mkCompletion 5 2 0 [x01; x02] demo_from]) 0 false (Completions []);
   mkRioKernel (λ _, false) (Completions []) 0 false (Completions [])].

Lemma completions_ok_nil r : completions_ok r [].
Proof. split; [simpl; unfold DEQ; lia|constructor|]. intros c Hc. by apply not_elem_of_nil in Hc. Qed.

Lemma demo_contracts slots r : (5 < slots)%nat → rio_new slots 16 demo_setup = Ok r → rio_contracts r demo_runs.
Proof.
  intros Hs. rewrite demo_rio_new. intros [= <-]. split; [|split; [|done]].
  - intros r1 E. unfold repost in E. cbn [ri_pending forallb] in E. apply Done_inj in E as <-.
    split; [|apply completions_ok_nil]. split; [simpl; unfold DEQ; lia|apply NoDup_singleton|].
    intros c ->%list_elem_of_singleton _. cbn [ri_out ri_buf_len rr_data rr_from rr_status rr_bytes].
    split_and!; [|simpl; lia|apply demo_from_wf|done]. change (rr_slot _) with 5%nat. rewrite app_nil_r.
    apply elem_of_seq. lia.
  - intros r1 _. split; apply completions_ok_nil.
Qed.

Lemma rio_pool_conserved_witness :
  ∃ r r', rio_new NSLOTS 16 demo_setup = Ok r ∧ rio_run r demo_runs = Done r' ∧
    ri_out r' ++ ri_pending r' ≡ₚ seq 0 NSLOTS.
Proof.
  destruct (rio_pool_conserved 16 demo_setup _ demo_runs (demo_rio_new NSLOTS 16)
              (demo_contracts NSLOTS _ ltac:(unfold NSLOTS; lia) (demo_rio_new NSLOTS 16))) as (r' & E & Hp & _).
  exact (ex_intro _ _ (ex_intro _ r' (conj (demo_rio_new NSLOTS 16) (conj E Hp)))).
Defined.

Lemma rio_send_in_flight_witness :
  ∃ s1 res slot len s2, rio_send_to (ring_new 4) [x01; x02; x03] demo_from None = Done (s1, res, (slot, len)) ∧
    rio_sends s1 (replicate 15 ([x09], demo_from, None)) = Done s2 ∧
    ring_slot s2 slot len = Done ([x01; x02; x03], Some demo_from).
Proof.
  destruct (rio_send_in_flight (ring_new 4) [x01; x02; x03] demo_from None (replicate 15 ([x09], demo_from, None)))
    as (s1 & res & slot & len & s2 & E1 & E2 & _ & E3);
    [apply ring_new_ok|exact demo_from_wf|apply Forall_replicate; exact demo_from_wf|by apply Nat.ltb_lt|].
  exact (ex_intro _ s1 (ex_intro _ res (ex_intro _ slot (ex_intro _ len (ex_intro _ s2 (conj E1 (conj E2 E3))))))).
Defined.

(** Blocks of 24 bytes and a report of six losses. *)
Lemma rio_feedback_cut_witness :
  ∃ pdu s' out, decode_feedback pdu =
      Done (Some (mkFeedbackHeader true 6 7 999 1000000 3 false, (λ i, mkNackEntry i i) <$> [1; 2; 3; 4; 5; 6])) ∧
    rio_send_to (ring_new 124) pdu demo_from None = Done (s', Ok 124%nat, (O, 124%nat)) ∧
    ring_slot s' 0 124 = Done (out, Some demo_from) ∧ decode_feedback out = Done None.
Proof.
  destruct (encode_feedback (replicate 132 x00) (mkFeedbackHeader true 0 7 999 1000000 3 false)
              ((λ i, mkNackEntry i i) <$> [1; 2; 3; 4; 5; 6])) as [[buf n]|] eqn:E; [|vm_compute in E; discriminate].
  vm_compute in E. injection E as Eb En.
  assert (decode_feedback buf =
      Done (Some (mkFeedbackHeader true 6 7 999 1000000 3 false, (λ i, mkNackEntry i i) <$> [1; 2; 3; 4; 5; 6]))) as Hd
    by (subst buf; vm_compute; reflexivity).
  assert (length buf = 132%nat) as Hl by (subst buf; reflexivity).
  destruct (rio_feedback_cut (ring_new 124) buf _ _ demo_from (ring_new_ok 124) demo_from_wf Hd) as (s' & out & E1 & E2 & _ & E3).
  rewrite Hl in E1, E2. exists buf, s', out. split; [exact Hd|]. split; [exact E1|]. split; [exact E2|].
  apply E3. cbn [ring_new sr_buf_len]. rewrite length_fmap. apply Nat.ltb_lt. reflexivity.
Defined.
