(* ===== verification/RioNotify.v ===== *)
(** * RIO: waiting and handles (src/sys/rio.rs)

    The harvester waits on an event the completion queue signals once per [RIONotify].  Here
    the queue, its one-shot notification, the auto-reset event and the harvester's [armed]
    flag run against each other step by step, completions arriving at any moment.  Below,
    the handles [RioCore::new] acquires and what releases them. *)

From S2P Require Import Prelude Errors Rio.

(** ** The completion queue *)

(** A completion queue with its event: how many completions wait, whether a notification is
    registered, whether the event is set; [RIONotify], [RIODequeueCompletion], the wait, and
    a completion arriving. *)
Class RioCq (Q : Type) := {
  cq_len : Q → nat;
  cq_registered : Q → bool;
  cq_event : Q → bool;
  cq_notify : Q → Q * Z;
  cq_dequeue : nat → Q → Q * nat;
  cq_wait : Q → option Q;
  cq_complete : Q → Q
}.

(** As documented: a second [RIONotify] before the notification is an error; a notification of
    a queue that is not empty is immediate, otherwise the next completion makes it; it happens
    once; a wait takes the auto-reset event, or runs out when it is not set. *)
Class RioCqLaws (Q : Type) `{!RioCq Q} : Prop := {
  notify_twice q : cq_registered q = true → (cq_notify q).2 ≠ 0;
  notify_len q : cq_len (cq_notify q).1 = cq_len q;
  notify_now q : cq_registered q = false → (0 < cq_len q)%nat →
    (cq_notify q).2 = 0 ∧ cq_registered (cq_notify q).1 = false ∧ cq_event (cq_notify q).1 = true;
  notify_later q : cq_registered q = false → cq_len q = 0%nat →
    (cq_notify q).2 = 0 ∧ cq_registered (cq_notify q).1 = true ∧ cq_event (cq_notify q).1 = cq_event q;
  dequeue_count n q : (cq_dequeue n q).2 = Nat.min n (cq_len q) ∧
    cq_len (cq_dequeue n q).1 = (cq_len q - (cq_dequeue n q).2)%nat;
  dequeue_frame n q : cq_registered (cq_dequeue n q).1 = cq_registered q ∧ cq_event (cq_dequeue n q).1 = cq_event q;
  wait_set q : cq_event q = true → ∃ q', cq_wait q = Some q' ∧ cq_event q' = false ∧
    cq_len q' = cq_len q ∧ cq_registered q' = cq_registered q;
  wait_unset q : cq_event q = false → cq_wait q = None;
  complete_len q : cq_len (cq_complete q) = S (cq_len q);
  complete_notifies q : cq_registered q = true →
    cq_registered (cq_complete q) = false ∧ cq_event (cq_complete q) = true;
  complete_silent q : cq_registered q = false →
    cq_registered (cq_complete q) = false ∧ cq_event (cq_complete q) = cq_event q
}.

(** ** The harvester *)

(** Where [BatchReceiver::recv] is: at its first dequeue, past it with nothing, in the wait, at
    the dequeue after the wait, or out with an error of [arm_notify]. *)
Inductive rio_pc := AtDequeue | Empty | Waiting | Woken | NotifyFailed (r : Z).

Record Harvester (Q : Type) := mkHarvester { hv_q : Q; hv_armed : bool; hv_pc : rio_pc }.
Arguments mkHarvester {Q}.
Arguments hv_q {Q}.
Arguments hv_armed {Q}.
Arguments hv_pc {Q}.

Section harvester.
Context {Q : Type} `{!RioCq Q}.
Implicit Types (q : Q) (h : Harvester Q).

(** The start: the notification [RioCore::new] armed, [armed] from [RecvEngine::worker]. *)
Definition harvester_init q : Harvester Q := mkHarvester (cq_notify q).1 true AtDequeue.

Inductive hstep : Harvester Q → Harvester Q → Prop :=
| h_complete q armed pc : hstep (mkHarvester q armed pc) (mkHarvester (cq_complete q) armed pc)
| h_harvest q armed q' n : cq_dequeue DEQ q = (q', n) → (0 < n)%nat →
    hstep (mkHarvester q armed AtDequeue) (mkHarvester q' armed AtDequeue)
| h_empty q armed q' : cq_dequeue DEQ q = (q', 0%nat) →
    hstep (mkHarvester q armed AtDequeue) (mkHarvester q' armed Empty)
| h_armed q : hstep (mkHarvester q true Empty) (mkHarvester q true Waiting)
| h_arm q q' : cq_notify q = (q', 0) → hstep (mkHarvester q false Empty) (mkHarvester q' true Waiting)
| h_arm_failed q q' r : cq_notify q = (q', r) → r ≠ 0 →
    hstep (mkHarvester q false Empty) (mkHarvester q' false (NotifyFailed r))
| h_wake q armed q' : cq_wait q = Some q' → hstep (mkHarvester q armed Waiting) (mkHarvester q' false Woken)
| h_timeout q armed : cq_wait q = None → hstep (mkHarvester q armed Waiting) (mkHarvester q armed AtDequeue)
| h_woken q armed q' n : cq_dequeue DEQ q = (q', n) → hstep (mkHarvester q armed Woken) (mkHarvester q' armed AtDequeue).

(** ** No wake-up is lost *)

Context `{!RioCqLaws Q}.

(** [armed] says a notification is on its way or has come; one that is on its way has an empty
    queue. *)
Record hv_ok h : Prop := {
  ho_armed : hv_armed h = cq_registered (hv_q h) || cq_event (hv_q h);
  ho_once : cq_registered (hv_q h) = true → cq_event (hv_q h) = false ∧ cq_len (hv_q h) = 0%nat;
  ho_wait : hv_pc h = Waiting → hv_armed h = true;
  ho_notify r : hv_pc h ≠ NotifyFailed r
}.

Lemma harvester_init_ok q : cq_registered q = false → cq_event q = false → hv_ok (harvester_init q).
Proof.
  intros Hr He. pose proof (notify_len q) as Hl. destruct (decide (cq_len q = 0%nat)) as [Hz|Hz].
  - destruct (notify_later q Hr Hz) as (_ & H1 & H2). split; simpl; [by rewrite H1|intros _; by rewrite H2, Hl|done|done].
  - destruct (notify_now q Hr ltac:(lia)) as (_ & H1 & H2). split; simpl; [by rewrite H1, H2|by rewrite H1|done|done].
Qed.

Lemma hstep_ok h h' : hv_ok h → hstep h h' → hv_ok h'.
Proof.
  intros [Ha Ho Hw Hn] Hs. destruct Hs as [q armed pc|q armed q' n E Hp|q armed q' E|q|q q' E|q q' r E Hr|q armed q' E|q armed E|q armed q' n E];
    simpl in *.
  - destruct (cq_registered q) eqn:Er.
    + destruct (complete_notifies q Er) as [H1 H2]. split; simpl; [by rewrite H1, H2|by rewrite H1|done|done].
    + destruct (complete_silent q Er) as [H1 H2]. split; simpl; [by rewrite H1, H2|by rewrite H1|done|done].
  - pose proof (dequeue_count DEQ q) as [Hc Hl]. pose proof (dequeue_frame DEQ q) as [H1 H2]. rewrite E in *. simpl in *.
    split; simpl; rewrite ?H1, ?H2; try done. intros Er. destruct (Ho Er). split; [done|lia].
  - pose proof (dequeue_count DEQ q) as [Hc Hl]. pose proof (dequeue_frame DEQ q) as [H1 H2]. rewrite E in *. simpl in *.
    split; simpl; rewrite ?H1, ?H2; try done. intros Er. destruct (Ho Er). split; [done|lia].
  - by split.
  - symmetry in Ha. apply orb_false_iff in Ha as [Er Ee]. pose proof (notify_len q) as Hl.
    destruct (decide (cq_len q = 0%nat)) as [Hz|Hz].
    + destruct (notify_later q Er Hz) as (_ & H1 & H2). rewrite E in *. simpl in *.
      split; simpl; [by rewrite H1|intros _; rewrite H2, Hl; done|done|done].
    + destruct (notify_now q Er ltac:(lia)) as (_ & H1 & H2). rewrite E in *. simpl in *.
      split; simpl; [by rewrite H1, H2|by rewrite H1|done|done].
  - exfalso. symmetry in Ha. apply orb_false_iff in Ha as [Er _]. apply Hr.
    destruct (decide (cq_len q = 0%nat)) as [Hz|Hz];
      [destruct (notify_later q Er Hz) as (H1 & _)|destruct (notify_now q Er ltac:(lia)) as (H1 & _)]; by rewrite E in H1.
  - destruct (cq_event q) eqn:Ee; [|by rewrite (wait_unset q Ee) in E].
    destruct (wait_set q Ee) as (q2 & E2 & H1 & H2 & H3). rewrite E in E2. injection E2 as <-.
    assert (cq_registered q = false) as Er by (destruct (cq_registered q); [by destruct (Ho eq_refl)|done]).
    split; simpl; rewrite ?H1, ?H3, ?Er; done.
  - by split.
  - pose proof (dequeue_count DEQ q) as [Hc Hl]. pose proof (dequeue_frame DEQ q) as [H1 H2]. rewrite E in *. simpl in *.
    split; simpl; rewrite ?H1, ?H2; try done. intros Er. destruct (Ho Er). split; [done|lia].
Qed.

Lemma harvester_ok q h : cq_registered q = false → cq_event q = false → rtc hstep (harvester_init q) h → hv_ok h.
Proof.
  intros Hr He Hs. pose proof (harvester_init_ok q Hr He) as Hi. induction Hs; eauto using hstep_ok.
Qed.
End harvester.

(** C13: no wake-up is lost on Windows.  From a queue set up by [RioCore::new], whenever the
    completions arrive: the harvester never asks for a second notification while one is
    outstanding, so [arm_notify] does not fail; while it waits with completions in the queue
    the event is set, so the wait ends at once and the dequeue after it finds them; and a
    wait that runs out does so on an empty queue. *)
Theorem rio_no_lost_wakeup {Q} `{!RioCq Q, !RioCqLaws Q} (q : Q) h :
  cq_registered q = false → cq_event q = false → rtc hstep (harvester_init q) h →
  (∀ r, hv_pc h ≠ NotifyFailed r) ∧
  (hv_pc h = Waiting → (0 < cq_len (hv_q h))%nat →
     ∃ q', cq_wait (hv_q h) = Some q' ∧ (0 < (cq_dequeue DEQ q').2)%nat) ∧
  (hv_pc h = Waiting → cq_wait (hv_q h) = None → cq_len (hv_q h) = 0%nat).
Proof.
  intros Hr He Hs. pose proof (harvester_ok q h Hr He Hs) as [Ha Ho Hw Hn].
  assert (hv_pc h = Waiting → (0 < cq_len (hv_q h))%nat → cq_event (hv_q h) = true) as Hev.
  { intros Hpc Hl. specialize (Hw Hpc). destruct (cq_registered (hv_q h)); [destruct (Ho eq_refl); lia|]. by rewrite Hw in Ha. }
  split; [done|]. split.
  - intros Hpc Hl. destruct (wait_set _ (Hev Hpc Hl)) as (q' & E & _ & Hl' & _). exists q'. split; [done|].
    destruct (dequeue_count DEQ q') as [-> _]. unfold DEQ. lia.
  - intros Hpc Hwt. destruct (cq_len (hv_q h)) eqn:El; [done|]. destruct (wait_set _ (Hev Hpc ltac:(lia))) as (q' & E & _). congruence.
Qed.

(** ** Handles *)

(** What [RioCore::new] acquires besides the request queue, which goes with the socket. *)
Inductive handle := HBuf (id : Z) | HEvent | HCq (cq : Z).

#[export] Instance handle_eq_dec : EqDecision handle.
Proof. solve_decision. Defined.

(** The calls that acquire or release a handle. *)
Inductive handle_call := Acquire (h : handle) | Release (h : handle).

(** The handles held after a sequence of calls. *)
Definition handle_step (held : list handle) (c : handle_call) : list handle :=
  match c with Acquire h => h :: held | Release h => filter (λ h', h' ≠ h) held end.
Definition held_after (cs : list handle_call) : list handle := foldl handle_step [] cs.

Lemma all_released held rs : held ⊆ rs → foldl handle_step held (Release <$> rs) = [].
Proof.
  revert held. induction rs as [|h rs IH]; intros held Hs; [by apply list_nil_subseteq|].
  cbn [fmap list_fmap foldl handle_step]. apply IH. intros h' [Hne Hin]%list_elem_of_filter. set_solver.
Qed.

(** [RIORegisterBuffer], [CreateEventW], [RIOCreateCompletionQueue]: a call that succeeds
    acquires its handle. *)
Definition registered_buf (id : Z) : list handle_call := if id =? RIO_INVALID_BUFFERID then [] else [Acquire (HBuf id)].
Definition created_cq (cq : Z) : list handle_call := if cq =? 0 then [] else [Acquire (HCq cq)].

(** The calls of [RioCore::new] up to the construction of the core, in order and cut at its
    early returns, with whether it got to the construction.  Nothing but the core has a
    destructor for these handles, so an early return releases nothing. *)
Definition rio_calls (su : rio_setup) : list handle_call * bool :=
  if negb (su_ioctl su =? 0) then ([], false) else
  let cs := registered_buf (su_data_id su) in
  if su_data_id su =? RIO_INVALID_BUFFERID then (cs, false) else
  let cs := cs ++ registered_buf (su_addr_id su) in
  if su_addr_id su =? RIO_INVALID_BUFFERID then (cs, false) else
  let cs := cs ++ registered_buf (su_send_data_id su) ++ registered_buf (su_send_addr_id su) in
  if (su_send_data_id su =? RIO_INVALID_BUFFERID) || (su_send_addr_id su =? RIO_INVALID_BUFFERID) then (cs, false) else
  if negb (su_event su) then (cs, false) else
  let cs := cs ++ [Acquire HEvent] ++ created_cq (su_cq su) in
  if su_cq su =? 0 then (cs, false) else
  let cs := cs ++ created_cq (su_send_cq su) in
  if su_send_cq su =? 0 then (cs, false) else
  (cs, negb (su_rq su =? 0)).

(** [RioCore::drop], when the function table has the entries. *)
Definition rio_drop (close_cq dereg : bool) (su : rio_setup) : list handle_call :=
  Release <$>
  (if close_cq then [HCq (su_cq su); HCq (su_send_cq su)] else []) ++
  (if dereg then [HBuf (su_data_id su); HBuf (su_addr_id su); HBuf (su_send_data_id su); HBuf (su_send_addr_id su)] else []) ++
  (if su_event su then [HEvent] else []).

(** The life of an engine: its construction, and its drop if a core was constructed (the last
    reference to it goes when posting the receives fails, or when the engine does). *)
Definition rio_life (close_cq dereg : bool) (su : rio_setup) : list handle_call :=
  (rio_calls su).1 ++ (if (rio_calls su).2 then rio_drop close_cq dereg su else []).

(** Result: an engine that was returned constructed its core, and its whole life leaves no handle
    behind when the function table has the release entries; neither does one whose posting
    of the receives failed. *)
Theorem rio_life_clean slots buf_len su r :
  (rio_new slots buf_len su = Ok r → (rio_calls su).2 = true) ∧
  ((rio_calls su).2 = true → held_after (rio_life true true su) = []).
Proof.
  split.
  - unfold rio_new, rio_calls. repeat (case_match; try done).
  - intros Hb. unfold held_after, rio_life, rio_drop. rewrite Hb, foldl_app. apply all_released.
    revert Hb. unfold rio_calls, registered_buf, created_cq. repeat (case_match; try done). intros _. set_solver.
Qed.

(** Data registered, the completion queue refused: the four buffers and the event stay. *)
Definition failing_setup : rio_setup := mkRioSetup 0 11 12 13 14 true 0 0 0 (λ _, true) 0 10055 "".
Example failed_setup_leaks :
  (∃ e, rio_new NSLOTS 64 failing_setup = Err e) ∧
  held_after (rio_life true true failing_setup) = [HEvent; HBuf 14; HBuf 13; HBuf 12; HBuf 11].
Proof. split; [by eexists|by vm_compute]. Qed.

(** ** A small queue *)

(** Completions waiting, notification registered, event set. *)
Definition toy_cq : Type := nat * bool * bool.
#[local] Instance toy_rio_cq : RioCq toy_cq := {|
  cq_len q := q.1.1;
  cq_registered q := q.1.2;
  cq_event q := q.2;
  cq_notify q := let '(n, r, e) := q in
    if (r : bool) then (q, 10037) else if (n =? 0)%nat then ((n, true, e), 0) else ((n, false, true), 0);
  cq_dequeue k q := let '(n, r, e) := q in ((n - Nat.min k n, r, e)%nat, Nat.min k n);
  cq_wait q := let '(n, r, e) := q in if (e : bool) then Some (n, r, false) else None;
  cq_complete q := let '(n, r, e) := q in if (r : bool) then (S n, false, true) else (S n, r, e)
|}.
#[local] Instance toy_rio_cq_laws : RioCqLaws toy_cq.
Proof.
  split; try (intros [[n []] []]; simpl in *; try done; by eexists);
    [intros [[[|n] []] []]; simpl in *; done|intros [[[|n] []] []]; simpl in *; (done || lia)
    |intros [[[|n] []] []]; simpl in *; (done || lia)|intros k [[n r] e]; done|intros k [[n r] e]; done].
Qed.

(** A datagram lands while the harvester is between its dequeue and its wait. *)
Lemma rio_no_lost_wakeup_witness :
  rtc hstep (harvester_init ((0, false, false)%nat : toy_cq)) (mkHarvester ((1, false, true)%nat : toy_cq) true Waiting) ∧
  ∃ q', cq_wait ((1, false, true)%nat : toy_cq) = Some q' ∧ (0 < (cq_dequeue DEQ q').2)%nat.
Proof.
  assert (rtc hstep (harvester_init ((0, false, false)%nat : toy_cq)) (mkHarvester ((1, false, true)%nat : toy_cq) true Waiting)) as Hr.
  { eapply rtc_l; [by eapply h_empty|]. eapply rtc_l; [apply h_complete|]. eapply rtc_l; [apply h_armed|]. apply rtc_refl. }
  split; [exact Hr|].
  apply (@rio_no_lost_wakeup toy_cq toy_rio_cq toy_rio_cq_laws (0, false, false)%nat _ eq_refl eq_refl Hr); [reflexivity|simpl; lia].
Defined.
