(* ===== verification/Sender.v ===== *)
(** * Sending data plane (src/sender.rs)

    [SendCfg] holds what a transfer fixes (the immutable fields of [Shared]),
    [SendState] what the threads share and update.  Each thread's loop body is one
    definition on the state; where a thread waits on a channel or a socket, what it
    receives is an argument.  The clock is an argument wherever [now_micros] is read. *)

From S2P Require Import Prelude Float64 Errors Net Protocol Rate PQueue Stats Runtime BlockIO Crypto.

Definition MAX_BATCH : Z := 64.

Record RexQueue := mkRexQueue { rq_heap : list Z; rq_set : gset Z }.
Definition rex_default : RexQueue := mkRexQueue [] ∅.

Record TickState := mkTickState { ts_pending : bool; ts_val : Z; ts_is_net : bool; ts_t2 : Z }.
Definition tick_default : TickState := mkTickState false 0 false 0.

(** The configuration of a transfer, for a source of type [Src]. *)
Record SendCfg (Src : Type) := mkSendCfg {
  sc_source : Src;
  sc_file_size : Z;
  sc_block_size : Z;
  sc_total_blocks : Z;
  sc_session : Z;
  sc_rate_mode : RateMode;
  sc_crypto : option AeadBox;
  sc_peer : SocketAddr;
  sc_configured_target_bps : Z
}.
Arguments mkSendCfg {Src}.
Arguments sc_source {Src}.
Arguments sc_file_size {Src}.
Arguments sc_block_size {Src}.
Arguments sc_total_blocks {Src}.
Arguments sc_session {Src}.
Arguments sc_rate_mode {Src}.
Arguments sc_crypto {Src}.
Arguments sc_peer {Src}.
Arguments sc_configured_target_bps {Src}.

Record SendState := mkSendState {
  st_target_bps : Z;
  st_done : bool;
  st_rex : RexQueue;
  st_tick : TickState;
  st_stats : Stats
}.

(** The initial target of [Sender::new]. *)
Definition initial_target (rate : RateConfig) (warm : option RateWarmStart) : Z :=
  let init := if rc_target_bps rate =? 0 then rc_max_bps rate else rc_target_bps rate in
  match rc_mode rate with
  | Adaptive =>
      let max_bps := if rc_max_bps rate =? 0 then u64_max else rc_max_bps rate in
      match warm with
      | Some w => if 0 <? rw_rate_bps w then Z.min (rw_rate_bps w) max_bps else init
      | None => init
      end
  | Fixed => init
  end.

(** [Sender::new] and the shared state [run] builds. *)
Definition sender_init (rate : RateConfig) (warm : option RateWarmStart)
    (file_size block_sz total : Z) (stats : Stats) : SendState :=
  let init := initial_target rate warm in
  let stats := stats_store total_bytes (i64_as_u64 file_size) stats in
  let stats := stats_store total_blocks total stats in
  let stats := stats_store block_size block_sz stats in
  let stats := stats_store target_rate_bps init stats in
  mkSendState init false rex_default tick_default stats.

(** [Sender::overhead] and the PDU buffer length of [run]. *)
Definition pdu_overhead (crypto : option AeadBox) : nat :=
  match crypto with Some c => overhead c | None => O end.
Definition pdu_buf_len {Src} (cfg : SendCfg Src) : nat :=
  (Z.to_nat (sc_block_size cfg) + DATA_HEADER_SIZE + pdu_overhead (sc_crypto cfg))%nat.

(** ** Retransmit queue *)

(** [push_retransmits]: the loop, then the gauge. *)
Fixpoint push_loop (q : RexQueue) (nacks : list NackEntry) : RexQueue :=
  match nacks with
  | [] => q
  | n :: nacks' =>
      push_loop
        (if bool_decide (ne_block_seq n ∈ rq_set q) then q
         else mkRexQueue (pq_push Z.leb (ne_block_seq n) (rq_heap q)) ({[ne_block_seq n]} ∪ rq_set q))
        nacks'
  end.
Definition push_retransmits (st : SendState) (nacks : list NackEntry) : SendState :=
  let q := push_loop (st_rex st) nacks in
  mkSendState (st_target_bps st) (st_done st) q (st_tick st)
    (stats_store rex_queue_len (size (rq_set q)) (st_stats st)).

(** [pop_retransmit]. *)
Definition pop_retransmit (st : SendState) : option Z * SendState :=
  match pq_pop (rq_heap (st_rex st)) with
  | None => (None, st)
  | Some (seq, heap) =>
      let q := mkRexQueue heap (rq_set (st_rex st) ∖ {[seq]}) in
      (Some seq, mkSendState (st_target_bps st) (st_done st) q (st_tick st)
                   (stats_store rex_queue_len (size (rq_set q)) (st_stats st)))
  end.

Definition rex_len (st : SendState) : nat := pq_len (rq_heap (st_rex st)).

(** ** Building DATA PDUs *)

(** The payload length of a block: [rem = file_size - off as i64] in wrapping [i64]
    arithmetic, and [plen]. *)
Definition block_off {Src} (cfg : SendCfg Src) (seq : Z) : Z := wrap 64 (seq * sc_block_size cfg).
Definition block_rem {Src} (cfg : SendCfg Src) (seq : Z) : Z :=
  u64_as_i64 (wrap 64 (sc_file_size cfg - u64_as_i64 (block_off cfg seq))).
Definition block_plen {Src} (cfg : SendCfg Src) (seq : Z) : Z :=
  let rem := block_rem cfg seq in
  if rem <? u64_as_i64 (sc_block_size cfg) then i64_as_u64 rem else sc_block_size cfg.

Section pdu.
Context {Src : Type} `{!BlockSource Src, !Crc32c, !AeadCrate}.
Implicit Types (cfg : SendCfg Src) (st : SendState).

(** [source.read_exact_at(off, &mut buf[36..36 + plen])]; the slice panics out of range. *)
Definition read_payload cfg (buf : list byte) (off plen : Z) : outcome (result (list byte) io_error) :=
  let e := wrap 64 (DATA_HEADER_SIZE + plen) in
  if (DATA_HEADER_SIZE <=? e) && (e <=? Z.of_nat (length buf)) then
    match src_read_exact_at (sc_source cfg) off (Z.to_nat (e - DATA_HEADER_SIZE)) with
    | Ok bs => buf ← buf_write buf DATA_HEADER_SIZE bs; Done (Ok buf)
    | Err e => Done (Err e)
    end
  else Panic.

(** What [prefetch] and [fill_retransmit] share once the payload is in the buffer: the
    checksum, the header, and the seal. *)
Definition finish_pdu cfg (buf : list byte) (flags rex_index plen seq : Z)
    : outcome (list byte * nat) :=
  let flags := if seq =? wrap 64 (sc_total_blocks cfg - 1) then Z.lor flags FLAG_LAST_BLOCK else flags in
  crc ← match sc_crypto cfg with
        | None => p ← buf_slice buf DATA_HEADER_SIZE (DATA_HEADER_SIZE + Z.to_nat plen); Done (crc32c p)
        | Some _ => Done 0
        end;
  buf ← encode_data_header buf
          (mkDataHeader flags (wrap 16 plen) (sc_session cfg) seq 0 rex_index crc);
  match sc_crypto cfg with
  | Some c => seal_data c buf DATA_HEADER_SIZE (Z.to_nat plen) seq
  | None => Done (buf, (DATA_HEADER_SIZE + Z.to_nat plen)%nat)
  end.

(** The body of [prefetch] for one block, given a pooled buffer: [None] when the source
    fails, which ends the thread. *)
Definition prefetch_block cfg (buf : list byte) (seq : Z) : outcome (option (list byte * nat)) :=
  let plen := block_plen cfg seq in
  r ← read_payload cfg buf (block_off cfg seq) plen;
  match r with
  | Err _ => Done None
  | Ok buf => Some <$> finish_pdu cfg buf 0 0 plen seq
  end.

(** [prefetch] over the blocks from [lo], with the buffers the pool hands out: what it
    publishes, in order, until the source fails, the pool closes, or the end. *)
Fixpoint prefetch cfg (bufs : list (list byte)) (lo : Z) (n : nat)
    : outcome (list (list byte * nat)) :=
  match n, bufs with
  | S n', buf :: bufs' =>
      r ← prefetch_block cfg buf lo;
      match r with
      | None => Done []
      | Some item => rest ← prefetch cfg bufs' (lo + 1) n'; Done (item :: rest)
      end
  | _, _ => Done []
  end.

(** [fill_retransmit]. *)
Definition fill_retransmit cfg (buf : list byte) (seq : Z) : outcome (option (list byte * nat)) :=
  let rem := block_rem cfg seq in
  let plen := block_plen cfg seq in
  if (plen =? 0) || (rem <=? 0) then Done None else
  r ← read_payload cfg buf (block_off cfg seq) plen;
  match r with
  | Err _ => Done None
  | Ok buf => Some <$> finish_pdu cfg buf FLAG_RETRANSMIT (u64_as_i64 seq) plen seq
  end.

(** [attach_tick] at time [now]. *)
Definition attach_tick st (buf : list byte) (now : Z) : outcome (SendState * list byte) :=
  let t := st_tick st in
  if negb (ts_pending t) then Done (st, buf) else
  let st := mkSendState (st_target_bps st) (st_done st) (st_rex st)
              (mkTickState false (ts_val t) (ts_is_net t) (ts_t2 t)) (st_stats st) in
  b1 ← buf_get buf 1;
  let flags := Z.lor (byte_to_Z b1) FLAG_HAS_TICK in
  let '(flags, echo) :=
    if ts_is_net t then
      (Z.lor flags FLAG_TICK_N, wrap 64 (ts_val t + wrap 64 (now - ts_t2 t)))
    else (Z.land flags (255 - FLAG_TICK_N), ts_val t) in
  buf ← buf_set buf 1 (byte_of_Z flags);
  buf ← put_echo_tick buf echo;
  Done (st, buf).

(** ** The pacing loop *)

(** What [ready_rx.try_recv] finds: queued items, and whether the producer is gone. *)
Record ReadyQueue := mkReadyQueue { ry_items : list (list byte * nat); ry_closed : bool }.

(** The batch under construction: the datagrams, the counters, and the buffers to give
    back to the pool. *)
Record Batch := mkBatch {
  bt_msgs : list (list byte);
  bt_rex_n : Z;
  bt_rex_bytes : Z;
  bt_new_n : Z;
  bt_new_bytes : Z;
  bt_new_bufs : list (list byte);
  bt_built : Z
}.
Definition batch_empty : Batch := mkBatch [] 0 0 0 0 [] 0.

(** One pass of the batch-building loop: [None] leaves the loop.  [scratch] is the
    retransmit buffer in use. *)
Definition batch_step cfg (scratch : list byte) (to_send now : Z) (st : SendState) (q : ReadyQueue)
    (new_done : bool) (b : Batch) : outcome (option (SendState * ReadyQueue * bool * Batch)) :=
  if to_send <=? bt_built b then Done None else
  match pop_retransmit st with
  | (Some seq, st) =>
      r ← fill_retransmit cfg scratch seq;
      match r with
      | None => Done (Some (st, q, new_done, b))
      | Some (buf, n) =>
          '(st, buf) ← attach_tick st buf now;
          msg ← buf_slice buf 0 n;
          Done (Some (st, q, new_done,
            mkBatch (bt_msgs b ++ [msg]) (bt_rex_n b + 1) (bt_rex_bytes b + Z.of_nat n) (bt_new_n b)
              (bt_new_bytes b) (bt_new_bufs b) (bt_built b + 1)))
      end
  | (None, st) =>
      if new_done then Done None else
      match ry_items q with
      | (buf, n) :: items =>
          '(st, buf) ← attach_tick st buf now;
          msg ← buf_slice buf 0 n;
          Done (Some (st, mkReadyQueue items (ry_closed q), new_done,
            mkBatch (bt_msgs b ++ [msg]) (bt_rex_n b) (bt_rex_bytes b) (bt_new_n b + 1)
              (bt_new_bytes b + Z.of_nat n) (bt_new_bufs b ++ [buf]) (bt_built b + 1)))
      | [] =>
          if ry_closed q then Done (Some (st, q, true, b))
          else Done (Some (st, q, new_done,
                 mkBatch (bt_msgs b) (bt_rex_n b) (bt_rex_bytes b) (bt_new_n b) (bt_new_bytes b)
                   (bt_new_bufs b) to_send))
      end
  end.

(** The loop.  Every pass pops a retransmission, adds a datagram, or closes the new
    blocks, so the queue's length, the batch size and two bound the passes. *)
Fixpoint batch_loop (fuel : nat) cfg (scratch : list byte) (to_send now : Z) (st : SendState)
    (q : ReadyQueue) (new_done : bool) (b : Batch)
    : outcome (option (SendState * ReadyQueue * bool * Batch)) :=
  r ← batch_step cfg scratch to_send now st q new_done b;
  match r with
  | None => Done (Some (st, q, new_done, b))
  | Some (st, q, new_done, b) =>
      match fuel with
      | O => Done None
      | S fuel' => batch_loop fuel' cfg scratch to_send now st q new_done b
      end
  end.

Definition build_batch cfg (scratch : list byte) (to_send now : Z) (st : SendState) (q : ReadyQueue)
    (new_done : bool) : outcome (option (SendState * ReadyQueue * bool * Batch)) :=
  batch_loop (rex_len st + Z.to_nat to_send + 1) cfg scratch to_send now st q new_done batch_empty.

(** The counters after a flush. *)
Definition count_batch (b : Batch) (s : Stats) : Stats :=
  let s := if 0 <? bt_rex_n b then
             stats_fetch_add bytes_sent (bt_rex_bytes b)
               (stats_fetch_add packets_sent (bt_rex_n b) (stats_fetch_add retrans_sent (bt_rex_n b) s))
           else s in
  if 0 <? bt_new_n b then
    stats_fetch_add bytes_sent (bt_new_bytes b) (stats_fetch_add packets_sent (bt_new_n b) s)
  else s.

(** [send_fin]: the FIN datagram. *)
Definition send_fin cfg : outcome (list byte) :=
  '(b, n) ← encode_fin (replicate 16 x00) (sc_session cfg) (sc_total_blocks cfg);
  buf_slice b 0 n.

End pdu.

(** [recompute]: the batch size and the time per batch in microseconds for a rate. *)
Definition block_bits (block_size : Z) : f64 :=
  f64_mul (f64_of_Z (wrap 64 (block_size + DATA_HEADER_SIZE))) (f64_of_Z 8).
Definition recompute (block_size rate : Z) : Z * f64 * f64 :=
  let rate := Z.max rate 1 in
  let bits := block_bits block_size in
  let ipd := f64_mul (f64_div bits (f64_of_Z rate)) (f64_of_Z 1000000) in
  if f64_lt ipd (f64_of_Z 5000) then
    let batch := f64_add (f64_of_Z (f64_to_i64 (f64_div (f64_of_Z 5000) ipd))) (f64_of_Z 1) in
    let batch := if f64_gt batch (f64_of_Z MAX_BATCH) then f64_of_Z MAX_BATCH else batch in
    (rate, batch, f64_mul (f64_div (f64_mul bits batch) (f64_of_Z rate)) (f64_of_Z 1000000))
  else (rate, f64_of_Z 1, ipd).

(** The pacer's own variables. *)
Record Pacer := mkPacer {
  pc_cur_rate : Z;
  pc_ipd_us : f64;
  pc_batch : f64;
  pc_new_done : bool;
  pc_next_deadline : f64
}.

Definition pacer_rate (block_size rate : Z) (p : Pacer) : Pacer :=
  let '(cur, batch, ipd) := recompute block_size rate in
  mkPacer cur ipd batch (pc_new_done p) (pc_next_deadline p).

(** The pacer before its loop. *)
Definition pacer_init (block_size target now : Z) : Pacer :=
  pacer_rate block_size target (mkPacer 0 f64_zero (f64_of_Z 1) false (f64_of_Z now)).

(** The deadline after a batch, and the sleep (micros) it asks for at time [now]. *)
Definition next_deadline (p : Pacer) (now : f64) : f64 * option f64 :=
  let d := f64_add (pc_next_deadline p) (pc_ipd_us p) in
  if f64_lt now d then (d, Some (f64_sub d now))
  else if f64_gt (f64_sub now d) (f64_mul (f64_of_Z 100) (pc_ipd_us p)) then (now, None)
  else (d, None).

(** What one iteration of [pacing_loop] ends with. *)
Inductive pace_result :=
| PaceDone                       (* DONE was received *)
| PaceStopped (e : io_error)     (* the caller stopped the transfer *)
| PacePaused (p : Pacer)
| PaceSent (st : SendState) (q : ReadyQueue) (p : Pacer) (freed : list (list byte))
    (msgs : list (list byte)) (fin : option (list byte)) (sleep : option f64).

(** One iteration of [pacing_loop]; [t0] is the time while building, [t1] after it.
    [None] is the bound of [batch_loop] being hit. *)
Definition pacing_iter {Src} `{!BlockSource Src, !Crc32c, !AeadCrate} (cfg : SendCfg Src)
    (scratch : list byte) (stop : bool) (control : option TransferControl) (t0 t1 : Z)
    (st : SendState) (q : ReadyQueue) (p : Pacer) : outcome (option pace_result) :=
  if st_done st then Done (Some PaceDone) else
  if should_stop stop control then Done (Some (PaceStopped (io_other "sender stopped"))) else
  if is_paused control then
    Done (Some (PacePaused (mkPacer (pc_cur_rate p) (pc_ipd_us p) (pc_batch p) (pc_new_done p) (f64_of_Z t0))))
  else
    let r := effective_rate control (st_target_bps st) in
    let st := mkSendState (st_target_bps st) (st_done st) (st_rex st) (st_tick st)
                (stats_store target_rate_bps r (st_stats st)) in
    let p := if r =? pc_cur_rate p then p else pacer_rate (sc_block_size cfg) r p in
    let to_send := f64_to_u64 (pc_batch p) in
    res ← build_batch cfg scratch to_send t0 st q (pc_new_done p);
    match res with
    | None => Done None
    | Some (st, q, new_done, b) =>
        let st := mkSendState (st_target_bps st) (st_done st) (st_rex st) (st_tick st)
                    (count_batch b (st_stats st)) in
        fin ← (if new_done && (rex_len st =? 0)%nat then Some <$> send_fin cfg else Done None);
        let '(d, sleep) := next_deadline p (f64_of_Z t1) in
        Done (Some (PaceSent st q (mkPacer (pc_cur_rate p) (pc_ipd_us p) (pc_batch p) new_done d)
                      (bt_new_bufs b) (bt_msgs b) fin sleep))
    end.

(** ** The feedback thread *)

(** One datagram of [feedback_loop], received from [addr] at [t2]. *)
Definition feedback_step {Src} (cfg : SendCfg Src) (control : option TransferControl)
    (buf : list byte) (addr : SocketAddr) (t2 : Z) (st : SendState) : outcome SendState :=
  if negb (bool_decide (addr = sc_peer cfg)) then Done st else
  if negb (pdu_type buf =? PDU_FEEDBACK) then Done st else
  r ← decode_feedback buf;
  match r with
  | None => Done st
  | Some (fh, nacks) =>
      if negb (fh_session fh =? sc_session cfg) then Done st else
      let st := mkSendState (st_target_bps st) (st_done st) (st_rex st)
                  (mkTickState true (fh_tick fh) (fh_tick_is_network fh) t2) (st_stats st) in
      let st := match nacks with
                | [] => st
                | _ => push_retransmits
                         (mkSendState (st_target_bps st) (st_done st) (st_rex st) (st_tick st)
                            (stats_fetch_add nacks_recv (length nacks) (st_stats st))) nacks
                end in
      let st := if 0 <? fh_target_rate fh then
                  let peer_target := match sc_rate_mode cfg with
                                     | Adaptive => fh_target_rate fh
                                     | Fixed => Z.min (fh_target_rate fh) (sc_configured_target_bps cfg)
                                     end in
                  mkSendState peer_target (st_done st) (st_rex st) (st_tick st)
                    (stats_store target_rate_bps (effective_rate control peer_target) (st_stats st))
                else st in
      Done (mkSendState (st_target_bps st) (fh_done fh || st_done st) (st_rex st) (st_tick st)
              (stats_store hi_contig (fh_hi_contig fh) (st_stats st)))
  end.

(** What a pass of [wait_for_peer] meets: the stop flag, the deadline, or the socket. *)
Inductive wait_event :=
| WaitStop
| WaitDeadline
| WaitRecv (r : result (list byte * SocketAddr) io_error).

(** [wait_for_peer]: the address of the first START of this session from the expected
    host; [None] while it still waits. *)
Fixpoint wait_for_peer (session : Z) (expected_ip : option IpAddr) (events : list wait_event)
    : outcome (option (result SocketAddr io_error)) :=
  match events with
  | [] => Done None
  | WaitStop :: _ => Done (Some (Err (io_other "stopped while waiting for receiver")))
  | WaitDeadline :: _ => Done (Some (Err (io_other "timed out waiting for receiver START")))
  | WaitRecv (Ok (buf, addr)) :: events' =>
      if foreign_ip expected_ip addr then wait_for_peer session expected_ip events' else
      s ← decode_start buf;
      if bool_decide (s = Some session) then Done (Some (Ok addr))
      else wait_for_peer session expected_ip events'
  | WaitRecv (Err e) :: events' =>
      if is_timeout e then wait_for_peer session expected_ip events' else Done (Some (Err e))
  end.

(** ** What a DATA PDU carries *)

(** The abstract content of a DATA PDU of a session: block [seq] with payload [blk],
    protected by its checksum, or sealed under the session's AEAD. *)
Definition carries `{!Crc32c, !AeadCrate} (crypto : option AeadBox) (session : Z) (pkt : list byte)
    (seq : Z) (blk : list byte) : Prop :=
  ∃ h, decode_data_header pkt = Done (Some h) ∧ dh_session h = session ∧ dh_block_seq h = seq ∧
    dh_payload_len h = length blk ∧
    match crypto with
    | None => dh_payload_crc h = crc32c blk ∧ take (length blk) (drop DATA_HEADER_SIZE pkt) = blk
    | Some c => ∃ p, open_data c (drop DATA_HEADER_SIZE pkt) (length blk) seq = Done (Some (p, length blk)) ∧
                     take (length blk) p = blk
    end.

(** The header of a PDU is in its first 36 bytes. *)
Lemma decode_data_header_eq b1 b2 :
  take DATA_HEADER_SIZE b1 = take DATA_HEADER_SIZE b2 →
  (DATA_HEADER_SIZE ≤ length b1)%nat → (DATA_HEADER_SIZE ≤ length b2)%nat →
  decode_data_header b1 = decode_data_header b2.
Proof.
  unfold DATA_HEADER_SIZE. intros E H1 H2. unfold decode_data_header, DATA_HEADER_SIZE.
  rewrite !(proj2 (Nat.ltb_ge _ _)) by lia.
  assert (∀ i, (i < 36)%nat → buf_get b1 i = buf_get b2 i) as Hg.
  { intros i Hi. by rewrite <-(buf_get_take b1 36), <-(buf_get_take b2 36), E by lia. }
  rewrite !Hg by lia.
  by rewrite !(buf_slice_take_eq b1 b2 36) by (done || lia).
Qed.

(** ** The pacer *)

(** The batch of a rate is between one and [MAX_BATCH] packets. *)
Definition pacer_ok (p : Pacer) : Prop := 1 ≤ f64_to_u64 (pc_batch p) ≤ MAX_BATCH.

Lemma recompute_plus bs rate :
  0 < bs < 2 ^ 16 → 0 ≤ rate →
  f64_plus (f64_mul (f64_div (block_bits bs) (f64_of_Z (Z.max rate 1))) (f64_of_Z 1000000)).
Proof.
  intros Hbs Hr. unfold block_bits. rewrite wrap_small by (unfold is_uint, DATA_HEADER_SIZE; lia).
  assert (∃ m e, f64_mul (f64_of_Z (bs + DATA_HEADER_SIZE)) (f64_of_Z 8) = S754_finite false m e ∧
                 f64_valid (S754_finite false m e)) as (m & e & -> & Hv).
  { destruct (f64_mul_of_Z (bs + DATA_HEADER_SIZE) 8) as (Hf & Hn); [unfold DATA_HEADER_SIZE; lia..|].
    assert (f64_valid (f64_mul (f64_of_Z (bs + DATA_HEADER_SIZE)) (f64_of_Z 8))) as Hv
      by (apply f64_mul_valid; apply f64_of_Z_valid).
    destruct (pos_float _ Hv Hf) as (m & e & E); [|exists m, e; split; [done|by rewrite <-E]].
    pose proof (pow2_pos 1074 ltac:(lia)). unfold DATA_HEADER_SIZE in *. nia. }
  apply f64_plus_mul; [apply f64_div_valid; [done|apply f64_of_Z_valid]|by vm_compute|].
  apply f64_plus_div, f64_plus_of_Z. lia.
Qed.

Lemma recompute_batch bs rate :
  0 < bs < 2 ^ 16 → 0 ≤ rate → 1 ≤ f64_to_u64 (recompute bs rate).1.2 ≤ MAX_BATCH.
Proof.
  intros Hbs Hr. unfold recompute. pose proof (recompute_plus bs rate Hbs Hr) as Hp.
  set (ipd := f64_mul _ _) in *. destruct (f64_lt ipd (f64_of_Z 5000)); cbn [fst snd];
    [|by vm_compute].
  assert (0 ≤ f64_to_i64 (f64_div (f64_of_Z 5000) ipd) < 2 ^ 63) as Hk
    by (apply f64_plus_to_i64; by apply f64_plus_div).
  destruct (f64_succ _ Hk) as (Hv & Hf & Hge). set (b := f64_add _ _) in *.
  destruct (f64_gt b (f64_of_Z MAX_BATCH)) eqn:E; [by vm_compute|].
  unfold f64_gt in E. destruct (f64_of_Z_exact MAX_BATCH) as [F6 E6]; [unfold MAX_BATCH; lia|].
  rewrite f64_lt_num, E6 in E by (done || apply f64_of_Z_valid). apply Z.ltb_ge in E.
  unfold f64_to_u64. rewrite f64_to_uint_num by done. unfold MAX_BATCH in *.
  pose proof (pow2_pos 1074 ltac:(lia)) as Hpp.
  assert (1 ≤ f64_num b / 2 ^ 1074) by (apply Z.div_le_lower_bound; lia).
  assert (f64_num b / 2 ^ 1074 ≤ 64); [|lia]. apply Z.div_le_upper_bound; lia.
Qed.

Lemma pacer_rate_ok bs rate p : 0 < bs < 2 ^ 16 → 0 ≤ rate → pacer_ok (pacer_rate bs rate p).
Proof.
  intros Hbs Hr. pose proof (recompute_batch bs rate Hbs Hr) as Hb. unfold pacer_ok, pacer_rate.
  by destruct (recompute bs rate) as [[cur batch] ipd].
Qed.

(** ** The retransmit queue *)

(** The heap holds the elements of the set, once each, in order. *)
Record rex_ok (q : RexQueue) : Prop := {
  rx_sorted : pq_sorted Z.leb (rq_heap q);
  rx_nodup : NoDup (rq_heap q);
  rx_set x : x ∈ rq_heap q ↔ x ∈ rq_set q;
  rx_u64 : Forall is_u64 (rq_heap q)
}.

Lemma rex_default_ok : rex_ok rex_default.
Proof. split; simpl; [constructor|constructor|set_solver|constructor]. Qed.

Lemma rex_size q : rex_ok q → size (rq_set q) = pq_len (rq_heap q).
Proof.
  intros []. unfold pq_len. rewrite <-(size_list_to_set (C := gset Z)) by done. f_equal.
  apply set_eq. intros x. by rewrite <-rx_set0, elem_of_list_to_set.
Qed.

Lemma push_loop_spec nacks : ∀ q,
  rex_ok q → Forall (λ n, is_u64 (ne_block_seq n)) nacks →
  rex_ok (push_loop q nacks) ∧
  rq_set (push_loop q nacks) = rq_set q ∪ list_to_set (ne_block_seq <$> nacks).
Proof.
  induction nacks as [|n nacks IH]; intros q Hq Hall; simpl; [split; [done|set_solver]|].
  apply Forall_cons in Hall as [Hn Hall]. case_bool_decide as Hin.
  { destruct (IH q Hq Hall) as [? ->]. split; [done|set_solver]. }
  assert (rex_ok (mkRexQueue (pq_push Z.leb (ne_block_seq n) (rq_heap q)) ({[ne_block_seq n]} ∪ rq_set q))) as Hq'.
  { destruct Hq. split; simpl; [by apply pq_push_sorted; [apply _|]|..].
    - rewrite pq_push_perm. constructor; [by rewrite rx_set0|done].
    - intros x. rewrite pq_push_perm, elem_of_cons, rx_set0. set_solver.
    - rewrite pq_push_perm. by constructor. }
  destruct (IH _ Hq' Hall) as [? ->]. split; [done|]. simpl. set_solver.
Qed.

Lemma pop_retransmit_spec st seq st' :
  rex_ok (st_rex st) → pop_retransmit st = (Some seq, st') →
  rex_ok (st_rex st') ∧ is_u64 seq ∧ rq_heap (st_rex st) = seq :: rq_heap (st_rex st') ∧
  rq_set (st_rex st') = rq_set (st_rex st) ∖ {[seq]}.
Proof.
  intros [Hs Hn He Hu] Hp. unfold pop_retransmit in Hp.
  destruct (rq_heap (st_rex st)) as [|x heap] eqn:Eh; simpl in Hp; [done|]. injection Hp as <- <-. simpl.
  apply NoDup_cons in Hn as [Hx Hn]. apply Forall_cons in Hu as [Hux Hu].
  split; [|done]. split; simpl; [by eapply pq_pop_sorted|done| |done].
  intros y. specialize (He y). rewrite elem_of_cons in He. set_solver.
Qed.

Lemma pop_retransmit_none st st' :
  pop_retransmit st = (None, st') → st' = st ∧ rq_heap (st_rex st) = [].
Proof. unfold pop_retransmit. destruct (rq_heap (st_rex st)); simpl; [by intros [= ->]|done]. Qed.

(** Result: the retransmit queue is the set of the requested blocks, lowest first.  Queueing
    NACKs adds exactly their blocks, each at most once however often it is requested;
    popping returns the lowest queued block and removes it; the gauge shown to the user is
    the number of queued blocks. *)
Theorem rex_queue_correct st nacks :
  rex_ok (st_rex st) → Forall (λ n, is_u64 (ne_block_seq n)) nacks →
  let st1 := push_retransmits st nacks in
  rex_ok (st_rex st1) ∧
  rq_set (st_rex st1) = rq_set (st_rex st) ∪ list_to_set (ne_block_seq <$> nacks) ∧
  st_stats st1 rex_queue_len = rex_len st1 ∧
  (∀ seq st2, pop_retransmit st1 = (Some seq, st2) →
     rex_ok (st_rex st2) ∧ seq ∈ rq_set (st_rex st1) ∧ (∀ x, x ∈ rq_set (st_rex st1) → seq ≤ x) ∧
     rq_set (st_rex st2) = rq_set (st_rex st1) ∖ {[seq]} ∧ st_stats st2 rex_queue_len = rex_len st2) ∧
  (∀ st2, pop_retransmit st1 = (None, st2) → st2 = st1 ∧ rq_set (st_rex st1) = ∅).
Proof.
  intros Hq Hall st1. destruct (push_loop_spec nacks (st_rex st) Hq Hall) as [Hq1 Hs1].
  assert (rex_ok (st_rex st1)) as Hok by done. split; [done|]. split; [done|]. split.
  { unfold st1, push_retransmits, rex_len. simpl. rewrite stats_store_eq. by rewrite rex_size. }
  split.
  - intros seq st2 Hp. destruct (pop_retransmit_spec st1 seq st2 Hok Hp) as (Hok2 & _ & Eh & Es).
    split; [done|]. split; [apply (rx_set _ Hok); rewrite Eh; by left|]. split.
    + intros x Hx%(rx_set _ Hok). rewrite Eh in Hx. apply Z.leb_le.
      eapply pq_head_min; [apply _| |exact Hx]. rewrite <-Eh. apply Hok.
    + split; [done|]. revert Hp. unfold pop_retransmit. destruct (pq_pop _) as [[x h]|]; [|done].
      intros [= -> <-]. simpl in *. rewrite stats_store_eq. unfold rex_len. by rewrite <-rex_size.
  - intros st2 [-> Eh]%pop_retransmit_none. split; [done|]. apply set_eq. intros x.
    rewrite <-(rx_set _ Hok), Eh. set_solver.
Qed.

(** Overwriting the flags and the echo tick leaves the other fields. *)
Lemma decode_data_header_tick pkt h f v :
  (DATA_HEADER_SIZE ≤ length pkt)%nat → decode_data_header pkt = Done (Some h) →
  decode_data_header (list_inserts 16 (to_le_bytes 8 v) (list_inserts 1 [f] pkt)) =
    Done (Some (mkDataHeader (byte_to_Z f) (dh_payload_len h) (dh_session h) (dh_block_seq h) (wrap 64 v)
                  (dh_rex_index h) (dh_payload_crc h))).
Proof.
  unfold decode_data_header, DATA_HEADER_SIZE. intros Hl.
  rewrite !(proj2 (Nat.ltb_ge _ _)) by (rewrite ?length_inserts; lia). wire_simpl.
  assert (get_u64 (to_le_bytes 8 v) = Done (wrap 64 v)) as ->.
  { unfold get_u64. rewrite buf_slice_all. cbn [fmap outcome_fmap]. by rewrite from_to_le_bytes. }
  destruct (buf_get pkt 0) as [b0|]; [|done]. cbn [mbind outcome_bind]. destruct (negb _); [done|].
  destruct (buf_get pkt 1) as [b1|]; [|done]. cbn [mbind outcome_bind].
  repeat match goal with
  | |- context [buf_slice pkt ?a ?e ≫= ?g] =>
      destruct (buf_slice pkt a e ≫= g); [|done]; cbn [mbind outcome_bind]
  end.
  intros E%Done_inj. by simplify_eq.
Qed.

Section send_correct.
Context {Src : Type} `{!BlockSource Src, !BlockSourceLaws Src}.
Context `{!Crc32c, !Crc32cLaws, !AeadCrate, !AeadLaws}.
Context (cfg : SendCfg Src).
Implicit Types (seq : Z) (buf : list byte).

(** A transfer set up as the callers do: the sizes describe the source, the block size
    fits the 16-bit length field. *)
Record send_cfg_ok : Prop := {
  sok_size : sc_file_size cfg = length (src_content (sc_source cfg));
  sok_fits : length (src_content (sc_source cfg)) < 2 ^ 62;
  sok_bs : 0 < sc_block_size cfg < 2 ^ 16;
  sok_blocks : num_blocks (sc_file_size cfg) (sc_block_size cfg) = Done (sc_total_blocks cfg);
  sok_session : is_u32 (sc_session cfg)
}.

Definition src_block (seq : Z) : list byte :=
  file_block (src_content (sc_source cfg)) (Z.to_nat (sc_block_size cfg)) (Z.to_nat seq).

Context (Hok : send_cfg_ok).

(** What a PDU labelled [seq] may carry: bytes of the file at the 64-bit offset of [seq], which
    are block [seq] when the file has such a block. *)
Definition file_bytes (seq : Z) (blk : list byte) : Prop :=
  blk ≠ [] ∧ length blk ≤ sc_block_size cfg ∧
  blk = take (length blk) (drop (Z.to_nat (block_off cfg seq)) (src_content (sc_source cfg))) ∧
  (seq < sc_total_blocks cfg → blk = src_block seq).

Lemma total_blocks_bound seq :
  0 ≤ seq < sc_total_blocks cfg ↔ 0 ≤ seq ∧ seq * sc_block_size cfg < sc_file_size cfg.
Proof.
  destruct Hok. destruct (num_blocks_done (sc_file_size cfg) (sc_block_size cfg)) as (n & E & Hn & Hp & Hz); [lia|].
  rewrite E in sok_blocks0. apply Done_inj in sok_blocks0 as <-.
  destruct (decide (sc_file_size cfg ≤ 0)); [specialize (Hz ltac:(lia)); nia|].
  specialize (Hp ltac:(lia)). nia.
Qed.

Lemma total_blocks_small : 0 ≤ sc_total_blocks cfg < 2 ^ 62 + 1.
Proof.
  destruct Hok. destruct (num_blocks_done (sc_file_size cfg) (sc_block_size cfg)) as (n & E & Hn & Hp & Hz); [lia|].
  rewrite E in sok_blocks0. apply Done_inj in sok_blocks0 as <-.
  destruct (decide (sc_file_size cfg ≤ 0)); [lia|]. specialize (Hp ltac:(lia)). nia.
Qed.

(** Offsets and lengths of the blocks of the file are exact. *)
Lemma block_geometry seq :
  0 ≤ seq < sc_total_blocks cfg →
  block_off cfg seq = seq * sc_block_size cfg ∧
  block_rem cfg seq = sc_file_size cfg - seq * sc_block_size cfg ∧
  block_plen cfg seq = length (src_block seq) ∧
  0 < block_plen cfg seq ≤ sc_block_size cfg ∧
  seq * sc_block_size cfg + block_plen cfg seq ≤ sc_file_size cfg.
Proof.
  intros Hs%total_blocks_bound. destruct Hok. destruct Hs as [Hs0 Hs].
  assert (block_off cfg seq = seq * sc_block_size cfg) as Ho.
  { unfold block_off. apply wrap_small. unfold is_uint. lia. }
  assert (block_rem cfg seq = sc_file_size cfg - seq * sc_block_size cfg) as Hr.
  { unfold block_rem. rewrite Ho, (u64_as_i64_small (seq * _)) by lia.
    rewrite wrap_small by (unfold is_uint; lia). apply u64_as_i64_small. lia. }
  assert (block_plen cfg seq = Z.min (sc_block_size cfg) (sc_file_size cfg - seq * sc_block_size cfg)) as Hp.
  { unfold block_plen. rewrite Hr, u64_as_i64_small by lia.
    destruct (Z.ltb_spec (sc_file_size cfg - seq * sc_block_size cfg) (sc_block_size cfg)); [|lia].
    unfold i64_as_u64. rewrite wrap_small by (unfold is_uint; lia). lia. }
  split_and!; [done|done| |lia|lia|lia]. rewrite Hp. unfold src_block. rewrite length_file_block. lia.
Qed.

Lemma take_header_prefix buf n :
  (DATA_HEADER_SIZE ≤ n)%nat → take DATA_HEADER_SIZE (take n buf) = take DATA_HEADER_SIZE buf.
Proof. intros. by rewrite take_take, Nat.min_l. Qed.

Lemma last_flag_range flags seq :
  is_u8 flags →
  is_u8 (if seq =? wrap 64 (sc_total_blocks cfg - 1) then Z.lor flags FLAG_LAST_BLOCK else flags).
Proof.
  intros Hf. destruct (_ =? _); [|done]. destruct Hf as [Hf0 Hf1]. unfold is_uint, FLAG_LAST_BLOCK.
  change (Z.shiftl 1 3) with 8. split; [apply Z.lor_nonneg; lia|].
  destruct (decide (flags = 0)) as [->|]; [done|]. apply Z.log2_lt_cancel.
  rewrite Z.log2_lor, Z.log2_pow2 by lia. change (Z.log2 8) with 3.
  assert (Z.log2 flags < 8); [apply Z.log2_lt_pow2; lia|lia].
Qed.

Lemma finish_pdu_spec buf flags rex (plen : nat) seq :
  (DATA_HEADER_SIZE + plen + pdu_overhead (sc_crypto cfg) ≤ length buf)%nat →
  plen < 2 ^ 16 → is_u8 flags → is_i64 rex → is_u64 seq →
  ∃ buf', finish_pdu cfg buf flags rex plen seq =
            Done (buf', (DATA_HEADER_SIZE + plen + pdu_overhead (sc_crypto cfg))%nat) ∧
    length buf' = length buf ∧
    carries (sc_crypto cfg) (sc_session cfg)
      (take (DATA_HEADER_SIZE + plen + pdu_overhead (sc_crypto cfg)) buf') seq
      (take plen (drop DATA_HEADER_SIZE buf)).
Proof.
  intros Hl Hp Hf Hr Hs. pose proof (sok_session Hok) as Hsess.
  assert (length (take plen (drop DATA_HEADER_SIZE buf)) = plen) as Hpl.
  { rewrite length_take, length_drop. lia. }
  unfold finish_pdu. rewrite Nat2Z.id.
  pose proof (last_flag_range flags seq Hf) as Hfl.
  set (fl := if seq =? _ then _ else _) in *.
  assert (is_u32 (match sc_crypto cfg with None => crc32c (take plen (drop DATA_HEADER_SIZE buf)) | Some _ => 0 end)) as Hcrc.
  { destruct (sc_crypto cfg); [done|]. unfold crc32c. rewrite crc_whole. by apply crc_range. }
  set (h := mkDataHeader fl (wrap 16 plen) (sc_session cfg) seq 0 rex
              (match sc_crypto cfg with None => crc32c (take plen (drop DATA_HEADER_SIZE buf)) | Some _ => 0 end)).
  assert (wf_data_header h) as Hwf.
  { unfold wf_data_header, h. simpl. split_and!; try done; try apply wrap_range; done. }
  destruct (encode_data_header_done buf h) as (buf1 & He & Hl1 & Hd1); [lia|].
  assert (wrap 16 plen = plen) as Hw by (apply wrap_small; unfold is_uint; lia).
  pose proof (decode_encode_data_header buf h buf1 ltac:(lia) Hwf He) as Hdec.
  unfold h in He. destruct (sc_crypto cfg) as [c|] eqn:Ec; cbn [mbind outcome_bind pdu_overhead overhead] in *.
  - rewrite He. cbn [mbind outcome_bind]. unfold overhead in *.
    destruct (seal_data_spec c buf1 DATA_HEADER_SIZE plen seq) as (ct & tag & buf2 & Es & Ee & Hct & Htag & Hl2 & Hh & Hpl2);
      [lia|lia|].
    rewrite Es. exists buf2. split; [done|]. split; [congruence|].
    exists h. split.
    { rewrite <-Hdec. apply decode_data_header_eq; [|rewrite length_take; lia|lia].
      by rewrite take_header_prefix, Hh by lia. }
    split; [done|]. split; [done|]. rewrite Hpl. split; [done|].
    assert (drop DATA_HEADER_SIZE (take (DATA_HEADER_SIZE + plen + AEAD_TAG_LEN) buf2) = ct ++ tag) as ->.
    { rewrite <-Hpl2, skipn_firstn_comm. f_equal. lia. }
    rewrite Hd1 in Ee. unfold open_data, AEAD_TAG_LEN in *. rewrite length_app, Hct, Htag.
    rewrite (proj2 (Nat.ltb_ge _ _)) by lia.
    rewrite !buf_slice_done by (rewrite length_app; lia). cbn [mbind outcome_bind].
    rewrite drop_0, Nat.sub_0_r, take_app_length' by done. rewrite drop_app_length' by done.
    rewrite (take_ge tag) by lia. erewrite aead_decrypt_encrypt by exact Ee.
    rewrite buf_write_done by (rewrite length_app; lia). cbn [mbind outcome_bind].
    eexists. split; [reflexivity|].
    rewrite <-Hpl at 1. rewrite <-(drop_0 (list_inserts 0 _ _)). apply slice_inserts_eq.
    rewrite length_app. lia.
  - rewrite buf_slice_done by lia. cbn [mbind outcome_bind].
    replace (DATA_HEADER_SIZE + plen - DATA_HEADER_SIZE)%nat with plen by lia.
    rewrite He. cbn [mbind outcome_bind]. rewrite !Nat.add_0_r. exists buf1. split; [done|]. split; [done|].
    exists h. split.
    { rewrite <-Hdec. apply decode_data_header_eq; [|rewrite length_take; lia|lia].
      by rewrite take_header_prefix by lia. }
    split; [done|]. split; [done|]. rewrite Hpl. split; [done|]. split; [done|].
    rewrite skipn_firstn_comm, take_take, Hd1. f_equal. lia.
Qed.

Lemma read_payload_ok buf off (plen : nat) bs :
  (DATA_HEADER_SIZE + plen ≤ length buf)%nat → plen < 2 ^ 16 → length bs = plen →
  src_read_exact_at (sc_source cfg) off plen = Ok bs →
  ∃ buf', read_payload cfg buf off plen = Done (Ok buf') ∧ length buf' = length buf ∧
    take plen (drop DATA_HEADER_SIZE buf') = bs.
Proof.
  intros Hl Hp Hb Hr. unfold read_payload. rewrite wrap_small by (unfold is_uint, DATA_HEADER_SIZE; lia).
  rewrite (proj2 (Z.leb_le DATA_HEADER_SIZE _)), (proj2 (Z.leb_le _ (Z.of_nat (length buf)))) by lia. cbn [andb].
  replace (Z.to_nat (DATA_HEADER_SIZE + plen - DATA_HEADER_SIZE)) with plen by lia.
  rewrite Hr, buf_write_done by lia. cbn [mbind outcome_bind].
  eexists. split; [done|]. rewrite length_inserts. split; [done|].
  rewrite <-Hb. by apply slice_inserts_eq; lia.
Qed.

(** What both producers of DATA PDUs do once the source has answered. *)
Lemma pdu_of_read buf flags rex seq off (plen : nat) bs :
  length buf = pdu_buf_len cfg → plen ≤ sc_block_size cfg → length bs = plen →
  src_read_exact_at (sc_source cfg) off plen = Ok bs →
  is_u8 flags → is_i64 rex → is_u64 seq →
  ∃ buf' n,
    (r ← read_payload cfg buf off plen;
     match r with
     | Err _ => Done None
     | Ok buf => Some <$> finish_pdu cfg buf flags rex plen seq
     end) = Done (Some (buf', n)) ∧
    length buf' = length buf ∧ (DATA_HEADER_SIZE ≤ n ≤ length buf)%nat ∧
    carries (sc_crypto cfg) (sc_session cfg) (take n buf') seq bs.
Proof.
  intros Hl Hp Hb Hr Hf Hx Hs. pose proof (sok_bs Hok) as Hbs. unfold pdu_buf_len in Hl.
  destruct (read_payload_ok buf off plen bs) as (buf1 & -> & Hl1 & Ht); [lia|lia|done|done|].
  cbn [mbind outcome_bind].
  destruct (finish_pdu_spec buf1 flags rex plen seq) as (buf2 & -> & Hl2 & Hc); [lia|lia|done..|].
  cbn [fmap outcome_fmap]. rewrite Ht in Hc. eexists _, _. split; [done|]. split; [congruence|].
  split; [|done]. lia.
Qed.

Lemma src_read_block seq :
  0 ≤ seq < sc_total_blocks cfg →
  src_read_exact_at (sc_source cfg) (block_off cfg seq) (length (src_block seq)) = Ok (src_block seq).
Proof.
  intros Hs. destruct (block_geometry seq Hs) as (Ho & _ & Hp & Hpos & Hend).
  pose proof (sok_size Hok) as Hsz. pose proof (sok_fits Hok). pose proof (sok_bs Hok).
  rewrite Ho. replace (seq * sc_block_size cfg) with (Z.of_nat (Z.to_nat seq * Z.to_nat (sc_block_size cfg))) by lia.
  rewrite src_read_ok by lia. f_equal. unfold src_block, file_block.
  set (l := drop _ _). rewrite length_take.
  destruct (Nat.min_spec (Z.to_nat (sc_block_size cfg)) (length l)) as [[_ ->]|[? ->]]; [done|].
  by rewrite !take_ge by lia.
Qed.

Lemma src_block_bytes seq : 0 ≤ seq < sc_total_blocks cfg → file_bytes seq (src_block seq).
Proof.
  intros Hs. destruct (block_geometry seq Hs) as (Ho & _ & Hp & Hpos & Hend). split.
  { intros E. rewrite E in Hp. simpl in Hp. lia. }
  split; [lia|]. split; [|done].
  by apply (src_read_inv _ _ _ _ (proj1 (wrap_range 64 _ ltac:(lia))) (src_read_block seq Hs)).
Qed.

(** A pooled buffer leaves [prefetch] with the block in it. *)
Definition pdu_ready (seq : Z) (item : list byte * nat) : Prop :=
  length item.1 = pdu_buf_len cfg ∧ (DATA_HEADER_SIZE ≤ item.2 ≤ length item.1)%nat ∧
  carries (sc_crypto cfg) (sc_session cfg) (take item.2 item.1) seq (src_block seq).

Lemma prefetch_block_spec buf seq :
  length buf = pdu_buf_len cfg → 0 ≤ seq < sc_total_blocks cfg →
  ∃ item, prefetch_block cfg buf seq = Done (Some item) ∧ pdu_ready seq item.
Proof.
  intros Hl Hs. destruct (block_geometry seq Hs) as (Ho & _ & Hp & Hpos & Hend).
  pose proof total_blocks_small. unfold prefetch_block. rewrite Hp.
  destruct (pdu_of_read buf 0 0 seq (block_off cfg seq) (length (src_block seq)) (src_block seq))
    as (buf' & n & E & Hl' & Hn & Hc); [done|lia|done|by apply src_read_block|done|done|unfold is_uint; lia|].
  rewrite E. exists (buf', n). split; [done|]. unfold pdu_ready. cbn [fst snd]. rewrite Hl', Hl in *. done.
Qed.

(** The prefetch thread, given buffers, publishes the blocks of its range in order. *)
Lemma prefetch_spec bufs : ∀ lo (n : nat),
  Forall (λ buf, length buf = pdu_buf_len cfg) bufs → (n ≤ length bufs)%nat →
  0 ≤ lo → lo + n ≤ sc_total_blocks cfg →
  ∃ items, prefetch cfg bufs lo n = Done items ∧ length items = n ∧
    ∀ (i : nat) item, items !! i = Some item → pdu_ready (lo + i) item.
Proof.
  induction bufs as [|buf bufs IH]; intros lo [|n] Hall Hn Hlo Hhi; simpl length in *; try lia;
    try by (exists []; simpl).
  apply Forall_cons in Hall as [Hb Hall]. cbn [prefetch].
  destruct (prefetch_block_spec buf lo) as (item & -> & Hitem); [done|lia|]. cbn [mbind outcome_bind].
  destruct (IH (lo + 1) n) as (items & -> & Hlen & Hitems); [done|lia..|]. cbn [mbind outcome_bind].
  exists (item :: items). split; [done|]. split; [by rewrite <-Hlen|].
  intros [|i] it; simpl; [intros [= <-]; by rewrite Z.add_0_r|].
  intros Hi. replace (lo + S i) with (lo + 1 + i) by lia. by apply Hitems.
Qed.

(** A retransmission of any sequence number a NACK may name: nothing, or a PDU that holds
    the file's bytes at the number's offset, its block when the file has one. *)
Definition pdu_rex (seq : Z) (item : list byte * nat) : Prop :=
  length item.1 = pdu_buf_len cfg ∧ (DATA_HEADER_SIZE ≤ item.2 ≤ length item.1)%nat ∧
  ∃ blk, carries (sc_crypto cfg) (sc_session cfg) (take item.2 item.1) seq blk ∧ file_bytes seq blk.

Lemma fill_retransmit_spec buf seq :
  length buf = pdu_buf_len cfg → is_u64 seq →
  ∃ r, fill_retransmit cfg buf seq = Done r ∧
    (∀ item, r = Some item → pdu_rex seq item) ∧ (seq < sc_total_blocks cfg → is_Some r).
Proof.
  intros Hl Hs. pose proof (sok_bs Hok) as Hbs. unfold fill_retransmit.
  assert (0 < block_rem cfg seq → 0 < block_plen cfg seq ≤ sc_block_size cfg) as Hplen.
  { intros Hr. unfold block_plen. rewrite (u64_as_i64_small (sc_block_size cfg)) by lia.
    destruct (Z.ltb_spec (block_rem cfg seq) (sc_block_size cfg)); [|lia].
    unfold i64_as_u64. rewrite wrap_small; [lia|]. unfold is_uint. lia. }
  destruct (Z.leb_spec (block_rem cfg seq) 0) as [Hr|Hr].
  { rewrite orb_true_r. exists None. split; [done|]. split; [done|]. intros Ht.
    destruct (block_geometry seq) as (? & Hrem & _); [unfold is_uint in Hs; lia|].
    destruct (total_blocks_bound seq) as [Hb _]. unfold is_uint in Hs. lia. }
  specialize (Hplen Hr). rewrite (proj2 (Z.eqb_neq _ 0)) by lia. cbn [orb].
  replace (block_plen cfg seq) with (Z.of_nat (Z.to_nat (block_plen cfg seq))) by lia.
  set (plen := Z.to_nat (block_plen cfg seq)) in *.
  destruct (src_read_exact_at (sc_source cfg) (block_off cfg seq) plen) as [bs|e] eqn:Er.
  - pose proof (src_read_inv _ _ _ _ (proj1 (wrap_range 64 _ ltac:(lia))) Er) as [Hcont Hbl].
    destruct (pdu_of_read buf FLAG_RETRANSMIT (u64_as_i64 seq) seq (block_off cfg seq) plen bs)
      as (buf' & n & -> & Hl' & Hn & Hc); [done|lia|done|done|done|apply u64_as_i64_range|done|].
    eexists. split; [done|]. split; [|by eexists]. intros item [= <-]. unfold pdu_rex. cbn [fst snd].
    split; [congruence|]. split; [lia|]. exists bs. split; [done|].
    split; [intros ->; simpl in Hbl; lia|]. split; [lia|]. split; [by rewrite Hbl|]. intros Ht.
    destruct (block_geometry seq) as (Ho & _ & Hp & _); [unfold is_uint in Hs; lia|].
    pose proof (src_read_block seq ltac:(unfold is_uint in Hs; lia)) as Hb.
    unfold plen in Er. rewrite Hp, Nat2Z.id in Er. rewrite Er in Hb. congruence.
  - unfold read_payload. rewrite wrap_small by (unfold is_uint, DATA_HEADER_SIZE; lia).
    unfold pdu_buf_len in Hl.
    rewrite (proj2 (Z.leb_le DATA_HEADER_SIZE _)), (proj2 (Z.leb_le _ (Z.of_nat (length buf)))) by lia. cbn [andb].
    replace (Z.to_nat (DATA_HEADER_SIZE + plen - DATA_HEADER_SIZE)) with plen by lia. rewrite Er.
    exists None. split; [done|]. split; [done|]. intros Ht.
    destruct (block_geometry seq) as (Ho & _ & Hp & _); [unfold is_uint in Hs; lia|].
    pose proof (src_read_block seq ltac:(unfold is_uint in Hs; lia)) as Hb.
    unfold plen in Er. rewrite Hp, Nat2Z.id in Er. congruence.
Qed.

(** ** Ticks *)

Lemma carries_tick pkt seq blk f v :
  (DATA_HEADER_SIZE ≤ length pkt)%nat →
  carries (sc_crypto cfg) (sc_session cfg) pkt seq blk →
  carries (sc_crypto cfg) (sc_session cfg) (list_inserts 16 (to_le_bytes 8 v) (list_inserts 1 [f] pkt)) seq blk.
Proof.
  unfold carries. intros Hl (h & Hd & Hs & Hq & Hp & Hb).
  exists (mkDataHeader (byte_to_Z f) (dh_payload_len h) (dh_session h) (dh_block_seq h) (wrap 64 v)
            (dh_rex_index h) (dh_payload_crc h)).
  rewrite !drop_inserts by (rewrite ?length_to_le_bytes; simpl; unfold DATA_HEADER_SIZE; lia).
  split; [|done]. by apply decode_data_header_tick.
Qed.

(** [attach_tick] leaves the block in the PDU; a pending tick is consumed and stamped. *)
Lemma attach_tick_spec st buf n now seq blk :
  (DATA_HEADER_SIZE ≤ n ≤ length buf)%nat →
  carries (sc_crypto cfg) (sc_session cfg) (take n buf) seq blk →
  ∃ st' buf', attach_tick st buf now = Done (st', buf') ∧ length buf' = length buf ∧
    carries (sc_crypto cfg) (sc_session cfg) (take n buf') seq blk ∧
    st_rex st' = st_rex st ∧ st_done st' = st_done st ∧ st_target_bps st' = st_target_bps st ∧
    ts_pending (st_tick st') = false.
Proof.
  intros Hn Hc. unfold attach_tick. destruct (ts_pending (st_tick st)) eqn:Et; cbn [negb].
  2: { exists st, buf. done. }
  unfold DATA_HEADER_SIZE in *.
  destruct (buf_get_lt buf 1) as [b1 ->]; [lia|]. cbn [mbind outcome_bind].
  destruct (if ts_is_net (st_tick st) then _ else _) as [fl echo].
  unfold buf_set, put_echo_tick, put_u64. rewrite buf_write_done by (simpl; lia). cbn [mbind outcome_bind].
  rewrite buf_write_done by (rewrite length_inserts, length_to_le_bytes; lia). cbn [mbind outcome_bind].
  eexists _, _. split; [done|]. rewrite !length_inserts. split; [done|]. split; [|done].
  rewrite !take_inserts_in by (rewrite ?length_inserts, ?length_to_le_bytes; simpl; lia).
  apply carries_tick; [|done]. rewrite length_take. unfold DATA_HEADER_SIZE. lia.
Qed.

(** ** Batches *)

(** A datagram the sender may put on the wire. *)
Definition msg_ok (pkt : list byte) : Prop :=
  ∃ seq blk, is_u64 seq ∧ carries (sc_crypto cfg) (sc_session cfg) pkt seq blk ∧ file_bytes seq blk.
Definition wire_ok (pkt : list byte) : Prop := msg_ok pkt ∧ (length pkt ≤ pdu_buf_len cfg)%nat.

Definition queue_ok (q : ReadyQueue) : Prop :=
  Forall (λ item, ∃ seq, 0 ≤ seq < sc_total_blocks cfg ∧ pdu_ready seq item) (ry_items q).

(** What holds while a batch is built from [st0] and [q0]. *)
Record batch_inv (to_send : Z) (st0 : SendState) (q0 : ReadyQueue)
    (st : SendState) (q : ReadyQueue) (b : Batch) : Prop := {
  bi_rex : rex_ok (st_rex st);
  bi_q : queue_ok q;
  bi_msgs : Forall wire_ok (bt_msgs b);
  bi_rexn : 0 ≤ bt_rex_n b;
  bi_newn : 0 ≤ bt_new_n b;
  bi_count : Z.of_nat (length (bt_msgs b)) = bt_rex_n b + bt_new_n b;
  bi_built : bt_rex_n b + bt_new_n b ≤ bt_built b ≤ to_send;
  bi_pop : ∃ k, rq_heap (st_rex st) = drop k (rq_heap (st_rex st0));
  bi_items : ry_items q = drop (Z.to_nat (bt_new_n b)) (ry_items q0);
  bi_first : 0 < bt_new_n b → rq_heap (st_rex st) = [];
  bi_bufs : Forall (λ buf, length buf = pdu_buf_len cfg) (bt_new_bufs b) ∧
            Z.of_nat (length (bt_new_bufs b)) = bt_new_n b;
  bi_done : st_done st = st_done st0;
  bi_resent : ∀ seq, seq ∈ rq_heap (st_rex st0) → seq < sc_total_blocks cfg →
    seq ∈ rq_heap (st_rex st) ∨
    ∃ pkt, pkt ∈ bt_msgs b ∧ carries (sc_crypto cfg) (sc_session cfg) pkt seq (src_block seq);
  bi_made : rq_heap (st_rex st) = [] ∨ bt_built b + rex_len st ≤ rex_len st0;
  bi_only : bt_new_n b = 0 → ∀ pkt, pkt ∈ bt_msgs b → ∃ seq blk, seq ∈ rq_heap (st_rex st0) ∧
    carries (sc_crypto cfg) (sc_session cfg) pkt seq blk ∧ file_bytes seq blk
}.

Lemma batch_rex_ok scratch to_send now st0 q0 st q b seq st1 new_done :
  length scratch = pdu_buf_len cfg → bt_built b < to_send →
  batch_inv to_send st0 q0 st q b → pop_retransmit st = (Some seq, st1) →
  ∃ st' b', batch_step cfg scratch to_send now st q new_done b = Done (Some (st', q, new_done, b')) ∧
    batch_inv to_send st0 q0 st' q b' ∧ rex_len st = S (rex_len st') ∧ bt_built b ≤ bt_built b'.
Proof.
  intros Hsc Hlt Hinv Hp. destruct (pop_retransmit_spec st seq st1 (bi_rex _ _ _ _ _ _ Hinv) Hp) as (Hq1 & Hu & Eh & _).
  assert (st_done st1 = st_done st) as Hd.
  { revert Hp. unfold pop_retransmit. destruct (pq_pop _) as [[??]|]; [|done]. by intros [= _ <-]. }
  assert (rex_len st = S (rex_len st1)) as Hlen by (unfold rex_len, pq_len; by rewrite Eh).
  unfold batch_step. rewrite (proj2 (Z.leb_gt _ _)) by lia. rewrite Hp.
  destruct (fill_retransmit_spec scratch seq Hsc Hu) as (r & -> & Hr & Hsome). cbn [mbind outcome_bind].
  assert (Hmade : bt_built b + 1 + rex_len st1 ≤ rex_len st0).
  { destruct (bi_made _ _ _ _ _ _ Hinv) as [Hnil|]; [by rewrite Hnil in Eh|lia]. }
  assert (Hresent : ∀ s, s ∈ rq_heap (st_rex st0) → s < sc_total_blocks cfg →
    s = seq ∨ s ∈ rq_heap (st_rex st1) ∨
    ∃ pkt, pkt ∈ bt_msgs b ∧ carries (sc_crypto cfg) (sc_session cfg) pkt s (src_block s)).
  { intros s Hin Hlts. destruct (bi_resent _ _ _ _ _ _ Hinv s Hin Hlts) as [Hh|]; [|by auto].
    rewrite Eh in Hh. apply elem_of_cons in Hh as [->|]; auto. }
  assert (∃ k, rq_heap (st_rex st1) = drop k (rq_heap (st_rex st0))) as Hpop.
  { destruct (bi_pop _ _ _ _ _ _ Hinv) as [k Hk]. exists (k + 1)%nat. by rewrite <-drop_drop, <-Hk, Eh. }
  assert (0 < bt_new_n b → rq_heap (st_rex st1) = []) as Hfirst.
  { intros Hn. apply (bi_first _ _ _ _ _ _ Hinv) in Hn. by rewrite Hn in Eh. }
  destruct r as [[buf n]|].
  - destruct (Hr _ eq_refl) as (Hl & Hn & blk & Hc & Hb). cbn [fst snd] in *.
    destruct (attach_tick_spec st1 buf n now seq blk Hn Hc) as (st2 & buf2 & -> & Hl2 & Hc2 & Hrex & Hdn & _).
    cbn [mbind outcome_bind]. rewrite buf_slice_done by lia. cbn [mbind outcome_bind]. rewrite drop_0, Nat.sub_0_r.
    eexists _, _. split; [done|]. destruct Hinv. split; [split; simpl; rewrite ?Hrex, ?length_app; simpl; try done; try lia|].
    + apply Forall_app. split; [done|]. constructor; [|done]. split; [by exists seq, blk|].
      rewrite length_take. lia.
    + congruence.
    + intros s Hin Hlts. destruct (Hresent s Hin Hlts) as [->|[|(pkt & Hp1 & Hp2)]]; [|by left|].
      * right. eexists. split; [apply elem_of_app; right; by left|]. destruct Hb as (_ & _ & _ & Hb). by rewrite <-(Hb Hlts).
      * right. exists pkt. split; [apply elem_of_app; by left|done].
    + right. unfold rex_len in *. rewrite Hrex. lia.
    + intros Hn0 pkt [Hin| ->%list_elem_of_singleton]%elem_of_app; [by apply bi_only0|]. exists seq, blk.
      split; [|done]. destruct bi_pop0 as [k Hk]. rewrite Hk in Eh.
      apply (list_elem_of_lookup_2 _ k). rewrite <-(Nat.add_0_r k), <-lookup_drop, Eh. done.
    + split; [|simpl; lia]. unfold rex_len in *. by rewrite Hrex.
  - eexists _, _. split; [done|]. split; [|split; [done|lia]]. destruct Hinv. split; try done; [congruence| |right; lia].
    intros s Hin Hlts. destruct (Hresent s Hin Hlts) as [->|]; [|done]. by destruct (Hsome Hlts).
Qed.

Lemma batch_new_ok scratch to_send now st0 q0 st q b item items :
  bt_built b < to_send → batch_inv to_send st0 q0 st q b → rq_heap (st_rex st) = [] →
  ry_items q = item :: items →
  ∃ st' q' b', batch_step cfg scratch to_send now st q false b = Done (Some (st', q', false, b')) ∧
    batch_inv to_send st0 q0 st' q' b' ∧ rex_len st' = rex_len st ∧ bt_built b' = bt_built b + 1.
Proof.
  intros Hlt Hinv Hh Ei. unfold batch_step. rewrite (proj2 (Z.leb_gt _ _)) by lia.
  unfold pop_retransmit. rewrite Hh. cbn [pq_pop]. rewrite Ei. destruct item as [buf n].
  pose proof (bi_q _ _ _ _ _ _ Hinv) as Hq. unfold queue_ok in Hq. rewrite Ei in Hq.
  apply Forall_cons in Hq as [(seq & Hs & Hl & Hn & Hc) Hq]. cbn [fst snd] in *.
  destruct (attach_tick_spec st buf n now seq _ Hn Hc) as (st2 & buf2 & -> & Hl2 & Hc2 & Hrex & Hdn & _).
  cbn [mbind outcome_bind]. rewrite buf_slice_done by lia. cbn [mbind outcome_bind]. rewrite drop_0, Nat.sub_0_r.
  eexists _, _, _. split; [done|]. pose proof total_blocks_small. destruct Hinv. destruct bi_bufs0.
  split; [split; simpl; rewrite ?Hrex, ?length_app; simpl; try done; try lia|].
  - apply Forall_app. split; [done|]. constructor; [|done]. split; [|rewrite length_take; lia].
    exists seq, (src_block seq). split; [unfold is_uint; lia|]. split; [done|by apply src_block_bytes].
  - replace (Z.to_nat (bt_new_n b + 1)) with (Z.to_nat (bt_new_n b) + 1)%nat by lia.
    by rewrite <-drop_drop, <-bi_items0, Ei.
  - split; [|lia]. apply Forall_app. split; [done|]. constructor; [congruence|done].
  - congruence.
  - intros s Hin Hlts. destruct (bi_resent0 s Hin Hlts) as [|(pkt & Hp1 & Hp2)]; [by left|].
    right. exists pkt. split; [apply elem_of_app; by left|done].
  - by left.
  - unfold rex_len. by rewrite Hrex.
Qed.

(** The loop ends within its bound. *)
Lemma batch_loop_spec scratch to_send now st0 q0 fuel : ∀ st q (new_done : bool) b,
  length scratch = pdu_buf_len cfg → batch_inv to_send st0 q0 st q b →
  rex_len st + (to_send - bt_built b) + (if new_done then 0 else 1) ≤ Z.of_nat fuel →
  ∃ st' q' nd' b', batch_loop fuel cfg scratch to_send now st q new_done b = Done (Some (st', q', nd', b')) ∧
    batch_inv to_send st0 q0 st' q' b' ∧
    (bt_built b' = to_send ∨ nd' = true ∧ rq_heap (st_rex st') = []) ∧ ry_closed q' = ry_closed q ∧
    (nd' = true → new_done = true ∧ ry_items q' = ry_items q ∨ ry_items q' = [] ∧ ry_closed q = true).
Proof.
  induction fuel as [|fuel IH]; intros st q new_done b Hsc Hinv Hf; cbn [batch_loop];
    pose proof (bi_built to_send st0 q0 st q b Hinv) as Hbu; destruct (Z.leb_spec to_send (bt_built b)) as [Hle|Hlt].
  1, 3: unfold batch_step; rewrite (proj2 (Z.leb_le to_send (bt_built b))) by done; cbn [mbind outcome_bind];
    exists st, q, new_done, b; split; [done|]; split; [done|]; split; [left; lia|split; [done|by left]].
  { destruct new_done; lia. }
  destruct (pop_retransmit st) as [[seq|] st1] eqn:Ep.
  - destruct (batch_rex_ok scratch to_send now st0 q0 st q b seq st1 new_done Hsc ltac:(lia) Hinv Ep)
      as (st2 & b2 & -> & Hinv2 & Hl2 & Hb2). cbn [mbind outcome_bind]. apply IH; [done|done|lia].
  - apply pop_retransmit_none in Ep as [-> Eh]. destruct new_done.
    { unfold batch_step. rewrite (proj2 (Z.leb_gt _ _)) by lia. unfold pop_retransmit. rewrite Eh.
      cbn [pq_pop mbind outcome_bind]. exists st, q, true, b. split; [done|]. split; [done|]. split; [by right|split; [done|by left]]. }
    destruct (ry_items q) as [|item items] eqn:Ei.
    + unfold batch_step at 1. rewrite (proj2 (Z.leb_gt _ _)) by lia. unfold pop_retransmit at 1. rewrite Eh.
      cbn [pq_pop]. rewrite Ei. destruct (ry_closed q) eqn:Ec; cbn [mbind outcome_bind].
      * destruct (IH st q true b Hsc Hinv ltac:(lia)) as (st' & q' & nd' & b' & -> & ? & ? & ? & Hnd).
        exists st', q', nd', b'. split; [done|]. split; [done|]. split; [done|]. split; [congruence|].
        intros Hn. right. destruct (Hnd Hn) as [[_ ?]|[? _]]; split; congruence.
      * destruct (IH st q false (mkBatch (bt_msgs b) (bt_rex_n b) (bt_rex_bytes b) (bt_new_n b)
                    (bt_new_bytes b) (bt_new_bufs b) to_send) Hsc) as (st' & q' & nd' & b' & -> & ? & ? & ? & Hnd).
        { destruct Hinv. split; simpl; try done; [lia|by left]. }
        { simpl. lia. }
        exists st', q', nd', b'. split; [done|]. split; [done|]. split; [done|]. split; [congruence|].
        intros Hn. destruct (Hnd Hn) as [[? _]|[_ ?]]; congruence.
    + destruct (batch_new_ok scratch to_send now st0 q0 st q b item items ltac:(lia) Hinv Eh Ei)
        as (st2 & q2 & b2 & E2 & Hinv2 & Hl2 & Hb2). rewrite E2. cbn [mbind outcome_bind].
      assert (ry_closed q2 = ry_closed q) as Hcl.
      { revert E2. unfold batch_step. rewrite (proj2 (Z.leb_gt _ _)) by lia. unfold pop_retransmit. rewrite Eh.
        cbn [pq_pop]. rewrite Ei. destruct item as [buf n]. destruct (attach_tick st buf now) as [[??]|]; [|done].
        cbn [mbind outcome_bind]. destruct (buf_slice _ _ _); [|done]. cbn [mbind outcome_bind].
        intros E%Done_inj. by simplify_eq. }
      rewrite <-Hcl. destruct (IH st2 q2 false b2 Hsc Hinv2 ltac:(lia)) as (st' & q' & nd' & b' & E & ? & ? & ? & Hnd).
      exists st', q', nd', b'. split; [done|]. split; [done|]. split; [done|]. split; [done|].
      intros Hn. destruct (Hnd Hn) as [[? _]|?]; [done|by right].
Qed.

Lemma batch_inv_init to_send st q :
  0 ≤ to_send → rex_ok (st_rex st) → queue_ok q → batch_inv to_send st q st q batch_empty.
Proof.
  intros. split; simpl; try done; try lia; try by constructor. { by exists O. } by intros _ pkt ?%not_elem_of_nil.
Qed.

Lemma build_batch_spec scratch to_send now st q new_done :
  length scratch = pdu_buf_len cfg → 0 ≤ to_send → rex_ok (st_rex st) → queue_ok q →
  ∃ st' q' nd' b', build_batch cfg scratch to_send now st q new_done = Done (Some (st', q', nd', b')) ∧
    batch_inv to_send st q st' q' b' ∧
    (bt_built b' = to_send ∨ nd' = true ∧ rq_heap (st_rex st') = []) ∧ ry_closed q' = ry_closed q ∧
    (nd' = true → new_done = true ∧ ry_items q' = ry_items q ∨ ry_items q' = [] ∧ ry_closed q = true).
Proof.
  intros Hsc Hts Hrex Hq.
  destruct (batch_loop_spec scratch to_send now st q (rex_len st + Z.to_nat to_send + 1) st q new_done batch_empty)
    as (st' & q' & nd' & b' & E & Hinv & Hex & Hcl & Hnd); [done|by apply batch_inv_init|simpl; destruct new_done; lia|].
  by exists st', q', nd', b'.
Qed.

Lemma send_fin_spec :
  ∃ f, send_fin cfg = Done f ∧ pdu_type f = PDU_FIN ∧
       decode_fin f = Done (Some (sc_session cfg, sc_total_blocks cfg)).
Proof.
  pose proof total_blocks_small. unfold send_fin.
  destruct (encode_fin_done (sc_session cfg) (sc_total_blocks cfg) (replicate 16 x00))
    as (b & -> & Hl & Ht & Hd); [done|apply Hok|unfold is_uint; lia|].
  cbn [mbind outcome_bind]. rewrite buf_slice_done by lia. exists b.
  rewrite drop_0, Nat.sub_0_r, take_ge by lia. done.
Qed.
End send_correct.

(** ** Properties of the sender *)

(** C9: the first pass over the file puts it on the wire whole and in order: given pooled
    buffers, [prefetch] publishes one PDU per block, the i-th of them carrying (under the
    checksum, or sealed under the session's cipher) exactly the bytes of block i of the
    source; a retransmission of any block of the file carries the same bytes, and no
    sequence number a peer can name makes [fill_retransmit] panic. *)
Theorem sender_pdus_carry_file {Src} `{!BlockSource Src, !BlockSourceLaws Src}
    `{!Crc32c, !Crc32cLaws, !AeadCrate, !AeadLaws} (cfg : SendCfg Src) bufs scratch :
  send_cfg_ok cfg →
  Forall (λ buf, length buf = pdu_buf_len cfg) bufs → length scratch = pdu_buf_len cfg →
  Z.of_nat (length bufs) = sc_total_blocks cfg →
  (∃ items, prefetch cfg bufs 0 (length bufs) = Done items ∧ Z.of_nat (length items) = sc_total_blocks cfg ∧
     ∀ (i : nat) buf n, items !! i = Some (buf, n) →
       carries (sc_crypto cfg) (sc_session cfg) (take n buf) i (src_block cfg i)) ∧
  (∀ seq, is_u64 seq → ∃ r, fill_retransmit cfg scratch seq = Done r ∧
     (seq < sc_total_blocks cfg → ∃ buf n, r = Some (buf, n) ∧
        carries (sc_crypto cfg) (sc_session cfg) (take n buf) seq (src_block cfg seq))).
Proof.
  intros Hok Hb Hs Hn. split.
  - destruct (prefetch_spec cfg Hok bufs 0 (length bufs)) as (items & E & Hl & Hi); [done|lia..|].
    exists items. split; [done|]. split; [lia|]. intros i buf n Hit. by apply (Hi i (buf, n)) in Hit as (_ & _ & ?).
  - intros seq Hu. destruct (fill_retransmit_spec cfg Hok scratch seq Hs Hu) as (r & E & Hr & Hsome).
    exists r. split; [done|]. intros Ht. destruct (Hsome Ht) as [[buf n] ->].
    destruct (Hr _ eq_refl) as (_ & _ & blk & Hc & _ & _ & _ & Hblk). rewrite (Hblk Ht) in Hc. eauto.
Qed.

(** One iteration of the pacing loop. *)
Lemma pacing_iter_spec {Src} `{!BlockSource Src, !BlockSourceLaws Src}
    `{!Crc32c, !Crc32cLaws, !AeadCrate, !AeadLaws} (cfg : SendCfg Src)
    scratch stop control t0 t1 st q p :
  send_cfg_ok cfg → length scratch = pdu_buf_len cfg → rex_ok (st_rex st) → queue_ok cfg q →
  pacer_ok p → 0 ≤ st_target_bps st →
  ∃ r, pacing_iter cfg scratch stop control t0 t1 st q p = Done (Some r) ∧
    match r with
    | PaceDone => st_done st = true
    | PaceStopped _ => st_done st = false ∧ should_stop stop control = true
    | PacePaused p' => st_done st = false ∧ is_paused control = true ∧ pacer_ok p'
    | PaceSent st' q' p' freed msgs fin _ =>
        st_done st' = st_done st ∧ rex_ok (st_rex st') ∧ queue_ok cfg q' ∧ pacer_ok p' ∧
        Z.of_nat (length msgs) ≤ MAX_BATCH ∧ Forall (wire_ok cfg) msgs ∧
        (∃ k, rq_heap (st_rex st') = drop k (rq_heap (st_rex st))) ∧
        ry_items q' = drop (length freed) (ry_items q) ∧
        (freed ≠ [] → rq_heap (st_rex st') = []) ∧
        Forall (λ buf, length buf = pdu_buf_len cfg) freed ∧
        (is_Some fin ↔ pc_new_done p' = true ∧ rex_len st' = O) ∧
        ry_closed q' = ry_closed q ∧
        (pc_new_done p' = true → pc_new_done p = true ∧ ry_items q' = ry_items q ∨ ry_items q' = [] ∧ ry_closed q = true) ∧
        (is_Some fin → (pc_new_done p = true → ry_items q = [] ∧ ry_closed q = true) →
           ry_items q' = [] ∧ ry_closed q' = true ∧ rq_heap (st_rex st') = []) ∧
        (∀ seq, seq ∈ rq_heap (st_rex st) → seq < sc_total_blocks cfg →
           seq ∈ rq_heap (st_rex st') ∨
           ∃ pkt, pkt ∈ msgs ∧ carries (sc_crypto cfg) (sc_session cfg) pkt seq (src_block cfg seq)) ∧
        (rq_heap (st_rex st') = [] ∨ (rex_len st' < rex_len st)%nat) ∧
        (freed = [] → ∀ pkt, pkt ∈ msgs → ∃ seq blk, seq ∈ rq_heap (st_rex st) ∧
           carries (sc_crypto cfg) (sc_session cfg) pkt seq blk ∧ file_bytes cfg seq blk)
    end.
Proof.
  intros Hok Hsc Hrex Hq Hp Ht. unfold pacing_iter.
  destruct (st_done st) eqn:Ed; [by eexists|]. destruct (should_stop stop control) eqn:Es; [by eexists|].
  destruct (is_paused control) eqn:Ep; [by eexists|].
  destruct (effective_rate_nonneg control _ Ht) as [Hr _]. set (r := effective_rate _ _) in *.
  set (p1 := if r =? pc_cur_rate p then p else _).
  assert (pacer_ok p1) as Hp1.
  { unfold p1. destruct (_ =? _); [done|]. apply pacer_rate_ok; [apply Hok|done]. }
  assert (pc_new_done p1 = pc_new_done p) as Hpn.
  { unfold p1, pacer_rate. destruct (_ =? _); [done|]. by destruct (recompute _ _) as [[??]?]. }
  set (st1 := mkSendState _ _ _ _ _).
  destruct (build_batch_spec cfg Hok scratch (f64_to_u64 (pc_batch p1)) t0 st1 q (pc_new_done p1))
    as (st2 & q2 & nd & b & -> & [] & Hex & Hcl & Hnd); [done|unfold pacer_ok in Hp1; lia|done|done|].
  cbn [mbind outcome_bind]. destruct (send_fin_spec cfg Hok) as (f & Ef & _). rewrite Ef.
  set (st3 := mkSendState _ _ _ _ (count_batch _ _)).
  set (fin := if nd && (rex_len st3 =? 0)%nat then Some f else None).
  replace (if nd && (rex_len st3 =? 0)%nat then Some <$> Done f else Done None) with (Done fin)
    by (unfold fin; by destruct (nd && (rex_len st3 =? 0)%nat)).
  cbn [mbind outcome_bind]. destruct (next_deadline p1 (f64_of_Z t1)) as [d sl].
  eexists. split; [done|]. cbn beta iota. unfold pacer_ok in Hp1. destruct bi_bufs0 as [Hb1 Hb2].
  split; [by unfold st3; simpl; rewrite bi_done0|]. split; [done|]. split; [done|]. split; [done|].
  split; [lia|]. split; [done|]. split; [done|]. split; [rewrite bi_items0; f_equal; lia|].
  split. { intros Hne. apply bi_first0. destruct (bt_new_bufs b); [done|]. simpl in *. lia. }
  rewrite Hpn in Hnd. cbn [pc_new_done].
  assert (is_Some fin ↔ nd = true ∧ rex_len st3 = O) as Hfin.
  { unfold fin. destruct (Nat.eqb_spec (rex_len st3) 0) as [E|E]; destruct nd; cbn [andb];
      (split; [intros [??]; by simplify_eq|intros [??]; first [done | by exists f]]). }
  split; [done|]. split; [done|]. split; [done|]. split; [done|]. split; [|split; [done|split]].
  1: { intros [Hn Hl]%Hfin Hp0. unfold rex_len in Hl. apply length_zero_iff_nil in Hl. rewrite Hcl.
    destruct (Hnd Hn) as [[Hpd ->]|[-> ->]]; [|done]. by destruct (Hp0 Hpd) as [-> ->]. }
  2: { intros Hnil. apply bi_only0. rewrite Hnil in Hb2. simpl in Hb2. lia. }
  destruct bi_made0; [by left|]. destruct Hex as [Hb|[_ ?]]; [right|by left]. unfold rex_len in *. simpl in *. lia.
Qed.

(** C10: one iteration of the pacing loop.  It never panics and never exceeds its bound; it
    stops exactly on DONE or on the caller's stop, in that order; otherwise it sends at
    most 64 datagrams, every one of them a DATA PDU that fits a buffer and carries the file's
    bytes at the offset of the number it names (its block, when the file has it), pending
    retransmissions before any new block and new blocks in queue order, and returns every
    pooled buffer it took.  It learns that no new block will come only from a closed queue that
    it found empty, and announces FIN exactly when it knows that and no retransmission is
    pending: then the queue is empty and closed. *)
Theorem pacing_iter_correct {Src} `{!BlockSource Src, !BlockSourceLaws Src}
    `{!Crc32c, !Crc32cLaws, !AeadCrate, !AeadLaws} (cfg : SendCfg Src)
    scratch stop control t0 t1 st q p :
  send_cfg_ok cfg → length scratch = pdu_buf_len cfg → rex_ok (st_rex st) → queue_ok cfg q →
  pacer_ok p → 0 ≤ st_target_bps st →
  ∃ r, pacing_iter cfg scratch stop control t0 t1 st q p = Done (Some r) ∧
    match r with
    | PaceDone => st_done st = true
    | PaceStopped _ => st_done st = false ∧ should_stop stop control = true
    | PacePaused p' => st_done st = false ∧ is_paused control = true ∧ pacer_ok p'
    | PaceSent st' q' p' freed msgs fin _ =>
        st_done st' = st_done st ∧ rex_ok (st_rex st') ∧ queue_ok cfg q' ∧ pacer_ok p' ∧
        Z.of_nat (length msgs) ≤ MAX_BATCH ∧ Forall (wire_ok cfg) msgs ∧
        (∃ k, rq_heap (st_rex st') = drop k (rq_heap (st_rex st))) ∧
        ry_items q' = drop (length freed) (ry_items q) ∧
        (freed ≠ [] → rq_heap (st_rex st') = []) ∧
        Forall (λ buf, length buf = pdu_buf_len cfg) freed ∧
        (is_Some fin ↔ pc_new_done p' = true ∧ rex_len st' = O) ∧
        ry_closed q' = ry_closed q ∧
        (pc_new_done p' = true → pc_new_done p = true ∧ ry_items q' = ry_items q ∨ ry_items q' = [] ∧ ry_closed q = true) ∧
        (is_Some fin → (pc_new_done p = true → ry_items q = [] ∧ ry_closed q = true) →
           ry_items q' = [] ∧ ry_closed q' = true ∧ rq_heap (st_rex st') = []) ∧
        (∀ seq, seq ∈ rq_heap (st_rex st) → seq < sc_total_blocks cfg →
           seq ∈ rq_heap (st_rex st') ∨
           ∃ pkt, pkt ∈ msgs ∧ carries (sc_crypto cfg) (sc_session cfg) pkt seq (src_block cfg seq)) ∧
        (rq_heap (st_rex st') = [] ∨ (rex_len st' < rex_len st)%nat) ∧
        (freed = [] → ∀ pkt, pkt ∈ msgs → ∃ seq blk, seq ∈ rq_heap (st_rex st) ∧
           carries (sc_crypto cfg) (sc_session cfg) pkt seq blk ∧ file_bytes cfg seq blk)
    end.
Proof. apply pacing_iter_spec. Qed.

(** One datagram of the feedback thread. *)
Lemma feedback_step_spec {Src} (cfg : SendCfg Src) control buf addr t2 st :
  rex_ok (st_rex st) →
  ∃ st', feedback_step cfg control buf addr t2 st = Done st' ∧ rex_ok (st_rex st') ∧
    (st' = st ∨
     ∃ fh nacks, addr = sc_peer cfg ∧ decode_feedback buf = Done (Some (fh, nacks)) ∧
       fh_session fh = sc_session cfg ∧
       st_tick st' = mkTickState true (fh_tick fh) (fh_tick_is_network fh) t2 ∧
       rq_set (st_rex st') = rq_set (st_rex st) ∪ list_to_set (ne_block_seq <$> nacks) ∧
       st_done st' = fh_done fh || st_done st) ∧
    (sc_rate_mode cfg = Fixed → st_target_bps st ≤ sc_configured_target_bps cfg →
     st_target_bps st' ≤ sc_configured_target_bps cfg).
Proof.
  intros Hrex. unfold feedback_step. case_bool_decide as Ha; cbn [negb]; [|exists st; naive_solver].
  destruct (_ =? PDU_FEEDBACK); cbn [negb]; [|exists st; naive_solver].
  destruct (decode_feedback_total buf) as (r & Er & Hwf). rewrite Er. cbn [mbind outcome_bind].
  destruct r as [[fh nacks]|]; [|exists st; naive_solver].
  destruct (Z.eqb_spec (fh_session fh) (sc_session cfg)) as [Hs|]; cbn [negb]; [|exists st; naive_solver].
  destruct (Hwf _ _ eq_refl) as (_ & Hn & _).
  assert (Forall (λ n, is_u64 (ne_block_seq n)) nacks) as Hn' by (eapply Forall_impl; [exact Hn|by intros ? []]).
  destruct (push_loop_spec nacks (st_rex st) Hrex Hn') as [Hrex' Hset].
  set (st1 := match nacks with [] => _ | _ => _ end).
  assert (st_rex st1 = push_loop (st_rex st) nacks) as E1 by (unfold st1; by destruct nacks).
  assert (st_tick st1 = mkTickState true (fh_tick fh) (fh_tick_is_network fh) t2) as E2
    by (unfold st1; by destruct nacks).
  assert (st_done st1 = st_done st ∧ st_target_bps st1 = st_target_bps st) as [E3 E4]
    by (unfold st1; by destruct nacks).
  clearbody st1. destruct (Z.ltb_spec 0 (fh_target_rate fh)); eexists; (split; [done|]); simpl;
    rewrite E1, E2, E3; (split; [done|]); (split; [right; by exists fh, nacks|]).
  - intros -> ?. lia.
  - intros _ ?. by rewrite E4.
Qed.

(** The target stays a rate. *)
Lemma feedback_step_target {Src} (cfg : SendCfg Src) control buf addr t2 st st' :
  0 ≤ sc_configured_target_bps cfg → 0 ≤ st_target_bps st →
  feedback_step cfg control buf addr t2 st = Done st' → 0 ≤ st_target_bps st'.
Proof.
  intros Hc Ht. unfold feedback_step. destruct (negb _); [by intros [= <-]|]. destruct (negb _); [by intros [= <-]|].
  destruct (decode_feedback_total buf) as (r & -> & Hr). cbn [mbind outcome_bind].
  destruct r as [[fh nacks]|]; [|by intros [= <-]]. destruct (negb _); [by intros [= <-]|].
  destruct (Hr _ _ eq_refl) as ((_ & _ & _ & Hrate & _) & _). intros [= <-]. cbn [st_target_bps].
  unfold is_uint in Hrate. destruct (0 <? fh_target_rate fh); [destruct (sc_rate_mode cfg); simpl; lia|].
  by destruct nacks.
Qed.

(** A datagram the feedback thread acts on: a FEEDBACK of the session from the peer. *)
Definition feedback_accepted {Src} (cfg : SendCfg Src) (buf : list byte) (addr : SocketAddr)
    (fh : FeedbackHeader) (nacks : list NackEntry) : Prop :=
  addr = sc_peer cfg ∧ pdu_type buf = PDU_FEEDBACK ∧ decode_feedback buf = Done (Some (fh, nacks)) ∧
  fh_session fh = sc_session cfg.

(** The target a FEEDBACK leaves. *)
Definition adopted_target {Src} (cfg : SendCfg Src) (fh : FeedbackHeader) (old : Z) : Z :=
  if fh_target_rate fh <=? 0 then old
  else match sc_rate_mode cfg with
       | Adaptive => fh_target_rate fh
       | Fixed => Z.min (fh_target_rate fh) (sc_configured_target_bps cfg)
       end.

Lemma feedback_step_effect {Src} (cfg : SendCfg Src) control buf addr t2 st st' fh nacks :
  rex_ok (st_rex st) → feedback_accepted cfg buf addr fh nacks →
  feedback_step cfg control buf addr t2 st = Done st' →
  st_tick st' = mkTickState true (fh_tick fh) (fh_tick_is_network fh) t2 ∧
  rq_set (st_rex st') = rq_set (st_rex st) ∪ list_to_set (ne_block_seq <$> nacks) ∧
  st_done st' = fh_done fh || st_done st ∧ st_target_bps st' = adopted_target cfg fh (st_target_bps st) ∧
  st_stats st' hi_contig = fh_hi_contig fh.
Proof.
  intros Hrex (-> & Ht & Hd & Hs). unfold feedback_step.
  rewrite bool_decide_eq_true_2, Ht, Z.eqb_refl, Hd by done. cbn [negb mbind outcome_bind].
  rewrite (proj2 (Z.eqb_eq _ _) Hs). cbn [negb].
  destruct (decode_feedback_total buf) as (r & Er & Hwf). rewrite Hd in Er. apply Done_inj in Er as <-.
  destruct (Hwf _ _ eq_refl) as (_ & Hn & _).
  destruct (push_loop_spec nacks (st_rex st) Hrex) as [_ Hset]; [eapply Forall_impl; [exact Hn|by intros ? []]|].
  intros [= <-]. cbn [st_tick st_rex st_done st_target_bps st_stats]. rewrite stats_store_eq. unfold adopted_target.
  destruct (Z.ltb_spec 0 (fh_target_rate fh)); destruct (Z.leb_spec (fh_target_rate fh) 0); try lia;
    destruct nacks; split_and!; (reflexivity || exact Hset).
Qed.

Lemma feedback_step_ignored {Src} (cfg : SendCfg Src) control buf addr t2 st :
  (∀ fh nacks, ¬ feedback_accepted cfg buf addr fh nacks) →
  feedback_step cfg control buf addr t2 st = Done st.
Proof.
  intros Hno. unfold feedback_step. case_bool_decide as Ha; cbn [negb]; [|done].
  destruct (Z.eqb_spec (pdu_type buf) PDU_FEEDBACK); cbn [negb]; [|done].
  destruct (decode_feedback_total buf) as (r & Er & _). rewrite Er. cbn [mbind outcome_bind].
  destruct r as [[fh nacks]|]; [|done].
  destruct (Z.eqb_spec (fh_session fh) (sc_session cfg)); cbn [negb]; [|done].
  by destruct (Hno fh nacks).
Qed.

(** C28: what a datagram does to the sender.  No datagram panics the feedback thread.  A FEEDBACK
    of the session from the peer arms its tick, queues exactly the blocks it NACKs, sets done
    exactly when its done byte is set, adopts the rate it asks for (in fixed mode at most the
    configured one; a zero rate keeps the old) and shows its frontier; any other datagram (from
    another address, of another type or session, or malformed) changes nothing. *)
Theorem feedback_step_sound {Src} (cfg : SendCfg Src) control buf addr t2 st :
  rex_ok (st_rex st) →
  ∃ st', feedback_step cfg control buf addr t2 st = Done st' ∧ rex_ok (st_rex st') ∧
    (∀ fh nacks, feedback_accepted cfg buf addr fh nacks →
       st_tick st' = mkTickState true (fh_tick fh) (fh_tick_is_network fh) t2 ∧
       rq_set (st_rex st') = rq_set (st_rex st) ∪ list_to_set (ne_block_seq <$> nacks) ∧
       st_done st' = fh_done fh || st_done st ∧ st_target_bps st' = adopted_target cfg fh (st_target_bps st) ∧
       st_stats st' hi_contig = fh_hi_contig fh) ∧
    ((∀ fh nacks, ¬ feedback_accepted cfg buf addr fh nacks) → st' = st) ∧
    (sc_rate_mode cfg = Fixed → st_target_bps st ≤ sc_configured_target_bps cfg →
     st_target_bps st' ≤ sc_configured_target_bps cfg).
Proof.
  intros Hrex. destruct (feedback_step_spec cfg control buf addr t2 st Hrex) as (st' & E & Hok & _ & Hfix).
  exists st'. split; [done|]. split; [done|]. split; [|split; [|done]].
  - intros fh nacks Hacc. exact (feedback_step_effect cfg control buf addr t2 st st' fh nacks Hrex Hacc E).
  - intros Hno. rewrite feedback_step_ignored in E by done. by injection E.
Qed.

(** Result: the sender only bootstraps towards the expected host: [wait_for_peer] never panics,
    ignores datagrams from other hosts and anything but a START of its session, and an
    address it returns sent such a START. *)
Theorem wait_for_peer_sound session expected events :
  ∃ r, wait_for_peer session expected events = Done r ∧
    ∀ addr, r = Some (Ok addr) →
      ∃ buf, WaitRecv (Ok (buf, addr)) ∈ events ∧ decode_start buf = Done (Some session) ∧
             ∀ ip, expected = Some ip → sa_ip addr = ip.
Proof.
  induction events as [|ev events (r & E & IH)]; [by eexists|].
  assert (∀ addr, r = Some (Ok addr) → ∃ buf, WaitRecv (Ok (buf, addr)) ∈ ev :: events ∧
            decode_start buf = Done (Some session) ∧ ∀ ip, expected = Some ip → sa_ip addr = ip) as IH'.
  { intros addr Hr. destruct (IH addr Hr) as (b & Hb & ?). exists b. split; [by right|done]. }
  destruct ev as [| |[[buf a]|e]]; cbn [wait_for_peer]; [by eexists|by eexists| |].
  - destruct (foreign_ip expected a) eqn:Ef; [eauto|].
    destruct (decode_start_total buf) as [s Es]. rewrite Es. cbn [mbind outcome_bind].
    case_bool_decide as Hs; [|eauto]. eexists. split; [done|]. intros addr [= <-]. exists buf.
    split; [by left|]. split; [congruence|]. intros ip ->. cbn [foreign_ip] in Ef.
    apply negb_false_iff, bool_decide_eq_true in Ef. done.
  - destruct (is_timeout e); [eauto|]. by eexists.
Qed.

(** ** A small transfer *)

Definition demo_peer : SocketAddr := mkSocketAddr (V4 0x7F000001) 9000 0 0.
Definition demo_box : AeadBox := mkAeadBox Cha (replicate 32 x07).
Definition demo_send : SendCfg MemSource :=
  mkSendCfg (mkMemSource demo_content) 7 3 3 77 Fixed (Some demo_box) demo_peer 1000000.
Definition demo_rex : RexQueue := mkRexQueue [1; 5] {[1; 5]}.
Definition demo_state : SendState := mkSendState 1000000 false demo_rex tick_default stats_default.

Lemma demo_send_ok : send_cfg_ok demo_send.
Proof. by split; vm_compute. Qed.

Lemma demo_rex_ok : rex_ok demo_rex.
Proof.
  split; simpl; [repeat constructor|..|repeat constructor; vm_compute; done].
  - rewrite NoDup_cons. split; [set_solver|apply NoDup_singleton].
  - set_solver.
Qed.

Lemma sender_pdus_carry_file_witness :
  ∃ items, @prefetch _ _ castagnoli toy_aead demo_send (replicate 3 (replicate 55 xff)) 0 3 = Done items ∧
    length items = 3%nat.
Proof.
  destruct (@sender_pdus_carry_file _ _ _ castagnoli castagnoli_laws toy_aead toy_aead_laws demo_send
              (replicate 3 (replicate 55 xff)) (replicate 55 x00) demo_send_ok) as [(items & E & Hl & _) _];
    [by repeat constructor|done|done|]. exists items. split; [exact E|]. apply Nat2Z.inj. exact Hl.
Defined.

Lemma rex_queue_correct_witness :
  let st1 := push_retransmits demo_state [mkNackEntry 5 5; mkNackEntry 0 0; mkNackEntry 0 0] in
  rex_ok (st_rex st1) ∧ st_stats st1 rex_queue_len = 3.
Proof.
  destruct (rex_queue_correct demo_state [mkNackEntry 5 5; mkNackEntry 0 0; mkNackEntry 0 0] demo_rex_ok)
    as (Hok & _ & Hl & _); [repeat constructor; vm_compute; done|]. split; [exact Hok|]. rewrite Hl. by vm_compute.
Defined.

Lemma pacing_iter_correct_witness :
  ∃ r, @pacing_iter _ _ castagnoli toy_aead demo_send (replicate 55 x00) false None 1000 1010 demo_state
         (mkReadyQueue [] true) (pacer_init 3 1000000 1000) = Done (Some r).
Proof.
  destruct (@pacing_iter_correct _ _ _ castagnoli castagnoli_laws toy_aead toy_aead_laws demo_send
              (replicate 55 x00) false None 1000 1010 demo_state (mkReadyQueue [] true)
              (pacer_init 3 1000000 1000) demo_send_ok) as (r & E & _);
    [done|exact demo_rex_ok|constructor|by apply pacer_rate_ok|done|]. by exists r.
Defined.

(** A FEEDBACK PDU that asks for 5 Mbit/s and NACKs block 0. *)
Definition demo_feedback : list byte :=
  match encode_feedback (replicate 52 x00) (mkFeedbackHeader true 0 77 999 5000000 0 false) [mkNackEntry 0 0] with
  | Done (b, n) => take n b
  | Panic => []
  end.

(** What the FEEDBACK holds. *)
Definition demo_fh : FeedbackHeader := mkFeedbackHeader true 1 77 999 5000000 0 false.

Lemma demo_feedback_accepted : feedback_accepted demo_send demo_feedback demo_peer demo_fh [mkNackEntry 0 0].
Proof. split_and!; vm_compute; reflexivity. Qed.

Lemma feedback_step_sound_witness :
  ∃ st', feedback_step demo_send None demo_feedback demo_peer 10 demo_state = Done st' ∧
    rex_ok (st_rex st') ∧ rq_set (st_rex st') = {[0; 1; 5]} ∧ st_done st' = false ∧ st_target_bps st' = 1000000.
Proof.
  destruct (feedback_step_sound demo_send None demo_feedback demo_peer 10 demo_state demo_rex_ok)
    as (st' & E & Hok & Heff & _). destruct (Heff _ _ demo_feedback_accepted) as (_ & Hs & Hd & Ht & _).
  exists st'. split; [done|]. split; [done|]. split; [|done]. rewrite Hs. set_solver.
Defined.

(** A NACK of a block the file does not have, whose 64-bit offset wraps to 0: the first block's
    bytes are sent under that number (the receiver refuses the number). *)
Example wrapped_nack_resent :
  let cfg := mkSendCfg (mkMemSource demo_content) 7 4 2 77 Fixed None demo_peer 1000000 in
  ∃ buf n, @fill_retransmit _ _ castagnoli toy_aead cfg (replicate 40 x00) (2 ^ 62) = Done (Some (buf, n)) ∧
    take 4 (drop DATA_HEADER_SIZE buf) = take 4 demo_content.
Proof. eexists _, _. split; vm_compute; reflexivity. Qed.
