(* ===== verification/SenderSys.v ===== *)
(** * The sender's threads together (src/sender.rs, [Sender::run])

    The prefetch thread, the pacing loop and the feedback reader run concurrently; the first
    two exchange pooled buffers over two bounded channels.  Their interleavings are a step
    relation: the prefetch thread can be interrupted between borrowing a buffer, building the
    PDU and publishing it, the pacing loop between any two datagrams of a batch, the flush and
    the FIN, and the feedback reader acts between any of these.  The stop flag, the controls
    and the clock are read anew at every step.  The result discharges what the end-to-end
    theorems ask of the wire. *)

From S2P Require Import Prelude Float64 Errors Net Protocol Rate PQueue Stats Runtime BlockIO Crypto Sender.

(** The capacity of both channels, and the number of buffers [run] puts into the pool. *)
Definition POOL : Z := 4096.

(** Where the prefetch thread is at block [seq]: waiting for a buffer, holding one, holding a
    finished PDU, or gone after publishing the blocks below [seq]. *)
Inductive prefetcher :=
| PWant (seq : Z)
| PHave (seq : Z) (buf : list byte)
| PSend (seq : Z) (item : list byte * nat)
| PGone (seq : Z).

(** Where the pacing loop is: at its top, building a batch, before the FIN check, or returned. *)
Inductive pacing :=
| AtTop
| Building (to_send : Z) (b : Batch)
| AtFin
| Exited (r : result unit io_error).

Record SSys := mkSSys {
  ss_st : SendState;
  ss_free : list (list byte);
  ss_q : ReadyQueue;
  ss_pre : prefetcher;
  ss_pacing : pacing;
  ss_pacer : Pacer;
  ss_wire : list (list byte);  (* the datagrams handed to the socket *)
  ss_fins : nat                (* the FINs among what was sent besides *)
}.

(** ** The parts of an iteration of the pacing loop *)

(** The rate of the iteration, and the pacer at that rate. *)
Definition pace_begin (block_size : Z) (control : option TransferControl) (st : SendState) (p : Pacer)
    : SendState * Pacer :=
  let r := effective_rate control (st_target_bps st) in
  (mkSendState (st_target_bps st) (st_done st) (st_rex st) (st_tick st)
     (stats_store target_rate_bps r (st_stats st)),
   if r =? pc_cur_rate p then p else pacer_rate block_size r p).

Definition pace_flush (b : Batch) (st : SendState) : SendState :=
  mkSendState (st_target_bps st) (st_done st) (st_rex st) (st_tick st) (count_batch b (st_stats st)).

Definition set_new_done (nd : bool) (p : Pacer) : Pacer :=
  mkPacer (pc_cur_rate p) (pc_ipd_us p) (pc_batch p) nd (pc_next_deadline p).
Definition set_deadline (d : f64) (p : Pacer) : Pacer :=
  mkPacer (pc_cur_rate p) (pc_ipd_us p) (pc_batch p) (pc_new_done p) d.

Definition set_done (st : SendState) : SendState :=
  mkSendState (st_target_bps st) true (st_rex st) (st_tick st) (st_stats st).

Section sys.
Context {Src : Type} `{!BlockSource Src, !Crc32c, !AeadCrate}.
Context (cfg : SendCfg Src).

(** Run one after the other, the parts are the iteration. *)
Lemma pacing_iter_parts scratch t0 t1 control st q p :
  st_done st = false → should_stop false control = false → is_paused control = false →
  pacing_iter cfg scratch false control t0 t1 st q p =
  (let '(st, p) := pace_begin (sc_block_size cfg) control st p in
   res ← build_batch cfg scratch (f64_to_u64 (pc_batch p)) t0 st q (pc_new_done p);
   match res with
   | None => Done None
   | Some (st, q, nd, b) =>
       let st := pace_flush b st in
       fin ← (if nd && (rex_len st =? 0)%nat then Some <$> send_fin cfg else Done None);
       let '(d, sleep) := next_deadline p (f64_of_Z t1) in
       Done (Some (PaceSent st q (set_deadline d (set_new_done nd p)) (bt_new_bufs b) (bt_msgs b) fin sleep))
   end).
Proof. intros Hd Hs Hp. unfold pacing_iter, pace_begin. rewrite Hd, Hs, Hp. reflexivity. Qed.

(** The threads at the start of [run], with the pool filled. *)
Definition ssys_init (st : SendState) (now : Z) : SSys :=
  mkSSys st (replicate (Z.to_nat POOL) (replicate (pdu_buf_len cfg) x00))
    (mkReadyQueue [] (sc_total_blocks cfg <=? 0))
    (if sc_total_blocks cfg <=? 0 then PGone 0 else PWant 0) AtTop
    (pacer_init (sc_block_size cfg) (st_target_bps st) now) [] 0.

Inductive step : SSys → SSys → Prop :=
(** The prefetch thread. *)
| step_take s seq buf free stop control :
    ss_pre s = PWant seq → ss_free s = buf :: free → should_stop stop control || st_done (ss_st s) = false →
    step s (mkSSys (ss_st s) free (ss_q s) (PHave seq buf) (ss_pacing s) (ss_pacer s) (ss_wire s) (ss_fins s))
| step_quit s seq stop control :
    ss_pre s = PWant seq → should_stop stop control || st_done (ss_st s) = true →
    step s (mkSSys (ss_st s) (ss_free s) (mkReadyQueue (ry_items (ss_q s)) true) (PGone seq)
              (ss_pacing s) (ss_pacer s) (ss_wire s) (ss_fins s))
| step_read s seq buf r :
    ss_pre s = PHave seq buf → prefetch_block cfg buf seq = Done r →
    step s (match r with
            | Some item => mkSSys (ss_st s) (ss_free s) (ss_q s) (PSend seq item) (ss_pacing s) (ss_pacer s)
                             (ss_wire s) (ss_fins s)
            | None => mkSSys (ss_st s) (ss_free s) (mkReadyQueue (ry_items (ss_q s)) true) (PGone seq)
                        (ss_pacing s) (ss_pacer s) (ss_wire s) (ss_fins s)
            end)
| step_publish s seq item :
    ss_pre s = PSend seq item → Z.of_nat (length (ry_items (ss_q s))) < POOL →
    let last := sc_total_blocks cfg <=? seq + 1 in
    step s (mkSSys (ss_st s) (ss_free s) (mkReadyQueue (ry_items (ss_q s) ++ [item]) last)
              (if last then PGone (seq + 1) else PWant (seq + 1)) (ss_pacing s) (ss_pacer s) (ss_wire s) (ss_fins s))
(** The pacing loop. *)
| step_exit s r stop control :
    ss_pacing s = AtTop →
    r = (if st_done (ss_st s) then Ok () else Err (io_other "sender stopped")) →
    st_done (ss_st s) || should_stop stop control = true →
    step s (mkSSys (set_done (ss_st s)) (ss_free s) (ss_q s) (ss_pre s) (Exited r) (ss_pacer s) (ss_wire s) (ss_fins s))
| step_pause s stop control now :
    ss_pacing s = AtTop → st_done (ss_st s) || should_stop stop control = false → is_paused control = true →
    step s (mkSSys (ss_st s) (ss_free s) (ss_q s) (ss_pre s) AtTop (set_deadline (f64_of_Z now) (ss_pacer s))
              (ss_wire s) (ss_fins s))
| step_begin s stop control st p :
    ss_pacing s = AtTop → st_done (ss_st s) || should_stop stop control = false → is_paused control = false →
    pace_begin (sc_block_size cfg) control (ss_st s) (ss_pacer s) = (st, p) →
    step s (mkSSys st (ss_free s) (ss_q s) (ss_pre s) (Building (f64_to_u64 (pc_batch p)) batch_empty) p
              (ss_wire s) (ss_fins s))
| step_build s to_send b scratch now st q nd b' :
    ss_pacing s = Building to_send b → length scratch = pdu_buf_len cfg →
    batch_step cfg scratch to_send now (ss_st s) (ss_q s) (pc_new_done (ss_pacer s)) b = Done (Some (st, q, nd, b')) →
    step s (mkSSys st (ss_free s) q (ss_pre s) (Building to_send b') (set_new_done nd (ss_pacer s))
              (ss_wire s) (ss_fins s))
| step_flush s to_send b scratch now :
    ss_pacing s = Building to_send b → length scratch = pdu_buf_len cfg →
    batch_step cfg scratch to_send now (ss_st s) (ss_q s) (pc_new_done (ss_pacer s)) b = Done None →
    step s (mkSSys (pace_flush b (ss_st s)) (ss_free s ++ bt_new_bufs b) (ss_q s) (ss_pre s) AtFin (ss_pacer s)
              (ss_wire s ++ bt_msgs b) (ss_fins s))
| step_fin s now d sleep :
    ss_pacing s = AtFin → next_deadline (ss_pacer s) (f64_of_Z now) = (d, sleep) →
    step s (mkSSys (ss_st s) (ss_free s) (ss_q s) (ss_pre s) AtTop (set_deadline d (ss_pacer s)) (ss_wire s)
              (if pc_new_done (ss_pacer s) && (rex_len (ss_st s) =? 0)%nat then S (ss_fins s) else ss_fins s))
(** The feedback reader. *)
| step_feedback s control buf addr t2 st :
    feedback_step cfg control buf addr t2 (ss_st s) = Done st →
    step s (mkSSys st (ss_free s) (ss_q s) (ss_pre s) (ss_pacing s) (ss_pacer s) (ss_wire s) (ss_fins s)).

Inductive reachable (st0 : SendState) (now : Z) : SSys → Prop :=
| reach_init : reachable st0 now (ssys_init st0 now)
| reach_step s s' : reachable st0 now s → step s s' → reachable st0 now s'.
End sys.

(** ** The invariant *)

(** The next block the prefetch thread publishes, and the buffers it holds. *)
Definition pre_next (p : prefetcher) : Z :=
  match p with PWant seq | PHave seq _ | PSend seq _ | PGone seq => seq end.
Definition pre_held (p : prefetcher) : Z :=
  match p with PHave _ _ | PSend _ _ => 1 | _ => 0 end.
Definition is_gone (p : prefetcher) : bool := match p with PGone _ => true | _ => false end.

(** The batch in the pacing loop's hands. *)
Definition batch_of (p : pacing) : Batch := match p with Building _ b => b | _ => batch_empty end.

Section invariant.
Context {Src : Type} `{!BlockSource Src, !BlockSourceLaws Src}.
Context `{!Crc32c, !Crc32cLaws, !AeadCrate, !AeadLaws}.
Context (cfg : SendCfg Src) (Hok : send_cfg_ok cfg).

(** New blocks taken from the queue so far: the queue holds the ones between this and
    [pre_next]. *)
Definition taken (s : SSys) : Z := pre_next (ss_pre s) - length (ry_items (ss_q s)).

Definition carries_block (pkt : list byte) (seq : Z) : Prop :=
  carries (sc_crypto cfg) (sc_session cfg) pkt seq (src_block cfg seq).

Record batch_ok (b : Batch) : Prop := {
  bk_msgs : Forall (wire_ok cfg) (bt_msgs b);
  bk_bufs : Forall (λ buf, length buf = pdu_buf_len cfg) (bt_new_bufs b)
}.

Record ssys_inv (s : SSys) : Prop := {
  sv_rex : rex_ok (st_rex (ss_st s));
  sv_target : 0 ≤ st_target_bps (ss_st s);
  sv_range : 0 ≤ taken s ∧ pre_next (ss_pre s) ≤ sc_total_blocks cfg;
  sv_items : ∀ (i : nat) item, ry_items (ss_q s) !! i = Some item → pdu_ready cfg (taken s + i) item;
  sv_pre : match ss_pre s with
           | PWant seq => seq < sc_total_blocks cfg
           | PHave seq buf => seq < sc_total_blocks cfg ∧ length buf = pdu_buf_len cfg
           | PSend seq item => seq < sc_total_blocks cfg ∧ pdu_ready cfg seq item
           | PGone _ => True
           end;
  sv_closed : ry_closed (ss_q s) = is_gone (ss_pre s);
  sv_free : Forall (λ buf, length buf = pdu_buf_len cfg) (ss_free s);
  sv_pool : Z.of_nat (length (ss_free s)) + length (ry_items (ss_q s)) + pre_held (ss_pre s) +
            length (bt_new_bufs (batch_of (ss_pacing s))) = POOL;
  sv_batch : batch_ok (batch_of (ss_pacing s));
  sv_pacer : pacer_ok (ss_pacer s);
  sv_wire : Forall (wire_ok cfg) (ss_wire s);
  sv_sent : ∀ seq, 0 ≤ seq < taken s →
              ∃ pkt, pkt ∈ ss_wire s ++ bt_msgs (batch_of (ss_pacing s)) ∧ carries_block pkt seq;
  sv_new_done : pc_new_done (ss_pacer s) = true → ry_items (ss_q s) = [] ∧ is_gone (ss_pre s) = true;
  sv_fins : (0 < ss_fins s)%nat → pc_new_done (ss_pacer s) = true ∧
              ∀ seq, 0 ≤ seq < pre_next (ss_pre s) → ∃ pkt, pkt ∈ ss_wire s ∧ carries_block pkt seq
}.

Lemma batch_empty_ok : batch_ok batch_empty.
Proof. by split; constructor. Qed.

Lemma ssys_inv_init st now : rex_ok (st_rex st) → 0 ≤ st_target_bps st → ssys_inv (ssys_init cfg st now).
Proof.
  intros Hr Ht. pose proof (total_blocks_small cfg Hok) as Htot. unfold ssys_init.
  assert (pacer_ok (pacer_init (sc_block_size cfg) (st_target_bps st) now)) as Hp by (apply pacer_rate_ok; [apply Hok|done]).
  assert (pc_new_done (pacer_init (sc_block_size cfg) (st_target_bps st) now) = false) as Hnd.
  { unfold pacer_init, pacer_rate. by destruct (recompute _ _) as [[??]?]. }
  destruct (Z.leb_spec (sc_total_blocks cfg) 0); split; unfold taken;
    cbn [ss_st ss_free ss_q ss_pre ss_pacing ss_pacer ss_wire ss_fins ry_items ry_closed pre_next pre_held is_gone
         batch_of bt_new_bufs bt_msgs batch_empty length]; rewrite ?length_replicate, ?Hnd; unfold POOL;
    try done; try lia; try apply batch_empty_ok; try (apply Forall_replicate; apply length_replicate);
    try (simpl; lia).
Qed.
(** One pass of the batch loop: it never panics, and it either takes the next new block from
    the queue or leaves the queue as it is. *)
Definition pass_taken (lo : Z) (q q' : ReadyQueue) (b b' : Batch) : Prop :=
  ∃ item buf msg, ry_items q = item :: ry_items q' ∧ bt_new_bufs b' = bt_new_bufs b ++ [buf] ∧
    bt_msgs b' = bt_msgs b ++ [msg] ∧ carries_block msg lo.
Definition pass_other (nd : bool) (q q' : ReadyQueue) (nd' : bool) (b b' : Batch) : Prop :=
  q' = q ∧ bt_new_bufs b' = bt_new_bufs b ∧ (∃ extra, bt_msgs b' = bt_msgs b ++ extra) ∧
  (nd' = nd ∨ ry_items q = [] ∧ ry_closed q = true).

Lemma batch_step_sound scratch to_send now st q nd b lo :
  length scratch = pdu_buf_len cfg → rex_ok (st_rex st) → 0 ≤ lo →
  lo + length (ry_items q) ≤ sc_total_blocks cfg →
  (∀ (i : nat) item, ry_items q !! i = Some item → pdu_ready cfg (lo + i) item) → batch_ok b →
  ∃ r, batch_step cfg scratch to_send now st q nd b = Done r ∧
    ∀ st' q' nd' b', r = Some (st', q', nd', b') →
      rex_ok (st_rex st') ∧ st_target_bps st' = st_target_bps st ∧ st_done st' = st_done st ∧
      batch_ok b' ∧ ry_closed q' = ry_closed q ∧
      (nd' = nd ∧ pass_taken lo q q' b b' ∨ pass_other nd q q' nd' b b').
Proof.
  intros Hsc Hrex Hlo Htot Hitems [Hm Hb]. unfold batch_step. destruct (to_send <=? bt_built b); [by exists None|].
  destruct (pop_retransmit st) as [[seq|] st1] eqn:Ep.
  - destruct (pop_retransmit_spec st seq st1 Hrex Ep) as (Hrex1 & Hu & _).
    assert (st_done st1 = st_done st ∧ st_target_bps st1 = st_target_bps st) as [Hd Ht].
    { revert Ep. unfold pop_retransmit. destruct (pq_pop _) as [[??]|]; [|done]. by intros [= _ <-]. }
    destruct (fill_retransmit_spec cfg Hok scratch seq Hsc Hu) as (r & -> & Hr & _). cbn [mbind outcome_bind].
    destruct r as [[buf n]|].
    + destruct (Hr _ eq_refl) as (Hl & Hn & blk & Hc & Hblk). cbn [fst snd] in *.
      destruct (attach_tick_spec cfg st1 buf n now seq blk Hn Hc) as (st2 & buf2 & -> & Hl2 & Hc2 & Hrx & Hdn & Htg & _).
      cbn [mbind outcome_bind]. rewrite buf_slice_done by lia. cbn [mbind outcome_bind]. rewrite drop_0, Nat.sub_0_r.
      eexists. split; [done|]. intros st' q' nd' b' [= <- <- <- <-]. rewrite Hrx. split_and!; try done; try congruence.
      * split; [|done]. simpl. apply Forall_app. split; [done|]. constructor; [|done].
        split; [by exists seq, blk|rewrite length_take; lia].
      * right. split; [done|]. split; [done|]. split; [by eexists|by left].
    + eexists. split; [done|]. intros st' q' nd' b' [= <- <- <- <-]. split_and!; try done.
      right. split; [done|]. split; [done|]. split; [exists []; by rewrite app_nil_r|by left].
  - apply pop_retransmit_none in Ep as [-> _]. destruct nd; [by exists None|].
    destruct (ry_items q) as [|[buf n] items] eqn:Ei.
    + destruct (ry_closed q) eqn:Ec; eexists; (split; [done|]); intros st' q' nd' b' [= <- <- <- <-];
        (split_and!; try done); right; (split; [done|]); (split; [done|]);
        (split; [exists []; simpl; by rewrite app_nil_r|]); [by right|by left].
    + destruct (Hitems O _ eq_refl) as (Hl & Hn & Hc). rewrite Z.add_0_r in Hc. cbn [fst snd] in *.
      destruct (attach_tick_spec cfg st buf n now lo _ Hn Hc) as (st2 & buf2 & -> & Hl2 & Hc2 & Hrx & Hdn & Htg & _).
      cbn [mbind outcome_bind]. rewrite buf_slice_done by lia. cbn [mbind outcome_bind]. rewrite drop_0, Nat.sub_0_r.
      eexists. split; [done|]. intros st' q' nd' b' [= <- <- <- <-]. rewrite Hrx. split_and!; try done.
      * pose proof (total_blocks_small cfg Hok). simpl in Htot. split; simpl.
        -- apply Forall_app. split; [done|]. constructor; [|done]. split; [|rewrite length_take; lia].
           exists lo, (src_block cfg lo). split; [unfold is_uint; lia|]. split; [done|apply src_block_bytes; [done|lia]].
        -- apply Forall_app. split; [done|]. constructor; [congruence|done].
      * left. split; [done|]. eexists (buf, n), buf2, (take n buf2). by rewrite Ei.
Qed.

(** ** Every step keeps it *)

Lemma prefetch_steps_inv s s' : ssys_inv s →
  (∃ seq buf free, ss_pre s = PWant seq ∧ ss_free s = buf :: free ∧
     s' = mkSSys (ss_st s) free (ss_q s) (PHave seq buf) (ss_pacing s) (ss_pacer s) (ss_wire s) (ss_fins s)) ∨
  (∃ seq, ss_pre s = PWant seq ∧
     s' = mkSSys (ss_st s) (ss_free s) (mkReadyQueue (ry_items (ss_q s)) true) (PGone seq)
            (ss_pacing s) (ss_pacer s) (ss_wire s) (ss_fins s)) ∨
  (∃ seq buf item, ss_pre s = PHave seq buf ∧ prefetch_block cfg buf seq = Done (Some item) ∧
     s' = mkSSys (ss_st s) (ss_free s) (ss_q s) (PSend seq item) (ss_pacing s) (ss_pacer s) (ss_wire s) (ss_fins s)) →
  ssys_inv s'.
Proof.
  intros []. unfold taken in *. intros [(seq & buf & free & Hp & Hf & ->)|[(seq & Hp & ->)|(seq & buf & item & Hp & Hb & ->)]];
    rewrite Hp in *; cbn [pre_next pre_held is_gone] in *.
  - rewrite Hf in *. apply Forall_cons in sv_free0 as [Hl Hf']. simpl length in *.
    split; unfold taken; cbn [ss_st ss_free ss_q ss_pre ss_pacing ss_pacer ss_wire ss_fins pre_next pre_held is_gone];
      try done; lia.
  - split; unfold taken; cbn [ss_st ss_free ss_q ss_pre ss_pacing ss_pacer ss_wire ss_fins pre_next pre_held is_gone
      ry_items ry_closed]; try done; try lia. intros Hnd. split; [|done]. by apply sv_new_done0.
  - destruct sv_pre0 as [Hs Hl]. destruct (prefetch_block_spec cfg Hok buf seq Hl) as (it & E & Hr); [lia|].
    rewrite Hb in E. injection E as ->.
    split; unfold taken; cbn [ss_st ss_free ss_q ss_pre ss_pacing ss_pacer ss_wire ss_fins pre_next pre_held is_gone];
      try done; lia.
Qed.

Lemma publish_inv s seq item : ssys_inv s → ss_pre s = PSend seq item →
  let last := sc_total_blocks cfg <=? seq + 1 in
  ssys_inv (mkSSys (ss_st s) (ss_free s) (mkReadyQueue (ry_items (ss_q s) ++ [item]) last)
              (if last then PGone (seq + 1) else PWant (seq + 1)) (ss_pacing s) (ss_pacer s) (ss_wire s) (ss_fins s)).
Proof.
  intros [] Hp last. unfold taken in *. rewrite Hp in *. cbn [pre_next pre_held is_gone] in *. destruct sv_pre0 as [Hs Hr].
  assert (pre_next (if last then PGone (seq + 1) else PWant (seq + 1)) = seq + 1) as En by (by destruct last).
  split; unfold taken; cbn [ss_st ss_free ss_q ss_pre ss_pacing ss_pacer ss_wire ss_fins ry_items ry_closed];
    rewrite ?En, ?length_app; simpl length; try done.
  - lia.
  - intros i it. destruct (Nat.lt_ge_cases i (length (ry_items (ss_q s)))) as [Hi|Hi].
    + rewrite lookup_app_l by done. intros E. apply sv_items0 in E.
      by replace (seq + 1 - (length (ry_items (ss_q s)) + 1)%nat + i) with (seq - length (ry_items (ss_q s)) + i) by lia.
    + rewrite lookup_app_r by done. intros E. destruct (i - length (ry_items (ss_q s)))%nat as [|k] eqn:Ek; [|done].
      injection E as <-. by replace (_ + i) with seq by lia.
  - unfold last. destruct (Z.leb_spec (sc_total_blocks cfg) (seq + 1)); [done|lia].
  - by destruct last.
  - replace (pre_held _) with 0 by (by destruct last). lia.
  - intros q Hq. apply sv_sent0. lia.
  - intros Hnd. destruct (sv_new_done0 Hnd) as [_ ?]. done.
  - intros Hf. destruct (sv_fins0 Hf) as [Hnd _]. destruct (sv_new_done0 Hnd) as [_ ?]. done.
Qed.

(** Steps that change only the state and the pacer between batches. *)
Lemma between_inv s st pc p : ssys_inv s → batch_of (ss_pacing s) = batch_empty → batch_of pc = batch_empty →
  rex_ok (st_rex st) → 0 ≤ st_target_bps st → pacer_ok p → pc_new_done p = pc_new_done (ss_pacer s) →
  ssys_inv (mkSSys st (ss_free s) (ss_q s) (ss_pre s) pc p (ss_wire s) (ss_fins s)).
Proof.
  intros [] Hb Hb' Hr Ht Hp Hnd. rewrite Hb in *.
  split; unfold taken in *; cbn [ss_st ss_free ss_q ss_pre ss_pacing ss_pacer ss_wire ss_fins]; rewrite ?Hb', ?Hnd; done.
Qed.

Lemma pacing_inv_build s to_send b scratch now st q nd b' :
  ssys_inv s → ss_pacing s = Building to_send b → length scratch = pdu_buf_len cfg →
  batch_step cfg scratch to_send now (ss_st s) (ss_q s) (pc_new_done (ss_pacer s)) b = Done (Some (st, q, nd, b')) →
  ssys_inv (mkSSys st (ss_free s) q (ss_pre s) (Building to_send b') (set_new_done nd (ss_pacer s)) (ss_wire s) (ss_fins s)).
Proof.
  intros [] Hpc Hsc E. rewrite Hpc in *. cbn [batch_of] in *.
  destruct (batch_step_sound scratch to_send now (ss_st s) (ss_q s) (pc_new_done (ss_pacer s)) b (taken s))
    as (r & E' & Hr); [done|done|lia|unfold taken; lia|done|done|].
  rewrite E in E'. apply Done_inj in E' as <-.
  destruct (Hr _ _ _ _ eq_refl) as (Hrex & Htg & _ & Hbok & Hcl & [(-> & item & buf & msg & Ei & Eb & Em & Hc)|
    (-> & Eb & (extra & Em) & Hnd)]).
  - assert (pc_new_done (ss_pacer s) = false) as Hnd.
    { destruct (pc_new_done (ss_pacer s)); [|done]. destruct (sv_new_done0 eq_refl) as [E0 _]. by rewrite Ei in E0. }
    unfold taken in *. rewrite Ei in *. simpl length in *.
    split; unfold taken; cbn [ss_st ss_free ss_q ss_pre ss_pacing ss_pacer ss_wire ss_fins batch_of set_new_done pc_new_done];
      rewrite ?Htg, ?Hcl, ?Eb, ?Em, ?Hnd, ?length_app; simpl length; try done; try lia.
    + intros i it Hi. specialize (sv_items0 (S i) it Hi).
      by replace (pre_next (ss_pre s) - length (ry_items q) + i) with
        (pre_next (ss_pre s) - S (length (ry_items q)) + S i) by lia.
    + intros j Hj. destruct (decide (j = pre_next (ss_pre s) - S (length (ry_items q)))) as [->|Hne].
      * exists msg. split; [|done]. rewrite app_assoc. apply elem_of_app. right. by apply list_elem_of_singleton.
      * destruct (sv_sent0 j) as (pkt & Hin & Hcar); [lia|]. exists pkt. split; [|done].
        rewrite app_assoc. apply elem_of_app. by left.
    + intros Hf. destruct (sv_fins0 Hf) as [? _]. congruence.
  - split; unfold taken in *; cbn [ss_st ss_free ss_q ss_pre ss_pacing ss_pacer ss_wire ss_fins batch_of set_new_done pc_new_done];
      rewrite ?Htg, ?Eb; try done.
    + intros j Hj. destruct (sv_sent0 j Hj) as (pkt & Hin & Hcar). exists pkt. split; [|done].
      rewrite Em, app_assoc. apply elem_of_app. by left.
    + intros ->. destruct Hnd as [Hnd|[He Hcl']]; [by apply sv_new_done0|]. split; [done|]. by rewrite <-sv_closed0.
    + intros Hf. destruct (sv_fins0 Hf) as [Hnd0 Hall]. split; [|done]. destruct Hnd as [->|[He Hcl']]; [done|].
      destruct nd; [done|]. exfalso. revert E. unfold batch_step. destruct (to_send <=? bt_built b); [done|].
      destruct (pop_retransmit (ss_st s)) as [[sq|] st1]; rewrite Hnd0; [|done].
      destruct (fill_retransmit cfg scratch sq) as [[[bf n]|]|]; cbn [mbind outcome_bind]; [|by intros [=]|done].
      destruct (attach_tick st1 bf now) as [[??]|]; cbn [mbind outcome_bind]; [|done].
      destruct (buf_slice _ _ _); cbn [mbind outcome_bind]; [by intros [=]|done].
Qed.

Lemma pacing_inv_flush s to_send b :
  ssys_inv s → ss_pacing s = Building to_send b →
  ssys_inv (mkSSys (pace_flush b (ss_st s)) (ss_free s ++ bt_new_bufs b) (ss_q s) (ss_pre s) AtFin (ss_pacer s)
              (ss_wire s ++ bt_msgs b) (ss_fins s)).
Proof.
  intros [] Hpc. rewrite Hpc in *. cbn [batch_of] in *. destruct sv_batch0 as [Hm Hb].
  split; unfold taken in *; cbn [ss_st ss_free ss_q ss_pre ss_pacing ss_pacer ss_wire ss_fins batch_of pace_flush st_rex
    st_target_bps bt_new_bufs bt_msgs batch_empty]; rewrite ?length_app, ?app_nil_r; simpl length; try done.
  - by apply Forall_app.
  - lia.
  - by apply Forall_app.
  - intros Hf. destruct (sv_fins0 Hf) as [Hnd Hall]. split; [done|]. intros j Hj. destruct (Hall j Hj) as (pkt & Hin & Hc).
    exists pkt. split; [|done]. apply elem_of_app. by left.
Qed.

Lemma pacing_inv_fin s d :
  ssys_inv s → ss_pacing s = AtFin →
  ssys_inv (mkSSys (ss_st s) (ss_free s) (ss_q s) (ss_pre s) AtTop (set_deadline d (ss_pacer s)) (ss_wire s)
              (if pc_new_done (ss_pacer s) && (rex_len (ss_st s) =? 0)%nat then S (ss_fins s) else ss_fins s)).
Proof.
  intros Hinv Hpc. pose proof Hinv as []. rewrite Hpc in *. cbn [batch_of] in *.
  split; unfold taken in *; cbn [ss_st ss_free ss_q ss_pre ss_pacing ss_pacer ss_wire ss_fins batch_of set_deadline pc_new_done];
    try done. destruct (pc_new_done (ss_pacer s)) eqn:End; cbn [andb]; [|by intros Hf; destruct (sv_fins0 Hf)].
  intros _. split; [done|]. destruct (sv_new_done0 eq_refl) as [Ei _]. intros j Hj.
  destruct (sv_sent0 j) as (pkt & Hin & Hc); [rewrite Ei; simpl; lia|]. exists pkt. split; [|done].
  cbn [bt_msgs batch_empty] in Hin. by rewrite app_nil_r in Hin.
Qed.

Context (Hconf : 0 ≤ sc_configured_target_bps cfg).

Lemma step_inv s s' : ssys_inv s → step cfg s s' → ssys_inv s'.
Proof.
  intros Hinv Hstep.
  destruct Hstep as [s seq buf free stop control Hp Hf _|s seq stop control Hp _|s seq buf r Hp Hr|s seq item Hp _ last|
    s r stop control Hpc _ _|s stop control now Hpc _ _|s stop control st p Hpc _ _ Hb|
    s to_send b scratch now st q nd b' Hpc Hsc Hb|s to_send b scratch now Hpc _ _|s now d sleep Hpc _|
    s control buf addr t2 st Hf].
  - apply (prefetch_steps_inv s); [done|]. left. by exists seq, buf, free.
  - apply (prefetch_steps_inv s); [done|]. right; left. by exists seq.
  - pose proof (sv_pre s Hinv) as Hpre. rewrite Hp in Hpre. destruct Hpre as [Hs Hl].
    pose proof (sv_range s Hinv) as Hrg. unfold taken in Hrg. rewrite Hp in Hrg. cbn [pre_next] in Hrg.
    destruct (prefetch_block_spec cfg Hok buf seq Hl) as (item & E & _); [lia|]. rewrite Hr in E. injection E as ->.
    apply (prefetch_steps_inv s); [done|]. right; right. by exists seq, buf, item.
  - by apply publish_inv.
  - apply between_inv; try done; try apply Hinv. by rewrite Hpc.
  - apply between_inv; try done; try apply Hinv. by rewrite Hpc.
  - injection Hb as <- <-. pose proof (sv_target s Hinv).
    apply between_inv; try done; try apply Hinv; [by rewrite Hpc|..].
    + destruct (_ =? _); [apply Hinv|]. apply pacer_rate_ok; [apply Hok|]. by apply effective_rate_nonneg.
    + destruct (_ =? _); [done|]. unfold pacer_rate. by destruct (recompute _ _) as [[??]?].
  - by eapply pacing_inv_build.
  - by eapply pacing_inv_flush.
  - by eapply pacing_inv_fin.
  - pose proof (feedback_step_target cfg control buf addr t2 (ss_st s) st Hconf (sv_target s Hinv) Hf) as Ht.
    destruct (feedback_step_spec cfg control buf addr t2 (ss_st s) (sv_rex s Hinv)) as (st' & E & Hrex & _).
    rewrite Hf in E. apply Done_inj in E as <-. destruct Hinv.
    by split; unfold taken in *; cbn [ss_st ss_free ss_q ss_pre ss_pacing ss_pacer ss_wire ss_fins].
Qed.

Lemma reachable_inv st0 now s :
  rex_ok (st_rex st0) → 0 ≤ st_target_bps st0 → reachable cfg st0 now s → ssys_inv s.
Proof. intros Hr Ht. induction 1; [by apply ssys_inv_init|by eapply step_inv]. Qed.

(** ** Undisturbed, the pacing loop sends a published block *)

Lemma batch_loop_steps st0 t0 scratch to_send now free pre wire fins : length scratch = pdu_buf_len cfg →
  ∀ fuel st q p b st' q' nd' b',
  batch_loop fuel cfg scratch to_send now st q (pc_new_done p) b = Done (Some (st', q', nd', b')) →
  reachable cfg st0 t0 (mkSSys st free q pre (Building to_send b) p wire fins) →
  ∃ p', reachable cfg st0 t0 (mkSSys (pace_flush b' st') (free ++ bt_new_bufs b') q' pre AtFin p'
                                (wire ++ bt_msgs b') fins) ∧ pc_new_done p' = nd'.
Proof.
  intros Hsc. induction fuel as [|fuel IH]; intros st q p b st' q' nd' b'; cbn [batch_loop];
    destruct (batch_step cfg scratch to_send now st q (pc_new_done p) b) as [r|] eqn:E; [|done| |done];
    destruct r as [[[[st1 q1] nd1] b1]|]; cbn [mbind outcome_bind]; [done| | |].
  1, 3: intros [= <- <- <- <-] Hreach; exists p; split; [|done]; eapply reach_step; [exact Hreach|];
    by eapply (step_flush cfg (mkSSys st free q pre (Building to_send b) p wire fins) to_send b scratch now).
  intros El Hreach. apply (IH st1 q1 (set_new_done nd1 p) b1 st' q' nd' b' El).
  eapply reach_step; [exact Hreach|].
  by eapply (step_build cfg (mkSSys st free q pre (Building to_send b) p wire fins) to_send b scratch now st1 q1 nd1 b1).
Qed.

(** A quiet state at block [k]: everything below it sent, nothing queued. *)
Record quiet (k : Z) (s : SSys) : Prop := {
  qt_pre : ss_pre s = if sc_total_blocks cfg <=? k then PGone k else PWant k;
  qt_items : ry_items (ss_q s) = [];
  qt_pacing : ss_pacing s = AtTop;
  qt_done : st_done (ss_st s) = false;
  qt_heap : rq_heap (st_rex (ss_st s)) = [];
  qt_new : k < sc_total_blocks cfg → pc_new_done (ss_pacer s) = false
}.

(** Extends a run by a step. *)
Tactic Notation "run" hyp(R) "with" tactic3(c) :=
  eapply reach_step in R; [|c]; cbn [ss_st ss_free ss_q ss_pre ss_pacing ss_pacer ss_wire ss_fins] in R.

(** The prefetch thread publishes a block. *)
Lemma publish_run st0 t0 k s : ssys_inv s → reachable cfg st0 t0 s → quiet k s → 0 ≤ k < sc_total_blocks cfg →
  ∃ free item, pdu_ready cfg k item ∧
    reachable cfg st0 t0 (mkSSys (ss_st s) free (mkReadyQueue [item] (sc_total_blocks cfg <=? k + 1))
      (if sc_total_blocks cfg <=? k + 1 then PGone (k + 1) else PWant (k + 1)) AtTop (ss_pacer s) (ss_wire s) (ss_fins s)).
Proof.
  intros Hinv Hreach [] Hk. rewrite (proj2 (Z.leb_gt _ _)) in qt_pre0 by lia.
  pose proof (sv_pool s Hinv) as Hpool. rewrite qt_pre0, qt_items0, qt_pacing0 in Hpool. cbn in Hpool. unfold POOL in Hpool.
  pose proof (sv_free s Hinv) as Hf. destruct (ss_free s) as [|buf free] eqn:Ef; [simpl in Hpool; lia|].
  apply Forall_cons in Hf as [Hl _]. destruct (prefetch_block_spec cfg Hok buf k Hl Hk) as (item & Eb & Hr).
  exists free, item. split; [done|].
  pose proof Hreach as R. run R with (eapply step_take with (stop := false) (control := None); [done|done|by rewrite qt_done0]).
  run R with (eapply step_read with (r := Some item); [done|exact Eb]).
  run R with (eapply step_publish; [done|cbn; by rewrite qt_items0]). by rewrite qt_items0, qt_pacing0 in R.
Qed.

(** An iteration of the pacing loop sends it. *)
Lemma send_run st0 t0 k s item :
  ssys_inv s → reachable cfg st0 t0 s → 0 ≤ k < sc_total_blocks cfg →
  ss_pre s = (if sc_total_blocks cfg <=? k + 1 then PGone (k + 1) else PWant (k + 1)) →
  ry_items (ss_q s) = [item] → ss_pacing s = AtTop → st_done (ss_st s) = false →
  rq_heap (st_rex (ss_st s)) = [] → pc_new_done (ss_pacer s) = false →
  ∃ s', reachable cfg st0 t0 s' ∧ quiet (k + 1) s'.
Proof.
  intros Hinv Hreach Hk Hpre Hitems Hpc Hd Hheap Hnd.
  destruct (pace_begin (sc_block_size cfg) None (ss_st s) (ss_pacer s)) as [st1 p1] eqn:Eb.
  pose proof Hreach as R.
  run R with (eapply step_begin with (stop := false) (control := None); [exact Hpc|by rewrite Hd|done|exact Eb]).
  assert (pc_new_done p1 = false ∧ pacer_ok p1) as [Hnd1 Hp1].
  { injection Eb as _ <-. destruct (_ =? _); [split; [done|apply Hinv]|]. split.
    - unfold pacer_rate. by destruct (recompute _ _) as [[??]?].
    - apply pacer_rate_ok; [apply Hok|apply Hinv]. }
  assert (st_rex st1 = st_rex (ss_st s) ∧ st_done st1 = false) as [Hr1 Hd1] by (by injection Eb as <- _).
  set (scratch := replicate (pdu_buf_len cfg) x00).
  assert (length scratch = pdu_buf_len cfg) as Hsc by apply length_replicate.
  set (to_send := f64_to_u64 (pc_batch p1)) in *. assert (1 ≤ to_send ≤ MAX_BATCH) as Hts by exact Hp1.
  pose proof (sv_items s Hinv O item) as Hit. unfold taken in Hit. rewrite Hitems in Hit.
  assert (queue_ok cfg (ss_q s)) as Hq.
  { unfold queue_ok. rewrite Hitems. constructor; [|done]. eexists. split; [|by apply Hit].
    replace (pre_next (ss_pre s)) with (k + 1) by (rewrite Hpre; by case_match). simpl. lia. }
  assert (rex_ok (st_rex st1)) as Hrex1 by (rewrite Hr1; apply Hinv).
  assert (rq_heap (st_rex st1) = []) as Hheap1 by congruence.
  destruct (batch_new_ok cfg Hok scratch to_send t0 st1 (ss_q s) st1 (ss_q s) batch_empty item [])
    as (st2 & q2 & b2 & E2 & Hinv2 & Hlen2 & Hbuilt); [simpl; lia|apply batch_inv_init; (done || lia)|done|done|].
  assert (ry_items q2 = [] ∧ ry_closed q2 = ry_closed (ss_q s)) as [Hq2 Hcl2].
  { revert E2. unfold batch_step. rewrite (proj2 (Z.leb_gt _ _)) by (simpl; lia). unfold pop_retransmit. rewrite Hheap1.
    cbn [pq_pop]. rewrite Hitems. destruct item as [buf n]. destruct (attach_tick st1 buf t0) as [[??]|]; [|done].
    cbn [mbind outcome_bind]. destruct (buf_slice _ _ _); [|done]. cbn [mbind outcome_bind]. by intros [= _ <- _]. }
  assert (rq_heap (st_rex st2) = []) as Hheap2.
  { destruct (bi_pop _ _ _ _ _ _ _ Hinv2) as [j ->]. by rewrite Hheap1, drop_nil. }
  run R with (eapply step_build; [done|exact Hsc|cbn; rewrite Hnd1; exact E2]).
  assert (batch_inv cfg to_send st2 q2 st2 q2 b2) as Hinv2'.
  { pose proof (bi_items _ _ _ _ _ _ _ Hinv2) as Hit2. destruct Hinv2.
    split; try done; [by exists O|by rewrite Hq2, drop_nil|by intros; left|by left|].
    intros Hn0. by rewrite Hn0, Hq2, Hitems in Hit2. }
  destruct (batch_loop_spec cfg Hok scratch to_send t0 st2 q2 (rex_len st2 + Z.to_nat to_send + 1) st2 q2 false b2)
    as (st3 & q3 & nd3 & b3 & E3 & Hinv3 & _ & Hnd3); [done|done|simpl in Hbuilt; lia|].
  destruct (batch_loop_steps st0 t0 scratch to_send t0 (ss_free s) (ss_pre s) (ss_wire s) (ss_fins s) Hsc
              _ st2 q2 (set_new_done false p1) b2 st3 q3 nd3 b3 E3 R) as (p3 & R3 & Hnd').
  destruct (next_deadline p3 (f64_of_Z t0)) as [d sl] eqn:Ed.
  run R3 with (eapply step_fin; [done|exact Ed]). eexists. split; [exact R3|].
  assert (ry_items q3 = []) as Hq3 by (rewrite (bi_items _ _ _ _ _ _ _ Hinv3), Hq2; apply drop_nil).
  split; cbn [ss_st ss_free ss_q ss_pre ss_pacing ss_pacer ss_wire ss_fins pace_flush set_deadline pc_new_done st_done st_rex];
    try done.
  - rewrite (bi_done _ _ _ _ _ _ _ Hinv3), (bi_done _ _ _ _ _ _ _ Hinv2). done.
  - destruct (bi_pop _ _ _ _ _ _ _ Hinv3) as [j ->]. by rewrite Hheap2, drop_nil.
  - intros Hlt. rewrite Hnd'. destruct nd3; [|done]. exfalso.
    assert (ry_closed (ss_q s) = false) as Hcl.
    { rewrite (sv_closed s Hinv), Hpre. by rewrite (proj2 (Z.leb_gt _ _)) by lia. }
    destruct Hnd3 as [_ Hnd3]. destruct (Hnd3 eq_refl) as [[? _]|[_ ?]]; congruence.
Qed.

Lemma quiet_init st now : st_done st = false → rq_heap (st_rex st) = [] → quiet 0 (ssys_init cfg st now).
Proof.
  intros Hd Hh. split; try done. intros _. cbn [ssys_init ss_pacer]. unfold pacer_init, pacer_rate.
  by destruct (recompute _ _) as [[??]?].
Qed.

Lemma quiet_run st0 t0 : rex_ok (st_rex st0) → 0 ≤ st_target_bps st0 → st_done st0 = false → rq_heap (st_rex st0) = [] →
  ∀ k : nat, k ≤ sc_total_blocks cfg → ∃ s, reachable cfg st0 t0 s ∧ quiet k s.
Proof.
  intros Hr Ht Hd Hh. induction k as [|k IH]; intros Hk.
  { eexists. split; [apply reach_init|by apply quiet_init]. }
  destruct IH as (s & R & Hq); [lia|]. pose proof (reachable_inv st0 t0 s Hr Ht R) as Hinv.
  destruct (publish_run st0 t0 k s Hinv R Hq) as (free & item & _ & R1); [lia|]. pose proof Hq as [].
  pose proof (reachable_inv st0 t0 _ Hr Ht R1) as Hinv1. replace (Z.of_nat (S k)) with (k + 1) by lia.
  eapply (send_run st0 t0 k _ item Hinv1 R1); try done; [lia|]. apply qt_new0. lia.
Qed.

(** After the last block the next iteration announces FIN. *)
Lemma fin_run st0 t0 s : ssys_inv s → reachable cfg st0 t0 s → quiet (sc_total_blocks cfg) s →
  ∃ s', reachable cfg st0 t0 s' ∧ ss_wire s' = ss_wire s ∧ (0 < ss_fins s')%nat.
Proof.
  intros Hinv Hreach []. rewrite Z.leb_refl in qt_pre0.
  assert (ry_closed (ss_q s) = true) as Hcl by (by rewrite (sv_closed s Hinv), qt_pre0).
  destruct (pace_begin (sc_block_size cfg) None (ss_st s) (ss_pacer s)) as [st1 p1] eqn:Eb.
  pose proof Hreach as R.
  run R with (eapply step_begin with (stop := false) (control := None); [exact qt_pacing0|by rewrite qt_done0|done|exact Eb]).
  assert (pacer_ok p1) as Hp1.
  { injection Eb as _ <-. destruct (_ =? _); [apply Hinv|]. apply pacer_rate_ok; [apply Hok|apply Hinv]. }
  assert (rq_heap (st_rex st1) = []) as Hh by (by injection Eb as <- _).
  set (to_send := f64_to_u64 (pc_batch p1)) in *. assert (1 ≤ to_send ≤ MAX_BATCH) as Hts by exact Hp1.
  set (scratch := replicate (pdu_buf_len cfg) x00).
  assert (length scratch = pdu_buf_len cfg) as Hsc by apply length_replicate.
  assert (∀ nd, batch_step cfg scratch to_send t0 st1 (ss_q s) nd batch_empty =
            Done (if nd then None else Some (st1, ss_q s, true, batch_empty))) as Hstep.
  { intros nd. unfold batch_step. rewrite (proj2 (Z.leb_gt _ _)) by (simpl; lia). unfold pop_retransmit. rewrite Hh.
    cbn [pq_pop]. rewrite qt_items0, Hcl. by destruct nd. }
  assert (∃ p2, pc_new_done p2 = true ∧
    reachable cfg st0 t0 (mkSSys st1 (ss_free s) (ss_q s) (ss_pre s) (Building to_send batch_empty) p2 (ss_wire s) (ss_fins s)))
    as (p2 & Hnd2 & R2).
  { destruct (pc_new_done p1) eqn:End; [by exists p1|]. exists (set_new_done true p1). split; [done|].
    run R with (eapply step_build; [done|exact Hsc|cbn; rewrite End; exact (Hstep false)]). exact R. }
  run R2 with (eapply step_flush; [done|exact Hsc|cbn; rewrite Hnd2; exact (Hstep true)]).
  destruct (next_deadline p2 (f64_of_Z t0)) as [d sl] eqn:Ed.
  run R2 with (eapply step_fin; [done|exact Ed]). rewrite Hnd2 in R2.
  assert (rex_len (pace_flush batch_empty st1) = O) as Hlen by (unfold rex_len; cbn [pace_flush st_rex]; by rewrite Hh).
  rewrite Hlen in R2. cbn [andb Nat.eqb] in R2.
  eexists. split; [exact R2|]. cbn [ss_wire ss_fins bt_msgs batch_empty]. rewrite app_nil_r. split; [done|lia].
Qed.

Lemma covers_run st0 now : rex_ok (st_rex st0) → 0 ≤ st_target_bps st0 → st_done st0 = false → rq_heap (st_rex st0) = [] →
  ∃ s, reachable cfg st0 now s ∧ (0 < ss_fins s)%nat ∧
    ∀ seq, 0 ≤ seq < sc_total_blocks cfg → ∃ pkt, pkt ∈ ss_wire s ∧ carries_block pkt seq.
Proof.
  intros Hr Ht Hd Hh. pose proof (total_blocks_small cfg Hok).
  destruct (quiet_run st0 now Hr Ht Hd Hh (Z.to_nat (sc_total_blocks cfg))) as (s & R & Hq); [lia|].
  rewrite Z2Nat.id in Hq by lia. pose proof (reachable_inv st0 now s Hr Ht R) as Hinv.
  destruct (fin_run st0 now s Hinv R Hq) as (s' & R' & Hw & Hf). exists s'. split; [done|]. split; [done|].
  intros seq Hs. destruct (sv_sent s Hinv seq) as (pkt & Hin & Hc).
  - unfold taken. rewrite (qt_pre _ _ Hq), (qt_items _ _ Hq), Z.leb_refl. simpl. lia.
  - exists pkt. rewrite (qt_pacing _ _ Hq) in Hin. cbn [batch_of bt_msgs batch_empty] in Hin. rewrite app_nil_r in Hin.
    by rewrite Hw.
Qed.
End invariant.

(** ** Properties *)

(** C7: the sender's threads together.  In every state they can reach, whatever their
    interleaving, the datagrams received and the controls: every datagram given to the socket
    is a PDU that fits a buffer and carries the file's bytes at the offset of the number it
    names (its block, when the file has it); the 4096 pooled buffers are each free, queued, in
    the prefetch thread's hands or in the current batch, none lost or duplicated, so neither channel ever blocks its producer and a prefetch thread without a
    buffer finds the missing ones queued or in the current batch; no thread's next operation
    panics; and once a FIN has been announced every block of the file has been sent, unless the
    prefetch thread was told to stop before the end. *)
Theorem sender_threads_sound {Src} `{!BlockSource Src, !BlockSourceLaws Src}
    `{!Crc32c, !Crc32cLaws, !AeadCrate, !AeadLaws} (cfg : SendCfg Src) st0 now s :
  send_cfg_ok cfg → 0 ≤ sc_configured_target_bps cfg → rex_ok (st_rex st0) → 0 ≤ st_target_bps st0 →
  reachable cfg st0 now s →
  Forall (wire_ok cfg) (ss_wire s) ∧
  (∀ seq item, ss_pre s = PSend seq item → Z.of_nat (length (ry_items (ss_q s))) < POOL) ∧
  Z.of_nat (length (ss_free s)) + length (ry_items (ss_q s)) + pre_held (ss_pre s) +
    length (bt_new_bufs (batch_of (ss_pacing s))) = POOL ∧
  Forall (λ buf, length buf = pdu_buf_len cfg) (ss_free s ++ bt_new_bufs (batch_of (ss_pacing s))) ∧
  (∀ seq, ss_pre s = PWant seq → ss_free s = [] →
     ry_items (ss_q s) ≠ [] ∨ bt_new_bufs (batch_of (ss_pacing s)) ≠ []) ∧
  (∀ seq buf, ss_pre s = PHave seq buf → ∃ item, prefetch_block cfg buf seq = Done (Some item)) ∧
  (∀ to_send b scratch t, ss_pacing s = Building to_send b → length scratch = pdu_buf_len cfg →
     is_done (batch_step cfg scratch to_send t (ss_st s) (ss_q s) (pc_new_done (ss_pacer s)) b)) ∧
  (∀ control buf addr t2, is_done (feedback_step cfg control buf addr t2 (ss_st s))) ∧
  ((0 < ss_fins s)%nat →
     (∀ seq, 0 ≤ seq < sc_total_blocks cfg → ∃ pkt, pkt ∈ ss_wire s ∧ carries_block cfg pkt seq) ∨
     ∃ n, ss_pre s = PGone n ∧ n < sc_total_blocks cfg).
Proof.
  intros Hok Hconf Hr Ht Hreach. pose proof (reachable_inv cfg Hok Hconf st0 now s Hr Ht Hreach) as Hinv.
  pose proof Hinv as []. split_and!.
  - done.
  - intros seq item Hp. rewrite Hp in sv_pool0. cbn [pre_held] in sv_pool0. lia.
  - done.
  - apply Forall_app. split; [done|apply sv_batch0].
  - intros seq Hp Hf. rewrite Hp, Hf in sv_pool0. cbn [pre_held length] in sv_pool0. unfold POOL in sv_pool0.
    destruct (ry_items (ss_q s)); [|by left]. right. intros Hb. rewrite Hb in sv_pool0. simpl in sv_pool0. lia.
  - intros seq buf Hp. unfold taken in *. rewrite Hp in *. cbn [pre_next] in *. destruct sv_pre0 as [Hs Hl].
    destruct (prefetch_block_spec cfg Hok buf seq Hl) as (item & E & _); [lia|]. by exists item.
  - intros to_send b scratch t Hpc Hsc. rewrite Hpc in *. cbn [batch_of] in *.
    destruct (batch_step_sound cfg Hok scratch to_send t (ss_st s) (ss_q s) (pc_new_done (ss_pacer s)) b (taken s))
      as (r & E & _); [done|done|lia|unfold taken; lia|done|done|]. by exists r.
  - intros control buf addr t2. destruct (feedback_step_spec cfg control buf addr t2 (ss_st s) sv_rex0) as (st' & E & _).
    by exists st'.
  - intros Hf. destruct (sv_fins0 Hf) as [Hnd Hall]. destruct (sv_new_done0 Hnd) as [_ Hg].
    destruct (ss_pre s) as [| | |n] eqn:Ep; try done. cbn [pre_next] in *.
    destruct (Z.lt_ge_cases n (sc_total_blocks cfg)); [right; by exists n|left].
    intros seq Hs. apply Hall. lia.
Qed.

(** Result: the sender gets the whole file onto the wire.  From its start there is a run of the
    threads after which every block of the file has been handed to the socket in a PDU that
    carries it and FIN has been announced: the exchange of pooled buffers between the prefetch
    thread and the pacing loop never runs dry, however many blocks there are. *)
Theorem sender_covers_file {Src} `{!BlockSource Src, !BlockSourceLaws Src}
    `{!Crc32c, !Crc32cLaws, !AeadCrate, !AeadLaws} (cfg : SendCfg Src) st0 now :
  send_cfg_ok cfg → 0 ≤ sc_configured_target_bps cfg → rex_ok (st_rex st0) → 0 ≤ st_target_bps st0 →
  st_done st0 = false → rq_heap (st_rex st0) = [] →
  ∃ s, reachable cfg st0 now s ∧ (0 < ss_fins s)%nat ∧
    ∀ seq, 0 ≤ seq < sc_total_blocks cfg → ∃ pkt, pkt ∈ ss_wire s ∧ carries_block cfg pkt seq.
Proof. intros. by apply covers_run. Qed.

Lemma sender_covers_file_witness :
  ∃ s, @reachable _ _ castagnoli toy_aead demo_send (sender_init fixed_cfg None 7 3 3 stats_default) 1000 s ∧
    (0 < ss_fins s)%nat.
Proof.
  destruct (@sender_covers_file _ _ _ castagnoli castagnoli_laws toy_aead toy_aead_laws demo_send
              (sender_init fixed_cfg None 7 3 3 stats_default) 1000 demo_send_ok) as (s & R & Hf & _);
    [done|by apply rex_default_ok|vm_compute; done|done|done|]. exact (ex_intro _ s (conj R Hf)).
Defined.

Lemma sender_threads_sound_witness :
  ∃ s, @reachable _ _ castagnoli toy_aead demo_send (sender_init fixed_cfg None 7 3 3 stats_default) 1000 s ∧
    ss_wire s ≠ [] ∧ Forall (@wire_ok _ _ _ castagnoli toy_aead demo_send) (ss_wire s).
Proof.
  destruct (@covers_run _ _ _ castagnoli castagnoli_laws toy_aead toy_aead_laws demo_send demo_send_ok ltac:(done)
              (sender_init fixed_cfg None 7 3 3 stats_default) 1000) as (s & R & _ & Hall);
    [by apply rex_default_ok|vm_compute; done|done|done|].
  destruct (@sender_threads_sound _ _ _ castagnoli castagnoli_laws toy_aead toy_aead_laws demo_send
              (sender_init fixed_cfg None 7 3 3 stats_default) 1000 s demo_send_ok) as (Hw & _);
    [done|by apply rex_default_ok|vm_compute; done|exact R|].
  destruct (Hall 0) as (pkt & Hin & _); [done|].
  exists s. split; [exact R|]. split; [|exact Hw]. intros E. rewrite E in Hin. by apply not_elem_of_nil in Hin.
Defined.
