(* ===== verification/Receiver.v ===== *)
(** * Receiving data plane (src/receiver.rs)

    [RecvConfig] holds what a transfer fixes, [RecvState] the mutable fields of [Shared]
    (the sink, the two bitmaps, the staging area and its pool, the estimators, the
    counters).  A packet is handled in three stages that other threads can run between:
    [accept_packet] (validation up to the bit of the received bitmap), [place] (staging or direct
    write) and [publish] (the ready bit); [handle_packet] is their composition.  The
    flusher's loop body and the feedback thread's iteration are one definition each; the
    clock is an argument wherever it is read.  Buffers of the staging pool are cleared
    before use, so the pool is the number of free ones. *)

From stdpp Require Import pretty.
From S2P Require Import Prelude Float64 Errors Net Protocol Rate PQueue LossTracker Stats Runtime BlockIO Crypto.

Record RecvConfig := mkRecvConfig {
  rg_file_size : Z;
  rg_block_size : Z;
  rg_total_blocks : Z;
  rg_session : Z;
  rg_expected_peer_ip : option IpAddr;
  rg_read_workers : Z;
  rg_rate : RateConfig;
  rg_crypto : option AeadBox;
  rg_feedback_interval_us : Z;
  rg_net_tick_interval_us : Z;
  rg_max_nacks_per_pdu : nat;
  rg_warm_start : option RateWarmStart;
  rg_start_peer : option SocketAddr
}.

Record RttState := mkRttState { rt_path : RttEstimator; rt_net : RttEstimator; rt_rate : RateController }.

Record RecvState (K : Type) := mkRecvState {
  rs_sink : K;
  rs_bm : RecvBitmap;
  rs_ready_bm : RecvBitmap;
  rs_max_seen : Z;
  rs_seen_any : bool;
  rs_all_sent : bool;
  rs_flushed_blocks : Z;
  rs_done : bool;
  rs_peer : option SocketAddr;
  rs_rtt : RttState;
  rs_stage : gmap Z (list byte);
  rs_free : nat;
  rs_flush_signal : bool;
  rs_stats : Stats
}.
Arguments mkRecvState {K}.
Arguments rs_sink {K}.
Arguments rs_bm {K}.
Arguments rs_ready_bm {K}.
Arguments rs_max_seen {K}.
Arguments rs_seen_any {K}.
Arguments rs_all_sent {K}.
Arguments rs_flushed_blocks {K}.
Arguments rs_done {K}.
Arguments rs_peer {K}.
Arguments rs_rtt {K}.
Arguments rs_stage {K}.
Arguments rs_free {K}.
Arguments rs_flush_signal {K}.
Arguments rs_stats {K}.

(** ** Construction *)

(** What a build and its machine fix: the number of processors, and whether the target is
    Windows.  A number alone stands for a machine of another system. *)
Record Host := mkHost { ho_cpus : Z; ho_windows : bool }.
Definition other_host (cpus : Z) : Host := mkHost cpus false.
Coercion other_host : Z >-> Host.

(** The defaults [new_receiver] fills in; Windows has a single ingest worker. *)
Definition recv_defaults (num_cpu : Host) (c : RecvConfig) : RecvConfig :=
  mkRecvConfig (rg_file_size c) (rg_block_size c) (rg_total_blocks c) (rg_session c)
    (rg_expected_peer_ip c)
    (if ho_windows num_cpu then 1 else if rg_read_workers c =? 0 then ho_cpus num_cpu else rg_read_workers c)
    (rg_rate c) (rg_crypto c)
    (if rg_feedback_interval_us c =? 0 then 5000 else rg_feedback_interval_us c)
    (if rg_net_tick_interval_us c =? 0 then 10000 else rg_net_tick_interval_us c)
    (if (rg_max_nacks_per_pdu c =? 0)%nat then 90%nat else rg_max_nacks_per_pdu c)
    (rg_warm_start c) (rg_start_peer c).

(** The depth of the staging pool: about 96 MiB of blocks; a zero block size panics. *)
Definition stage_depth (c : RecvConfig) : outcome Z :=
  if rg_block_size c =? 0 then Panic else
  let depth := Z.shiftl 96 20 / rg_block_size c in
  let depth := if (0 <? rg_total_blocks c) && (rg_total_blocks c <? depth) then rg_total_blocks c else depth in
  Done (if depth <? 1 then 1 else depth).

(** The estimators, the controller and the gauges a warm start seeds. *)
Definition warm_receiver (rate_cfg : RateConfig) (warm : option RateWarmStart) (stats : Stats)
    : outcome (RttState * Stats) :=
  let rate := rate_new rate_cfg in
  match warm with
  | None => Done (mkRttState rtt_new rtt_new rate, stats)
  | Some w =>
      rate ← set_rate rate (rw_rate_bps w);
      let net := seed rtt_new (rw_srtt_net_us w) (rw_base_rtt_us w) in
      let stats := if 0 <? rw_rate_bps w then
                     stats_store target_rate_bps
                       (if rc_max_bps rate_cfg =? 0 then rw_rate_bps w
                        else Z.min (rw_rate_bps w) (rc_max_bps rate_cfg)) stats
                   else stats in
      let stats := stats_store srtt_net_us (rw_srtt_net_us w) stats in
      let stats := stats_store base_rtt_us (rw_base_rtt_us w) stats in
      Done (mkRttState rtt_new net rate, stats)
  end.

(** [new_receiver]. *)
Definition new_receiver {K} (num_cpu : Host) (cfg : RecvConfig) (sink : K) (stats : Stats)
    : outcome (RecvConfig * RecvState K) :=
  let cfg := recv_defaults num_cpu cfg in
  depth ← stage_depth cfg;
  let stats := stats_store total_bytes (i64_as_u64 (rg_file_size cfg)) stats in
  let stats := stats_store total_blocks (rg_total_blocks cfg) stats in
  let stats := stats_store block_size (rg_block_size cfg) stats in
  let stats := stats_store target_rate_bps (rc_target_bps (rg_rate cfg)) stats in
  '(rtt, stats) ← warm_receiver (rg_rate cfg) (rg_warm_start cfg) stats;
  Done (cfg, mkRecvState sink (bitmap_new (rg_total_blocks cfg)) (bitmap_new (rg_total_blocks cfg))
               0 false false 0 false None rtt ∅ (Z.to_nat depth) false stats).

(** ** Field updates *)

Section updates.
Context {K : Type}.
Implicit Types st : RecvState K.

Definition upd_stats (f : Stats → Stats) st : RecvState K :=
  mkRecvState (rs_sink st) (rs_bm st) (rs_ready_bm st) (rs_max_seen st) (rs_seen_any st) (rs_all_sent st)
    (rs_flushed_blocks st) (rs_done st) (rs_peer st) (rs_rtt st) (rs_stage st) (rs_free st)
    (rs_flush_signal st) (f (rs_stats st)).
Definition set_peer (p : option SocketAddr) st : RecvState K :=
  mkRecvState (rs_sink st) (rs_bm st) (rs_ready_bm st) (rs_max_seen st) (rs_seen_any st) (rs_all_sent st)
    (rs_flushed_blocks st) (rs_done st) p (rs_rtt st) (rs_stage st) (rs_free st)
    (rs_flush_signal st) (rs_stats st).
Definition set_rtt (r : RttState) st : RecvState K :=
  mkRecvState (rs_sink st) (rs_bm st) (rs_ready_bm st) (rs_max_seen st) (rs_seen_any st) (rs_all_sent st)
    (rs_flushed_blocks st) (rs_done st) (rs_peer st) r (rs_stage st) (rs_free st)
    (rs_flush_signal st) (rs_stats st).
Definition set_all_sent st : RecvState K :=
  mkRecvState (rs_sink st) (rs_bm st) (rs_ready_bm st) (rs_max_seen st) (rs_seen_any st) true
    (rs_flushed_blocks st) (rs_done st) (rs_peer st) (rs_rtt st) (rs_stage st) (rs_free st)
    (rs_flush_signal st) (rs_stats st).
Definition set_seen (seq : Z) st : RecvState K :=
  mkRecvState (rs_sink st) (rs_bm st) (rs_ready_bm st) (Z.max (rs_max_seen st) seq) true (rs_all_sent st)
    (rs_flushed_blocks st) (rs_done st) (rs_peer st) (rs_rtt st) (rs_stage st) (rs_free st)
    (rs_flush_signal st) (rs_stats st).
Definition set_bm (bm : RecvBitmap) st : RecvState K :=
  mkRecvState (rs_sink st) bm (rs_ready_bm st) (rs_max_seen st) (rs_seen_any st) (rs_all_sent st)
    (rs_flushed_blocks st) (rs_done st) (rs_peer st) (rs_rtt st) (rs_stage st) (rs_free st)
    (rs_flush_signal st) (rs_stats st).
Definition set_ready (bm : RecvBitmap) st : RecvState K :=
  mkRecvState (rs_sink st) (rs_bm st) bm (rs_max_seen st) (rs_seen_any st) (rs_all_sent st)
    (rs_flushed_blocks st) (rs_done st) (rs_peer st) (rs_rtt st) (rs_stage st) (rs_free st)
    (rs_flush_signal st) (rs_stats st).
Definition set_stage (stage : gmap Z (list byte)) (free : nat) st : RecvState K :=
  mkRecvState (rs_sink st) (rs_bm st) (rs_ready_bm st) (rs_max_seen st) (rs_seen_any st) (rs_all_sent st)
    (rs_flushed_blocks st) (rs_done st) (rs_peer st) (rs_rtt st) stage free
    (rs_flush_signal st) (rs_stats st).
Definition set_sink (k : K) st : RecvState K :=
  mkRecvState k (rs_bm st) (rs_ready_bm st) (rs_max_seen st) (rs_seen_any st) (rs_all_sent st)
    (rs_flushed_blocks st) (rs_done st) (rs_peer st) (rs_rtt st) (rs_stage st) (rs_free st)
    (rs_flush_signal st) (rs_stats st).
Definition set_flushed (n : Z) st : RecvState K :=
  mkRecvState (rs_sink st) (rs_bm st) (rs_ready_bm st) (rs_max_seen st) (rs_seen_any st) (rs_all_sent st)
    n (rs_done st) (rs_peer st) (rs_rtt st) (rs_stage st) (rs_free st)
    (rs_flush_signal st) (rs_stats st).
Definition set_done st : RecvState K :=
  mkRecvState (rs_sink st) (rs_bm st) (rs_ready_bm st) (rs_max_seen st) (rs_seen_any st) (rs_all_sent st)
    (rs_flushed_blocks st) true (rs_peer st) (rs_rtt st) (rs_stage st) (rs_free st)
    (rs_flush_signal st) (rs_stats st).

(** [signal_flush]: [try_send] on a channel of capacity one. *)
Definition signal_flush st : RecvState K :=
  mkRecvState (rs_sink st) (rs_bm st) (rs_ready_bm st) (rs_max_seen st) (rs_seen_any st) (rs_all_sent st)
    (rs_flushed_blocks st) (rs_done st) (rs_peer st) (rs_rtt st) (rs_stage st) (rs_free st)
    true (rs_stats st).
End updates.

(** ** Packets *)

Definition add_stat {K} (f : StatField) (n : Z) (st : RecvState K) : RecvState K :=
  upd_stats (stats_fetch_add f n) st.

(** [learn_peer]. *)
Definition learn_peer {K} (cfg : RecvConfig) (addr : option SocketAddr) (st : RecvState K)
    : RecvState K * bool :=
  match addr with
  | None => (st, bool_decide (is_Some (rs_peer st)))
  | Some a =>
      if foreign_ip (rg_expected_peer_ip cfg) a then (st, false) else
      match rs_peer st with
      | Some existing => (st, bool_decide (existing = a))
      | None => (set_peer (Some a) st, true)
      end
  end.

(** What the checks of [handle_packet] make of a datagram, before any state is touched. *)
Inductive verdict :=
| Ignored
| Corrupt
| Fin
| Block (h : DataHeader) (payload : list byte).

Definition open_packet `{!Crc32c, !AeadCrate} (cfg : RecvConfig) (pkt : list byte) (addr : option SocketAddr)
    : outcome verdict :=
  if pdu_type pkt =? PDU_FIN then
    r ← decode_fin pkt;
    match r with
    | None => Done Ignored
    | Some (session, total) =>
        if negb (session =? rg_session cfg) || negb (total =? rg_total_blocks cfg)
        then Done Ignored else Done Fin
    end
  else if negb (pdu_type pkt =? PDU_DATA) then Done Ignored else
  r ← decode_data_header pkt;
  match r with
  | None => Done Ignored
  | Some h =>
      if negb (dh_session h =? rg_session cfg) then Done Ignored else
      if rg_total_blocks cfg <=? dh_block_seq h then Done Ignored else
      if rg_block_size cfg <? dh_payload_len h then Done Ignored else
      if match addr with Some a => foreign_ip (rg_expected_peer_ip cfg) a | None => false end
      then Done Ignored else
      let plen := Z.to_nat (dh_payload_len h) in
      match rg_crypto cfg with
      | Some crypto =>
          tail ← buf_slice pkt DATA_HEADER_SIZE (length pkt);
          r ← open_data crypto tail plen (dh_block_seq h);
          match r with
          | None => Done Corrupt
          | Some (tail, n) =>
              pkt ← buf_write pkt DATA_HEADER_SIZE tail;
              payload ← buf_slice pkt DATA_HEADER_SIZE (DATA_HEADER_SIZE + n);
              Done (Block h payload)
          end
      | None =>
          if (length pkt <? DATA_HEADER_SIZE + plen)%nat then Done Ignored else
          payload ← buf_slice pkt DATA_HEADER_SIZE (DATA_HEADER_SIZE + plen);
          Done (if crc32c payload =? dh_payload_crc h then Block h payload else Corrupt)
      end
  end.

(** [apply_tick] at time [now]. *)
Definition apply_tick {K} (h : DataHeader) (now : Z) (st : RecvState K) : outcome (RecvState K) :=
  let smp := f64_sub (f64_of_Z now) (f64_of_Z (dh_echo_tick h)) in
  if negb (f64_le f64_zero smp && f64_le smp (f64_of_Z 60000000)) then Done st else
  let r := rs_rtt st in
  if negb (Z.land (dh_flags h) FLAG_TICK_N =? 0) then
    '(net, _) ← sample (rt_net r) smp;
    Done (upd_stats (λ s, stats_store base_rtt_us (f64_to_u64 (re_min_rtt net))
                            (stats_store srtt_net_us (f64_to_u64 (re_srtt net)) s))
            (set_rtt (mkRttState (rt_path r) net (rt_rate r)) st))
  else
    '(path, rto) ← sample (rt_path r) smp;
    Done (upd_stats (λ s, stats_store rto_us (f64_to_u64 rto)
                            (stats_store srtt_path_us (f64_to_u64 (re_srtt path)) s))
            (set_rtt (mkRttState path (rt_net r) (rt_rate r)) st)).

(** [handle_packet] up to and including the received bitmap: the new state, and the block
    to store when this packet is the first to bring it. *)
Definition accept_packet {K} `{!Crc32c, !AeadCrate} (cfg : RecvConfig) (pkt : list byte) (addr : option SocketAddr)
    (now : Z) (st : RecvState K) : outcome (RecvState K * option (Z * list byte)) :=
  v ← open_packet cfg pkt addr;
  match v with
  | Ignored => Done (st, None)
  | Corrupt => Done (add_stat corrupt_recv 1 st, None)
  | Fin =>
      let '(st, ok) := learn_peer cfg addr st in
      Done (if ok then set_all_sent st else st, None)
  | Block h payload =>
      let '(st, ok) := learn_peer cfg addr st in
      if negb ok then Done (st, None) else
      st ← (if negb (Z.land (dh_flags h) FLAG_HAS_TICK =? 0) then apply_tick h now st else Done st);
      let st := set_seen (dh_block_seq h) st in
      '(bm, first) ← set_and_test (rs_bm st) (dh_block_seq h);
      let st := set_bm bm st in
      if negb first then Done (add_stat dup_recv 1 st, None) else
      Done (add_stat blocks_written 1 (add_stat payload_recv (length payload) st),
            Some (dh_block_seq h, payload))
  end.

Section storing.
Context {K : Type} `{!BlockSink K}.
Implicit Types st : RecvState K.

(** Staging in a pooled buffer, or the direct write when the pool is exhausted; whether
    the block may be published. *)
Definition place (cfg : RecvConfig) (seq : Z) (payload : list byte) st : RecvState K * bool :=
  match rs_free st with
  | S free => (set_stage (<[seq := payload]> (rs_stage st)) free st, true)
  | O =>
      match sink_write_all_at (rs_sink st) (wrap 64 (seq * rg_block_size cfg)) payload with
      | (k, Ok _) => (set_sink k st, true)
      | (k, Err _) => (set_sink k st, false)
      end
  end.

(** The ready bit, then the flusher's signal. *)
Definition publish (seq : Z) st : outcome (RecvState K) :=
  '(bm, _) ← set_and_test (rs_ready_bm st) seq;
  Done (signal_flush (set_ready bm st)).

Definition handle_packet `{!Crc32c, !AeadCrate} (cfg : RecvConfig) (pkt : list byte)
    (addr : option SocketAddr) (now : Z) st : outcome (RecvState K) :=
  '(st, blk) ← accept_packet cfg pkt addr now st;
  match blk with
  | None => Done st
  | Some (seq, payload) =>
      let '(st, stored) := place cfg seq payload st in
      if stored then publish seq st else Done st
  end.

(** One datagram of a batch in [ingest_loop]. *)
Definition ingest `{!Crc32c, !AeadCrate} (cfg : RecvConfig) (pkt : list byte)
    (addr : option SocketAddr) (now : Z) st : outcome (RecvState K) :=
  match pkt with
  | [] => Done st
  | _ => handle_packet cfg pkt addr now
           (add_stat bytes_recv (length pkt) (add_stat packets_recv 1 st))
  end.

(** ** Flusher *)

(** The parts of a pass of the inner loop of [flusher_loop] at [front]: look at the ready
    bit and take the staged buffer; write it (an error is logged) and return the buffer to
    the pool; move the frontier. *)
Definition flush_take (front : Z) st : outcome (option (RecvState K * option (list byte))) :=
  b ← is_set (rs_ready_bm st) front;
  if b : bool then
    Done (Some (set_stage (delete front (rs_stage st)) (rs_free st) st, rs_stage st !! front))
  else Done None.
Definition flush_write (cfg : RecvConfig) (front : Z) (staged : option (list byte)) st : RecvState K :=
  match staged with
  | None => st
  | Some buf =>
      let '(k, _) := sink_write_all_at (rs_sink st) (wrap 64 (front * rg_block_size cfg)) buf in
      set_stage (rs_stage st) (S (rs_free st)) (set_sink k st)
  end.
Definition flush_advance (front : Z) st : RecvState K := set_flushed (front + 1) st.

(** The inner loop of [flusher_loop], [n] blocks short of the end: the frontier it stops at. *)
Fixpoint flush_pass (n : nat) (cfg : RecvConfig) (front : Z) st : outcome (RecvState K * Z) :=
  if front <? rg_total_blocks cfg then
    match n with
    | O => Done (st, front)
    | S n' =>
        r ← flush_take front st;
        match r with
        | None => Done (st, front)
        | Some (st, staged) =>
            flush_pass n' cfg (front + 1) (flush_advance front (flush_write cfg front staged st))
        end
    end
  else Done (st, front).

End storing.

(** ** Writeback *)

(** [i64] arithmetic of [writeback_loop]. *)
Definition i64_wrap (z : Z) : Z := u64_as_i64 (wrap 64 z).

(** A turn of [writeback_loop]: the range handed to [sync_range], and the new prefix. *)
Definition writeback_turn {K} (cfg : RecvConfig) (prefix : Z) (st : RecvState K) : option (Z * Z) * Z :=
  let bs := u64_as_i64 (rg_block_size cfg) in
  let hi_w := i64_wrap (i64_wrap (u64_as_i64 (rs_max_seen st) + 1) * bs) in
  let hi_w := if rg_file_size cfg <? hi_w then rg_file_size cfg else hi_w in
  let range := if prefix <? hi_w then Some (prefix, i64_wrap (hi_w - prefix)) else None in
  let c := i64_wrap (u64_as_i64 (rs_stats st hi_contig) * bs) in
  (range, if prefix <? c then c else prefix).

(** ** Feedback *)

(** The variables of [feedback_loop]. *)
Record FeedbackState := mkFeedbackState {
  fb_scanner : LossScanner;
  fb_buf : list byte;
  fb_last_net_tick : Z;
  fb_done_sends : Z
}.

Definition feedback_init (cfg : RecvConfig) : FeedbackState :=
  mkFeedbackState (scanner_new (rg_total_blocks cfg))
    (replicate (FEEDBACK_HEADER_SIZE + rg_max_nacks_per_pdu cfg * NACK_ENTRY_SIZE) x00) 0 0.

(** The NACKs the sender can serve in an interval. *)
Definition nack_cap (cfg : RecvConfig) (target : Z) : nat :=
  let block_bits := f64_mul (f64_of_Z (wrap 64 (rg_block_size cfg + DATA_HEADER_SIZE))) (f64_of_Z 8) in
  if (0 <? target) && f64_gt block_bits f64_zero then
    let per_interval :=
      f64_to_u64 (f64_mul (f64_div (f64_of_Z target) block_bits)
                    (f64_div (f64_of_Z (rg_feedback_interval_us cfg)) (f64_of_Z 1000000))) in
    let per_interval := if per_interval <? 1 then 1 else per_interval in
    if per_interval <? rg_max_nacks_per_pdu cfg then Z.to_nat per_interval else rg_max_nacks_per_pdu cfg
  else rg_max_nacks_per_pdu cfg.

(** What an iteration ends with: no peer is known yet, or a FEEDBACK PDU for the peer. *)
Inductive feedback_result (K : Type) :=
| FbNoPeer (st : RecvState K) (fb : FeedbackState)
| FbSent (st : RecvState K) (fb : FeedbackState) (peer : SocketAddr) (pdu : list byte).
Arguments FbNoPeer {K}.
Arguments FbSent {K}.

(** One iteration of [feedback_loop] at time [t0]; [t1] and [t2] are the later clock reads,
    [send_ok] is what the socket answers.  [None] is the bound of [collect_due]. *)
Definition feedback_iter {K} (cfg : RecvConfig) (control : option TransferControl) (t0 t1 t2 : Z)
    (send_ok : bool) (st : RecvState K) (fb : FeedbackState) : outcome (option (feedback_result K)) :=
  let now := f64_of_Z t0 in
  let r := rs_rtt st in
  path_rto ← rto (rt_path r);
  '(rate, target) ← rate_update (rt_rate r) (re_srtt (rt_net r)) (re_min_rtt (rt_net r));
  let target := effective_rate control target in
  let st := upd_stats (stats_store target_rate_bps target)
              (set_rtt (mkRttState (rt_path r) (rt_net r) rate) st) in
  scanner ← advance (rs_bm st) (fb_scanner fb);
  let hi := ls_hi_contig scanner in
  let ms := if rs_all_sent st && (0 <? rg_total_blocks cfg) then rg_total_blocks cfg - 1 else rs_max_seen st in
  scanner ← (if rs_seen_any st || rs_all_sent st then scan_holes (rs_bm st) scanner ms now path_rto
             else Done scanner);
  let complete := rs_all_sent st && (rs_flushed_blocks st =? rg_total_blocks cfg) in
  let st := upd_stats (λ s, stats_store rex_queue_len (pending_count scanner) (stats_store hi_contig hi s)) st in
  match rs_peer st with
  | None => Done (Some (FbNoPeer st (mkFeedbackState scanner (fb_buf fb) (fb_last_net_tick fb) (fb_done_sends fb))))
  | Some peer =>
      r ← collect_due (rs_bm st) scanner now path_rto (nack_cap cfg target);
      match r with
      | None => Done None
      | Some (due, scanner) =>
          let is_net := rg_net_tick_interval_us cfg <=? wrap 64 (t1 - fb_last_net_tick fb) in
          let last_net_tick := if is_net then t1 else fb_last_net_tick fb in
          let nacks := (λ s, mkNackEntry s (u64_as_i64 s)) <$> due in
          '(buf, nn) ← encode_feedback (fb_buf fb)
                          (mkFeedbackHeader is_net 0 (rg_session cfg) t2 target hi complete) nacks;
          pdu ← buf_slice buf 0 nn;
          let st := if send_ok && negb (length nacks =? 0)%nat
                    then add_stat nacks_sent (length nacks) st else st in
          let done_sends := if complete then fb_done_sends fb + 1 else fb_done_sends fb in
          let st := if complete && (8 <=? done_sends) then set_done st else st in
          Done (Some (FbSent st (mkFeedbackState scanner buf last_net_tick done_sends) peer pdu))
      end
  end.

(** *** The stages of an iteration *)

(** The parts of an iteration other threads can run between.  The lock of the estimators, with
    the gauge of the target; the advance of the contiguous mark; the scan, from what was read
    of the bitmap and the marks; the completion test; the gauges; the request, for a known
    peer; what the socket's answer counts; and the count of done reports. *)
Definition fb_rates {K} (control : option TransferControl) (st : RecvState K) : outcome (RecvState K * f64 * Z) :=
  let r := rs_rtt st in
  path_rto ← rto (rt_path r);
  '(rate, target) ← rate_update (rt_rate r) (re_srtt (rt_net r)) (re_min_rtt (rt_net r));
  let target := effective_rate control target in
  Done (upd_stats (stats_store target_rate_bps target) (set_rtt (mkRttState (rt_path r) (rt_net r) rate) st),
        path_rto, target).

Definition set_scanner (s : LossScanner) (fb : FeedbackState) : FeedbackState :=
  mkFeedbackState s (fb_buf fb) (fb_last_net_tick fb) (fb_done_sends fb).

Definition fb_advance (bm : RecvBitmap) (fb : FeedbackState) : outcome FeedbackState :=
  scanner ← advance bm (fb_scanner fb); Done (set_scanner scanner fb).

(** The last block to scan, from the loads of [max_seen] and [all_sent]. *)
Definition scan_limit (cfg : RecvConfig) (max_seen : Z) (all_sent : bool) : Z :=
  if all_sent && (0 <? rg_total_blocks cfg) then rg_total_blocks cfg - 1 else max_seen.

Definition fb_scan (bm : RecvBitmap) (seen : bool) (ms : Z) (now path_rto : f64) (fb : FeedbackState)
    : outcome FeedbackState :=
  scanner ← (if seen then scan_holes bm (fb_scanner fb) ms now path_rto else Done (fb_scanner fb));
  Done (set_scanner scanner fb).

Definition fb_complete (cfg : RecvConfig) (all_sent : bool) (flushed : Z) : bool :=
  all_sent && (flushed =? rg_total_blocks cfg).

Definition fb_mark {K} (hi : Z) (fb : FeedbackState) (st : RecvState K) : RecvState K :=
  upd_stats (λ s, stats_store rex_queue_len (pending_count (fb_scanner fb)) (stats_store hi_contig hi s)) st.

(** The FEEDBACK PDU, and the number of its NACKs. *)
Definition fb_request (cfg : RecvConfig) (bm : RecvBitmap) (now path_rto : f64) (target hi : Z) (complete : bool)
    (t1 t2 : Z) (fb : FeedbackState) : outcome (option (FeedbackState * nat * list byte)) :=
  r ← collect_due bm (fb_scanner fb) now path_rto (nack_cap cfg target);
  match r with
  | None => Done None
  | Some (due, scanner) =>
      let is_net := rg_net_tick_interval_us cfg <=? wrap 64 (t1 - fb_last_net_tick fb) in
      let last_net_tick := if is_net then t1 else fb_last_net_tick fb in
      let nacks := (λ s, mkNackEntry s (u64_as_i64 s)) <$> due in
      '(buf, nn) ← encode_feedback (fb_buf fb)
                      (mkFeedbackHeader is_net 0 (rg_session cfg) t2 target hi complete) nacks;
      pdu ← buf_slice buf 0 nn;
      Done (Some (mkFeedbackState scanner buf last_net_tick (fb_done_sends fb), length nacks, pdu))
  end.

Definition fb_sent {K} (send_ok : bool) (nacks : nat) (st : RecvState K) : RecvState K :=
  if send_ok && negb (nacks =? 0)%nat then add_stat nacks_sent nacks st else st.

(** The third component is whether the thread returns. *)
Definition fb_finish {K} (complete : bool) (st : RecvState K) (fb : FeedbackState)
    : RecvState K * FeedbackState * bool :=
  let done_sends := if complete then fb_done_sends fb + 1 else fb_done_sends fb in
  let fin := complete && (8 <=? done_sends) in
  (if fin then set_done st else st,
   mkFeedbackState (fb_scanner fb) (fb_buf fb) (fb_last_net_tick fb) done_sends, fin).

(** Run one after the other, the stages are the iteration. *)
Lemma feedback_iter_stages {K} cfg control t0 t1 t2 send_ok (st : RecvState K) fb :
  feedback_iter cfg control t0 t1 t2 send_ok st fb =
  (let now := f64_of_Z t0 in
   '(st, path_rto, target) ← fb_rates control st;
   fb ← fb_advance (rs_bm st) fb;
   let hi := ls_hi_contig (fb_scanner fb) in
   fb ← fb_scan (rs_bm st) (rs_seen_any st || rs_all_sent st) (scan_limit cfg (rs_max_seen st) (rs_all_sent st))
          now path_rto fb;
   let complete := fb_complete cfg (rs_all_sent st) (rs_flushed_blocks st) in
   let st := fb_mark hi fb st in
   match rs_peer st with
   | None => Done (Some (FbNoPeer st fb))
   | Some peer =>
       r ← fb_request cfg (rs_bm st) now path_rto target hi complete t1 t2 fb;
       match r with
       | None => Done None
       | Some (fb, n, pdu) =>
           let '(st, fb, _) := fb_finish complete (fb_sent send_ok n st) fb in
           Done (Some (FbSent st fb peer pdu))
       end
   end).
Proof.
  unfold feedback_iter, fb_rates, fb_advance, fb_scan, fb_request. destruct (rto _); [|done]. cbn [mbind outcome_bind].
  destruct (rate_update _ _ _) as [[rate target]|]; [|done]. cbn [mbind outcome_bind upd_stats set_rtt rs_bm].
  destruct (advance _ _) as [s1|]; [|done]. cbn [mbind outcome_bind set_scanner fb_scanner upd_stats set_rtt rs_bm rs_seen_any
    rs_all_sent rs_max_seen].
  unfold scan_limit. destruct (if _ || _ then _ else _) as [s2|]; [|done].
  cbn [mbind outcome_bind fb_mark upd_stats set_rtt rs_peer rs_bm set_scanner fb_scanner fb_buf fb_last_net_tick fb_done_sends].
  destruct (rs_peer st); [|done]. destruct (collect_due _ _ _ _ _) as [[[due s3]|]|]; [|done..].
  cbn [mbind outcome_bind]. unfold fb_complete. cbn [rs_all_sent rs_flushed_blocks].
  destruct (encode_feedback _ _ _) as [[buf nn]|]; [|done]. cbn [mbind outcome_bind].
  by destruct (buf_slice _ _ _).
Qed.

(** The result of [run] once its threads have ended. *)
Definition run_result {K} (cfg : RecvConfig) (st : RecvState K) : result unit io_error :=
  if negb (rs_stats st hi_contig =? rg_total_blocks cfg)
  then Err (io_other ("receiver stopped before completion (" +:+ pretty (rs_stats st hi_contig) +:+ "/" +:+
                      pretty (rg_total_blocks cfg) +:+ " blocks)"))
  else Ok ().

(** The START datagram of a client pull. *)
Definition start_datagram (cfg : RecvConfig) : outcome (list byte) :=
  '(b, n) ← encode_start (replicate 8 x00) (rg_session cfg);
  buf_slice b 0 n.

(** ** No packet panics the receiver *)

(** The bound on RTT samples in microseconds ([apply_tick] discards longer ones). *)
Definition RTT_BOUND : Z := 60000000.

(** What holds of a receiver between packets. *)
Record recv_ok {K} (cfg : RecvConfig) (st : RecvState K) : Prop := {
  ro_bm : wf_bitmap (rs_bm st);
  ro_total : rb_total (rs_bm st) = rg_total_blocks cfg;
  ro_ready : wf_bitmap (rs_ready_bm st);
  ro_ready_total : rb_total (rs_ready_bm st) = rg_total_blocks cfg;
  ro_path : est_ok RTT_BOUND (rt_path (rs_rtt st));
  ro_net : est_ok RTT_BOUND (rt_net (rs_rtt st))
}.

Section packets.
Context `{!Crc32c, !AeadCrate, !AeadLaws} {K : Type} `{!BlockSink K}.
Context (cfg : RecvConfig).
Implicit Types (st : RecvState K) (pkt : list byte) (addr : option SocketAddr).

(** A block that passes the checks is one of the transfer's, no longer than a block. *)
Definition block_ok (h : DataHeader) (payload : list byte) : Prop :=
  dh_session h = rg_session cfg ∧ 0 ≤ dh_block_seq h < rg_total_blocks cfg ∧
  is_u64 (dh_echo_tick h) ∧
  Z.of_nat (length payload) = dh_payload_len h ∧ dh_payload_len h ≤ rg_block_size cfg.

Lemma open_packet_spec pkt addr :
  ∃ v, open_packet cfg pkt addr = Done v ∧
    match v with Block h payload => block_ok h payload | _ => True end.
Proof.
  unfold open_packet. destruct (pdu_type pkt =? PDU_FIN).
  { destruct (decode_fin_total pkt) as (r & -> & _). cbn [mbind outcome_bind].
    destruct r as [[s t]|]; [destruct (_ || _)|]; by eexists. }
  destruct (negb (_ =? PDU_DATA)); [by eexists|].
  destruct (decode_data_header_total pkt) as (r & Ed & Hwf). rewrite Ed. cbn [mbind outcome_bind].
  destruct r as [h|]; [|by eexists]. destruct Hwf as (_ & Hp & _ & Hs & Ht & _).
  destruct (Z.eqb_spec (dh_session h) (rg_session cfg)) as [Hse|]; cbn [negb]; [|by eexists].
  destruct (Z.leb_spec (rg_total_blocks cfg) (dh_block_seq h)) as [|Hseq]; [by eexists|].
  destruct (Z.ltb_spec (rg_block_size cfg) (dh_payload_len h)) as [|Hbs]; [by eexists|].
  destruct (match addr with Some a => _ | None => _ end); [by eexists|].
  assert (DATA_HEADER_SIZE ≤ length pkt)%nat as Hl.
  { unfold decode_data_header in Ed. destruct (Nat.ltb_spec (length pkt) DATA_HEADER_SIZE); [done|lia]. }
  unfold is_uint in *. destruct (rg_crypto cfg) as [c|].
  - rewrite buf_slice_done by lia. cbn [mbind outcome_bind].
    rewrite (take_ge (drop _ _)) by (rewrite length_drop; lia).
    destruct (open_data_total c (drop DATA_HEADER_SIZE pkt) (Z.to_nat (dh_payload_len h)) (dh_block_seq h))
      as (r & -> & Hr). cbn [mbind outcome_bind]. destruct r as [[p n]|]; [|by eexists].
    destruct (Hr p n eq_refl) as (-> & Hpl & Hn). rewrite length_drop in *.
    rewrite buf_write_done by lia. cbn [mbind outcome_bind].
    rewrite buf_slice_done by (rewrite length_inserts; lia). cbn [mbind outcome_bind].
    eexists. split; [done|]. unfold block_ok. rewrite length_take, length_drop, length_inserts.
    unfold is_uint. lia.
  - destruct (Nat.ltb_spec (length pkt) (DATA_HEADER_SIZE + Z.to_nat (dh_payload_len h))); [by eexists|].
    rewrite buf_slice_done by lia. cbn [mbind outcome_bind].
    eexists. split; [done|]. destruct (_ =? _); [|done]. unfold block_ok. rewrite length_take, length_drop.
    unfold is_uint. lia.
Qed.

Lemma tick_sample_range (t e : f64) :
  f64_valid t → f64_valid e →
  f64_le f64_zero (f64_sub t e) && f64_le (f64_sub t e) (f64_of_Z RTT_BOUND) = true →
  f64_valid (f64_sub t e) ∧ f64_finite (f64_sub t e) ∧ f64_num (f64_sub t e) ≤ RTT_BOUND * 2 ^ 1074.
Proof.
  intros Vt Ve Hc. pose proof (f64_sub_valid t e Vt Ve) as Vs. set (x := f64_sub t e) in *. clearbody x.
  apply andb_true_iff in Hc as [Hlo Hhi].
  destruct (f64_of_Z_exact RTT_BOUND) as [Fb Eb]; [unfold RTT_BOUND; lia|].
  assert (f64_finite x) as Fx by (by destruct x as [|[]| |]).
  rewrite f64_le_num, Eb, Z.leb_le in Hhi by (done || apply f64_of_Z_valid). done.
Qed.

Lemma apply_tick_spec h now st :
  recv_ok cfg st →
  ∃ st', apply_tick h now st = Done st' ∧ recv_ok cfg st' ∧
    ∃ r s, st' = upd_stats s (set_rtt r st).
Proof.
  intros Hok. unfold apply_tick. change (f64_of_Z 60000000) with (f64_of_Z RTT_BOUND).
  destruct (_ && _) eqn:Hc; cbn [negb].
  2: { exists st. split; [done|]. split; [done|]. exists (rs_rtt st), id. by destruct st. }
  apply tick_sample_range in Hc as (Vx & Fx & Hx); [|apply f64_of_Z_valid..].
  set (x := f64_sub _ _) in *. clearbody x.
  assert (0 ≤ RTT_BOUND < 2 ^ 53) as HB by (unfold RTT_BOUND; lia).
  destruct (negb _).
  - destruct (sample_step RTT_BOUND (rt_net (rs_rtt st)) x HB (ro_net _ _ Hok) Vx Fx Hx)
      as (e & r & -> & He & _). cbn [mbind outcome_bind]. eexists. split; [done|].
    split; [destruct Hok; by split|by eexists _, _].
  - destruct (sample_step RTT_BOUND (rt_path (rs_rtt st)) x HB (ro_path _ _ Hok) Vx Fx Hx)
      as (e & r & -> & He & _). cbn [mbind outcome_bind]. eexists. split; [done|].
    split; [destruct Hok; by split|by eexists _, _].
Qed.

Lemma learn_peer_ok addr st :
  recv_ok cfg st → recv_ok cfg (learn_peer cfg addr st).1 ∧
  ∃ p, (learn_peer cfg addr st).1 = set_peer p st.
Proof.
  intros Hok. unfold learn_peer. destruct addr as [a|]; [destruct (foreign_ip _ _); [|destruct (rs_peer st) eqn:E]|];
    simpl; (split; [destruct Hok; by split|]); first [by exists (Some a) | exists (rs_peer st); by destruct st].
Qed.

(** What [accept_packet] leaves alone: everything that belongs to storing. *)
Definition same_store st st' : Prop :=
  rs_sink st' = rs_sink st ∧ rs_ready_bm st' = rs_ready_bm st ∧ rs_stage st' = rs_stage st ∧
  rs_free st' = rs_free st ∧ rs_flushed_blocks st' = rs_flushed_blocks st ∧ rs_done st' = rs_done st.

Lemma admit_spec pkt addr now st :
  recv_ok cfg st →
  ∃ st' r, accept_packet cfg pkt addr now st = Done (st', r) ∧ recv_ok cfg st' ∧ same_store st st' ∧
    (∀ j, 0 ≤ j → bit (rs_bm st') j = bool_decide (Some j = fst <$> r) || bit (rs_bm st) j) ∧
    (∀ seq payload, r = Some (seq, payload) →
       bit (rs_bm st) seq = false ∧
       ∃ h, open_packet cfg pkt addr = Done (Block h payload) ∧ block_ok h payload ∧ seq = dh_block_seq h).
Proof.
  intros Hok. unfold accept_packet. destruct (open_packet_spec pkt addr) as (v & -> & Hv). cbn [mbind outcome_bind].
  pose proof (learn_peer_ok addr st Hok) as [Hok1 [p Hp]].
  destruct v as [| | |h payload].
  - exists st, None. split; [done|]. split; [done|]. split; [by repeat split|done].
  - eexists _, None. split; [done|]. split; [destruct Hok; by split|]. split; [by repeat split|done].
  - destruct (learn_peer cfg addr st) as [st1 ok]. cbn [fst] in *. subst st1.
    eexists _, None. split; [done|]. destruct ok; (split; [destruct Hok; by split|]); (split; [by repeat split|done]).
  - destruct (learn_peer cfg addr st) as [st1 ok]. cbn [fst] in *.
    destruct ok; cbn [negb]. 2: { eexists _, None. split; [done|]. split; [done|]. subst st1. split; [by repeat split|done]. }
    assert (∃ st2, (if negb (Z.land (dh_flags h) FLAG_HAS_TICK =? 0) then apply_tick h now st1 else Done st1) = Done st2 ∧
              recv_ok cfg st2 ∧ ∃ r s, st2 = upd_stats s (set_rtt r st1)) as (st2 & -> & Hok2 & r & s & E2).
    { destruct (negb _); [by apply apply_tick_spec|]. exists st1. split; [done|]. split; [done|].
      exists (rs_rtt st1), id. by destruct st1. }
    cbn [mbind outcome_bind]. destruct Hv as (Hse & Hseq & Hrest).
    destruct (set_and_test_spec (rs_bm (set_seen (dh_block_seq h) st2)) (dh_block_seq h)) as (bm' & Eb & Hwf & Ht & Hb);
      [apply Hok2|simpl; by rewrite (ro_total _ _ Hok2)|].
    rewrite Eb. cbn [mbind outcome_bind]. simpl in Hb, Ht.
    assert (rs_bm st2 = rs_bm st) as Ebm by (by rewrite E2, Hp). rewrite Ebm in Hb, Ht.
    assert (recv_ok cfg (set_bm bm' (set_seen (dh_block_seq h) st2))) as Hok3.
    { destruct Hok2. split; simpl; try done. by rewrite Ht; destruct Hok. }
    assert (same_store st (set_bm bm' (set_seen (dh_block_seq h) st2))) as Hss.
    { rewrite E2, Hp. by repeat split. }
    simpl. rewrite Ebm. destruct (bit (rs_bm st) (dh_block_seq h)) eqn:Ebit; cbn [negb].
    + eexists _, None. split; [done|]. split; [destruct Hok3; by split|]. split; [exact Hss|].
      split; [|done]. simpl. intros j Hj. rewrite Hb by done. case_bool_decide; [by subst|done].
    + eexists _, _. split; [done|]. split; [destruct Hok3; by split|]. split; [exact Hss|]. split.
      * simpl. intros j Hj. rewrite Hb by done. do 2 case_bool_decide; naive_solver.
      * intros seq' payload' [= <- <-]. split; [done|]. exists h. split; [done|]. by split.
Qed.

(** A block that passes the checks, from the known peer, is in the received set afterwards. *)
Lemma admit_sets pkt addr now st st' r h payload :
  recv_ok cfg st → open_packet cfg pkt addr = Done (Block h payload) → (learn_peer cfg addr st).2 = true →
  accept_packet cfg pkt addr now st = Done (st', r) →
  bit (rs_bm st') (dh_block_seq h) = true ∧ rs_peer st' = rs_peer (learn_peer cfg addr st).1.
Proof.
  intros Hok Ho Hl. destruct (open_packet_spec pkt addr) as (v & E & Hv). rewrite Ho in E. apply Done_inj in E as <-.
  destruct Hv as (_ & Hseq & _). unfold accept_packet. rewrite Ho. cbn [mbind outcome_bind].
  pose proof (learn_peer_ok addr st Hok) as [Hok1 [p Hp]].
  destruct (learn_peer cfg addr st) as [st1 ok]. cbn [fst snd] in *. subst ok. cbn [negb].
  intros (st2 & E2 & E)%outcome_bind_done. apply outcome_bind_done in E as ([bm first] & Eb & E).
  assert (recv_ok cfg st2 ∧ rs_peer st2 = rs_peer st1) as [Hok2 Ep].
  { destruct (negb _); [|by apply Done_inj in E2 as <-].
    destruct (apply_tick_spec h now st1 Hok1) as (st3 & E3 & Hok3 & r3 & s3 & ->).
    rewrite E2 in E3. by apply Done_inj in E3 as ->. }
  destruct (set_and_test_spec (rs_bm (set_seen (dh_block_seq h) st2)) (dh_block_seq h)) as (bm' & Eb' & _ & _ & Hb);
    [apply Hok2|simpl; by rewrite (ro_total _ _ Hok2)|].
  rewrite Eb in Eb'. apply Done_inj in Eb'. injection Eb' as -> ->.
  destruct (negb (negb _)); apply Done_inj in E; injection E as <- <-; simpl;
    (split; [rewrite Hb by lia; by rewrite bool_decide_eq_true_2|done]).
Qed.

Lemma publish_spec seq st :
  recv_ok cfg st → 0 ≤ seq < rg_total_blocks cfg →
  ∃ bm', publish seq st = Done (signal_flush (set_ready bm' st)) ∧
    wf_bitmap bm' ∧ rb_total bm' = rg_total_blocks cfg ∧
    ∀ j, 0 ≤ j → bit bm' j = bool_decide (j = seq) || bit (rs_ready_bm st) j.
Proof.
  intros Hok Hs. unfold publish.
  destruct (set_and_test_spec (rs_ready_bm st) seq) as (bm' & -> & Hwf & Ht & Hb);
    [apply Hok|by rewrite (ro_ready_total _ _ Hok)|]. cbn [mbind outcome_bind].
  exists bm'. split; [done|]. split; [done|]. split; [|done]. rewrite Ht. apply Hok.
Qed.

Lemma place_ok seq payload st : recv_ok cfg st → recv_ok cfg (place cfg seq payload st).1.
Proof.
  intros []. unfold place. destruct (rs_free st); [|by split].
  destruct (sink_write_all_at _ _ _) as [k [u|e]]; by split.
Qed.

Lemma handle_packet_ok pkt addr now st :
  recv_ok cfg st → ∃ st', handle_packet cfg pkt addr now st = Done st' ∧ recv_ok cfg st'.
Proof.
  intros Hok. unfold handle_packet.
  destruct (admit_spec pkt addr now st Hok) as (st1 & r & -> & Hok1 & _ & _ & Hr). cbn [mbind outcome_bind].
  destruct r as [[seq payload]|]; [|by eexists].
  destruct (Hr seq payload eq_refl) as (_ & h & _ & (_ & Hseq & _) & ->).
  pose proof (place_ok (dh_block_seq h) payload st1 Hok1) as Hok2.
  destruct (place cfg (dh_block_seq h) payload st1) as [st2 []]; [|by eexists].
  destruct (publish_spec (dh_block_seq h) st2 Hok2 Hseq) as (bm' & -> & Hwf & Ht & _).
  eexists. split; [done|]. destruct Hok2. by split.
Qed.

(** How a packet changes the two bitmaps. *)
Lemma handle_packet_bits pkt addr now st st' :
  recv_ok cfg st → handle_packet cfg pkt addr now st = Done st' →
  (∀ j, 0 ≤ j → bit (rs_bm st) j = true → bit (rs_bm st') j = true) ∧
  (∀ j, 0 ≤ j → bit (rs_bm st') j = true → bit (rs_bm st) j = false →
     ∃ h payload, open_packet cfg pkt addr = Done (Block h payload) ∧ block_ok h payload ∧ dh_block_seq h = j) ∧
  (∀ j, 0 ≤ j → bit (rs_ready_bm st') j = true → bit (rs_ready_bm st) j = true ∨ bit (rs_bm st) j = false) ∧
  rs_flushed_blocks st' = rs_flushed_blocks st.
Proof.
  intros Hok. unfold handle_packet.
  destruct (admit_spec pkt addr now st Hok) as (st1 & r & -> & Hok1 & (_ & Hr1 & _ & _ & Hf1 & _) & Hb & Hr).
  cbn [mbind outcome_bind].
  assert (∀ st2, rs_bm st2 = rs_bm st1 → (∀ j, 0 ≤ j → bit (rs_bm st) j = true → bit (rs_bm st2) j = true) ∧
    (∀ j, 0 ≤ j → bit (rs_bm st2) j = true → bit (rs_bm st) j = false →
       ∃ h payload, open_packet cfg pkt addr = Done (Block h payload) ∧ block_ok h payload ∧ dh_block_seq h = j)) as Hbm.
  { intros st2 ->. split; intros j Hj Ht; [rewrite Hb by done; by rewrite Ht, orb_true_r|].
    intros Hn. rewrite Hb, Hn, orb_false_r in Ht by done. apply bool_decide_eq_true in Ht.
    destruct r as [[seq payload]|]; [|done]. injection Ht as ->.
    destruct (Hr seq payload eq_refl) as (_ & h & ? & ? & ->). eauto. }
  destruct r as [[seq payload]|].
  2: { intros [= <-]. destruct (Hbm st1 eq_refl). rewrite Hr1. split_and!; auto. }
  destruct (Hr seq payload eq_refl) as (Hnew & h & _ & (_ & Hseq & _) & ->).
  pose proof (place_ok (dh_block_seq h) payload st1 Hok1) as Hok2.
  assert (rs_bm (place cfg (dh_block_seq h) payload st1).1 = rs_bm st1 ∧
          rs_ready_bm (place cfg (dh_block_seq h) payload st1).1 = rs_ready_bm st1 ∧
          rs_flushed_blocks (place cfg (dh_block_seq h) payload st1).1 = rs_flushed_blocks st1) as (E1 & E2 & E3).
  { unfold place. destruct (rs_free st1); [|done]. by destruct (sink_write_all_at _ _ _) as [k [u|e]]. }
  destruct (place cfg (dh_block_seq h) payload st1) as [st2 []]; cbn [fst] in *.
  - destruct (publish_spec (dh_block_seq h) st2 Hok2 Hseq) as (bm' & -> & _ & _ & Hp). intros [= <-].
    destruct (Hbm (signal_flush (set_ready bm' st2)) E1) as [Hb1 Hb2]. split; [done|]. split; [done|].
    split; [|simpl; congruence]. simpl. intros j Hj. rewrite Hp, E2, Hr1 by done. case_bool_decide; simpl; [subst; auto|auto].
  - intros [= <-]. destruct (Hbm st2 E1). split; [done|]. split; [done|]. rewrite E2, Hr1. split; [auto|congruence].
Qed.

End packets.

(** ** Properties *)

(** Result: no datagram panics the receiver, from any address and whatever its bytes.  A block
    enters the received set only when a DATA PDU of the session, for a block of the file,
    passed the checksum or the cipher; blocks are never removed; and a datagram the checks
    ignore changes nothing. *)
Theorem handle_packet_sound `{!Crc32c, !AeadCrate, !AeadLaws} {K} `{!BlockSink K} cfg pkt addr now
    (st : RecvState K) :
  recv_ok cfg st →
  ∃ st', handle_packet cfg pkt addr now st = Done st' ∧ recv_ok cfg st' ∧
    (∀ j, 0 ≤ j → bit (rs_bm st) j = true → bit (rs_bm st') j = true) ∧
    (∀ j, 0 ≤ j → bit (rs_bm st') j = true → bit (rs_bm st) j = false →
       ∃ h payload, open_packet cfg pkt addr = Done (Block h payload) ∧ block_ok cfg h payload ∧ dh_block_seq h = j) ∧
    (open_packet cfg pkt addr = Done Ignored → st' = st).
Proof.
  intros Hok. destruct (handle_packet_ok cfg pkt addr now st Hok) as (st' & E & Hok').
  destruct (handle_packet_bits cfg pkt addr now st st' Hok E) as (Hb1 & Hb2 & _).
  exists st'. split; [done|]. split; [done|]. split; [done|]. split; [done|]. intros Hi. revert E.
  unfold handle_packet, accept_packet. rewrite Hi. cbn [mbind outcome_bind]. congruence.
Qed.

(** ** Construction *)

(** What [new_receiver] needs of its configuration: a positive block size, a non-empty range
    of rates, and a warm start within the bound on samples. *)
Record recv_setup_ok (c : RecvConfig) : Prop := {
  rk_bs : 0 < rg_block_size c;
  rk_total : 0 ≤ rg_total_blocks c < 2 ^ 63;
  rk_target : 0 ≤ rc_target_bps (rg_rate c) < 2 ^ 53;
  rk_rate : cfg_ok (rate_cfg_defaults (rg_rate c));
  rk_warm w : rg_warm_start c = Some w →
    0 ≤ rw_rate_bps w ∧ 0 ≤ rw_srtt_net_us w ≤ RTT_BOUND ∧ 0 ≤ rw_base_rtt_us w
}.

Lemma warm_receiver_spec c stats :
  recv_setup_ok c →
  ∃ r s, warm_receiver (rg_rate c) (rg_warm_start c) stats = Done (r, s) ∧
    est_ok RTT_BOUND (rt_path r) ∧ est_ok RTT_BOUND (rt_net r) ∧ ctl_any_ok (rt_rate r).
Proof.
  intros []. pose proof (rate_new_any _ rk_target0 rk_rate0) as Hc.
  assert (est_ok RTT_BOUND rtt_new) as Hn by (apply rtt_new_ok; unfold RTT_BOUND; lia).
  unfold warm_receiver. destruct (rg_warm_start c) as [w|]; [|by eexists _, _].
  destruct (rk_warm0 w eq_refl) as (Hr & Hs & Hb).
  destruct (set_rate_any (rate_new (rg_rate c)) (rw_rate_bps w)) as (c' & -> & Hc'); [done|done|done|].
  cbn [mbind outcome_bind]. eexists _, _. split; [done|]. split; [done|]. split; [|done].
  apply seed_ok; [unfold RTT_BOUND; lia|done|done|done].
Qed.

Lemma stage_depth_spec c :
  0 < rg_block_size c → ∃ d, stage_depth c = Done d ∧ 1 ≤ d.
Proof.
  intros. unfold stage_depth. rewrite (proj2 (Z.eqb_neq _ 0)) by lia. eexists. split; [done|].
  destruct (Z.ltb_spec (if (0 <? rg_total_blocks c) && (rg_total_blocks c <? Z.shiftl 96 20 / rg_block_size c)
                        then rg_total_blocks c else Z.shiftl 96 20 / rg_block_size c) 1); lia.
Qed.

(** A new receiver is ready to run. *)
Record recv_fresh {K} (cfg : RecvConfig) (sink : K) (st : RecvState K) : Prop := {
  rf_ok : recv_ok cfg st;
  rf_rate : ctl_any_ok (rt_rate (rs_rtt st));
  rf_sink : rs_sink st = sink;
  rf_stage : rs_stage st = ∅;
  rf_free : (0 < rs_free st)%nat;
  rf_flushed : rs_flushed_blocks st = 0;
  rf_done : rs_done st = false;
  rf_seen : rs_max_seen st = 0;
  rf_peer : rs_peer st = None;
  rf_bm j : bit (rs_bm st) j = false;
  rf_ready j : bit (rs_ready_bm st) j = false;
  rf_scan : scanner_ok (rs_bm st) (fb_scanner (feedback_init cfg))
}.

Lemma new_receiver_spec {K} num_cpu c (sink : K) stats :
  recv_setup_ok c →
  ∃ st, new_receiver num_cpu c sink stats = Done (recv_defaults num_cpu c, st) ∧
        recv_fresh (recv_defaults num_cpu c) sink st.
Proof.
  intros Hc. unfold new_receiver. destruct (stage_depth_spec (recv_defaults num_cpu c)) as (d & -> & Hd); [apply Hc|].
  cbn [mbind outcome_bind].
  destruct (warm_receiver_spec c (stats_store target_rate_bps (rc_target_bps (rg_rate c))
              (stats_store block_size (rg_block_size c) (stats_store total_blocks (rg_total_blocks c)
                 (stats_store total_bytes (i64_as_u64 (rg_file_size c)) stats)))) Hc) as (r & s & E & Hp & Hn & Hr).
  simpl. rewrite E. cbn [mbind outcome_bind]. eexists. split; [done|]. pose proof (rk_total _ Hc).
  destruct (bitmap_new_wf (rg_total_blocks c)) as [Hwf Ht].
  split; simpl; try done; try (intros; apply bitmap_new_clear);
    first [by split | lia | apply scanner_new_ok; lia].
Qed.

(** ** The feedback thread *)

(** What holds between iterations, for a receiver set up by [new_receiver]. *)
Record feedback_ok {K} (cfg : RecvConfig) (st : RecvState K) (fb : FeedbackState) : Prop := {
  fo_recv : recv_ok cfg st;
  fo_rate : ctl_any_ok (rt_rate (rs_rtt st));
  fo_scan : scanner_ok (rs_bm st) (fb_scanner fb);
  fo_seen : 0 ≤ rs_max_seen st;
  fo_max : Z.of_nat (rg_max_nacks_per_pdu cfg) < 2 ^ 16;
  fo_buf : length (fb_buf fb) = (FEEDBACK_HEADER_SIZE + rg_max_nacks_per_pdu cfg * NACK_ENTRY_SIZE)%nat;
  fo_session : is_u32 (rg_session cfg);
  fo_total : 0 ≤ rg_total_blocks cfg < 2 ^ 63
}.

Lemma nack_cap_le cfg target : (nack_cap cfg target ≤ rg_max_nacks_per_pdu cfg)%nat.
Proof.
  unfold nack_cap. destruct (_ && _); [|lia]. cbv zeta. set (n := if f64_to_u64 _ <? 1 then 1 else _).
  destruct (Z.ltb_spec n (rg_max_nacks_per_pdu cfg)); lia.
Qed.

(** What the receiver tells the sender is true of its bitmap. *)
Definition feedback_true {K} (cfg : RecvConfig) (st : RecvState K) (h : FeedbackHeader)
    (nacks : list NackEntry) : Prop :=
  fh_session h = rg_session cfg ∧
  NoDup (ne_block_seq <$> nacks) ∧
  (∀ n, n ∈ nacks → 0 ≤ ne_block_seq n < rg_total_blocks cfg ∧ bit (rs_bm st) (ne_block_seq n) = false) ∧
  0 ≤ fh_hi_contig h ≤ rg_total_blocks cfg ∧
  (∀ j, 0 ≤ j < fh_hi_contig h → bit (rs_bm st) j = true) ∧
  (fh_hi_contig h < rg_total_blocks cfg → bit (rs_bm st) (fh_hi_contig h) = false) ∧
  (fh_done h = true ↔ rs_all_sent st = true ∧ rs_flushed_blocks st = rg_total_blocks cfg).

(** The estimator and controller part of an iteration. *)
Lemma feedback_rates {K} cfg control (st : RecvState K) :
  recv_ok cfg st → ctl_any_ok (rt_rate (rs_rtt st)) →
  ∃ r c target, rto (rt_path (rs_rtt st)) = Done r ∧ rto_ok r ∧
    rate_update (rt_rate (rs_rtt st)) (re_srtt (rt_net (rs_rtt st))) (re_min_rtt (rt_net (rs_rtt st))) =
      Done (c, target) ∧ ctl_any_ok c ∧ is_u64 (effective_rate control target).
Proof.
  intros [] Hc. destruct (rto_within _ _ ro_path0) as (r & Er & Vr & Fr & Rr).
  destruct ro_net0 as (Hs & _ & Hm & _).
  destruct (rate_update_any _ _ _ _ Hc Hs Hm) as (c & bps & Ec & Hc' & _ & Hb).
  exists r, c, bps. split; [done|]. split; [done|]. split; [done|]. split; [done|].
  destruct (effective_rate_nonneg control bps); [lia|]. unfold is_uint. lia.
Qed.

(** Every block has been scanned, and every request is due by [T]. *)
Definition scheduled (cfg : RecvConfig) (T : Z) (s : LossScanner) : Prop :=
  ls_next_scan s = rg_total_blocks cfg ∧ ∀ it, it ∈ ls_heap s → hi_due it ≤ T.

(** The longest an RTO and the timer's precision put a request off, in microseconds. *)
Definition RTO_BOUND : Z := 4001001.

(** The scanning part: the contiguous mark is exact, and once FIN has arrived every
    missing block is pending, those of a scheduled scanner by the time they are due. *)
Lemma feedback_scan {K} cfg (st : RecvState K) fb t0 r :
  feedback_ok cfg st fb → 0 ≤ t0 < 2 ^ 52 → rto_ok r →
  let ms := if rs_all_sent st && (0 <? rg_total_blocks cfg) then rg_total_blocks cfg - 1 else rs_max_seen st in
  ∃ s1 s2, advance (rs_bm st) (fb_scanner fb) = Done s1 ∧
    (if rs_seen_any st || rs_all_sent st then scan_holes (rs_bm st) s1 ms (f64_of_Z t0) r else Done s1) = Done s2 ∧
    scanner_ok (rs_bm st) s2 ∧ ls_total s2 = rg_total_blocks cfg ∧
    0 ≤ ls_hi_contig s1 ≤ rg_total_blocks cfg ∧
    (∀ j, 0 ≤ j < ls_hi_contig s1 → bit (rs_bm st) j = true) ∧
    (ls_hi_contig s1 < rg_total_blocks cfg → bit (rs_bm st) (ls_hi_contig s1) = false) ∧
    (rs_all_sent st = true → ls_next_scan s2 = rg_total_blocks cfg) ∧
    (∀ it, it ∈ ls_heap s2 → it ∈ ls_heap (fb_scanner fb) ∨ hi_due it ≤ t0 + RTO_BOUND) ∧
    (∀ T j, scheduled cfg T (fb_scanner fb) → 0 ≤ j < rg_total_blocks cfg → bit (rs_bm st) j = false →
       ∃ it, it ∈ ls_heap s2 ∧ hi_seq it = j ∧ hi_due it ≤ T).
Proof.
  intros [] Ht Hr ms. destruct (advance_spec (rs_bm st) (fb_scanner fb) fo_scan0) as (s1 & E1 & Hs1 & _ & Hc & Hn & _).
  destruct (advance_frame _ _ _ fo_scan0 E1) as [Hheap1 Hnext1]. destruct (rto_us_bounds r Hr) as [Hru _].
  assert (Hdue : ∀ s2 : LossScanner, scanner_ok (rs_bm st) s2 → ls_next_scan s1 ≤ ls_next_scan s2 →
    (∀ it, it ∈ ls_heap s2 → it ∈ ls_heap s1 ∨ hi_seq it ∉ ls_pending s1) →
    ∀ T j, scheduled cfg T (fb_scanner fb) → 0 ≤ j < rg_total_blocks cfg → bit (rs_bm st) j = false →
       ∃ it, it ∈ ls_heap s2 ∧ hi_seq it = j ∧ hi_due it ≤ T).
  { intros s2 Hs2 Hle Hh T j [Hsn Hsd] Hj Hb.
    pose proof (so_pending _ _ Hs2 j (so_missing _ _ Hs2 j ltac:(lia) Hb)) as (it & -> & Hit)%list_elem_of_fmap.
    exists it. split; [done|]. split; [done|]. destruct (Hh it Hit) as [Hin|Hnin]; [apply Hsd; by rewrite <-Hheap1|].
    destruct Hnin. apply (so_missing _ _ Hs1); [lia|done]. }
  assert (ls_total s1 = rg_total_blocks cfg) as Ht1.
  { rewrite <-(so_total _ _ Hs1). apply fo_recv0. }
  rewrite Ht1 in Hn. pose proof (so_hi _ _ Hs1) as Hhi. pose proof (so_scan _ _ Hs1) as Hsc. rewrite Ht1 in Hhi, Hsc.
  assert (0 ≤ ms) as Hms.
  { unfold ms. destruct (rs_all_sent st && _) eqn:E; [|done]. apply andb_true_iff in E as [_ E%Z.ltb_lt]. lia. }
  destruct (rs_seen_any st || rs_all_sent st) eqn:Eg.
  - destruct (scan_holes_spec (rs_bm st) s1 ms t0 r Hs1 Hms Ht Hr) as (s2 & E2 & Hs2 & Ht2 & _ & Hns & _ & Hnew).
    exists s1, s2. rewrite Ht1 in *. split; [done|]. split; [done|]. split; [done|]. split; [done|]. split; [done|].
    split; [done|]. split; [done|]. split; [|split].
    { intros Ha. rewrite Hns. unfold ms. rewrite Ha. cbn [andb]. destruct (Z.ltb_spec 0 (rg_total_blocks cfg)); lia. }
    { intros it Hit. rewrite <-Hheap1. destruct (Hnew it Hit) as [?|[_ ?]]; [by left|right; unfold RTO_BOUND; lia]. }
    apply Hdue; [done|lia|]. intros it Hit. destruct (Hnew it Hit) as [?|[? _]]; auto.
  - exists s1, s1. split; [done|]. split; [done|]. split; [done|]. split; [done|]. split; [done|]. split; [done|].
    split; [done|]. split; [apply orb_false_iff in Eg as [_ ->]; done|]. split; [rewrite Hheap1; auto|].
    apply Hdue; [done|lia|auto].
Qed.

(** The scan schedules what it finds for later and drops no request of a missing block. *)
Lemma feedback_scan_due {K} cfg (st : RecvState K) fb t0 r s1 s2 :
  feedback_ok cfg st fb → 0 ≤ t0 < 2 ^ 52 → rto_ok r → advance (rs_bm st) (fb_scanner fb) = Done s1 →
  (if rs_seen_any st || rs_all_sent st
   then scan_holes (rs_bm st) s1 (scan_limit cfg (rs_max_seen st) (rs_all_sent st)) (f64_of_Z t0) r else Done s1) = Done s2 →
  (∀ it, it ∈ ls_heap s2 → it ∈ ls_heap (fb_scanner fb) ∨ t0 < hi_due it) ∧
  (∀ it, it ∈ ls_heap (fb_scanner fb) → bit (rs_bm st) (hi_seq it) = false → it ∈ ls_heap s2).
Proof.
  intros [] Ht Hr E1 E2. destruct (advance_spec (rs_bm st) (fb_scanner fb) fo_scan0) as (s1' & E1' & Hs1 & _).
  rewrite E1 in E1'. apply Done_inj in E1' as <-. destruct (advance_frame _ _ _ fo_scan0 E1) as [Hheap1 Hnext1].
  destruct (rto_us_bounds r Hr) as [Hru _]. destruct (_ || _).
  2: { apply Done_inj in E2 as <-. rewrite Hheap1. auto. }
  assert (0 ≤ scan_limit cfg (rs_max_seen st) (rs_all_sent st)) as Hms.
  { unfold scan_limit. destruct (_ && _) eqn:E; [|done]. apply andb_true_iff in E as [_ E%Z.ltb_lt]. lia. }
  destruct (scan_holes_spec (rs_bm st) s1 _ t0 r Hs1 Hms Ht Hr) as (s2' & E2' & Hs2 & _ & _ & _ & Hpend & Hnew).
  rewrite E2 in E2'. apply Done_inj in E2' as <-. rewrite <-Hheap1. split.
  - intros it Hit. destruct (Hnew it Hit) as [?|[_ ?]]; [by left|right; lia].
  - intros it Hit Hb. destruct (so_heap _ _ Hs1 it Hit) as [Hrange _].
    pose proof (so_missing _ _ Hs1 _ Hrange Hb) as Hp1.
    assert (hi_seq it ∈ ls_pending s2) as Hp2 by (apply Hpend; by left).
    apply (so_pending _ _ Hs2) in Hp2 as (it2 & Eq & Hit2)%list_elem_of_fmap.
    destruct (Hnew it2 Hit2) as [Hold|[Hno _]]; [|by rewrite Eq in Hp1].
    assert (it = it2) as ->; [|done].
    apply list_elem_of_lookup in Hit as (i & Hi). apply list_elem_of_lookup in Hold as (i2 & Hi2).
    assert (i = i2) as <-; [|congruence].
    eapply (NoDup_lookup (heap_seqs s1)); [apply Hs1|..]; unfold heap_seqs; rewrite list_lookup_fmap.
    + by rewrite Hi.
    + rewrite Hi2. simpl. by rewrite Eq.
Qed.

(** What a FEEDBACK requests: the missing blocks whose request had come due, oldest first and
    no more than [cap] of them, each scheduled again. *)
Definition requests_due (bm : RecvBitmap) (t0 : Z) (s s' : LossScanner) (cap : nat) (nacks : list NackEntry) : Prop :=
  ∃ em : list HeapItem, ne_block_seq <$> nacks = hi_seq <$> em ∧ (length nacks ≤ cap)%nat ∧
    (∀ t, t ∈ em → t ∈ ls_heap s ∧ hi_due t ≤ t0 ∧ bit bm (hi_seq t) = false) ∧
    ((length nacks < cap)%nat →
       ∀ it, it ∈ ls_heap s → hi_due it ≤ t0 → bit bm (hi_seq it) = false → it ∈ em) ∧
    (∀ t it, t ∈ em → it ∈ ls_heap s → bit bm (hi_seq it) = false → it ∈ ls_heap s' → item_le t it = true) ∧
    (∀ t, t ∈ em → ∃ t', t' ∈ ls_heap s' ∧ hi_seq t' = hi_seq t ∧ t0 < hi_due t').

(** At least one NACK fits, if the configuration has room for one. *)
Lemma nack_cap_pos cfg target : (0 < rg_max_nacks_per_pdu cfg)%nat → (0 < nack_cap cfg target)%nat.
Proof.
  intros Hm. unfold nack_cap. destruct (_ && _); [|done]. cbv zeta.
  destruct (Z.ltb_spec (f64_to_u64 (f64_mul (f64_div (f64_of_Z target) (f64_mul (f64_of_Z (wrap 64 (rg_block_size cfg + DATA_HEADER_SIZE))) (f64_of_Z 8)))
    (f64_div (f64_of_Z (rg_feedback_interval_us cfg)) (f64_of_Z 1000000)))) 1); case_match; lia.
Qed.

(** One iteration of the feedback thread. *)
Lemma feedback_iter_spec {K} cfg control t0 t1 t2 send_ok (st : RecvState K) fb :
  feedback_ok cfg st fb → 0 ≤ t0 < 2 ^ 52 → is_u64 t2 →
  ∃ r, feedback_iter cfg control t0 t1 t2 send_ok st fb = Done (Some r) ∧
    match r with
    | FbNoPeer st' fb' => rs_peer st = None ∧ feedback_ok cfg st' fb' ∧ rs_done st' = rs_done st
    | FbSent st' fb' peer pdu =>
        rs_peer st = Some peer ∧ feedback_ok cfg st' fb' ∧
        (∃ h nacks, decode_feedback pdu = Done (Some (h, nacks)) ∧ feedback_true cfg st h nacks ∧
           (length nacks ≤ rg_max_nacks_per_pdu cfg)%nat ∧
           (rs_done st' = true → rs_done st = true ∨ fh_done h = true ∧ 8 ≤ fb_done_sends fb') ∧
           requests_due (rs_bm st) t0 (fb_scanner fb) (fb_scanner fb') (nack_cap cfg (fh_target_rate h)) nacks ∧
           (∀ T j, (0 < rg_max_nacks_per_pdu cfg)%nat → scheduled cfg T (fb_scanner fb) → T ≤ t0 →
              0 ≤ j < rg_total_blocks cfg → bit (rs_bm st) j = false → nacks ≠ [])) ∧
        (rs_all_sent st = true → ∀ j, 0 ≤ j < rg_total_blocks cfg → bit (rs_bm st) j = false →
           j ∈ ls_pending (fb_scanner fb')) ∧
        (rs_all_sent st = true → ∀ T, (∀ it, it ∈ ls_heap (fb_scanner fb) → hi_due it ≤ T) →
           scheduled cfg (Z.max T (t0 + RTO_BOUND)) (fb_scanner fb')) ∧
        rs_bm st' = rs_bm st ∧ rs_all_sent st' = rs_all_sent st ∧ rs_peer st' = rs_peer st
    end.
Proof.
  intros Hok Ht0 Ht2. pose proof Hok as []. unfold feedback_iter.
  destruct (feedback_rates cfg control st fo_recv0 fo_rate0) as (r & c & target & -> & Hr & -> & Hc & Htg).
  cbn [mbind outcome_bind].
  destruct (feedback_scan cfg st fb t0 r Hok Ht0 Hr) as (s1 & s2 & E1 & E2 & Hs2 & Htot & Hhi & Hcon & Hnext & Hall & Hheap & Hsched).
  set (ec := effective_rate control target) in *. simpl. rewrite E1. cbn [mbind outcome_bind].
  rewrite E2. cbn [mbind outcome_bind].
  destruct (rs_peer st) as [peer|] eqn:Epeer; simpl.
  2: { eexists. split; [done|]. simpl. split; [done|]. split; [|done]. split; simpl; try done. destruct fo_recv0; by split. }
  destruct (collect_due_spec (rs_bm st) s2 t0 r (nack_cap cfg ec) Hs2 Ht0 Hr)
    as (em & s3 & E3 & Hs3 & Hnd & Hlen & Hem & Hdue & Hold). rewrite E3. cbn [mbind outcome_bind].
  destruct (collect_due_next _ _ _ _ _ _ _ Hs2 Ht0 Hr E3) as (En & Et & _).
  set (nacks := (λ s, mkNackEntry s (u64_as_i64 s)) <$> (hi_seq <$> em)).
  set (fh := mkFeedbackHeader _ _ _ _ _ _ _).
  pose proof (nack_cap_le cfg ec) as Hcap.
  assert (length nacks = length em) as Hnl by (unfold nacks; by rewrite !length_fmap).
  assert (∀ t, t ∈ em → 0 ≤ hi_seq t < rg_total_blocks cfg ∧ bit (rs_bm st) (hi_seq t) = false) as Hrange.
  { intros t Hin. destruct (Hem t Hin) as (Hh & _ & Hb & _). split; [|done].
    destruct (so_heap _ _ Hs2 t Hh) as [? _]. pose proof (so_scan _ _ Hs2). lia. }
  assert (Forall wf_nack nacks) as Hwn.
  { apply Forall_forall. intros n (s & -> & (t & -> & Hin)%list_elem_of_fmap)%list_elem_of_fmap.
    destruct (Hrange t Hin). split; [unfold is_uint; simpl; lia|apply u64_as_i64_range]. }
  destruct (decode_encode_feedback (fb_buf fb) fh nacks) as (buf & nn & Ee & -> & Ed).
  { unfold wf_feedback_header, fh. simpl. split; [done|]. split; [done|]. split; [done|]. split; [done|].
    unfold is_uint. lia. }
  { done. } { lia. } { unfold NACK_ENTRY_SIZE in *. lia. }
  rewrite Ee. cbn [mbind outcome_bind].
  assert (length buf = length (fb_buf fb)) as Hlb by (by eapply encode_feedback_length).
  rewrite buf_slice_done by (unfold NACK_ENTRY_SIZE in *; lia). cbn [mbind outcome_bind].
  eexists. split; [done|]. cbn beta iota. split; [done|]. split.
  { destruct fo_recv0. destruct (_ && (8 <=? _)), (send_ok && _); split; try done; first [by split | by rewrite <-fo_buf0]. }
  split.
  - eexists _, nacks. rewrite drop_0, Nat.sub_0_r. split; [exact Ed|]. split; [|split; [lia|split; [|split]]].
    + unfold feedback_true, fh. simpl. split; [done|]. split.
      { unfold nacks. rewrite <-list_fmap_compose. by rewrite list_fmap_id. }
      split.
      { intros n (s & -> & (t & -> & Hin)%list_elem_of_fmap)%list_elem_of_fmap. by apply Hrange. }
      split; [done|]. split; [done|]. split; [done|]. rewrite andb_true_iff, Z.eqb_eq. done.
    + unfold fh. cbn [fh_done fb_done_sends].
      destruct (rs_all_sent st && (rs_flushed_blocks st =? rg_total_blocks cfg)); cbn [andb].
      * destruct (Z.leb_spec 8 (fb_done_sends fb + 1)); [by right|]. destruct (send_ok && _); by left.
      * destruct (send_ok && _); by left.
    + destruct (feedback_scan_due cfg st fb t0 r s1 s2 Hok Ht0 Hr E1 E2) as [Hlate Hkeep].
      destruct (rto_us_bounds r Hr) as [Hru _]. cbn [fb_scanner fh_target_rate fh]. exists em. rewrite Hnl.
      split; [unfold nacks; rewrite <-list_fmap_compose; by rewrite list_fmap_id|]. split; [done|]. split_and!.
      * intros t Hin. destruct (Hem t Hin) as (Hh & Hd & Hb & _). destruct (Hlate t Hh) as [?|?]; [done|lia].
      * intros Hl it Hit Hd Hb. by apply Hdue; [| apply Hkeep| |].
      * intros t it Hin Hit Hb Hit'. by apply Hold; [|apply Hkeep|].
      * intros t Hin. destruct (Hem t Hin) as (_ & _ & _ & t' & ? & ? & ?). exists t'. split_and!; [done|done|lia].
    + intros T j Hmax Hsc HT Hj Hb. destruct (Hsched T j Hsc Hj Hb) as (it & Hit & Hq & Hd).
      assert (em ≠ []) as Hne; [|by unfold nacks; destruct em].
      intros ->. pose proof (nack_cap_pos cfg ec Hmax). simpl in Hdue.
      by apply (not_elem_of_nil it), (Hdue ltac:(lia) it Hit ltac:(lia)); rewrite Hq.
  - split; [|split; [|repeat case_match; by rewrite <-Epeer]].
    2: { intros Ha T HT. split; [simpl; by rewrite En, Hall|]. simpl. intros it Hit.
         destruct (rto_us_bounds r Hr) as [Hru _].
         destruct (collect_due_heap _ _ _ _ _ _ _ it Hs2 Ht0 Hr E3 Hit) as [Hin|]; [|unfold RTO_BOUND; lia].
         destruct (Hheap it Hin) as [Hin'|]; [specialize (HT it Hin')|]; lia. }
    simpl. intros Ha j Hj Hb. apply (so_missing _ _ Hs3); [|done]. rewrite En, Hall; done.
Qed.

(** C14: what the receiver reports is true, and nothing missing is forgotten.  An iteration
    of the feedback thread never panics and keeps its invariant; the PDU it sends to the
    known peer decodes to a FEEDBACK of the session whose NACKs are distinct blocks of the
    file that are missing and whose request had come due, all of these when they are fewer than
    the sender can serve in an interval and the oldest otherwise, each scheduled again; whose contiguous mark is exact, and whose done byte is set
    exactly when FIN was seen and every block is flushed; once FIN was seen, every missing
    block is scheduled for a request; and the transfer is declared done only after eight
    such done reports. *)
Theorem feedback_iter_sound {K} cfg control t0 t1 t2 send_ok (st : RecvState K) fb :
  feedback_ok cfg st fb → 0 ≤ t0 < 2 ^ 52 → is_u64 t2 →
  ∃ r, feedback_iter cfg control t0 t1 t2 send_ok st fb = Done (Some r) ∧
    match r with
    | FbNoPeer st' fb' => rs_peer st = None ∧ feedback_ok cfg st' fb' ∧ rs_done st' = rs_done st
    | FbSent st' fb' peer pdu =>
        rs_peer st = Some peer ∧ feedback_ok cfg st' fb' ∧
        (∃ h nacks, decode_feedback pdu = Done (Some (h, nacks)) ∧ feedback_true cfg st h nacks ∧
           requests_due (rs_bm st) t0 (fb_scanner fb) (fb_scanner fb') (nack_cap cfg (fh_target_rate h)) nacks ∧
           (length nacks ≤ rg_max_nacks_per_pdu cfg)%nat ∧
           (rs_done st' = true → rs_done st = true ∨ fh_done h = true ∧ 8 ≤ fb_done_sends fb')) ∧
        (rs_all_sent st = true → ∀ j, 0 ≤ j < rg_total_blocks cfg → bit (rs_bm st) j = false →
           j ∈ ls_pending (fb_scanner fb'))
    end.
Proof.
  intros Hok Ht0 Ht2. destruct (feedback_iter_spec cfg control t0 t1 t2 send_ok st fb Hok Ht0 Ht2) as (r & E & Hr).
  exists r. split; [done|]. destruct r as [st' fb'|st' fb' peer pdu]; [done|].
  destruct Hr as (Hp & Hok' & (h & nacks & Hd & Ht & Hl & Hdn & Hreq & _) & Hall & _). split_and!; [done|done| |done].
  by exists h, nacks.
Qed.

(** ** A small receiver *)

Definition demo_recv : RecvConfig :=
  mkRecvConfig 7 3 3 77 None 2 fixed_cfg None 0 0 0 None None.

Lemma demo_recv_ok : recv_setup_ok demo_recv.
Proof.
  split; [done|done|done| |done]. split; [done|]. split; [done|]. repeat split; vm_compute; done.
Qed.

(** A disk on which every write fails. *)
Record FullDisk := mkFullDisk {}.
Global Instance full_disk : BlockSink FullDisk := {|
  sink_allocate k _ := (k, Ok ());
  sink_write_all_at k _ _ := (k, Err (io_other "no space left on device"));
  sink_finalize k := (k, Ok ());
  sink_read_crc32c k := Ok None
|}.

(** A DATA PDU with block 0 of a three-byte file, and a receiver whose pool is in use. *)
Definition demo_header : DataHeader :=
  mkDataHeader 0 3 77 0 0 0 (@crc32c castagnoli [x61; x62; x63]).
Definition demo_pdu : list byte :=
  match encode_data_header (replicate 36 x00 ++ [x61; x62; x63]) demo_header with Done b => b | Panic => [] end.
Definition demo_cfg1 : RecvConfig := recv_defaults 1 demo_recv.
Definition demo_peer_addr : SocketAddr := mkSocketAddr (V4 0x7F000001) 9000 0 0.
Definition demo_fresh : RecvState FullDisk :=
  mkRecvState (mkFullDisk) (bitmap_new 3) (bitmap_new 3) 0 false false 0 false None
    (mkRttState rtt_new rtt_new (rate_new fixed_cfg)) ∅ 0 false stats_default.

Lemma demo_fresh_ok : recv_ok demo_cfg1 demo_fresh.
Proof.
  assert (est_ok RTT_BOUND rtt_new) by (apply rtt_new_ok; unfold RTT_BOUND; lia).
  destruct (bitmap_new_wf 3) as [? ?]. by split.
Qed.

Lemma handle_packet_sound_witness :
  ∃ st', @handle_packet _ _ castagnoli toy_aead demo_cfg1 demo_pdu (Some demo_peer_addr) 1000 demo_fresh = Done st' ∧
         recv_ok demo_cfg1 st'.
Proof.
  destruct (@handle_packet_sound castagnoli toy_aead toy_aead_laws _ _ demo_cfg1 demo_pdu (Some demo_peer_addr) 1000
              demo_fresh demo_fresh_ok) as (st' & E & Hok & _). exact (ex_intro _ st' (conj E Hok)).
Defined.

Lemma feedback_ok_fresh {K} cfg (sink : K) st p :
  recv_fresh cfg sink st → is_u32 (rg_session cfg) → Z.of_nat (rg_max_nacks_per_pdu cfg) < 2 ^ 16 →
  0 ≤ rg_total_blocks cfg < 2 ^ 63 → feedback_ok cfg (set_peer p st) (feedback_init cfg).
Proof.
  intros [] ???. split; try done.
  - destruct rf_ok0. by split.
  - change (0 ≤ rs_max_seen st). by rewrite rf_seen0.
  - unfold feedback_init. cbn [fb_buf]. by rewrite length_replicate.
Qed.

(** Blocks 0 and 1 of three received, and block 2 due for a request. *)
Definition demo_hole : RecvState FullDisk :=
  mkRecvState (mkFullDisk) (mkRecvBitmap [3] 3) (mkRecvBitmap [3] 3) 2 true true 2 false (Some demo_peer_addr)
    (mkRttState rtt_new rtt_new (rate_new fixed_cfg)) ∅ 0 false stats_default.
Definition demo_hole_fb : FeedbackState :=
  mkFeedbackState (mkLossScanner 3 2 3 {[2]} [mkHeapItem 9000 2]) (fb_buf (feedback_init demo_cfg1)) 0 0.

Lemma demo_hole_ok : feedback_ok demo_cfg1 demo_hole demo_hole_fb.
Proof.
  assert (wf_bitmap (mkRecvBitmap [3] 3)) as Hwf by (split; [repeat constructor; vm_compute; done|done]).
  assert (est_ok RTT_BOUND rtt_new) by (apply rtt_new_ok; unfold RTT_BOUND; lia).
  split; try (by vm_compute); try done.
  - split; cbn [fb_scanner demo_hole_fb ls_hi_contig ls_total ls_next_scan ls_pending ls_heap rs_bm demo_hole];
      try done; try lia.
    + intros j Hj. assert (j = 0 ∨ j = 1) as [-> | ->] by lia; vm_compute; reflexivity.
    + intros j ->%elem_of_singleton. left.
    + intros j Hj Hb. assert (j = 0 ∨ j = 1 ∨ j = 2) as [->|[->| ->]] by lia; [by vm_compute in Hb..|set_solver].
    + repeat constructor. set_solver.
    + intros it ->%list_elem_of_singleton. simpl. lia.
    + repeat constructor.
Qed.

Lemma feedback_iter_sound_witness :
  ∃ r, feedback_iter demo_cfg1 None 1000000 1000005 1000009 true demo_hole demo_hole_fb = Done (Some r) ∧
    match r with
    | FbNoPeer _ _ => False
    | FbSent _ fb' _ pdu => ∃ h nacks, decode_feedback pdu = Done (Some (h, nacks)) ∧
        requests_due (rs_bm demo_hole) 1000000 (fb_scanner demo_hole_fb) (fb_scanner fb')
          (nack_cap demo_cfg1 (fh_target_rate h)) nacks
    end.
Proof.
  destruct (feedback_iter_sound demo_cfg1 None 1000000 1000005 1000009 true demo_hole demo_hole_fb demo_hole_ok)
    as (r & Er & Hr); [lia|vm_compute; done|]. exists r. split; [exact Er|].
  destruct r as [st' fb'|st' fb' peer pdu]; [destruct Hr; done|].
  destruct Hr as (_ & _ & (h & nacks & Hd & _ & Hreq & _) & _). exact (ex_intro _ h (ex_intro _ nacks (conj Hd Hreq))).
Defined.
