(* ===== verification/ReceiverSys.v ===== *)
(** * The receiver's threads together (src/receiver.rs, [Receiver_::run])

    Ingest workers, the in-order flusher, the feedback thread and the thread that called [run]
    are concurrent on the shared state.  Here their interleavings are a step relation: a worker
    can be interrupted between [accept_packet], [place] and [publish], the flusher between
    looking at the ready bit, writing the staged block, moving the frontier and looking at the
    stop flag, the feedback thread between the stages of an iteration, [run] between its joins.
    Each step is one definition of the previous file; the atomic operations inside it touch
    fields no other thread reads in between.  Where a stage of the feedback thread reads the
    bitmap or a flag at several moments, it works on what it read: a view, which may be behind
    the shared state.  The result is the integrity of the transfer: whatever the interleaving,
    the order, the loss and the duplication of packets, every flushed block is in the sink as
    the sender has it. *)

From S2P Require Import Prelude Float64 Errors Net Protocol Rate PQueue LossTracker Stats Runtime BlockIO Crypto Receiver.

(** Where an ingest worker is in [handle_packet]. *)
Inductive worker :=
| WIdle
| WPlace (seq : Z) (payload : list byte)
| WPublish (seq : Z)
| WGone.

(** Where the flusher is at its frontier: in the inner loop (and whether it has progressed),
    with a block taken, with the block written, before the stop check, or returned. *)
Inductive flusher :=
| FAt (front : Z) (progressed : bool)
| FWrite (front : Z) (staged : option (list byte))
| FAdvance (front : Z)
| FBlocked (front : Z)
| FGone (front : Z).

Definition flusher_front (f : flusher) : Z :=
  match f with FAt n _ | FWrite n _ | FAdvance n | FBlocked n | FGone n => n end.

(** Where the feedback thread is: before the stop check, past it (asleep), or in an iteration
    after the given stage, with what the iteration has read so far. *)
Record Pass := mkPass { pa_now : f64; pa_rto : f64; pa_target : Z }.
Inductive feeding :=
| FbTop
| FbAwake
| FbRated (pa : Pass)
| FbAdvanced (pa : Pass) (hi : Z)
| FbScanned (pa : Pass) (hi : Z)
| FbJudged (pa : Pass) (hi : Z) (complete : bool)
| FbMarked (pa : Pass) (hi : Z) (complete : bool)
| FbFinish (complete : bool)
| FbGone.

(** Where [run] is: waiting for the end, joining the feedback thread, joining the workers,
    joining the flusher, or returned. *)
Inductive runner :=
| MWait
| MAux
| MIngest
| MFlush
| MReturned (r : result unit io_error).

(** The feedback thread's variables and position, the caller's stop flag (which also stands
    for a cancelled control), and [run]. *)
Record Ctl := mkCtl {
  ct_feedback : FeedbackState;
  ct_feeding : feeding;
  ct_stop : bool;
  ct_main : runner
}.
Definition set_feed (fb : FeedbackState) (f : feeding) (c : Ctl) : Ctl := mkCtl fb f (ct_stop c) (ct_main c).
Definition set_feeding (f : feeding) (c : Ctl) : Ctl := set_feed (ct_feedback c) f c.
Definition set_stop (c : Ctl) : Ctl := mkCtl (ct_feedback c) (ct_feeding c) true (ct_main c).
Definition set_main (m : runner) (c : Ctl) : Ctl := mkCtl (ct_feedback c) (ct_feeding c) (ct_stop c) m.
Definition ctl_init (cfg : RecvConfig) : Ctl := mkCtl (feedback_init cfg) FbTop false MWait.

Record Sys (K : Type) := mkSys {
  sy_st : RecvState K;
  sy_workers : list worker;
  sy_flusher : flusher;
  sy_ctl : Ctl
}.
Arguments mkSys {K}.
Arguments sy_st {K}.
Arguments sy_workers {K}.
Arguments sy_flusher {K}.
Arguments sy_ctl {K}.

(** A bitmap read bit by bit while others set bits: every bit found set is set. *)
Definition view_of (bm view : RecvBitmap) : Prop :=
  rb_total view = rb_total bm ∧ length (rb_words view) = length (rb_words bm) ∧
  ∀ j, 0 ≤ j → bit view j = true → bit bm j = true.

(** The wait of the blocked flusher: the signal, if there is one, is taken. *)
Definition flush_wait {K} (st : RecvState K) : RecvState K :=
  mkRecvState (rs_sink st) (rs_bm st) (rs_ready_bm st) (rs_max_seen st) (rs_seen_any st) (rs_all_sent st)
    (rs_flushed_blocks st) (rs_done st) (rs_peer st) (rs_rtt st) (rs_stage st) (rs_free st)
    false (rs_stats st).

Section sys.
Context `{!Crc32c, !AeadCrate} {K : Type} `{!BlockSink K}.
Context (cfg : RecvConfig).
(** The datagrams the network may deliver. *)
Context (net : list byte → Prop).

(** The threads at the start of [run]. *)
Definition sys_init (st : RecvState K) : Sys K :=
  mkSys st (replicate (Z.to_nat (rg_read_workers cfg)) WIdle) (FAt 0 false) (ctl_init cfg).

Inductive step : Sys K → Sys K → Prop :=
(** An ingest worker; it returns on stop, on done, or when the socket fails. *)
| step_admit s i pkt addr now st' r :
    sy_workers s !! i = Some WIdle → net pkt → pkt ≠ [] →
    accept_packet cfg pkt addr now (add_stat bytes_recv (length pkt) (add_stat packets_recv 1 (sy_st s))) = Done (st', r) →
    step s (mkSys st'
              (<[i := match r with Some (seq, p) => WPlace seq p | None => WIdle end]> (sy_workers s))
              (sy_flusher s) (sy_ctl s))
| step_place s i seq p st' b :
    sy_workers s !! i = Some (WPlace seq p) → place cfg seq p (sy_st s) = (st', b) →
    step s (mkSys st' (<[i := if b then WPublish seq else WIdle]> (sy_workers s)) (sy_flusher s) (sy_ctl s))
| step_publish s i seq st' :
    sy_workers s !! i = Some (WPublish seq) → publish seq (sy_st s) = Done st' →
    step s (mkSys st' (<[i := WIdle]> (sy_workers s)) (sy_flusher s) (sy_ctl s))
| step_leave s i :
    sy_workers s !! i = Some WIdle →
    step s (mkSys (sy_st s) (<[i := WGone]> (sy_workers s)) (sy_flusher s) (sy_ctl s))
(** The flusher. *)
| step_take s front b st' staged :
    sy_flusher s = FAt front b → front < rg_total_blocks cfg →
    flush_take front (sy_st s) = Done (Some (st', staged)) →
    step s (mkSys st' (sy_workers s) (FWrite front staged) (sy_ctl s))
| step_write s front staged :
    sy_flusher s = FWrite front staged →
    step s (mkSys (flush_write cfg front staged (sy_st s)) (sy_workers s) (FAdvance front) (sy_ctl s))
| step_advance s front :
    sy_flusher s = FAdvance front →
    step s (mkSys (flush_advance front (sy_st s)) (sy_workers s) (FAt (front + 1) true) (sy_ctl s))
| step_blocked s front (b : bool) :
    sy_flusher s = FAt front b → front < rg_total_blocks cfg → flush_take front (sy_st s) = Done None →
    step s (mkSys (sy_st s) (sy_workers s) (if b then FAt front false else FBlocked front) (sy_ctl s))
| step_wait s front :
    sy_flusher s = FBlocked front →
    step s (if ct_stop (sy_ctl s) then mkSys (sy_st s) (sy_workers s) (FGone front) (sy_ctl s)
            else mkSys (flush_wait (sy_st s)) (sy_workers s) (FAt front false) (sy_ctl s))
| step_flushed s front b :
    sy_flusher s = FAt front b → rg_total_blocks cfg ≤ front →
    step s (mkSys (sy_st s) (sy_workers s) (FGone front) (sy_ctl s))
(** The feedback thread. *)
| step_fb_top s :
    ct_feeding (sy_ctl s) = FbTop →
    step s (mkSys (sy_st s) (sy_workers s) (sy_flusher s)
              (set_feeding (if ct_stop (sy_ctl s) then FbGone else FbAwake) (sy_ctl s)))
| step_fb_rates s control t0 st' path_rto target :
    ct_feeding (sy_ctl s) = FbAwake → fb_rates control (sy_st s) = Done (st', path_rto, target) →
    step s (mkSys st' (sy_workers s) (sy_flusher s) (set_feeding (FbRated (mkPass (f64_of_Z t0) path_rto target)) (sy_ctl s)))
| step_fb_advance s pa fb' :
    ct_feeding (sy_ctl s) = FbRated pa → fb_advance (rs_bm (sy_st s)) (ct_feedback (sy_ctl s)) = Done fb' →
    step s (mkSys (sy_st s) (sy_workers s) (sy_flusher s)
              (set_feed fb' (FbAdvanced pa (ls_hi_contig (fb_scanner fb'))) (sy_ctl s)))
| step_fb_scan s pa hi view max_seen (all_sent seen : bool) fb' :
    ct_feeding (sy_ctl s) = FbAdvanced pa hi → view_of (rs_bm (sy_st s)) view → max_seen ≤ rs_max_seen (sy_st s) →
    (all_sent = true → rs_all_sent (sy_st s) = true) →
    (seen = true → rs_seen_any (sy_st s) = true ∨ rs_all_sent (sy_st s) = true) →
    fb_scan view seen (scan_limit cfg max_seen all_sent) (pa_now pa) (pa_rto pa) (ct_feedback (sy_ctl s)) = Done fb' →
    step s (mkSys (sy_st s) (sy_workers s) (sy_flusher s) (set_feed fb' (FbScanned pa hi) (sy_ctl s)))
| step_fb_judge s pa hi (all_sent : bool) :
    ct_feeding (sy_ctl s) = FbScanned pa hi → (all_sent = true → rs_all_sent (sy_st s) = true) →
    step s (mkSys (sy_st s) (sy_workers s) (sy_flusher s)
              (set_feeding (FbJudged pa hi (fb_complete cfg all_sent (rs_flushed_blocks (sy_st s)))) (sy_ctl s)))
| step_fb_mark s pa hi complete :
    ct_feeding (sy_ctl s) = FbJudged pa hi complete →
    step s (mkSys (fb_mark hi (ct_feedback (sy_ctl s)) (sy_st s)) (sy_workers s) (sy_flusher s)
              (set_feeding (FbMarked pa hi complete) (sy_ctl s)))
| step_fb_nopeer s pa hi complete :
    ct_feeding (sy_ctl s) = FbMarked pa hi complete → rs_peer (sy_st s) = None →
    step s (mkSys (sy_st s) (sy_workers s) (sy_flusher s) (set_feeding FbTop (sy_ctl s)))
| step_fb_send s pa hi complete view t1 t2 send_ok peer fb' n pdu :
    ct_feeding (sy_ctl s) = FbMarked pa hi complete → rs_peer (sy_st s) = Some peer → view_of (rs_bm (sy_st s)) view →
    fb_request cfg view (pa_now pa) (pa_rto pa) (pa_target pa) hi complete t1 t2 (ct_feedback (sy_ctl s)) =
      Done (Some (fb', n, pdu)) →
    step s (mkSys (fb_sent send_ok n (sy_st s)) (sy_workers s) (sy_flusher s) (set_feed fb' (FbFinish complete) (sy_ctl s)))
| step_fb_finish s complete st' fb' (fin : bool) :
    ct_feeding (sy_ctl s) = FbFinish complete → fb_finish complete (sy_st s) (ct_feedback (sy_ctl s)) = (st', fb', fin) →
    step s (mkSys st' (sy_workers s) (sy_flusher s) (set_feed fb' (if fin then FbGone else FbTop) (sy_ctl s)))
(** The caller's stop flag, and [run]. *)
| step_stop s :
    step s (mkSys (sy_st s) (sy_workers s) (sy_flusher s) (set_stop (sy_ctl s)))
| step_end s :
    ct_main (sy_ctl s) = MWait → rs_done (sy_st s) || ct_stop (sy_ctl s) = true →
    step s (mkSys (sy_st s) (sy_workers s) (sy_flusher s) (set_main MAux (sy_ctl s)))
| step_join_aux s :
    ct_main (sy_ctl s) = MAux → ct_feeding (sy_ctl s) = FbGone →
    step s (mkSys (sy_st s) (sy_workers s) (sy_flusher s) (set_main MIngest (sy_ctl s)))
| step_join_ingest s :
    ct_main (sy_ctl s) = MIngest → Forall (λ w, w = WGone) (sy_workers s) →
    step s (mkSys (signal_flush (sy_st s)) (sy_workers s) (sy_flusher s) (set_main MFlush (sy_ctl s)))
| step_return s front :
    ct_main (sy_ctl s) = MFlush → sy_flusher s = FGone front →
    step s (mkSys (sy_st s) (sy_workers s) (sy_flusher s) (set_main (MReturned (run_result cfg (sy_st s))) (sy_ctl s))).

Definition reachable (st : RecvState K) (s : Sys K) : Prop := rtc step (sys_init st) s.

(** ** Executing a schedule *)

(** The operations of a schedule: a worker receives, goes on or returns, the flusher or the
    feedback thread goes on (every read being of the current state), the caller stops the
    transfer, [run] goes on. *)
Inductive action :=
| ARecv (i : nat) (pkt : list byte) (addr : option SocketAddr) (now : Z)
| AWork (i : nat)
| ALeave (i : nat)
| AFlush
| AFeed (t : Z)
| AStop
| AMain.

Definition act_worker (i : nat) (s : Sys K) : option (Sys K) :=
  match sy_workers s !! i with
  | Some (WPlace seq p) =>
      let '(st', b) := place cfg seq p (sy_st s) in
      Some (mkSys st' (<[i := if b then WPublish seq else WIdle]> (sy_workers s)) (sy_flusher s) (sy_ctl s))
  | Some (WPublish seq) =>
      match publish seq (sy_st s) with
      | Done st' => Some (mkSys st' (<[i := WIdle]> (sy_workers s)) (sy_flusher s) (sy_ctl s))
      | Panic => None
      end
  | _ => None
  end.

Definition act_flusher (s : Sys K) : option (Sys K) :=
  match sy_flusher s with
  | FAt front b =>
      if front <? rg_total_blocks cfg then
        match flush_take front (sy_st s) with
        | Done (Some (st', staged)) => Some (mkSys st' (sy_workers s) (FWrite front staged) (sy_ctl s))
        | Done None => Some (mkSys (sy_st s) (sy_workers s) (if b then FAt front false else FBlocked front) (sy_ctl s))
        | Panic => None
        end
      else Some (mkSys (sy_st s) (sy_workers s) (FGone front) (sy_ctl s))
  | FWrite front staged =>
      Some (mkSys (flush_write cfg front staged (sy_st s)) (sy_workers s) (FAdvance front) (sy_ctl s))
  | FAdvance front => Some (mkSys (flush_advance front (sy_st s)) (sy_workers s) (FAt (front + 1) true) (sy_ctl s))
  | FBlocked front =>
      Some (if ct_stop (sy_ctl s) then mkSys (sy_st s) (sy_workers s) (FGone front) (sy_ctl s)
            else mkSys (flush_wait (sy_st s)) (sy_workers s) (FAt front false) (sy_ctl s))
  | FGone _ => None
  end.

Definition act_feeder (t : Z) (s : Sys K) : option (Sys K) :=
  let st := sy_st s in
  let ctl := sy_ctl s in
  let fb := ct_feedback ctl in
  let go st' ctl' := Some (mkSys st' (sy_workers s) (sy_flusher s) ctl') in
  match ct_feeding ctl with
  | FbTop => go st (set_feeding (if ct_stop ctl then FbGone else FbAwake) ctl)
  | FbAwake =>
      match fb_rates None st with
      | Done (st', r, target) => go st' (set_feeding (FbRated (mkPass (f64_of_Z t) r target)) ctl)
      | Panic => None
      end
  | FbRated pa =>
      match fb_advance (rs_bm st) fb with
      | Done fb' => go st (set_feed fb' (FbAdvanced pa (ls_hi_contig (fb_scanner fb'))) ctl)
      | Panic => None
      end
  | FbAdvanced pa hi =>
      match fb_scan (rs_bm st) (rs_seen_any st || rs_all_sent st) (scan_limit cfg (rs_max_seen st) (rs_all_sent st))
              (pa_now pa) (pa_rto pa) fb with
      | Done fb' => go st (set_feed fb' (FbScanned pa hi) ctl)
      | Panic => None
      end
  | FbScanned pa hi =>
      go st (set_feeding (FbJudged pa hi (fb_complete cfg (rs_all_sent st) (rs_flushed_blocks st))) ctl)
  | FbJudged pa hi c => go (fb_mark hi fb st) (set_feeding (FbMarked pa hi c) ctl)
  | FbMarked pa hi c =>
      match rs_peer st with
      | None => go st (set_feeding FbTop ctl)
      | Some _ =>
          match fb_request cfg (rs_bm st) (pa_now pa) (pa_rto pa) (pa_target pa) hi c t t fb with
          | Done (Some (fb', n, _)) => go (fb_sent true n st) (set_feed fb' (FbFinish c) ctl)
          | _ => None
          end
      end
  | FbFinish c =>
      let '(st', fb', fin) := fb_finish c st fb in
      go st' (set_feed fb' (if fin : bool then FbGone else FbTop) ctl)
  | FbGone => None
  end.

Definition is_gone (w : worker) : bool := match w with WGone => true | _ => false end.

Definition act_main (s : Sys K) : option (Sys K) :=
  let ctl := sy_ctl s in
  match ct_main ctl, ct_feeding ctl, sy_flusher s with
  | MWait, _, _ =>
      if rs_done (sy_st s) || ct_stop ctl then Some (mkSys (sy_st s) (sy_workers s) (sy_flusher s) (set_main MAux ctl))
      else None
  | MAux, FbGone, _ => Some (mkSys (sy_st s) (sy_workers s) (sy_flusher s) (set_main MIngest ctl))
  | MIngest, _, _ =>
      if forallb is_gone (sy_workers s)
      then Some (mkSys (signal_flush (sy_st s)) (sy_workers s) (sy_flusher s) (set_main MFlush ctl)) else None
  | MFlush, _, FGone _ =>
      Some (mkSys (sy_st s) (sy_workers s) (sy_flusher s) (set_main (MReturned (run_result cfg (sy_st s))) ctl))
  | _, _, _ => None
  end.

Definition act (a : action) (s : Sys K) : option (Sys K) :=
  match a with
  | ARecv i pkt addr now =>
      match sy_workers s !! i, pkt with
      | Some WIdle, _ :: _ =>
          match accept_packet cfg pkt addr now
                  (add_stat bytes_recv (length pkt) (add_stat packets_recv 1 (sy_st s))) with
          | Done (st', r) =>
              Some (mkSys st' (<[i := match r with Some (seq, p) => WPlace seq p | None => WIdle end]> (sy_workers s))
                      (sy_flusher s) (sy_ctl s))
          | Panic => None
          end
      | _, _ => None
      end
  | AWork i => act_worker i s
  | ALeave i =>
      match sy_workers s !! i with
      | Some WIdle => Some (mkSys (sy_st s) (<[i := WGone]> (sy_workers s)) (sy_flusher s) (sy_ctl s))
      | _ => None
      end
  | AFlush => act_flusher s
  | AFeed t => act_feeder t s
  | AStop => Some (mkSys (sy_st s) (sy_workers s) (sy_flusher s) (set_stop (sy_ctl s)))
  | AMain => act_main s
  end.

Fixpoint exec (acts : list action) (s : Sys K) : option (Sys K) :=
  match acts with
  | [] => Some s
  | a :: acts' => match act a s with Some s' => exec acts' s' | None => None end
  end.

Lemma view_refl bm : view_of bm bm.
Proof. by split_and!. Qed.

Lemma act_worker_step i s s' : act_worker i s = Some s' → step s s'.
Proof.
  unfold act_worker. destruct (sy_workers s !! i) as [[|seq p|seq|]|] eqn:Ei; try done.
  - destruct (place _ _ _ _) as [st' b] eqn:Ep. intros [= <-]. by eapply step_place.
  - destruct (publish _ _) eqn:Ep; [|done]. intros [= <-]. by eapply step_publish.
Qed.

Lemma act_flusher_step s s' : act_flusher s = Some s' → step s s'.
Proof.
  unfold act_flusher. destruct (sy_flusher s) as [front b| | | |] eqn:Ef; [|intros [= <-]; by econstructor..|done].
  destruct (Z.ltb_spec front (rg_total_blocks cfg)); [|intros [= <-]; by eapply step_flushed].
  destruct (flush_take _ _) as [[[st' staged]|]|] eqn:Et; [|intros [= <-]; by eapply step_blocked|done].
  intros [= <-]. by eapply step_take.
Qed.

Lemma act_feeder_step t s s' : act_feeder t s = Some s' → step s s'.
Proof.
  unfold act_feeder. destruct (ct_feeding (sy_ctl s)) as [| |pa|pa hi|pa hi|pa hi c|pa hi c|c|] eqn:Ef; try done.
  - intros [= <-]. by apply step_fb_top.
  - destruct (fb_rates _ _) as [[[st' r] target]|] eqn:E; [|done]. intros [= <-]. by eapply step_fb_rates.
  - destruct (fb_advance _ _) as [fb'|] eqn:E; [|done]. intros [= <-]. by eapply step_fb_advance.
  - destruct (fb_scan _ _ _ _ _ _) as [fb'|] eqn:E; [|done]. intros [= <-].
    eapply step_fb_scan; [exact Ef|apply view_refl|reflexivity| | |exact E]; [done|].
    intros ?%orb_true_iff. done.
  - intros [= <-]. by eapply step_fb_judge.
  - intros [= <-]. by eapply step_fb_mark.
  - destruct (rs_peer (sy_st s)) as [peer|] eqn:Ep; [|intros [= <-]; by eapply step_fb_nopeer].
    destruct (fb_request _ _ _ _ _ _ _ _ _ _) as [[[[fb' n] pdu]|]|] eqn:E; [|done..]. intros [= <-].
    eapply step_fb_send; [exact Ef|exact Ep|apply view_refl|exact E].
  - destruct (fb_finish _ _ _) as [[st' fb'] fin] eqn:E. intros [= <-]. by eapply step_fb_finish.
Qed.

Lemma act_main_step s s' : act_main s = Some s' → step s s'.
Proof.
  unfold act_main. destruct (ct_main (sy_ctl s)) eqn:Em; [| | | |done].
  - destruct (_ || _) eqn:E; [|done]. intros [= <-]. by apply step_end.
  - destruct (ct_feeding (sy_ctl s)) eqn:E; try done. intros [= <-]. by apply step_join_aux.
  - destruct (forallb _ _) eqn:E; [|done]. intros [= <-]. apply step_join_ingest; [done|].
    apply Forall_forall. intros w Hw. rewrite forallb_forall in E. specialize (E w (proj1 (list_elem_of_In _ _) Hw)).
    by destruct w.
  - destruct (ct_feeding (sy_ctl s)); destruct (sy_flusher s) eqn:E; try done; intros [= <-]; rewrite <-E; by eapply step_return.
Qed.

(** A schedule is a run. *)
Lemma exec_steps acts : ∀ s s',
  (∀ i pkt addr now, ARecv i pkt addr now ∈ acts → net pkt) → exec acts s = Some s' → rtc step s s'.
Proof.
  induction acts as [|a acts IH]; intros s s' Hnet; cbn [exec]; [intros [= <-]; constructor|].
  destruct (act a s) as [s1|] eqn:Ea; [|done]. intros E. apply (rtc_l _ _ s1).
  2: { apply IH; [|done]. intros. eapply Hnet. right. eassumption. }
  destruct a as [i pkt addr now|i|i| |t| |]; cbn [act] in Ea.
  - destruct (sy_workers s !! i) as [[| | |]|] eqn:Ei; try done. destruct pkt as [|b pkt]; [done|].
    destruct (accept_packet _ _ _ _ _) as [[st' r]|] eqn:E1; [|done]. injection Ea as <-.
    eapply (step_admit s i (b :: pkt)); [exact Ei| |done|exact E1]. eapply Hnet. left.
  - by eapply act_worker_step.
  - destruct (sy_workers s !! i) as [[| | |]|] eqn:Ei; try done. injection Ea as <-. by apply step_leave.
  - by apply act_flusher_step.
  - by eapply act_feeder_step.
  - injection Ea as <-. apply step_stop.
  - by apply act_main_step.
Qed.
End sys.

(** ** Integrity *)

(** The blocks the workers hold: accepted, not yet ready. *)
Definition held_of (w : worker) : option Z :=
  match w with WIdle | WGone => None | WPlace seq _ | WPublish seq => Some seq end.
Definition held (ws : list worker) : list Z := omap held_of ws.

(** Replacing a worker: the others' blocks stay. *)
Lemma held_insert ws i w w' :
  ws !! i = Some w →
  ∃ others, held ws ≡ₚ option_list (held_of w) ++ others ∧
            held (<[i := w']> ws) ≡ₚ option_list (held_of w') ++ others.
Proof.
  intros Hi. exists (held (take i ws) ++ held (drop (S i) ws)).
  assert (∀ w, held (take i ws ++ w :: drop (S i) ws) ≡ₚ
            option_list (held_of w) ++ held (take i ws) ++ held (drop (S i) ws)) as Hm.
  { intros w0. unfold held. rewrite omap_app. simpl. destruct (held_of w0); simpl; [|done].
    by rewrite Permutation_middle. }
  split; [by rewrite <-Hm, take_drop_middle|].
  rewrite insert_take_drop by (by eapply lookup_lt_Some). apply Hm.
Qed.

(** What the feedback thread leaves alone. *)
Definition same_feedback {K} (st st' : RecvState K) : Prop :=
  rs_sink st' = rs_sink st ∧ rs_bm st' = rs_bm st ∧ rs_ready_bm st' = rs_ready_bm st ∧
  rs_stage st' = rs_stage st ∧ rs_flushed_blocks st' = rs_flushed_blocks st.

(** The completion flag of the iteration under way. *)
Definition fb_flag (f : feeding) : bool :=
  match f with FbJudged _ _ c | FbMarked _ _ c | FbFinish c => c | _ => false end.

Lemma fb_rates_frame {K} cfg control (st st' : RecvState K) r t :
  recv_ok cfg st → fb_rates control st = Done (st', r, t) →
  recv_ok cfg st' ∧ same_feedback st st' ∧ rs_done st' = rs_done st.
Proof.
  intros Hok. unfold fb_rates. intros (rt & _ & E)%outcome_bind_done.
  apply outcome_bind_done in E as ([c target] & _ & E). apply Done_inj in E. injection E as <- _ _.
  split; [destruct Hok; by split|done].
Qed.

Lemma fb_sent_frame {K} cfg send_ok n (st : RecvState K) :
  recv_ok cfg st → recv_ok cfg (fb_sent send_ok n st) ∧ same_feedback st (fb_sent send_ok n st) ∧
  rs_done (fb_sent send_ok n st) = rs_done st.
Proof. intros Hok. unfold fb_sent. destruct (_ && _); [split; [destruct Hok; by split|done]|done]. Qed.

Lemma fb_finish_frame {K} cfg complete (st : RecvState K) fb st' fb' fin :
  recv_ok cfg st → fb_finish complete st fb = (st', fb', fin) →
  recv_ok cfg st' ∧ same_feedback st st' ∧ (rs_done st' = true → rs_done st = true ∨ complete = true).
Proof.
  intros Hok. unfold fb_finish. intros [= <- <- <-]. destruct complete; cbn [andb]; [|by split_and!; auto].
  destruct (_ <=? _); [|by split_and!; auto]. split; [destruct Hok; by split|]. split; [done|auto].
Qed.

Lemma feedback_iter_frame {K} cfg control t0 t1 t2 send_ok (st : RecvState K) fb r :
  recv_ok cfg st → feedback_iter cfg control t0 t1 t2 send_ok st fb = Done (Some r) →
  let st' := match r with FbNoPeer st' _ | FbSent st' _ _ _ => st' end in
  recv_ok cfg st' ∧ same_feedback st st' ∧
  (rs_done st' = true → rs_done st = true ∨ rs_flushed_blocks st = rg_total_blocks cfg).
Proof.
  intros Hok. unfold feedback_iter. intros (rt & _ & E)%outcome_bind_done.
  apply outcome_bind_done in E as ([c target] & _ & E).
  apply outcome_bind_done in E as (s1 & _ & E). apply outcome_bind_done in E as (s2 & _ & E).
  simpl in E. destruct (rs_peer st) as [peer|].
  2: { apply Done_inj in E. injection E as <-. split; [destruct Hok; by split|]. split; [done|]. simpl. auto. }
  apply outcome_bind_done in E as ([[due s3]|] & _ & E); [|done].
  apply outcome_bind_done in E as ([buf nn] & _ & E). apply outcome_bind_done in E as (pdu & _ & E).
  apply Done_inj in E. injection E as <-. cbv zeta.
  destruct (rs_all_sent st && (rs_flushed_blocks st =? rg_total_blocks cfg)) eqn:Ec; cbn [andb].
  - apply andb_true_iff in Ec as [_ Ec%Z.eqb_eq]. destruct Hok.
    destruct (_ <=? _), (send_ok && _); (split; [by split|]); (split; [done|]); auto.
  - destruct Hok. destruct (send_ok && _); (split; [by split|]); (split; [done|]); auto.
Qed.

Section integrity.
Context `{!Crc32c, !Crc32cLaws, !AeadCrate, !AeadLaws} {K : Type} `{!BlockSink K, !BlockSinkLaws K}.
Context (cfg : RecvConfig) (net : list byte → Prop) (content : list byte).
Implicit Types (st : RecvState K) (s : Sys K) (seq : Z).

(** Block [seq] of the content being sent, and its presence in a sink. *)
Definition blk seq : list byte := file_block content (Z.to_nat (rg_block_size cfg)) (Z.to_nat seq).
Definition at_sink (k : K) seq : Prop :=
  block_at (sink_bytes k) (Z.to_nat (rg_block_size cfg)) content (Z.to_nat seq).

(** The transfer is set up for this content, and a datagram that passes the checks carries
    the block it names. *)
Record sys_cfg_ok : Prop := {
  sk_bs : 0 < rg_block_size cfg;
  sk_len : length content < 2 ^ 62;
  sk_blocks : num_blocks (length content) (rg_block_size cfg) = Done (rg_total_blocks cfg);
  sk_net pkt addr h p : net pkt → open_packet cfg pkt addr = Done (Block h p) → p = blk (dh_block_seq h)
}.

Context (Hcfg : sys_cfg_ok).

Lemma blk_bounds seq :
  0 ≤ seq < rg_total_blocks cfg →
  (Z.to_nat seq * Z.to_nat (rg_block_size cfg) + length (blk seq) ≤ length content)%nat ∧
  (length (blk seq) ≤ Z.to_nat (rg_block_size cfg))%nat ∧
  wrap 64 (seq * rg_block_size cfg) = (Z.to_nat seq * Z.to_nat (rg_block_size cfg))%nat.
Proof.
  intros Hs. destruct Hcfg. pose proof (proj1 (num_blocks_index _ _ _ seq sk_bs0 sk_blocks0 ltac:(lia)) ltac:(lia)).
  unfold blk. rewrite length_file_block. split; [lia|]. split; [lia|].
  rewrite wrap_small by (unfold is_uint; lia). lia.
Qed.

(** Writing a block puts it in the sink and disturbs no other. *)
Lemma sink_put k seq :
  sink_wf k → length (sink_bytes k) = length content → 0 ≤ seq < rg_total_blocks cfg →
  ∃ k', sink_write_all_at k (wrap 64 (seq * rg_block_size cfg)) (blk seq) = (k', Ok ()) ∧
    sink_wf k' ∧ length (sink_bytes k') = length content ∧ at_sink k' seq ∧
    ∀ seq', 0 ≤ seq' → at_sink k seq' → at_sink k' seq'.
Proof.
  intros Hwf Hl Hs. destruct (blk_bounds seq Hs) as (Hb1 & Hb2 & Hw). pose proof (sk_len Hcfg). rewrite Hw.
  destruct (sink_write_ok k (Z.to_nat seq * Z.to_nat (rg_block_size cfg))%nat (blk seq))
    as (k' & E & Hwf' & Hbytes); [done|lia|lia|].
  exists k'. split; [done|]. split; [done|]. split; [by rewrite Hbytes, length_inserts|].
  assert (at_sink k' seq) as Hsame.
  { unfold at_sink. rewrite Hbytes. apply block_at_write_same. fold (blk seq). lia. }
  split; [done|]. intros seq' Hs' Hat. destruct (decide (seq' = seq)) as [->|Hne]; [done|].
  unfold at_sink. rewrite Hbytes. apply block_at_write_other; [lia|done|lia|done].
Qed.

(** A block whose packet is being stored, or is ready, is staged, in the sink, or in the
    flusher's hands. *)
Definition stored s seq : Prop :=
  rs_stage (sy_st s) !! seq = Some (blk seq) ∨ at_sink (rs_sink (sy_st s)) seq ∨
  sy_flusher s = FWrite seq (Some (blk seq)).

Definition flusher_ok (k : K) (f : flusher) : Prop :=
  match f with
  | FAt _ _ | FBlocked _ | FGone _ => True
  | FWrite n (Some b) => n < rg_total_blocks cfg ∧ b = blk n
  | FWrite n None | FAdvance n => n < rg_total_blocks cfg ∧ at_sink k n
  end.

Record sys_inv s : Prop := {
  iv_recv : recv_ok cfg (sy_st s);
  iv_wf : sink_wf (rs_sink (sy_st s));
  iv_len : length (sink_bytes (rs_sink (sy_st s))) = length content;
  iv_front : 0 ≤ flusher_front (sy_flusher s) ≤ rg_total_blocks cfg;
  iv_flushed : rs_flushed_blocks (sy_st s) = flusher_front (sy_flusher s);
  iv_below seq : 0 ≤ seq < flusher_front (sy_flusher s) → at_sink (rs_sink (sy_st s)) seq;
  iv_fl : flusher_ok (rs_sink (sy_st s)) (sy_flusher s);
  iv_stage seq p : rs_stage (sy_st s) !! seq = Some p → p = blk seq ∧ 0 ≤ seq < rg_total_blocks cfg;
  iv_stored seq : 0 ≤ seq < rg_total_blocks cfg →
    bit (rs_ready_bm (sy_st s)) seq = true ∨ WPublish seq ∈ sy_workers s → stored s seq;
  iv_place seq p : WPlace seq p ∈ sy_workers s → p = blk seq;
  iv_held seq : seq ∈ held (sy_workers s) → 0 ≤ seq < rg_total_blocks cfg;
  iv_noloss seq : 0 ≤ seq < rg_total_blocks cfg → bit (rs_bm (sy_st s)) seq = true →
    bit (rs_ready_bm (sy_st s)) seq = true ∨ seq ∈ held (sy_workers s);
  iv_done : rs_done (sy_st s) = true ∨ fb_flag (ct_feeding (sy_ctl s)) = true →
    rs_flushed_blocks (sy_st s) = rg_total_blocks cfg
}.

(** The start of [run], on an allocated sink. *)
Lemma sys_inv_init st :
  recv_ok cfg st → sink_wf (rs_sink st) → length (sink_bytes (rs_sink st)) = length content →
  rs_stage st = ∅ → rs_flushed_blocks st = 0 → rs_done st = false →
  (∀ j, bit (rs_bm st) j = false) → (∀ j, bit (rs_ready_bm st) j = false) →
  sys_inv (sys_init cfg st).
Proof.
  intros Hok Hwf Hl Hst Hf Hd Hb Hr. unfold sys_init.
  assert (∀ n, held (replicate n WIdle) = []) as Hh by (by induction n).
  pose proof (num_blocks_done (length content) _ (sk_bs Hcfg)) as (n & E & Hn & _).
  rewrite (sk_blocks Hcfg) in E. apply Done_inj in E as <-.
  split; simpl; try done.
  - intros. lia.
  - intros seq p. by rewrite Hst, lookup_empty.
  - intros seq Hs [Ht|Hin]; [by rewrite Hr in Ht|]. by apply elem_of_replicate_inv in Hin.
  - intros seq p Hin. by apply elem_of_replicate_inv in Hin.
  - intros seq. rewrite Hh. set_solver.
  - intros seq _ Ht. by rewrite Hb in Ht.
  - rewrite Hd. by intros [].
Qed.

Lemma elem_of_insert_worker (ws : list worker) i w x : x ∈ <[i := w]> ws → x = w ∨ x ∈ ws.
Proof.
  intros (j & Hj)%list_elem_of_lookup. apply list_lookup_insert_Some in Hj as [(_ & <- & _)|(_ & Hj)]; [by left|].
  right. by eapply list_elem_of_lookup_2.
Qed.

Lemma recv_ok_add_stat f n st : recv_ok cfg st → recv_ok cfg (add_stat f n st).
Proof. intros []. by split. Qed.

Lemma step_admit_inv s i pkt addr now st' r :
  sys_inv s → sy_workers s !! i = Some WIdle → net pkt →
  accept_packet cfg pkt addr now (add_stat bytes_recv (length pkt) (add_stat packets_recv 1 (sy_st s))) = Done (st', r) →
  sys_inv (mkSys st' (<[i := match r with Some (seq, p) => WPlace seq p | None => WIdle end]> (sy_workers s))
             (sy_flusher s) (sy_ctl s)).
Proof.
  intros [] Hi Hnet E.
  destruct (admit_spec cfg pkt addr now (add_stat bytes_recv (length pkt) (add_stat packets_recv 1 (sy_st s))))
    as (st1 & r1 & E1 & Hok1 & (Es & Er & Eg & Ef & Efl & Ed) & Hb & Hr); [by do 2 apply recv_ok_add_stat|].
  rewrite E in E1. apply Done_inj in E1. simplify_eq.
  set (w' := match r1 with Some (seq, p) => WPlace seq p | None => WIdle end).
  destruct (held_insert (sy_workers s) i WIdle w' Hi) as (others & Hh & Hh'). simpl in Hh.
  cbn [add_stat upd_stats rs_sink rs_ready_bm rs_stage rs_flushed_blocks rs_done rs_bm] in *.
  split; cbn [sy_st sy_workers sy_flusher]; rewrite ?Es, ?Er, ?Eg, ?Efl, ?Ed; try done.
  - intros seq Hs Hin. destruct (iv_stored0 seq Hs) as [?|[?|?]];
      [|by left; cbn [sy_st]; rewrite Eg|by right; left; cbn [sy_st]; rewrite Es|by right; right].
    destruct Hin as [?|[Hw|?]%elem_of_insert_worker]; [by left| |by right].
    unfold w' in Hw. by destruct r1 as [[]|].
  - intros seq p [Hw|?]%elem_of_insert_worker; [|by eapply iv_place0]. unfold w' in Hw.
    destruct r1 as [[seq1 p1]|]; [|done]. injection Hw as -> ->.
    destruct (Hr seq1 p1 eq_refl) as (_ & h & Ho & _ & ->). by eapply (sk_net Hcfg).
  - intros seq. rewrite Hh'. intros [Hw|?]%elem_of_app; [|apply iv_held0; by rewrite Hh].
    unfold w' in Hw. destruct r1 as [[seq1 p1]|]; simpl in Hw; [|by apply not_elem_of_nil in Hw].
    apply list_elem_of_singleton in Hw as ->. by destruct (Hr seq1 p1 eq_refl) as (_ & h & _ & (_ & Hs & _) & ->).
  - intros seq Hs. rewrite Hb by lia. intros [Hw|Hold]%orb_true_iff.
    + apply bool_decide_eq_true in Hw. right. rewrite Hh'. unfold w'.
      destruct r1 as [[seq1 p1]|]; [|done]. injection Hw as ->. simpl. by left.
    + destruct (iv_noloss0 seq Hs Hold) as [?|Hin]; [by left|]. right. rewrite Hh', elem_of_app. right. by rewrite Hh in Hin.
Qed.

Lemma stored_put s st' ws k' seq' :
  (∀ j, 0 ≤ j → at_sink (rs_sink (sy_st s)) j → at_sink k' j) → 0 ≤ seq' →
  rs_sink st' = k' → rs_stage st' = rs_stage (sy_st s) →
  stored s seq' → stored (mkSys st' ws (sy_flusher s) (sy_ctl s)) seq'.
Proof.
  intros Hk Hs E1 E2 [?|[?|?]]; unfold stored; cbn [sy_st sy_flusher]; rewrite E1, E2; [by left|right; left; by apply Hk|by right; right].
Qed.

Lemma step_place_inv s i seq p st' b :
  sys_inv s → sy_workers s !! i = Some (WPlace seq p) → place cfg seq p (sy_st s) = (st', b) →
  sys_inv (mkSys st' (<[i := if b then WPublish seq else WIdle]> (sy_workers s)) (sy_flusher s) (sy_ctl s)).
Proof.
  intros [] Hi E. pose proof (iv_place0 seq p (list_elem_of_lookup_2 _ _ _ Hi)) as ->.
  destruct (held_insert (sy_workers s) i _ (WPublish seq) Hi) as (others & Hh & Hh'). simpl in Hh, Hh'.
  assert (0 ≤ seq < rg_total_blocks cfg) as Hs by (apply iv_held0; rewrite Hh; by left).
  pose proof (place_ok cfg seq (blk seq) (sy_st s) iv_recv0) as Hok. rewrite E in Hok. cbn [fst] in Hok.
  assert (∀ j, WPublish j ∈ <[i := WPublish seq]> (sy_workers s) → j = seq ∨ WPublish j ∈ sy_workers s) as Hpub.
  { intros j [Hw|?]%elem_of_insert_worker; [left; congruence|by right]. }
  assert (∀ j q, WPlace j q ∈ <[i := WPublish seq]> (sy_workers s) → q = blk j) as Hpl.
  { intros j q [Hw|?]%elem_of_insert_worker; [done|by eapply iv_place0]. }
  assert (∀ j, j ∈ held (<[i := WPublish seq]> (sy_workers s)) ↔ j ∈ held (sy_workers s)) as Hheld
    by (intros j; by rewrite Hh, Hh').
  unfold place in E. destruct (rs_free (sy_st s)) as [|free].
  - destruct (sink_put (rs_sink (sy_st s)) seq iv_wf0 iv_len0 Hs) as (k' & Ew & Hwf & Hl & Hat & Hkeep).
    rewrite Ew in E. injection E as <- <-. split; cbn [sy_st sy_workers sy_flusher set_sink rs_sink rs_stage
      rs_flushed_blocks rs_ready_bm rs_bm rs_done]; try done.
    + intros j Hj. apply Hkeep; [lia|by apply iv_below0].
    + destruct (sy_flusher s) as [|n [q|]|n| |]; simpl in *; try done; (split; [tauto|]); apply Hkeep; [lia|tauto|lia|tauto].
    + intros j Hj Hin. destruct (decide (j = seq)) as [->|]; [by right; left|].
      eapply stored_put; [exact Hkeep|lia|done|done|]. apply iv_stored0; [done|].
      destruct Hin as [?|[?|?]%Hpub]; [by left|done|by right].
    + intros j Hj. by apply iv_held0, Hheld.
    + intros j Hj Hb. destruct (iv_noloss0 j Hj Hb); [by left|right; by apply Hheld].
  - injection E as <- <-. split; cbn [sy_st sy_workers sy_flusher set_stage rs_sink rs_stage
      rs_flushed_blocks rs_ready_bm rs_bm rs_done]; try done.
    + intros j q [[<- <-]|[_ ?]]%lookup_insert_Some; [done|by apply iv_stage0].
    + intros j Hj Hin. destruct (decide (j = seq)) as [->|Hne].
      { left. cbn [sy_st rs_stage set_stage]. by rewrite lookup_insert_eq. }
      destruct (iv_stored0 j Hj) as [?|[?|?]]; [| |by right; left|by right; right].
      { destruct Hin as [?|[?|?]%Hpub]; [by left|done|by right]. }
      left. cbn [sy_st rs_stage set_stage]. by rewrite lookup_insert_ne.
    + intros j Hj. by apply iv_held0, Hheld.
    + intros j Hj Hb. destruct (iv_noloss0 j Hj Hb); [by left|right; by apply Hheld].
Qed.

Lemma step_publish_inv s i seq st' :
  sys_inv s → sy_workers s !! i = Some (WPublish seq) → publish seq (sy_st s) = Done st' →
  sys_inv (mkSys st' (<[i := WIdle]> (sy_workers s)) (sy_flusher s) (sy_ctl s)).
Proof.
  intros [] Hi E. destruct (held_insert (sy_workers s) i _ WIdle Hi) as (others & Hh & Hh'). simpl in Hh, Hh'.
  assert (0 ≤ seq < rg_total_blocks cfg) as Hs by (apply iv_held0; rewrite Hh; by left).
  destruct (publish_spec cfg seq (sy_st s) iv_recv0 Hs) as (bm' & E' & Hwf & Ht & Hb).
  rewrite E in E'. apply Done_inj in E' as ->.
  split; cbn [sy_st sy_workers sy_flusher signal_flush set_ready rs_sink rs_stage rs_flushed_blocks rs_ready_bm
    rs_bm rs_done]; try done.
  - destruct iv_recv0. by split.
  - intros j Hj Hin. apply iv_stored0; [done|]. destruct Hin as [Hr|[?|?]%elem_of_insert_worker]; [|done|by right].
    rewrite Hb in Hr by lia. apply orb_true_iff in Hr as [->%bool_decide_eq_true|?]; [|by left].
    right. by eapply list_elem_of_lookup_2.
  - intros j p [?|?]%elem_of_insert_worker; [done|by eapply iv_place0].
  - intros j. rewrite Hh'. intros ?. apply iv_held0. rewrite Hh. by right.
  - intros j Hj Hbm. rewrite Hb by lia. destruct (iv_noloss0 j Hj Hbm) as [->|Hin]; [left; by rewrite orb_true_r|].
    rewrite Hh in Hin. apply elem_of_cons in Hin as [->|?]; [left; by rewrite bool_decide_eq_true_2|].
    right. by rewrite Hh'.
Qed.

Lemma step_take_inv s front pr st' staged :
  sys_inv s → sy_flusher s = FAt front pr → front < rg_total_blocks cfg →
  flush_take front (sy_st s) = Done (Some (st', staged)) →
  sys_inv (mkSys st' (sy_workers s) (FWrite front staged) (sy_ctl s)).
Proof.
  intros [] Ef Hlt E. rewrite Ef in *. cbn [flusher_front] in *. unfold flush_take in E.
  rewrite is_set_spec in E by (first [apply iv_recv0|rewrite (ro_ready_total _ _ iv_recv0); lia]).
  cbn [mbind outcome_bind] in E. destruct (bit (rs_ready_bm (sy_st s)) front) eqn:Eb; [|done].
  apply Done_inj in E. injection E as <- <-.
  assert (stored s front) as Hst by (apply iv_stored0; [lia|by left]).
  split; cbn [sy_st sy_workers sy_flusher set_stage rs_sink rs_stage rs_flushed_blocks rs_ready_bm
    rs_bm rs_done flusher_front]; try done.
  - destruct iv_recv0. by split.
  - simpl. destruct (rs_stage (sy_st s) !! front) as [b|] eqn:Es; (split; [lia|]).
    + by apply iv_stage0 in Es as [-> _].
    + destruct Hst as [?|[?|?]]; [congruence|done|congruence].
  - intros j p [_ ?]%lookup_delete_Some. by apply iv_stage0.
  - intros j Hj Hin. destruct (iv_stored0 j Hj Hin) as [Hj1|[Hj2|Hj3]]; [|by right; left|congruence].
    destruct (decide (j = front)) as [->|Hne].
    + right; right. cbn [sy_flusher]. by rewrite Hj1.
    + left. cbn [sy_st rs_stage set_stage]. by rewrite lookup_delete_ne.
Qed.

Lemma step_write_inv s front staged :
  sys_inv s → sy_flusher s = FWrite front staged →
  sys_inv (mkSys (flush_write cfg front staged (sy_st s)) (sy_workers s) (FAdvance front) (sy_ctl s)).
Proof.
  intros [] Ef. rewrite Ef in *. cbn [flusher_front] in *. unfold flush_write. destruct staged as [b|].
  - destruct iv_fl0 as [Hlt ->].
    destruct (sink_put (rs_sink (sy_st s)) front iv_wf0 iv_len0 ltac:(lia)) as (k' & -> & Hwf & Hl & Hat & Hkeep).
    split; cbn [sy_st sy_workers sy_flusher set_stage set_sink rs_sink rs_stage rs_flushed_blocks rs_ready_bm
      rs_bm rs_done flusher_front]; try done.
    + destruct iv_recv0. by split.
    + intros j Hj. apply Hkeep; [lia|by apply iv_below0].
    + intros j Hj Hin. destruct (iv_stored0 j Hj Hin) as [?|[?|E]]; [by left|right; left; apply Hkeep; [lia|done]|].
      rewrite Ef in E. injection E as ->. by right; left.
  - split; cbn [sy_st sy_workers sy_flusher flusher_front]; try done.
    intros j Hj Hin. destruct (iv_stored0 j Hj Hin) as [?|[?|E]]; [by left|by right; left|congruence].
Qed.

Lemma step_advance_inv s front :
  sys_inv s → sy_flusher s = FAdvance front →
  sys_inv (mkSys (flush_advance front (sy_st s)) (sy_workers s) (FAt (front + 1) true) (sy_ctl s)).
Proof.
  intros [] Ef. rewrite Ef in *. cbn [flusher_front flusher_ok] in *. destruct iv_fl0 as [Hlt Hat].
  split; cbn [sy_st sy_workers sy_flusher flush_advance set_flushed rs_sink rs_stage rs_flushed_blocks rs_ready_bm
    rs_bm rs_done flusher_front]; try done.
  - destruct iv_recv0. by split.
  - lia.
  - intros j Hj. destruct (decide (j = front)) as [->|]; [done|]. apply iv_below0. lia.
  - intros j Hj Hin. destruct (iv_stored0 j Hj Hin) as [?|[?|E]]; [by left|by right; left|congruence].
  - intros Hd. specialize (iv_done0 Hd). lia.
Qed.

(** The flusher between two blocks, at the same frontier. *)
Lemma step_flusher_inv s f f' st' :
  sys_inv s → sy_flusher s = f → flusher_front f' = flusher_front f →
  match f with FAt _ _ | FBlocked _ => True | _ => False end →
  match f' with FAt _ _ | FBlocked _ | FGone _ => True | _ => False end →
  st' = sy_st s ∨ st' = flush_wait (sy_st s) → sys_inv (mkSys st' (sy_workers s) f' (sy_ctl s)).
Proof.
  intros [] Ef Hfr Hf Hf' Hst. rewrite Ef in *.
  assert (∀ j, stored s j → stored (mkSys st' (sy_workers s) f' (sy_ctl s)) j) as Hsto.
  { intros j. unfold stored. rewrite Ef. cbn [sy_st sy_flusher]. intros [?|[?|?]]; [left|right; left|by destruct f];
      by destruct Hst as [-> | ->]. }
  assert (recv_ok cfg st') by (destruct Hst as [-> | ->]; [done|]; destruct iv_recv0; by split).
  destruct Hst as [-> | ->]; split; cbn [sy_st sy_workers sy_flusher sy_ctl flush_wait rs_sink rs_stage rs_flushed_blocks rs_ready_bm
    rs_bm rs_done]; rewrite ?Hfr; auto; try done; by destruct f'.
Qed.

Lemma step_feedback_inv s st' fb' :
  sys_inv s → recv_ok cfg st' → same_feedback (sy_st s) st' →
  (rs_done st' = true ∨ fb_flag (ct_feeding fb') = true →
     rs_done (sy_st s) = true ∨ fb_flag (ct_feeding (sy_ctl s)) = true ∨ rs_flushed_blocks (sy_st s) = rg_total_blocks cfg) →
  sys_inv (mkSys st' (sy_workers s) (sy_flusher s) fb').
Proof.
  intros [] Hok (E1 & E2 & E3 & E4 & E5) Hd.
  split; cbn [sy_st sy_workers sy_flusher]; rewrite ?E1, ?E2, ?E3, ?E4, ?E5; try done.
  - intros j Hj Hin. destruct (iv_stored0 j Hj Hin) as [?|[?|?]];
      [left|right; left|right; right]; cbn [sy_st sy_flusher]; by rewrite ?E1, ?E4.
  - intros Ht. destruct (Hd Ht) as [?|[?|?]]; auto.
Qed.

Lemma step_leave_inv s i :
  sys_inv s → sy_workers s !! i = Some WIdle →
  sys_inv (mkSys (sy_st s) (<[i := WGone]> (sy_workers s)) (sy_flusher s) (sy_ctl s)).
Proof.
  intros [] Hi. destruct (held_insert (sy_workers s) i _ WGone Hi) as (others & Hh & Hh'). simpl in Hh, Hh'.
  split; cbn [sy_st sy_workers sy_flusher sy_ctl]; try done.
  - intros j Hj Hin. apply iv_stored0; [done|]. destruct Hin as [?|[?|?]%elem_of_insert_worker]; [by left|done|by right].
  - intros j p [?|?]%elem_of_insert_worker; [done|by eapply iv_place0].
  - intros j. rewrite Hh', <-Hh. apply iv_held0.
  - intros j Hj Hb. rewrite Hh', <-Hh. by apply iv_noloss0.
Qed.

(** A step of the control part alone. *)
Local Ltac ctl_step :=
  apply step_feedback_inv; [done|by apply iv_recv|done|]; simpl;
  repeat match goal with H : ct_feeding _ = _ |- _ => rewrite !H; clear H end; simpl.

Lemma sys_inv_step s s' : sys_inv s → step cfg net s s' → sys_inv s'.
Proof.
  intros Hinv Hstep. destruct Hstep as [| | | | | | | | | | | | | | |s pa hi complete Hf| |
    s pa hi complete view t1 t2 send_ok peer fb' n pdu Hf| s complete st' fb' fin Hf| | | | |].
  - by eapply step_admit_inv.
  - by eapply step_place_inv.
  - by eapply step_publish_inv.
  - by eapply step_leave_inv.
  - by eapply step_take_inv.
  - by eapply step_write_inv.
  - by eapply step_advance_inv.
  - destruct b; (eapply step_flusher_inv; [done|eassumption|done..|by left]).
  - destruct (ct_stop _); (eapply step_flusher_inv; [done|eassumption|done..|first [by left|by right]]).
  - eapply step_flusher_inv; [done|eassumption|done..|by left].
  - ctl_step. destruct (ct_stop _); intuition done.
  - destruct (fb_rates_frame cfg _ _ _ _ _ (iv_recv _ Hinv) ltac:(eassumption)) as (? & ? & Hd).
    apply step_feedback_inv; try done. rewrite Hd. simpl. intuition done.
  - ctl_step. intuition done.
  - ctl_step. intuition done.
  - ctl_step. unfold fb_complete. rewrite andb_true_iff, Z.eqb_eq. intuition done.
  - apply step_feedback_inv; [done|by destruct (iv_recv _ Hinv)|done|]. simpl. rewrite Hf. intuition done.
  - ctl_step. intuition done.
  - destruct (fb_sent_frame cfg send_ok n _ (iv_recv _ Hinv)) as (? & ? & Hd).
    apply step_feedback_inv; try done. rewrite Hd. simpl. rewrite Hf. intuition done.
  - destruct (fb_finish_frame cfg complete _ _ _ _ _ (iv_recv _ Hinv) ltac:(eassumption)) as (? & ? & Hd).
    apply step_feedback_inv; try done. rewrite Hf. intros [?|?]; [intuition done|by destruct fin].
  - ctl_step. intuition done.
  - ctl_step. intuition done.
  - ctl_step. intuition done.
  - apply step_feedback_inv; [done|by destruct (iv_recv _ Hinv)|done|]. simpl. intuition done.
  - ctl_step. intuition done.
Qed.

Lemma sys_inv_reachable st s : sys_inv (sys_init cfg st) → reachable cfg net st s → sys_inv s.
Proof. intros Hi Hr. unfold reachable in Hr. induction Hr; eauto using sys_inv_step. Qed.

(** All blocks in place. *)
Lemma sys_inv_complete s :
  sys_inv s → rs_flushed_blocks (sy_st s) = rg_total_blocks cfg → sink_bytes (rs_sink (sy_st s)) = content.
Proof.
  intros [] Hf. pose proof (sk_bs Hcfg) as Hbs. apply (blocks_all _ _ (Z.to_nat (rg_block_size cfg))); [lia|done|].
  intros j Hj. pose proof (num_blocks_index _ _ _ (Z.of_nat j) Hbs (sk_blocks Hcfg) ltac:(lia)) as Hi.
  assert (at_sink (rs_sink (sy_st s)) j) as Hat; [apply iv_below0; lia|].
  unfold at_sink in Hat. by rewrite Nat2Z.id in Hat.
Qed.

Lemma sys_inv_fresh sink st :
  recv_fresh cfg sink st → sink_wf sink → length (sink_bytes sink) = length content →
  sys_inv (sys_init cfg st).
Proof.
  intros Hf ??. pose proof (rf_sink _ _ _ Hf) as Hs. apply sys_inv_init; try apply Hf; by rewrite Hs.
Qed.

(** When every block is ready, the flusher's inner loop runs to the end. *)
Lemma flush_pass_complete n : ∀ s front b,
  sys_inv s → sy_flusher s = FAt front b → rg_total_blocks cfg - front ≤ Z.of_nat n →
  (∀ j, 0 ≤ j < rg_total_blocks cfg → bit (rs_ready_bm (sy_st s)) j = true) →
  ∃ st' b', flush_pass n cfg front (sy_st s) = Done (st', rg_total_blocks cfg) ∧
    sys_inv (mkSys st' (sy_workers s) (FAt (rg_total_blocks cfg) b') (sy_ctl s)).
Proof.
  induction n as [|n IH]; intros s front b Hinv Ef Hn Hr; pose proof (iv_front _ Hinv) as Hf; rewrite Ef in Hf;
    cbn [flusher_front] in Hf; cbn [flush_pass].
  - assert (front = rg_total_blocks cfg) as -> by lia. rewrite (proj2 (Z.ltb_ge _ _)) by lia.
    exists (sy_st s), b. split; [done|]. rewrite <-Ef. by destruct s.
  - destruct (Z.ltb_spec front (rg_total_blocks cfg)) as [Hlt|Hge].
    2: { assert (front = rg_total_blocks cfg) as -> by lia. exists (sy_st s), b. split; [done|]. rewrite <-Ef. by destruct s. }
    assert (∃ st1 staged, flush_take front (sy_st s) = Done (Some (st1, staged)) ∧
              rs_ready_bm st1 = rs_ready_bm (sy_st s)) as (st1 & staged & E1 & Er1).
    { unfold flush_take. rewrite is_set_spec by (first [apply Hinv|rewrite (ro_ready_total _ _ (iv_recv _ Hinv)); lia]).
      cbn [mbind outcome_bind]. rewrite Hr by lia. by eexists _, _. }
    rewrite E1. cbn [mbind outcome_bind].
    pose proof (step_take_inv s front b st1 staged Hinv Ef Hlt E1) as Hinv1.
    pose proof (step_write_inv _ front staged Hinv1 eq_refl) as Hinv2.
    pose proof (step_advance_inv _ front Hinv2 eq_refl) as Hinv3. cbn [sy_st sy_workers sy_ctl] in *.
    set (st3 := flush_advance front (flush_write cfg front staged st1)) in *.
    apply (IH (mkSys st3 (sy_workers s) (FAt (front + 1) true) (sy_ctl s)) (front + 1) true); [done|done|lia|].
    cbn [sy_st]. intros j Hj.
    assert (rs_ready_bm st3 = rs_ready_bm (sy_st s)) as ->; [|by apply Hr].
    rewrite <-Er1. unfold st3, flush_write. destruct staged; [|done]. by destruct (sink_write_all_at _ _ _).
Qed.
End integrity.

(** ** Properties *)

(** Result: the sink only ever holds the sender's bytes.  For a receiver built by
    [new_receiver] on an allocated sink, whatever the interleaving of the ingest workers,
    the flusher and the feedback thread, and whatever order, loss and duplication of
    packets: every block below the flushed mark is in the sink as in the content; when all
    blocks are flushed the sink is the content, checksum included; and the transfer is
    declared done only then. *)
Theorem receiver_integrity `{!Crc32c, !Crc32cLaws, !AeadCrate, !AeadLaws} {K} `{!BlockSink K, !BlockSinkLaws K}
    num_cpu c (sink : K) stats net content :
  recv_setup_ok c → sys_cfg_ok (recv_defaults num_cpu c) net content →
  sink_wf sink → length (sink_bytes sink) = length content →
  ∃ st, new_receiver num_cpu c sink stats = Done (recv_defaults num_cpu c, st) ∧
    ∀ s, reachable (recv_defaults num_cpu c) net st s →
      (∀ j, 0 ≤ j < rs_flushed_blocks (sy_st s) →
         block_at (sink_bytes (rs_sink (sy_st s))) (Z.to_nat (rg_block_size c)) content (Z.to_nat j)) ∧
      (rs_flushed_blocks (sy_st s) = rg_total_blocks c →
         sink_bytes (rs_sink (sy_st s)) = content ∧
         sink_read_crc32c (rs_sink (sy_st s)) = Ok (Some (crc32c_append 0 content))) ∧
      (rs_done (sy_st s) = true → rs_flushed_blocks (sy_st s) = rg_total_blocks c).
Proof.
  intros Hs Hc Hwf Hl. destruct (new_receiver_spec num_cpu c sink stats Hs) as (st & E & Hf).
  exists st. split; [done|]. intros s Hr.
  pose proof (sys_inv_reachable _ _ _ Hc _ s (sys_inv_fresh _ _ _ Hc sink st Hf Hwf Hl) Hr) as Hinv.
  split; [|split; [|intros Hd; apply Hinv; by left]].
  - rewrite (iv_flushed _ _ _ Hinv). intros j Hj. by apply (iv_below _ _ _ Hinv).
  - intros Hfl. pose proof (sys_inv_complete _ _ _ Hc s Hinv Hfl) as Hb. split; [done|].
    rewrite <-Hb. by apply sink_crc_ok, Hinv.
Qed.

(** C6: no accepted block is lost between the threads.  In every reachable state an accepted
    block is ready for the flusher or in the hands of a worker, with its bytes; a block that
    is ready, or about to be, is staged with its bytes, in the sink, or in the flusher's
    hands; the blocks below the flushed mark are in the sink; and so, once every block is
    received and no worker holds one, the inner loop of a flusher that has not returned runs
    through to the last block and leaves the content in the sink. *)
Theorem receiver_no_block_lost `{!Crc32c, !Crc32cLaws, !AeadCrate, !AeadLaws} {K} `{!BlockSink K, !BlockSinkLaws K}
    num_cpu c (sink : K) stats net content :
  recv_setup_ok c → sys_cfg_ok (recv_defaults num_cpu c) net content →
  sink_wf sink → length (sink_bytes sink) = length content →
  ∃ st, new_receiver num_cpu c sink stats = Done (recv_defaults num_cpu c, st) ∧
    ∀ s, reachable (recv_defaults num_cpu c) net st s →
      (∀ j, 0 ≤ j < rg_total_blocks c → bit (rs_bm (sy_st s)) j = true →
         bit (rs_ready_bm (sy_st s)) j = true ∨ WPlace j (blk (recv_defaults num_cpu c) content j) ∈ sy_workers s ∨
         WPublish j ∈ sy_workers s) ∧
      (∀ j, 0 ≤ j < rg_total_blocks c → bit (rs_ready_bm (sy_st s)) j = true ∨ WPublish j ∈ sy_workers s →
         stored (recv_defaults num_cpu c) content s j) ∧
      (∀ j, 0 ≤ j < rs_flushed_blocks (sy_st s) →
         at_sink (recv_defaults num_cpu c) content (rs_sink (sy_st s)) j) ∧
      (∀ front b, Forall (λ w, held_of w = None) (sy_workers s) → sy_flusher s = FAt front b →
         (∀ j, 0 ≤ j < rg_total_blocks c → bit (rs_bm (sy_st s)) j = true) →
         ∃ st', flush_pass (Z.to_nat (rg_total_blocks c - front)) (recv_defaults num_cpu c) front (sy_st s) =
                  Done (st', rg_total_blocks c) ∧
                rs_flushed_blocks st' = rg_total_blocks c ∧ sink_bytes (rs_sink st') = content).
Proof.
  intros Hs Hc Hwf Hl. destruct (new_receiver_spec num_cpu c sink stats Hs) as (st & E & Hf).
  exists st. split; [done|]. intros s Hr.
  pose proof (sys_inv_reachable _ _ _ Hc _ s (sys_inv_fresh _ _ _ Hc sink st Hf Hwf Hl) Hr) as Hinv.
  split_and!.
  - intros j Hj Hb. destruct (iv_noloss _ _ _ Hinv j Hj Hb) as [?|Hh]; [by left|right].
    unfold held in Hh. apply list_elem_of_omap in Hh as ([|seq p|seq|] & Hw & [= <-]); [left|by right].
    by rewrite <-(iv_place _ _ _ Hinv seq p Hw).
  - apply Hinv.
  - rewrite (iv_flushed _ _ _ Hinv). apply Hinv.
  - intros front b Hidle Ef Hall.
    destruct (flush_pass_complete _ _ _ Hc (Z.to_nat (rg_total_blocks c - front)) s front b Hinv Ef)
      as (st' & b' & E' & Hinv'); [simpl; lia| |].
    { intros j Hj. destruct (iv_noloss _ _ _ Hinv j Hj (Hall j Hj)) as [?|Hh]; [done|].
      unfold held in Hh. apply list_elem_of_omap in Hh as (w & Hw & Ew). rewrite Forall_forall in Hidle.
      by rewrite (Hidle w Hw) in Ew. }
    exists st'. split; [done|]. pose proof (iv_flushed _ _ _ Hinv') as Hfl. split; [done|].
    by apply (sys_inv_complete _ _ _ Hc _ Hinv').
Qed.

(** ** Sinks that fail *)

(** What holds of the two bitmaps, the workers and the frontier whatever the sink answers. *)
Section bits.
Context `{!Crc32c, !AeadCrate, !AeadLaws} {K : Type} `{!BlockSink K}.
Context (cfg : RecvConfig) (net : list byte → Prop).
Implicit Types (st : RecvState K) (s : Sys K).

Definition front_ready st (f : flusher) : Prop :=
  match f with
  | FWrite n _ | FAdvance n => n < rg_total_blocks cfg ∧ bit (rs_ready_bm st) n = true
  | _ => True
  end.

Record bits_inv s : Prop := {
  bv_recv : recv_ok cfg (sy_st s);
  bv_flushed : rs_flushed_blocks (sy_st s) = flusher_front (sy_flusher s);
  bv_front : 0 ≤ flusher_front (sy_flusher s) ≤ rg_total_blocks cfg;
  bv_below j : 0 ≤ j < flusher_front (sy_flusher s) → bit (rs_ready_bm (sy_st s)) j = true;
  bv_fl : front_ready (sy_st s) (sy_flusher s);
  bv_nodup : NoDup (held (sy_workers s));
  bv_held j : j ∈ held (sy_workers s) →
    0 ≤ j < rg_total_blocks cfg ∧ bit (rs_bm (sy_st s)) j = true ∧ bit (rs_ready_bm (sy_st s)) j = false;
  bv_ready j : 0 ≤ j → bit (rs_ready_bm (sy_st s)) j = true → bit (rs_bm (sy_st s)) j = true;
  bv_done : rs_done (sy_st s) = true ∨ fb_flag (ct_feeding (sy_ctl s)) = true →
    rs_flushed_blocks (sy_st s) = rg_total_blocks cfg;
  bv_main : ct_main (sy_ctl s) ≠ MWait → rs_done (sy_st s) = true ∨ ct_stop (sy_ctl s) = true
}.

Lemma bits_inv_fresh sink st :
  recv_fresh cfg sink st → 0 ≤ rg_total_blocks cfg → bits_inv (sys_init cfg st).
Proof.
  intros Hf Ht. pose proof (rf_ready _ _ _ Hf) as Hr. pose proof (rf_done _ _ _ Hf) as Hd. pose proof (rf_flushed _ _ _ Hf). pose proof (rf_ok _ _ _ Hf). assert (∀ n, held (replicate n WIdle) = []) as Hh by (by induction n).
  split; cbn [sys_init sy_st sy_workers sy_flusher sy_ctl flusher_front ctl_init ct_main ct_feeding ct_stop fb_flag];
    rewrite ?Hh; try done; try lia; try apply NoDup_nil_2.
  - intros j ?%not_elem_of_nil. done.
  - intros j _ Hb. by rewrite Hr in Hb.
  - rewrite Hd. by intros [].
Qed.

(** A step that leaves the bitmaps and the frontier alone and accepts no block. *)
Lemma bits_inv_frame s st' ws' f' c' gone :
  bits_inv s → recv_ok cfg st' → rs_bm st' = rs_bm (sy_st s) → rs_ready_bm st' = rs_ready_bm (sy_st s) →
  rs_flushed_blocks st' = rs_flushed_blocks (sy_st s) → held (sy_workers s) ≡ₚ gone ++ held ws' →
  flusher_front f' = flusher_front (sy_flusher s) → front_ready (sy_st s) f' →
  (rs_done st' = true ∨ fb_flag (ct_feeding c') = true →
     rs_done (sy_st s) = true ∨ fb_flag (ct_feeding (sy_ctl s)) = true ∨ rs_flushed_blocks (sy_st s) = rg_total_blocks cfg) →
  (ct_main c' ≠ MWait → rs_done st' = true ∨ ct_stop c' = true) →
  bits_inv (mkSys st' ws' f' c').
Proof.
  intros [] Hok Eb Er Ef Hh Hfr Hfl Hd Hm.
  split; cbn [sy_st sy_workers sy_flusher sy_ctl]; rewrite ?Eb, ?Er, ?Ef, ?Hfr; auto.
  - unfold front_ready in *. rewrite Er. done.
  - rewrite Hh in bv_nodup0. apply NoDup_app in bv_nodup0. tauto.
  - intros j Hj. apply bv_held0. rewrite Hh. apply elem_of_app. by right.
  - intros Hx. destruct (Hd Hx) as [?|[?|?]]; auto.
Qed.

Lemma bits_inv_admit s i pkt addr now st' r :
  bits_inv s → sy_workers s !! i = Some WIdle →
  accept_packet cfg pkt addr now (add_stat bytes_recv (length pkt) (add_stat packets_recv 1 (sy_st s))) = Done (st', r) →
  bits_inv (mkSys st' (<[i := match r with Some (seq, p) => WPlace seq p | None => WIdle end]> (sy_workers s))
              (sy_flusher s) (sy_ctl s)) ∧
  rs_sink st' = rs_sink (sy_st s) ∧ rs_ready_bm st' = rs_ready_bm (sy_st s) ∧
  (∀ j, 0 ≤ j → bit (rs_bm (sy_st s)) j = true → bit (rs_bm st') j = true) ∧
  (∀ j, j ∈ held (<[i := match r with Some (seq, p) => WPlace seq p | None => WIdle end]> (sy_workers s)) →
     j ∈ held (sy_workers s) ∨ bit (rs_bm (sy_st s)) j = false).
Proof.
  intros [] Hi E.
  destruct (admit_spec cfg pkt addr now (add_stat bytes_recv (length pkt) (add_stat packets_recv 1 (sy_st s))))
    as (st1 & r1 & E1 & Hok1 & (Es & Er & _ & _ & Ef & Ed) & Hb & Hr); [by do 2 apply recv_ok_add_stat|].
  rewrite E in E1. apply Done_inj in E1. injection E1 as <- <-.
  set (w' := match r with Some (seq, p) => WPlace seq p | None => WIdle end).
  destruct (held_insert (sy_workers s) i WIdle w' Hi) as (others & Hh & Hh'). simpl in Hh.
  cbn [add_stat upd_stats rs_sink rs_ready_bm rs_stage rs_flushed_blocks rs_done rs_bm] in *.
  assert (∀ j, j ∈ option_list (held_of w') → bit (rs_bm (sy_st s)) j = false ∧ 0 ≤ j < rg_total_blocks cfg) as Hnew.
  { intros j. unfold w'. destruct r as [[seq p]|]; simpl; [|by intros ?%not_elem_of_nil].
    intros ->%list_elem_of_singleton. by destruct (Hr seq p eq_refl) as (? & h & _ & (_ & ? & _) & ->). }
  assert (∀ j, 0 ≤ j → bit (rs_bm (sy_st s)) j = true → bit (rs_bm st') j = true) as Hgrow.
  { intros j Hj Ht. rewrite Hb by done. by rewrite Ht, orb_true_r. }
  split; [|split_and!; [done|done|done|]].
  2: { intros j. rewrite Hh', Hh. intros [?%Hnew|?]%elem_of_app; [right; tauto|by left]. }
  split; cbn [sy_st sy_workers sy_flusher sy_ctl]; rewrite ?Er, ?Ef, ?Ed; auto.
  - unfold front_ready in *. by rewrite Er.
  - rewrite Hh'. rewrite Hh in bv_nodup0. apply NoDup_app. split; [|split; [|done]].
    + unfold w'. destruct r as [[]|]; simpl; [apply NoDup_singleton|constructor].
    + intros j [Hf _]%Hnew Hin. destruct (bv_held0 j) as (_ & ? & _); [by rewrite Hh|congruence].
  - intros j. rewrite Hh'. intros [Hj|Hj]%elem_of_app.
    + destruct (Hnew j Hj) as [Hf Hrange]. split; [done|]. split.
      * rewrite Hb by lia. apply orb_true_iff. left. apply bool_decide_eq_true. unfold w' in Hj.
        destruct r as [[seq p]|]; simpl in *; [|by apply not_elem_of_nil in Hj]. by apply list_elem_of_singleton in Hj as ->.
      * apply not_true_is_false. intros Ht. specialize (bv_ready0 j ltac:(lia) Ht). congruence.
    + destruct (bv_held0 j) as (? & ? & ?); [by rewrite Hh|]. split; [done|]. split; [apply Hgrow; [lia|done]|done].
Qed.

Lemma bits_inv_publish s i seq st' :
  bits_inv s → sy_workers s !! i = Some (WPublish seq) → publish seq (sy_st s) = Done st' →
  bits_inv (mkSys st' (<[i := WIdle]> (sy_workers s)) (sy_flusher s) (sy_ctl s)) ∧
  rs_sink st' = rs_sink (sy_st s) ∧ rs_bm st' = rs_bm (sy_st s) ∧ seq ∈ held (sy_workers s) ∧
  (∀ j, 0 ≤ j → bit (rs_ready_bm st') j = true → bit (rs_ready_bm (sy_st s)) j = true ∨ j = seq) ∧
  (∀ j, j ∈ held (<[i := WIdle]> (sy_workers s)) → j ∈ held (sy_workers s)).
Proof.
  intros [] Hi E. destruct (held_insert (sy_workers s) i _ WIdle Hi) as (others & Hh & Hh'). simpl in Hh, Hh'.
  destruct (bv_held0 seq) as (Hs & Hbm & _); [rewrite Hh; by left|].
  destruct (publish_spec cfg seq (sy_st s) bv_recv0 Hs) as (bm' & E' & Hwf & Ht & Hb).
  rewrite E in E'. apply Done_inj in E' as ->.
  assert (∀ j, 0 ≤ j → bit (rs_ready_bm (sy_st s)) j = true → bit bm' j = true) as Hgrow.
  { intros j Hj Hr. rewrite Hb by done. by rewrite Hr, orb_true_r. }
  rewrite Hh in bv_nodup0. apply NoDup_cons in bv_nodup0 as [Hnin Hnd].
  split; [|split_and!; [done|done|rewrite Hh; by left| |]].
  2: { simpl. intros j Hj. rewrite Hb by done. case_bool_decide; [by right|by left]. }
  2: { intros j. rewrite Hh', Hh. by right. }
  split; cbn [sy_st sy_workers sy_flusher sy_ctl signal_flush set_ready rs_sink rs_stage rs_flushed_blocks rs_ready_bm
    rs_bm rs_done]; auto.
  - destruct bv_recv0. by split.
  - intros j Hj. apply Hgrow; [lia|auto].
  - unfold front_ready in *. cbn [signal_flush set_ready rs_ready_bm]. destruct (sy_flusher s); try done; simpl in *;
      (split; [tauto|]); apply Hgrow; [lia|tauto|lia|tauto].
  - by rewrite Hh'.
  - intros j. rewrite Hh'. intros Hj. destruct (bv_held0 j) as (? & ? & Hr); [rewrite Hh; by right|].
    split; [done|]. split; [done|]. rewrite Hb, Hr by lia. rewrite bool_decide_eq_false_2; [done|]. by intros ->.
  - intros j Hj. rewrite Hb by done. case_bool_decide; [by subst|]. apply bv_ready0. done.
Qed.

(** What a step may do to the bitmaps, to what the workers hold and to the sink. *)
Record step_effect s s' : Prop := {
  se_bm j : 0 ≤ j → bit (rs_bm (sy_st s)) j = true → bit (rs_bm (sy_st s')) j = true;
  se_ready j : 0 ≤ j → bit (rs_ready_bm (sy_st s')) j = true →
    bit (rs_ready_bm (sy_st s)) j = true ∨ j ∈ held (sy_workers s);
  se_held j : j ∈ held (sy_workers s') → j ∈ held (sy_workers s) ∨ bit (rs_bm (sy_st s)) j = false;
  se_sink : rs_sink (sy_st s') = rs_sink (sy_st s) ∨
    ∃ j b, 0 ≤ j < rg_total_blocks cfg ∧ (j ∈ held (sy_workers s) ∨ bit (rs_ready_bm (sy_st s)) j = true) ∧
      rs_sink (sy_st s') = (sink_write_all_at (rs_sink (sy_st s)) (wrap 64 (j * rg_block_size cfg)) b).1
}.

Lemma step_effect_same s st' ws' f' c' :
  rs_bm st' = rs_bm (sy_st s) → rs_ready_bm st' = rs_ready_bm (sy_st s) → rs_sink st' = rs_sink (sy_st s) →
  (∀ j, j ∈ held ws' → j ∈ held (sy_workers s)) → step_effect s (mkSys st' ws' f' c').
Proof. intros E1 E2 E3 Hh. split; cbn [sy_st sy_workers]; rewrite ?E1, ?E2, ?E3; auto. Qed.

Lemma bits_step_frame s st' ws' f' c' gone :
  bits_inv s → recv_ok cfg st' → rs_bm st' = rs_bm (sy_st s) → rs_ready_bm st' = rs_ready_bm (sy_st s) →
  rs_flushed_blocks st' = rs_flushed_blocks (sy_st s) → rs_sink st' = rs_sink (sy_st s) →
  held (sy_workers s) ≡ₚ gone ++ held ws' →
  flusher_front f' = flusher_front (sy_flusher s) → front_ready (sy_st s) f' →
  (rs_done st' = true ∨ fb_flag (ct_feeding c') = true →
     rs_done (sy_st s) = true ∨ fb_flag (ct_feeding (sy_ctl s)) = true ∨ rs_flushed_blocks (sy_st s) = rg_total_blocks cfg) →
  (ct_main c' ≠ MWait → rs_done st' = true ∨ ct_stop c' = true) →
  bits_inv (mkSys st' ws' f' c') ∧ step_effect s (mkSys st' ws' f' c').
Proof.
  intros Hb Hok E1 E2 E3 E4 Hh Hfr Hfl Hd Hm. split; [by eapply bits_inv_frame|].
  apply step_effect_same; try done. intros j Hj. rewrite Hh. apply elem_of_app. by right.
Qed.

Lemma bits_step_place s i seq p st' b :
  bits_inv s → sy_workers s !! i = Some (WPlace seq p) → place cfg seq p (sy_st s) = (st', b) →
  let s' := mkSys st' (<[i := if b then WPublish seq else WIdle]> (sy_workers s)) (sy_flusher s) (sy_ctl s) in
  bits_inv s' ∧ step_effect s s'.
Proof.
  intros Hinv Hi E. pose proof (place_ok cfg seq p (sy_st s) (bv_recv _ Hinv)) as Hok. rewrite E in Hok. cbn [fst] in Hok.
  set (w' := if b then WPublish seq else WIdle).
  destruct (held_insert (sy_workers s) i _ w' Hi) as (others & Hh & Hh'). simpl in Hh.
  assert (seq ∈ held (sy_workers s)) as Hseq by (rewrite Hh; by left).
  assert (∃ gone, held (sy_workers s) ≡ₚ gone ++ held (<[i := w']> (sy_workers s))) as [gone Hg].
  { unfold w' in *. destruct b; simpl in Hh'; [exists []; by rewrite Hh, Hh'|exists [seq]; by rewrite Hh, Hh']. }
  pose proof (bv_done _ Hinv). pose proof (bv_main _ Hinv). pose proof (bv_fl _ Hinv) as Hfl.
  destruct (bv_held _ Hinv seq Hseq) as (Hs & _). unfold place in E. destruct (rs_free (sy_st s)) as [|free].
  - destruct (sink_write_all_at _ _ _) as [k [u|e]] eqn:Ew; injection E as <- <-; (split;
      [eapply bits_inv_frame; try done; simpl; auto|]); (split; cbn [sy_st sy_workers set_sink rs_bm rs_ready_bm rs_sink]; auto;
      [intros j Hj; left; rewrite Hg; apply elem_of_app; by right|]); right; exists seq, p; by rewrite Ew; auto.
  - injection E as <- <-. eapply bits_step_frame; try done; simpl; auto.
Qed.

Lemma bits_step_write s front staged :
  bits_inv s → sy_flusher s = FWrite front staged →
  let s' := mkSys (flush_write cfg front staged (sy_st s)) (sy_workers s) (FAdvance front) (sy_ctl s) in
  bits_inv s' ∧ step_effect s s'.
Proof.
  intros Hinv Ef. pose proof (bv_done _ Hinv). pose proof (bv_main _ Hinv). pose proof (bv_fl _ Hinv) as Hfl.
  pose proof (bv_front _ Hinv) as Hfr. pose proof (bv_recv _ Hinv) as Hok. rewrite Ef in Hfl, Hfr. simpl in Hfr.
  unfold flush_write. destruct staged as [b|].
  - destruct (sink_write_all_at _ _ _) as [k r] eqn:Ew. split.
    + apply (bits_inv_frame s _ _ _ _ []); try done; simpl; auto; [destruct Hok; by split|by rewrite Ef].
    + split; cbn [sy_st sy_workers set_sink set_stage rs_bm rs_ready_bm rs_sink]; auto. right. exists front, b.
      destruct Hfl. by rewrite Ew; auto with lia.
  - apply (bits_step_frame s _ _ _ _ []); try done; auto. by rewrite Ef.
Qed.

Lemma bits_step_advance s front :
  bits_inv s → sy_flusher s = FAdvance front →
  let s' := mkSys (flush_advance front (sy_st s)) (sy_workers s) (FAt (front + 1) true) (sy_ctl s) in
  bits_inv s' ∧ step_effect s s'.
Proof.
  intros Hinv Ef. split; [|by apply step_effect_same]. destruct Hinv. rewrite Ef in *. simpl in *. destruct bv_fl0.
  split; cbn [sy_st sy_workers sy_flusher sy_ctl flush_advance set_flushed rs_flushed_blocks rs_ready_bm
    rs_bm rs_done flusher_front]; auto; try lia.
  - destruct bv_recv0. by split.
  - intros j Hj. destruct (decide (j = front)) as [->|]; [done|]. apply bv_below0. lia.
  - done.
  - intros Hd. specialize (bv_done0 Hd). lia.
Qed.

(** A step that leaves the flusher between blocks and the shared fields as they are. *)
Lemma bits_step_ctl s st' f' c' :
  bits_inv s → recv_ok cfg st' → same_feedback (sy_st s) st' → flusher_front f' = flusher_front (sy_flusher s) →
  f' = sy_flusher s ∨ front_ready (sy_st s) f' →
  (rs_done st' = true ∨ fb_flag (ct_feeding c') = true →
     rs_done (sy_st s) = true ∨ fb_flag (ct_feeding (sy_ctl s)) = true ∨ rs_flushed_blocks (sy_st s) = rg_total_blocks cfg) →
  (ct_main c' ≠ MWait → rs_done st' = true ∨ ct_stop c' = true) →
  bits_inv (mkSys st' (sy_workers s) f' c') ∧ step_effect s (mkSys st' (sy_workers s) f' c').
Proof.
  intros Hinv Hok (E1 & E2 & E3 & _ & E5) Hfr Hf Hd Hm. apply (bits_step_frame s _ _ _ _ []); try done.
  destruct Hf as [->|?]; [apply (bv_fl _ Hinv)|done].
Qed.

Local Ltac by_flag :=
  simpl; repeat match goal with H : ct_feeding _ = _ |- _ => rewrite ?H in * end; simpl; intuition done.

Lemma bits_step s s' : bits_inv s → step cfg net s s' → bits_inv s' ∧ step_effect s s'.
Proof.
  intros Hinv Hstep. destruct Hstep as [s i pkt addr now st' r Hi Hn Hne E|s i seq p st' b Hi E|s i seq st' Hi E|s i Hi|
    s front b st' staged Ef Hlt E|s front staged Ef|s front Ef|s front b Ef Hlt E|s front Ef|s front b Ef Hle|
    s Hf|s control t0 st' r target Hf E|s pa fb' Hf E|s pa hi view ms al sn fb' Hf Hv Hms Hal Hsn E|s pa hi al Hf Hal|
    s pa hi complete Hf|s pa hi complete Hf Hp|s pa hi complete view t1 t2 send_ok peer fb' n pdu Hf Hp Hv E|
    s complete st' fb' fin Hf E| s|s Hm Hd|s Hm Hg|s Hm Hg|s front Hm Ef].
  - destruct (bits_inv_admit s i pkt addr now st' r Hinv Hi E) as (? & Es & Er & Hgrow & Hh). split; [done|].
    split; cbn [sy_st sy_workers]; rewrite ?Es, ?Er; auto.
  - by apply bits_step_place with (p := p).
  - destruct (bits_inv_publish s i seq st' Hinv Hi E) as (? & Es & Eb & Hin & Hr & Hh). split; [done|].
    split; cbn [sy_st sy_workers]; rewrite ?Es, ?Eb; auto. intros j Hj Hb. destruct (Hr j Hj Hb) as [?| ->]; auto.
  - destruct (held_insert (sy_workers s) i _ WGone Hi) as (others & Hh & Hh'). simpl in Hh, Hh'.
    apply (bits_step_frame s _ _ _ _ []); try done; try apply Hinv; [by rewrite Hh, Hh'|].
    intros Hx. pose proof (bv_done _ Hinv Hx). auto.
  - unfold flush_take in E. pose proof (bv_front _ Hinv) as Hfr. rewrite Ef in Hfr. simpl in Hfr.
    rewrite is_set_spec in E by (first [apply Hinv|rewrite (ro_ready_total _ _ (bv_recv _ Hinv)); lia]).
    cbn [mbind outcome_bind] in E. destruct (bit (rs_ready_bm (sy_st s)) front) eqn:Eb; [|done].
    apply Done_inj in E. injection E as <- <-.
    apply (bits_step_frame s _ _ _ _ []); try done; simpl; [|by rewrite Ef|by_flag|apply Hinv].
    destruct (bv_recv _ Hinv). by split.
  - by apply bits_step_write.
  - by apply bits_step_advance.
  - apply bits_step_ctl; [done|apply Hinv|done|by rewrite Ef; destruct b|right; by destruct b|by_flag|apply Hinv].
  - destruct (ct_stop (sy_ctl s)) eqn:Es; (apply bits_step_ctl; [done| |done|by rewrite Ef|by right|by_flag|]).
    + apply Hinv. + rewrite Es. auto. + destruct (bv_recv _ Hinv). by split. + apply Hinv.
  - apply bits_step_ctl; [done|apply Hinv|done|by rewrite Ef|by right|by_flag|apply Hinv].
  - apply bits_step_ctl; [done|apply Hinv|done|done|by left| |apply Hinv]. destruct (ct_stop (sy_ctl s)); by_flag.
  - destruct (fb_rates_frame cfg _ _ _ _ _ (bv_recv _ Hinv) E) as (? & ? & Hd).
    apply bits_step_ctl; [done|done|done|done|by left|rewrite Hd; by_flag|rewrite Hd; apply Hinv].
  - apply bits_step_ctl; [done|apply Hinv|done|done|by left|by_flag|apply Hinv].
  - apply bits_step_ctl; [done|apply Hinv|done|done|by left|by_flag|apply Hinv].
  - apply bits_step_ctl; [done|apply Hinv|done|done|by left| |apply Hinv].
    simpl. unfold fb_complete. rewrite andb_true_iff, Z.eqb_eq. tauto.
  - apply bits_step_ctl; [done| |done|done|by left|by_flag|apply Hinv]. destruct (bv_recv _ Hinv). by split.
  - apply bits_step_ctl; [done|apply Hinv|done|done|by left|by_flag|apply Hinv].
  - destruct (fb_sent_frame cfg send_ok n _ (bv_recv _ Hinv)) as (? & ? & Hd).
    apply bits_step_ctl; [done|done|done|done|by left|rewrite Hd; by_flag|rewrite Hd; apply Hinv].
  - destruct (fb_finish_frame cfg complete _ _ _ _ _ (bv_recv _ Hinv) E) as (? & ? & Hd).
    apply bits_step_ctl; [done|done|done|done|by left| |].
    + rewrite Hf. intros [?|?]; [destruct (Hd ltac:(done)); auto|by destruct fin].
    + intros Hx. destruct (bv_main _ Hinv Hx) as [Hdn|]; [left|by right]. revert E. unfold fb_finish.
      intros [= <- _ _]. by destruct (_ && _).
  - apply bits_step_ctl; [done|apply Hinv|done|done|by left|by_flag|by right].
  - apply bits_step_ctl; [done|apply Hinv|done|done|by left|by_flag|]. by apply orb_true_iff in Hd.
  - apply bits_step_ctl; [done|apply Hinv|done|done|by left|by_flag|]. intros _. apply (bv_main _ Hinv). by rewrite Hm.
  - apply bits_step_ctl; [done| |done|done|by left|by_flag|]; [destruct (bv_recv _ Hinv); by split|].
    intros _. apply (bv_main _ Hinv). by rewrite Hm.
  - apply bits_step_ctl; [done|apply Hinv|done|done|by left|by_flag|]. intros _. apply (bv_main _ Hinv). by rewrite Hm.
Qed.

Lemma bits_reachable st s : bits_inv (sys_init cfg st) → reachable cfg net st s → bits_inv s.
Proof.
  unfold reachable. intros Hi Hr. induction Hr as [|s1 s2 s3 Hs _ IH]; [done|]. apply IH. by eapply bits_step.
Qed.

(** A block that is received, not ready, and in nobody's hands stays so, and the sink is only
    written at other blocks. *)
Record lost (P : K → Prop) (seq : Z) s : Prop := {
  lo_range : 0 ≤ seq < rg_total_blocks cfg;
  lo_bm : bit (rs_bm (sy_st s)) seq = true;
  lo_ready : bit (rs_ready_bm (sy_st s)) seq = false;
  lo_held : seq ∉ held (sy_workers s);
  lo_sink : P (rs_sink (sy_st s))
}.

Lemma lost_steps P seq s s' :
  (∀ k j b, 0 ≤ j < rg_total_blocks cfg → j ≠ seq → P k →
     P (sink_write_all_at k (wrap 64 (j * rg_block_size cfg)) b).1) →
  bits_inv s → lost P seq s → rtc (step cfg net) s s' → bits_inv s' ∧ lost P seq s'.
Proof.
  intros HP Hinv Hl Hr. induction Hr as [|s1 s2 s3 Hs _ IH]; [done|].
  destruct (bits_step s1 s2 Hinv Hs) as [Hinv2 []]. apply IH; [done|]. destruct Hl. split; [done|..].
  - apply se_bm0; [lia|done].
  - apply not_true_is_false. intros Ht. destruct (se_ready0 seq ltac:(lia) Ht); [congruence|done].
  - intros Hin. destruct (se_held0 seq Hin); [done|congruence].
  - destruct se_sink0 as [->|(j & b & Hj & Hor & ->)]; [done|]. apply HP; [done| |done].
    intros ->. destruct Hor; [done|congruence].
Qed.
End bits.

(** C29: a failed direct write loses the block for good, whatever the threads do next.  When the
    staging pool is exhausted and the direct write of an accepted block fails, then in every
    state the threads can reach from there the block is marked received, is not ready and is in
    no worker's hands (retransmissions of it count as duplicates); the sink is only ever written
    at other blocks; the flushed mark never passes it, so done is never reported and [run] does
    not return unless the caller stops it.  This holds of every sink. *)
Theorem write_error_blocks_completion `{!Crc32c, !AeadCrate, !AeadLaws} {K} `{!BlockSink K}
    num_cpu c (sink : K) stats net st s0 i seq p k e :
  recv_setup_ok c → new_receiver num_cpu c sink stats = Done (recv_defaults num_cpu c, st) →
  reachable (recv_defaults num_cpu c) net st s0 →
  sy_workers s0 !! i = Some (WPlace seq p) → rs_free (sy_st s0) = O →
  sink_write_all_at (rs_sink (sy_st s0)) (wrap 64 (seq * rg_block_size c)) p = (k, Err e) →
  let s1 := mkSys (set_sink k (sy_st s0)) (<[i := WIdle]> (sy_workers s0)) (sy_flusher s0) (sy_ctl s0) in
  step (recv_defaults num_cpu c) net s0 s1 ∧
  ∀ s, rtc (step (recv_defaults num_cpu c) net) s1 s →
    bit (rs_bm (sy_st s)) seq = true ∧ bit (rs_ready_bm (sy_st s)) seq = false ∧
    Forall (λ w, held_of w ≠ Some seq) (sy_workers s) ∧
    rs_flushed_blocks (sy_st s) ≤ seq < rg_total_blocks c ∧ rs_done (sy_st s) = false ∧
    (ct_stop (sy_ctl s) = false → ct_main (sy_ctl s) = MWait) ∧
    ∀ P : K → Prop,
      (∀ k' j b, 0 ≤ j < rg_total_blocks c → j ≠ seq → P k' →
         P (sink_write_all_at k' (wrap 64 (j * rg_block_size c)) b).1) →
      P k → P (rs_sink (sy_st s)).
Proof.
  intros Hs E Hr Hi Hfree Hw s1. set (cfg := recv_defaults num_cpu c) in *.
  destruct (new_receiver_spec num_cpu c sink stats Hs) as (st' & E' & Hf). rewrite E in E'. apply Done_inj in E'.
  injection E' as <-. pose proof (bits_inv_fresh cfg sink st Hf (proj1 (rk_total _ Hs))) as Hinv0.
  pose proof (bits_reachable cfg net st s0 Hinv0 Hr) as Hinv.
  assert (place cfg seq p (sy_st s0) = (set_sink k (sy_st s0), false)) as Ep.
  { unfold place. rewrite Hfree. change (rg_block_size cfg) with (rg_block_size c). by rewrite Hw. }
  assert (step cfg net s0 s1) as Hstep by (by eapply (step_place cfg net s0 i seq p _ false)).
  split; [done|]. destruct (bits_step cfg net s0 s1 Hinv Hstep) as [Hinv1 Heff].
  destruct (held_insert (sy_workers s0) i _ WIdle Hi) as (others & Hh & Hh'). simpl in Hh, Hh'.
  pose proof (bv_nodup _ _ Hinv) as Hnd. rewrite Hh in Hnd. apply NoDup_cons in Hnd as [Hnin _].
  destruct (bv_held _ _ Hinv seq) as (Hseq & Hbm & Hrdy); [rewrite Hh; by left|].
  intros s Hrun. assert (∀ P : K → Prop,
      (∀ k' j b, 0 ≤ j < rg_total_blocks cfg → j ≠ seq → P k' → P (sink_write_all_at k' (wrap 64 (j * rg_block_size cfg)) b).1) →
      P k → bits_inv cfg s ∧ lost cfg P seq s) as HP.
  { intros P Hkeep Hk. eapply lost_steps; [exact Hkeep|exact Hinv1| |exact Hrun]. split; try done. cbn [s1 sy_workers]. by rewrite Hh'. }
  destruct (HP (λ _, True)) as [Hinv2 []]; [done|done|].
  assert (rs_flushed_blocks (sy_st s) ≤ seq) as Hle.
  { rewrite (bv_flushed _ _ Hinv2). destruct (Z.le_gt_cases (flusher_front (sy_flusher s)) seq) as [|Hgt]; [done|].
    pose proof (bv_below _ _ Hinv2 seq ltac:(lia)). congruence. }
  assert (rs_done (sy_st s) = false) as Hd.
  { apply not_true_is_false. intros Hd. pose proof (bv_done _ _ Hinv2 (or_introl Hd)). lia. }
  split_and!; try done; [|by apply lo_range0| |].
  - apply Forall_forall. intros w Hw' Hx. apply lo_held0. unfold held. apply list_elem_of_omap. by exists w.
  - intros Hst. destruct (ct_main (sy_ctl s)) eqn:Em; [done|..];
      (destruct (bv_main _ _ Hinv2) as [?|?]; [by rewrite Em|congruence|congruence]).
  - intros P Hkeep Hk. by destruct (HP P Hkeep Hk) as [_ []].
Qed.

(** ** Small transfers *)

(** A schedule from the construction of the receiver on. *)
Definition run_schedule `{!Crc32c, !AeadCrate} {K} `{!BlockSink K} (num_cpu : Host) (c : RecvConfig) (sink : K)
    (stats : Stats) (acts : list action) : option (Sys K) :=
  match new_receiver num_cpu c sink stats with
  | Done (cfg, st) => exec cfg acts (sys_init cfg st)
  | Panic => None
  end.

Definition received (acts : list action) : list (list byte) :=
  omap (λ a, match a with ARecv _ pkt _ _ => Some pkt | _ => None end) acts.

Lemma schedule_reachable `{!Crc32c, !AeadCrate} {K} `{!BlockSink K} num_cpu c (sink : K) stats acts net cfg st (Q : Sys K → bool) :
  new_receiver num_cpu c sink stats = Done (cfg, st) → Forall net (received acts) →
  match run_schedule num_cpu c sink stats acts with Some s => Q s | None => false end = true →
  ∃ s, reachable cfg net st s ∧ Q s = true.
Proof.
  intros E Hnet. unfold run_schedule. rewrite E. destruct (exec cfg acts _) as [s|] eqn:Ex; [|done]. intros HQ.
  exists s. split; [|done]. eapply exec_steps; [|exact Ex]. intros i pkt addr now Hin.
  rewrite Forall_forall in Hnet. apply Hnet. apply list_elem_of_omap. eauto.
Qed.

Global Instance worker_eq_dec : EqDecision worker.
Proof. solve_decision. Defined.

(** The DATA PDU of a block of [demo_recv], and a network that delivers the three of the file. *)
Definition demo_data (seq : Z) (p : list byte) : list byte :=
  match encode_data_header (replicate 36 x00 ++ p) (mkDataHeader 0 (length p) 77 seq 0 0 (@crc32c castagnoli p)) with
  | Done b => b
  | Panic => []
  end.
Definition demo_pdus : list (list byte) :=
  [demo_data 0 [x61; x62; x63]; demo_data 1 [x64; x65; x66]; demo_data 2 [x67]].
Definition demo_net (pkt : list byte) : Prop := pkt ∈ demo_pdus.

Lemma demo_sys_ok : @sys_cfg_ok castagnoli toy_aead (recv_defaults 1 demo_recv) demo_net demo_content.
Proof.
  split; [done|done|done|]. intros pkt addr h p Hin Ho. unfold demo_net, demo_pdus in Hin.
  assert (match @open_packet castagnoli toy_aead (recv_defaults 1 demo_recv) pkt addr with
          | Done (Block h p) => p = blk (recv_defaults 1 demo_recv) demo_content (dh_block_seq h)
          | _ => True end) as Hb; [|by rewrite Ho in Hb].
  clear Ho. repeat (apply elem_of_cons in Hin as [->|Hin]; [destruct addr; vm_compute; reflexivity|]).
  by apply not_elem_of_nil in Hin.
Qed.

Definition demo_sink : MemSink := (mem_allocate mem_sink_new 7).1.

Lemma receiver_integrity_witness :
  ∃ st, new_receiver 1 demo_recv demo_sink stats_default = Done (recv_defaults 1 demo_recv, st) ∧
    ∀ s, @reachable castagnoli toy_aead MemSink (@mem_sink castagnoli) (recv_defaults 1 demo_recv) demo_net st s →
      (rs_flushed_blocks (sy_st s) = 3 → mk_buf (rs_sink (sy_st s)) = demo_content) ∧
      (rs_done (sy_st s) = true → rs_flushed_blocks (sy_st s) = 3).
Proof.
  destruct (@receiver_integrity castagnoli castagnoli_laws toy_aead toy_aead_laws MemSink (@mem_sink castagnoli)
              (@mem_sink_laws castagnoli) 1 demo_recv demo_sink stats_default demo_net demo_content demo_recv_ok
              demo_sys_ok I eq_refl) as (st & E & Hall).
  exists st. split; [exact E|]. intros s Hr. destruct (Hall s Hr) as (_ & Hf & Hd).
  split; [intros Hfl; exact (proj1 (Hf Hfl))|exact Hd].
Defined.

(** Two workers take the blocks out of order; the flusher has not run. *)
Definition demo_from : option SocketAddr := Some demo_peer_addr.
Definition demo_arrivals : list action :=
  [ARecv 0 (demo_data 2 [x67]) demo_from 1000; ARecv 1 (demo_data 0 [x61; x62; x63]) demo_from 1001; AWork 1; AWork 0;
   AWork 0; ARecv 0 (demo_data 1 [x64; x65; x66]) demo_from 1002; AWork 0; AWork 1; AWork 0].

Definition all_received (s : Sys MemSink) : bool :=
  forallb (bit (rs_bm (sy_st s))) [0; 1; 2] && bool_decide (sy_workers s = [WIdle; WIdle]) &&
  match sy_flusher s with FAt 0 false => true | _ => false end.

Lemma receiver_no_block_lost_witness :
  ∃ st s, new_receiver 1 demo_recv demo_sink stats_default = Done (recv_defaults 1 demo_recv, st) ∧
    @reachable castagnoli toy_aead MemSink (@mem_sink castagnoli) (recv_defaults 1 demo_recv) demo_net st s ∧
    rs_flushed_blocks (sy_st s) = 0 ∧
    ∃ st', flush_pass (BlockSink0 := @mem_sink castagnoli) 3 (recv_defaults 1 demo_recv) 0 (sy_st s) = Done (st', 3) ∧
      rs_flushed_blocks st' = 3 ∧ mk_buf (rs_sink st') = demo_content.
Proof.
  destruct (@receiver_no_block_lost castagnoli castagnoli_laws toy_aead toy_aead_laws MemSink (@mem_sink castagnoli)
              (@mem_sink_laws castagnoli) 1 demo_recv demo_sink stats_default demo_net demo_content demo_recv_ok
              demo_sys_ok I eq_refl) as (st & E & Hall).
  destruct (@schedule_reachable castagnoli toy_aead MemSink (@mem_sink castagnoli) 1 demo_recv demo_sink stats_default
              demo_arrivals demo_net _ st (λ s, all_received s && (rs_flushed_blocks (sy_st s) =? 0)) E) as (s & Hr & HQ).
  { unfold demo_net. repeat constructor. }
  { vm_compute. reflexivity. }
  apply andb_true_iff in HQ as [HQ Hfl%Z.eqb_eq]. unfold all_received in HQ. apply andb_true_iff in HQ as [HQ Hf].
  apply andb_true_iff in HQ as [Hb Hw%bool_decide_eq_true].
  exists st, s. split; [exact E|]. split; [exact Hr|]. split; [exact Hfl|].
  destruct (Hall s Hr) as (_ & _ & _ & Hend). apply (Hend 0 false).
  - rewrite Hw. by repeat constructor.
  - destruct (sy_flusher s) as [[] []| | | |]; done.
  - intros j Hj. cbn [forallb] in Hb. rewrite !andb_true_iff in Hb.
    assert (j = 0 ∨ j = 1 ∨ j = 2) as [->|[->| ->]] by (simpl in Hj; lia); tauto.
Defined.

(** A full disk and a pool of one buffer: block 1 is staged, the write of block 0 fails. *)
Definition demo_small_pool : RecvConfig :=
  mkRecvConfig 7 (Z.shiftl 96 20) 3 77 None 2 fixed_cfg None 0 0 0 None None.
Definition demo_full : list action :=
  [ARecv 0 (demo_data 1 [x64; x65; x66]) demo_from 1000; AWork 0; AWork 0;
   ARecv 0 (demo_data 0 [x61; x62; x63]) demo_from 1001].

Lemma demo_small_pool_ok : recv_setup_ok demo_small_pool.
Proof.
  split; [done|done|done| |done]. split; [done|]. split; [done|]. repeat split; vm_compute; done.
Qed.

Lemma write_error_blocks_completion_witness :
  ∃ st s0, new_receiver 1 demo_small_pool (mkFullDisk) stats_default = Done (recv_defaults 1 demo_small_pool, st) ∧
    @reachable castagnoli toy_aead _ _ (recv_defaults 1 demo_small_pool) demo_net st s0 ∧
    sy_workers s0 !! 0%nat = Some (WPlace 0 [x61; x62; x63]) ∧
    ∀ s, rtc (@step castagnoli toy_aead _ _ (recv_defaults 1 demo_small_pool) demo_net)
           (mkSys (set_sink (mkFullDisk) (sy_st s0)) (<[0%nat := WIdle]> (sy_workers s0)) (sy_flusher s0) (sy_ctl s0)) s →
      bit (rs_bm (sy_st s)) 0 = true ∧ rs_flushed_blocks (sy_st s) ≤ 0 ∧ rs_done (sy_st s) = false.
Proof.
  destruct (new_receiver_spec 1 demo_small_pool (mkFullDisk) stats_default demo_small_pool_ok) as (st & E & _).
  destruct (@schedule_reachable castagnoli toy_aead _ _ 1 demo_small_pool (mkFullDisk) stats_default
              demo_full demo_net _ st
              (λ s, bool_decide (sy_workers s !! 0%nat = Some (WPlace 0 [x61; x62; x63])) && (rs_free (sy_st s) =? 0)%nat) E)
    as (s0 & Hr & HQ).
  { unfold demo_net. repeat constructor. }
  { vm_compute. reflexivity. }
  apply andb_true_iff in HQ as [Hw%bool_decide_eq_true Hf%Nat.eqb_eq].
  exists st, s0. split; [exact E|]. split; [exact Hr|]. split; [exact Hw|].
  destruct (@write_error_blocks_completion castagnoli toy_aead toy_aead_laws _ _ 1 demo_small_pool (mkFullDisk) stats_default
              demo_net st s0 0%nat 0 [x61; x62; x63] (mkFullDisk) (io_other "no space left on device")
              demo_small_pool_ok E Hr Hw Hf) as [_ Hall]; [by destruct (rs_sink (sy_st s0))|].
  intros s Hrun. destruct (Hall s Hrun) as (Hb & _ & _ & [Hfl _] & Hd & _). exact (conj Hb (conj Hfl Hd)).
Defined.
