(* ===== verification/EndToEnd.v ===== *)
(** * A transfer end to end (src/sender.rs with src/receiver.rs)

    The sender's PDUs meet the receiver's checks: what the sender puts on the wire is what
    the receiver's sink ends up with.  The two ends agree on the session, the block size,
    the number of blocks and the cipher (the control plane arranges that). *)

From S2P Require Import Prelude Float64 Errors Net Protocol Rate PQueue LossTracker Stats Runtime BlockIO Crypto.
From S2P Require Import Sender Receiver ReceiverSys.

Section transfer.
Context {Src : Type} `{!BlockSource Src, !BlockSourceLaws Src}.
Context `{!Crc32c, !Crc32cLaws, !AeadCrate, !AeadLaws} {K : Type} `{!BlockSink K, !BlockSinkLaws K}.
Context (scfg : SendCfg Src) (cfg : RecvConfig).

(** The two ends of one transfer. *)
Record matching : Prop := {
  mt_session : rg_session cfg = sc_session scfg;
  mt_bs : rg_block_size cfg = sc_block_size scfg;
  mt_total : rg_total_blocks cfg = sc_total_blocks scfg;
  mt_crypto : rg_crypto cfg = sc_crypto scfg
}.

Context (Hm : matching).

(** The receiver reads a block out of a PDU exactly as the sender put it in. *)
Lemma open_packet_carries pkt addr seq blk :
  carries (sc_crypto scfg) (sc_session scfg) pkt seq blk →
  open_packet cfg pkt addr = Done Ignored ∧
    (rg_total_blocks cfg ≤ seq ∨ rg_block_size cfg < length blk ∨
     ∃ a, addr = Some a ∧ foreign_ip (rg_expected_peer_ip cfg) a = true) ∨
  ∃ h, open_packet cfg pkt addr = Done (Block h blk) ∧ dh_block_seq h = seq.
Proof.
  intros (h & Hd & Hs & Hq & Hp & Hb). unfold open_packet.
  assert (DATA_HEADER_SIZE ≤ length pkt)%nat as Hl.
  { revert Hd. unfold decode_data_header. destruct (Nat.ltb_spec (length pkt) DATA_HEADER_SIZE); [done|lia]. }
  assert (pdu_type pkt = PDU_DATA) as ->.
  { revert Hd. unfold decode_data_header. rewrite (proj2 (Nat.ltb_ge _ _)) by done.
    destruct pkt as [|b pkt]; [done|]. cbn [pdu_type buf_get lookup list_lookup mbind outcome_bind].
    destruct (Z.eqb_spec (byte_to_Z b) PDU_DATA); [done|]. done. }
  change (PDU_DATA =? PDU_FIN) with false. change (PDU_DATA =? PDU_DATA) with true. cbn [negb].
  rewrite Hd. cbn [mbind outcome_bind]. rewrite Hs, <-(mt_session Hm), Z.eqb_refl. cbn [negb].
  rewrite Hq, Hp, Nat2Z.id. destruct (Z.leb_spec (rg_total_blocks cfg) seq); [by left; split; [|left]|].
  destruct (Z.ltb_spec (rg_block_size cfg) (length blk)); [by left; split; [|right; left]|].
  destruct (match addr with Some a => _ | None => _ end) eqn:Ea.
  { left. split; [done|]. right; right. destruct addr as [a|]; [by exists a|done]. }
  right. exists h. rewrite (mt_crypto Hm). destruct (sc_crypto scfg) as [c|].
  - destruct Hb as (p & Ho & Ht). rewrite buf_slice_done by lia. cbn [mbind outcome_bind].
    rewrite (take_ge (drop _ _)) by (rewrite length_drop; lia). rewrite Ho. cbn [mbind outcome_bind].
    destruct (open_data_total c (drop DATA_HEADER_SIZE pkt) (length blk) seq) as (r & Er & Hr).
    rewrite Ho in Er. apply Done_inj in Er as <-. destruct (Hr _ _ eq_refl) as (_ & Hpl & Hn).
    rewrite length_drop in Hpl, Hn. rewrite buf_write_done by lia. cbn [mbind outcome_bind].
    rewrite buf_slice_done by (rewrite length_inserts; lia). cbn [mbind outcome_bind].
    replace (DATA_HEADER_SIZE + length blk - DATA_HEADER_SIZE)%nat with (length blk) by lia.
    split; [|done]. do 2 f_equal. rewrite <-Ht at 2. rewrite <-(slice_inserts_eq pkt DATA_HEADER_SIZE p) at 2 by lia.
    rewrite take_take. f_equal. lia.
  - destruct Hb as [Hcrc Ht].
    assert (DATA_HEADER_SIZE + length blk ≤ length pkt)%nat.
    { apply (f_equal length) in Ht. rewrite length_take, length_drop in Ht. lia. }
    rewrite (proj2 (Nat.ltb_ge _ _)) by lia. rewrite buf_slice_done by lia. cbn [mbind outcome_bind].
    replace (DATA_HEADER_SIZE + length blk - DATA_HEADER_SIZE)%nat with (length blk) by lia.
    by rewrite Ht, Hcrc, Z.eqb_refl.
Qed.

(** What the network may deliver: the sender's PDUs, and anything the checks refuse. *)
Definition network (pkt : list byte) : Prop :=
  msg_ok scfg pkt ∨ ∀ addr h p, open_packet cfg pkt addr ≠ Done (Block h p).

Lemma network_authentic :
  send_cfg_ok scfg → sys_cfg_ok cfg network (src_content (sc_source scfg)).
Proof.
  intros Hok. pose proof (sok_bs _ Hok). pose proof (sok_size _ Hok) as Hsz. split.
  - rewrite (mt_bs Hm). lia.
  - apply Hok.
  - rewrite (mt_bs Hm), (mt_total Hm), <-Hsz. apply Hok.
  - intros pkt addr h p [(seq & b & Hu & Hc & _ & _ & _ & Hb)|Hno] Ho; [|by destruct (Hno addr h p)].
    destruct (open_packet_carries pkt addr seq b Hc) as [[E _]|(h' & E & Hq)]; rewrite Ho in E; [done|].
    apply Done_inj in E. injection E as <- <-. destruct (open_packet_spec cfg pkt addr) as (v & Ev & Hv).
    rewrite Ho in Ev. apply Done_inj in Ev as <-. destruct Hv as (_ & Hseq & _). rewrite Hq in *.
    rewrite (mt_total Hm) in Hseq. rewrite (Hb ltac:(lia)). unfold src_block, blk. by rewrite (mt_bs Hm).
Qed.

(** ** Packets handled one after the other *)

(** One worker, between packets. *)
Definition solo (st : RecvState K) : Sys K := mkSys st [WIdle] (FAt 0 false) (ctl_init cfg).

Lemma solo_inv net content st :
  sys_cfg_ok cfg net content → sys_inv cfg content (sys_init cfg st) → sys_inv cfg content (solo st).
Proof.
  intros _ []. assert (∀ n, held (replicate n WIdle) = []) as Hh by (by induction n).
  unfold solo. split; simpl in *; try done.
  - intros seq Hs Hin. destruct (iv_stored seq Hs) as [?|[?|?]]; [|by left|by right; left|by right; right].
    destruct Hin as [?|Hin%list_elem_of_singleton]; [by left|done].
  - intros seq p Hin. by apply list_elem_of_singleton in Hin.
  - intros seq Hin. by apply not_elem_of_nil in Hin.
  - intros seq Hs Hb. destruct (iv_noloss seq Hs Hb) as [?|Hin]; [by left|]. rewrite Hh in Hin.
    by apply not_elem_of_nil in Hin.
Qed.

Lemma ingest_sys (net : list byte → Prop) content st pkt addr now :
  sys_cfg_ok cfg net content → sys_inv cfg content (solo st) → net pkt → pkt ≠ [] →
  ∃ st', ingest cfg pkt addr now st = Done st' ∧ sys_inv cfg content (solo st').
Proof.
  intros Hc Hinv Hnet Hne. unfold ingest. destruct pkt as [|b0 pkt]; [done|]. set (p := b0 :: pkt) in *.
  unfold handle_packet. set (st0 := add_stat _ _ _).
  destruct (admit_spec cfg p addr now st0) as (st1 & r & E & Hok1 & _ & _ & _).
  { by do 2 apply recv_ok_add_stat; apply Hinv. }
  pose proof (step_admit_inv cfg net content Hc (solo st) 0%nat p addr now st1 r Hinv eq_refl Hnet E) as Hinv1.
  rewrite E. cbn [mbind outcome_bind]. destruct r as [[seq q]|]; cbn [sy_workers solo] in Hinv1; simpl in Hinv1.
  2: { exists st1. done. }
  destruct (place cfg seq q st1) as [st2 b] eqn:Ep.
  pose proof (step_place_inv cfg net content Hc _ 0%nat seq q st2 b Hinv1 eq_refl Ep) as Hinv2. simpl in Hinv2.
  destruct b; [|by exists st2].
  assert (0 ≤ seq < rg_total_blocks cfg) as Hseq by (apply (iv_held _ _ _ Hinv2); by left).
  destruct (publish_spec cfg seq st2 (iv_recv _ _ _ Hinv2) Hseq) as (bm & Eb & _).
  pose proof (step_publish_inv cfg content _ 0%nat seq _ Hinv2 eq_refl Eb) as Hinv3. simpl in Hinv3.
  rewrite Eb. by eexists.
Qed.

Fixpoint ingest_all (pkts : list (list byte * Z)) (addr : option SocketAddr) (st : RecvState K)
    : outcome (RecvState K) :=
  match pkts with
  | [] => Done st
  | (pkt, now) :: pkts' => st ← ingest cfg pkt addr now st; ingest_all pkts' addr st
  end.

(** A block of the sender's, from the peer, is received. *)
Lemma ingest_receives st st' pkt a now seq b :
  recv_ok cfg st → rs_peer st = None ∨ rs_peer st = Some a →
  foreign_ip (rg_expected_peer_ip cfg) a = false → 0 ≤ seq < rg_total_blocks cfg →
  Z.of_nat (length b) ≤ rg_block_size cfg →
  carries (sc_crypto scfg) (sc_session scfg) pkt seq b → pkt ≠ [] →
  ingest cfg pkt (Some a) now st = Done st' →
  bit (rs_bm st') seq = true ∧ rs_peer st' = Some a ∧
  ∀ j, 0 ≤ j → bit (rs_bm st) j = true → bit (rs_bm st') j = true.
Proof.
  intros Hok Hp Hf Hs Hb Hc Hne E.
  destruct (open_packet_carries pkt (Some a) seq b Hc) as [[_ [?|[?|(a' & [= <-] & ?)]]]|(h & Ho & <-)];
    [lia|lia|congruence|].
  unfold ingest in E. destruct pkt as [|b0 pkt]; [done|]. set (p := b0 :: pkt) in *. set (st0 := add_stat _ _ _) in *.
  assert (recv_ok cfg st0) as Hok0 by (by do 2 apply recv_ok_add_stat).
  destruct (handle_packet_bits cfg p (Some a) now st0 st' Hok0 E) as (Hmono & _).
  split; [|split; [|exact Hmono]]; unfold handle_packet in E;
    destruct (admit_spec cfg p (Some a) now st0 Hok0) as (st1 & r & Ea & _ & _); rewrite Ea in E;
    cbn [mbind outcome_bind] in E;
    (assert ((learn_peer cfg (Some a) st0).2 = true ∧ rs_peer (learn_peer cfg (Some a) st0).1 = Some a) as [Hl Hlp];
      [unfold learn_peer; rewrite Hf; destruct Hp as [Hp|Hp]; simpl; rewrite Hp; simpl; [done|];
       by rewrite bool_decide_eq_true_2|]);
    destruct (admit_sets cfg p (Some a) now st0 st1 r h b Hok0 Ho Hl Ea) as [Hset Hpeer].
  - destruct r as [[seq q]|]; [|by injection E as <-].
    assert (rs_bm (place cfg seq q st1).1 = rs_bm st1) as Hpl.
    { unfold place. destruct (rs_free st1); [|done]. by destruct (sink_write_all_at _ _ _) as [k [u|e]]. }
    destruct (place cfg seq q st1) as [st2 []]; cbn [fst] in Hpl; [|injection E as <-; by rewrite Hpl].
    unfold publish in E. destruct (set_and_test _ _) as [[bm ?]|]; [|done]. injection E as <-. simpl. by rewrite Hpl.
  - destruct r as [[seq q]|]; [|injection E as <-; congruence].
    assert (rs_peer (place cfg seq q st1).1 = rs_peer st1) as Hpl.
    { unfold place. destruct (rs_free st1); [|done]. by destruct (sink_write_all_at _ _ _) as [k [u|e]]. }
    destruct (place cfg seq q st1) as [st2 []]; cbn [fst] in Hpl; [|injection E as <-; congruence].
    unfold publish in E. destruct (set_and_test _ _) as [[bm ?]|]; [|done]. injection E as <-. simpl. congruence.
Qed.

(** A PDU carrying a block of the file. *)
Definition block_pdu (pkt : list byte) (seq : Z) : Prop :=
  0 ≤ seq < sc_total_blocks scfg ∧ carries (sc_crypto scfg) (sc_session scfg) pkt seq (src_block scfg seq).

Lemma ingest_all_receives pkts a : send_cfg_ok scfg →
  foreign_ip (rg_expected_peer_ip cfg) a = false → ∀ st,
  sys_inv cfg (src_content (sc_source scfg)) (solo st) → rs_peer st = None ∨ rs_peer st = Some a →
  Forall (λ '(pkt, _), ∃ seq, block_pdu pkt seq) pkts →
  ∃ st', ingest_all pkts (Some a) st = Done st' ∧ sys_inv cfg (src_content (sc_source scfg)) (solo st') ∧
    (∀ j, 0 ≤ j → bit (rs_bm st) j = true → bit (rs_bm st') j = true) ∧
    (∀ seq, (∃ pkt now, (pkt, now) ∈ pkts ∧ block_pdu pkt seq) → bit (rs_bm st') seq = true).
Proof.
  intros Hok Hf. induction pkts as [|[pkt now] pkts IH]; intros st Hinv Hp Hall.
  { exists st. split; [done|]. split; [done|]. split; [done|]. intros seq (? & ? & Hin & _). by apply not_elem_of_nil in Hin. }
  apply Forall_cons in Hall as [(seq & Hs & Hc) Hall].
  assert (pkt ≠ []) as Hne by (intros ->; by destruct Hc as (h & Hd & _)).
  pose proof (sok_bs _ Hok) as Hbs. destruct (block_geometry scfg Hok seq Hs) as (_ & _ & Hpl & Hb & _).
  destruct (ingest_sys network (src_content (sc_source scfg)) st pkt (Some a) now) as (st1 & E & Hinv1);
    [by apply network_authentic|done| |done|].
  { left. exists seq, (src_block scfg seq). split; [|split; [done|by apply src_block_bytes]].
    pose proof (total_blocks_small scfg Hok). unfold is_uint. lia. }
  assert (∀ seq', block_pdu pkt seq' → bit (rs_bm st1) seq' = true ∧ rs_peer st1 = Some a ∧
            ∀ j, 0 ≤ j → bit (rs_bm st) j = true → bit (rs_bm st1) j = true) as Hrec.
  { intros seq' [Hs' Hc']. destruct (block_geometry scfg Hok seq' Hs') as (_ & _ & Hpl' & Hb' & _).
    eapply ingest_receives; [apply Hinv|exact Hp|exact Hf| | |exact Hc'|done|exact E].
    - by rewrite (mt_total Hm).
    - rewrite (mt_bs Hm). lia. }
  destruct (Hrec seq (conj Hs Hc)) as (_ & Hp1 & Hmono).
  destruct (IH st1 Hinv1 (or_intror Hp1) Hall) as (st' & E' & Hinv' & Hmono' & Hall').
  exists st'. cbn [ingest_all]. rewrite E. cbn [mbind outcome_bind]. split; [done|]. split; [done|]. split.
  - intros j Hj Hj1. apply Hmono'; [done|]. by apply Hmono.
  - intros seq' (pkt' & now' & [Heq|Hin]%elem_of_cons & Hb').
    + injection Heq as -> ->. apply Hmono'; [destruct Hb'; lia|]. by apply Hrec.
    + apply Hall'. by exists pkt', now'.
Qed.
End transfer.

(** ** Properties *)

(** Whatever the threads do, done means stored. *)
Lemma integrity_run {Src} `{!BlockSource Src, !BlockSourceLaws Src}
    `{!Crc32c, !Crc32cLaws, !AeadCrate, !AeadLaws} {K} `{!BlockSink K, !BlockSinkLaws K}
    (scfg : SendCfg Src) num_cpu c (sink0 : K) stats :
  send_cfg_ok scfg → recv_setup_ok c → matching scfg (recv_defaults num_cpu c) →
  ∃ sink st, sink_allocate sink0 (sc_file_size scfg) = (sink, Ok ()) ∧
    new_receiver num_cpu c sink stats = Done (recv_defaults num_cpu c, st) ∧
    ∀ s, reachable (recv_defaults num_cpu c) (network scfg (recv_defaults num_cpu c)) st s →
      rs_done (sy_st s) = true →
      sink_bytes (rs_sink (sy_st s)) = src_content (sc_source scfg) ∧
      ∃ crc, source_crc32c (sc_source scfg) = Ok crc ∧ sink_read_crc32c (rs_sink (sy_st s)) = Ok (Some crc).
Proof.
  intros Hok Hs Hm. pose proof (sok_fits _ Hok). pose proof (sok_size _ Hok) as Hsz. rewrite Hsz.
  destruct (sink_allocate_ok sink0 (length (src_content (sc_source scfg)))) as (sink & Ea & Hwf & Hl); [lia|].
  destruct (new_receiver_spec num_cpu c sink stats Hs) as (st & E & Hf).
  exists sink, st. split; [done|]. split; [done|]. intros s Hr Hd.
  pose proof (network_authentic _ _ Hm Hok) as Hc.
  pose proof (sys_inv_reachable _ _ _ Hc _ s (sys_inv_fresh _ _ _ Hc sink st Hf Hwf Hl) Hr) as Hinv.
  pose proof (sys_inv_complete _ _ _ Hc s Hinv (iv_done _ _ _ Hinv (or_introl Hd))) as Hb. split; [done|].
  exists (crc32c_append 0 (src_content (sc_source scfg))). split; [apply source_crc32c_spec; lia|].
  rewrite <-Hb. by apply sink_crc_ok, Hinv.
Qed.

(** Result: a completed transfer is the file.  For a sender of a source and a receiver set up
    for the same transfer on an allocated sink: whatever the threads' interleaving, and on
    any network that delivers the sender's datagrams in any order, with any loss and any
    duplication, mixed with anything the receiver's checks refuse, when the receiver
    declares the transfer done the sink holds exactly the bytes of the source, and the
    checksums the two ends compute afterwards are equal. *)
Theorem end_to_end_integrity {Src} `{!BlockSource Src, !BlockSourceLaws Src}
    `{!Crc32c, !Crc32cLaws, !AeadCrate, !AeadLaws} {K} `{!BlockSink K, !BlockSinkLaws K}
    (scfg : SendCfg Src) num_cpu c (sink0 : K) stats :
  send_cfg_ok scfg → recv_setup_ok c → matching scfg (recv_defaults num_cpu c) →
  ∃ sink st, sink_allocate sink0 (sc_file_size scfg) = (sink, Ok ()) ∧
    new_receiver num_cpu c sink stats = Done (recv_defaults num_cpu c, st) ∧
    ∀ s, reachable (recv_defaults num_cpu c) (network scfg (recv_defaults num_cpu c)) st s →
      rs_done (sy_st s) = true →
      sink_bytes (rs_sink (sy_st s)) = src_content (sc_source scfg) ∧
      ∃ crc, source_crc32c (sc_source scfg) = Ok crc ∧ sink_read_crc32c (rs_sink (sy_st s)) = Ok (Some crc).
Proof. apply integrity_run. Qed.

(** Enough packets complete a transfer. *)
Lemma delivery_run {Src} `{!BlockSource Src, !BlockSourceLaws Src}
    `{!Crc32c, !Crc32cLaws, !AeadCrate, !AeadLaws} {K} `{!BlockSink K, !BlockSinkLaws K}
    (scfg : SendCfg Src) num_cpu c (sink0 : K) stats a pkts :
  send_cfg_ok scfg → recv_setup_ok c → matching scfg (recv_defaults num_cpu c) →
  foreign_ip (rg_expected_peer_ip c) a = false →
  Forall (λ '(pkt, _), ∃ seq, block_pdu scfg pkt seq) pkts →
  (∀ seq, 0 ≤ seq < sc_total_blocks scfg → ∃ pkt now, (pkt, now) ∈ pkts ∧ block_pdu scfg pkt seq) →
  ∃ sink st st1 st2, sink_allocate sink0 (sc_file_size scfg) = (sink, Ok ()) ∧
    new_receiver num_cpu c sink stats = Done (recv_defaults num_cpu c, st) ∧
    ingest_all (recv_defaults num_cpu c) pkts (Some a) st = Done st1 ∧
    flush_pass (Z.to_nat (rg_total_blocks c)) (recv_defaults num_cpu c) 0 st1 = Done (st2, rg_total_blocks c) ∧
    rs_flushed_blocks st2 = rg_total_blocks c ∧ sink_bytes (rs_sink st2) = src_content (sc_source scfg).
Proof.
  intros Hok Hs Hm Hf Hpk Hcov. pose proof (sok_fits _ Hok). pose proof (sok_size _ Hok) as Hsz. rewrite Hsz.
  destruct (sink_allocate_ok sink0 (length (src_content (sc_source scfg)))) as (sink & Ea & Hwf & Hl); [lia|].
  destruct (new_receiver_spec num_cpu c sink stats Hs) as (st & E & Hfr).
  pose proof (network_authentic _ _ Hm Hok) as Hc.
  assert (sys_inv (recv_defaults num_cpu c) (src_content (sc_source scfg)) (solo (recv_defaults num_cpu c) st)) as Hinv.
  { apply (solo_inv _ _ _ _ Hc). by apply (sys_inv_fresh _ _ _ Hc sink). }
  destruct (ingest_all_receives scfg _ Hm pkts a Hok Hf st Hinv (or_introl (rf_peer _ _ _ Hfr)) Hpk)
    as (st1 & E1 & Hinv1 & _ & Hall).
  destruct (flush_pass_complete _ _ _ Hc (Z.to_nat (rg_total_blocks c)) _ 0 false Hinv1 eq_refl) as (st2 & b2 & E2 & Hinv2).
  { simpl. lia. }
  { intros j Hj. destruct (iv_noloss _ _ _ Hinv1 j Hj) as [?|Hh]; [|done|by apply not_elem_of_nil in Hh].
    apply Hall, Hcov. by rewrite <-(mt_total _ _ Hm). }
  exists sink, st, st1, st2. split; [done|]. split; [done|]. split; [done|]. split; [done|].
  pose proof (iv_flushed _ _ _ Hinv2) as Hfl. split; [done|]. by apply (sys_inv_complete _ _ _ Hc _ Hinv2).
Qed.

(** Result: enough packets complete a transfer.  If the sender's datagrams reach the receiver so
    that every block of the file arrives at least once, in any order and with any
    repetition, then handling them never fails, and the flusher's pass that follows moves
    the frontier to the last block and leaves exactly the source's bytes in the sink. *)
Theorem end_to_end_delivery {Src} `{!BlockSource Src, !BlockSourceLaws Src}
    `{!Crc32c, !Crc32cLaws, !AeadCrate, !AeadLaws} {K} `{!BlockSink K, !BlockSinkLaws K}
    (scfg : SendCfg Src) num_cpu c (sink0 : K) stats a pkts :
  send_cfg_ok scfg → recv_setup_ok c → matching scfg (recv_defaults num_cpu c) →
  foreign_ip (rg_expected_peer_ip c) a = false →
  Forall (λ '(pkt, _), ∃ seq, block_pdu scfg pkt seq) pkts →
  (∀ seq, 0 ≤ seq < sc_total_blocks scfg → ∃ pkt now, (pkt, now) ∈ pkts ∧ block_pdu scfg pkt seq) →
  ∃ sink st st1 st2, sink_allocate sink0 (sc_file_size scfg) = (sink, Ok ()) ∧
    new_receiver num_cpu c sink stats = Done (recv_defaults num_cpu c, st) ∧
    ingest_all (recv_defaults num_cpu c) pkts (Some a) st = Done st1 ∧
    flush_pass (Z.to_nat (rg_total_blocks c)) (recv_defaults num_cpu c) 0 st1 = Done (st2, rg_total_blocks c) ∧
    rs_flushed_blocks st2 = rg_total_blocks c ∧ sink_bytes (rs_sink st2) = src_content (sc_source scfg).
Proof. apply delivery_run. Qed.

(** ** A small transfer *)

(** The receiver for [demo_send]. *)
Definition demo_end : RecvConfig :=
  mkRecvConfig 7 3 3 77 None 2 fixed_cfg (Some demo_box) 0 0 0 None None.

Lemma demo_end_ok : recv_setup_ok demo_end.
Proof.
  split; [done|done|done| |done]. split; [done|]. split; [done|]. repeat split; vm_compute; done.
Qed.

Lemma demo_matching : matching demo_send (recv_defaults 1 demo_end).
Proof. by split. Qed.

Lemma end_to_end_integrity_witness :
  ∃ sink st, mem_allocate mem_sink_new 7 = (sink, Ok ()) ∧
    new_receiver 1 demo_end sink stats_default = Done (recv_defaults 1 demo_end, st).
Proof.
  destruct (@end_to_end_integrity MemSource _ _ castagnoli castagnoli_laws toy_aead toy_aead_laws MemSink
              (@mem_sink castagnoli) (@mem_sink_laws castagnoli) demo_send 1 demo_end mem_sink_new stats_default
              demo_send_ok demo_end_ok demo_matching) as (sink & st & E & E1 & _).
  exact (ex_intro _ sink (ex_intro _ st (conj E E1))).
Defined.

(** The three datagrams of the file, delivered backwards and twice. *)
Lemma demo_packets :
  ∃ pkts : list (list byte * Z), Forall (λ '(pkt, _), ∃ seq, @block_pdu _ _ _ castagnoli toy_aead demo_send pkt seq) pkts ∧
    ∀ seq, 0 ≤ seq < 3 → ∃ pkt now, (pkt, now) ∈ pkts ∧ @block_pdu _ _ _ castagnoli toy_aead demo_send pkt seq.
Proof.
  destruct (@prefetch_spec MemSource _ _ castagnoli castagnoli_laws toy_aead toy_aead_laws demo_send demo_send_ok
              (replicate 3 (replicate 55 xff)) 0 3) as (items & _ & Hl & Hi); [by repeat constructor|done|done|done|].
  set (pkts := (λ it : list byte * nat, (take it.2 it.1, 0)) <$> (reverse items ++ items)).
  assert (∀ (i : nat) it, items !! i = Some it →
            @block_pdu _ _ _ castagnoli toy_aead demo_send (take it.2 it.1) i) as Hpdu.
  { intros i it Hit. pose proof (lookup_lt_Some _ _ _ Hit). destruct (Hi i it Hit) as (_ & _ & Hc).
    split; [cbn [sc_total_blocks demo_send]; lia|exact Hc]. }
  exists pkts. split.
  - apply Forall_forall. intros [pkt now] (it & [= -> ->] & Hin)%list_elem_of_fmap.
    assert (it ∈ items) as (i & Hit)%list_elem_of_lookup.
    { rewrite elem_of_app, elem_of_reverse in Hin. tauto. }
    exists i. by apply Hpdu.
  - intros seq Hs. destruct (lookup_lt_is_Some_2 items (Z.to_nat seq)) as [it Hit]; [lia|].
    exists (take it.2 it.1), 0. split.
    + unfold pkts. apply list_elem_of_fmap. exists it. split; [done|]. apply elem_of_app. right.
      by eapply list_elem_of_lookup_2.
    + pose proof (Hpdu _ _ Hit) as Hp. by rewrite Z2Nat.id in Hp by lia.
Qed.

Lemma end_to_end_delivery_witness :
  ∃ pkts sink st st1 st2, mem_allocate mem_sink_new 7 = (sink, Ok ()) ∧
    new_receiver 1 demo_end sink stats_default = Done (recv_defaults 1 demo_end, st) ∧
    @ingest_all castagnoli toy_aead _ (@mem_sink castagnoli) (recv_defaults 1 demo_end) pkts (Some demo_peer) st = Done st1 ∧
    flush_pass (BlockSink0 := @mem_sink castagnoli) 3 (recv_defaults 1 demo_end) 0 st1 = Done (st2, 3) ∧
    rs_flushed_blocks st2 = 3 ∧ mk_buf (rs_sink st2) = demo_content.
Proof.
  destruct demo_packets as (pkts & Hall & Hcov). exists pkts.
  exact (@end_to_end_delivery MemSource _ _ castagnoli castagnoli_laws toy_aead toy_aead_laws MemSink
           (@mem_sink castagnoli) (@mem_sink_laws castagnoli) demo_send 1 demo_end mem_sink_new stats_default
           demo_peer pkts demo_send_ok demo_end_ok demo_matching eq_refl Hall Hcov).
Defined.
