(* ===== verification/Run.v ===== *)
(** * The receiver's run (src/receiver.rs [run], [feedback_loop], [writeback_loop])

    What [run] does around its threads: the START datagrams of a pull and their nudging, the
    cadence of the feedback thread, the guard of the writeback thread; and what the result of
    [run] says of the sink, over the step relation of [ReceiverSys], in which [run] joins its
    threads while they go on. *)

From S2P Require Import Prelude Float64 Errors Net Protocol Rate PQueue LossTracker Stats Runtime BlockIO Crypto.
From S2P Require Import Sender Receiver ReceiverSys EndToEnd.

(** ** START *)

(** The nudging thread: at most [n] passes; each finds, after its nap, whether to stop and how
    many packets have come.  How many STARTs it sends, and whether it has returned. *)
Fixpoint nudges (n : nat) (passes : list (bool * Z)) : nat * bool :=
  match n, passes with
  | O, _ => (O, true)
  | S _, [] => (O, false)
  | S n', (stop, packets) :: passes =>
      if stop || (0 <? packets) then (O, true) else let '(k, e) := nudges n' passes in (S k, e)
  end.

(** The STARTs of a client pull: five at once, then the nudges. *)
Definition start_phase (cfg : RecvConfig) (passes : list (bool * Z)) : outcome (option (SocketAddr * list (list byte))) :=
  match rg_start_peer cfg with
  | None => Done None
  | Some peer => b ← start_datagram cfg; Done (Some (peer, replicate (5 + (nudges 25 passes).1) b))
  end.

(** ** The feedback ticker *)

(** The sleep before an iteration whose deadline is [next], looking at the clock at [now]. *)
Definition ticker_sleep (next now : Z) : option Z := if now <? next then Some (next - now) else None.
(** The deadline after it, the iteration starting at [after]. *)
Definition ticker_next (interval next after : Z) : Z :=
  if next + interval <=? after then after + interval else next + interval.
(** The deadlines of the iterations that start at [afters]. *)
Fixpoint ticker_run (interval next : Z) (afters : list Z) : list Z :=
  match afters with [] => [next] | a :: afters => next :: ticker_run interval (ticker_next interval next a) afters end.

(** ** Writeback *)

(** Whether [writeback_loop] runs at all; [nowb] is [GIRTH_NOWB]. *)
Definition writeback_runs (cfg : RecvConfig) (nowb : bool) : bool := negb ((rg_total_blocks cfg =? 0) || nowb).

(** The loop over what its turns find, each with the flags at its head. *)
Fixpoint writeback_loop {K} (cfg : RecvConfig) (prefix : Z) (turns : list (bool * RecvState K)) : list (Z * Z) :=
  match turns with
  | [] => []
  | (stop, st) :: turns =>
      if stop || rs_done st then [] else
      let '(range, prefix) := writeback_turn cfg prefix st in
      match range with Some r => [r] | None => [] end ++ writeback_loop cfg prefix turns
  end.

(** ** The contiguous mark is true *)

Lemma scan_loop_hi n bm due : ∀ seq s s', scan_loop n bm due seq s = Done s' →
  ls_hi_contig s' = ls_hi_contig s ∧ ls_total s' = ls_total s.
Proof.
  induction n as [|n IH]; intros seq s s'; cbn [scan_loop]; [by intros [= <-]|].
  intros (b & _ & [-> ->]%IH)%outcome_bind_done. by destruct (_ && _).
Qed.
Lemma scan_holes_hi bm s ms now r s' : scan_holes bm s ms now r = Done s' →
  ls_hi_contig s' = ls_hi_contig s ∧ ls_total s' = ls_total s.
Proof.
  unfold scan_holes. destruct (_ =? 0); [by intros [= <-]|]. intros (s1 & [<- <-]%scan_loop_hi & E)%outcome_bind_done.
  apply Done_inj in E as <-. by destruct (_ <? _).
Qed.
Lemma collect_loop_hi fuel bm now re_due max : ∀ out s out' s',
  collect_loop fuel bm now re_due max out s = Done (Some (out', s')) →
  ls_hi_contig s' = ls_hi_contig s ∧ ls_total s' = ls_total s.
Proof.
  induction fuel as [|fuel IH]; intros out s out' s'; cbn [collect_loop].
  - destruct (_ <? _)%nat; [|by intros [= _ <-]]. destruct (pq_peek _); [|by intros [= _ <-]].
    destruct (f64_gt _ _); [by intros [= _ <-]|done].
  - destruct (_ <? _)%nat; [|by intros [= _ <-]]. destruct (pq_peek _); [|by intros [= _ <-]].
    destruct (f64_gt _ _); [by intros [= _ <-]|]. destruct (pq_pop _) as [[top heap]|]; [|done].
    destruct (bool_decide _); [by intros [-> ->]%IH|]. intros (b & _ & E)%outcome_bind_done.
    by destruct b; apply IH in E as [-> ->].
Qed.

Lemma advance_loop_hi bm n : ∀ s s', wf_bitmap bm → rb_total bm = ls_total s → 0 ≤ ls_hi_contig s ≤ ls_total s →
  (∀ j, 0 ≤ j < ls_hi_contig s → bit bm j = true) → ls_total s - ls_hi_contig s ≤ Z.of_nat n →
  advance_loop n bm s = Done s' →
  ls_total s' = ls_total s ∧ 0 ≤ ls_hi_contig s' ≤ ls_total s' ∧ (∀ j, 0 ≤ j < ls_hi_contig s' → bit bm j = true) ∧
  (ls_hi_contig s' < ls_total s' → bit bm (ls_hi_contig s') = false).
Proof.
  induction n as [|n IH]; intros s s' Hwf Ht Hhi Hc Hn; cbn [advance_loop];
    (destruct (Z.ltb_spec (ls_hi_contig s) (ls_total s)); [|intros [= <-]; split_and!; done || lia]); [lia|].
  rewrite is_set_spec by (done || lia). cbn [mbind outcome_bind].
  destruct (bit bm (ls_hi_contig s)) eqn:Eb; [|intros [= <-]; split_and!; done || lia].
  intros (E & ?)%IH; [done|done|done|simpl; lia| |simpl; lia]. intros j Hj. simpl in Hj.
  destruct (decide (j = ls_hi_contig s)) as [->|]; [done|apply Hc; lia].
Qed.

(** The mark of the iteration under way. *)
Definition pass_hi (f : feeding) : option Z :=
  match f with FbAdvanced _ hi | FbScanned _ hi | FbJudged _ hi _ | FbMarked _ hi _ => Some hi | _ => None end.

(** The iteration's mark is in the statistics. *)
Definition mark_stored (f : feeding) : bool := match f with FbMarked _ _ _ | FbFinish _ => true | _ => false end.

Section mark.
Context `{!Crc32c, !AeadCrate, !AeadLaws} {K : Type} `{!BlockSink K}.
Context (cfg : RecvConfig) (net : list byte → Prop).
Implicit Types (st : RecvState K) (s : Sys K).

(** The marks of the scanner, of the iteration and of the statistics are below the first
    missing block; after the first done report the marks of the iterations are the last block. *)
Record mark_ok st (c : Ctl) : Prop := {
  mk_total : ls_total (fb_scanner (ct_feedback c)) = rg_total_blocks cfg;
  mk_range : 0 ≤ ls_hi_contig (fb_scanner (ct_feedback c)) ≤ rg_total_blocks cfg;
  mk_scanner j : 0 ≤ j < ls_hi_contig (fb_scanner (ct_feedback c)) → bit (rs_bm st) j = true;
  mk_pass hi j : pass_hi (ct_feeding c) = Some hi → 0 ≤ j < hi → bit (rs_bm st) j = true;
  mk_stats j : 0 ≤ j < rs_stats st hi_contig → bit (rs_bm st) j = true;
  mk_sends : 0 ≤ fb_done_sends (ct_feedback c);
  mk_flushed : 1 ≤ fb_done_sends (ct_feedback c) → rs_flushed_blocks st = rg_total_blocks cfg;
  mk_last hi : 1 ≤ fb_done_sends (ct_feedback c) → pass_hi (ct_feeding c) = Some hi → hi = rg_total_blocks cfg;
  mk_stored : 1 ≤ fb_done_sends (ct_feedback c) → mark_stored (ct_feeding c) = true →
    rs_stats st hi_contig = rg_total_blocks cfg;
  mk_done : rs_done st = true → 1 ≤ fb_done_sends (ct_feedback c) ∧ rs_stats st hi_contig = rg_total_blocks cfg
}.

Lemma mark_ok_grow st st' c : mark_ok st c → rs_stats st' hi_contig = rs_stats st hi_contig →
  rs_done st' = rs_done st → rs_flushed_blocks st' = rs_flushed_blocks st →
  (∀ j, 0 ≤ j → bit (rs_bm st) j = true → bit (rs_bm st') j = true) → mark_ok st' c.
Proof.
  intros [] E1 E2 E3 Hg. split; rewrite ?E1, ?E2, ?E3; try done; [intros j Hj|intros hi j Hh Hj|intros j Hj];
    (apply Hg; [lia|eauto]).
Qed.

Lemma accept_packet_mark pkt addr now st st' r :
  accept_packet cfg pkt addr now st = Done (st', r) → rs_stats st' hi_contig = rs_stats st hi_contig.
Proof.
  unfold accept_packet. destruct (open_packet_spec cfg pkt addr) as (v & -> & _). cbn [mbind outcome_bind].
  assert (rs_stats (learn_peer cfg addr st).1 hi_contig = rs_stats st hi_contig) as Hl.
  { unfold learn_peer. destruct addr as [a|]; [|done]. destruct (foreign_ip _ a); [done|]. by destruct (rs_peer st). }
  destruct v as [| | |h payload]; [by intros [= <- _]|by intros [= <- _]| |].
  - destruct (learn_peer cfg addr st) as [st1 []]; by intros [= <- _].
  - destruct (learn_peer cfg addr st) as [st1 []]; cbn [negb fst] in *; [|by intros [= <- _]].
    intros (st2 & Et & E)%outcome_bind_done. rewrite <-Hl.
    assert (rs_stats st2 hi_contig = rs_stats st1 hi_contig) as <-.
    { destruct (negb _); [|by injection Et as <-]. unfold apply_tick in Et. destruct (negb _); [by injection Et as <-|].
      destruct (negb _); apply outcome_bind_done in Et as ([e r'] & _ & Et); apply Done_inj in Et as <-; done. }
    apply outcome_bind_done in E as ([bm first] & _ & E). by destruct first; injection E as <- _.
Qed.

(** A stage that keeps the scanner's mark and the statistics' and starts no new pass. *)
Lemma mark_ok_stage st st' c c' : mark_ok st c → same_feedback st st' → rs_done st' = rs_done st →
  rs_stats st' hi_contig = rs_stats st hi_contig →
  ls_total (fb_scanner (ct_feedback c')) = ls_total (fb_scanner (ct_feedback c)) →
  ls_hi_contig (fb_scanner (ct_feedback c')) = ls_hi_contig (fb_scanner (ct_feedback c)) →
  fb_done_sends (ct_feedback c') = fb_done_sends (ct_feedback c) →
  pass_hi (ct_feeding c') = pass_hi (ct_feeding c) ∨ pass_hi (ct_feeding c') = None →
  (mark_stored (ct_feeding c') = true → mark_stored (ct_feeding c) = true) → mark_ok st' c'.
Proof.
  intros [] (_ & Eb & _ & _ & Ef) Ed Es Et Eh En Hp Hm.
  split; rewrite ?Et, ?Eh, ?En, ?Eb, ?Ef, ?Ed, ?Es; auto.
  - intros hi j Hh. apply mk_pass0. destruct Hp; congruence.
  - intros hi Hn Hh. apply mk_last0; [done|]. destruct Hp; congruence.
Qed.

Lemma mark_ok_advance s pa fb' :
  bits_inv cfg s → mark_ok (sy_st s) (sy_ctl s) → fb_advance (rs_bm (sy_st s)) (ct_feedback (sy_ctl s)) = Done fb' →
  mark_ok (sy_st s) (set_feed fb' (FbAdvanced pa (ls_hi_contig (fb_scanner fb'))) (sy_ctl s)).
Proof.
  intros Hinv [] E. pose proof (bv_recv _ _ Hinv) as Hok. unfold fb_advance in E.
  apply outcome_bind_done in E as (s1 & Ea & E). apply Done_inj in E as <-. unfold advance in Ea.
  set (n := Z.to_nat _) in Ea. assert (ls_total (fb_scanner (ct_feedback (sy_ctl s))) - ls_hi_contig (fb_scanner (ct_feedback (sy_ctl s))) ≤ n)
    as Hn by (unfold n; lia).
  destruct (advance_loop_hi _ _ _ _ (ro_bm _ _ Hok) ltac:(rewrite mk_total0; apply Hok) ltac:(rewrite mk_total0; done) mk_scanner0
              Hn Ea) as (Ht1 & Hr1 & Hc1 & Hstop).
  rewrite mk_total0 in Ht1. rewrite Ht1 in Hr1, Hstop. split; cbn [set_feed ct_feedback ct_feeding set_scanner fb_scanner fb_done_sends pass_hi mark_stored]; auto.
  - intros hi j [= <-]. apply Hc1.
  - intros hi Hd1 [= <-]. destruct (Z.lt_ge_cases (ls_hi_contig s1) (rg_total_blocks cfg)) as [Hlt|]; [|lia].
    specialize (Hstop Hlt). specialize (mk_flushed0 Hd1). rewrite (bv_flushed _ _ Hinv) in mk_flushed0.
    assert (bit (rs_bm (sy_st s)) (ls_hi_contig s1) = true); [|congruence].
    apply (bv_ready _ _ Hinv); [lia|]. apply (bv_below _ _ Hinv). lia.
  - done.
Qed.

Lemma mark_ok_mark s pa hi complete :
  mark_ok (sy_st s) (sy_ctl s) → ct_feeding (sy_ctl s) = FbJudged pa hi complete →
  mark_ok (fb_mark hi (ct_feedback (sy_ctl s)) (sy_st s)) (set_feeding (FbMarked pa hi complete) (sy_ctl s)).
Proof.
  intros [] Hf. rewrite Hf in *.
  assert (rs_stats (fb_mark hi (ct_feedback (sy_ctl s)) (sy_st s)) hi_contig = hi) as Es by done.
  split; rewrite ?Es; cbn [set_feeding set_feed ct_feedback ct_feeding pass_hi mark_stored fb_mark upd_stats rs_bm rs_done
    rs_flushed_blocks]; auto.
  - intros j Hj. by apply (mk_pass0 hi).
  - intros Hd. destruct (mk_done0 Hd) as [Hn _]. split; [done|]. by apply mk_last0.
Qed.

Lemma mark_ok_finish s complete st' fb' (fin : bool) :
  bits_inv cfg s → mark_ok (sy_st s) (sy_ctl s) → ct_feeding (sy_ctl s) = FbFinish complete →
  fb_finish complete (sy_st s) (ct_feedback (sy_ctl s)) = (st', fb', fin) →
  mark_ok st' (set_feed fb' (if fin then FbGone else FbTop) (sy_ctl s)).
Proof.
  intros Hinv [] Hf. unfold fb_finish. intros [= <- <- <-].
  assert (complete = true → rs_flushed_blocks (sy_st s) = rg_total_blocks cfg) as Hfl.
  { intros ->. apply (bv_done _ _ Hinv). rewrite Hf. by right. }
  rewrite Hf in *. cbn [mark_stored] in mk_stored0.
  set (sends := if complete then fb_done_sends _ + 1 else fb_done_sends _).
  assert (fb_done_sends (ct_feedback (sy_ctl s)) ≤ sends) as Hle by (unfold sends; destruct complete; lia).
  assert (1 ≤ sends → rs_flushed_blocks (sy_st s) = rg_total_blocks cfg) as Hfl'
    by (unfold sends; destruct complete; auto).
  set (fin := complete && (8 <=? sends)).
  assert (fin = true → 1 ≤ fb_done_sends (ct_feedback (sy_ctl s))) as Hfin.
  { unfold fin, sends. destruct complete; [|done]. cbn [andb]. rewrite Z.leb_le. lia. }
  assert (∀ f, pass_hi (if fin then FbGone else FbTop) = Some f → False) as Hp by (intros f; by destruct fin).
  assert (mark_stored (if fin then FbGone else FbTop) = false) as Hm by (by destruct fin).
  assert (∀ A (g : RecvState K → A), (∀ x, g (set_done x) = g x) → g (if fin then set_done (sy_st s) else sy_st s) = g (sy_st s)) as Hg
    by (intros A g Hx; destruct fin; auto).
  split; cbn [set_feed ct_feedback ct_feeding fb_scanner fb_done_sends]; rewrite ?Hm, ?(Hg _ rs_bm), ?(Hg _ rs_stats),
    ?(Hg _ rs_flushed_blocks) by done; auto; try done.
  - intros hi j Hx. by destruct (Hp hi).
  - lia.
  - intros hi _ Hx. by destruct (Hp hi).
  - destruct fin; [intros _|]; [|intros Hd; destruct (mk_done0 Hd); split; [lia|done]].
    specialize (Hfin eq_refl). split; [lia|]. by apply mk_stored0.
Qed.

Lemma mark_step s s' : bits_inv cfg s → mark_ok (sy_st s) (sy_ctl s) → step cfg net s s' → mark_ok (sy_st s') (sy_ctl s').
Proof.
  intros Hinv Hmk Hstep. pose proof (bv_recv _ _ Hinv) as Hok.
  destruct Hstep as [s i pkt addr now st' r Hi Hn Hne E|s i seq p st' b Hi E|s i seq st' Hi E|s i Hi|
    s front b st' staged Ef Hlt E|s front staged Ef|s front Ef|s front b Ef Hlt E|s front Ef|s front b Ef Hle|
    s Hf|s control t0 st' r target Hf E|s pa fb' Hf E|s pa hi view ms al sn fb' Hf Hv Hms Hal Hsn E|s pa hi al Hf Hal|
    s pa hi complete Hf|s pa hi complete Hf Hp|s pa hi complete view t1 t2 send_ok peer fb' n pdu Hf Hp Hv E|
    s complete st' fb' fin Hf E| s|s Hm Hd|s Hm Hg|s Hm Hg|s front Hm Ef]; cbn [sy_st sy_ctl]; try done.
  - set (st0 := add_stat _ _ _) in E. assert (recv_ok cfg st0) as Hok0 by (by do 2 apply recv_ok_add_stat).
    destruct (admit_spec cfg pkt addr now st0 Hok0) as (st1 & r1 & E1 & _ & (_ & _ & _ & _ & Efl & Ed) & Hb & _).
    rewrite E in E1. apply Done_inj in E1. injection E1 as <- <-.
    apply (mark_ok_grow (sy_st s)); [done|by rewrite (accept_packet_mark _ _ _ _ _ _ E)|done|done|].
    intros j Hj Hbit. rewrite Hb by done. apply orb_true_iff. by right.
  - apply (mark_ok_grow (sy_st s)); [done|..]; revert E; unfold place; destruct (rs_free (sy_st s));
      try destruct (sink_write_all_at _ _ _) as [k []]; intros [= <- _]; done.
  - apply (mark_ok_grow (sy_st s)); [done|..]; revert E; unfold publish; intros ([bm ?] & _ & E)%outcome_bind_done;
      apply Done_inj in E as <-; done.
  - apply (mark_ok_grow (sy_st s)); [done|..]; revert E; unfold flush_take; intros ([] & _ & E)%outcome_bind_done;
      try done; apply Done_inj in E; injection E as <- _; done.
  - apply (mark_ok_grow (sy_st s)); [done|..]; unfold flush_write; destruct staged; try done;
      by destruct (sink_write_all_at _ _ _).
  - pose proof (bv_fl _ _ Hinv) as Hfl. pose proof (bv_flushed _ _ Hinv) as Hfd. rewrite Ef in Hfl, Hfd. simpl in Hfl, Hfd.
    destruct Hmk. split; cbn [flush_advance set_flushed rs_bm rs_stats rs_done rs_flushed_blocks]; auto.
    intros Hn. specialize (mk_flushed0 Hn). lia.
  - destruct (ct_stop (sy_ctl s)); [done|]. by apply (mark_ok_grow (sy_st s)).
  - eapply mark_ok_stage; try done; [by rewrite Hf; destruct (ct_stop _); right|by destruct (ct_stop _)].
  - destruct (fb_rates_frame cfg _ _ _ _ _ Hok E) as (_ & ? & ?). eapply mark_ok_stage; try done; [|by rewrite Hf; right].
    revert E. unfold fb_rates. intros (rt & _ & E)%outcome_bind_done. apply outcome_bind_done in E as ([c0 t1] & _ & E).
    apply Done_inj in E. by injection E as <- _ _.
  - by apply mark_ok_advance.
  - unfold fb_scan in E. apply outcome_bind_done in E as (s2 & Es & E). apply Done_inj in E as <-.
    assert (ls_hi_contig s2 = ls_hi_contig (fb_scanner (ct_feedback (sy_ctl s))) ∧
            ls_total s2 = ls_total (fb_scanner (ct_feedback (sy_ctl s)))) as [? ?].
    { destruct sn; [by eapply scan_holes_hi|by apply Done_inj in Es as <-]. }
    eapply mark_ok_stage; try done. by rewrite Hf; left.
  - eapply mark_ok_stage; try done. by rewrite Hf; left.
  - by apply mark_ok_mark.
  - eapply mark_ok_stage; try done. by rewrite Hf; right.
  - unfold fb_request in E. apply outcome_bind_done in E as ([[due s3]|] & Ed & E); [|done].
    apply outcome_bind_done in E as ([buf nn] & _ & E). apply outcome_bind_done in E as (pdu' & _ & E).
    apply Done_inj in E. injection E as <- _ _. destruct (collect_loop_hi _ _ _ _ _ _ _ _ _ Ed) as [Hh3 Ht3].
    destruct (fb_sent_frame cfg send_ok n _ Hok) as (_ & ? & ?). eapply mark_ok_stage; try done.
    + unfold fb_sent. by destruct (_ && _).
    + by right.
    + by rewrite Hf.
  - by eapply mark_ok_finish.
  - eapply mark_ok_stage; try done. by left.
  - eapply mark_ok_stage; try done. by left.
  - eapply mark_ok_stage; try done. by left.
  - eapply mark_ok_stage; try done. by left.
  - eapply mark_ok_stage; try done. by left.
Qed.
End mark.

(** ** The end of a run *)

Section main.
Context `{!Crc32c, !AeadCrate} {K : Type} `{!BlockSink K}.
Context (cfg : RecvConfig) (net : list byte → Prop).
Implicit Types s : Sys K.

(** The joins of [run] have happened in their order, and a flusher that has returned was at the
    end of the file or told to stop. *)
Record main_ok s : Prop := {
  mo_feeding : match ct_main (sy_ctl s) with MWait | MAux => True | _ => ct_feeding (sy_ctl s) = FbGone end;
  mo_workers : match ct_main (sy_ctl s) with
               | MWait | MAux | MIngest => True
               | _ => Forall (λ w, w = WGone) (sy_workers s)
               end;
  mo_return r : ct_main (sy_ctl s) = MReturned r → (∃ front, sy_flusher s = FGone front) ∧ r = run_result cfg (sy_st s);
  mo_flusher front : sy_flusher s = FGone front → rg_total_blocks cfg ≤ front ∨ ct_stop (sy_ctl s) = true
}.

Lemma main_ok_worker s st' i w w' :
  main_ok s → sy_workers s !! i = Some w → w ≠ WGone →
  main_ok (mkSys st' (<[i := w']> (sy_workers s)) (sy_flusher s) (sy_ctl s)).
Proof.
  intros [Hf Hw Hr Hfl] Hi Hne.
  assert (Forall (λ w, w = WGone) (sy_workers s) → False) as Hno by (intros Hall; apply Hne; by eapply Forall_lookup_1 in Hall).
  split; cbn [sy_st sy_workers sy_flusher sy_ctl]; auto.
  - destruct (ct_main _); tauto.
  - intros r E. rewrite E in Hw. by destruct (Hno Hw).
Qed.

Lemma main_ok_flusher s st' f' :
  main_ok s → (∀ front, sy_flusher s ≠ FGone front) →
  (∀ front, f' = FGone front → rg_total_blocks cfg ≤ front ∨ ct_stop (sy_ctl s) = true) →
  main_ok (mkSys st' (sy_workers s) f' (sy_ctl s)).
Proof.
  intros [Hf Hw Hr Hfl] Hne Hnew. split; cbn [sy_st sy_workers sy_flusher sy_ctl]; auto.
  intros r E. destruct (Hr r E) as [[front Ef] _]. by destruct (Hne front).
Qed.

Lemma main_ok_feed s st' c' :
  main_ok s → ct_feeding (sy_ctl s) ≠ FbGone → ct_main c' = ct_main (sy_ctl s) → ct_stop c' = ct_stop (sy_ctl s) →
  main_ok (mkSys st' (sy_workers s) (sy_flusher s) c').
Proof.
  intros [Hf Hw Hr Hfl] Hne Em Es. split; cbn [sy_st sy_workers sy_flusher sy_ctl]; rewrite ?Em, ?Es; auto.
  - by destruct (ct_main (sy_ctl s)).
  - intros r E. by rewrite E in Hf.
Qed.

Lemma main_step s s' : main_ok s → step cfg net s s' → main_ok s'.
Proof.
  intros Hmo Hstep.
  destruct Hstep as [s i pkt addr now st' r Hi Hn Hne E|s i seq p st' b Hi E|s i seq st' Hi E|s i Hi|
    s front b st' staged Ef Hlt E|s front staged Ef|s front Ef|s front b Ef Hlt E|s front Ef|s front b Ef Hle|
    s Hf|s control t0 st' r target Hf E|s pa fb' Hf E|s pa hi view ms al sn fb' Hf Hv Hms Hal Hsn E|s pa hi al Hf Hal|
    s pa hi complete Hf|s pa hi complete Hf Hp|s pa hi complete view t1 t2 send_ok peer fb' n pdu Hf Hp Hv E|
    s complete st' fb' fin Hf E| s|s Hm Hd|s Hm Hg|s Hm Hg|s front Hm Ef].
  1-4: by eapply main_ok_worker.
  1-3: by (apply main_ok_flusher; [done|by intros front'; rewrite Ef|done]).
  1: by (apply main_ok_flusher; [done|by intros front'; rewrite Ef|destruct b]).
  1: destruct (ct_stop (sy_ctl s)) eqn:Es; (apply main_ok_flusher; [done|by intros front'; rewrite Ef|]); [by right|done].
  1: apply main_ok_flusher; [done|by intros front'; rewrite Ef|intros front' [= <-]; by left].
  1-9: by (apply main_ok_feed; [done|by rewrite Hf|done|done]).
  all: destruct Hmo as [Ha Hb Hc He]; rewrite ?Hm in *; split; cbn [sy_st sy_workers sy_flusher sy_ctl set_main set_stop ct_main
    ct_stop ct_feeding]; auto; try done.
  intros r [= <-]. split; [by exists front|done].
Qed.
End main.

(** ** The result of a run *)

(** A new receiver keeps the mark the statistics had. *)
Lemma new_receiver_mark {K} num_cpu c (sink : K) stats cfg st :
  new_receiver num_cpu c sink stats = Done (cfg, st) → rs_stats st hi_contig = stats hi_contig.
Proof.
  unfold new_receiver. intros (d & _ & E)%outcome_bind_done. apply outcome_bind_done in E as ([r s] & Ew & E).
  apply Done_inj in E. injection E as _ <-. simpl. revert Ew. unfold warm_receiver.
  destruct (rg_warm_start _) as [w|].
  - intros (rate' & _ & E)%outcome_bind_done. apply Done_inj in E. injection E as _ <-. by destruct (0 <? _).
  - intros E. apply Done_inj in E. by injection E as _ <-.
Qed.

Lemma run_invs `{!Crc32c, !Crc32cLaws, !AeadCrate, !AeadLaws} {K} `{!BlockSink K, !BlockSinkLaws K}
    cfg net content (Hcfg : sys_cfg_ok cfg net content) (s s' : Sys K) :
  sys_inv cfg content s → bits_inv cfg s → mark_ok cfg (sy_st s) (sy_ctl s) → main_ok cfg s → rtc (step cfg net) s s' →
  sys_inv cfg content s' ∧ bits_inv cfg s' ∧ mark_ok cfg (sy_st s') (sy_ctl s') ∧ main_ok cfg s'.
Proof.
  intros H1' H2' H3' H4' Hr. induction Hr as [|s1 s2 s3 Hs _ IH]; [done|].
  apply IH; [by eapply sys_inv_step|by eapply bits_step|by eapply mark_step|by eapply main_step].
Qed.

(** C3: what the result of a run says.  The threads and [run] interleave in any way, on any network
    that delivers, in any order and any number of times, datagrams carrying the content's blocks
    and anything the checks refuse; the mark in the statistics starts at 0.  A run that returns
    and was not stopped returns success, and the sink then holds exactly the content, checksum
    included.  A run that returns success although it was stopped has received every block, each
    of them in the sink or still staged with its bytes, and the sink holds the content if the
    flusher reached the last block ([stopped_run_unwritten] shows that it need not have). *)
Theorem run_ok_stored `{!Crc32c, !Crc32cLaws, !AeadCrate, !AeadLaws} {K} `{!BlockSink K, !BlockSinkLaws K}
    num_cpu c (sink : K) stats net content :
  recv_setup_ok c → sys_cfg_ok (recv_defaults num_cpu c) net content →
  sink_wf sink → length (sink_bytes sink) = length content → stats hi_contig = 0 →
  ∃ st, new_receiver num_cpu c sink stats = Done (recv_defaults num_cpu c, st) ∧
    ∀ s r, reachable (recv_defaults num_cpu c) net st s → ct_main (sy_ctl s) = MReturned r →
      (ct_stop (sy_ctl s) = false →
         r = Ok () ∧ sink_bytes (rs_sink (sy_st s)) = content ∧
         sink_read_crc32c (rs_sink (sy_st s)) = Ok (Some (crc32c_append 0 content))) ∧
      (r = Ok () →
         (∀ j, 0 ≤ j < rg_total_blocks c → bit (rs_bm (sy_st s)) j = true ∧
            (at_sink (recv_defaults num_cpu c) content (rs_sink (sy_st s)) j ∨
             rs_stage (sy_st s) !! j = Some (blk (recv_defaults num_cpu c) content j))) ∧
         (rs_flushed_blocks (sy_st s) = rg_total_blocks c → sink_bytes (rs_sink (sy_st s)) = content)).
Proof.
  intros Hs Hc Hwf Hl Hz. destruct (new_receiver_spec num_cpu c sink stats Hs) as (st & E & Hf). exists st. split; [done|].
  set (cfg := recv_defaults num_cpu c) in *. intros s r Hr Hm. assert (0 ≤ rg_total_blocks cfg < 2 ^ 63) as Htot by apply (rk_total _ Hs).
  destruct (run_invs cfg net content Hc (sys_init cfg st) s) as (Hinv & Hbits & Hmk & Hmo); [| | | |exact Hr|].
  { by apply (sys_inv_fresh _ _ _ Hc sink). } { apply (bits_inv_fresh cfg sink); [done|apply Htot]. }
  { split; cbn [sys_init sy_st sy_ctl ctl_init ct_feedback ct_feeding feedback_init fb_scanner fb_done_sends scanner_new ls_total
      ls_hi_contig pass_hi mark_stored]; try done; try lia.
    - rewrite (new_receiver_mark num_cpu c sink stats _ st E), Hz. lia.
    - by rewrite (rf_done _ _ _ Hf). }
  { by split. }
  destruct (mo_return _ _ Hmo r Hm) as [[front Ef] Hres].
  assert (rs_flushed_blocks (sy_st s) = rg_total_blocks c → sink_bytes (rs_sink (sy_st s)) = content) as Hfull
    by apply (sys_inv_complete _ _ _ Hc s Hinv).
  split; [intros Hst|intros Hok; split; [|exact Hfull]].
  - destruct (bv_main _ _ Hbits) as [Hd|]; [by rewrite Hm| |congruence].
    destruct (mk_done _ _ _ Hmk Hd) as [_ Hhi]. split.
    { rewrite Hres. unfold run_result. by rewrite Hhi, Z.eqb_refl. }
    assert (sink_bytes (rs_sink (sy_st s)) = content) as Hb by (apply Hfull, (bv_done _ _ Hbits); by left).
    split; [done|]. rewrite <-Hb. by apply sink_crc_ok, Hinv.
  - intros j Hj. rewrite Hres in Hok. unfold run_result in Hok.
    destruct (Z.eqb_spec (rs_stats (sy_st s) hi_contig) (rg_total_blocks cfg)) as [Ehi|]; [|done].
    assert (bit (rs_bm (sy_st s)) j = true) as Hb by (apply (mk_stats _ _ _ Hmk); by rewrite Ehi). split; [done|].
    pose proof (mo_workers _ _ Hmo) as Hw. rewrite Hm in Hw.
    assert (bit (rs_ready_bm (sy_st s)) j = true) as Hrdy.
    { destruct (iv_noloss _ _ _ Hinv j Hj Hb) as [?|Hin]; [done|]. unfold held in Hin.
      apply list_elem_of_omap in Hin as (w & Hin & Ew). rewrite Forall_forall in Hw. by rewrite (Hw w Hin) in Ew. }
    destruct (iv_stored _ _ _ Hinv j Hj (or_introl Hrdy)) as [?|[?|Hfw]]; [by right|by left|congruence].
Qed.

(** Sixteen bytes: the FIN of the transfer. *)
Definition demo_fin : list byte :=
  match encode_fin (replicate 16 x00) 77 3 with Done (b, n) => take n b | Panic => [] end.

Definition demo_run_net (pkt : list byte) : Prop := pkt ∈ demo_fin :: demo_pdus.

Lemma demo_run_net_ok : @sys_cfg_ok castagnoli toy_aead (recv_defaults 1 demo_recv) demo_run_net demo_content.
Proof.
  destruct demo_sys_ok as [H1' H2' H3' Hnet]. split; [done|done|done|]. intros pkt addr h p [->|Hin]%elem_of_cons; [|by apply Hnet].
  by destruct addr; vm_compute.
Qed.

Definition returned_ok {K} (s : Sys K) : bool :=
  match ct_main (sy_ctl s) with MReturned (Ok _) => true | _ => false end.

(** The blocks and the FIN arrive, the flusher writes them, eight done reports are sent, and the
    threads are joined. *)
Definition demo_whole : list action :=
  demo_arrivals ++ [ARecv 0 demo_fin demo_from 1003] ++ replicate 10 AFlush ++ replicate 64 (AFeed 100000) ++
  [AMain; ALeave 0; ALeave 1; AMain; AMain; AMain].

Lemma run_ok_stored_witness :
  ∃ st s, new_receiver 1 demo_recv demo_sink stats_default = Done (recv_defaults 1 demo_recv, st) ∧
    @reachable castagnoli toy_aead MemSink (@mem_sink castagnoli) (recv_defaults 1 demo_recv) demo_run_net st s ∧
    ct_main (sy_ctl s) = MReturned (Ok ()) ∧ mk_buf (rs_sink (sy_st s)) = demo_content.
Proof.
  destruct (@run_ok_stored castagnoli castagnoli_laws toy_aead toy_aead_laws MemSink (@mem_sink castagnoli)
              (@mem_sink_laws castagnoli) 1 demo_recv demo_sink stats_default demo_run_net demo_content demo_recv_ok
              demo_run_net_ok I eq_refl eq_refl) as (st & E & Hall).
  destruct (@schedule_reachable castagnoli toy_aead MemSink (@mem_sink castagnoli) 1 demo_recv demo_sink stats_default
              demo_whole demo_run_net _ st (λ s, returned_ok s && negb (ct_stop (sy_ctl s))) E) as (s & Hr & HQ).
  { unfold demo_run_net. repeat constructor. }
  { vm_compute. reflexivity. }
  apply andb_true_iff in HQ as [HQ Hst%negb_true_iff]. unfold returned_ok in HQ.
  destruct (ct_main (sy_ctl s)) as [| | | |[[]|]] eqn:Em; try done.
  destruct (Hall s (Ok ()) Hr Em) as [Hnostop _]. destruct (Hnostop Hst) as (_ & Hb & _).
  exact (ex_intro _ st (ex_intro _ s (conj E (conj Hr (conj Em Hb))))).
Defined.

(** The feedback thread passes its stop check and sleeps; the flusher finds block 0 missing, is
    told to stop and returns; the batch a worker was receiving brings the three blocks; the
    feedback thread wakes up, finds them all received and stores the mark; everybody is joined. *)
Definition demo_stopped : list action :=
  [AFeed 1000; AFlush; AStop; AFlush;
   ARecv 0 (demo_data 0 [x61; x62; x63]) demo_from 1001; AWork 0; AWork 0;
   ARecv 0 (demo_data 1 [x64; x65; x66]) demo_from 1002; AWork 0; AWork 0;
   ARecv 0 (demo_data 2 [x67]) demo_from 1003; AWork 0; AWork 0] ++
  replicate 8 (AFeed 2000) ++ [AMain; AMain; ALeave 0; ALeave 1; AMain; AMain].

(** C31: a stopped run may report success with blocks unwritten.  There is an interleaving in which
    the caller stops the transfer, the flusher returns at a frontier that is not ready yet, and
    the blocks that a worker was receiving then complete the contiguous mark: [run] returns
    success, every block is received and staged, and none of them is in the sink. *)
Theorem stopped_run_unwritten :
  ∃ st s, new_receiver 1 demo_recv demo_sink stats_default = Done (recv_defaults 1 demo_recv, st) ∧
    @reachable castagnoli toy_aead MemSink (@mem_sink castagnoli) (recv_defaults 1 demo_recv) demo_run_net st s ∧
    ct_main (sy_ctl s) = MReturned (Ok ()) ∧ rs_stats (sy_st s) hi_contig = 3 ∧
    rs_flushed_blocks (sy_st s) = 0 ∧ size (rs_stage (sy_st s)) = 3%nat ∧
    mk_buf (rs_sink (sy_st s)) = replicate 7 x00 ∧ mk_buf (rs_sink (sy_st s)) ≠ demo_content.
Proof.
  destruct (new_receiver_spec 1 demo_recv demo_sink stats_default demo_recv_ok) as (st & E & _).
  destruct (@schedule_reachable castagnoli toy_aead MemSink (@mem_sink castagnoli) 1 demo_recv demo_sink stats_default
              demo_stopped demo_run_net _ st
              (λ s, returned_ok s && ((rs_stats (sy_st s) hi_contig =? 3) && (rs_flushed_blocks (sy_st s) =? 0)) &&
                    (bool_decide (size (rs_stage (sy_st s)) = 3%nat) && bool_decide (mk_buf (rs_sink (sy_st s)) = replicate 7 x00))) E)
    as (s & Hr & HQ).
  { unfold demo_run_net. repeat constructor. }
  { vm_compute. reflexivity. }
  rewrite !andb_true_iff, !Z.eqb_eq, !bool_decide_eq_true in HQ. destruct HQ as ((HQ & Hhi & Hfl) & Hsz & Hb).
  unfold returned_ok in HQ. destruct (ct_main (sy_ctl s)) as [| | | |[[]|]] eqn:Em; try done.
  exists st, s. split_and!; try done. by rewrite Hb.
Qed.

(** ** The START datagrams *)

Lemma nudges_le n passes : ((nudges n passes).1 ≤ n)%nat.
Proof.
  revert passes. induction n as [|n IH]; intros [|[stop p] passes]; simpl; try lia.
  destruct (stop || _); simpl; [lia|]. specialize (IH passes). destruct (nudges n passes). simpl in *. lia.
Qed.

(** As long as nobody stops the run and nothing arrives, every pass sends. *)
Lemma nudges_silent n passes : (n ≤ length passes)%nat → Forall (λ '(stop, p), stop = false ∧ p = 0) passes →
  nudges n passes = (n, true).
Proof.
  revert passes. induction n as [|n IH]; intros [|[stop p] passes] Hl Hf; simpl in *; try done; [lia|].
  apply Forall_cons in Hf as [[-> ->] Hf]. simpl. rewrite (IH passes); [done|lia|done].
Qed.

(** What [wait_for_peer] waits through: timeouts, datagrams of other hosts, and those that are
    not a START of the session. *)
Definition ignorable (session : Z) (expected : option IpAddr) (ev : wait_event) : Prop :=
  match ev with
  | WaitStop | WaitDeadline => False
  | WaitRecv (Err e) => is_timeout e = true
  | WaitRecv (Ok (buf, addr)) => foreign_ip expected addr = true ∨ decode_start buf ≠ Done (Some session)
  end.

Lemma wait_for_peer_ignores session expected pre rest : Forall (ignorable session expected) pre →
  wait_for_peer session expected (pre ++ rest) = wait_for_peer session expected rest.
Proof.
  induction 1 as [|ev pre Hev _ IH]; [done|]. destruct ev as [| |[[buf a]|e]]; simpl in *; try done.
  - destruct (foreign_ip expected a); [done|]. destruct Hev as [|Hne]; [done|].
    destruct (decode_start_total buf) as [s E]. rewrite E in *. cbn [mbind outcome_bind].
    case_bool_decide; [by subst|done].
  - by rewrite Hev.
Qed.

(** Result: a pull gets going.  The receiver of a pull sends its START, the same eight bytes each time, to
    the sender's address between 5 and 30 times: all 30 when in the 25 naps of the nudging
    thread nothing arrives and nobody stops it.  Whichever of them is the first to reach the
    waiting sender from the expected host, after any timeouts, foreign datagrams and
    datagrams that are no START of the session, makes [wait_for_peer] return its address. *)
Theorem start_bootstraps cfg peer passes :
  rg_start_peer cfg = Some peer → is_u32 (rg_session cfg) →
  ∃ b n, start_phase cfg passes = Done (Some (peer, replicate n b)) ∧ length b = 8%nat ∧ (5 ≤ n ≤ 30)%nat ∧
    ((25 ≤ length passes)%nat → Forall (λ '(stop, p), stop = false ∧ p = 0) passes → n = 30%nat) ∧
    ∀ expected addr pre post, foreign_ip expected addr = false → Forall (ignorable (rg_session cfg) expected) pre →
      wait_for_peer (rg_session cfg) expected (pre ++ WaitRecv (Ok (b, addr)) :: post) = Done (Some (Ok addr)).
Proof.
  intros Hp Hs. unfold start_phase, start_datagram. rewrite Hp.
  destruct (encode_start_done (rg_session cfg) (replicate 8 x00)) as (b & -> & Hl & _ & Hd); [done|done|].
  cbn [mbind outcome_bind]. unfold buf_slice. rewrite Hl. cbn [Nat.leb Nat.ltb andb]. cbn [mbind outcome_bind].
  eexists b, _. split; [by rewrite take_ge by (rewrite ?length_drop, ?drop_0; lia)|].
  pose proof (nudges_le 25 passes). split_and!; [done|lia|lia| |].
  - intros H25 Hf. by rewrite nudges_silent.
  - intros expected addr pre post Hf Hpre. rewrite wait_for_peer_ignores by done. simpl. rewrite Hf, Hd. cbn [mbind outcome_bind].
    by rewrite bool_decide_true.
Qed.

(** ** The cadence of the feedback thread *)

Lemma ticker_next_spec interval next a : 0 < interval →
  a < ticker_next interval next a ∧ next + interval ≤ ticker_next interval next a ≤ Z.max next a + interval ∧
  (a < next + interval → ticker_next interval next a = next + interval).
Proof. intros Hi. unfold ticker_next. destruct (Z.leb_spec (next + interval) a); lia. Qed.

(** Result: the feedback thread keeps its cadence.  Whatever times the iterations start at, the deadline
    set by an iteration lies after its start and at least an interval after the deadline before,
    so missed ticks are dropped and never bunched; it is never more than an interval after the
    later of the two; and as long as no iteration starts an interval late, the k-th deadline is exactly k intervals
    after the first, with no drift from the work of the iterations. *)
Theorem ticker_cadence interval next afters :
  0 < interval →
  length (ticker_run interval next afters) = S (length afters) ∧
  (∀ k a, afters !! k = Some a → ∃ d d', ticker_run interval next afters !! k = Some d ∧
     ticker_run interval next afters !! S k = Some d' ∧ a < d' ∧ d + interval ≤ d' ≤ Z.max d a + interval) ∧
  ∀ k, (k ≤ length afters)%nat → (∀ (i : nat) a, (i < k)%nat → afters !! i = Some a → a < next + (i + 1) * interval) →
    ticker_run interval next afters !! k = Some (next + k * interval).
Proof.
  intros Hi. revert next. induction afters as [|b afters IH]; intros next.
  { split; [done|]. split; [by intros []|]. intros k Hk _. destruct k; simpl in *; [f_equal; lia|lia]. }
  destruct (ticker_next_spec interval next b Hi) as (H1 & H2 & H3).
  destruct (IH (ticker_next interval next b)) as (IHl & IHd & IHk). cbn [ticker_run length]. split; [by rewrite IHl|]. split.
  - intros [|k] a E; simpl in E; [|by apply IHd]. injection E as ->. exists next, (ticker_next interval next a).
    split_and!; try done; try lia. by destruct afters.
  - intros [|k] Hk Hb; [simpl; f_equal; lia|]. cbn. rewrite IHk.
    + rewrite H3; [f_equal; lia|]. specialize (Hb 0%nat b ltac:(lia) eq_refl). lia.
    + lia.
    + intros i a Hik Ha. rewrite H3; [|specialize (Hb 0%nat b ltac:(lia) eq_refl); lia].
      specialize (Hb (S i) a ltac:(lia) Ha). lia.
Qed.

Lemma ticker_cadence_witness : ticker_run 20 100 [99; 121; 190] = [100; 120; 140; 210] ∧
  length (ticker_run 20 100 [99; 121; 190]) = 4%nat.
Proof. split; [reflexivity|]. apply (ticker_cadence 20 100 [99; 121; 190]). lia. Defined.

Definition demo_start_peer : SocketAddr := mkSocketAddr (V4 2130706433) 5001 0 0.

Lemma start_bootstraps_witness :
  let cfg := mkRecvConfig 7 3 3 77 None 2 fixed_cfg None 0 0 0 None (Some demo_start_peer) in
  ∃ b, start_phase cfg (replicate 25 (false, 0)) = Done (Some (demo_start_peer, replicate 30 b)).
Proof.
  intros cfg. destruct (start_bootstraps cfg demo_start_peer (replicate 25 (false, 0)) eq_refl ltac:(done))
    as (b & n & E & _ & _ & Hn & _).
  exists b. rewrite E, Hn; [done|done|]. by apply Forall_replicate.
Defined.

(** ** Writeback stays in the file *)

Lemma writeback_turn_spec {K} cfg prefix (st : RecvState K) :
  0 ≤ prefix → rg_file_size cfg < 2 ^ 63 →
  prefix ≤ (writeback_turn cfg prefix st).2 ∧
  match (writeback_turn cfg prefix st).1 with
  | Some (off, len) => off = prefix ∧ 0 < len ∧ off + len ≤ rg_file_size cfg
  | None => True
  end.
Proof.
  intros Hp Hf. unfold writeback_turn. cbn [fst snd]. set (hi := if rg_file_size cfg <? _ then _ else _).
  assert (hi ≤ rg_file_size cfg) as Hhi.
  { unfold hi. match goal with |- context [rg_file_size cfg <? ?h] => destruct (Z.ltb_spec (rg_file_size cfg) h) end; lia. }
  split; [match goal with |- context [prefix <? ?c] => destruct (Z.ltb_spec prefix c) end; lia|].
  destruct (Z.ltb_spec prefix hi); [|done]. unfold i64_wrap, wrap. rewrite (Z.mod_small (hi - prefix)) by lia.
  unfold u64_as_i64, wrap. rewrite Z.mod_small; lia.
Qed.

(** Result: the writeback thread only asks for what is in the file.  Whatever its turns find, every
    range handed to [sync_range] is not empty and lies between 0 and the file's size, wrapping
    of the 64-bit products included, and the ranges never move back. *)
Theorem writeback_in_file {K} cfg prefix (turns : list (bool * RecvState K)) :
  0 ≤ prefix → rg_file_size cfg < 2 ^ 63 →
  Forall (λ '(off, len), prefix ≤ off ∧ 0 < len ∧ off + len ≤ rg_file_size cfg) (writeback_loop cfg prefix turns) ∧
  StronglySorted Z.le (writeback_loop cfg prefix turns).*1.
Proof.
  intros Hp Hf. revert prefix Hp. induction turns as [|[stop st] turns IH]; intros prefix Hp; cbn [writeback_loop]; [by split; constructor|].
  destruct (stop || rs_done st); [by split; constructor|].
  pose proof (writeback_turn_spec cfg prefix st Hp Hf) as [Hle Hr]. destruct (writeback_turn cfg prefix st) as [range prefix'].
  cbn [fst snd] in Hle, Hr. destruct (IH prefix' ltac:(lia)) as [IHf IHs].
  assert (Forall (λ '(off, len), prefix ≤ off ∧ 0 < len ∧ off + len ≤ rg_file_size cfg) (writeback_loop cfg prefix' turns)) as Hf'.
  { eapply Forall_impl; [exact IHf|]. intros [off len]. lia. }
  destruct range as [[off len]|]; [|by split]. destruct Hr as (-> & Hlen & Hend). split; [constructor; [lia|done]|].
  constructor; [done|]. apply Forall_fmap. eapply Forall_impl; [exact Hf'|]. intros [off' len']. simpl. lia.
Qed.

Lemma writeback_in_file_witness :
  let st := mkRecvState mem_sink_new (bitmap_new 3) (bitmap_new 3) 2 true false 0 false None
              (mkRttState rtt_new rtt_new (rate_new fixed_cfg)) ∅ 2 false (stats_store hi_contig 2 stats_default) in
  writeback_loop demo_end 0 [(false, st); (false, st); (true, st)] = [(0, 7); (6, 1)] ∧
  StronglySorted Z.le (writeback_loop demo_end 0 [(false, st); (false, st); (true, st)]).*1.
Proof. intros st. split; [vm_compute; reflexivity|]. apply writeback_in_file; vm_compute; done. Defined.
