(* ===== verification/Systems.v ===== *)
(** * Sender and receiver as concurrent systems (src/sender.rs with src/receiver.rs)

    The step relations of [SenderSys] and [ReceiverSys] side by side: the receiver's network
    delivers what some reachable state of the sender has put on the wire, and anything the
    receiver's checks refuse. *)

From S2P Require Import Prelude Float64 Errors Net Protocol Rate PQueue LossTracker Stats Runtime BlockIO Crypto.
From S2P Require Import Sender SenderSys Receiver ReceiverSys EndToEnd.

(** A network that carries more reaches more. *)
Lemma reachable_mono `{!Crc32c, !AeadCrate} {K} `{!BlockSink K} cfg (net1 net2 : list byte → Prop) (st : RecvState K) s :
  (∀ pkt, net1 pkt → net2 pkt) → ReceiverSys.reachable cfg net1 st s → ReceiverSys.reachable cfg net2 st s.
Proof.
  intros Hnet. unfold ReceiverSys.reachable. apply rtc_subrel. intros x y Hstep.
  destruct Hstep; by econstructor; eauto.
Qed.

Section systems.
Context {Src : Type} `{!BlockSource Src, !BlockSourceLaws Src}.
Context `{!Crc32c, !Crc32cLaws, !AeadCrate, !AeadLaws}.
Context (scfg : SendCfg Src) (st0 : SendState) (now : Z).

(** What the sender's threads may have sent, and what the receiver refuses. *)
Definition sender_network (rcfg : RecvConfig) (pkt : list byte) : Prop :=
  (∃ s, SenderSys.reachable scfg st0 now s ∧ pkt ∈ ss_wire s) ∨
  ∀ addr h p, open_packet rcfg pkt addr ≠ Done (Block h p).

Lemma sender_network_authentic rcfg pkt :
  send_cfg_ok scfg → 0 ≤ sc_configured_target_bps scfg → rex_ok (st_rex st0) → 0 ≤ st_target_bps st0 →
  sender_network rcfg pkt → network scfg rcfg pkt.
Proof.
  intros Hok Hc Hr Ht [(s & R & Hin)|Hno]; [left|by right].
  pose proof (sv_wire _ _ (reachable_inv scfg Hok Hc st0 now s Hr Ht R)) as Hw.
  by apply (proj1 (Forall_forall _ _) Hw pkt Hin).
Qed.
End systems.

(** ** Properties *)

(** C1: two concurrent ends.  Let the sender's threads and the receiver's threads run in any
    interleaving on a network that delivers, in any order and any number of times, datagrams the
    sender has sent and any others the receiver's checks refuse.  When the receiver reports the
    transfer done, its sink holds exactly the source, and the checksums of the two ends agree. *)
Theorem systems_integrity {Src} `{!BlockSource Src, !BlockSourceLaws Src}
    `{!Crc32c, !Crc32cLaws, !AeadCrate, !AeadLaws} {K} `{!BlockSink K, !BlockSinkLaws K}
    (scfg : SendCfg Src) st0 now num_cpu c (sink0 : K) stats :
  send_cfg_ok scfg → 0 ≤ sc_configured_target_bps scfg → rex_ok (st_rex st0) → 0 ≤ st_target_bps st0 →
  recv_setup_ok c → matching scfg (recv_defaults num_cpu c) →
  ∃ sink st, sink_allocate sink0 (sc_file_size scfg) = (sink, Ok ()) ∧
    new_receiver num_cpu c sink stats = Done (recv_defaults num_cpu c, st) ∧
    ∀ r, ReceiverSys.reachable (recv_defaults num_cpu c) (sender_network scfg st0 now (recv_defaults num_cpu c)) st r →
      rs_done (sy_st r) = true →
      sink_bytes (rs_sink (sy_st r)) = src_content (sc_source scfg) ∧
      ∃ crc, source_crc32c (sc_source scfg) = Ok crc ∧ sink_read_crc32c (rs_sink (sy_st r)) = Ok (Some crc).
Proof.
  intros Hok Hc Hr Ht Hs Hm. destruct (integrity_run scfg num_cpu c sink0 stats Hok Hs Hm) as (sink & st & Ea & En & Hall).
  exists sink, st. split; [done|]. split; [done|]. intros r Hreach. apply Hall.
  eapply reachable_mono; [|exact Hreach]. intros pkt. by apply sender_network_authentic.
Qed.

(** Result: a transfer can always complete.  There is a run of the sender's threads, and a list of
    datagrams taken from its wire, such that a receiver set up for the transfer that handles
    them from the peer and then flushes has stored the whole source. *)
Theorem systems_complete {Src} `{!BlockSource Src, !BlockSourceLaws Src}
    `{!Crc32c, !Crc32cLaws, !AeadCrate, !AeadLaws} {K} `{!BlockSink K, !BlockSinkLaws K}
    (scfg : SendCfg Src) st0 now num_cpu c (sink0 : K) stats a :
  send_cfg_ok scfg → 0 ≤ sc_configured_target_bps scfg → rex_ok (st_rex st0) → 0 ≤ st_target_bps st0 →
  st_done st0 = false → rq_heap (st_rex st0) = [] →
  recv_setup_ok c → matching scfg (recv_defaults num_cpu c) → foreign_ip (rg_expected_peer_ip c) a = false →
  ∃ s pkts sink st st1 st2, SenderSys.reachable scfg st0 now s ∧ Forall (λ pt : list byte * Z, pt.1 ∈ ss_wire s) pkts ∧
    sink_allocate sink0 (sc_file_size scfg) = (sink, Ok ()) ∧
    new_receiver num_cpu c sink stats = Done (recv_defaults num_cpu c, st) ∧
    ingest_all (recv_defaults num_cpu c) pkts (Some a) st = Done st1 ∧
    flush_pass (Z.to_nat (rg_total_blocks c)) (recv_defaults num_cpu c) 0 st1 = Done (st2, rg_total_blocks c) ∧
    sink_bytes (rs_sink st2) = src_content (sc_source scfg).
Proof.
  intros Hok Hc Hr Ht Hd Hh Hs Hm Hf. destruct (covers_run scfg Hok Hc st0 now Hr Ht Hd Hh) as (s & R & _ & Hall).
  assert (∃ pkts : list (list byte * Z), Forall (λ pt, pt.1 ∈ ss_wire s ∧ ∃ seq, block_pdu scfg pt.1 seq) pkts ∧
    ∀ seq, 0 ≤ seq < sc_total_blocks scfg → ∃ pkt t, (pkt, t) ∈ pkts ∧ block_pdu scfg pkt seq) as (pkts & Hp & Hcov).
  { assert (∀ n : nat, n ≤ sc_total_blocks scfg → ∃ pkts : list (list byte * Z),
      Forall (λ pt, pt.1 ∈ ss_wire s ∧ ∃ seq, block_pdu scfg pt.1 seq) pkts ∧
      ∀ seq, 0 ≤ seq < n → ∃ pkt t, (pkt, t) ∈ pkts ∧ block_pdu scfg pkt seq) as Hn.
    { induction n as [|n IH]; intros Hn; [exists []; split; [done|lia]|]. destruct IH as (pkts & Hp & Hcov); [lia|].
      destruct (Hall n) as (pkt & Hin & Hcar); [lia|]. exists ((pkt, 0) :: pkts). split.
      - constructor; [|done]. split; [done|]. exists n. split; [lia|done].
      - intros seq Hseq. destruct (decide (seq = n)) as [->|]; [exists pkt, 0; split; [by left|split; [lia|done]]|].
        destruct (Hcov seq) as (p & t & Hin' & Hb); [lia|]. exists p, t. split; [by right|done]. }
    destruct (Hn (Z.to_nat (sc_total_blocks scfg))) as (pkts & Hp & Hcov).
    - pose proof (total_blocks_small scfg Hok). lia.
    - exists pkts. split; [done|]. intros seq Hseq. apply Hcov. lia. }
  destruct (delivery_run scfg num_cpu c sink0 stats a pkts Hok Hs Hm Hf) as (sink & st & st1 & st2 & E1 & E2 & E3 & E4 & _ & E5).
  - eapply Forall_impl; [exact Hp|]. by intros [pkt t] [_ ?].
  - done.
  - exists s, pkts, sink, st, st1, st2. split_and!; try done. eapply Forall_impl; [exact Hp|]. by intros [pkt t] [? _].
Qed.

(** The demonstration file, its sender at start and its receiver. *)
Abbreviation demo_start := (sender_init fixed_cfg None 7 3 3 stats_default).

Lemma systems_integrity_witness :
  ∃ sink st, mem_allocate mem_sink_new 7 = (sink, Ok ()) ∧
    new_receiver 1 demo_end sink stats_default = Done (recv_defaults 1 demo_end, st).
Proof.
  destruct (@systems_integrity MemSource _ _ castagnoli castagnoli_laws toy_aead toy_aead_laws MemSink
              (@mem_sink castagnoli) (@mem_sink_laws castagnoli) demo_send demo_start 1000 1 demo_end mem_sink_new
              stats_default demo_send_ok) as (sink & st & E & E1 & _);
    [done|exact rex_default_ok|vm_compute; done|exact demo_end_ok|exact demo_matching|].
  exact (ex_intro _ sink (ex_intro _ st (conj E E1))).
Defined.

Lemma systems_complete_witness :
  ∃ s pkts st2, @SenderSys.reachable _ _ castagnoli toy_aead demo_send demo_start 1000 s ∧
    Forall (λ pt : list byte * Z, pt.1 ∈ ss_wire s) pkts ∧ mk_buf (rs_sink st2) = demo_content.
Proof.
  destruct (@systems_complete MemSource _ _ castagnoli castagnoli_laws toy_aead toy_aead_laws MemSink
              (@mem_sink castagnoli) (@mem_sink_laws castagnoli) demo_send demo_start 1000 1 demo_end mem_sink_new
              stats_default demo_peer demo_send_ok) as (s & pkts & sink & st & st1 & st2 & R & Hp & _ & _ & _ & _ & E);
    [done|exact rex_default_ok|vm_compute; done|done|done|exact demo_end_ok|exact demo_matching|done|].
  exact (ex_intro _ s (ex_intro _ pkts (ex_intro _ st2 (conj R (conj Hp E))))).
Defined.
