(* ===== verification/Repair.v ===== *)
(** * Repair over a lossy network (src/receiver.rs, src/sender.rs)

    The two ends after the first pass over the file, in rounds: an iteration of the receiver's
    feedback thread, its FEEDBACK on the way to the sender, the sender's pacing loop until the
    requested blocks are resent, and the delivery of some of them.  The network may lose the
    FEEDBACK, and drop, repeat and reorder the retransmissions.  Every round in which both
    directions deliver something shortens the list of missing blocks, so the transfer ends. *)

From S2P Require Import Prelude Float64 Errors Net Protocol Rate PQueue LossTracker Stats Runtime BlockIO Crypto.
From S2P Require Import Sender SenderSys Receiver ReceiverSys EndToEnd.

(** ** What handling a packet leaves alone *)

Section frame.
Context `{!Crc32c, !AeadCrate, !AeadLaws} {K : Type} `{!BlockSink K}.
Context (cfg : RecvConfig).
Implicit Types st : RecvState K.

(** FIN stays seen, a known peer stays known and a new one is the source of the packet, the
    controller is untouched. *)
Definition keeps (addr : option SocketAddr) st st' : Prop :=
  (rs_all_sent st = true → rs_all_sent st' = true) ∧
  (∀ a, rs_peer st = Some a → rs_peer st' = Some a) ∧ (rs_peer st' = rs_peer st ∨ rs_peer st' = addr) ∧
  rt_rate (rs_rtt st') = rt_rate (rs_rtt st) ∧ (0 ≤ rs_max_seen st → 0 ≤ rs_max_seen st').

Lemma keeps_same addr st st' :
  rs_all_sent st' = rs_all_sent st → rs_peer st' = rs_peer st → rt_rate (rs_rtt st') = rt_rate (rs_rtt st) →
  (0 ≤ rs_max_seen st → 0 ≤ rs_max_seen st') → keeps addr st st'.
Proof. unfold keeps. intros -> -> -> ?. auto. Qed.
Lemma keeps_refl addr st : keeps addr st st.
Proof. by apply keeps_same. Qed.
Lemma keeps_trans addr st1 st2 st3 : keeps addr st1 st2 → keeps addr st2 st3 → keeps addr st1 st3.
Proof.
  intros (?&?&Hp1&E1&?) (?&?&Hp2&E2&?). split_and!; [auto|auto| |congruence|auto].
  destruct Hp2 as [->| ->]; [done|by right].
Qed.

Lemma learn_peer_keeps addr st : keeps addr st (learn_peer cfg addr st).1.
Proof.
  unfold learn_peer. destruct addr as [a|]; [|apply keeps_refl]. destruct (foreign_ip _ a); [apply keeps_refl|].
  destruct (rs_peer st) eqn:Ep; simpl; [apply keeps_refl|]. split_and!; [done|by rewrite Ep|by right|done|done].
Qed.

Lemma apply_tick_keeps addr h now st st' : apply_tick h now st = Done st' → keeps addr st st'.
Proof.
  unfold apply_tick. destruct (negb _); [intros [= <-]; apply keeps_refl|]. destruct (negb _);
    intros ([e r] & _ & E)%outcome_bind_done; apply Done_inj in E as <-; by apply keeps_same.
Qed.

Lemma accept_packet_keeps pkt addr now st st' r :
  accept_packet cfg pkt addr now st = Done (st', r) → keeps addr st st'.
Proof.
  unfold accept_packet. destruct (open_packet_spec cfg pkt addr) as (v & -> & Hv). cbn [mbind outcome_bind].
  pose proof (learn_peer_keeps addr st) as Hl. destruct v as [| | |h payload].
  - intros [= <- _]. apply keeps_refl.
  - intros [= <- _]. by apply keeps_same.
  - destruct (learn_peer cfg addr st) as [st1 []]; intros [= <- _]; [|done].
    eapply keeps_trans; [exact Hl|]. split_and!; [done|done|by left|done|done].
  - destruct (learn_peer cfg addr st) as [st1 []]; cbn [negb fst] in *; [|intros [= <- _]; done].
    destruct Hv as (_ & Hseq & _). intros (st2 & Et & E)%outcome_bind_done.
    assert (keeps addr st st2) as Hk2.
    { eapply keeps_trans; [exact Hl|]. destruct (negb _); [by eapply apply_tick_keeps|injection Et as <-; apply keeps_refl]. }
    apply outcome_bind_done in E as ([bm first] & _ & E). eapply keeps_trans; [exact Hk2|].
    destruct first; injection E as <- _; (apply keeps_same; [done..|]); simpl; lia.
Qed.

Lemma ingest_keeps pkt addr now st st' : ingest cfg pkt addr now st = Done st' → keeps addr st st'.
Proof.
  unfold ingest. destruct pkt as [|b pkt]; [intros [= <-]; apply keeps_refl|]. unfold handle_packet.
  intros ([st1 blk] & Ha%accept_packet_keeps & E)%outcome_bind_done.
  eapply keeps_trans; [|eapply keeps_trans; [exact Ha|]]; [by apply keeps_same|].
  destruct blk as [[seq p]|]; [|injection E as <-; apply keeps_refl].
  assert (keeps addr st1 (place cfg seq p st1).1) as Hp.
  { unfold place. destruct (rs_free st1); [|by apply keeps_same]. by destruct (sink_write_all_at _ _ _) as [k [|]]; apply keeps_same. }
  destruct (place cfg seq p st1) as [st2 []]; cbn [fst] in Hp; [|by injection E as <-].
  eapply keeps_trans; [exact Hp|]. unfold publish in E. apply outcome_bind_done in E as ([bm ?] & _ & E).
  injection E as <-. by apply keeps_same.
Qed.

Lemma ingest_all_keeps pkts addr : ∀ st st', ingest_all cfg pkts addr st = Done st' → keeps addr st st'.
Proof.
  induction pkts as [|[pkt now] pkts IH]; intros st st'; cbn [ingest_all]; [intros [= <-]; apply keeps_refl|].
  intros (st1 & E1%ingest_keeps & E2)%outcome_bind_done. eapply keeps_trans; [exact E1|by apply IH].
Qed.

(** The feedback thread does not mind packets in between. *)
Lemma feedback_ok_grow addr st st' fb :
  feedback_ok cfg st fb → recv_ok cfg st' → keeps addr st st' →
  (∀ j, 0 ≤ j → bit (rs_bm st) j = true → bit (rs_bm st') j = true) → feedback_ok cfg st' fb.
Proof.
  intros [Hro ? Hscan ?????] Hro' (_ & _ & _ & Hr & Hs) Hmono. split; try done; [by rewrite Hr| |by apply Hs].
  eapply scanner_ok_grow; [exact Hscan|apply Hro'| |exact Hmono]. by rewrite (ro_total _ _ Hro'), (ro_total _ _ Hro).
Qed.
End frame.

(** The pacing loop leaves the target alone, and with no new block queued it takes none. *)
Section pacing_frame.
Context {Src : Type} `{!BlockSource Src, !Crc32c, !AeadCrate} (cfg : SendCfg Src).

Lemma attach_tick_target st buf now st' buf' :
  attach_tick st buf now = Done (st', buf') → st_target_bps st' = st_target_bps st.
Proof.
  unfold attach_tick. destruct (negb _); [by intros [= <- _]|]. intros (b1 & _ & E)%outcome_bind_done.
  destruct (if ts_is_net _ then _ else _) as [flags echo]. apply outcome_bind_done in E as (? & _ & E).
  apply outcome_bind_done in E as (? & _ & E). by injection E as <- _.
Qed.

Definition batch_keeps st q b st' q' b' : Prop :=
  st_target_bps st' = st_target_bps st ∧
  (ry_items q = [] → ry_items q' = [] ∧ bt_new_bufs b' = bt_new_bufs b).

Lemma batch_step_keeps scratch to_send now st q nd b st' q' nd' b' :
  batch_step cfg scratch to_send now st q nd b = Done (Some (st', q', nd', b')) → batch_keeps st q b st' q' b'.
Proof.
  unfold batch_step, batch_keeps. destruct (_ <=? _); [done|]. destruct (pop_retransmit st) as [[seq|] st1] eqn:Ep.
  - assert (st_target_bps st1 = st_target_bps st) as <-.
    { revert Ep. unfold pop_retransmit. destruct (pq_pop _) as [[??]|]; [|done]. by intros [= _ <-]. }
    intros ([[buf n]|] & _ & E)%outcome_bind_done; [|by injection E as <- <- _ <-].
    apply outcome_bind_done in E as ([st2 buf2] & <-%attach_tick_target & E).
    apply outcome_bind_done in E as (m & _ & E). by injection E as <- <- _ <-.
  - apply pop_retransmit_none in Ep as [-> _]. destruct nd; [done|]. destruct (ry_items q) as [|[buf n] items] eqn:Ei.
    { destruct (ry_closed q); by intros [= <- <- _ <-]. }
    intros ([st2 buf2] & <-%attach_tick_target & E)%outcome_bind_done.
    apply outcome_bind_done in E as (m & _ & E). by injection E as <- <- _ <-.
Qed.

Lemma batch_loop_keeps fuel scratch to_send now : ∀ st q nd b st' q' nd' b',
  batch_loop fuel cfg scratch to_send now st q nd b = Done (Some (st', q', nd', b')) → batch_keeps st q b st' q' b'.
Proof.
  induction fuel as [|fuel IH]; intros st q nd b st' q' nd' b'; cbn [batch_loop];
    intros ([[[[st1 q1] nd1] b1]|] & E1 & E)%outcome_bind_done; try (by injection E as <- <- _ <-); [done|].
  apply IH in E as [Ht2 Hk2]. apply batch_step_keeps in E1 as [Ht1 Hk1]. split; [congruence|].
  intros Hq. destruct (Hk1 Hq) as [Hq1 <-]. by apply Hk2.
Qed.

Lemma pacing_iter_keeps scratch stop control t0 t1 st q p st' q' p' freed msgs fin sl :
  pacing_iter cfg scratch stop control t0 t1 st q p = Done (Some (PaceSent st' q' p' freed msgs fin sl)) →
  st_target_bps st' = st_target_bps st ∧ (ry_items q = [] → ry_items q' = [] ∧ freed = []).
Proof.
  unfold pacing_iter. destruct (st_done st); [done|]. destruct (should_stop _ _); [done|]. destruct (is_paused _); [done|].
  cbv zeta. intros ([[[[st1 q1] nd1] b1]|] & E1 & E)%outcome_bind_done; [|done].
  apply batch_loop_keeps in E1. apply outcome_bind_done in E as (f & _ & E). destruct (next_deadline _ _).
  by injection E as <- <- _ <- _ _ _.
Qed.
End pacing_frame.

(** ** Rounds *)

Section rounds.
Context {Src : Type} `{!BlockSource Src, !BlockSourceLaws Src}.
Context `{!Crc32c, !Crc32cLaws, !AeadCrate, !AeadLaws} {K : Type} `{!BlockSink K, !BlockSinkLaws K}.
Context (scfg : SendCfg Src) (cfg : RecvConfig) (a : SocketAddr) (scratch : list byte).

(** The two ends: the receiver with its feedback thread, the sender with its pacing loop. *)
Record Ends := mkEnds {
  en_recv : RecvState K;
  en_fb : FeedbackState;
  en_send : SendState;
  en_q : ReadyQueue;
  en_pacer : Pacer
}.

(** The pacing loop for [n] iterations: the datagrams it puts on the wire, the repeated FIN
    apart.  [None] is an iteration that did not send. *)
Fixpoint resend (n : nat) (clk : nat → Z) (st : SendState) (q : ReadyQueue) (p : Pacer)
    : outcome (option (SendState * ReadyQueue * Pacer * list (list byte))) :=
  match n with
  | O => Done (Some (st, q, p, []))
  | S n' =>
      r ← pacing_iter scfg scratch false None (clk n) (clk n) st q p;
      match r with
      | Some (PaceSent st q p _ msgs _ _) =>
          r ← resend n' clk st q p;
          Done (match r with Some (st, q, p, rest) => Some (st, q, p, msgs ++ rest) | None => None end)
      | _ => Done None
      end
  end.

(** What the clocks and the network do in a round: the times of the feedback iteration, when
    the FEEDBACK arrives (if it does), the sender's clock, and which of the retransmissions
    arrive, in which order and when. *)
Record Choice := mkChoice {
  ch_t0 : Z;
  ch_t1 : Z;
  ch_t2 : Z;
  ch_arrives : option Z;
  ch_clk : nat → Z;
  ch_deliver : list (nat * Z)
}.

Definition delivered (msgs : list (list byte)) (picks : list (nat * Z)) : list (list byte * Z) :=
  omap (λ '(i, now), (λ m, (m, now)) <$> msgs !! (i mod length msgs)%nat) picks.

Definition round (c : Choice) (e : Ends) : outcome (option Ends) :=
  r ← feedback_iter cfg None (ch_t0 c) (ch_t1 c) (ch_t2 c) true (en_recv e) (en_fb e);
  match r with
  | Some (FbSent recv fb _ pdu) =>
      send ← match ch_arrives c with
             | Some t => feedback_step scfg None pdu (sc_peer scfg) t (en_send e)
             | None => Done (en_send e)
             end;
      r ← resend (rex_len send) (ch_clk c) send (en_q e) (en_pacer e);
      match r with
      | Some (send, q, p, msgs) =>
          recv ← ingest_all cfg (delivered msgs (ch_deliver c)) (Some a) recv;
          Done (Some (mkEnds recv fb send q p))
      | None => Done None
      end
  | _ => Done None
  end.

Fixpoint rounds (cs : list Choice) (e : Ends) : outcome (option Ends) :=
  match cs with
  | [] => Done (Some e)
  | c :: cs =>
      r ← round c e;
      match r with Some e => rounds cs e | None => Done None end
  end.

(** A round in which the FEEDBACK arrives and so does something the sender resends. *)
Definition fruitful (c : Choice) : bool :=
  match ch_arrives c, ch_deliver c with Some _, _ :: _ => true | _, _ => false end.

(** The blocks still missing. *)
Definition missing (st : RecvState K) : list Z :=
  filter (λ j, bit (rs_bm st) j = false) (seqZ 0 (rg_total_blocks cfg)).

(** Rounds an RTO apart. *)
Fixpoint spaced (t : Z) (cs : list Choice) : Prop :=
  match cs with
  | [] => True
  | c :: cs => t ≤ ch_t0 c < 2 ^ 52 ∧ is_u64 (ch_t2 c) ∧ spaced (ch_t0 c + RTO_BOUND) cs
  end.

(** ** One round *)

Context (Hm : matching scfg cfg) (Hok : send_cfg_ok scfg) (Hsc : length scratch = pdu_buf_len scfg).
Context (Hconf : 0 ≤ sc_configured_target_bps scfg) (Hpos : 0 < rg_total_blocks cfg).
Context (Hmax : (0 < rg_max_nacks_per_pdu cfg)%nat) (Hf : foreign_ip (rg_expected_peer_ip cfg) a = false).

Local Abbreviation content := (src_content (sc_source scfg)).

(** The sender between rounds: nothing left to send, DONE not seen. *)
Record send_idle (st : SendState) (q : ReadyQueue) (p : Pacer) : Prop := {
  si_rex : rex_ok (st_rex st);
  si_done : st_done st = false;
  si_target : 0 ≤ st_target_bps st;
  si_items : ry_items q = [];
  si_pacer : pacer_ok p
}.

(** The pacing loop empties the retransmit queue: every queued block of the file is on the
    wire afterwards, and nothing else is. *)
Lemma resend_spec clk : ∀ n st q p, send_idle st q p → (rex_len st ≤ n)%nat →
  ∃ st' q' p' msgs, resend n clk st q p = Done (Some (st', q', p', msgs)) ∧
    send_idle st' q' p' ∧ rq_heap (st_rex st') = [] ∧
    (∀ seq, seq ∈ rq_heap (st_rex st) → seq < sc_total_blocks scfg →
       ∃ pkt, pkt ∈ msgs ∧ carries (sc_crypto scfg) (sc_session scfg) pkt seq (src_block scfg seq)) ∧
    (∀ pkt, pkt ∈ msgs → ∃ seq blk, seq ∈ rq_heap (st_rex st) ∧
       carries (sc_crypto scfg) (sc_session scfg) pkt seq blk ∧ (seq < sc_total_blocks scfg → blk = src_block scfg seq)).
Proof.
  induction n as [|n IH]; intros st q p Hi Hn; cbn [resend].
  { assert (rq_heap (st_rex st) = []) as Hnil by (apply nil_length_inv; unfold rex_len, pq_len in Hn; lia).
    exists st, q, p, []. rewrite Hnil. split_and!; try done; intros ? Hin; by apply not_elem_of_nil in Hin. }
  pose proof Hi as []. assert (queue_ok scfg q) as Hq by (unfold queue_ok; rewrite si_items0; constructor).
  destruct (pacing_iter_spec scfg scratch false None (clk (S n)) (clk (S n)) st q p Hok Hsc si_rex0 Hq si_pacer0 si_target0)
    as (r & E & Hr). rewrite E. cbn [mbind outcome_bind].
  destruct r as [| | |st1 q1 p1 freed msgs fin sl]; [congruence|destruct Hr as [_ [=]]|destruct Hr as (_ & [=] & _)|].
  pose proof (pacing_iter_keeps _ _ _ _ _ _ _ _ _ _ _ _ _ _ _ _ E) as (Htg & [Hit Hfr]%(λ f, f si_items0)).
  destruct Hr as (Hd & Hrex & _ & Hp1 & _ & _ & (k & Hk) & _ & _ & _ & _ & _ & _ & _ & Hres & Hlen & Honly).
  destruct (IH st1 q1 p1) as (st' & q' & p' & rest & E' & Hi' & Hnil & Hres' & Honly');
    [by split; rewrite ?Hd, ?Htg|destruct Hlen as [Hz|]; [unfold rex_len; rewrite Hz; simpl; lia|lia]|].
  rewrite E'. cbn [mbind outcome_bind]. eexists st', q', p', _. split; [done|]. split_and!; [done|done| |].
  - intros seq Hin Hs. destruct (Hres seq Hin Hs) as [Hin'|(pkt & ? & ?)].
    + destruct (Hres' seq Hin' Hs) as (pkt & ? & ?). exists pkt. split; [|done]. apply elem_of_app. by right.
    + exists pkt. split; [|done]. apply elem_of_app. by left.
  - intros pkt [Hin|Hin]%elem_of_app.
    + destruct (Honly Hfr pkt Hin) as (seq & blk & ? & ? & _ & _ & _ & ?). by exists seq, blk.
    + destruct (Honly' pkt Hin) as (seq & blk & Hs & ?). exists seq, blk. split; [|done].
      rewrite Hk in Hs. eapply elem_of_sublist; [exact Hs|apply sublist_drop].
Qed.
(** The sender takes a FEEDBACK of its session from its peer. *)
Lemma feedback_step_takes pdu t st h nacks :
  rex_ok (st_rex st) → decode_feedback pdu = Done (Some (h, nacks)) → fh_session h = sc_session scfg →
  ∃ st', feedback_step scfg None pdu (sc_peer scfg) t st = Done st' ∧ rex_ok (st_rex st') ∧
    rq_set (st_rex st') = rq_set (st_rex st) ∪ list_to_set (ne_block_seq <$> nacks) ∧
    st_done st' = fh_done h || st_done st.
Proof.
  intros Hrex Hd Hs. unfold feedback_step. rewrite bool_decide_eq_true_2 by done. cbn [negb].
  assert (pdu_type pdu = PDU_FEEDBACK) as ->.
  { revert Hd. unfold decode_feedback. destruct (Nat.ltb_spec (length pdu) FEEDBACK_HEADER_SIZE); [done|].
    destruct pdu as [|b pdu]; [done|]. cbn [pdu_type buf_get lookup list_lookup mbind outcome_bind].
    by destruct (Z.eqb_spec (byte_to_Z b) PDU_FEEDBACK). }
  rewrite Z.eqb_refl. cbn [negb]. rewrite Hd. cbn [mbind outcome_bind]. rewrite Hs, Z.eqb_refl. cbn [negb].
  destruct (decode_feedback_total pdu) as (r & Er & Hwf). rewrite Hd in Er. apply Done_inj in Er as <-.
  destruct (Hwf _ _ eq_refl) as (_ & Hn & _).
  destruct (push_loop_spec nacks (st_rex st) Hrex) as [Hrex' Hset]; [eapply Forall_impl; [exact Hn|by intros ? []]|].
  eexists. split; [done|]. simpl. by destruct (0 <? fh_target_rate h), nacks.
Qed.

Lemma delivered_pdus msgs picks :
  Forall (λ pkt, ∃ seq, block_pdu scfg pkt seq) msgs →
  Forall (λ '(pkt, _), ∃ seq, block_pdu scfg pkt seq) (delivered msgs picks).
Proof.
  intros Hall. apply Forall_forall. intros [pkt now] ([i t] & _ & (m & Hm' & [= -> ->])%fmap_Some)%list_elem_of_omap.
  exact (Forall_lookup_1 _ _ _ _ Hall Hm').
Qed.

(** Both ends between rounds. *)
Record good (e : Ends) : Prop := {
  gd_inv : sys_inv cfg content (solo cfg (en_recv e));
  gd_fb : feedback_ok cfg (en_recv e) (en_fb e);
  gd_fin : rs_all_sent (en_recv e) = true;
  gd_peer : rs_peer (en_recv e) = Some a;
  gd_send : send_idle (en_send e) (en_q e) (en_pacer e);
  gd_empty : rq_heap (st_rex (en_send e)) = []
}.

(** The sender's half: what it resends are blocks the receiver asked for. *)
Lemma round_send c e (recv : RecvState K) pdu h nacks :
  good e → rs_bm recv = rs_bm (en_recv e) → decode_feedback pdu = Done (Some (h, nacks)) → feedback_true cfg (en_recv e) h nacks →
  ∃ send send' q p msgs,
    match ch_arrives c with
    | Some t => feedback_step scfg None pdu (sc_peer scfg) t (en_send e)
    | None => Done (en_send e)
    end = Done send ∧
    resend (rex_len send) (ch_clk c) send (en_q e) (en_pacer e) = Done (Some (send', q, p, msgs)) ∧
    send_idle send' q p ∧ rq_heap (st_rex send') = [] ∧
    (∀ pkt, pkt ∈ msgs → ∃ seq, block_pdu scfg pkt seq ∧ bit (rs_bm recv) seq = false) ∧
    (is_Some (ch_arrives c) → nacks ≠ [] → msgs ≠ []).
Proof.
  intros [] Ebm Hd (Hses & _ & Hmiss & _ & _ & _ & Hdone). pose proof gd_send0 as [].
  assert (∃ send, match ch_arrives c with
      | Some t => feedback_step scfg None pdu (sc_peer scfg) t (en_send e)
      | None => Done (en_send e)
      end = Done send ∧ send_idle send (en_q e) (en_pacer e) ∧
      (∀ x, x ∈ rq_heap (st_rex send) → x ∈ ne_block_seq <$> nacks) ∧
      (is_Some (ch_arrives c) → ∀ x, x ∈ ne_block_seq <$> nacks → x ∈ rq_heap (st_rex send)))
    as (send & Es & Hi & Hsub & Hsup).
  { destruct (ch_arrives c) as [t|].
    - destruct (feedback_step_takes pdu t (en_send e) h nacks si_rex0 Hd) as (st' & E & Hrex & Hset & Hdn);
        [by rewrite Hses, (mt_session _ _ Hm)|].
      assert (∀ x, x ∈ rq_heap (st_rex st') ↔ x ∈ ne_block_seq <$> nacks) as Hx.
      { intros x. rewrite (rx_set _ Hrex), Hset, elem_of_union, elem_of_list_to_set, <-(rx_set _ si_rex0), gd_empty0.
        split; [by intros [?%not_elem_of_nil|]|by right]. }
      exists st'. split_and!; [done| |apply Hx|intros _; apply Hx]. split; try done.
      + rewrite Hdn, si_done0, orb_false_r. destruct (fh_done h); [|done]. destruct (proj1 Hdone eq_refl) as [_ Hfl].
        pose proof (iv_flushed _ _ _ gd_inv0) as Hz. simpl in Hz. lia.
      + by eapply feedback_step_target.
    - exists (en_send e). split_and!; [done|done|rewrite gd_empty0; by intros x ?%not_elem_of_nil|by intros []]. }
  destruct (resend_spec (ch_clk c) (rex_len send) send _ _ Hi (Nat.le_refl _))
    as (send' & q & p & msgs & E & Hi' & Hnil & Hres & Honly).
  exists send, send', q, p, msgs. split_and!; try done.
  - intros pkt Hin. destruct (Honly pkt Hin) as (seq & b & (n & -> & Hn)%Hsub%list_elem_of_fmap & Hc & Hb).
    destruct (Hmiss n Hn) as [Hr Hbit]. rewrite (mt_total _ _ Hm) in Hr.
    exists (ne_block_seq n). split; [|by rewrite Ebm]. split; [done|]. by rewrite <-(Hb ltac:(lia)).
  - intros Harr Hne. destruct nacks as [|n nacks]; [done|]. destruct (Hmiss n ltac:(by left)) as [Hr _].
    rewrite (mt_total _ _ Hm) in Hr.
    destruct (Hres (ne_block_seq n)) as (pkt & Hin & _); [apply Hsup; [done|by left]|lia|]. by intros ->; apply not_elem_of_nil in Hin.
Qed.

Lemma round_spec c e T :
  good e → 0 ≤ ch_t0 c < 2 ^ 52 → is_u64 (ch_t2 c) → (∀ it, it ∈ ls_heap (fb_scanner (en_fb e)) → hi_due it ≤ T) →
  ∃ e', round c e = Done (Some e') ∧ good e' ∧
    scheduled cfg (Z.max T (ch_t0 c + RTO_BOUND)) (fb_scanner (en_fb e')) ∧
    (∀ j, 0 ≤ j → bit (rs_bm (en_recv e)) j = true → bit (rs_bm (en_recv e')) j = true) ∧
    (scheduled cfg T (fb_scanner (en_fb e)) → T ≤ ch_t0 c → fruitful c = true →
     ∀ j, 0 ≤ j < rg_total_blocks cfg → bit (rs_bm (en_recv e)) j = false →
       ∃ i, 0 ≤ i < rg_total_blocks cfg ∧ bit (rs_bm (en_recv e)) i = false ∧ bit (rs_bm (en_recv e')) i = true).
Proof.
  intros Hg Ht0 Ht2 Hdue. pose proof Hg as []. unfold round.
  destruct (feedback_iter_spec cfg None (ch_t0 c) (ch_t1 c) (ch_t2 c) true (en_recv e) (en_fb e) gd_fb0 Ht0 Ht2)
    as (r & Er & Hr). rewrite Er. cbn [mbind outcome_bind].
  pose proof (feedback_iter_frame cfg _ _ _ _ _ _ _ _ (iv_recv _ _ _ gd_inv0) Er) as (Hro & Hsame & Hdn).
  destruct r as [|recv fb peer pdu]; [destruct Hr; congruence|]. cbn beta iota in Hro, Hsame, Hdn.
  destruct Hr as (_ & Hfb & (h & nacks & Hdec & Htrue & _ & _ & Hnack) & _ & Hsch & Ebm & Eall & Epeer).
  destruct (round_send c e recv pdu h nacks Hg Ebm Hdec Htrue) as (send & send' & q & p & msgs & E1 & E2 & Hi & Hnil & Hmsgs & Hne).
  rewrite E1. cbn [mbind outcome_bind]. rewrite E2. cbn [mbind outcome_bind].
  pose proof (step_feedback_inv cfg content _ recv (ctl_init cfg) gd_inv0 Hro Hsame ltac:(simpl; clear -Hdn; intuition done)) as Hinv1.
  destruct (ingest_all_receives scfg cfg Hm (delivered msgs (ch_deliver c)) a Hok Hf recv Hinv1)
    as (recv' & E3 & Hinv2 & Hmono & Hrec).
  { right. by rewrite Epeer. }
  { apply delivered_pdus, Forall_forall. intros pkt Hin. destruct (Hmsgs pkt Hin) as (seq & ? & _). by exists seq. }
  rewrite E3. cbn [mbind outcome_bind]. pose proof (ingest_all_keeps cfg _ _ _ _ E3) as Hkeep. pose proof Hkeep as (Hka & Hkp & _).
  eexists. split; [done|]. cbn [en_recv en_fb en_send en_q en_pacer]. split; [|split; [by apply Hsch|split]].
  - split; cbn [en_recv en_fb en_send en_q en_pacer]; [done| |apply Hka; congruence|apply Hkp; congruence|done|done].
    by eapply feedback_ok_grow; [exact Hfb|apply Hinv2|exact Hkeep|].
  - intros j Hj Hb. apply Hmono; [done|]. by rewrite Ebm.
  - intros Hs HT Hfr j Hj Hb. unfold fruitful in Hfr.
    destruct (ch_arrives c) as [t|]; [|done]. destruct (ch_deliver c) as [|[i now] picks]; [done|].
    assert (msgs ≠ []) as Hm1 by (apply Hne; [done|by eapply Hnack]).
    destruct (lookup_lt_is_Some_2 msgs (i mod length msgs)) as [pkt Hpkt].
    { apply Nat.mod_upper_bound. by destruct msgs. }
    destruct (Hmsgs pkt) as (seq & Hpdu & Hbit); [by eapply list_elem_of_lookup_2|].
    exists seq. destruct Hpdu as [Hseq Hc]. rewrite <-(mt_total _ _ Hm) in Hseq. split; [done|].
    split; [by rewrite <-Ebm|]. apply Hrec. exists pkt, now. split; [|split; [by rewrite <-(mt_total _ _ Hm)|done]].
    unfold delivered. simpl. rewrite Hpkt. simpl. by left.
Qed.

(** ** Many rounds *)

Lemma missing_shrinks (st st' : RecvState K) i :
  (∀ j, 0 ≤ j → bit (rs_bm st) j = true → bit (rs_bm st') j = true) →
  0 ≤ i < rg_total_blocks cfg → bit (rs_bm st) i = false → bit (rs_bm st') i = true →
  (length (missing st') < length (missing st))%nat.
Proof.
  intros Hmono Hi Hb Hb'. apply (length_filter_lt _ _ _ i); [|rewrite elem_of_seqZ; lia|done|congruence].
  intros j [Hj _]%elem_of_seqZ Hj'. destruct (bit (rs_bm st) j) eqn:E; [|done]. by rewrite Hmono in Hj'.
Qed.

Lemma missing_le (st st' : RecvState K) :
  (∀ j, 0 ≤ j → bit (rs_bm st) j = true → bit (rs_bm st') j = true) → (length (missing st') ≤ length (missing st))%nat.
Proof.
  intros Hmono. apply length_filter_le. intros j [Hj _]%elem_of_seqZ Hj'.
  destruct (bit (rs_bm st) j) eqn:E; [|done]. by rewrite Hmono in Hj'.
Qed.

(** Every fruitful round brings at least one missing block. *)
Lemma rounds_spec cs : ∀ e T, good e → 0 ≤ T → scheduled cfg T (fb_scanner (en_fb e)) → spaced T cs →
  ∃ e', rounds cs e = Done (Some e') ∧ good e' ∧
    (length (missing (en_recv e')) ≤ length (missing (en_recv e)) - length (filter (λ c, fruitful c = true) cs))%nat.
Proof.
  induction cs as [|c cs IH]; intros e T Hg HT Hs Hsp; cbn [rounds].
  { exists e. split; [done|]. split; [done|]. simpl. lia. }
  destruct Hsp as (Ht0 & Ht2 & Hsp).
  destruct (round_spec c e T Hg ltac:(lia) Ht2 (proj2 Hs)) as (e1 & E1 & Hg1 & Hs1 & Hmono & Hnew).
  rewrite E1. cbn [mbind outcome_bind]. rewrite Z.max_r in Hs1 by (unfold RTO_BOUND; lia).
  destruct (IH e1 (ch_t0 c + RTO_BOUND) Hg1 ltac:(unfold RTO_BOUND; lia) Hs1 Hsp) as (e' & E' & Hg' & Hl).
  exists e'. split; [done|]. split; [done|]. pose proof (missing_le _ _ Hmono) as Hle.
  rewrite filter_cons. destruct (decide (fruitful c = true)) as [Hfr|_]; [|lia]. simpl length.
  destruct (missing (en_recv e)) as [|j js] eqn:Em; [simpl in *; lia|].
  assert (j ∈ missing (en_recv e)) as [Hj [Hj1 Hj2]%elem_of_seqZ]%list_elem_of_filter by (rewrite Em; by left).
  destruct (Hnew Hs ltac:(lia) Hfr j ltac:(lia) Hj) as (i & Hi & Hi0 & Hi1).
  pose proof (missing_shrinks _ _ i Hmono Hi Hi0 Hi1). rewrite Em in *. lia.
Qed.

(** From a scanner that has requested nothing yet, one round later. *)
Lemma rounds_from c0 cs e :
  good e → ls_heap (fb_scanner (en_fb e)) = [] → spaced 0 (c0 :: cs) →
  ∃ e', rounds (c0 :: cs) e = Done (Some e') ∧ good e' ∧
    (length (missing (en_recv e')) ≤ Z.to_nat (rg_total_blocks cfg) - length (filter (λ c, fruitful c = true) cs))%nat.
Proof.
  intros Hg Hnil (Ht0 & Ht2 & Hsp). cbn [rounds].
  destruct (round_spec c0 e 0 Hg Ht0 Ht2) as (e1 & E1 & Hg1 & Hs1 & _); [rewrite Hnil; by intros it ?%not_elem_of_nil|].
  rewrite E1. cbn [mbind outcome_bind]. rewrite Z.max_r in Hs1 by (unfold RTO_BOUND; lia).
  destruct (rounds_spec cs e1 (ch_t0 c0 + RTO_BOUND) Hg1 ltac:(unfold RTO_BOUND; lia) Hs1 Hsp) as (e' & E' & Hg' & Hl).
  exists e'. split; [done|]. split; [done|].
  pose proof (length_filter (λ j, bit (rs_bm (en_recv e1)) j = false) (seqZ 0 (rg_total_blocks cfg))) as Hle.
  rewrite length_seqZ in Hle. unfold missing in *. lia.
Qed.

Lemma missing_none (st : RecvState K) j :
  length (missing st) = 0%nat → 0 ≤ j < rg_total_blocks cfg → bit (rs_bm st) j = true.
Proof.
  intros Hnil%nil_length_inv Hj. apply not_false_is_true. intros Hb.
  assert (j ∈ missing st) as Hin; [|rewrite Hnil in Hin; by apply not_elem_of_nil in Hin].
  apply list_elem_of_filter. split; [done|]. rewrite elem_of_seqZ. clear - Hj; lia.
Qed.

(** With nothing missing, the flusher finishes the file. *)
Lemma flush_after e :
  good e → length (missing (en_recv e)) = 0%nat →
  ∃ st2, flush_pass (Z.to_nat (rg_total_blocks cfg)) cfg 0 (en_recv e) = Done (st2, rg_total_blocks cfg) ∧
    sink_bytes (rs_sink st2) = content.
Proof.
  intros Hg Hnil. pose proof (network_authentic _ _ Hm Hok) as Hc. pose proof (gd_inv _ Hg) as Hinv.
  destruct (flush_pass_complete _ _ _ Hc (Z.to_nat (rg_total_blocks cfg)) _ 0 false Hinv eq_refl) as (st2 & b2 & E & Hinv2);
    [clear Hsc Hconf Hpos Hmax; lia| |].
  { intros j Hj. destruct (iv_noloss _ _ _ Hinv j Hj) as [?|Hh]; [|done|by apply not_elem_of_nil in Hh].
    by apply missing_none. }
  exists st2. split; [done|]. apply (sys_inv_complete _ _ _ Hc _ Hinv2). apply (iv_flushed _ _ _ Hinv2).
Qed.

(** ** The start *)

Lemma ingest_all_app pkts1 pkts2 addr : ∀ st,
  ingest_all cfg (pkts1 ++ pkts2) addr st = (st' ← ingest_all cfg pkts1 addr st; ingest_all (K := K) cfg pkts2 addr st').
Proof.
  induction pkts1 as [|[pkt now] pkts1 IH]; intros st; [done|]. cbn [ingest_all app].
  destruct (ingest cfg pkt addr now st); cbn [mbind outcome_bind]; [apply IH|done].
Qed.

(** The FIN of the sender. *)
Lemma fin_received st now fin :
  sys_inv cfg content (solo cfg st) → rs_peer st = None ∨ rs_peer st = Some a → send_fin scfg = Done fin →
  ∃ st', ingest cfg fin (Some a) now st = Done st' ∧ sys_inv cfg content (solo cfg st') ∧
    rs_all_sent st' = true ∧ rs_peer st' = Some a ∧ rs_bm st' = rs_bm st.
Proof.
  intros Hinv Hp Ef. destruct (send_fin_spec scfg Hok) as (f & Ef' & Hty & Hd).
  rewrite Ef in Ef'. apply Done_inj in Ef' as <-.
  assert (∀ addr, open_packet cfg fin addr = Done Fin) as Ho.
  { intros addr. unfold open_packet. rewrite Hty, Z.eqb_refl, Hd. cbn [mbind outcome_bind].
    by rewrite (mt_session _ _ Hm), (mt_total _ _ Hm), !Z.eqb_refl. }
  assert (fin ≠ []) as Hne by (by intros ->).
  destruct (ingest_sys cfg (network scfg cfg) content st fin (Some a) now (network_authentic _ _ Hm Hok) Hinv)
    as (st' & E & Hinv'); [right; intros; by rewrite Ho|done|].
  exists st'. split; [done|]. split; [done|]. revert E. unfold ingest. destruct fin as [|b0 fin]; [done|].
  unfold handle_packet, accept_packet. rewrite Ho. cbn [mbind outcome_bind]. unfold learn_peer. rewrite Hf.
  destruct Hp as [Hp|Hp]; simpl; rewrite Hp; simpl; [by intros [= <-]|].
  rewrite bool_decide_eq_true_2 by done. by intros [= <-].
Qed.

(** The first pass, with the FIN in it, readies the ends. *)
Lemma first_pass sink st before after tfin fin send q p :
  recv_fresh cfg sink st → sink_wf sink → length (sink_bytes sink) = length content →
  Z.of_nat (rg_max_nacks_per_pdu cfg) < 2 ^ 16 → 0 ≤ rg_total_blocks cfg < 2 ^ 63 →
  Forall (λ '(pkt, _), ∃ seq, block_pdu scfg pkt seq) (before ++ after) → send_fin scfg = Done fin →
  send_idle send q p → rq_heap (st_rex send) = [] →
  ∃ st1, ingest_all cfg (before ++ (fin, tfin) :: after) (Some a) st = Done st1 ∧
    good (mkEnds st1 (feedback_init cfg) send q p).
Proof.
  intros Hfr Hwf Hl Hmax' Htot [Hb Ha]%Forall_app Ef Hi Hnil.
  pose proof (network_authentic _ _ Hm Hok) as Hc.
  pose proof (solo_inv _ _ _ _ Hc (sys_inv_fresh _ _ _ Hc sink st Hfr Hwf Hl)) as Hinv.
  destruct (ingest_all_receives scfg cfg Hm before a Hok Hf st Hinv (or_introl (rf_peer _ _ _ Hfr)) Hb)
    as (s1 & E1 & Hinv1 & Hmono1 & _).
  destruct (ingest_all_keeps cfg _ _ _ _ E1) as (_ & _ & Hp1 & _). rewrite (rf_peer _ _ _ Hfr) in Hp1.
  destruct (fin_received s1 tfin fin Hinv1 Hp1 Ef) as (s2 & E2 & Hinv2 & Hall2 & Hp2 & Ebm2).
  destruct (ingest_all_receives scfg cfg Hm after a Hok Hf s2 Hinv2 (or_intror Hp2) Ha)
    as (s3 & E3 & Hinv3 & Hmono3 & _).
  assert (ingest_all cfg (before ++ (fin, tfin) :: after) (Some a) st = Done s3) as E.
  { rewrite ingest_all_app, E1. cbn [mbind outcome_bind ingest_all]. by rewrite E2. }
  exists s3. split; [done|]. pose proof (ingest_all_keeps cfg _ _ _ _ E) as Hk.
  pose proof (ingest_all_keeps cfg _ _ _ _ E3) as (Hka & Hkp & _).
  split; cbn [en_recv en_fb en_send en_q en_pacer]; [done| |by apply Hka|by apply Hkp|done|done].
  assert (feedback_ok cfg st (feedback_init cfg)) as Hfb.
  { pose proof (feedback_ok_fresh cfg sink st (rs_peer st) Hfr) as Hfb. destruct st. apply Hfb; [|done|done].
    rewrite (mt_session _ _ Hm). apply Hok. }
  eapply feedback_ok_grow; [exact Hfb|apply Hinv3|done|]. intros j Hj Hbit. apply Hmono3; [done|].
  rewrite Ebm2. by apply Hmono1.
Qed.
End rounds.

(** ** The property *)

(** C2: a transfer over a lossy network completes.  The receiver is set up for the sender's
    file; any part of the sender's first pass reaches it, in any order and with any
    repetition, and the FIN somewhere among it.  Then rounds follow, at least an RTO apart:
    an iteration of the receiver's feedback thread, its FEEDBACK on the way to the sender
    (or lost), the sender's pacing loop until the requested blocks are resent, and the
    delivery of any of them, in any order (or of none).  No round fails; and after as many
    rounds in which both directions delivered something as the file has blocks, the
    flusher's pass moves the frontier to the last block, with exactly the source's bytes in
    the sink. *)
Theorem lossy_transfer_completes {Src} `{!BlockSource Src, !BlockSourceLaws Src}
    `{!Crc32c, !Crc32cLaws, !AeadCrate, !AeadLaws} {K} `{!BlockSink K, !BlockSinkLaws K}
    (scfg : SendCfg Src) num_cpu c (sink0 : K) stats a before after tfin scratch send q p c0 cs :
  send_cfg_ok scfg → 0 ≤ sc_configured_target_bps scfg → 0 < sc_total_blocks scfg →
  recv_setup_ok c → Z.of_nat (rg_max_nacks_per_pdu c) < 2 ^ 16 → matching scfg (recv_defaults num_cpu c) →
  foreign_ip (rg_expected_peer_ip c) a = false → length scratch = pdu_buf_len scfg →
  Forall (λ '(pkt, _), ∃ seq, block_pdu scfg pkt seq) (before ++ after) →
  send_idle send q p → rq_heap (st_rex send) = [] →
  spaced 0 (c0 :: cs) → sc_total_blocks scfg ≤ length (filter (λ c, fruitful c = true) cs) →
  ∃ sink st fin st1 e st2, sink_allocate sink0 (sc_file_size scfg) = (sink, Ok ()) ∧
    new_receiver num_cpu c sink stats = Done (recv_defaults num_cpu c, st) ∧
    send_fin scfg = Done fin ∧
    ingest_all (recv_defaults num_cpu c) (before ++ (fin, tfin) :: after) (Some a) st = Done st1 ∧
    rounds scfg (recv_defaults num_cpu c) a scratch (c0 :: cs)
      (mkEnds st1 (feedback_init (recv_defaults num_cpu c)) send q p) = Done (Some e) ∧
    flush_pass (Z.to_nat (rg_total_blocks c)) (recv_defaults num_cpu c) 0 (en_recv e) = Done (st2, rg_total_blocks c) ∧
    sink_bytes (rs_sink st2) = src_content (sc_source scfg).
Proof.
  intros Hok Hconf Htot Hs Hmax Hm Hf Hsc Hpk Hi Hnil Hsp Hn.
  pose proof (sok_fits _ Hok). pose proof (sok_size _ Hok) as Hsz. rewrite Hsz.
  destruct (sink_allocate_ok sink0 (length (src_content (sc_source scfg)))) as (sink & Ea & Hwf & Hl); [lia|].
  destruct (new_receiver_spec num_cpu c sink stats Hs) as (st & E & Hfr). destruct (send_fin_spec scfg Hok) as (fin & Ef & _).
  set (cfg := recv_defaults num_cpu c) in *. pose proof (network_authentic _ _ Hm Hok) as Hc.
  assert (0 < Z.of_nat (rg_max_nacks_per_pdu cfg) < 2 ^ 16) as [Hnk Hnk'].
  { unfold cfg, recv_defaults. simpl. destruct (Nat.eqb_spec (rg_max_nacks_per_pdu c) 0); lia. }
  assert (0 < rg_total_blocks cfg) as Htot' by (by rewrite (mt_total _ _ Hm)).
  destruct (first_pass scfg cfg a Hm Hok Hf sink st before after tfin fin send q p Hfr Hwf Hl Hnk' (rk_total _ Hs) Hpk Ef Hi Hnil)
    as (st1 & E1 & Hg).
  destruct (rounds_from scfg cfg a scratch Hm Hok Hsc Hconf Htot' ltac:(lia) Hf c0 cs _ Hg eq_refl Hsp) as (e & E2 & Hg' & Hmiss).
  destruct (flush_after scfg cfg a Hm Hok e Hg') as (st2 & E3 & Hb).
  { rewrite <-(mt_total _ _ Hm) in Hn. lia. }
  by exists sink, st, fin, st1, e, st2.
Qed.

(** ** A small lossy transfer *)

(** A round at [t] whose network delivers the FEEDBACK and one retransmission. *)
Definition demo_round (t : Z) : Choice := mkChoice t t t (Some t) (λ _, t) [(5%nat, t)].
Definition demo_rounds : list Choice := demo_round <$> [5000000; 10000000; 15000000].
Definition demo_idle : SendState := mkSendState 1000000 false rex_default tick_default stats_default.

Lemma demo_idle_ok : send_idle demo_idle (mkReadyQueue [] true) (pacer_init 3 1000000 1000).
Proof. split; [apply rex_default_ok|done|done|done|by apply pacer_rate_ok]. Qed.

(** The whole first pass is lost but for the FIN. *)
Lemma lossy_transfer_completes_witness :
  ∃ sink st fin st1 e st2, mem_allocate mem_sink_new 7 = (sink, Ok ()) ∧
    new_receiver 1 demo_end sink stats_default = Done (recv_defaults 1 demo_end, st) ∧
    send_fin demo_send = Done fin ∧
    @ingest_all castagnoli toy_aead _ (@mem_sink castagnoli) (recv_defaults 1 demo_end) [(fin, 9)] (Some demo_peer) st = Done st1 ∧
    @rounds _ _ castagnoli toy_aead _ (@mem_sink castagnoli) demo_send (recv_defaults 1 demo_end) demo_peer (replicate 55 x00)
      (demo_round 0 :: demo_rounds)
      (mkEnds st1 (feedback_init (recv_defaults 1 demo_end)) demo_idle (mkReadyQueue [] true) (pacer_init 3 1000000 1000)) =
      Done (Some e) ∧
    flush_pass (BlockSink0 := @mem_sink castagnoli) 3 (recv_defaults 1 demo_end) 0 (en_recv e) = Done (st2, 3) ∧
    mk_buf (rs_sink st2) = demo_content.
Proof.
  refine (@lossy_transfer_completes MemSource _ _ castagnoli castagnoli_laws toy_aead toy_aead_laws MemSink
           (@mem_sink castagnoli) (@mem_sink_laws castagnoli) demo_send 1 demo_end mem_sink_new stats_default
           demo_peer [] [] 9 (replicate 55 x00) demo_idle (mkReadyQueue [] true) (pacer_init 3 1000000 1000)
           (demo_round 0) demo_rounds demo_send_ok _ _ demo_end_ok _ demo_matching eq_refl eq_refl _ demo_idle_ok eq_refl _ _);
    [done|done|done|constructor|repeat split; vm_compute; done|vm_compute; done].
Defined.
