(* ===== verification/DataPath.v ===== *)
(** * The data path (src/receiver.rs [ingest_loop], src/sender.rs [pacing_loop], with src/sys)

    Where the socket backends meet the transfer.  On the sending side the batch an iteration
    of the pacing loop builds goes through a backend's [reset], [add] and [flush]; on the
    receiving side an ingest worker loops over what its backend receives.  Both are written
    against the backends' interfaces, so the results hold of every backend that keeps the
    laws. *)

From S2P Require Import Prelude Float64 Errors Net SockAddr Protocol Rate PQueue LossTracker Stats Runtime BlockIO.
From S2P Require Import Crypto Udp Sender Receiver ReceiverSys EndToEnd.

(** ** Sending *)

(** The backend's capacity hint in [pacing_loop]. *)
Definition SENDER_CAP : nat := 1024.

(** An iteration of [pacing_loop] with its system calls: what the loop does, the backend
    after it, and the datagrams that left the host. *)
Definition pacing_turn {Src} `{!BlockSource Src, !Crc32c, !AeadCrate} {S} `{!Batching S} (cfg : SendCfg Src)
    (scratch : list byte) (stop : bool) (control : option TransferControl) (t0 t1 : Z) (k : send_kernel)
    (st : SendState) (q : ReadyQueue) (p : Pacer) (bs : S) : outcome (option (pace_result * S * list (list byte))) :=
  r ← pacing_iter cfg scratch stop control t0 t1 st q p;
  match r with
  | Some (PaceSent st' q' p' freed msgs fin sleep) =>
      Done (match send_batch bs msgs k with
            | Some (bs', _, out) => Some (PaceSent st' q' p' freed msgs fin sleep, bs', out)
            | None => None
            end)
  | Some r => Done (Some (r, bs, []))
  | None => Done None
  end.

(** ** Receiving *)

(** The slot length [run] gives its engine. *)
Definition recv_slot_len (cfg : RecvConfig) : nat := (Z.to_nat (rg_block_size cfg) + DATA_HEADER_SIZE + 64)%nat.

(** What a pass of [ingest_loop] meets: the flags at its head, the kernel's answers, the
    flags after a timeout, and the clock while each datagram is handled. *)
Record turn (N : Type) := mkTurn {
  t_stop : bool;
  t_done : bool;
  t_kernel : N;
  t_idle_done : bool;
  t_idle_stop : bool;
  t_now : nat → Z
}.
Arguments mkTurn {N}.
Arguments t_stop {N}.
Arguments t_done {N}.
Arguments t_kernel {N}.
Arguments t_idle_done {N}.
Arguments t_idle_stop {N}.
Arguments t_now {N}.

(** How the loop ends; [IngestWaiting] is a worker still in its loop. *)
Inductive ingest_end := IngestStopped | IngestFatal (e : io_error) | IngestWaiting.

Section worker.
Context `{!Crc32c, !AeadCrate} {K : Type} `{!BlockSink K} {R N : Type} `{!Receiving R N}.

(** The views of a batch, one after the other. *)
Fixpoint ingest_slots (cfg : RecvConfig) (r : R) (now : nat → Z) (slots : list nat) (st : RecvState K)
    : outcome (RecvState K) :=
  match slots with
  | [] => Done st
  | i :: slots' =>
      '(data, addr) ← rv_message r i;
      st ← ingest cfg data addr (now i) st;
      ingest_slots cfg r now slots' st
  end.

Fixpoint ingest_loop (cfg : RecvConfig) (turns : list (turn N)) (r : R) (st : RecvState K)
    : outcome (ingest_end * R * RecvState K) :=
  match turns with
  | [] => Done (IngestWaiting, r, st)
  | t :: turns' =>
      if t_stop t || t_done t then Done (IngestStopped, r, st) else
      o ← rv_recv r (t_kernel t);
      match o with
      | None => Done (IngestWaiting, r, st)
      | Some (r, Ok n) => st ← ingest_slots cfg r (t_now t) (seq 0 n) st; ingest_loop cfg turns' r st
      | Some (r, Err e) =>
          if is_timeout e then
            if t_idle_done t || t_idle_stop t then Done (IngestStopped, r, st) else ingest_loop cfg turns' r st
          else Done (IngestFatal e, r, st)
      end
  end.

(** The reference: a list of datagrams with their sources and times. *)
Definition datagram : Type := list byte * SocketAddr * Z.
Fixpoint ingest_each (cfg : RecvConfig) (ds : list datagram) (st : RecvState K) : outcome (RecvState K) :=
  match ds with
  | [] => Done st
  | (pkt, a, now) :: ds' => st ← ingest cfg pkt (Some a) now st; ingest_each cfg ds' st
  end.

(** The datagrams of a batch as a slot of [len] bytes shows them. *)
Definition shown (len : nat) (now : nat → Z) (ms : list (list byte * SocketAddr)) : list datagram :=
  imap (λ i m, (take len m.1, m.2, now i)) ms.
End worker.

Lemma ingest_each_app `{!Crc32c, !AeadCrate} {K} `{!BlockSink K} cfg ds1 ds2 (st : RecvState K) :
  ingest_each cfg (ds1 ++ ds2) st = (st1 ← ingest_each cfg ds1 st; ingest_each cfg ds2 st1).
Proof.
  revert st. induction ds1 as [|[[pkt a] now] ds1 IH]; intros st; [done|]. cbn [ingest_each app].
  destruct (ingest cfg pkt (Some a) now st) as [st1|]; [|done]. apply IH.
Qed.

(** A batch seen through its views is the batch. *)
Lemma ingest_slots_each `{!Crc32c, !AeadCrate} {K} `{!BlockSink K} {R N} `{!Receiving R N} cfg (r : R) len now ms :
  ∀ i (st : RecvState K),
  (∀ j d a, ms !! j = Some (d, a) → ∃ oa, rv_message r (i + j) = Done (take len d, oa) ∧ (d ≠ [] → oa = Some a)) →
  ingest_slots cfg r now (seq i (length ms)) st = ingest_each cfg (shown len (λ j, now (i + j)%nat) ms) st.
Proof.
  induction ms as [|[d a] ms IH]; intros i st Hm; [done|]. unfold shown. cbn [length seq ingest_slots imap ingest_each].
  destruct (Hm O d a eq_refl) as (oa & Hz & Ha). rewrite Nat.add_0_r in Hz. rewrite Hz. cbn [mbind outcome_bind fst snd].
  rewrite Nat.add_0_r. replace (ingest cfg (take len d) oa (now i) st) with (ingest cfg (take len d) (Some a) (now i) st)
    by (destruct d; [by rewrite take_nil|by rewrite Ha]). destruct (ingest cfg (take len d) (Some a) (now i) st) as [st1|]; [|done].
  cbn [mbind outcome_bind]. rewrite IH.
  - f_equal. unfold shown. apply imap_ext. intros j m _. simpl. by rewrite Nat.add_succ_r.
  - intros j d' a' E. rewrite Nat.add_succ_l, <-Nat.add_succ_r. by apply Hm.
Qed.

(** ** The worker's loop is the datagrams it received *)

Section path.
Context {Src : Type} `{!BlockSource Src, !BlockSourceLaws Src}.
Context `{!Crc32c, !Crc32cLaws, !AeadCrate, !AeadLaws} {K : Type} `{!BlockSink K, !BlockSinkLaws K}.
Context {R N : Type} `{!Receiving R N, !ReceivingLaws R N}.
Context (scfg : SendCfg Src) (cfg : RecvConfig) (Hok : send_cfg_ok scfg) (Hm : matching scfg cfg).

(** A datagram of the sender's, or one of which the receiver's checks refuse what fits a slot. *)
Definition arrives (len : nat) (d : list byte) : Prop :=
  wire_ok scfg d ∨ ∀ addr h p, open_packet cfg (take len d) addr ≠ Done (Block h p).

Lemma slot_fits : (pdu_buf_len scfg ≤ recv_slot_len cfg)%nat.
Proof.
  unfold pdu_buf_len, recv_slot_len, pdu_overhead, overhead, AEAD_TAG_LEN. rewrite (mt_bs _ _ Hm).
  destruct (sc_crypto scfg); lia.
Qed.

Lemma arrives_network d : arrives (recv_slot_len cfg) d → network scfg cfg (take (recv_slot_len cfg) d).
Proof.
  intros [[Hmsg Hl]|Hno]; [|by right]. left. pose proof slot_fits. by rewrite take_ge by lia.
Qed.

Lemma ingest_each_sys ds : ∀ st : RecvState K,
  sys_inv cfg (src_content (sc_source scfg)) (solo cfg st) → Forall (λ x : datagram, network scfg cfg x.1.1) ds →
  ∃ st', ingest_each cfg ds st = Done st' ∧ sys_inv cfg (src_content (sc_source scfg)) (solo cfg st').
Proof.
  induction ds as [|[[pkt a] now] ds IH]; intros st Hinv Hall; [by exists st|].
  apply Forall_cons in Hall as [Hn Hall]. cbn [ingest_each].
  assert (∃ st1, ingest cfg pkt (Some a) now st = Done st1 ∧
            sys_inv cfg (src_content (sc_source scfg)) (solo cfg st1)) as (st1 & -> & Hinv1).
  { destruct pkt as [|b pkt]; [by exists st|]. eapply ingest_sys; [by apply network_authentic|done|exact Hn|done]. }
  by apply IH.
Qed.

(** The turns a worker goes through and comes back from, with the batches they bring: no flag is
    up at the head; the receive succeeds, and the batch is what the kernel delivered, as the
    receiver's views show it, or it times out with no flag up after it. *)
Inductive served : list (turn N) → R → list (list datagram) → R → Prop :=
| served_none r : served [] r [] r
| served_batch t ts r r1 ms bs r' :
    t_stop t || t_done t = false → rv_recv r (t_kernel t) = Done (Some (r1, Ok (length ms))) →
    rv_delivered (t_kernel t) ms →
    (∀ i d a, ms !! i = Some (d, a) →
       ∃ oa, rv_message r1 i = Done (take (recv_slot_len cfg) d, oa) ∧ (d ≠ [] → oa = Some a)) →
    served ts r1 bs r' → served (t :: ts) r (shown (recv_slot_len cfg) (t_now t) ms :: bs) r'
| served_idle t ts r r1 e bs r' :
    t_stop t || t_done t = false → rv_recv r (t_kernel t) = Done (Some (r1, Err e)) → is_timeout e = true →
    t_idle_done t || t_idle_stop t = false → served ts r1 bs r' → served (t :: ts) r bs r'.

(** Why a worker's loop ended, at the first of the turns left: a flag at its head, a flag after
    its timeout, its error that is not a timeout, or no turn or no answer yet. *)
Definition ended (rest : list (turn N)) (r : R) (e : ingest_end) (r' : R) : Prop :=
  match rest with
  | [] => e = IngestWaiting ∧ r' = r
  | t :: _ =>
      if t_stop t || t_done t then e = IngestStopped ∧ r' = r else
      match e with
      | IngestWaiting => rv_recv r (t_kernel t) = Done None ∧ r' = r
      | IngestFatal err => rv_recv r (t_kernel t) = Done (Some (r', Err err)) ∧ is_timeout err = false
      | IngestStopped => t_idle_done t || t_idle_stop t = true ∧
          ∃ err, rv_recv r (t_kernel t) = Done (Some (r', Err err)) ∧ is_timeout err = true
      end
  end.

Lemma shown_network t ms :
  (∀ ms d a, rv_delivered (t_kernel t) ms → (d, a) ∈ ms → arrives (recv_slot_len cfg) d) →
  rv_delivered (t_kernel t) ms → Forall (λ x : datagram, network scfg cfg x.1.1) (shown (recv_slot_len cfg) (t_now t) ms).
Proof.
  intros Hd Hdel. apply Forall_lookup. intros i x Hx. unfold shown in Hx. rewrite list_lookup_imap in Hx.
  destruct (ms !! i) as [[d a]|] eqn:Ei; [|done]. injection Hx as <-. simpl.
  apply arrives_network. eapply Hd; [done|]. by eapply list_elem_of_lookup_2.
Qed.

(** The kernel keeps its contract while the loop runs. *)
Fixpoint kernel_ok (turns : list (turn N)) (r : R) : Prop :=
  match turns with
  | [] => True
  | t :: turns' =>
      rv_contract r (t_kernel t) ∧ ∀ r' res, rv_recv r (t_kernel t) = Done (Some (r', res)) → kernel_ok turns' r'
  end.

Lemma ingest_loop_spec turns : ∀ (r : R) (st : RecvState K),
  rv_wf r → rv_buf_len r = recv_slot_len cfg → sys_inv cfg (src_content (sc_source scfg)) (solo cfg st) →
  kernel_ok turns r →
  Forall (λ t, ∀ ms d a, rv_delivered (t_kernel t) ms → (d, a) ∈ ms → arrives (recv_slot_len cfg) d) turns →
  ∃ e r' st' ts rest batches r1, ingest_loop cfg turns r st = Done (e, r', st') ∧
    turns = ts ++ rest ∧ served ts r batches r1 ∧ ended rest r1 e r' ∧
    ingest_each cfg (concat batches) st = Done st' ∧
    sys_inv cfg (src_content (sc_source scfg)) (solo cfg st').
Proof.
  induction turns as [|t turns IH]; intros r st Hr Hlen Hinv Hc Hd; cbn [ingest_loop].
  { exists IngestWaiting, r, st, [], [], [], r. split_and!; try done. apply served_none. }
  destruct Hc as [Hct Hc]. apply Forall_cons in Hd as [Hdt Hd].
  destruct (t_stop t || t_done t) eqn:Es.
  { exists IngestStopped, r, st, [], (t :: turns), [], r. split_and!; try done; [apply served_none|]. unfold ended. by rewrite Es. }
  destruct (rv_recv_law r (t_kernel t) Hr Hct) as (o & E & Ho). rewrite E. cbn [mbind outcome_bind].
  destruct o as [[r1 res]|]; cycle 1.
  { exists IngestWaiting, r, st, [], (t :: turns), [], r. split_and!; try done; [apply served_none|]. unfold ended. by rewrite Es. }
  destruct (Ho r1 res eq_refl) as (Hr1 & Hl1 & Hres). pose proof (Hc _ _ E) as Hc1.
  destruct res as [n|e].
  - destruct (Hres n eq_refl) as (ms & <- & Hdel & Hmsg).
    rewrite (ingest_slots_each cfg r1 (rv_buf_len r) (t_now t) ms 0) by exact Hmsg. rewrite Hlen in *.
    destruct (ingest_each_sys (shown (recv_slot_len cfg) (t_now t) ms) st Hinv) as (st1 & E1 & Hinv1).
    { by apply (shown_network t). }
    cbn [Nat.add]. change (λ j : nat, t_now t j) with (t_now t). rewrite E1. cbn [mbind outcome_bind].
    destruct (IH r1 st1) as (e & r' & st' & ts & rest & batches & r2 & E' & -> & Hs & He & Heach & Hinv');
      [done|congruence|done|done|done|].
    exists e, r', st', (t :: ts), rest, (shown (recv_slot_len cfg) (t_now t) ms :: batches), r2.
    split; [done|]. split; [done|]. split; [by eapply served_batch|]. split; [done|]. split; [|done].
    cbn [concat]. rewrite ingest_each_app, E1. done.
  - destruct (is_timeout e) eqn:Et; cycle 1.
    { exists (IngestFatal e), r1, st, [], (t :: turns), [], r. split_and!; try done; [apply served_none|]. unfold ended. by rewrite Es. }
    destruct (t_idle_done t || t_idle_stop t) eqn:Ei.
    { exists IngestStopped, r1, st, [], (t :: turns), [], r. split_and!; try done; [apply served_none|]. unfold ended. rewrite Es.
      split; [done|]. by exists e. }
    destruct (IH r1 st) as (e' & r' & st' & ts & rest & batches & r2 & E' & -> & Hs & He & Heach & Hinv');
      [done|congruence|done|done|done|].
    exists e', r', st', (t :: ts), rest, batches, r2. split; [done|]. split; [done|]. split; [by eapply served_idle|]. by split_and!.
Qed.
End path.

(** The Linux and portable sockets as [socket2] builds their addresses. *)
Definition linux_socket2 : Socket2 := write_sockaddr AF_INET6_LINUX.
Lemma linux_socket2_laws : @Socket2Laws linux_socket2.
Proof. by intros a _. Qed.

(** The Linux contract does not depend on what the receiver holds. *)
Lemma linux_kernel_ok `{!Socket2, !Socket2Laws} turns : ∀ r : BatchReceiver,
  br_ok r → Forall (λ t, recv_contract (t_kernel t) (br_cap r)) turns → kernel_ok turns r.
Proof.
  induction turns as [|t turns IH]; intros r Hr Hc; [done|]. apply Forall_cons in Hc as [Ht Hc]. split; [done|].
  intros r' res [= E]. destruct (br_recv_spec r (t_kernel t) r' res Hr Ht E) as (Hr' & Hcap & _).
  apply IH; [done|]. by rewrite Hcap.
Qed.

(** ** Properties *)

(** C11: what an iteration of the pacing loop puts on the wire.  Through any backend that keeps
    the interface's laws and holds a batch of 64, it never panics, and with enough answers
    from the kernel it ends; the datagrams that leave the host are then some of the ones the
    iteration built, in their order, all of them when no single send fails; each of them is a
    PDU of the transfer that a slot of a matching receiver holds whole. *)
Theorem pacing_turn_on_wire {Src} `{!BlockSource Src, !BlockSourceLaws Src}
    `{!Crc32c, !Crc32cLaws, !AeadCrate, !AeadLaws} {S} `{!Batching S, !BatchingLaws S} (cfg : SendCfg Src)
    scratch stop control t0 t1 k st q p (bs : S) :
  send_cfg_ok cfg → length scratch = pdu_buf_len cfg → rex_ok (st_rex st) → queue_ok cfg q →
  pacer_ok p → 0 ≤ st_target_bps st → b_wf bs → MAX_BATCH ≤ b_capacity bs →
  (∀ st' q' p' freed msgs fin sl,
     pacing_iter cfg scratch stop control t0 t1 st q p = Done (Some (PaceSent st' q' p' freed msgs fin sl)) →
     mmsg_contract (sk_mmsg k) (length msgs)) →
  ∃ r, pacing_turn cfg scratch stop control t0 t1 k st q p bs = Done r ∧
    (MAX_BATCH ≤ length (filter (λ a, a ≠ SendErr true) (sk_mmsg k)) → is_Some r) ∧
    ∀ pr bs' out, r = Some (pr, bs', out) →
      b_wf bs' ∧ b_capacity bs' = b_capacity bs ∧ Forall (wire_ok cfg) out ∧
      (∀ rcfg, matching cfg rcfg → Forall (λ d, take (recv_slot_len rcfg) d = d) out) ∧
      match pr with
      | PaceSent _ _ _ _ msgs _ _ => out `sublist_of` msgs ∧ ((∀ i, sk_send_to k i = true) → out = msgs)
      | _ => out = []
      end.
Proof.
  intros Hok Hsc Hrex Hq Hp Ht Hb Hcap Hk.
  destruct (pacing_iter_spec cfg scratch stop control t0 t1 st q p Hok Hsc Hrex Hq Hp Ht) as (r & E & Hr).
  unfold pacing_turn. rewrite E. cbn [mbind outcome_bind]. destruct r as [|e|p'|st' q' p' freed msgs fin sl].
  1-3: eexists; split; [done|]; split; [by eexists|]; intros pr bs' out [= <- <- <-]; by repeat split.
  destruct Hr as (_ & _ & _ & _ & Hn & Hw & _).
  destruct (send_batch_spec bs msgs k Hb ltac:(lia) (Hk _ _ _ _ _ _ _ E)) as [Hall Hends].
  eexists. split; [done|]. split.
  - intros Hk'. destruct Hends as [[[??]?] ->]; [lia|by eexists].
  - intros pr bs' out. destruct (send_batch bs msgs k) as [[[bs1 n] out1]|] eqn:Es; [|done]. intros [= <- <- <-].
    destruct (Hall _ _ _ eq_refl) as (Hw' & Hc' & Hsub & _ & Hfull).
    assert (Forall (wire_ok cfg) out1) as Hout.
    { rewrite Forall_forall in Hw |- *. intros x Hx. apply Hw. by eapply elem_of_sublist. }
    split; [done|]. split; [done|]. split; [done|]. split; [|done]. intros rcfg Hm.
    eapply Forall_impl; [exact Hout|]. intros x [_ Hl]. pose proof (slot_fits cfg rcfg Hm). rewrite take_ge; [done|lia].
Qed.

(** C8: an ingest worker is its datagrams.  On a network whose datagrams are the sender's or are
    refused by the checks, and a kernel within its contract, a worker's loop over any sequence of
    turns (batches, timeouts, interrupted and unsupported calls, errors) never panics and keeps
    the receiver's invariant.  The turns split into those it goes through and the rest.  Every
    turn gone through either brings the batch the kernel delivered, each datagram as the slot
    shows it, or times out; the loop's effect is that of handling the datagrams of all these
    batches one by one, in order and once each.  It ends at the first of the rest: on a flag at
    the head, on a flag after a timeout, or on an error that is not a timeout. *)
Theorem ingest_loop_refines {Src} `{!BlockSource Src, !BlockSourceLaws Src}
    `{!Crc32c, !Crc32cLaws, !AeadCrate, !AeadLaws} {K} `{!BlockSink K, !BlockSinkLaws K}
    {R N} `{!Receiving R N, !ReceivingLaws R N} (scfg : SendCfg Src) cfg turns (r : R) (st : RecvState K) :
  send_cfg_ok scfg → matching scfg cfg → rv_wf r → rv_buf_len r = recv_slot_len cfg →
  sys_inv cfg (src_content (sc_source scfg)) (solo cfg st) →
  kernel_ok turns r →
  Forall (λ t, ∀ ms d a, rv_delivered (t_kernel t) ms → (d, a) ∈ ms → arrives scfg cfg (recv_slot_len cfg) d) turns →
  ∃ e r' st' ts rest batches r1, ingest_loop cfg turns r st = Done (e, r', st') ∧
    turns = ts ++ rest ∧ served cfg ts r batches r1 ∧ ended rest r1 e r' ∧
    ingest_each cfg (concat batches) st = Done st' ∧
    sys_inv cfg (src_content (sc_source scfg)) (solo cfg st').
Proof. intros Hok Hm. by apply ingest_loop_spec. Qed.

Lemma pacing_turn_on_wire_witness :
  ∃ r, @pacing_turn _ _ castagnoli toy_aead _ portable_batching demo_send (replicate 55 x00) false None 1000 1010
         (mkSendKernel [] (λ _, true)) demo_state (mkReadyQueue [] true) (pacer_init 3 1000000 1000)
         (portable_new SENDER_CAP) = Done r.
Proof.
  destruct (@pacing_turn_on_wire _ _ _ castagnoli castagnoli_laws toy_aead toy_aead_laws _ portable_batching
              portable_batching_laws demo_send (replicate 55 x00) false None 1000 1010 (mkSendKernel [] (λ _, true))
              demo_state (mkReadyQueue [] true) (pacer_init 3 1000000 1000) (portable_new SENDER_CAP) demo_send_ok)
    as (r & E & _);
    [done|exact demo_rex_ok|constructor|by apply pacer_rate_ok|done|vm_compute; lia|vm_compute; done|done|].
  exact (ex_intro _ r E).
Defined.

(** A PDU of the demonstration file, and the receiver waiting for it. *)
Lemma demo_pdu : ∃ pkt, @wire_ok _ _ _ castagnoli toy_aead demo_send pkt.
Proof.
  destruct (@prefetch_spec MemSource _ _ castagnoli castagnoli_laws toy_aead toy_aead_laws demo_send demo_send_ok
              (replicate 1 (replicate 55 xff)) 0 1) as (items & _ & Hl & Hi); [by repeat constructor|done|done|done|].
  destruct items as [|it items]; [done|]. destruct (Hi O it eq_refl) as (Hb & Hn & Hc). exists (take it.2 it.1).
  split; [|rewrite length_take; lia]. exists 0, (src_block demo_send 0). split; [done|].
  split; [done|]. by apply src_block_bytes; [exact demo_send_ok|].
Qed.

Lemma demo_receiver : ∃ st : RecvState MemSink,
  @sys_inv castagnoli _ (@mem_sink castagnoli) (@mem_sink_laws castagnoli) (recv_defaults 1 demo_end) demo_content
    (solo (recv_defaults 1 demo_end) st).
Proof.
  pose proof (@network_authentic MemSource _ _ castagnoli toy_aead toy_aead_laws demo_send
                (recv_defaults 1 demo_end) demo_matching demo_send_ok) as Hc.
  destruct (@sink_allocate_ok MemSink (@mem_sink castagnoli) castagnoli (@mem_sink_laws castagnoli) mem_sink_new 7)
    as (sink & _ & Hwf & Hl); [vm_compute; done|].
  destruct (new_receiver_spec 1 demo_end sink stats_default demo_end_ok) as (st & _ & Hf). exists st.
  apply (@solo_inv castagnoli toy_aead _ _ _ _ _ _ _ Hc).
  by apply (@sys_inv_fresh castagnoli castagnoli_laws toy_aead toy_aead_laws _ _ _ _ _ _ Hc sink).
Qed.

(** A timeout, then a batch of one datagram, then the stop flag. *)
Definition demo_turns (pkt : list byte) : list (turn recv_kernel) :=
  [mkTurn false false (mkRecvKernel [Eintr; RecvErr (mkIoError WouldBlock "timed out")] (Err (mkIoError WouldBlock "")))
     false false (λ _, 1);
   mkTurn false false (mkRecvKernel [Got [(pkt, demo_peer)]] (Err (mkIoError WouldBlock ""))) false false (λ _, 2);
   mkTurn true false (mkRecvKernel [] (Err (mkIoError WouldBlock ""))) false false (λ _, 3)].

Lemma demo_peer_wf : wf_addr demo_peer.
Proof. vm_compute. repeat split; done. Qed.

Lemma demo_turns_ok pkt :
  Forall (λ t, recv_contract (t_kernel t) 32%nat) (demo_turns pkt) ∧
  Forall (λ t, ∀ ms d a, delivered (t_kernel t) ms → (d, a) ∈ ms → d = pkt) (demo_turns pkt).
Proof.
  assert (∀ t ms, t ∈ demo_turns pkt → delivered (t_kernel t) ms → ms = [(pkt, demo_peer)]) as Hd.
  { unfold demo_turns, delivered. intros t ms Ht. set_unfold.
    destruct Ht as [->|[->|[->|[]]]]; simpl; intros [Hms|(? & ? & ? & _)]; try done; set_unfold; naive_solver. }
  split; apply Forall_forall; intros t Ht.
  - split.
    + intros ms Hms. rewrite (Hd t ms Ht) by (by left). split; [simpl; lia|]. by apply Forall_singleton, demo_peer_wf.
    + intros d a E. unfold demo_turns in Ht. set_unfold. by destruct Ht as [->|[->|[->|[]]]].
  - intros ms d a Hms Hin. rewrite (Hd t ms Ht Hms) in Hin. apply list_elem_of_singleton in Hin. by injection Hin.
Qed.

Lemma ingest_loop_refines_witness :
  ∃ pkt st e r' st' ts rest batches r1, @ingest_loop castagnoli toy_aead _ (@mem_sink castagnoli) _ _ (@linux_receiving linux_socket2)
    (recv_defaults 1 demo_end) (demo_turns pkt) (receiver_new 32 103 false) st = Done (e, r', st') ∧
    demo_turns pkt = ts ++ rest ∧
    @served _ _ (@linux_receiving linux_socket2) (@linux_receiving_laws linux_socket2 linux_socket2_laws)
      (recv_defaults 1 demo_end) ts (receiver_new 32 103 false) batches r1.
Proof.
  destruct demo_pdu as [pkt Hpkt]. destruct demo_receiver as [st Hst].
  destruct (demo_turns_ok pkt) as [Hcon Hdel].
  destruct (@ingest_loop_refines _ _ _ castagnoli castagnoli_laws toy_aead toy_aead_laws _ (@mem_sink castagnoli)
              (@mem_sink_laws castagnoli) _ _ (@linux_receiving linux_socket2)
              (@linux_receiving_laws linux_socket2 linux_socket2_laws) demo_send (recv_defaults 1 demo_end)
              (demo_turns pkt) (receiver_new 32 103 false) st demo_send_ok demo_matching)
    as (e & r' & st' & ts & rest & batches & r1 & E & Hts & Hs & _).
  - apply receiver_new_ok. lia.
  - reflexivity.
  - exact Hst.
  - by apply (@linux_kernel_ok linux_socket2 linux_socket2_laws); [apply receiver_new_ok; lia|].
  - eapply Forall_impl; [exact Hdel|]. intros t Ht ms d a Hms Hin. left. by rewrite (Ht ms d a Hms Hin).
  - exact (ex_intro _ pkt (ex_intro _ st (ex_intro _ e (ex_intro _ r' (ex_intro _ st' (ex_intro _ ts (ex_intro _ rest
             (ex_intro _ batches (ex_intro _ r1 (conj E (conj Hts Hs))))))))))).
Defined.
