(* ===== verification/Transfer.v ===== *)
(** * Orchestration (src/transfer.rs): names, limits, warm starts, sessions

    The parts of the client and the server that decide without touching the network: which
    object a request names, whether its parameters are acceptable, what a warm start is,
    how errors are typed, and the bookkeeping of a client session.  The handlers that use
    them are in [Handlers]. *)

From Stdlib Require Import Ascii.
From stdpp Require Import pretty.
From S2P Require Import Prelude Text Float64 Errors Net Protocol Rate Stats Runtime Crypto Auth Control.

(** ** Object names *)

(** [b.contains(c)] for a character. *)
Fixpoint has_char (c : ascii) (s : string) : bool :=
  match s with EmptyString => false | String d s' => bool_decide (c = d) || has_char c s' end.

Definition backslash : ascii := "092"%char.

Definition served_object_name (name : string) : result string io_error :=
  let b := basename name in
  if bool_decide (b = "") || bool_decide (b = ".") || bool_decide (b = "..") ||
     has_char slash b || has_char backslash b
  then Err (mkIoError InvalidInput "invalid object name") else Ok b.

(** [Path::new(dir).join(name)]: an absolute [name] replaces, otherwise one separator. *)
Fixpoint ends_slash (s : string) : bool :=
  match s with
  | EmptyString => false
  | String c EmptyString => bool_decide (c = slash)
  | String _ s' => ends_slash s'
  end.
Definition path_join (dir name : string) : string :=
  if String.prefix "/" name then name
  else if bool_decide (dir = "") || ends_slash dir then dir +:+ name
  else dir +:+ "/" +:+ name.

(** [open_served_source] and [open_served_sink]: the path they open (without following a
    final symbolic link), given what [open] and [metadata] answer. *)
Definition open_served {F} (open : string → result (F * bool) io_error) (dir name : string)
    : result F io_error :=
  match open (path_join dir name) with
  | Err e => Err e
  | Ok (f, is_file) =>
      if negb is_file then Err (mkIoError InvalidInput "served object is not a regular file") else Ok f
  end.

(** ** Addresses *)

Fixpoint str_trim_start_matches (c : ascii) (s : string) : string :=
  match s with
  | String d s' => if bool_decide (c = d) then str_trim_start_matches c s' else s
  | EmptyString => EmptyString
  end.
Fixpoint str_trim_end_matches (f : ascii → bool) (s : string) : string :=
  match s with
  | EmptyString => EmptyString
  | String d s' =>
      match str_trim_end_matches f s' with
      | EmptyString => if f d then EmptyString else String d EmptyString
      | t => String d t
      end
  end.

(** The part before the last colon, if there is one ([rfind(':')]). *)
Definition colon : ascii := ":"%char.
Fixpoint before_last_colon (s : string) : option string :=
  match s with
  | EmptyString => None
  | String c s' =>
      match before_last_colon s' with
      | Some t => Some (String c t)
      | None => if bool_decide (c = colon) then Some EmptyString else None
      end
  end.

(** The target [resolve_peer] looks up. *)
Definition peer_target (server_addr : string) (udp_port : Z) : string :=
  let host := default server_addr (before_last_colon server_addr) in
  let host := str_trim_start_matches "["%char host in
  let host := str_trim_end_matches (λ c, bool_decide (c = "]"%char)) host in
  host +:+ ":" +:+ pretty udp_port.

(** [resolve_peer], given the resolver of the standard library. *)
Definition resolve_peer (lookup : string → result (list SocketAddr) io_error)
    (server_addr : string) (udp_port : Z) : result SocketAddr io_error :=
  let target := peer_target server_addr udp_port in
  match lookup target with
  | Err e => Err e
  | Ok (a :: _) => Ok a
  | Ok [] => Err (io_other ("cannot resolve peer " +:+ target))
  end.

(** [normalize_listen_addr]; [trim] on ASCII white space. *)
Definition is_space (c : ascii) : bool :=
  let n := Ascii.nat_of_ascii c in (n =? 32)%nat || ((9 <=? n) && (n <=? 13))%nat.
Fixpoint str_trim_start (s : string) : string :=
  match s with
  | String c s' => if is_space c then str_trim_start s' else s
  | EmptyString => EmptyString
  end.
Definition str_trim (s : string) : string := str_trim_end_matches is_space (str_trim_start s).
Fixpoint all_digits (s : string) : bool :=
  match s with EmptyString => true | String c s' => is_digit c && all_digits s' end.
Definition normalize_listen_addr (addr : string) : string :=
  let a := str_trim addr in
  match before_last_colon a with
  | Some host => if bool_decide (host = "") then "0.0.0.0" +:+ a else a
  | None => if negb (bool_decide (a = "")) && all_digits a then "0.0.0.0:" +:+ a else a
  end.

(** [bind_data_socket], given [new_udp_socket] on a port; the range is its first and last
    port. *)
Fixpoint bind_range {S} (bind : Z → result S io_error) (port : Z) (n : nat) (last_err : io_error)
    : result S io_error :=
  match n with
  | O => Err last_err
  | S n' => match bind port with Ok s => Ok s | Err e => bind_range bind (port + 1) n' e end
  end.
Definition bind_data_socket {S} (bind : Z → result S io_error) (range : option (Z * Z)) : result S io_error :=
  match range with
  | None => bind 0
  | Some (lo, hi) =>
      bind_range bind lo (Z.to_nat (hi + 1 - lo)) (mkIoError AddrNotAvailable "no free port in UDP range")
  end.

(** ** Phases and results *)

Definition mark_phase (h : option TransferHandle) (p : TransferPhase) : option TransferHandle :=
  (λ h, set_phase h p) <$> h.
Definition mark_result {T} (h : option TransferHandle) (res : result T GirthError)
    : option TransferHandle * result T GirthError :=
  match res with
  | Ok _ => (h, res)
  | Err e => ((λ h, set_failed h (error_to_string e)) <$> h, res)
  end.

(** [reject_error]. *)
Definition reject_error (a : Ack) : GirthError :=
  if a_auth_required a then AuthDenied else from_server_err (a_err a).

(** [verify_server_auth]. *)
Definition verify_server_auth `{!HmacCrate} (auth_token client_mac : option (list byte)) (a : Ack)
    : result unit GirthError :=
  match auth_token, client_mac with
  | Some token, Some cmac =>
      match a_auth_mac a with
      | Some smac => if verify_server_mac token (a_session a) (default [] (a_pub_key a)) cmac smac
                     then Ok () else Err AuthDenied
      | None => Err AuthDenied
      end
  | _, _ => Ok ()
  end.

(** ** Warm starts *)

Definition warm_from_hello (h : Hello) : option RateWarmStart :=
  if negb (h_adaptive h) then None else
  let warm := mkRateWarmStart (h_warm_rate_bps h) (h_warm_srtt_net_us h) (h_warm_base_rtt_us h) in
  if warm_is_empty warm then None else Some warm.

Definition warm_for_params (p : TransferParams) (warm : option RateWarmStart) : option RateWarmStart :=
  if negb (tp_adaptive p) then None else
  match warm with Some w => if warm_is_empty w then None else Some w | None => None end.

(** ** Client sessions *)

(** [ClientSession], for streams of type [S]. *)
Record ClientSession (S : Type) := mkClientSession {
  cs_server_addr : string;
  cs_tcp : option S;
  cs_warm_start : RateWarmStart
}.
Arguments mkClientSession {S}.
Arguments cs_server_addr {S}.
Arguments cs_tcp {S}.
Arguments cs_warm_start {S}.

Definition session_new {S} (addr : string) : ClientSession S := mkClientSession addr None warm_default.

(** [ClientSession::connect]. *)
Definition session_connect {S} (connect : string → result S io_error) (addr : string)
    : result (ClientSession S) io_error :=
  match connect addr with
  | Err e => Err e
  | Ok s => Ok (mkClientSession addr (Some s) warm_default)
  end.

(** [get_or_connect] takes the stored stream, or connects. *)
Definition get_or_connect {S} (connect : string → result S io_error) (c : ClientSession S)
    : ClientSession S * result S io_error :=
  match cs_tcp c with
  | Some s => (mkClientSession (cs_server_addr c) None (cs_warm_start c), Ok s)
  | None => (c, connect (cs_server_addr c))
  end.

Definition put_stream {S} (c : ClientSession S) (s : S) : ClientSession S :=
  mkClientSession (cs_server_addr c) (Some s) (cs_warm_start c).

Definition warm_for {S} (c : ClientSession S) (p : TransferParams) : option RateWarmStart :=
  warm_for_params p (Some (cs_warm_start c)).

(** [record_warm_start]: the gauges of the finished transfer, where they are set. *)
Definition record_warm_start {S} (c : ClientSession S) (p : TransferParams) (stats : Stats) : ClientSession S :=
  if negb (tp_adaptive p) then c else
  let w := cs_warm_start c in
  let pick f old := if 0 <? stats f then stats f else old in
  mkClientSession (cs_server_addr c) (cs_tcp c)
    (mkRateWarmStart (pick target_rate_bps (rw_rate_bps w)) (pick srtt_net_us (rw_srtt_net_us w))
       (pick base_rtt_us (rw_base_rtt_us w))).

(** [send_from], [recv_into] and their variants with a handle share this shape: take a
    stream, run [core] on it with the session's warm start, and on success only record the
    warm start and give the stream back.  [core] returns the stream and the counters. *)
Definition session_run {S} (connect : string → result S io_error)
    (core : S → option TransferHandle → option RateWarmStart →
            S * Stats * option TransferHandle * result unit GirthError)
    (p : TransferParams) (c : ClientSession S) (handle : option TransferHandle)
    : ClientSession S * option TransferHandle * result unit GirthError :=
  let handle := mark_phase handle Connecting in
  let '(c, conn) := get_or_connect connect c in
  match conn with
  | Err e => (c, handle, Err (Io e))
  | Ok stream =>
      let '(stream, stats, handle, res) := core stream handle (warm_for c p) in
      let '(handle, res) := mark_result handle res in
      match res with
      | Ok _ => (put_stream (record_warm_start c p stats) stream, handle, res)
      | Err _ => (c, handle, res)
      end
  end.

(** ** Server limits *)

Record ServerLimits := mkServerLimits {
  sl_max_object_size : Z;
  sl_min_block_size : Z;
  sl_max_block_size : Z;
  sl_max_rate_bps : Z;
  sl_max_alpha_bps : Z;
  sl_max_concurrent_connections : Z
}.

(** [ServerLimits::default]. *)
Definition limits_default : ServerLimits :=
  mkServerLimits (Z.shiftl 1 40) 256 65455 100000000000 100000000000 256.

Definition MAX_WARM_RTT_US : Z := 60000000.

(** [a > b] messages. *)
Definition exceeds (what : string) (a b : Z) : result unit string :=
  Err (what +:+ ": " +:+ pretty a +:+ " > " +:+ pretty b).

(** [validate_hello_limits]; the checks in the order of the source. *)
Definition validate_hello_limits (h : Hello) (l : ServerLimits) : result unit string :=
  if negb (bool_decide (h_mode h = MODE_SEND) || bool_decide (h_mode h = MODE_RECV)) then Err "unknown mode" else
  if h_size h <? 0 then Err "negative size" else
  if bool_decide (h_mode h = MODE_SEND) && (sl_max_object_size l <? i64_as_u64 (h_size h))
  then exceeds "object too large" (h_size h) (sl_max_object_size l) else
  if h_block_size h <=? 0 then Err "invalid block size" else
  let block_size := i64_as_u64 (h_block_size h) in
  if (block_size <? sl_min_block_size l) || (sl_max_block_size l <? block_size)
  then Err ("block size out of range: " +:+ pretty block_size +:+ " (allowed " +:+
            pretty (sl_min_block_size l) +:+ "..=" +:+ pretty (sl_max_block_size l) +:+ ")") else
  if sl_max_rate_bps l <? h_rate_bps h then exceeds "rate too high" (h_rate_bps h) (sl_max_rate_bps l) else
  if sl_max_rate_bps l <? h_max_bps h then exceeds "max rate too high" (h_max_bps h) (sl_max_rate_bps l) else
  if sl_max_rate_bps l <? h_warm_rate_bps h
  then exceeds "warm rate too high" (h_warm_rate_bps h) (sl_max_rate_bps l) else
  if (MAX_WARM_RTT_US <? h_warm_srtt_net_us h) || (MAX_WARM_RTT_US <? h_warm_base_rtt_us h)
  then Err ("warm RTT too high: srtt=" +:+ pretty (h_warm_srtt_net_us h) +:+ " base=" +:+
            pretty (h_warm_base_rtt_us h) +:+ " max=" +:+ pretty MAX_WARM_RTT_US) else
  if (0 <? h_warm_srtt_net_us h) && (0 <? h_warm_base_rtt_us h) && (h_warm_srtt_net_us h <? h_warm_base_rtt_us h)
  then Err "warm base RTT exceeds warm SRTT" else
  if sl_max_alpha_bps l <? h_alpha_bps h then exceeds "alpha too high" (h_alpha_bps h) (sl_max_alpha_bps l) else
  if (0 <? h_max_bps h) && (h_max_bps h <? h_rate_bps h) then Err "rate exceeds max rate" else
  Ok ().

(** The parameters [handle_conn] runs a request with: the server's own, overridden. *)
Definition request_params (params : TransferParams) (h : Hello) : TransferParams :=
  mkTransferParams (i64_as_u64 (h_block_size h))
    (if 0 <? h_rate_bps h then h_rate_bps h else tp_rate_bps params)
    (if 0 <? h_max_bps h then h_max_bps h else tp_max_bps params)
    (h_adaptive h)
    (if 0 <? h_alpha_bps h then h_alpha_bps h else tp_alpha_bps params)
    (tp_read_workers params) (tp_feedback_interval_us params) (tp_net_tick_interval_us params)
    (tp_report_interval params) (tp_verbose params) (tp_encrypt params).

(** ** The accept loop *)

(** A turn of [listen_and_serve] that accepts a connection: whether it is served, and the
    number of connections being served; and the end of a served one. *)
Definition accept_conn (l : ServerLimits) (active : Z) : bool * Z :=
  if sl_max_concurrent_connections l <=? active then (false, active) else (true, wrap 64 (active + 1)).
Definition conn_ended (active : Z) : Z := wrap 64 (active - 1).

(** ** Names cannot leave the directory *)

Lemma split_slash_cons s : ∃ p ps, split_slash s = p :: ps.
Proof.
  destruct s as [|c s]; simpl; [by eexists _, _|]. destruct (bool_decide _); [by eexists _, _|].
  destruct (split_slash s); by eexists _, _.
Qed.

Lemma split_slash_app a b : split_slash (a +:+ String slash b) = split_slash a ++ split_slash b.
Proof.
  induction a as [|c a IH]; simpl; [done|]. destruct (bool_decide (c = slash)); [by rewrite IH|].
  rewrite IH. destruct (split_slash_cons a) as (p & ps & ->). done.
Qed.

Lemma split_slash_single s : has_char slash s = false → split_slash s = [s].
Proof.
  induction s as [|c s IH]; simpl; [done|]. intros [Hc Hs]%orb_false_iff. apply bool_decide_eq_false in Hc.
  rewrite bool_decide_eq_false_2 by congruence. by rewrite IH.
Qed.

Lemma ends_slash_app s : ends_slash s = true → ∃ t, s = t +:+ String slash EmptyString.
Proof.
  induction s as [|c s IH]; simpl; [done|]. destruct s as [|d s].
  - intros ->%bool_decide_eq_true. by exists "".
  - intros H. destruct (IH H) as [t ->]. by exists (String c t).
Qed.


Lemma components_snoc pieces n :
  keep_piece n = true →
  ∀ p ps, pieces = p :: ps →
  (if bool_decide (p = "") then [] else [p]) ++ filter (λ p, keep_piece p = true) (ps ++ [n]) =
  ((if bool_decide (p = "") then [] else [p]) ++ filter (λ p, keep_piece p = true) ps) ++ [n].
Proof.
  intros Hn p ps _. rewrite filter_app, <-app_assoc. do 2 f_equal. by rewrite filter_cons, decide_True by done.
Qed.

Lemma components_join dir n :
  dir ≠ "" → has_char slash n = false → keep_piece n = true →
  components (path_join dir n) = components dir ++ [n].
Proof.
  intros Hd Hs Hk. unfold path_join.
  assert (String.prefix "/" n = false) as ->.
  { destruct n as [|c n]; [done|]. simpl in Hs. apply orb_false_iff in Hs as [Hc%bool_decide_eq_false _].
    unfold slash in Hc. unfold String.prefix. by case_match. }
  rewrite bool_decide_eq_false_2 by done. cbn [orb]. unfold components.
  destruct (ends_slash dir) eqn:Ee.
  - destruct (ends_slash_app dir Ee) as [t ->]. rewrite string_app_assoc.
    change (String slash "" +:+ n) with (String slash n). rewrite !split_slash_app, (split_slash_single n) by done. simpl.
    destruct (split_slash_cons t) as (p & ps & ->). simpl. rewrite !filter_app, !filter_cons, !filter_nil.
    rewrite (decide_False (P := keep_piece "" = true)), (decide_True (P := keep_piece n = true)) by done.
    by rewrite app_nil_r, <-app_assoc.
  - change (dir +:+ "/" +:+ n) with (dir +:+ String slash n). rewrite split_slash_app, (split_slash_single n) by done.
    destruct (split_slash_cons dir) as (p & ps & E). rewrite E. simpl. by eapply components_snoc.
Qed.

(** The name a request is served under. *)
Lemma served_name_spec dir name :
  dir ≠ "" →
  match served_object_name name with
  | Ok n => n ≠ "" ∧ n ≠ "." ∧ n ≠ ".." ∧ has_char slash n = false ∧ has_char backslash n = false ∧
            components (path_join dir n) = components dir ++ [n]
  | Err e => e = mkIoError InvalidInput "invalid object name"
  end.
Proof.
  intros Hd. unfold served_object_name. set (b := basename name).
  destruct (bool_decide (b = "")) eqn:E1; [done|]. destruct (bool_decide (b = ".")) eqn:E2; [done|].
  destruct (bool_decide (b = "..")) eqn:E3; [done|]. destruct (has_char slash b) eqn:E4; [done|].
  destruct (has_char backslash b) eqn:E5; [done|]. cbn [orb].
  apply bool_decide_eq_false in E1, E2, E3. split_and!; try done. apply components_join; [done..|].
  unfold keep_piece. by rewrite !bool_decide_eq_false_2.
Qed.

(** Result: a served name stays in the served directory.  Whatever name a client sends, the
    name the server uses is a single path component, not empty, not [.] or [..], with no
    slash or backslash; so the path it opens is exactly one level below the directory, and
    every other name is refused before any file is touched. *)
Theorem served_name_contained dir name :
  dir ≠ "" →
  match served_object_name name with
  | Ok n => n ≠ "" ∧ n ≠ "." ∧ n ≠ ".." ∧ has_char slash n = false ∧ has_char backslash n = false ∧
            components (path_join dir n) = components dir ++ [n]
  | Err e => e = mkIoError InvalidInput "invalid object name"
  end.
Proof. apply served_name_spec. Qed.

Lemma served_name_contained_witness :
  match served_object_name "../../etc/passwd" with
  | Ok n => n ≠ "" ∧ n ≠ "." ∧ n ≠ ".." ∧ has_char slash n = false ∧ has_char backslash n = false ∧
            components (path_join "/srv/data" n) = components "/srv/data" ++ [n]
  | Err e => e = mkIoError InvalidInput "invalid object name"
  end.
Proof. apply (served_name_contained "/srv/data" "../../etc/passwd"). done. Defined.

(** ** Accepted requests *)

(** What the limits allow. *)
Definition acceptable (h : Hello) (l : ServerLimits) : Prop :=
  (h_mode h = MODE_SEND ∨ h_mode h = MODE_RECV) ∧
  0 ≤ h_size h ∧ (h_mode h = MODE_SEND → h_size h ≤ sl_max_object_size l) ∧
  0 < h_block_size h ∧ sl_min_block_size l ≤ h_block_size h ≤ sl_max_block_size l ∧
  h_rate_bps h ≤ sl_max_rate_bps l ∧ h_max_bps h ≤ sl_max_rate_bps l ∧
  h_warm_rate_bps h ≤ sl_max_rate_bps l ∧
  h_warm_srtt_net_us h ≤ MAX_WARM_RTT_US ∧ h_warm_base_rtt_us h ≤ MAX_WARM_RTT_US ∧
  (0 < h_warm_srtt_net_us h → 0 < h_warm_base_rtt_us h → h_warm_base_rtt_us h ≤ h_warm_srtt_net_us h) ∧
  h_alpha_bps h ≤ sl_max_alpha_bps l ∧
  (0 < h_max_bps h → h_rate_bps h ≤ h_max_bps h).

(** A guard of a chain of checks. *)
Lemma guard_ok {E} (b : bool) (e : E) (r : result unit E) :
  (if b then Err e else r) = Ok () ↔ b = false ∧ r = Ok ().
Proof. destruct b; naive_solver. Qed.

Lemma validate_spec h l : wf_hello h → validate_hello_limits h l = Ok () ↔ acceptable h l.
Proof.
  intros (_ & Hsz & Hbs & _).
  assert (∀ z, is_i64 z → 0 ≤ z → i64_as_u64 z = z) as Hcast.
  { intros z [? ?] ?. unfold i64_as_u64. apply wrap_small. unfold is_uint. lia. }
  unfold validate_hello_limits, exceeds, acceptable. cbv zeta. rewrite !guard_ok.
  rewrite !orb_false_iff, negb_false_iff, orb_true_iff, !bool_decide_eq_true.
  rewrite !andb_false_iff, !Z.ltb_ge, Z.leb_gt, !bool_decide_eq_false.
  split.
  - intros (Hm & H1 & H2 & H3 & H4 & H5 & H6 & H7 & H8 & H9 & H10 & H11 & _).
    rewrite (Hcast (h_size h)) in H2 by done. rewrite !(Hcast (h_block_size h)) in H4 by (done || lia).
    split; [done|]. split; [done|]. split; [intros ?; destruct H2; [done|done]|]. split; [done|]. split; [lia|].
    split; [done|]. split; [done|]. split; [done|]. split; [lia|]. split; [lia|]. split; [lia|]. split; [done|]. lia.
  - intros (Hm & H1 & H2 & H3 & H4 & H5 & H6 & H7 & H8 & H9 & H10 & H11 & H12).
    rewrite (Hcast (h_size h)) by done. rewrite !(Hcast (h_block_size h)) by (done || lia).
    split; [done|]. split; [done|].
    split; [destruct (decide (h_mode h = MODE_SEND)); [right; by apply H2|by left]|].
    split; [done|]. split; [lia|]. split; [done|]. split; [done|]. split; [done|]. split; [lia|].
    split; [lia|]. split; [done|]. split; [lia|done].
Qed.

(** Result: the server accepts exactly the requests within its limits: for a well-typed Hello,
    the chain of checks passes if and only if the mode is known, the size is not negative
    (and a pushed object no larger than allowed), the block size is in the allowed range,
    the rates, the increment and the warm-start values are below their caps, the warm base
    RTT is not above the warm SRTT, and the rate is not above a given maximum. *)
Theorem validate_hello_exact h l : wf_hello h → validate_hello_limits h l = Ok () ↔ acceptable h l.
Proof. apply validate_spec. Qed.

Definition demo_hello : Hello :=
  mkHello 1 "send" "file.bin" 7 256 1000000 0 false 0 0 0 0 0 false None None None.

Lemma validate_hello_exact_witness : validate_hello_limits demo_hello limits_default = Ok () ↔
  acceptable demo_hello limits_default.
Proof.
  apply (validate_hello_exact demo_hello limits_default). unfold wf_hello, is_i64, is_uint. simpl. lia.
Defined.

(** ** Sessions *)

(** Result: a session keeps its control connection only across successes.  After a transfer that
    succeeded, the next one finds the stream it ended with and, in adaptive mode, the rate
    and RTTs that transfer measured; after one that failed the stream is dropped, so the
    next transfer reconnects, and the recorded warm start is unchanged; and an error of the
    transfer itself is recorded in the handle. *)
Theorem session_reuse {S} connect core p (c : ClientSession S) handle c' handle' res :
  session_run connect core p c handle = (c', handle', res) →
  cs_server_addr c' = cs_server_addr c ∧
  match res with
  | Ok _ => ∃ s0 s1 stats h0 h1, core s0 h0 (warm_for c p) = (s1, stats, h1, Ok ()) ∧
      (cs_tcp c = Some s0 ∨ cs_tcp c = None ∧ connect (cs_server_addr c) = Ok s0) ∧
      (get_or_connect connect c').2 = Ok s1 ∧
      (tp_adaptive p = true → 0 < stats target_rate_bps →
       rw_rate_bps (cs_warm_start c') = stats target_rate_bps) ∧
      (tp_adaptive p = false → cs_warm_start c' = cs_warm_start c)
  | Err _ => cs_tcp c' = None ∧ cs_warm_start c' = cs_warm_start c
  end.
Proof.
  unfold session_run, get_or_connect. intros E. destruct (cs_tcp c) as [s0|] eqn:Et; cbn [fst snd] in E.
  - destruct (core s0 _ _) as [[[s1 stats] h1] r] eqn:Ec. unfold warm_for in Ec. simpl in Ec.
    unfold mark_result in E. destruct r as [[]|e]; simplify_eq.
    + unfold record_warm_start. destruct (tp_adaptive p) eqn:Ea; cbn [negb]; simpl; (split; [done|]).
      * eexists s0, s1, stats, _, _. split; [exact Ec|]. split; [by left|]. split; [done|]. split; [|done].
        intros _ Hr. by rewrite (proj2 (Z.ltb_lt _ _)).
      * eexists s0, s1, stats, _, _. split; [exact Ec|]. split; [by left|]. done.
    + done.
  - destruct (connect (cs_server_addr c)) as [s0|e] eqn:Ecn; [|by simplify_eq].
    destruct (core s0 _ _) as [[[s1 stats] h1] r] eqn:Ec. unfold mark_result in E. destruct r as [[]|e]; simplify_eq.
    + unfold record_warm_start. destruct (tp_adaptive p) eqn:Ea; cbn [negb]; simpl; (split; [done|]).
      * eexists s0, s1, stats, _, _. split; [exact Ec|]. split; [by right|]. split; [done|]. split; [|done].
        intros _ Hr. by rewrite (proj2 (Z.ltb_lt _ _)).
      * eexists s0, s1, stats, _, _. split; [exact Ec|]. split; [by right|]. done.
    + done.
Qed.

Definition demo_connect (addr : string) : result nat io_error := Ok 1%nat.
Definition demo_core (s : nat) (h : option TransferHandle) (w : option RateWarmStart)
    : nat * Stats * option TransferHandle * result unit GirthError :=
  (s, stats_default, h, Err Integrity).

Lemma session_reuse_witness :
  cs_tcp (session_run demo_connect demo_core default_params (session_new "srv:7400") None).1.1 = None.
Proof.
  destruct (session_run demo_connect demo_core default_params (session_new "srv:7400") None) as [[c' h'] res] eqn:E.
  pose proof (session_reuse demo_connect demo_core default_params (session_new "srv:7400") None c' h' res E)
    as [_ Hr]. simpl in *. injection E as <- <- <-. exact (proj1 Hr).
Defined.

(** C39: a connection error escapes the handle.  When the session must connect and cannot,
    the call returns the error, but the caller's handle is left in the phase [Connecting]
    with no error recorded, although the transfer is over. *)
Theorem session_connect_error_unmarked {S} connect core p (c : ClientSession S) h e :
  cs_tcp c = None → connect (cs_server_addr c) = Err e →
  session_run connect core p c (Some h) = (c, Some (set_phase h Connecting), Err (Io e)) ∧
  handle_phase (set_phase h Connecting) = Connecting ∧ th_last_error (set_phase h Connecting) = None.
Proof. intros Ht Hc. unfold session_run, get_or_connect. rewrite Ht, Hc. done. Qed.

Lemma session_connect_error_unmarked_witness :
  session_run (S := nat) (λ _, Err (io_other "refused")) demo_core default_params (session_new "srv:7400")
    (Some handle_default) = (session_new "srv:7400", Some (set_phase handle_default Connecting), Err (Io (io_other "refused"))) ∧
  handle_phase (set_phase handle_default Connecting) = Connecting ∧
  th_last_error (set_phase handle_default Connecting) = None.
Proof.
  apply (session_connect_error_unmarked (λ _, Err (io_other "refused")) demo_core default_params
           (session_new "srv:7400") handle_default (io_other "refused")); reflexivity.
Defined.
