(* ===== verification/Served.v ===== *)
(** * Opening served objects (src/transfer.rs [open_served_source], [open_served_sink])

    The two ways in which a served object is opened without following a symbolic link: the
    flag [O_NOFOLLOW] where the system has it, a look at the path before opening it
    elsewhere.  The file system is an interface with the documented behaviour of opening a
    path; other processes may change it between the look and the opening. *)

From S2P Require Import Prelude Errors Control Transfer.

(** ** The file system *)

Inductive kind := Regular | Directory | Symlink | Special.

Global Instance kind_eq_dec : EqDecision kind.
Proof. solve_decision. Defined.

(** [std::fs::OpenOptions] with the custom flag. *)
Record OpenOptions := mkOpenOptions {
  oo_read : bool; oo_write : bool; oo_create : bool; oo_truncate : bool; oo_no_follow : bool
}.

(** A state [F]: the node an entry names, the entry itself not followed ([lstat]); what a node
    is; opening a path. *)
Class FileSystem (F node : Type) := {
  fs_entry : F → string → option node;
  fs_kind : F → node → kind;
  fs_open : OpenOptions → string → F → F * result node io_error
}.

(** What [open(2)] and [OpenOptions::open] document: without [truncate], opening an existing entry
    that is no symbolic link gives that entry and changes no entry; [O_NOFOLLOW] refuses a symbolic link;
    a missing entry is created, as a regular file and alone, or refused; a refused opening changes no entry.
    Entries are named by canonical path strings: the server opens only its directory joined with one
    plain name, so two names it can open are never spellings of one entry. *)
Class FileSystemLaws (F node : Type) `{!FileSystem F node} : Prop := {
  fs_open_plain o p (fs fs' : F) (i j : node) : oo_truncate o = false →
    fs_entry fs p = Some i → fs_kind fs i ≠ Symlink → fs_open o p fs = (fs', Ok j) → j = i ∧ fs' = fs;
  fs_open_nofollow o p (fs : F) (i : node) : oo_no_follow o = true → fs_entry fs p = Some i → fs_kind fs i = Symlink →
    ∃ e, fs_open o p fs = (fs, Err e);
  fs_open_create o p (fs fs' : F) (i : node) : fs_entry fs p = None → fs_open o p fs = (fs', Ok i) →
    oo_create o = true ∧ fs_entry fs' p = Some i ∧ fs_kind fs' i = Regular ∧ ∀ q, q ≠ p → fs_entry fs' q = fs_entry fs q;
  fs_open_failed o p (fs fs' : F) e : fs_open o p fs = (fs', Err e) → ∀ q, fs_entry fs' q = fs_entry fs q
}.

(** ** The operations *)

Section served.
Context {F node : Type} `{!FileSystem F node}.

(** [apply_no_follow]: on unix, and elsewhere. *)
Definition apply_no_follow (unix : bool) (o : OpenOptions) : OpenOptions :=
  if unix then mkOpenOptions (oo_read o) (oo_write o) (oo_create o) (oo_truncate o) true else o.

(** [reject_symlink_candidate]: nothing on unix; elsewhere a look at the entry, whose failure is let pass
    ([lstat_fails] is the system's answer). *)
Definition reject_symlink_candidate (unix lstat_fails : bool) (fs : F) (path : string) : result unit io_error :=
  if unix then Ok () else
  match fs_entry fs path with
  | Some i => if negb lstat_fails && bool_decide (fs_kind fs i = Symlink)
              then Err (io_other "refusing to follow served-object symlink") else Ok ()
  | None => Ok ()
  end.

Definition source_options : OpenOptions := mkOpenOptions true false false false false.
Definition sink_options : OpenOptions := mkOpenOptions true true true false false.

(** The look at the path in state [checked], the opening in state [opened], the answer of
    [metadata]: what [open_served] of the server is given, and the state after. *)
Definition open_os (unix lstat_fails : bool) (meta : option io_error) (o : OpenOptions) (checked opened : F) (path : string)
    : F * result (node * bool) io_error :=
  match reject_symlink_candidate unix lstat_fails checked path with
  | Err e => (opened, Err e)
  | Ok _ =>
      let '(fs, r) := fs_open (apply_no_follow unix o) path opened in
      match r, meta with
      | Err e, _ | Ok _, Some e => (fs, Err e)
      | Ok i, None => (fs, Ok (i, bool_decide (fs_kind fs i = Regular)))
      end
  end.

Definition open_served_source (unix lstat_fails : bool) (meta : option io_error) (checked opened : F) (dir name : string)
    : F * result node io_error :=
  ((open_os unix lstat_fails meta source_options checked opened (path_join dir name)).1,
   open_served (λ path, (open_os unix lstat_fails meta source_options checked opened path).2) dir name).
Definition open_served_sink (unix lstat_fails : bool) (meta : option io_error) (checked opened : F) (dir name : string)
    : F * result node io_error :=
  ((open_os unix lstat_fails meta sink_options checked opened (path_join dir name)).1,
   open_served (λ path, (open_os unix lstat_fails meta sink_options checked opened path).2) dir name).

(** The entry at a path is what it was, and its kind could be read. *)
Definition undisturbed (lstat_fails : bool) (checked opened : F) (path : string) : Prop :=
  lstat_fails = false ∧ fs_entry checked path = fs_entry opened path ∧
  ∀ i, fs_entry opened path = Some i → fs_kind checked i = fs_kind opened i.

Context `{!FileSystemLaws F node}.

(** When the opening succeeds, the entry was no symbolic link. *)
Lemma open_os_entry unix lstat_fails meta o checked opened path fs i reg :
  oo_truncate o = false → unix = true ∨ undisturbed lstat_fails checked opened path →
  open_os unix lstat_fails meta o checked opened path = (fs, Ok (i, reg)) →
  fs_entry fs path = Some i ∧ reg = bool_decide (fs_kind fs i = Regular) ∧
  (∀ q, q ≠ path → fs_entry fs q = fs_entry opened q) ∧
  match fs_entry opened path with Some j => j = i ∧ fs = opened | None => oo_create o = true end.
Proof.
  intros Ht Hu. unfold open_os. destruct (reject_symlink_candidate _ _ _ _) as [[]|e] eqn:Er; [|done].
  destruct (fs_open _ path opened) as [fs1 [j|e]] eqn:Eo; [|done]. destruct meta; [done|]. intros [= -> -> <-].
  destruct (fs_entry opened path) as [k|] eqn:Ee.
  - assert (fs_kind opened k ≠ Symlink) as Hk.
    { destruct unix.
      - intros Hk. edestruct (fs_open_nofollow (apply_no_follow true o) path opened k) as [e E]; [done..|]. by rewrite Eo in E.
      - destruct Hu as [|(-> & Hc & Hkind)]; [done|]. simpl in Er. rewrite Hc, Ee, Hkind in Er by done. simpl in Er.
        by case_bool_decide. }
    edestruct (fs_open_plain (apply_no_follow unix o) path opened fs k i) as [-> ->]; [by destruct unix|done..|].
    split; [done|]. split; [done|]. by split.
  - destruct (fs_open_create _ _ _ _ _ Ee Eo) as (Hc & ? & _ & ?). split; [done|]. split; [done|]. split; [done|]. by destruct unix.
Qed.

Lemma open_served_ok (open : string → F * result (node * bool) io_error) dir name i :
  open_served (λ path, (open path).2) dir name = Ok i → (open (path_join dir name)).2 = Ok (i, true).
Proof. unfold open_served. destruct (open (path_join dir name)) as [fs [[j []]|e]]; by intros [= <-]. Qed.

End served.

(** C22: a served object is never opened through a symbolic link.  On unix whatever other processes
    do, and elsewhere when the entry is not exchanged between the look and the opening: a
    source that opens is the regular file at that very entry of the served directory, and
    nothing changes; a sink that opens is a regular file at that entry, which it created if there was
    none, and no other entry changes. *)
Theorem served_never_follows {F node} `{!FileSystem F node, !FileSystemLaws F node}
    unix lstat_fails meta (checked opened : F) dir name :
  unix = true ∨ undisturbed lstat_fails checked opened (path_join dir name) →
  (∀ fs i, open_served_source unix lstat_fails meta checked opened dir name = (fs, Ok i) →
     fs = opened ∧ fs_entry opened (path_join dir name) = Some i ∧ fs_kind opened i = Regular) ∧
  (∀ fs i, open_served_sink unix lstat_fails meta checked opened dir name = (fs, Ok i) →
     fs_entry fs (path_join dir name) = Some i ∧ fs_kind fs i = Regular ∧
     (fs_entry opened (path_join dir name) = None ∨ fs = opened) ∧
     ∀ q, q ≠ path_join dir name → fs_entry fs q = fs_entry opened q).
Proof.
  intros Hu. assert (∀ o fs i, oo_truncate o = false →
    (open_os unix lstat_fails meta o checked opened (path_join dir name)).1 = fs →
    open_served (λ path, (open_os unix lstat_fails meta o checked opened path).2) dir name = Ok i →
    fs_kind fs i = Regular ∧ fs_entry fs (path_join dir name) = Some i ∧
    (∀ q, q ≠ path_join dir name → fs_entry fs q = fs_entry opened q) ∧
    match fs_entry opened (path_join dir name) with Some j => j = i ∧ fs = opened | None => oo_create o = true end) as Hopen.
  { intros o fs i Ht Hf Ei%open_served_ok.
    destruct (open_os_entry unix lstat_fails meta o checked opened (path_join dir name) fs i true) as (He & Hr & Ho & Hm); [done|done| |].
    - by destruct (open_os _ _ _ _ _ _ _); simpl in *; subst.
    - split; [by apply (bool_decide_eq_true_1 _)|]. by split_and!. }
  split; intros fs i [= Hf Hi];
    (edestruct Hopen as (Hk & He & Ho & Hm); [|exact Hf|exact Hi|]; [done|]).
  - destruct (fs_entry opened _) as [j|]; [|done]. by destruct Hm as [-> ->].
  - split; [done|]. split; [done|]. split; [|done]. destruct (fs_entry opened _) as [j|]; [right; apply Hm|by left].
Qed.

(** ** A small file system *)

Inductive toy_entry := TFile | TDir | TLink (target : string).
#[local] Abbreviation toy_fs := (gmap string toy_entry).

#[local] Instance toy_file_system : FileSystem toy_fs string := {|
  fs_entry fs p := match fs !! p with Some _ => Some p | None => None end;
  fs_kind fs p := match fs !! p with Some TFile => Regular | Some TDir => Directory | Some (TLink _) => Symlink | None => Special end;
  fs_open o p fs :=
    match fs !! p with
    | Some (TLink t) =>
        if oo_no_follow o then (fs, Err (io_other "Too many levels of symbolic links (os error 40)")) else
        match fs !! t with
        | Some TFile => (fs, Ok t)
        | _ => (fs, Err (mkIoError NotFoundKind "No such file or directory (os error 2)"))
        end
    | Some _ => (fs, Ok p)
    | None => if oo_create o then (<[p := TFile]> fs, Ok p)
              else (fs, Err (mkIoError NotFoundKind "No such file or directory (os error 2)"))
    end
|}.

#[local] Instance toy_file_system_laws : FileSystemLaws toy_fs string.
Proof.
  split; unfold fs_entry, fs_kind, fs_open, toy_file_system.
  - intros o p fs fs' i j _ He Hk Ho. destruct (fs !! p) as [[]|] eqn:E; simplify_eq; try done. by rewrite E in Hk.
  - intros o p fs i Hn He Hk. destruct (fs !! p) as [[]|] eqn:E; simplify_eq; try by rewrite E in Hk. rewrite Hn. by eexists.
  - intros o p fs fs' i He Ho. destruct (fs !! p); [done|]. destruct (oo_create o); simplify_eq. rewrite lookup_insert_eq.
    split_and!; try done. intros q Hq. by rewrite lookup_insert_ne.
  - intros o p fs fs' e Ho q. by repeat case_match; simplify_eq.
Qed.

(** A directory with a file, and a link out of it. *)
Definition demo_fs : toy_fs := <["srv/f" := TFile]> (<["srv/l" := TLink "etc"]> (<["etc" := TFile]> ∅)).

Lemma served_never_follows_witness :
  open_served_source true false None demo_fs demo_fs "srv" "f" = (demo_fs, Ok "srv/f") ∧
  fs_kind demo_fs "srv/f" = Regular.
Proof.
  assert (open_served_source true false None demo_fs demo_fs "srv" "f" = (demo_fs, Ok "srv/f")) as E by (vm_compute; reflexivity).
  split; [exact E|]. exact (proj2 (proj2 (proj1 (served_never_follows true false None demo_fs demo_fs "srv" "f" (or_introl eq_refl)) _ _ E))).
Defined.

(** Both platforms refuse the link; where the system has no [O_NOFOLLOW], an entry exchanged for a link
    after the look is followed. *)
Example demo_links :
  (∃ e, (open_served_source true false None demo_fs demo_fs "srv" "l").2 = Err e) ∧
  (∃ e, (open_served_source false false None demo_fs demo_fs "srv" "l").2 = Err e) ∧
  (open_served_source false false None demo_fs (<["srv/f" := TLink "etc"]> demo_fs) "srv" "f").2 = Ok "etc".
Proof. split; [by eexists|]. split; [by eexists|]. vm_compute. reflexivity. Qed.
