(* ===== verification/Os.v ===== *)
(** * Sockets, files and signals (src/sys/mod.rs, src/sys/linux.rs, src/sys/portable.rs, src/io.rs)

    Where the program meets the operating system outside its data path: creating and binding
    the data socket, opening and preallocating files, the receive engine of each platform,
    the termination flag.  What the system answers is an argument. *)

From S2P Require Import Prelude Errors Net BlockIO SockAddr Udp Rio Transfer.

(** ** Data sockets *)

(** What the system answers: the creation of a plain socket, that of a registered one
    (Windows), whether it takes the options, and the port a bind ends up with. *)
Record sock_kernel := mkSockKernel {
  so_create : result unit io_error;
  so_wsa_socket : result unit io_error;
  so_recv_buffer : bool;
  so_send_buffer : bool;
  so_read_timeout : bool;
  so_bind : Z → result Z io_error
}.

Record UdpSock := mkUdpSock {
  us_registered : bool;
  us_recv_buffer : option Z;
  us_send_buffer : option Z;
  us_read_timeout_ms : option Z;
  us_local : SocketAddr
}.

(** The buffers and the timeout are best effort; the bind is to any local address. *)
Definition configure_socket (registered : bool) (k : sock_kernel) (port : Z) : result UdpSock io_error :=
  match so_bind k port with
  | Ok p =>
      Ok (mkUdpSock registered
            (if so_recv_buffer k then Some (Z.shiftl 64 20) else None)
            (if so_send_buffer k then Some (Z.shiftl 64 20) else None)
            (if so_read_timeout k then Some 25 else None)
            (mkSocketAddr (V4 0) p 0 0))
  | Err e => Err e
  end.

(** [new_udp_socket], off Windows and on it. *)
Definition new_udp_socket (k : sock_kernel) (port : Z) (rio : bool) : result UdpSock io_error :=
  match so_create k with Err e => Err e | Ok _ => configure_socket false k port end.
Definition new_udp_socket_windows (k : sock_kernel) (port : Z) (rio : bool) : result UdpSock io_error :=
  if negb rio then match so_create k with Err e => Err e | Ok _ => configure_socket false k port end
  else match so_wsa_socket k with Err e => Err e | Ok _ => configure_socket true k port end.

(** [local_udp_port], from what [local_addr] answers. *)
Definition local_udp_port (local : result SocketAddr io_error) : Z :=
  match local with Ok a => sa_port a | Err _ => 0 end.

(** The data socket of a server: [bind_data_socket] over [new_udp_socket]. *)
Definition data_socket (windows : bool) (k : sock_kernel) (range : option (Z * Z)) (rio : bool) : result UdpSock io_error :=
  bind_data_socket (λ port, if windows then new_udp_socket_windows k port rio else new_udp_socket k port rio) range.

(** ** Files *)

(** [File::open] and [metadata]: the system may refuse either. *)
Definition file_source_open (fs : gmap string (list byte)) (path : string) (refused meta : option io_error)
    : result FileSource io_error :=
  match refused, fs !! path with
  | Some e, _ => Err e
  | None, None => Err (mkIoError NotFoundKind "No such file or directory (os error 2)")
  | None, Some f => match meta with Some e => Err e | None => Ok (file_source_from_file f) end
  end.

(** [FileSink::create]: an existing file keeps its bytes. *)
Definition file_sink_create (fs : gmap string (list byte)) (path : string) (refused : option io_error) (dev : device)
    : gmap string (list byte) * result FileSink io_error :=
  match refused with
  | Some e => (fs, Err e)
  | None =>
      match fs !! path with
      | Some f => (fs, Ok (file_sink_from_file f dev))
      | None => (<[path := []]> fs, Ok (file_sink_from_file [] dev))
      end
  end.

(** [fallocate] on Linux ([None] is success), which extends the file and keeps its bytes, and
    elsewhere. *)
Definition fallocate_linux (f : list byte) (size : Z) (errno : option io_error) : list byte * result unit io_error :=
  match errno with
  | None => (if Z.of_nat (length f) <? size then vec_resize f (Z.to_nat size) else f, Ok ())
  | Some e => (f, Err e)
  end.
Definition fallocate_portable (f : list byte) (size : Z) : list byte * result unit io_error :=
  (f, Err (mkIoError Unsupported "fallocate unsupported on this platform")).

(** [FileSink::allocate] over a platform's [fallocate], with the device's answer to [set_len]. *)
Definition allocate_os (fallocate : list byte → Z → list byte * result unit io_error)
    (k : FileSink) (len : Z) : FileSink * result unit io_error :=
  let size := u64_as_i64 len in
  let f := if 0 <? size then (fallocate (fk_file k) size).1 else fk_file k in
  match next_answer k with
  | None => (mkFileSink (file_set_len f len) len (tail (fk_device k)), Ok ())
  | Some (_, e) => (mkFileSink f len (tail (fk_device k)), Err e)
  end.

(** [MemSource::new]; the ways to the bytes of a [MemSink]. *)
Definition mem_source_new (data : list byte) : MemSource := mkMemSource data.
Definition with_bytes {R} (k : MemSink) (f : list byte → R) : R := f (mk_buf k).
Definition to_vec (k : MemSink) : list byte := mk_buf k.
Definition into_vec (k : MemSink) : list byte := mk_buf k.

(** ** Receive engines *)

(** [RecvEngine::worker] of the portable engine (the Linux one is [Udp.engine_worker], the
    Windows one is made by [Rio.rio_new]). *)
Definition portable_worker (buf_len : nat) : PortableReceiver := portable_receiver_new buf_len.

(** [FeedbackSender::send_to] off Windows: the socket itself ([None] is success).  The datagram
    on the wire, and the answer. *)
Definition feedback_send_to (refused : option io_error) (buf : list byte) (peer : SocketAddr)
    : option (list byte * SocketAddr) * result nat io_error :=
  match refused with
  | None => (Some (buf, peer), Ok (length buf))
  | Some e => (None, Err e)
  end.

(** ** Termination *)

(** The static [SIGNALLED], the flag handed out, and whether the polling thread still runs. *)
Record Termination := mkTermination { tm_signalled : bool; tm_stop : bool; tm_polling : bool }.

(** A signal (or console event) reaches the handler [arm_signals] installed; the thread looks. *)
Inductive term_event := Signal | Poll.
Definition on_signal (t : Termination) : Termination := mkTermination true (tm_stop t) (tm_polling t).
Definition poll_signalled (t : Termination) : Termination :=
  if tm_polling t && tm_signalled t then mkTermination true true false else t.
Definition install_termination_handler (signalled : bool) : Termination := mkTermination signalled false true.
Definition term_run (es : list term_event) (t : Termination) : Termination :=
  foldl (λ t e, match e with Signal => on_signal t | Poll => poll_signalled t end) t es.

(** ** The socket is the one asked for *)

Definition opened (windows rio : bool) (k : sock_kernel) : result unit io_error :=
  if windows && rio then so_wsa_socket k else so_create k.

(** Either platform, in one. *)
Lemma new_socket_eq (windows rio : bool) k port :
  (if windows then new_udp_socket_windows k port rio else new_udp_socket k port rio) =
  match opened windows rio k with Err e => Err e | Ok _ => configure_socket (windows && rio) k port end.
Proof. unfold opened, new_udp_socket_windows, new_udp_socket. by destruct windows, rio. Qed.

(** The first port of a range that binds. *)
Lemma bind_range_first {S} (bind : Z → result S io_error) n : ∀ port e0,
  match bind_range bind port n e0 with
  | Ok s => ∃ p, port ≤ p < port + n ∧ bind p = Ok s ∧ ∀ q, port ≤ q < p → ∃ e, bind q = Err e
  | Err _ => ∀ q, port ≤ q < port + n → ∃ e, bind q = Err e
  end.
Proof.
  induction n as [|n IH]; intros port e0; cbn [bind_range]; [lia|].
  destruct (bind port) as [s|e] eqn:E; [exists port; split_and!; [lia|lia|done|lia]|].
  specialize (IH (port + 1) e). destruct (bind_range bind (port + 1) n e) as [s|e'].
  - destruct IH as (p & Hp & Hb & Hq). exists p. split_and!; [lia|lia|done|].
    intros q Hq'. destruct (decide (q = port)) as [->|]; [by exists e|apply Hq; lia].
  - intros q Hq. destruct (decide (q = port)) as [->|]; [by exists e|apply IH; lia].
Qed.

(** Result: a server's data socket honours the port range.  If the system binds a port that is
    asked for, the socket is bound to the lowest port of the range that the system gives out,
    on any local address, and is registered for RIO exactly when a Windows receiver asked;
    there is an error only when no socket could be created or every port of the range is
    refused. *)
Theorem data_socket_in_range windows k lo hi rio :
  0 < lo → (∀ p q, so_bind k p = Ok q → p ≠ 0 → q = p) →
  match data_socket windows k (Some (lo, hi)) rio with
  | Ok s =>
      us_registered s = windows && rio ∧ sa_ip (us_local s) = V4 0 ∧ lo ≤ sa_port (us_local s) ≤ hi ∧
      local_udp_port (Ok (us_local s)) = sa_port (us_local s) ∧
      ∀ p, lo ≤ p < sa_port (us_local s) → ∃ e, so_bind k p = Err e
  | Err _ => (∃ e, opened windows rio k = Err e) ∨ ∀ p, lo ≤ p ≤ hi → ∃ e, so_bind k p = Err e
  end.
Proof.
  intros Hlo Hk. unfold data_socket, bind_data_socket.
  set (b := λ port : Z, _). set (e0 := mkIoError AddrNotAvailable _).
  pose proof (bind_range_first b (Z.to_nat (hi + 1 - lo)) lo e0) as Hr.
  assert (∀ p, b p = match opened windows rio k with Err e => Err e | Ok _ => configure_socket (windows && rio) k p end) as Hb
    by (intros; apply new_socket_eq).
  destruct (opened windows rio k) as [[]|e] eqn:Eo.
  - assert (∀ p, (∃ e, b p = Err e) → ∃ e, so_bind k p = Err e) as Herr.
    { intros p [e He]. rewrite Hb in He. unfold configure_socket in He. destruct (so_bind k p) eqn:Ep; [done|by eexists]. }
    destruct (bind_range b lo _ e0) as [s|e].
    + destruct Hr as (p & Hp & Es & Hq). rewrite Hb in Es. unfold configure_socket in Es.
      destruct (so_bind k p) as [q|] eqn:Ep; [|done]. injection Es as <-. rewrite (Hk p q Ep) by lia. simpl.
      split_and!; try done; [lia|lia|]. intros p' Hp'. apply Herr, Hq. lia.
    + right. intros p Hp. apply Herr, Hr. lia.
  - destruct (bind_range b lo _ e0) as [s|e']; [|left; by exists e]. destruct Hr as (p & _ & Es & _). by rewrite Hb in Es.
Qed.

(** ** A file sink starts at its size *)

Lemma vec_resize_extend f (n : nat) :
  vec_resize (if Z.of_nat (length f) <? n then vec_resize f n else f) n = vec_resize f n.
Proof.
  destruct (Z.ltb_spec (length f) n); [|done]. unfold vec_resize. by rewrite resize_idemp.
Qed.

(** Result: whatever [fallocate] answers, on any platform, when [set_len] succeeds the sink is the
    one the receiver's theorems are about. *)
Lemma allocate_os_ok k len errno :
  0 ≤ len < 2 ^ 63 → next_answer k = None →
  allocate_os (λ f n, fallocate_linux f n errno) k len = file_allocate k len ∧
  allocate_os fallocate_portable k len = file_allocate k len.
Proof.
  intros Hl Hd. unfold allocate_os, file_allocate, file_set_len. rewrite Hd. split; [|by destruct (0 <? _)].
  assert (u64_as_i64 len = len) as -> by (apply u64_as_i64_small; lia).
  destruct (Z.ltb_spec 0 len); [|done]. destruct errno as [e|]; cbn [fallocate_linux fst]; [done|].
  pose proof (vec_resize_extend (fk_file k) (Z.to_nat len)) as E. rewrite Z2Nat.id in E by lia. by rewrite E.
Qed.

(** Result: the file of an earlier transfer does no harm.  [FileSink::create] keeps the bytes of an
    existing file; after [allocate], on Linux or elsewhere and whatever [fallocate] answers,
    the file has exactly the length of the object: the old bytes up to it and zeros beyond,
    nothing of a longer file left.  When [set_len] fails the error is returned. *)
Theorem file_sink_sized fs path errno len dev fs' k :
  0 ≤ len < 2 ^ 63 → file_sink_create fs path None dev = (fs', Ok k) →
  ∃ old, fs' !! path = Some old ∧ fk_file k = old ∧ (∀ f, fs !! path = Some f → old = f) ∧
    ∀ alloc, alloc = (λ f n, fallocate_linux f n errno) ∨ alloc = fallocate_portable →
      (next_answer k = None →
       ∃ k', allocate_os alloc k len = (k', Ok ()) ∧ length (fk_file k') = Z.to_nat len ∧
         take (length old) (fk_file k') = take (Z.to_nat len) old ∧
         ∀ i, (length old ≤ i < Z.to_nat len)%nat → fk_file k' !! i = Some x00) ∧
      ∀ m e, next_answer k = Some (m, e) → (allocate_os alloc k len).2 = Err e.
Proof.
  intros Hl Hc. assert (∃ old, fs' !! path = Some old ∧ fk_file k = old ∧ ∀ f, fs !! path = Some f → old = f) as (old & H1 & H2 & H3).
  { unfold file_sink_create in Hc. destruct (fs !! path) as [f|] eqn:E; injection Hc as <- <-.
    - exists f. split_and!; [done|done|]. by intros f' [= ->].
    - exists []. split_and!; [by rewrite lookup_insert_eq|done|done]. }
  exists old. split_and!; [done|done|done|]. intros alloc Ha.
  split; [intros Hd|by intros m e Hd; unfold allocate_os; rewrite Hd].
  assert (allocate_os alloc k len = file_allocate k len) as ->.
  { destruct (allocate_os_ok k len errno Hl Hd). by destruct Ha as [->| ->]. }
  unfold file_allocate. rewrite Hd. eexists. split; [done|]. cbn [fk_file]. unfold file_set_len, vec_resize. rewrite H2.
  split; [apply length_resize|]. split.
  - apply list_eq. intros i. destruct (decide (i < length old)%nat), (decide (i < Z.to_nat len)%nat).
    + rewrite !lookup_take_lt, lookup_resize by lia. done.
    + rewrite lookup_take_lt, lookup_resize_old, lookup_take_ge by lia. done.
    + rewrite lookup_take_ge, lookup_take_lt, lookup_ge_None_2 by lia. done.
    + by rewrite !lookup_take_ge by lia.
  - intros i Hi. apply lookup_resize_new; lia.
Qed.

(** ** The termination flag *)

Lemma term_run_app es1 es2 t : term_run (es1 ++ es2) t = term_run es2 (term_run es1 t).
Proof. apply foldl_app. Qed.

(** What holds after any events. *)
Lemma term_run_inv es signalled :
  let t := term_run es (install_termination_handler signalled) in
  (tm_signalled t = true ↔ signalled = true ∨ Signal ∈ es) ∧ tm_polling t = negb (tm_stop t) ∧
  (tm_stop t = true ↔ ∃ es1 es2, es = es1 ++ Poll :: es2 ∧ (signalled = true ∨ Signal ∈ es1)).
Proof.
  induction es as [|e es (IH1 & IH2 & IH3)] using rev_ind.
  { split_and!; [set_solver|done|]. split; [done|]. by intros ([] & es2 & ? & _). }
  rewrite term_run_app. set (t := term_run es _) in *. simpl.
  assert (∀ P : list term_event → Prop, (∃ es1 es2, es ++ [e] = es1 ++ Poll :: es2 ∧ P es1) ↔
            (e = Poll ∧ P es) ∨ ∃ es1 es2, es = es1 ++ Poll :: es2 ∧ P es1) as Hsnoc.
  { intros P. split.
    - intros (es1 & es2 & E & HP). destruct es2 as [|x es2 _] using rev_ind.
      + apply app_inj_tail in E as [-> ->]. by left.
      + rewrite app_comm_cons, app_assoc in E. apply app_inj_tail in E as [-> _]. right. eauto.
    - intros [[-> HP]|(es1 & es2 & -> & HP)]; [by exists es, []|]. exists es1, (es2 ++ [e]). by rewrite <-app_assoc. }
  rewrite Hsnoc. destruct e; simpl.
  - split_and!; [set_solver|done|]. rewrite IH3. split; [by right|]. by intros [[? _]|].
  - unfold poll_signalled. rewrite IH2. destruct (tm_stop t) eqn:Es; cbn [negb andb].
    + rewrite Es. split_and!; [rewrite IH1; set_solver|done|]. split; [right; by apply IH3|done].
    + destruct (tm_signalled t) eqn:Eg; simpl; rewrite ?Eg, ?Es.
      * split_and!; [rewrite IH1 in *; set_solver|done|]. split; [|done]. intros _. left. split; [done|]. by apply IH1.
      * split_and!; [rewrite IH1 in *; set_solver|by rewrite IH2|]. split; [done|].
        intros [[_ HP]|HP]; [by apply IH1 in HP; congruence|by apply IH3 in HP].
Qed.

(** Result: the termination flag is set by signals and only by them.  The flag handed out by
    [install_termination_handler] is set exactly when the polling thread has looked after a
    signal arrived (in this process's life, if an earlier handler saw one), and once set it
    stays set. *)
Theorem termination_flag es signalled more :
  let t := term_run es (install_termination_handler signalled) in
  (tm_stop t = true ↔ ∃ es1 es2, es = es1 ++ Poll :: es2 ∧ (signalled = true ∨ Signal ∈ es1)) ∧
  (tm_stop t = true → tm_stop (term_run more t) = true).
Proof.
  intros t. split; [apply term_run_inv|]. unfold t. rewrite <-term_run_app. intros Hs.
  apply term_run_inv in Hs as (es1 & es2 & -> & HP). apply term_run_inv. exists es1, (es2 ++ more).
  by rewrite <-app_assoc.
Qed.

(** ** Small cases *)

(** Port 9000 is taken; the options are refused. *)
Definition demo_sock_kernel : sock_kernel :=
  mkSockKernel (Ok ()) (Ok ()) false true false
    (λ p, if p =? 9000 then Err (mkIoError AddrNotAvailable "in use") else if p =? 0 then Ok 40001 else Ok p).

Lemma data_socket_in_range_witness :
  data_socket true demo_sock_kernel (Some (9000, 9010)) true =
    Ok (mkUdpSock true None (Some (Z.shiftl 64 20)) None (mkSocketAddr (V4 0) 9001 0 0)) ∧ 9000 ≤ 9001 ≤ 9010.
Proof.
  pose proof (data_socket_in_range true demo_sock_kernel 9000 9010 true ltac:(lia)) as Hd.
  assert (data_socket true demo_sock_kernel (Some (9000, 9010)) true =
    Ok (mkUdpSock true None (Some (Z.shiftl 64 20)) None (mkSocketAddr (V4 0) 9001 0 0))) as E by (vm_compute; done).
  rewrite E in Hd. split; [done|]. apply Hd. intros p q. cbn [so_bind demo_sock_kernel].
  destruct (Z.eqb_spec p 9000); [done|]. destruct (Z.eqb_spec p 0); [done|]. by intros [= ->].
Defined.

Lemma file_sink_sized_witness :
  ∃ k', allocate_os fallocate_portable (mkFileSink [x01; x02; x03] 0 []) 2 = (k', Ok ()) ∧
    length (fk_file k') = 2%nat.
Proof.
  destruct (file_sink_sized {["out" := [x01; x02; x03]]} "out" None 2 [] {["out" := [x01; x02; x03]]} (mkFileSink [x01; x02; x03] 0 [])
              ltac:(lia) ltac:(vm_compute; done)) as (old & _ & _ & _ & Hall).
  destruct (Hall fallocate_portable (or_intror eq_refl)) as [Hok _].
  destruct (Hok eq_refl) as (k' & E & Hl & _). by exists k'.
Defined.
