(* ===== verification/Handlers.v ===== *)
(** * Handlers (src/transfer.rs): the server's connection and the client's transfers

    [handle_conn] and the two request handlers of the server, and the client's
    [send_core_with_stream] and [recv_core_with_stream].  What they do to the outside
    world is a trace of events in order; sockets, files and the running data plane answer
    through an environment, so every branch and every early return of the source is a
    branch here.  A panic of the data plane's construction stops the process: [Crash]. *)

From S2P Require Import Prelude Float64 Errors Net Protocol Rate Stats Runtime BlockIO Crypto Auth Control.
From S2P Require Import Transfer Sender Receiver.

(** The configuration of a sender before its peer is known ([SendConfig]). *)
Record SendConfig (Src : Type) := mkSendConfig {
  sf_peer : option SocketAddr;
  sf_expected_peer_ip : option IpAddr;
  sf_source : Src;
  sf_file_size : Z;
  sf_block_size : Z;
  sf_total_blocks : Z;
  sf_session : Z;
  sf_rate : RateConfig;
  sf_read_workers : Z;
  sf_crypto : option AeadBox;
  sf_warm_start : option RateWarmStart
}.
Arguments mkSendConfig {Src}.
Arguments sf_peer {Src}.
Arguments sf_expected_peer_ip {Src}.
Arguments sf_source {Src}.
Arguments sf_file_size {Src}.
Arguments sf_block_size {Src}.
Arguments sf_total_blocks {Src}.
Arguments sf_session {Src}.
Arguments sf_rate {Src}.
Arguments sf_read_workers {Src}.
Arguments sf_crypto {Src}.
Arguments sf_warm_start {Src}.

(** What [Sender::run] fixes for its threads once it knows the peer. *)
Definition run_config {Src} (c : SendConfig Src) (peer : SocketAddr) : SendCfg Src :=
  mkSendCfg (sf_source c) (sf_file_size c) (sf_block_size c) (sf_total_blocks c) (sf_session c)
    (rc_mode (sf_rate c)) (sf_crypto c) peer (initial_target (sf_rate c) (sf_warm_start c)).

(** ** Effects *)

(** What a handler does outside: replies on the control connection, opening an object by
    its path or by a resolver, allocating, binding a data socket, running the data plane. *)
Inductive event (Src : Type) :=
| EvAck (a : Ack)
| EvHello (h : Hello)
| EvResolve (name : string)
| EvOpen (path : string)
| EvAllocate (size : Z)
| EvBind
| EvRecv (cfg : RecvConfig)
| EvSend (cfg : SendConfig Src).
Arguments EvAck {Src}.
Arguments EvHello {Src}.
Arguments EvResolve {Src}.
Arguments EvOpen {Src}.
Arguments EvAllocate {Src}.
Arguments EvBind {Src}.
Arguments EvRecv {Src}.
Arguments EvSend {Src}.

(** How a piece of a handler ends: it goes on, returns early, or the process aborts. *)
Inductive ctl (A R : Type) :=
| Go (a : A)
| Return (r : R)
| Crash.
Arguments Go {A R}.
Arguments Return {A R}.
Arguments Crash {A R}.

Definition act (Src R A : Type) : Type := list (event Src) * ctl A R.

Global Instance act_ret {Src R} : MRet (act Src R) := λ A a, ([], Go a).
Global Instance act_bind {Src R} : MBind (act Src R) := λ A B f m,
  match m with
  | (es, Go a) => let '(es', c) := f a in (es ++ es', c)
  | (es, Return r) => (es, Return r)
  | (es, Crash) => (es, Crash)
  end.

Definition emit {Src R} (e : event Src) : act Src R unit := ([e], Go ()).
Definition finish {Src R A} (r : R) : act Src R A := ([], Return r).
Definition may_panic {Src R A} (o : outcome A) : act Src R A :=
  match o with Done a => ([], Go a) | Panic => ([], Crash) end.
(** [f(...)?] for a call that returns an [io::Result]. *)
Definition call {Src A} (r : result A io_error) : act Src (result unit io_error) A :=
  match r with Ok a => mret a | Err e => finish (Err e) end.

(** ** The server *)

Record AuthContext := mkAuthContext { ac_mode : string; ac_name : string; ac_peer_addr : SocketAddr }.
Definition Authorizer : Type := AuthContext → result (list byte) string.
Record AuthState := mkAuthState { as_token : list byte; as_client_mac : list byte }.

(** What the outside answers to a request: how files open (a path gives a sink or a source
    and whether it is a regular file), the resolvers, the port of a bound socket, the
    write on the control connection, the processor, the ephemeral secret, and how the
    running data plane ends. *)
Record ServerEnv (Src K : Type) := mkServerEnv {
  se_open_sink : string → result (K * bool) io_error;
  se_open_source : string → result (Src * bool) io_error;
  se_sink_resolver : option (string → result K io_error);
  se_source_resolver : option (string → result Src io_error);
  se_bind : Z → result Z io_error;
  se_write : Ack → result unit io_error;
  se_aes_hardware : bool;
  se_secret : list byte;
  se_num_cpu : Host;
  se_run_recv : RecvConfig → RecvState K → RecvState K * result unit io_error;
  se_run_send : SendConfig Src → result unit io_error
}.
Arguments se_open_sink {Src K}.
Arguments se_open_source {Src K}.
Arguments se_sink_resolver {Src K}.
Arguments se_source_resolver {Src K}.
Arguments se_bind {Src K}.
Arguments se_write {Src K}.
Arguments se_aes_hardware {Src K}.
Arguments se_secret {Src K}.
Arguments se_num_cpu {Src K}.
Arguments se_run_recv {Src K}.
Arguments se_run_send {Src K}.

Section server.
Context {Src K : Type} `{!BlockSource Src, !Crc32c, !BlockSink K, !HmacCrate, !KexCrate}.
Implicit Types (env : ServerEnv Src K) (h : Hello) (p : TransferParams).
Local Abbreviation srv := (act Src (result unit io_error)).

(** [ack_err], after which the callers return. *)
Definition ack_err (err : string) (auth_required : bool) : Ack :=
  mkAck false err 0 0 0 0 "" false "" None auth_required None.
Definition reject {A} (err : string) (auth_required : bool) : srv A :=
  _ ← emit (EvAck (ack_err err auth_required)); finish (Ok ()).

(** Opening the object of a request: by the resolver if there is one, else by its path in
    the served directory. *)
Definition open_object {F} (resolver : option (string → result F io_error))
    (open : string → result (F * bool) io_error) (dir name : string) : srv F :=
  match resolver with
  | Some r =>
      _ ← emit (EvResolve name);
      match r name with Ok f => mret f | Err e => reject (ie_msg e) false end
  | None =>
      _ ← emit (EvOpen (path_join dir name));
      match open_served open dir name with Ok f => mret f | Err e => reject (ie_msg e) false end
  end.

(** The acknowledgement of an accepted request. *)
Definition ack_ok (h : Hello) (port session size crc : Z) (enc : bool) (cipher : string)
    (pub_key : list byte) (auth : option AuthState) : Ack :=
  mkAck true "" port session size crc (h_name h) enc cipher
    (if bool_decide (pub_key = []) then None else Some pub_key) false
    ((λ a, server_mac (as_token a) session pub_key (as_client_mac a)) <$> auth).

(** Cipher negotiation of a request. *)
Definition negotiate env (h : Hello) (session : Z) : srv (bool * string * list byte * option AeadBox) :=
  match negotiate_crypto_server (se_aes_hardware env) (se_secret env) (h_encrypt h)
          (default [] (h_ciphers h)) (default [] (h_pub_key h)) session with
  | Ok v => mret v
  | Err e => reject e false
  end.

Definition write_ack env (a : Ack) : srv unit :=
  _ ← emit (EvAck a); call (se_write env a).

(** The receiver's configuration for a push. *)
Definition push_config (h : Hello) (session : Z) p (peer_addr : SocketAddr) (crypto : option AeadBox)
    (total : Z) : RecvConfig :=
  mkRecvConfig (h_size h) (tp_block_size p) total session (Some (sa_ip peer_addr)) (tp_read_workers p)
    (rate_config p (h_rate_bps h)) crypto (tp_feedback_interval_us p) (tp_net_tick_interval_us p) 0
    (warm_from_hello h) None.

(** [recv_from_client]: the client pushes.  (The text of the integrity error, which prints
    the name and both checksums, is shortened.) *)
Definition recv_from_client env (h : Hello) (session : Z) p (dir : string) (peer_addr : SocketAddr)
    (udp_range : option (Z * Z)) (auth : option AuthState) : srv unit :=
  object_name ← match served_object_name (h_name h) with
                | Ok n => mret n
                | Err e => reject (ie_msg e) false
                end;
  sink ← open_object (se_sink_resolver env) (se_open_sink env) dir object_name;
  _ ← emit (EvAllocate (Z.max (h_size h) 0));
  let '(sink, r) := sink_allocate sink (Z.max (h_size h) 0) in
  _ ← match r with Ok _ => mret () | Err e => reject (ie_msg e) false end;
  _ ← emit EvBind;
  port ← call (bind_data_socket (se_bind env) udp_range);
  '(enc, cipher_name, pub_key, crypto) ← negotiate env h session;
  _ ← write_ack env (ack_ok h port session 0 0 enc cipher_name pub_key auth);
  total ← may_panic (num_blocks (h_size h) (tp_block_size p));
  let cfg := push_config h session p peer_addr crypto total in
  '(cfg, st) ← may_panic (new_receiver (se_num_cpu env) cfg sink stats_default);
  _ ← emit (EvRecv cfg);
  let '(st, res) := se_run_recv env cfg st in
  _ ← call res;
  let '(sink, r) := sink_finalize (rs_sink st) in
  _ ← call r;
  got ← call (sink_read_crc32c sink);
  match got with
  | None => mret ()
  | Some got =>
      if negb (got =? h_crc32c h) then finish (Err (io_other "integrity failure")) else mret ()
  end.

(** The sender's configuration for a pull. *)
Definition pull_config (h : Hello) (session : Z) p (peer_addr : SocketAddr) (crypto : option AeadBox)
    (source : Src) (size total : Z) : SendConfig Src :=
  mkSendConfig None (Some (sa_ip peer_addr)) source size (tp_block_size p) total session
    (rate_config p (h_rate_bps h)) (tp_read_workers p) crypto (warm_from_hello h).

(** [send_to_client]: the client pulls. *)
Definition send_to_client env (h : Hello) (session : Z) p (dir : string) (peer_addr : SocketAddr)
    (limits : ServerLimits) (udp_range : option (Z * Z)) (auth : option AuthState) : srv unit :=
  object_name ← match served_object_name (h_name h) with
                | Ok n => mret n
                | Err e => reject (ie_msg e) false
                end;
  source ← open_object (se_source_resolver env) (se_open_source env) dir object_name;
  let source_len := src_len source in
  if sl_max_object_size limits <? source_len
  then reject ("object too large: " +:+ pretty.pretty source_len +:+ " > " +:+
               pretty.pretty (sl_max_object_size limits)) false else
  if i64_max <? source_len then reject "object too large for protocol size field" false else
  crc ← match source_crc32c source with Ok v => mret v | Err e => reject (ie_msg e) false end;
  _ ← emit EvBind;
  port ← call (bind_data_socket (se_bind env) udp_range);
  '(enc, cipher_name, pub_key, crypto) ← negotiate env h session;
  _ ← write_ack env (ack_ok h port session source_len crc enc cipher_name pub_key auth);
  total ← may_panic (num_blocks source_len (tp_block_size p));
  let cfg := pull_config h session p peer_addr crypto source source_len total in
  _ ← emit (EvSend cfg);
  call (se_run_send env cfg).

(** The authentication step of [handle_conn]. *)
Definition authenticate (authorizer : option Authorizer) (h : Hello) (peer_addr : SocketAddr)
    : srv (option AuthState) :=
  match authorizer with
  | None => mret None
  | Some authz =>
      match authz (mkAuthContext (h_mode h) (h_name h) peer_addr) with
      | Err reason => reject ("auth denied: " +:+ reason) true
      | Ok token =>
          match h_auth_mac h with
          | None => reject "auth required" true
          | Some presented =>
              if negb (verify_client_mac token (h_version h) (h_mode h) (h_name h) (h_size h)
                         (default [] (h_pub_key h)) presented)
              then reject "auth denied" true
              else mret (Some (mkAuthState token presented))
          end
      end
  end.

(** A handler called with [?]: its own [Ok] return continues the loop. *)
Definition as_call (m : srv unit) : srv unit :=
  match m with (es, Return (Ok _)) => (es, Go ()) | _ => m end.

(** One request of [handle_conn], once the Hello is read. *)
Definition serve_request env (params : TransferParams) (authorizer : option Authorizer) (limits : ServerLimits)
    (dir : string) (peer_addr : SocketAddr) (udp_range : option (Z * Z)) (session : Z) (h : Hello) : srv unit :=
  if negb (h_version h =? PROTOCOL_VERSION) then reject "protocol version mismatch" false else
  match validate_hello_limits h limits with
  | Err e => reject e false
  | Ok _ =>
      let p := request_params params h in
      auth ← authenticate authorizer h peer_addr;
      if bool_decide (h_mode h = MODE_SEND) then
        as_call (recv_from_client env h session p dir peer_addr udp_range auth)
      else if bool_decide (h_mode h = MODE_RECV) then
        as_call (send_to_client env h session p dir peer_addr limits udp_range auth)
      else reject "unknown mode" false
  end.

(** A turn of [handle_conn]'s loop as the outside provides it: the stop flag, what
    [read_json] gives, the random session id and the environment of the request. *)
Record turn := mkTurn {
  tn_stop : bool;
  tn_hello : result Hello io_error;
  tn_session : Z;
  tn_env : ServerEnv Src K
}.

(** [handle_conn], for a connection whose peer address is known. *)
Fixpoint handle_conn (params : TransferParams) (authorizer : option Authorizer) (limits : ServerLimits)
    (dir : string) (peer_addr : SocketAddr) (udp_range : option (Z * Z)) (turns : list turn) : srv unit :=
  match turns with
  | [] => mret ()
  | t :: turns' =>
      if tn_stop t then finish (Ok ()) else
      match tn_hello t with
      | Err e =>
          if bool_decide (ie_kind e = UnexpectedEof) || bool_decide (ie_kind e = ConnectionReset)
          then finish (Ok ()) else finish (Err e)
      | Ok h =>
          _ ← serve_request (tn_env t) params authorizer limits dir peer_addr udp_range (tn_session t) h;
          handle_conn params authorizer limits dir peer_addr udp_range turns'
      end
  end.
End server.

(** ** The client *)

(** What the outside answers to a client's transfer: the write of the Hello, the reply read
    back, name resolution, the data socket, the processor, the ephemeral secret, and how
    the running data plane ends. *)
Record ClientEnv (Src K : Type) := mkClientEnv {
  ce_write : Hello → result unit io_error;
  ce_read : result Ack io_error;
  ce_lookup : string → result (list SocketAddr) io_error;
  ce_bind : result unit io_error;
  ce_aes_hardware : bool;
  ce_secret : list byte;
  ce_num_cpu : Host;
  ce_run_recv : RecvConfig → RecvState K → RecvState K * result unit io_error;
  ce_run_send : SendConfig Src → result unit io_error
}.
Arguments ce_write {Src K}.
Arguments ce_read {Src K}.
Arguments ce_lookup {Src K}.
Arguments ce_bind {Src K}.
Arguments ce_aes_hardware {Src K}.
Arguments ce_secret {Src K}.
Arguments ce_num_cpu {Src K}.
Arguments ce_run_recv {Src K}.
Arguments ce_run_send {Src K}.

Section client.
Context {Src K : Type} `{!BlockSource Src, !Crc32c, !BlockSink K, !HmacCrate, !KexCrate}.
Implicit Types (env : ClientEnv Src K) (p : TransferParams).
Local Abbreviation cli := (act Src (result unit GirthError)).

(** [?] on an [io::Result] in a function that returns a [GirthError]. *)
Definition try_io {A} (r : result A io_error) : cli A :=
  match r with Ok a => mret a | Err e => finish (Err (from_io e)) end.
Definition try_girth {A} (r : result A GirthError) : cli A :=
  match r with Ok a => mret a | Err e => finish (Err e) end.

(** The ephemeral key pair of a transfer, when encryption is wanted. *)
Definition client_keys env p : option (list byte) * option (list byte) :=
  if tp_encrypt p then (Some (ce_secret env), Some (x25519_public (ce_secret env))) else (None, None).

(** The proof of possession, and the Hello. *)
Definition client_proof (token : option (list byte)) (mode name : string) (size : Z) (pub_key : option (list byte))
    : option (list byte) :=
  (λ t, client_mac t PROTOCOL_VERSION mode name size (default [] pub_key)) <$> token.
Definition client_hello env p (mode name : string) (size crc : Z) (warm : RateWarmStart)
    (pub_key auth_mac : option (list byte)) : Hello :=
  mkHello PROTOCOL_VERSION mode name size (u64_as_i64 (tp_block_size p)) (tp_rate_bps p) (tp_max_bps p) (tp_adaptive p)
    (tp_alpha_bps p) crc (rw_rate_bps warm) (rw_srtt_net_us warm) (rw_base_rtt_us warm) (tp_encrypt p)
    (ciphers_if (ce_aes_hardware env) (tp_encrypt p)) pub_key auth_mac.

(** The handshake both cores share: write the Hello, read the reply, check it. *)
Definition handshake env p (token : option (list byte)) (mode name : string) (size crc : Z)
    (warm : option RateWarmStart) : cli (Ack * option AeadBox) :=
  let '(priv_key, pub_key) := client_keys env p in
  let auth_mac := client_proof token mode name size pub_key in
  let h := client_hello env p mode name size crc (default warm_default warm) pub_key auth_mac in
  _ ← emit (EvHello h);
  _ ← try_io (ce_write env h);
  a ← try_io (ce_read env);
  if negb (a_ok a) then finish (Err (reject_error a)) else
  _ ← try_girth (verify_server_auth token auth_mac a);
  match client_crypto (tp_encrypt p) (a_encrypt a) (default [] (a_pub_key a)) (a_session a) (a_cipher a) priv_key with
  | Err e => finish (Err (ProtocolErr e))
  | Ok crypto => mret (a, crypto)
  end.

(** The sender of a push. *)
Definition push_sender p (a : Ack) (crypto : option AeadBox) (peer : SocketAddr) (source : Src) (size total : Z)
    (warm : option RateWarmStart) : SendConfig Src :=
  mkSendConfig (Some peer) (Some (sa_ip peer)) source size (tp_block_size p) total (a_session a)
    (rate_config p (tp_rate_bps p)) (tp_read_workers p) crypto warm.

(** [send_core_with_stream]; the handle's phase after it is [Transferring] when it got that
    far and [Complete] on success. *)
Definition send_core_with_stream env (server_addr : string) (source : Src) (name : string) p
    (warm_start : option RateWarmStart) (token : option (list byte)) (handle : option TransferHandle)
    : cli (option TransferHandle) :=
  let size := u64_as_i64 (src_len source) in
  crc ← try_io (source_crc32c source);
  let warm := warm_for_params p warm_start in
  '(a, crypto) ← handshake env p token MODE_SEND name size crc warm;
  peer ← try_io (resolve_peer (ce_lookup env) server_addr (a_udp_port a));
  _ ← emit EvBind;
  _ ← try_io (ce_bind env);
  let handle := mark_phase handle Transferring in
  total ← may_panic (num_blocks size (tp_block_size p));
  let cfg := push_sender p a crypto peer source size total warm in
  _ ← emit (EvSend cfg);
  _ ← try_io (ce_run_send env cfg);
  mret (mark_phase handle Complete).

(** The receiver of a pull. *)
Definition pull_receiver p (a : Ack) (crypto : option AeadBox) (peer : SocketAddr) (total : Z)
    (warm : option RateWarmStart) : RecvConfig :=
  mkRecvConfig (a_size a) (tp_block_size p) total (a_session a) (Some (sa_ip peer)) (tp_read_workers p)
    (rate_config p (tp_rate_bps p)) crypto (tp_feedback_interval_us p) (tp_net_tick_interval_us p) 0 warm (Some peer).

(** [recv_core_with_stream]: the sink that was filled, and the handle. *)
Definition recv_core_with_stream env (server_addr : string) (name : string) (sink : K) p
    (warm_start : option RateWarmStart) (token : option (list byte)) (handle : option TransferHandle)
    : cli (K * option TransferHandle) :=
  let warm := warm_for_params p warm_start in
  '(a, crypto) ← handshake env p token MODE_RECV name 0 0 warm;
  _ ← emit (EvAllocate (Z.max (a_size a) 0));
  let '(sink, r) := sink_allocate sink (Z.max (a_size a) 0) in
  _ ← try_io r;
  peer ← try_io (resolve_peer (ce_lookup env) server_addr (a_udp_port a));
  _ ← emit EvBind;
  _ ← try_io (ce_bind env);
  let handle := mark_phase handle Transferring in
  total ← may_panic (num_blocks (a_size a) (tp_block_size p));
  '(cfg, st) ← may_panic (new_receiver (ce_num_cpu env) (pull_receiver p a crypto peer total warm) sink stats_default);
  _ ← emit (EvRecv cfg);
  let '(st, res) := ce_run_recv env cfg st in
  _ ← try_io res;
  let handle := mark_phase handle Verifying in
  let '(sink, r) := sink_finalize (rs_sink st) in
  _ ← try_io r;
  got ← try_io (sink_read_crc32c sink);
  match got with
  | Some got => if negb (got =? a_crc32c a) then finish (Err Integrity) else mret (sink, mark_phase handle Complete)
  | None => mret (sink, mark_phase handle Complete)
  end.
End client.

(** ** Reasoning about traces *)

Section traces.
Context {Src R : Type}.

(** Every event of a trace satisfies [P]. *)
Definition traced {A} (P : event Src → Prop) (m : act Src R A) : Prop := Forall P m.1.

Lemma traced_bind {A B} P (m : act Src R A) (f : A → act Src R B) :
  traced P m → (∀ a, m.2 = Go a → traced P (f a)) → traced P (m ≫= f).
Proof.
  unfold traced. destruct m as [es [a|r|]]; simpl; [|done|done]. intros Hm Hf.
  specialize (Hf a eq_refl). destruct (f a) as [es' c]. simpl in *. by apply Forall_app.
Qed.

Lemma traced_ret {A} P (a : A) : traced P (mret (M := act Src R) a).
Proof. constructor. Qed.
Lemma traced_finish {A} P (r : R) : traced P (finish (A := A) r).
Proof. constructor. Qed.
Lemma traced_emit P (e : event Src) : P e → traced P (emit (R := R) e).
Proof. by repeat constructor. Qed.
Lemma traced_may_panic {A} P (o : outcome A) : traced P (may_panic (Src := Src) (R := R) o).
Proof. destruct o; constructor. Qed.

(** A sequence went on to its end. *)
Lemma bind_go {A B} (m : act Src R A) (f : A → act Src R B) b :
  (m ≫= f).2 = Go b ↔ ∃ a, m.2 = Go a ∧ (f a).2 = Go b.
Proof.
  destruct m as [es [a|r|]]; simpl.
  - destruct (f a) as [es' c] eqn:E. simpl. split; [intros ->; exists a; by rewrite E|].
    intros (a' & [= <-] & Hf). by rewrite E in Hf.
  - split; [done|]. by intros (? & ? & _).
  - split; [done|]. by intros (? & ? & _).
Qed.
End traces.

Create HintDb trace.
#[export] Hint Resolve traced_ret traced_finish traced_emit traced_may_panic : trace.

(** Walks through a handler: each sequencing step, then each case distinction. *)
Ltac trace_step :=
  match goal with
  | |- traced _ (_ ≫= _) => apply traced_bind; [|intros ? ?]
  | |- traced _ (match ?x with _ => _ end) => destruct x eqn:?
  | |- traced _ (let '(_, _) := ?x in _) => destruct x eqn:?
  | |- traced _ _ => solve [auto with trace]
  end.

(** ** Authentication gates every effect *)

(** Everything a handler does but refusing. *)
Definition effect {Src} (e : event Src) : bool :=
  match e with EvAck a => a_ok a | EvHello _ => false | _ => true end.

(** The request of a turn passed every check, and its proof was verified. *)
Definition authenticated `{!HmacCrate} {Src K} (authz : Authorizer) (limits : ServerLimits) (peer_addr : SocketAddr)
    (t : turn (Src := Src) (K := K)) (h : Hello) (token mac : list byte) : Prop :=
  tn_hello t = Ok h ∧ h_version h = PROTOCOL_VERSION ∧ validate_hello_limits h limits = Ok () ∧
  authz (mkAuthContext (h_mode h) (h_name h) peer_addr) = Ok token ∧ h_auth_mac h = Some mac ∧
  verify_client_mac token (h_version h) (h_mode h) (h_name h) (h_size h) (default [] (h_pub_key h)) mac = true.

Section server_traces.
Context {Src K : Type} `{!BlockSource Src, !Crc32c, !BlockSink K, !HmacCrate, !KexCrate}.
Implicit Types (env : ServerEnv Src K) (h : Hello) (p : TransferParams).

Lemma traced_reject {A} (P : event Src → Prop) err b :
  P (EvAck (ack_err err b)) → traced P (reject (A := A) err b).
Proof. intros. unfold reject. repeat trace_step. Qed.

Lemma traced_call {A} (P : event Src → Prop) (r : result A io_error) : traced P (call r).
Proof. unfold call. repeat trace_step. Qed.

Lemma traced_as_call (P : event Src → Prop) m : traced P m → traced P (as_call m).
Proof. unfold traced, as_call. by destruct m as [es [|[]|]]. Qed.

Hint Resolve traced_reject traced_call traced_as_call : trace.

Lemma open_object_traced {F} (P : event Src → Prop) resolver (open : string → result (F * bool) io_error) dir name :
  P (EvResolve name) → P (EvOpen (path_join dir name)) → (∀ err b, P (EvAck (ack_err err b))) →
  traced P (open_object resolver open dir name).
Proof. intros. unfold open_object. repeat trace_step. Qed.

Lemma negotiate_traced (P : event Src → Prop) env h session :
  (∀ err b, P (EvAck (ack_err err b))) → traced P (negotiate env h session).
Proof. intros. unfold negotiate. repeat trace_step. Qed.

Hint Resolve open_object_traced negotiate_traced : trace.

(** The object a pull opens. *)
Definition pulled env (h : Hello) (dir : string) (source : Src) : Prop :=
  ∃ n, served_object_name (h_name h) = Ok n ∧
    (open_object (Src := Src) (se_source_resolver env) (se_open_source env) dir n).2 = Go source.

Lemma recv_from_client_traced (P : event Src → Prop) env h session p dir peer range auth :
  (∀ err b, P (EvAck (ack_err err b))) →
  (∀ n, served_object_name (h_name h) = Ok n → P (EvResolve n) ∧ P (EvOpen (path_join dir n))) →
  (∀ n, P (EvAllocate n)) → P EvBind →
  (∀ port enc cipher pub crypto, (negotiate env h session).2 = Go (enc, cipher, pub, crypto) →
     P (EvAck (ack_ok h port session 0 0 enc cipher pub auth))) →
  (∀ enc cipher pub crypto total cfg sink st, (negotiate env h session).2 = Go (enc, cipher, pub, crypto) →
     num_blocks (h_size h) (tp_block_size p) = Done total →
     new_receiver (se_num_cpu env) (push_config h session p peer crypto total) (sink : K) stats_default = Done (cfg, st) →
     P (EvRecv cfg)) →
  traced P (recv_from_client env h session p dir peer range auth).
Proof.
  intros Hrej Hopen Hal Hbind Hack Hrecv. unfold recv_from_client.
  apply traced_bind; [by repeat trace_step|]. intros name Hname.
  assert (served_object_name (h_name h) = Ok name) as Hn.
  { by destruct (served_object_name (h_name h)) as [n|e]; [injection Hname as ->|]. }
  destruct (Hopen name Hn) as [Hres Hop].
  apply traced_bind; [by apply open_object_traced|]. intros sink0 _.
  apply traced_bind; [by apply traced_emit|]. intros _ _.
  destruct (sink_allocate sink0 _) as [sink r].
  apply traced_bind; [by repeat trace_step|]. intros _ _.
  apply traced_bind; [by apply traced_emit|]. intros _ _.
  apply traced_bind; [by apply traced_call|]. intros port _.
  apply traced_bind; [by apply negotiate_traced|]. intros [[[enc cipher] pub] crypto] Hneg.
  apply traced_bind; [unfold write_ack; apply traced_bind; [by apply traced_emit; eapply Hack|intros; apply traced_call]|].
  intros _ _. apply traced_bind; [apply traced_may_panic|]. intros total Htot.
  assert (num_blocks (h_size h) (tp_block_size p) = Done total) as Ht.
  { by destruct (num_blocks _ _); [injection Htot as ->|]. }
  apply traced_bind; [apply traced_may_panic|]. intros [cfg st] Hnew.
  assert (new_receiver (se_num_cpu env) (push_config h session p peer crypto total) sink stats_default = Done (cfg, st)) as Hn'.
  { by destruct (new_receiver _ _ _ _); [injection Hnew as ->|]. }
  apply traced_bind; [by apply traced_emit; eapply Hrecv|]. intros _ _.
  repeat trace_step.
Qed.

Lemma send_to_client_traced (P : event Src → Prop) env h session p dir peer limits range auth :
  (∀ err b, P (EvAck (ack_err err b))) →
  (∀ n, served_object_name (h_name h) = Ok n → P (EvResolve n) ∧ P (EvOpen (path_join dir n))) →
  P EvBind →
  (∀ port enc cipher pub crypto source crc, (negotiate env h session).2 = Go (enc, cipher, pub, crypto) →
     pulled env h dir source → source_crc32c source = Ok crc →
     P (EvAck (ack_ok h port session (src_len source) crc enc cipher pub auth))) →
  (∀ enc cipher pub crypto total source, (negotiate env h session).2 = Go (enc, cipher, pub, crypto) →
     pulled env h dir source → num_blocks (src_len source) (tp_block_size p) = Done total →
     src_len source ≤ sl_max_object_size limits → src_len source ≤ i64_max →
     P (EvSend (pull_config h session p peer crypto source (src_len source) total))) →
  traced P (send_to_client env h session p dir peer limits range auth).
Proof.
  intros Hrej Hopen Hbind Hack Hsend. unfold send_to_client.
  apply traced_bind; [by repeat trace_step|]. intros name Hname.
  assert (served_object_name (h_name h) = Ok name) as Hn.
  { by destruct (served_object_name (h_name h)) as [n|e]; [injection Hname as ->|]. }
  destruct (Hopen name Hn) as [Hres Hop].
  apply traced_bind; [by apply open_object_traced|]. intros source Hsrc. cbv zeta.
  assert (pulled env h dir source) as Hpull by (by exists name).
  destruct (Z.ltb_spec (sl_max_object_size limits) (src_len source)); [by apply traced_reject|].
  destruct (Z.ltb_spec i64_max (src_len source)); [by apply traced_reject|].
  apply traced_bind; [by repeat trace_step|]. intros crc Hcrc.
  apply traced_bind; [by apply traced_emit|]. intros _ _.
  apply traced_bind; [by apply traced_call|]. intros port _.
  apply traced_bind; [by apply negotiate_traced|]. intros [[[enc cipher] pub] crypto] Hneg.
  assert (source_crc32c source = Ok crc) as Hc by (by destruct (source_crc32c source); [injection Hcrc as ->|]).
  apply traced_bind; [unfold write_ack; apply traced_bind; [by apply traced_emit; eapply Hack|intros; apply traced_call]|].
  intros _ _. apply traced_bind; [apply traced_may_panic|]. intros total Htot.
  assert (num_blocks (src_len source) (tp_block_size p) = Done total) as Ht.
  { by destruct (num_blocks _ _); [injection Htot as ->|]. }
  apply traced_bind; [by apply traced_emit; eapply Hsend|]. intros _ _. apply traced_call.
Qed.

(** The reply to an accepted request is authenticated like the request. *)
Lemma ack_ok_mac h port session size crc enc cipher pub auth :
  a_session (ack_ok h port session size crc enc cipher pub auth) = session ∧
  a_auth_mac (ack_ok h port session size crc enc cipher pub auth) =
    (λ a, server_mac (as_token a) session
            (default [] (a_pub_key (ack_ok h port session size crc enc cipher pub auth))) (as_client_mac a)) <$> auth.
Proof. unfold ack_ok. simpl. split; [done|]. by case_bool_decide; subst. Qed.

(** The gate of one request. *)
Lemma serve_request_gate env params authz limits dir peer range (t : turn (Src := Src) (K := K)) h :
  tn_hello t = Ok h →
  traced (λ e, effect e = true → ∃ token mac, authenticated authz limits peer t h token mac ∧
      ∀ a, e = EvAck a → a_session a = tn_session t ∧
        a_auth_mac a = Some (server_mac token (tn_session t) (default [] (a_pub_key a)) mac))
    (serve_request env params (Some authz) limits dir peer range (tn_session t) h).
Proof.
  intros Ht. unfold serve_request.
  destruct (Z.eqb_spec (h_version h) PROTOCOL_VERSION) as [Hv|]; cbn [negb]; [|by apply traced_reject].
  destruct (validate_hello_limits h limits) as [[]|e] eqn:Hval; [|by apply traced_reject].
  apply traced_bind.
  { unfold authenticate. destruct (authz _) as [token|]; [|by apply traced_reject].
    destruct (h_auth_mac h) as [m|]; [|by apply traced_reject]. destruct (negb _); [by apply traced_reject|]. constructor. }
  intros auth Hauth.
  assert (∃ token mac, auth = Some (mkAuthState token mac) ∧ authenticated authz limits peer t h token mac)
    as (token & mac & -> & Hj).
  { unfold authenticate in Hauth. destruct (authz _) as [token|] eqn:Ea; [|done].
    destruct (h_auth_mac h) as [m|] eqn:Em; [|done]. destruct (verify_client_mac _ _ _ _ _ _ _) eqn:Ev; [|done].
    cbn [negb] in Hauth. injection Hauth as <-. exists token, m. split; [done|]. by split_and!. }
  assert (∀ (e : event Src), (∀ a, e ≠ EvAck a) → effect e = true →
    ∃ token mac, authenticated authz limits peer t h token mac ∧
      ∀ a, e = EvAck a → a_session a = tn_session t ∧
        a_auth_mac a = Some (server_mac token (tn_session t) (default [] (a_pub_key a)) mac)) as Hother.
  { intros e He _. exists token, mac. split; [done|]. intros a ->. by destruct (He a). }
  assert (∀ port size crc enc cipher pub (e : event Src),
    e = EvAck (ack_ok h port (tn_session t) size crc enc cipher pub (Some (mkAuthState token mac))) → effect e = true →
    ∃ token mac, authenticated authz limits peer t h token mac ∧
      ∀ a, e = EvAck a → a_session a = tn_session t ∧
        a_auth_mac a = Some (server_mac token (tn_session t) (default [] (a_pub_key a)) mac)) as Hok.
  { intros port size crc enc cipher pub e -> _. exists token, mac. split; [done|]. intros a [= <-].
    by destruct (ack_ok_mac h port (tn_session t) size crc enc cipher pub (Some (mkAuthState token mac))) as [? ->]. }
  destruct (bool_decide (h_mode h = MODE_SEND)); [|destruct (bool_decide (h_mode h = MODE_RECV)); [|by apply traced_reject]].
  - apply traced_as_call, recv_from_client_traced; try done; intros; try by apply Hother. + split; by apply Hother. + by eapply Hok.
  - apply traced_as_call, send_to_client_traced; try done; intros; try by apply Hother. + split; by apply Hother. + by eapply Hok.
Qed.

End server_traces.

(** Over a whole connection, every effect belongs to an authenticated turn. *)
Lemma handle_conn_gate {Src K} `{!BlockSource Src, !Crc32c, !BlockSink K, !HmacCrate, !KexCrate}
    params authz limits dir peer range (turns : list (turn (Src := Src) (K := K))) e :
  e ∈ (handle_conn params (Some authz) limits dir peer range turns).1 → effect e = true →
  ∃ t h token mac, t ∈ turns ∧ authenticated authz limits peer t h token mac ∧
    ∀ a, e = EvAck a → a_session a = tn_session t ∧
      a_auth_mac a = Some (server_mac token (tn_session t) (default [] (a_pub_key a)) mac).
Proof.
  intros He Hef. induction turns as [|t turns IH]; cbn [handle_conn] in He; [by apply not_elem_of_nil in He|].
  destruct (tn_stop t); [by apply not_elem_of_nil in He|].
  destruct (tn_hello t) as [h|e0] eqn:Eh; [|destruct (_ || _); by apply not_elem_of_nil in He].
  pose proof (serve_request_gate (tn_env t) params authz limits dir peer range t h Eh) as Hg.
  unfold traced in Hg. rewrite Forall_forall in Hg.
  destruct (serve_request _ _ _ _ _ _ _ _ _) as [es c]. cbn [fst] in Hg.
  assert (e ∈ es ∨ e ∈ (handle_conn params (Some authz) limits dir peer range turns).1) as [Hin|Hin].
  { destruct c as [[]|r|]; cbn [mbind act_bind] in He; [|by left|by left].
    destruct (handle_conn _ _ _ _ _ _ turns) as [es' c']. cbn [fst] in *. by apply elem_of_app in He. }
  - destruct (Hg e Hin Hef) as (token & mac & Hj & Ha). exists t, h, token, mac. split; [by left|done].
  - destruct (IH Hin) as (t' & h' & token & mac & ? & ? & ?). exists t', h', token, mac. split; [by right|done].
Qed.

(** C5: nothing happens before the proof.  On a server with an authorizer, over a whole
    connection and whatever the client sends: a file is opened, space allocated, a socket
    bound, an accepting reply written or the data plane run only for a request whose
    version and limits were checked and whose proof of possession of the token the
    authorizer names was verified for exactly this mode, name, size and key; and an
    accepting reply carries the session id and the server's own proof for them. *)
Theorem auth_gates_effects {Src K} `{!BlockSource Src, !Crc32c, !BlockSink K, !HmacCrate, !KexCrate}
    params authz limits dir peer range (turns : list (turn (Src := Src) (K := K))) e :
  e ∈ (handle_conn params (Some authz) limits dir peer range turns).1 → effect e = true →
  ∃ t h token mac, t ∈ turns ∧ authenticated authz limits peer t h token mac ∧
    ∀ a, e = EvAck a → a_session a = tn_session t ∧
      a_auth_mac a = Some (server_mac token (tn_session t) (default [] (a_pub_key a)) mac).
Proof. apply handle_conn_gate. Qed.


(** ** Results are checked *)

Section results.
Context {Src K : Type} `{!BlockSource Src, !Crc32c, !BlockSink K, !HmacCrate, !KexCrate}.

(** A continuation that went on, for the calls a handler makes. *)
Lemma call_go {A} (r : result A io_error) (a : A) : (call (Src := Src) r).2 = Go a → r = Ok a.
Proof. destruct r; [by intros [= ->]|done]. Qed.
Lemma try_io_go {A} (r : result A io_error) (a : A) : (try_io (Src := Src) r).2 = Go a → r = Ok a.
Proof. destruct r; [by intros [= ->]|done]. Qed.
Lemma try_girth_go {A} (r : result A GirthError) (a : A) : (try_girth (Src := Src) r).2 = Go a → r = Ok a.
Proof. destruct r; [by intros [= ->]|done]. Qed.
Lemma may_panic_go {R A} (o : outcome A) (a : A) : (may_panic (Src := Src) (R := R) o).2 = Go a → o = Done a.
Proof. destruct o; [by intros [= ->]|done]. Qed.

(** The events of a sequence. *)
Lemma bind_later {R A B} (m : act Src R A) (f : A → act Src R B) a e : m.2 = Go a → e ∈ (f a).1 → e ∈ (m ≫= f).1.
Proof.
  destruct m as [es [a0|r|]]; simpl; [|done|done]. intros [= ->] He. destruct (f a) as [es' c].
  simpl in *. apply elem_of_app. by right.
Qed.
Lemma bind_now {R A B} (m : act Src R A) (f : A → act Src R B) e : e ∈ m.1 → e ∈ (m ≫= f).1.
Proof.
  destruct m as [es [a0|r|]]; simpl; [|done|done]. intros He. destruct (f a0) as [es' c].
  simpl in *. apply elem_of_app. by left.
Qed.

Lemma handshake_go (env : ClientEnv Src K) p token mode name size crc warm a crypto :
  (handshake env p token mode name size crc warm).2 = Go (a, crypto) →
  ce_read env = Ok a ∧ a_ok a = true ∧
  verify_server_auth token (client_proof token mode name size (client_keys env p).2) a = Ok () ∧
  client_crypto (tp_encrypt p) (a_encrypt a) (default [] (a_pub_key a)) (a_session a) (a_cipher a)
    (client_keys env p).1 = Ok crypto.
Proof.
  unfold handshake. destruct (client_keys env p) as [priv pub]. cbn [fst snd].
  intros ([] & _ & Hg)%bind_go. apply bind_go in Hg as ([] & _ & Hg). apply bind_go in Hg as (a' & Ha%try_io_go & Hg).
  destruct (a_ok a') eqn:Eok; cbn [negb] in Hg; [|done].
  apply bind_go in Hg as ([] & Hv%try_girth_go & Hg).
  destruct (client_crypto _ _ _ _ _ _) as [c|] eqn:Ec; [|done]. injection Hg as -> ->. done.
Qed.
End results.

(** C23: a pull that succeeds was checked.  When [recv_core_with_stream] returns success, the
    reply it read was an acceptance, and encryption is on exactly when the client asked for it;
    if the client holds a token, the reply carried a valid proof of the server for the session,
    the server's key and the client's own proof (a client without a token authenticates
    nobody).  The sink was allocated at the announced size, the receiver was built for the
    announced size and session over that sink and its run ended without error, the sink was
    finalized without error, and it is what is returned.  Its checksum was read after that,
    and if the sink reports one it is the one the server announced (a sink that reports none
    is not compared). *)
Theorem pull_result_verified {Src K} `{!BlockSource Src, !Crc32c, !BlockSink K, !HmacCrate, !KexCrate}
    (env : ClientEnv Src K) server_addr name (sink : K) p warm token handle sink' handle' :
  (recv_core_with_stream env server_addr name sink p warm token handle).2 = Go (sink', handle') →
  ∃ a, ce_read env = Ok a ∧ a_ok a = true ∧ a_encrypt a = tp_encrypt p ∧
    (∀ tok, token = Some tok → ∃ smac, a_auth_mac a = Some smac ∧
       verify_server_mac tok (a_session a) (default [] (a_pub_key a))
         (client_mac tok PROTOCOL_VERSION MODE_RECV name 0 (default [] (client_keys env p).2)) smac = true) ∧
    (∃ sink1 crypto peer total cfg st st1,
       sink_allocate sink (Z.max (a_size a) 0) = (sink1, Ok ()) ∧
       num_blocks (a_size a) (tp_block_size p) = Done total ∧
       new_receiver (ce_num_cpu env) (pull_receiver p a crypto peer total (warm_for_params p warm)) sink1
         stats_default = Done (cfg, st) ∧
       EvRecv cfg ∈ (recv_core_with_stream env server_addr name sink p warm token handle).1 ∧
       ce_run_recv env cfg st = (st1, Ok ()) ∧
       sink_finalize (rs_sink st1) = (sink', Ok ())) ∧
    ∃ got, sink_read_crc32c sink' = Ok got ∧ ∀ crc, got = Some crc → crc = a_crc32c a.
Proof.
  unfold recv_core_with_stream. intros Hgo. pose proof Hgo as ([a crypto] & Hh & Hg)%bind_go.
  pose proof Hh as (Ha & Hok & Hv & Hc)%handshake_go. exists a. split; [done|]. split; [done|]. split; [|split].
  - unfold client_crypto in Hc. destruct (a_encrypt a), (tp_encrypt p); try done.
    by destruct ((client_keys env p).1).
  - intros tok ->. unfold verify_server_auth, client_proof in Hv. simpl in Hv.
    destruct (a_auth_mac a) as [smac|]; [|done]. exists smac. split; [done|]. by destruct (verify_server_mac _ _ _ _ _).
  - apply bind_go in Hg as ([] & He1 & Hg). destruct (sink_allocate sink _) as [sink1 r1] eqn:Eal.
    apply bind_go in Hg as ([] & Hr1 & Hg). apply bind_go in Hg as (peer & Hp & Hg).
    apply bind_go in Hg as ([] & He2 & Hg). apply bind_go in Hg as ([] & Hb & Hg).
    apply bind_go in Hg as (total & Ht & Hg). apply bind_go in Hg as ([cfg st] & Hn & Hg).
    apply bind_go in Hg as ([] & He3 & Hg). destruct (ce_run_recv env cfg st) as [st1 res] eqn:Erun.
    apply bind_go in Hg as ([] & ->%try_io_go & Hg). destruct (sink_finalize (rs_sink st1)) as [sink2 r2] eqn:Ef.
    apply bind_go in Hg as ([] & ->%try_io_go & Hg). apply bind_go in Hg as (got & Hgot%try_io_go & Hg).
    assert (sink2 = sink') as ->.
    { destruct got as [got|]; [destruct (negb _); [done|]|]; by injection Hg as <- _. }
    split.
    + exists sink1, crypto, peer, total, cfg, st, st1.
      split; [by rewrite (try_io_go _ _ Hr1)|]. split; [by apply may_panic_go in Ht|].
      split; [by apply may_panic_go in Hn|]. split; [|done].
      eapply bind_later; [exact Hh|]. eapply bind_later; [exact He1|]. rewrite Eal.
      eapply bind_later; [exact Hr1|]. eapply bind_later; [exact Hp|]. eapply bind_later; [exact He2|].
      eapply bind_later; [exact Hb|]. eapply bind_later; [exact Ht|]. eapply bind_later; [exact Hn|].
      apply bind_now. by left.
    + exists got. split; [done|]. intros crc ->. by destruct (Z.eqb_spec crc (a_crc32c a)) as [->|].
Qed.

(** Result: a push the server reports as stored is verified.  When [recv_from_client] runs to its
    end, the data plane ended without error and the finished sink either has no checksum to
    offer or its checksum is the one the client announced; a mismatch is an error of the
    connection, never a success. *)
Theorem push_result_verified {Src K} `{!BlockSource Src, !Crc32c, !BlockSink K, !HmacCrate, !KexCrate}
    (env : ServerEnv Src K) h session p dir peer range auth :
  (recv_from_client env h session p dir peer range auth).2 = Go () →
  ∃ cfg st st1 sink, EvRecv cfg ∈ (recv_from_client env h session p dir peer range auth).1 ∧
    se_run_recv env cfg st = (st1, Ok ()) ∧ sink_finalize (rs_sink st1) = (sink, Ok ()) ∧
    (sink_read_crc32c sink = Ok None ∨ sink_read_crc32c sink = Ok (Some (h_crc32c h))).
Proof.
  unfold recv_from_client. intros Hg.
  apply bind_go in Hg as (name & Hn & Hg). apply bind_go in Hg as (sink0 & Hs & Hg).
  apply bind_go in Hg as ([] & He1 & Hg). destruct (sink_allocate sink0 _) as [sink1 r1] eqn:Eal.
  apply bind_go in Hg as ([] & Hr1 & Hg). apply bind_go in Hg as ([] & He2 & Hg).
  apply bind_go in Hg as (port & Hp & Hg). apply bind_go in Hg as ([[[enc cipher] pub] crypto] & Hneg & Hg).
  apply bind_go in Hg as ([] & Hw & Hg). apply bind_go in Hg as (total & Ht & Hg).
  apply bind_go in Hg as ([cfg st] & Hnew & Hg). apply bind_go in Hg as ([] & He3 & Hg).
  destruct (se_run_recv env cfg st) as [st1 res] eqn:Erun. apply bind_go in Hg as ([] & ->%call_go & Hg).
  destruct (sink_finalize (rs_sink st1)) as [sink2 r2] eqn:Ef. apply bind_go in Hg as ([] & ->%call_go & Hg).
  apply bind_go in Hg as (got & Hgot%call_go & Hg).
  exists cfg, st, st1, sink2. split; [|split; [done|split; [done|]]].
  - eapply bind_later; [exact Hn|]. eapply bind_later; [exact Hs|]. eapply bind_later; [exact He1|]. rewrite Eal.
    eapply bind_later; [exact Hr1|]. eapply bind_later; [exact He2|]. eapply bind_later; [exact Hp|].
    eapply bind_later; [exact Hneg|]. eapply bind_later; [exact Hw|]. eapply bind_later; [exact Ht|].
    eapply bind_later; [exact Hnew|]. apply bind_now. by left.
  - destruct got as [got|]; [|by left]. destruct (Z.eqb_spec got (h_crc32c h)) as [->|]; [by right|done].
Qed.

(** ** Witnesses *)

Definition demo_token : list byte := [x73; x33].
Definition demo_authz : Authorizer := λ c, if bool_decide (ac_mode c = MODE_SEND) then Ok demo_token else Err "read only".
Definition demo_client : SocketAddr := mkSocketAddr (V4 0x7F000001) 9100 0 0.

(** A push of [demo_content] with its proof. *)
Definition demo_push : Hello :=
  mkHello PROTOCOL_VERSION MODE_SEND "file.bin" 7 256 1000000 0 false 0 (castagnoli_append 0 demo_content) 0 0 0 false None None
    (Some (@client_mac toy_hmac demo_token PROTOCOL_VERSION MODE_SEND "file.bin" 7 [])).

(** A server whose files are in memory and whose data plane delivers [demo_content]. *)
Definition demo_server_env : ServerEnv MemSource MemSink :=
  mkServerEnv _ _ (λ _, Ok (mem_sink_new, true)) (λ _, Ok (mkMemSource demo_content, true)) None None
    (λ _, Ok 9000) (λ _, Ok ()) true [x05; x06] 1 (λ _ st, (set_sink (mkMemSink demo_content) st, Ok ())) (λ _, Ok ()).
Definition demo_turn : turn (Src := MemSource) (K := MemSink) := mkTurn false (Ok demo_push) 77 demo_server_env.
Abbreviation demo_conn authorizer :=
  (@handle_conn MemSource MemSink mem_source castagnoli (@mem_sink castagnoli) toy_hmac toy_kex default_params authorizer
    limits_default "/srv" demo_client None [demo_turn]).

(** An event of a list that evaluates. *)
Lemma elem_at {A} (l : list A) (i : nat) (x : A) : l !! i = Some x → x ∈ l.
Proof. apply list_elem_of_lookup_2. Qed.

Lemma auth_gates_effects_witness :
  EvOpen "/srv/file.bin" ∈ (demo_conn (Some demo_authz)).1 ∧
  ∃ t h token mac, t ∈ [demo_turn] ∧
    @authenticated toy_hmac _ _ demo_authz limits_default demo_client t h token mac.
Proof.
  assert (EvOpen "/srv/file.bin" ∈ (demo_conn (Some demo_authz)).1) as Hin
    by (apply (elem_at _ 0); vm_compute; reflexivity).
  split; [exact Hin|].
  destruct (@auth_gates_effects MemSource MemSink _ castagnoli (@mem_sink castagnoli) toy_hmac toy_kex default_params
              demo_authz limits_default "/srv" demo_client None [demo_turn] (EvOpen "/srv/file.bin") Hin eq_refl)
    as (t & h & token & mac & Ht & Ha & _).
  exact (ex_intro _ t (ex_intro _ h (ex_intro _ token (ex_intro _ mac (conj Ht Ha))))).
Defined.


Lemma push_result_verified_witness :
  ∃ cfg st st1 sink, EvRecv cfg ∈ (@recv_from_client MemSource MemSink (@mem_sink castagnoli) toy_hmac toy_kex
      demo_server_env demo_push 77 (request_params default_params demo_push) "/srv" demo_client None None).1 ∧
    se_run_recv demo_server_env cfg st = (st1, Ok ()) ∧
    sink_finalize (BlockSink := @mem_sink castagnoli) (rs_sink st1) = (sink, Ok ()) ∧
    (sink_read_crc32c (BlockSink := @mem_sink castagnoli) sink = Ok None ∨
     sink_read_crc32c (BlockSink := @mem_sink castagnoli) sink = Ok (Some (h_crc32c demo_push))).
Proof.
  apply (@push_result_verified MemSource MemSink mem_source castagnoli (@mem_sink castagnoli) toy_hmac toy_kex demo_server_env
           demo_push 77 (request_params default_params demo_push) "/srv" demo_client None None).
  vm_compute. reflexivity.
Defined.

(** A client that pulls the same object from an authenticated server. *)
Definition demo_pull_mac : list byte := @client_mac toy_hmac demo_token PROTOCOL_VERSION MODE_RECV "file.bin" 0 [].
Definition demo_ack : Ack :=
  mkAck true "" 9000 77 7 (castagnoli_append 0 demo_content) "file.bin" false "" None false
    (Some (@server_mac toy_hmac demo_token 77 [] demo_pull_mac)).
Definition demo_client_env : ClientEnv MemSource MemSink :=
  mkClientEnv _ _ (λ _, Ok ()) (Ok demo_ack) (λ _, Ok [demo_client]) (Ok ()) true [x02; x03] 1
    (λ _ st, (set_sink (mkMemSink demo_content) st, Ok ())) (λ _, Ok ()).

Lemma pull_result_verified_witness :
  (∃ smac, a_auth_mac demo_ack = Some smac ∧
     @verify_server_mac toy_hmac demo_token (a_session demo_ack) [] demo_pull_mac smac = true) ∧
  ∃ got, sink_read_crc32c (BlockSink := @mem_sink castagnoli) (mkMemSink demo_content) = Ok got ∧
     ∀ crc, got = Some crc → crc = a_crc32c demo_ack.
Proof.
  destruct (@pull_result_verified MemSource MemSink mem_source castagnoli (@mem_sink castagnoli) toy_hmac toy_kex demo_client_env
              "srv:7400" "file.bin" mem_sink_new default_params None (Some demo_token) None (mkMemSink demo_content) None)
    as (a & E1 & E2 & E3 & E4 & _ & E5); [vm_compute; reflexivity|].
  injection E1 as <-. exact (conj (E4 demo_token eq_refl) E5).
Defined.
