(* ===== verification/Service.v ===== *)
(** * The server's listener and the client's entry points (src/transfer.rs)

    [Server] and its builder methods; [listen_and_serve] as a turn of its loop on the set of
    worker threads, interleaved with the ends of the connections they serve; the cores that
    connect first, and the client functions with and without a handle. *)

From S2P Require Import Prelude Float64 Errors Net Protocol Rate Stats Runtime BlockIO Crypto Auth Control.
From S2P Require Import Transfer Sender Receiver Handlers.

(** ** The server's settings *)

Record Server (Src K : Type) := mkServer {
  sr_addr : string;
  sr_dir : string;
  sr_params : TransferParams;
  sr_authorizer : option Authorizer;
  sr_udp_port_range : option (Z * Z);
  sr_limits : ServerLimits;
  sr_source_resolver : option (string → result Src io_error);
  sr_sink_resolver : option (string → result K io_error)
}.
Arguments mkServer {Src K}.
Arguments sr_addr {Src K}.
Arguments sr_dir {Src K}.
Arguments sr_params {Src K}.
Arguments sr_authorizer {Src K}.
Arguments sr_udp_port_range {Src K}.
Arguments sr_limits {Src K}.
Arguments sr_source_resolver {Src K}.
Arguments sr_sink_resolver {Src K}.

Section settings.
Context {Src K : Type}.
Implicit Types s : Server Src K.

Definition server_new (addr dir : string) (params : TransferParams) : Server Src K :=
  mkServer addr dir params None None limits_default None None.
Definition with_authorizer s (a : Authorizer) : Server Src K :=
  mkServer (sr_addr s) (sr_dir s) (sr_params s) (Some a) (sr_udp_port_range s) (sr_limits s)
    (sr_source_resolver s) (sr_sink_resolver s).
Definition with_udp_port_range s (range : Z * Z) : Server Src K :=
  mkServer (sr_addr s) (sr_dir s) (sr_params s) (sr_authorizer s) (Some range) (sr_limits s)
    (sr_source_resolver s) (sr_sink_resolver s).
Definition with_limits s (limits : ServerLimits) : Server Src K :=
  mkServer (sr_addr s) (sr_dir s) (sr_params s) (sr_authorizer s) (sr_udp_port_range s) limits
    (sr_source_resolver s) (sr_sink_resolver s).
Definition with_source_resolver s (r : string → result Src io_error) : Server Src K :=
  mkServer (sr_addr s) (sr_dir s) (sr_params s) (sr_authorizer s) (sr_udp_port_range s) (sr_limits s)
    (Some r) (sr_sink_resolver s).
Definition with_sink_resolver s (r : string → result K io_error) : Server Src K :=
  mkServer (sr_addr s) (sr_dir s) (sr_params s) (sr_authorizer s) (sr_udp_port_range s) (sr_limits s)
    (sr_source_resolver s) (Some r).
End settings.

(** ** The listener *)

(** [Vec::swap_remove]: the last element takes the place of the removed one. *)
Definition swap_remove {A} (ws : list A) (i : nat) : list A :=
  match last ws with
  | Some x => take (length ws - 1) (<[i := x]> ws)
  | None => ws
  end.

(** The loop that joins finished workers; a pass removes one or moves on. *)
Fixpoint reap_loop {A} (finished : A → bool) (fuel i : nat) (ws : list A) : outcome (option (list A)) :=
  if (i <? length ws)%nat then
    match fuel with
    | O => Done None
    | S fuel' =>
        w ← buf_get ws i;
        if finished w : bool then reap_loop finished fuel' i (swap_remove ws i)
        else reap_loop finished fuel' (S i) ws
    end
  else Done (Some ws).
Definition reap {A} (finished : A → bool) (ws : list A) : outcome (option (list A)) :=
  reap_loop finished (length ws) 0 ws.

(** A worker thread: serving its connection; past the [fetch_sub] that gives the slot back;
    finished, as [is_finished] sees it. *)
Inductive Worker (C : Type) :=
| Serving (c : C)
| GivenBack
| Finished.
Arguments Serving {C}.
Arguments GivenBack {C}.
Arguments Finished {C}.

(** The listener: the shared counter, the worker threads, the connections refused, and how the
    loop returned. *)
Record Listener (C : Type) := mkListener {
  ln_active : Z;
  ln_workers : list (Worker C);
  ln_dropped : list C;
  ln_end : option (result unit io_error)
}.
Arguments mkListener {C}.
Arguments ln_active {C}.
Arguments ln_workers {C}.
Arguments ln_dropped {C}.
Arguments ln_end {C}.

Section listener.
Context {C : Type}.
Implicit Types l : Listener C.

Definition listener_new : Listener C := mkListener 0 [] [] None.

Definition is_finished (w : Worker C) : bool := match w with Finished => true | _ => false end.
Definition conn_of (w : Worker C) : option C := match w with Serving c => Some c | _ => None end.

(** A turn of the loop of [listen_and_serve]. *)
Definition serve_turn (limits : ServerLimits) (stop : bool) (answer : result C io_error) l : outcome (option (Listener C)) :=
  if stop then Done (Some (mkListener (ln_active l) (ln_workers l) (ln_dropped l) (Some (Ok ())))) else
  o ← reap is_finished (ln_workers l);
  match o with
  | None => Done None
  | Some workers =>
      Done (Some
        match answer with
        | Ok c =>
            let '(ok, active) := accept_conn limits (ln_active l) in
            if ok then mkListener active (workers ++ [Serving c]) (ln_dropped l) None
            else mkListener active workers (ln_dropped l ++ [c]) None
        | Err e =>
            mkListener (ln_active l) workers (ln_dropped l)
              (if bool_decide (ie_kind e = WouldBlock) then None else Some (Err e))
        end)
  end.

(** [handle_conn] returned in a worker: the counter is given back; then the thread ends. *)
Definition worker_gives_back (i : nat) l : Listener C :=
  mkListener (conn_ended (ln_active l)) (<[i := GivenBack]> (ln_workers l)) (ln_dropped l) (ln_end l).
Definition worker_ends (i : nat) l : Listener C :=
  mkListener (ln_active l) (<[i := Finished]> (ln_workers l)) (ln_dropped l) (ln_end l).

(** The loop's thread takes turns until it returns; the workers end on their own, also after.  A
    worker that panics ends the process (the release profile has panic = "abort"), so a worker
    that is gone has given its count back. *)
Inductive serve_step (limits : ServerLimits) : Listener C → Listener C → Prop :=
| step_turn l stop answer l' :
    ln_end l = None → serve_turn limits stop answer l = Done (Some l') → serve_step limits l l'
| step_gives_back l i c :
    ln_workers l !! i = Some (Serving c) → serve_step limits l (worker_gives_back i l)
| step_ends l i : ln_workers l !! i = Some GivenBack → serve_step limits l (worker_ends i l).
Definition serving (limits : ServerLimits) (l : Listener C) : Prop := rtc (serve_step limits) listener_new l.

(** The connections being served. *)
Definition running l : list C := omap conn_of (ln_workers l).
End listener.

(** ** Joining the finished workers *)

Lemma swap_remove_spec {A} (ws : list A) i w :
  ws !! i = Some w →
  w :: swap_remove ws i ≡ₚ ws ∧ take i (swap_remove ws i) = take i ws ∧ S (length (swap_remove ws i)) = length ws.
Proof.
  intros Hi. pose proof (lookup_lt_Some _ _ _ Hi) as Hlt. destruct ws as [|y ws _] using rev_ind; [done|].
  unfold swap_remove. rewrite last_snoc. rewrite length_app in *. simpl length in *.
  replace (length ws + 1 - 1)%nat with (length ws) by lia.
  destruct (decide (i = length ws)) as [->|Hne].
  - rewrite insert_app_r_alt, Nat.sub_diag, take_app_length by lia.
    rewrite lookup_app_r, Nat.sub_diag in Hi by lia. injection Hi as ->. rewrite take_app_length, firstn_all.
    split; [apply Permutation_cons_append|]. split; [done|lia].
  - rewrite insert_app_l, take_app_length' by (rewrite ?length_insert; lia).
    rewrite lookup_app_l in Hi by lia.
    rewrite take_insert_ge, take_app_le, length_insert by lia. split_and!; [|done|lia].
    apply list_elem_of_split_length in Hi as (l1 & l2 & -> & ->).
    rewrite insert_app_r_alt, Nat.sub_diag by lia. simpl.
    solve_Permutation.
Qed.

(** Joining removes exactly the finished workers, in as many passes as there are workers. *)
Lemma reap_loop_spec {A} (finished : A → bool) fuel : ∀ i ws,
  (length ws ≤ i + fuel)%nat → Forall (λ w, finished w = false) (take i ws) →
  ∃ ws', reap_loop finished fuel i ws = Done (Some ws') ∧ ws' ≡ₚ filter (λ w, finished w = false) ws.
Proof.
  assert (Hstop : ∀ i ws, (length ws ≤ i)%nat → Forall (λ w, finished w = false) (take i ws) →
    ws ≡ₚ filter (λ w, finished w = false) ws).
  { intros i ws Hle Hf. rewrite take_ge in Hf by done. clear -Hf. induction Hf as [|w ws Hw _ IH]; [done|].
    rewrite filter_cons_True by done. by constructor. }
  induction fuel as [|fuel IH]; intros i ws Hfuel Hf; simpl;
    destruct (Nat.ltb_spec i (length ws)) as [Hlt|Hge]; [lia|by eauto| |by eauto].
  destruct (lookup_lt_is_Some_2 ws i Hlt) as [w Hw]. rewrite (buf_get_done ws i w Hw). simpl.
  destruct (finished w) eqn:Hfin.
  - destruct (swap_remove_spec ws i w Hw) as (Hperm & Htake & Hlen).
    destruct (IH i (swap_remove ws i)) as (ws' & -> & Hws'); [lia|by rewrite Htake|].
    exists ws'. split; [done|]. etrans; [exact Hws'|].
    etrans; [|apply (filter_Permutation _ _ _ Hperm)]. rewrite filter_cons_False; [done|by rewrite Hfin].
  - apply IH; [lia|]. rewrite (take_S_r _ _ _ Hw), Forall_app. auto.
Qed.

Lemma reap_spec {A} (finished : A → bool) ws :
  ∃ ws', reap finished ws = Done (Some ws') ∧ ws' ≡ₚ filter (λ w, finished w = false) ws.
Proof. apply reap_loop_spec; [lia|constructor]. Qed.

(** ** The cap on connections *)

Section cap.
Context {C : Type} (limits : ServerLimits).
Hypothesis Hmax : 0 ≤ sl_max_concurrent_connections limits < 2 ^ 64.
Implicit Types l : Listener C.

(** The shared counter is the number of workers that have not given their slot back, which the
    limit bounds. *)
Definition listener_inv l : Prop :=
  ln_active l = Z.of_nat (length (running l)) ∧ ln_active l ≤ sl_max_concurrent_connections limits.

(** Joining finished workers leaves the ones that serve. *)
Lemma running_reaped (ws ws' : list (Worker C)) :
  ws' ≡ₚ filter (λ w, is_finished w = false) ws → omap conn_of ws' ≡ₚ omap conn_of ws.
Proof.
  intros ->. induction ws as [|w ws IH]; [done|]. rewrite filter_cons. by destruct w; simpl; rewrite ?IH.
Qed.

(** A worker that ends its connection leaves the others. *)
Lemma running_insert (ws : list (Worker C)) i w w' :
  ws !! i = Some w → conn_of w' = None →
  option_list (conn_of w) ++ omap conn_of (<[i := w']> ws) ≡ₚ omap conn_of ws.
Proof.
  intros Hi Hw'. apply list_elem_of_split_length in Hi as (k1 & k2 & -> & ->).
  rewrite insert_app_r_alt, Nat.sub_diag by lia. simpl. rewrite !omap_app. simpl. rewrite Hw'.
  destruct (conn_of w); simpl; [solve_Permutation|done].
Qed.

(** A turn never runs out of fuel; what it does with each answer. *)
Lemma serve_turn_spec stop answer l :
  listener_inv l → ∃ l', serve_turn limits stop answer l = Done (Some l') ∧ listener_inv l' ∧
    match stop, answer with
    | true, _ => running l' = running l ∧ ln_dropped l' = ln_dropped l ∧ ln_end l' = Some (Ok ())
    | false, Ok c =>
        if sl_max_concurrent_connections limits <=? ln_active l
        then running l' ≡ₚ running l ∧ ln_dropped l' = ln_dropped l ++ [c] ∧ ln_end l' = None
        else running l' ≡ₚ c :: running l ∧ ln_dropped l' = ln_dropped l ∧ ln_end l' = None
    | false, Err e =>
        running l' ≡ₚ running l ∧ ln_dropped l' = ln_dropped l ∧
        ln_end l' = if bool_decide (ie_kind e = WouldBlock) then None else Some (Err e)
    end.
Proof.
  intros [Ha Hle]. unfold serve_turn. destruct stop; [by eexists|].
  destruct (reap_spec is_finished (ln_workers l)) as (ws & -> & Hws). simpl.
  apply running_reaped in Hws. pose proof (Permutation_length Hws) as Hlen.
  unfold listener_inv, running in *. destruct answer as [c|e]; unfold accept_conn.
  - destruct (Z.leb_spec (sl_max_concurrent_connections limits) (ln_active l)); eexists;
      (split; [done|]); simpl.
    + rewrite Hlen. done.
    + rewrite omap_app, length_app, Hlen, Hws. simpl. rewrite Permutation_app_comm.
      unfold wrap. rewrite Z.mod_small by lia. split; [lia|done].
  - eexists; (split; [done|]); simpl. by rewrite Hlen.
Qed.

Lemma serve_step_inv l l' : listener_inv l → serve_step limits l l' → listener_inv l'.
Proof.
  intros Hinv Hstep. destruct Hstep as [l stop answer l' _ Hturn|l i c Hi|l i Hi].
  - destruct (serve_turn_spec stop answer l Hinv) as (l'' & Hturn' & ? & _). congruence.
  - destruct Hinv as [Ha Hle]. pose proof (Permutation_length (running_insert _ _ _ GivenBack Hi eq_refl)) as Hlen.
    unfold listener_inv, running in *. cbn [ln_active ln_workers worker_gives_back] in *. unfold conn_ended, wrap.
    simpl length in Hlen. rewrite Z.mod_small by lia. lia.
  - destruct Hinv as [Ha Hle]. pose proof (Permutation_length (running_insert _ _ _ Finished Hi eq_refl)) as Hlen.
    unfold listener_inv, running in *. simpl in *. lia.
Qed.

Lemma serving_inv l : serving limits l → listener_inv l.
Proof.
  unfold serving. intros Hr. assert (Hinit : listener_inv (listener_new (C := C))) by (split; simpl; lia).
  revert Hinit. induction Hr; eauto using serve_step_inv.
Qed.
End cap.

(** C24: At every point of the listener's run, over every sequence of accepted connections,
    refusals, accept errors and endings of worker threads: the shared counter is exactly the
    number of connections being served and never exceeds [max_concurrent_connections]; a turn
    terminates without panicking; it serves a new connection exactly when a slot is free and
    drops it otherwise, and joining finished workers (swap_remove) loses no running one. *)
Theorem listener_bounded {C : Type} (limits : ServerLimits) (l : Listener C) (stop : bool) (answer : result C io_error)
  (Hmax : 0 ≤ sl_max_concurrent_connections limits < 2 ^ 64) (Hserving : serving limits l) :
  ln_active l = Z.of_nat (length (running l)) ∧
  ln_active l ≤ sl_max_concurrent_connections limits ∧
  ∃ l', serve_turn limits stop answer l = Done (Some l') ∧
    match stop, answer with
    | true, _ => running l' = running l ∧ ln_dropped l' = ln_dropped l ∧ ln_end l' = Some (Ok ())
    | false, Ok c =>
        if sl_max_concurrent_connections limits <=? Z.of_nat (length (running l))
        then running l' ≡ₚ running l ∧ ln_dropped l' = ln_dropped l ++ [c] ∧ ln_end l' = None
        else running l' ≡ₚ c :: running l ∧ ln_dropped l' = ln_dropped l ∧ ln_end l' = None
    | false, Err e =>
        running l' ≡ₚ running l ∧ ln_dropped l' = ln_dropped l ∧
        ln_end l' = if bool_decide (ie_kind e = WouldBlock) then None else Some (Err e)
    end.
Proof.
  pose proof (serving_inv limits Hmax l Hserving) as Hinv. pose proof Hinv as [Ha Hle].
  destruct (serve_turn_spec limits Hmax stop answer l Hinv) as (l' & Hturn & _ & Hcase).
  rewrite <-Ha. eauto.
Qed.

(** A server that serves one connection at a time, while it serves one. *)
Definition one_at_a_time : ServerLimits :=
  mkServerLimits (sl_max_object_size limits_default) (sl_min_block_size limits_default)
    (sl_max_block_size limits_default) (sl_max_rate_bps limits_default) (sl_max_alpha_bps limits_default) 1.
Definition demo_listener : Listener string := mkListener 1 [Finished; Serving "bob"] [] None.

Lemma demo_serving : serving one_at_a_time demo_listener.
Proof.
  eapply rtc_l; [by eapply (step_turn _ _ false (Ok "amy"))|].
  eapply rtc_l; [by eapply (step_gives_back _ _ 0)|].
  eapply rtc_l; [by eapply (step_turn _ _ false (Ok "bob"))|].
  eapply rtc_l; [by eapply (step_ends _ _ 0)|]. apply rtc_refl.
Qed.

Lemma listener_bounded_witness :
  ∃ l', serve_turn one_at_a_time false (Ok "eve") demo_listener = Done (Some l') ∧
    running l' ≡ₚ ["bob"] ∧ ln_dropped l' = ["eve"] ∧ ln_end l' = None.
Proof.
  destruct (listener_bounded one_at_a_time demo_listener false (Ok "eve")) as (_ & _ & Hturn);
    [simpl; lia|apply demo_serving|exact Hturn].
Defined.

(** ** The client's entry points *)

(** [connect_control]: the first address the name resolves to, and what connecting to it gives. *)
Definition connect_control {S} (lookup : string → result (list SocketAddr) io_error)
    (connect : SocketAddr → result S io_error) (server_addr : string) : result S io_error :=
  match lookup server_addr with
  | Err e => Err e
  | Ok [] => Err (io_other "cannot resolve server")
  | Ok (addr :: _) => connect addr
  end.

Section entry.
Context {Src K : Type} `{!BlockSource Src, !Crc32c, !BlockSink K, !HmacCrate, !KexCrate}.
Context (connect : SocketAddr → result unit io_error).
Implicit Types (env : ClientEnv Src K) (p : TransferParams).
Local Abbreviation cli := (act Src (result unit GirthError)).

Definition send_core env (server_addr : string) (source : Src) (name : string) p
    (handle : option TransferHandle) (warm_start : option RateWarmStart) (token : option (list byte))
    : cli (option TransferHandle) :=
  let handle := mark_phase handle Connecting in
  _ ← try_io (connect_control (ce_lookup env) connect server_addr);
  send_core_with_stream env server_addr source name p warm_start token handle.

Definition recv_core env (server_addr name : string) (sink : K) p
    (handle : option TransferHandle) (warm_start : option RateWarmStart) (token : option (list byte))
    : cli (K * option TransferHandle) :=
  let handle := mark_phase handle Connecting in
  _ ← try_io (connect_control (ce_lookup env) connect server_addr);
  recv_core_with_stream env server_addr name sink p warm_start token handle.

(** What a call without a handle answers. *)
Definition answer_of {A} (m : cli A) : list (event Src) * outcome (result unit GirthError) :=
  match m with
  | (es, Go _) => (es, Done (Ok ()))
  | (es, Return r) => (es, Done r)
  | (es, Crash) => (es, Panic)
  end.

(** What a call with a handle answers, [mark_result] included.  An early return loses no
    phase: it is an error, and [set_failed] overwrites the phase. *)
Definition answer_marked (handle : TransferHandle) (m : cli (option TransferHandle))
    : list (event Src) * outcome (option TransferHandle * result unit GirthError) :=
  match m with
  | (es, Go h) => (es, Done (mark_result h (Ok ())))
  | (es, Return r) => (es, Done (mark_result (mark_phase (Some handle) Connecting) r))
  | (es, Crash) => (es, Panic)
  end.

Definition client_send_from env server_addr source name p token :=
  answer_of (send_core env server_addr source name p None None token).
Definition client_recv_into env server_addr name sink p token :=
  answer_of (recv_core env server_addr name sink p None None token).

Definition client_send_from_with_handle env server_addr source name p (handle : TransferHandle) token :=
  answer_marked handle (send_core env server_addr source name p (Some handle) None token).
Definition client_recv_into_with_handle env server_addr name sink p (handle : TransferHandle) token :=
  answer_marked handle
    ('(_, h) ← recv_core env server_addr name sink p (Some handle) None token; mret h).

(** The file-backed calls of the command line, without the thread that prints statistics:
    the object is named after the file; a pull into a directory takes the remote's name. *)
Definition client_send env (open : string → result Src io_error) server_addr local_path p :=
  match open local_path with
  | Err e => ([], Done (Err (from_io e)))
  | Ok source => answer_of (send_core env server_addr source (basename local_path) p None None None)
  end.
Definition recv_path (is_dir : string → bool) (remote_name out_path : string) : string :=
  if bool_decide (out_path = "") || is_dir out_path then path_join out_path (basename remote_name) else out_path.
Definition client_recv env (create : string → result K io_error) (is_dir : string → bool)
    server_addr remote_name out_path p :=
  match create (recv_path is_dir remote_name out_path) with
  | Err e => ([], Done (Err (from_io e)))
  | Ok sink => answer_of (recv_core env server_addr remote_name sink p None None None)
  end.
End entry.

(** ** What the cores return *)

Section ends.
Context {Src : Type}.
Local Abbreviation cli := (act Src (result unit GirthError)).

(** A core goes on with a value in [Q], or returns early with an error. *)
Definition ends {A} (Q : A → Prop) (m : cli A) : Prop :=
  match m.2 with Go a => Q a | Return (Ok _) => False | Return (Err _) | Crash => True end.

Lemma ends_bind {A B} (Q : B → Prop) (m : cli A) (f : A → cli B) :
  ends (λ _, True) m → (∀ a, m.2 = Go a → ends Q (f a)) → ends Q (m ≫= f).
Proof.
  unfold ends. destruct m as [es [a|r|]]; simpl; [|done|done]. intros _ Hf.
  specialize (Hf a eq_refl). by destruct (f a).
Qed.
Lemma ends_ret {A} (Q : A → Prop) a : Q a → ends Q (mret (M := cli) a).
Proof. done. Qed.
Lemma ends_err {A} (Q : A → Prop) e : ends Q (finish (Err e) : cli A).
Proof. done. Qed.
Lemma ends_emit (e : event Src) : ends (λ _, True) (emit e : cli unit).
Proof. done. Qed.
Lemma ends_may_panic {A} (o : outcome A) : ends (λ _, True) (may_panic o : cli A).
Proof. by destruct o. Qed.
Lemma ends_try_io {A} (r : result A io_error) : ends (λ _, True) (try_io (Src := Src) r).
Proof. by destruct r. Qed.
Lemma ends_try_girth {A} (r : result A GirthError) : ends (λ _, True) (try_girth (Src := Src) r).
Proof. by destruct r. Qed.
End ends.

#[export] Hint Resolve ends_ret ends_err ends_emit ends_may_panic ends_try_io ends_try_girth : trace.

Ltac ends_step :=
  match goal with
  | |- ends _ (_ ≫= _) => apply ends_bind; [|intros ? ?]
  | |- ends _ (match ?x with _ => _ end) => destruct x eqn:?
  | |- ends _ _ => solve [auto with trace]
  end.

(** The handle of a finished transfer, if there is one. *)
Definition handle_completed (handle handle' : option TransferHandle) : Prop :=
  handle' = (λ h, set_phase h Complete) <$> handle.

Lemma mark_phase_again handle q : handle_completed handle (mark_phase (mark_phase handle q) Complete).
Proof. destruct handle; [by destruct q|done]. Qed.

Section cores.
Context {Src K : Type} `{!BlockSource Src, !Crc32c, !BlockSink K, !HmacCrate, !KexCrate}.
Context (connect : SocketAddr → result unit io_error).
Implicit Types (env : ClientEnv Src K) (p : TransferParams).

Lemma ends_handshake env p token mode name size crc warm :
  ends (λ _, True) (handshake env p token mode name size crc warm).
Proof. unfold handshake. repeat ends_step. Qed.
Hint Resolve ends_handshake : trace.

(** A core that goes on has run the data plane without error and completed the handle. *)
Lemma send_core_ends env addr source name p handle warm token :
  ends (handle_completed handle) (send_core connect env addr source name p handle warm token).
Proof.
  unfold send_core, send_core_with_stream. cbv zeta. repeat ends_step.
  apply ends_ret. by destruct handle.
Qed.

Lemma recv_core_ends env addr name sink p handle warm token :
  ends (λ '(_, h), handle_completed handle h) (recv_core connect env addr name sink p handle warm token).
Proof.
  unfold recv_core, recv_core_with_stream. cbv zeta. repeat ends_step; apply ends_ret; by destruct handle.
Qed.

(** An unreachable server: nothing is sent. *)
Lemma send_core_unreachable env addr source name p handle warm token e :
  connect_control (ce_lookup env) connect addr = Err e →
  send_core connect env addr source name p handle warm token = ([], Return (Err (from_io e))).
Proof. intros Hc. unfold send_core. by rewrite Hc. Qed.
Lemma recv_core_unreachable env addr name sink p handle warm token e :
  connect_control (ce_lookup env) connect addr = Err e →
  recv_core connect env addr name sink p handle warm token = ([], Return (Err (from_io e))).
Proof. intros Hc. unfold recv_core. by rewrite Hc. Qed.

(** What [mark_result] makes of a core's end. *)
Lemma answer_marked_reports handle m es h' res :
  ends (handle_completed (Some handle)) m →
  answer_marked (Src := Src) handle m = (es, Done (h', res)) →
  match res with
  | Ok _ => h' = Some (set_phase handle Complete)
  | Err e => h' = Some (set_failed handle (error_to_string e))
  end.
Proof.
  unfold ends, answer_marked. destruct m as [es0 [h|r|]]; simpl; [| |done].
  - intros -> [= _ <- <-]. done.
  - destruct r; [done|]. intros _ [= _ <- <-]. done.
Qed.
End cores.

(** C25: the calls with a handle always settle it.  Whatever the network, the server, the source
    and the sink answer, when [client_send_from_with_handle] or [client_recv_into_with_handle]
    returns, the handle is [Complete] with no error if the call returned [Ok], and [Failed]
    with exactly the returned error's text if it returned an error, also when connecting is
    what failed: then nothing was sent and the error is classified (a timeout is retryable). *)
Theorem client_handle_settled {Src K} `{!BlockSource Src, !Crc32c, !BlockSink K, !HmacCrate, !KexCrate}
    connect (env : ClientEnv Src K) addr source name (sink : K) p handle token :
  let push := client_send_from_with_handle connect env addr source name p handle token in
  let pull := client_recv_into_with_handle connect env addr name sink p handle token in
  (∀ es h' res, push = (es, Done (h', res)) ∨ pull = (es, Done (h', res)) →
    match res with
    | Ok _ => h' = Some (set_phase handle Complete)
    | Err e => h' = Some (set_failed handle (error_to_string e))
    end) ∧
  (∀ e, connect_control (ce_lookup env) connect addr = Err e →
    push = ([], Done (Some (set_failed handle (error_to_string (from_io e))), Err (from_io e))) ∧
    pull = ([], Done (Some (set_failed handle (error_to_string (from_io e))), Err (from_io e)))).
Proof.
  intros push pull. split.
  - intros es h' res [E|E]; eapply answer_marked_reports; [|exact E| |exact E].
    + apply send_core_ends.
    + pose proof (recv_core_ends connect env addr name sink p (Some handle) None token) as Hends.
      destruct (recv_core _ _ _ _ _ _ _ _ _) as [es0 [[k h]|r|]]; done.
  - intros e Hc. unfold push, pull, client_send_from_with_handle, client_recv_into_with_handle.
    by rewrite (send_core_unreachable connect env addr source name p _ _ _ e Hc),
      (recv_core_unreachable connect env addr name sink p _ _ _ e Hc).
Qed.

(** A server that does not answer in time, seen from a push. *)
Definition no_answer (a : SocketAddr) : result unit io_error := Err (mkIoError TimedOut "connection timed out").

Lemma client_handle_settled_witness :
  @client_send_from_with_handle MemSource MemSink mem_source castagnoli toy_hmac toy_kex no_answer
    demo_client_env "srv:7400" (mkMemSource demo_content) "file.bin" default_params handle_default None =
  ([], Done (Some (set_failed handle_default "transfer timed out"), Err Timeout)) ∧ is_retryable Timeout = true.
Proof.
  split; [|reflexivity].
  destruct (@client_handle_settled MemSource MemSink mem_source castagnoli (@mem_sink castagnoli) toy_hmac toy_kex
              no_answer demo_client_env "srv:7400" (mkMemSource demo_content) "file.bin" mem_sink_new
              default_params handle_default None) as [_ Hc].
  exact (proj1 (Hc (mkIoError TimedOut "connection timed out") eq_refl)).
Defined.
