(* ===== verification/ControlPlane.v ===== *)
(** * The control plane arranges the transfer (src/transfer.rs, both ends)

    The client's cores and the server's handlers of [Handlers] put together over one
    exchange of Hello and Ack.  The data plane's theorems ask for two ends that agree and
    for a receiver that is set up soundly; here the handshake is shown to provide both. *)

From S2P Require Import Prelude Float64 Errors Net Protocol Rate Stats Runtime BlockIO Crypto Auth Control.
From S2P Require Import Transfer Sender Receiver ReceiverSys EndToEnd Handlers.

(** The receiver runs with the defaults filled in. *)
Lemma new_receiver_cfg {K} num_cpu c (sink : K) stats cfg st :
  new_receiver num_cpu c sink stats = Done (cfg, st) → cfg = recv_defaults num_cpu c.
Proof.
  unfold new_receiver. destruct (stage_depth _) as [d|]; [|done]. cbn [mbind outcome_bind].
  destruct (warm_receiver _ _ _) as [[]|]; [|done]. cbn [mbind outcome_bind]. intros E%Done_inj. by injection E.
Qed.

(** ** Traces of the client *)

Section client_traces.
Context {Src K : Type} `{!BlockSource Src, !Crc32c, !BlockSink K, !HmacCrate, !KexCrate}.
Implicit Types (env : ClientEnv Src K) (p : TransferParams).

(** The Hello a core writes. *)
Definition core_hello env p (token : option (list byte)) (mode name : string) (size crc : Z)
    (warm : option RateWarmStart) : Hello :=
  client_hello env p mode name size crc (default warm_default warm) (client_keys env p).2
    (client_proof token mode name size (client_keys env p).2).

Lemma traced_try_io {A} (P : event Src → Prop) (r : result A io_error) : traced P (try_io r).
Proof. unfold try_io. repeat trace_step. Qed.
Lemma traced_try_girth {A} (P : event Src → Prop) (r : result A GirthError) : traced P (try_girth r).
Proof. unfold try_girth. repeat trace_step. Qed.
Hint Resolve traced_try_io traced_try_girth : trace.

Lemma handshake_traced (P : event Src → Prop) env p token mode name size crc warm :
  P (EvHello (core_hello env p token mode name size crc warm)) →
  traced P (handshake env p token mode name size crc warm).
Proof.
  unfold core_hello, handshake. destruct (client_keys env p) as [priv pub]. cbn [fst snd]. intros Hh.
  repeat trace_step.
Qed.

Lemma send_core_traced (P : event Src → Prop) env addr source name p warm token handle :
  (∀ crc, P (EvHello (core_hello env p token MODE_SEND name (u64_as_i64 (src_len source)) crc (warm_for_params p warm)))) →
  P EvBind →
  (∀ crc a crypto peer total,
     (handshake env p token MODE_SEND name (u64_as_i64 (src_len source)) crc (warm_for_params p warm)).2 = Go (a, crypto) →
     num_blocks (u64_as_i64 (src_len source)) (tp_block_size p) = Done total →
     P (EvSend (push_sender p a crypto peer source (u64_as_i64 (src_len source)) total (warm_for_params p warm)))) →
  traced P (send_core_with_stream env addr source name p warm token handle).
Proof.
  intros Hh Hb Hs. unfold send_core_with_stream. cbv zeta.
  apply traced_bind; [apply traced_try_io|]. intros crc _.
  apply traced_bind; [by apply handshake_traced|]. intros [a crypto] Hg.
  apply traced_bind; [apply traced_try_io|]. intros peer _.
  apply traced_bind; [by apply traced_emit|]. intros _ _.
  apply traced_bind; [apply traced_try_io|]. intros _ _.
  apply traced_bind; [apply traced_may_panic|]. intros total Ht%may_panic_go.
  apply traced_bind; [by apply traced_emit; eapply Hs|]. intros _ _. repeat trace_step.
Qed.

Lemma recv_core_traced (P : event Src → Prop) env addr name (sink : K) p warm token handle :
  P (EvHello (core_hello env p token MODE_RECV name 0 0 (warm_for_params p warm))) →
  (∀ n, P (EvAllocate n)) → P EvBind →
  (∀ a crypto peer total cfg sink st,
     (handshake env p token MODE_RECV name 0 0 (warm_for_params p warm)).2 = Go (a, crypto) →
     num_blocks (a_size a) (tp_block_size p) = Done total →
     new_receiver (ce_num_cpu env) (pull_receiver p a crypto peer total (warm_for_params p warm)) (sink : K)
       stats_default = Done (cfg, st) → P (EvRecv cfg)) →
  traced P (recv_core_with_stream env addr name sink p warm token handle).
Proof.
  intros Hh Ha Hb Hs. unfold recv_core_with_stream. cbv zeta.
  apply traced_bind; [by apply handshake_traced|]. intros [a crypto] Hg.
  apply traced_bind; [by apply traced_emit|]. intros _ _. destruct (sink_allocate sink _) as [sink1 r].
  apply traced_bind; [apply traced_try_io|]. intros _ _.
  apply traced_bind; [apply traced_try_io|]. intros peer _.
  apply traced_bind; [by apply traced_emit|]. intros _ _.
  apply traced_bind; [apply traced_try_io|]. intros _ _.
  apply traced_bind; [apply traced_may_panic|]. intros total Ht%may_panic_go.
  apply traced_bind; [apply traced_may_panic|]. intros [cfg st] Hn%may_panic_go.
  apply traced_bind; [by apply traced_emit; eapply Hs|]. intros _ _. repeat trace_step.
Qed.

(** The Hello and the sender of a client's push. *)
Definition push_client_event env source name p warm token (e : event Src) : Prop :=
  let size := u64_as_i64 (src_len source) in
  (∀ h, e = EvHello h → ∃ crc, h = core_hello env p token MODE_SEND name size crc (warm_for_params p warm)) ∧
  (∀ cfg, e = EvSend cfg → ∃ crc a crypto peer total,
     (handshake env p token MODE_SEND name size crc (warm_for_params p warm)).2 = Go (a, crypto) ∧
     num_blocks size (tp_block_size p) = Done total ∧
     cfg = push_sender p a crypto peer source size total (warm_for_params p warm)).

Lemma push_client_events env addr source name p warm token handle :
  traced (push_client_event env source name p warm token)
    (send_core_with_stream env addr source name p warm token handle).
Proof.
  apply send_core_traced.
  - intros crc. split; [|done]. intros h [= <-]. by exists crc.
  - by split.
  - intros crc a crypto peer total Hg Ht. split; [done|]. intros c [= <-]. by exists crc, a, crypto, peer, total.
Qed.

(** The Hello and the receiver of a client's pull. *)
Definition pull_client_event env name p warm token (e : event Src) : Prop :=
  (∀ h, e = EvHello h → h = core_hello env p token MODE_RECV name 0 0 (warm_for_params p warm)) ∧
  (∀ cfg, e = EvRecv cfg → ∃ a crypto peer total,
     (handshake env p token MODE_RECV name 0 0 (warm_for_params p warm)).2 = Go (a, crypto) ∧
     num_blocks (a_size a) (tp_block_size p) = Done total ∧
     cfg = recv_defaults (ce_num_cpu env) (pull_receiver p a crypto peer total (warm_for_params p warm))).

Lemma pull_client_events env addr name (sink : K) p warm token handle :
  traced (pull_client_event env name p warm token)
    (recv_core_with_stream env addr name sink p warm token handle).
Proof.
  apply recv_core_traced.
  - split; [|done]. by intros h [= <-].
  - by split.
  - by split.
  - intros a crypto peer total cfg k st Hg Ht ->%new_receiver_cfg. split; [done|]. intros c [= <-].
    by exists a, crypto, peer, total.
Qed.
End client_traces.

(** ** Traces of the server *)

Section server_requests.
Context {Src K : Type} `{!BlockSource Src, !Crc32c, !BlockSink K, !HmacCrate, !KexCrate}.
Implicit Types (env : ServerEnv Src K) (h : Hello).

Lemma serve_request_traced (P : event Src → Prop) env params authorizer limits dir peer range session h :
  (∀ err b, P (EvAck (ack_err err b))) →
  (validate_hello_limits h limits = Ok () → h_mode h = MODE_SEND → ∀ auth,
     traced P (recv_from_client env h session (request_params params h) dir peer range auth)) →
  (validate_hello_limits h limits = Ok () → h_mode h = MODE_RECV → ∀ auth,
     traced P (send_to_client env h session (request_params params h) dir peer limits range auth)) →
  traced P (serve_request env params authorizer limits dir peer range session h).
Proof.
  intros Hrej Hs Hr. unfold serve_request. destruct (negb _); [by apply traced_reject|].
  destruct (validate_hello_limits h limits) as [[]|]; [|by apply traced_reject].
  apply traced_bind; [unfold authenticate; repeat (trace_step || apply traced_reject); done|]. intros auth _.
  destruct (bool_decide_reflect (h_mode h = MODE_SEND)); [by apply traced_as_call, Hs|].
  destruct (bool_decide_reflect (h_mode h = MODE_RECV)); [by apply traced_as_call, Hr|]. by apply traced_reject.
Qed.

(** What the server negotiated for a request. *)
Definition negotiated env h (session : Z) : result (bool * string * list byte * option AeadBox) string :=
  negotiate_crypto_server (se_aes_hardware env) (se_secret env) (h_encrypt h) (default [] (h_ciphers h))
    (default [] (h_pub_key h)) session.

Lemma negotiate_go env h session v : (negotiate (Src := Src) env h session).2 = Go v → negotiated env h session = Ok v.
Proof. unfold negotiate, negotiated. destruct (negotiate_crypto_server _ _ _ _ _ _); [by intros [= ->]|done]. Qed.

(** The accepting reply and the receiver of a push. *)
Definition push_event env params (h : Hello) session peer (e : event Src) : Prop :=
  (∀ a, e = EvAck a → a_ok a = true → ∃ port enc cipher pub crypto auth,
     negotiated env h session = Ok (enc, cipher, pub, crypto) ∧ a = ack_ok h port session 0 0 enc cipher pub auth) ∧
  (∀ cfg, e = EvRecv cfg → ∃ enc cipher pub crypto total,
     negotiated env h session = Ok (enc, cipher, pub, crypto) ∧
     num_blocks (h_size h) (tp_block_size (request_params params h)) = Done total ∧
     cfg = recv_defaults (se_num_cpu env) (push_config h session (request_params params h) peer crypto total)).

Lemma push_events env params authorizer limits dir peer range session h :
  h_mode h = MODE_SEND →
  traced (push_event env params h session peer)
    (serve_request env params authorizer limits dir peer range session h).
Proof.
  intros Hm. assert (∀ err b, push_event env params h session peer (EvAck (ack_err err b))) as Hrej
    by (split; [by intros a [= <-]|done]).
  apply serve_request_traced; [done| |by rewrite Hm].
  intros _ _ auth. apply recv_from_client_traced; try done.
  - intros port enc cipher pub crypto Hn%negotiate_go. split; [|done]. intros a [= <-] _. by eexists _, _, _, _, _, _.
  - intros enc cipher pub crypto total cfg sink st Hn%negotiate_go Ht E%new_receiver_cfg. split; [done|].
    intros cfg' [= <-]. by eexists _, _, _, _, _.
Qed.

(** The accepting reply and the sender of a pull; both speak of the object that was opened. *)
Definition pull_event env params (h : Hello) session dir peer (e : event Src) : Prop :=
  (∀ a, e = EvAck a → a_ok a = true → ∃ port enc cipher pub crypto auth source crc,
     negotiated env h session = Ok (enc, cipher, pub, crypto) ∧ pulled env h dir source ∧
     source_crc32c source = Ok crc ∧ a = ack_ok h port session (src_len source) crc enc cipher pub auth) ∧
  (∀ cfg, e = EvSend cfg → ∃ enc cipher pub crypto source total,
     negotiated env h session = Ok (enc, cipher, pub, crypto) ∧ pulled env h dir source ∧
     num_blocks (src_len source) (tp_block_size (request_params params h)) = Done total ∧
     cfg = pull_config h session (request_params params h) peer crypto source (src_len source) total).

Lemma pull_events env params authorizer limits dir peer range session h :
  h_mode h = MODE_RECV →
  traced (pull_event env params h session dir peer)
    (serve_request env params authorizer limits dir peer range session h).
Proof.
  intros Hm. assert (∀ err b, pull_event env params h session dir peer (EvAck (ack_err err b))) as Hrej
    by (split; [by intros a [= <-]|done]).
  apply serve_request_traced; [done|by rewrite Hm|].
  intros _ _ auth. apply send_to_client_traced; try done.
  - intros port enc cipher pub crypto source crc Hn%negotiate_go Hp Hc. split; [|done]. intros a [= <-] _.
    by eexists _, _, _, _, _, _, _, _.
  - intros enc cipher pub crypto total source Hn%negotiate_go Hp Ht _ _. split; [done|].
    intros cfg [= <-]. by eexists _, _, _, _, _, _.
Qed.

Lemma pulled_functional env h dir s1 s2 : pulled env h dir s1 → pulled env h dir s2 → s1 = s2.
Proof. intros (n & E1 & O1) (m & E2 & O2). rewrite E1 in E2. injection E2 as <-. rewrite O1 in O2. by injection O2. Qed.

Lemma ack_ok_pub h port session size crc enc cipher pub auth :
  default [] (a_pub_key (ack_ok h port session size crc enc cipher pub auth)) = pub.
Proof. unfold ack_ok. simpl. by case_bool_decide; subst. Qed.

(** The client derives the AEAD the server chose. *)
Lemma negotiation_agrees {Src' K'} `{!KexLaws} env (cenv : ClientEnv Src' K') p token mode name size crc warm session
    enc cipher pub sbox cbox :
  negotiated env (core_hello cenv p token mode name size crc warm) session = Ok (enc, cipher, pub, sbox) →
  client_crypto (tp_encrypt p) enc pub session cipher (client_keys cenv p).1 = Ok cbox → cbox = sbox.
Proof.
  unfold negotiated, core_hello, client_hello, client_keys. simpl.
  destruct (tp_encrypt p); simpl; [|by intros [= <- <- <- <-] [= <-]].
  unfold negotiate_crypto_server, client_crypto. simpl. case_bool_decide; [done|].
  destruct (derive_aead (se_secret env) _ _ _) as [box|] eqn:E; [|done]. intros [= <- <- <- <-]. cbn [negb].
  enough (derive_aead (ce_secret cenv) (x25519_public (se_secret env)) session
            (choose_cipher (local_ciphers (se_aes_hardware env)) (local_ciphers (ce_aes_hardware cenv))) = Ok box) as ->
    by (by intros [= <-]).
  rewrite <-E. unfold derive_aead.
  rewrite !bool_decide_eq_false_2 by (rewrite x25519_public_length; tauto). by rewrite x25519_agree.
Qed.
End server_requests.

(** ** The two ends of a transfer *)

Lemma traced_in {Src R A} (P : event Src → Prop) (m : act Src R A) e : traced P m → e ∈ m.1 → P e.
Proof. unfold traced. rewrite Forall_forall. auto. Qed.


(** A sender and a receiver that run one transfer, wherever the sender's peer is. *)
Definition one_transfer {Src} (scfg : SendConfig Src) (cfg : RecvConfig) : Prop :=
  (∀ peer, matching (run_config scfg peer) cfg) ∧ rg_file_size cfg = sf_file_size scfg.

Section agreement.
Context {Src K Src' K' : Type} `{!BlockSource Src, !BlockSource Src', !Crc32c, !BlockSink K, !BlockSink K', !HmacCrate}.
Context `{!KexCrate, !KexLaws}.

(** C4: the control plane arranges a push.  Take any run of the client's
    [send_core_with_stream] and any run of the server on the Hello it wrote, where the
    client read the accepting reply the server wrote: the sender the client starts and the
    receiver the server starts are two ends of one transfer: same session, block size,
    number of blocks and cipher box, and the same file size. *)
Theorem push_ends_match (cenv : ClientEnv Src K') (senv : ServerEnv Src' K) addr source name p warm token handle
    params authorizer limits dir peer_addr range session h a scfg cfg :
  is_u64 (tp_block_size p) →
  EvHello h ∈ (send_core_with_stream cenv addr source name p warm token handle).1 →
  EvAck a ∈ (serve_request senv params authorizer limits dir peer_addr range session h).1 →
  a_ok a = true → ce_read cenv = Ok a →
  EvSend scfg ∈ (send_core_with_stream cenv addr source name p warm token handle).1 →
  EvRecv cfg ∈ (serve_request senv params authorizer limits dir peer_addr range session h).1 →
  one_transfer scfg cfg ∧ sf_source scfg = source.
Proof.
  intros Hbs Hh Ha Hok Hread Hs Hr.
  pose proof (push_client_events cenv addr source name p warm token handle) as Hcl.
  destruct (proj1 (traced_in _ _ _ Hcl Hh) h eq_refl) as [crc0 ->].
  set (h := core_hello _ _ _ _ _ _ _ _) in *.
  destruct (proj1 (traced_in _ _ _ (push_events senv params authorizer limits dir peer_addr range session h eq_refl) Ha)
              a eq_refl Hok) as (port & enc & cipher & pub & sbox & auth & Hneg & ->).
  destruct (proj2 (traced_in _ _ _ (push_events senv params authorizer limits dir peer_addr range session h eq_refl) Hr)
              cfg eq_refl) as (enc' & cipher' & pub' & sbox' & total & Hneg' & Ht & ->).
  rewrite Hneg in Hneg'. injection Hneg' as <- <- <- <-.
  destruct (proj2 (traced_in _ _ _ Hcl Hs) scfg eq_refl) as (crc & a' & cbox & pr & total' & Hg & Ht' & ->).
  apply handshake_go in Hg as (Hread' & _ & _ & Hc). rewrite Hread in Hread'. injection Hread' as <-.
  rewrite ack_ok_pub in Hc. simpl in Hc. apply (negotiation_agrees _ _ _ _ _ _ _ _ _ _ _ _ _ _ _ Hneg) in Hc as ->.
  assert (i64_as_u64 (u64_as_i64 (tp_block_size p)) = tp_block_size p) as Hb by (by apply i64_as_u64_as_i64).
  simpl in Ht. rewrite Hb in Ht. rewrite Ht in Ht'. apply Done_inj in Ht' as <-.
  split; [|done]. split; [|done]. by split; simpl.
Qed.

(** C20: the control plane arranges a pull: likewise for [recv_core_with_stream] against the
    server's [send_to_client], where size and checksum of the reply are those of the object
    the server opened. *)
Theorem pull_ends_match (cenv : ClientEnv Src' K) (senv : ServerEnv Src K') addr name sink p warm token handle
    params authorizer limits dir peer_addr range session h a scfg cfg :
  is_u64 (tp_block_size p) →
  EvHello h ∈ (recv_core_with_stream cenv addr name sink p warm token handle).1 →
  EvAck a ∈ (serve_request senv params authorizer limits dir peer_addr range session h).1 →
  a_ok a = true → ce_read cenv = Ok a →
  EvRecv cfg ∈ (recv_core_with_stream cenv addr name sink p warm token handle).1 →
  EvSend scfg ∈ (serve_request senv params authorizer limits dir peer_addr range session h).1 →
  one_transfer scfg cfg ∧ a_size a = src_len (sf_source scfg) ∧ source_crc32c (sf_source scfg) = Ok (a_crc32c a).
Proof.
  intros Hbs Hh Ha Hok Hread Hr Hs.
  pose proof (pull_client_events cenv addr name sink p warm token handle) as Hcl.
  pose proof (proj1 (traced_in _ _ _ Hcl Hh) h eq_refl) as ->.
  set (h := core_hello _ _ _ _ _ _ _ _) in *.
  destruct (proj1 (traced_in _ _ _ (pull_events senv params authorizer limits dir peer_addr range session h eq_refl) Ha)
              a eq_refl Hok) as (port & enc & cipher & pub & sbox & auth & src & crc & Hneg & Hsrc & Hcrc & ->).
  destruct (proj2 (traced_in _ _ _ (pull_events senv params authorizer limits dir peer_addr range session h eq_refl) Hs)
              scfg eq_refl) as (enc' & cipher' & pub' & sbox' & src' & total & Hneg' & Hsrc' & Ht & ->).
  rewrite Hneg in Hneg'. injection Hneg' as <- <- <- <-. pose proof (pulled_functional _ _ _ _ _ Hsrc Hsrc') as <-.
  destruct (proj2 (traced_in _ _ _ Hcl Hr) cfg eq_refl) as (a' & cbox & pr & total' & Hg & Ht' & ->).
  apply handshake_go in Hg as (Hread' & _ & _ & Hc). rewrite Hread in Hread'. injection Hread' as <-.
  rewrite ack_ok_pub in Hc. simpl in Hc. apply (negotiation_agrees _ _ _ _ _ _ _ _ _ _ _ _ _ _ _ Hneg) in Hc as ->.
  assert (i64_as_u64 (u64_as_i64 (tp_block_size p)) = tp_block_size p) as Hb by (by apply i64_as_u64_as_i64).
  simpl in Ht. rewrite Hb in Ht. simpl in Ht'. rewrite Ht in Ht'. apply Done_inj in Ht' as <-.
  split; [|done]. split; [|done]. by split; simpl.
Qed.
End agreement.

(** ** Requests do not stop the server *)

Section crashes.
Context {Src K : Type} `{!BlockSource Src, !Crc32c, !BlockSink K, !HmacCrate, !KexCrate}.
Implicit Types (env : ServerEnv Src K) (h : Hello).

Definition survives {R A} (m : act Src R A) : Prop := m.2 ≠ Crash.

Lemma survives_bind {R A B} (m : act Src R A) (f : A → act Src R B) :
  survives m → (∀ a, m.2 = Go a → survives (f a)) → survives (m ≫= f).
Proof.
  unfold survives. destruct m as [es [a|r|]]; simpl; [|done|done]. intros _ Hf.
  specialize (Hf a eq_refl). by destruct (f a).
Qed.
Lemma survives_may_panic {R A} (o : outcome A) : o ≠ Panic → survives (may_panic (Src := Src) (R := R) o).
Proof. unfold survives. by destruct o. Qed.

Ltac survive :=
  repeat match goal with
  | |- survives (_ ≫= _) => apply survives_bind; [|intros ? ?]
  | |- survives (match ?x with _ => _ end) => destruct x
  | |- survives (emit _) => done
  | |- survives (finish _) => done
  | |- survives (mret _) => done
  end.

Lemma survives_call {A} (r : result A io_error) : survives (call (Src := Src) r).
Proof. unfold call. survive. Qed.
Lemma survives_reject {A} err b : survives (reject (Src := Src) (A := A) err b).
Proof. unfold reject. survive. Qed.
Lemma survives_open {F} resolver (open : string → result (F * bool) io_error) dir name :
  survives (open_object (Src := Src) resolver open dir name).
Proof. unfold open_object. survive; apply survives_reject. Qed.
Lemma survives_negotiate env h session : survives (negotiate (Src := Src) env h session).
Proof. unfold negotiate. survive. apply survives_reject. Qed.
Lemma survives_authenticate authorizer h peer : survives (authenticate (Src := Src) authorizer h peer).
Proof. unfold authenticate. survive; apply survives_reject. Qed.
Lemma survives_as_call (m : act Src (result unit io_error) unit) : survives m → survives (as_call m).
Proof. unfold survives, as_call. by destruct m as [es [|[]|]]. Qed.

Create HintDb survive.
Hint Resolve survives_call survives_reject survives_open survives_negotiate survives_authenticate : survive.

Lemma recv_from_client_survives env h session p dir peer range auth :
  num_blocks (h_size h) (tp_block_size p) ≠ Panic →
  (∀ crypto total (sink : K), num_blocks (h_size h) (tp_block_size p) = Done total →
     new_receiver (se_num_cpu env) (push_config h session p peer crypto total) sink stats_default ≠ Panic) →
  survives (recv_from_client env h session p dir peer range auth).
Proof.
  intros Hn Hr. unfold recv_from_client, write_ack. cbv zeta. survive; auto with survive.
  - by apply survives_may_panic.
  - match goal with H : (may_panic (num_blocks _ _)).2 = Go _ |- _ => apply may_panic_go in H end.
    apply survives_may_panic. by apply Hr.
Qed.

Lemma send_to_client_survives env h session p dir peer limits range auth :
  0 < tp_block_size p → survives (send_to_client env h session p dir peer limits range auth).
Proof.
  intros Hb. unfold send_to_client, write_ack. cbv zeta. survive; auto with survive.
  apply survives_may_panic. match goal with |- num_blocks ?s _ ≠ _ => by destruct (num_blocks_done s _ Hb) as (n & -> & _) end.
Qed.

(** What the operator's settings must satisfy: limits and defaults below [2^53], where every
    integer is a double, and a default ceiling that is unset or at least the floor. *)
Record server_ok (params : TransferParams) (limits : ServerLimits) : Prop := {
  sv_rate : sl_max_rate_bps limits < 2 ^ 53;
  sv_alpha : sl_max_alpha_bps limits < 2 ^ 53;
  sv_params : 0 ≤ tp_alpha_bps params < 2 ^ 53;
  sv_ceiling : tp_max_bps params = 0 ∨ 64000 ≤ tp_max_bps params < 2 ^ 53
}.

Lemma push_setup params limits h session peer crypto total :
  server_ok params limits → wf_hello h → acceptable h limits →
  h_max_bps h = 0 ∨ 64000 ≤ h_max_bps h →
  num_blocks (h_size h) (tp_block_size (request_params params h)) = Done total →
  recv_setup_ok (push_config h session (request_params params h) peer crypto total).
Proof.
  intros [] (_ & Hsz & Hbs & Hrate & Hmax & Halpha & _ & Hwr & Hws & Hwb)
    (_ & Hs & _ & Hb & _ & Hr & Hm & Hw & Ht & Hbt & _ & Ha & _) Hc En.
  unfold is_uint, is_i64 in *. simpl in En.
  assert (i64_as_u64 (h_block_size h) = h_block_size h) as Eb by (unfold i64_as_u64; apply wrap_small; unfold is_uint; lia).
  rewrite Eb in En. destruct (num_blocks_done (h_size h) _ Hb) as (n & E & Hn & Hp & Hz).
  rewrite En in E. apply Done_inj in E as <-.
  split; simpl; rewrite ?Eb; [done| |lia| |].
  - destruct (decide (h_size h ≤ 0)); [rewrite Hz by lia; lia|]. specialize (Hp ltac:(lia)). nia.
  - split; simpl.
    { destruct (0 <? h_max_bps h) eqn:E0; [destruct (Z.eqb_spec (h_max_bps h) 0); lia|].
      destruct (Z.eqb_spec (tp_max_bps params) 0); lia. }
    split.
    { destruct (0 <? h_max_bps h) eqn:E0; [destruct (Z.eqb_spec (h_max_bps h) 0); lia|].
      destruct (Z.eqb_spec (tp_max_bps params) 0); lia. }
    set (alpha := if 0 <? h_alpha_bps h then h_alpha_bps h else tp_alpha_bps params).
    assert (0 ≤ alpha < 2 ^ 53) as Hal by (subst alpha; destruct (Z.ltb_spec 0 (h_alpha_bps h)); lia).
    assert (∀ z, 0 ≤ z < 2 ^ 53 → f64_valid (f64_of_Z z) ∧ f64_finite (f64_of_Z z) ∧ f64_nonneg (f64_of_Z z)) as Hf.
    { intros z Hz'. split; [apply f64_of_Z_valid|]. split; [by apply f64_of_Z_exact|apply f64_of_Z_nonneg; lia]. }
    destruct (f64_eq _ _); [apply (Hf 30000000)|apply (Hf alpha)]; lia.
  - intros w Ew. unfold warm_from_hello in Ew. destruct (negb _); [done|]. destruct (warm_is_empty _); [done|].
    injection Ew as <-. simpl. unfold MAX_WARM_RTT_US, RTT_BOUND in *. lia.
Qed.

(** C15: no request stops the server, and every receiver it starts is sound.  With limits and
    defaults that are exact doubles, for every Hello of the wire whose ceiling is unset or
    at least 64 kbit/s: handling it does not panic, whatever the files, the network and the
    authorizer answer, and every receiver it starts satisfies what the receiver's theorems
    ask of a configuration. *)
Theorem requests_survive env params authorizer limits dir peer range session h :
  server_ok params limits → wf_hello h → h_max_bps h = 0 ∨ 64000 ≤ h_max_bps h →
  (serve_request env params authorizer limits dir peer range session h).2 ≠ Crash ∧
  ∀ cfg, EvRecv cfg ∈ (serve_request env params authorizer limits dir peer range session h).1 →
    ∃ c, recv_setup_ok c ∧ cfg = recv_defaults (se_num_cpu env) c.
Proof.
  intros Hsv Hwf Hc.
  assert (validate_hello_limits h limits = Ok () → ∀ total crypto,
    num_blocks (h_size h) (tp_block_size (request_params params h)) = Done total →
    recv_setup_ok (push_config h session (request_params params h) peer crypto total)) as Hsetup.
  { intros Hv total crypto Hn. apply (validate_spec h limits Hwf) in Hv. by eapply push_setup. }
  assert (validate_hello_limits h limits = Ok () → 0 < tp_block_size (request_params params h)) as Hbs.
  { intros Hv. apply (validate_spec h limits Hwf) in Hv as (_ & _ & _ & Hb & _). destruct Hwf as (_ & _ & Hb' & _).
    simpl. unfold i64_as_u64, is_i64 in *. rewrite wrap_small by (unfold is_uint; lia). done. }
  split.
  - change (survives (serve_request env params authorizer limits dir peer range session h)). unfold serve_request.
    destruct (negb _); [apply survives_reject|].
    destruct (validate_hello_limits h limits) as [[]|]; [|apply survives_reject].
    specialize (Hsetup eq_refl). specialize (Hbs eq_refl).
    apply survives_bind; [apply survives_authenticate|]. intros auth _.
    destruct (bool_decide _); [|destruct (bool_decide _); [|apply survives_reject]].
    + apply survives_as_call, recv_from_client_survives.
      { by destruct (num_blocks_done (h_size h) _ Hbs) as (n & -> & _). }
      intros crypto total sink Hn. destruct (new_receiver_spec (se_num_cpu env) _ sink stats_default
        (Hsetup total crypto Hn)) as (st & -> & _). done.
    + by apply survives_as_call, send_to_client_survives.
  - intros cfg Hin. eapply (traced_in (λ e, ∀ cfg, e = EvRecv cfg →
      ∃ c, recv_setup_ok c ∧ cfg = recv_defaults (se_num_cpu env) c)); [|exact Hin|done].
    apply serve_request_traced; [done| |].
    + intros Hv _ auth. apply recv_from_client_traced; try done.
      intros enc cipher pub crypto total cfg' sink st _ Hn ->%new_receiver_cfg c [= <-].
      eexists. split; [by apply (Hsetup Hv total crypto)|done].
    + intros Hv _ auth. by apply send_to_client_traced.
Qed.

(** An accepting reply was written. *)
Definition accepted {R A} (m : act Src R A) : Prop := ∃ a, EvAck a ∈ m.1 ∧ a_ok a = true.

Lemma accepted_bind {R A B} (m : act Src R A) (f : A → act Src R B) :
  ¬ accepted m → (∀ a, m.2 = Go a → accepted (f a) → (f a).2 = Crash) → accepted (m ≫= f) → (m ≫= f).2 = Crash.
Proof.
  intros Hm Hf (a & Hin & Hok). destruct m as [es [x|r|]]; simpl in *; [|by destruct Hm; exists a..].
  destruct (f x) as [es' c] eqn:E. simpl in *. apply elem_of_app in Hin as [Hin|Hin]; [by destruct Hm; exists a|].
  specialize (Hf x eq_refl). rewrite E in Hf. apply Hf. by exists a.
Qed.

Lemma not_accepted {R A} (m : act Src R A) :
  traced (λ e, ∀ a, e = EvAck a → a_ok a = false) m → ¬ accepted m.
Proof. intros Ht (a & Hin & Hok). pose proof (traced_in _ _ _ Ht Hin a eq_refl). congruence. Qed.

(** A warm rate and a ceiling below the floor: [new_receiver] panics. *)
Lemma low_ceiling_panics num_cpu params h session peer crypto total (sink : K) :
  h_adaptive h = true → 0 < h_warm_rate_bps h → 0 < h_max_bps h < 64000 →
  0 < tp_block_size (request_params params h) →
  new_receiver num_cpu (push_config h session (request_params params h) peer crypto total) sink stats_default = Panic.
Proof.
  intros Ha Hw Hm Hb. unfold new_receiver.
  destruct (stage_depth_spec (recv_defaults num_cpu (push_config h session (request_params params h) peer crypto total)))
    as (d & -> & _); [exact Hb|]. cbn [mbind outcome_bind].
  assert (warm_from_hello h = Some (mkRateWarmStart (h_warm_rate_bps h) (h_warm_srtt_net_us h) (h_warm_base_rtt_us h)))
    as Ewarm.
  { unfold warm_from_hello. rewrite Ha. cbn [negb]. unfold warm_is_empty. cbn [rw_rate_bps].
    by rewrite (proj2 (Z.eqb_neq (h_warm_rate_bps h) 0)) by lia. }
  unfold warm_receiver. cbn [recv_defaults push_config rg_warm_start rg_rate]. rewrite Ewarm. cbn [rw_rate_bps].
  unfold set_rate. rewrite (proj2 (Z.eqb_neq (h_warm_rate_bps h) 0)) by lia.
  rewrite f64_clamp_empty; [done|]. unfold rate_new, rate_config. cbn [rctl_cfg]. unfold rate_cfg_defaults.
  cbn [rc_min_bps rc_max_bps request_params tp_max_bps]. change (0 =? 0) with true.
  rewrite (proj2 (Z.ltb_lt 0 (h_max_bps h))) by lia. rewrite (proj2 (Z.eqb_neq (h_max_bps h) 0)) by lia.
  cbn match. rewrite f64_le_of_Z by lia. apply Z.leb_gt. lia.
Qed.

(** C16: a client can stop the server.  A push the server accepts (limits and, where it is
    asked for, authentication passed) whose Hello is adaptive, carries a warm-start rate
    and a ceiling between 1 and 63999 bit/s, aborts the process as soon as the accepting
    reply is written: the ceiling is below the floor of the rate controller, and the clamp
    panics.  The checks on the Hello bound the ceiling from above only. *)
Theorem low_ceiling_aborts env params authorizer limits dir peer range session h :
  wf_hello h → h_mode h = MODE_SEND → h_adaptive h = true → 0 < h_warm_rate_bps h → 0 < h_max_bps h < 64000 →
  (∀ a, se_write env a = Ok ()) →
  accepted (serve_request env params authorizer limits dir peer range session h) →
  (serve_request env params authorizer limits dir peer range session h).2 = Crash.
Proof.
  intros Hwf Hm Ha Hw Hc Hwr. unfold serve_request.
  assert (∀ {A} err b, ¬ accepted (reject (Src := Src) (A := A) err b)) as Hrej
    by (intros; apply not_accepted, traced_reject; by intros a [= <-]).
  destruct (negb _); [by intros ?%Hrej|].
  destruct (validate_hello_limits h limits) as [[]|] eqn:Hv; [|by intros ?%Hrej].
  apply (validate_spec h limits Hwf) in Hv as (_ & _ & _ & Hb & _). destruct Hwf as (_ & _ & Hb' & _).
  assert (0 < tp_block_size (request_params params h)) as Hbs.
  { simpl. unfold i64_as_u64, is_i64 in *. rewrite wrap_small by (unfold is_uint; lia). done. }
  apply accepted_bind.
  { apply not_accepted. unfold authenticate. repeat (trace_step || apply traced_reject); by intros ? [= <-]. }
  intros auth _. rewrite Hm. change (bool_decide (MODE_SEND = MODE_SEND)) with true. cbn match.
  assert (accepted (recv_from_client env h session (request_params params h) dir peer range auth) →
    (recv_from_client env h session (request_params params h) dir peer range auth).2 = Crash) as Hcore; cycle 1.
  { unfold as_call. intros Hacc. enough ((recv_from_client env h session (request_params params h) dir peer range auth).2 = Crash)
      as E by (destruct (recv_from_client _ _ _ _ _ _ _ _) as [es [|[]|]]; done).
    apply Hcore. destruct (recv_from_client _ _ _ _ _ _ _ _) as [es [|[]|]]; done. }
  unfold recv_from_client.
  apply accepted_bind; [apply not_accepted; repeat (trace_step || apply traced_reject); by intros ? [= <-]|]. intros name _.
  apply accepted_bind; [apply not_accepted, open_object_traced; [done..|]; by intros ??? [= <-]|]. intros sink0 _.
  apply accepted_bind; [by apply not_accepted, traced_emit|]. intros _ _.
  destruct (sink_allocate sink0 _) as [sink r].
  apply accepted_bind; [apply not_accepted; repeat (trace_step || apply traced_reject); by intros ? [= <-]|]. intros _ _.
  apply accepted_bind; [by apply not_accepted, traced_emit|]. intros _ _.
  apply accepted_bind; [by apply not_accepted, traced_call|]. intros port _.
  apply accepted_bind; [apply not_accepted, negotiate_traced; by intros ??? [= <-]|].
  intros [[[enc cipher] pub] crypto] _ _. unfold write_ack. cbn [mbind act_bind emit]. rewrite Hwr. cbn [call mret act_ret].
  destruct (num_blocks_done (h_size h) _ Hbs) as (total & -> & _). cbn [may_panic mbind act_bind].
  by rewrite low_ceiling_panics.
Qed.
End crashes.

(** ** Witnesses *)

(** An encrypted push and an encrypted pull of [demo_content], 256 bytes a block. *)
Definition demo_params : TransferParams :=
  mkTransferParams 256 1000000 0 true 30000000 0 5000 10000 (mkDuration 1 0) false true.
Definition demo_cl (a : Ack) : ClientEnv MemSource MemSink :=
  mkClientEnv _ _ (λ _, Ok ()) (Ok a) (λ _, Ok [demo_client]) (Ok ()) true [x02; x03] 1 (λ _ st, (st, Ok ())) (λ _, Ok ()).
Definition no_ack : Ack := ack_err "" false.

Abbreviation demo_send_core a :=
  (@send_core_with_stream MemSource MemSink mem_source castagnoli toy_hmac toy_kex (demo_cl a) "srv:7400"
    (mkMemSource demo_content) "file.bin" demo_params None None None).
Abbreviation demo_recv_core a :=
  (@recv_core_with_stream MemSource MemSink (@mem_sink castagnoli) toy_hmac toy_kex (demo_cl a) "srv:7400"
    "file.bin" mem_sink_new demo_params None None None).
Abbreviation demo_serve h :=
  (@serve_request MemSource MemSink mem_source castagnoli (@mem_sink castagnoli) toy_hmac toy_kex demo_server_env
    default_params None limits_default "/srv" demo_client None 77 h).

(** The Hello, the reply and the configurations the runs contain. *)
Definition sent_hello {R A} (m : act MemSource R A) : Hello :=
  match head m.1 with Some (EvHello h) => h | _ => demo_push end.
Definition sent_ack {R A} (i : nat) (m : act MemSource R A) : Ack :=
  match m.1 !! i with Some (EvAck a) => a | _ => no_ack end.
Definition started_send {R A} (m : act MemSource R A) : SendConfig MemSource :=
  match last m.1 with Some (EvSend c) => c | _ => mkSendConfig None None (mkMemSource []) 0 0 0 0 (rate_config demo_params 0) 0 None None end.
Definition started_recv {R A} (m : act MemSource R A) : RecvConfig :=
  match last m.1 with Some (EvRecv c) => c | _ => demo_recv end.

Lemma push_ends_match_witness :
  let h := sent_hello (demo_send_core no_ack) in
  let a := sent_ack 3 (demo_serve h) in
  let scfg := started_send (demo_send_core a) in
  let cfg := started_recv (demo_serve h) in
  is_Some (rg_crypto cfg) ∧ one_transfer scfg cfg.
Proof.
  intros h a scfg cfg. split; [vm_compute; by eexists|].
  destruct (@push_ends_match MemSource MemSink MemSource MemSink mem_source mem_source castagnoli (@mem_sink castagnoli)
              toy_hmac toy_kex toy_kex_laws (demo_cl a) demo_server_env "srv:7400" (mkMemSource demo_content)
              "file.bin" demo_params None None None default_params None limits_default "/srv" demo_client None 77
              h a scfg cfg) as (Hmt & _).
  - by vm_compute.
  - apply (elem_at _ 0); vm_compute; reflexivity.
  - apply (elem_at _ 3); vm_compute; reflexivity.
  - vm_compute; reflexivity.
  - reflexivity.
  - apply (elem_at _ 2); vm_compute; reflexivity.
  - apply (elem_at _ 4); vm_compute; reflexivity.
  - exact Hmt.
Defined.

Lemma pull_ends_match_witness :
  let h := sent_hello (demo_recv_core no_ack) in
  let a := sent_ack 2 (demo_serve h) in
  let scfg := started_send (demo_serve h) in
  let cfg := started_recv (demo_recv_core a) in
  is_Some (rg_crypto cfg) ∧ one_transfer scfg cfg ∧ a_size a = 7.
Proof.
  intros h a scfg cfg. split; [vm_compute; by eexists|].
  destruct (@pull_ends_match MemSource MemSink MemSource MemSink mem_source castagnoli (@mem_sink castagnoli)
              (@mem_sink castagnoli)
              toy_hmac toy_kex toy_kex_laws (demo_cl a) demo_server_env "srv:7400"
              "file.bin" mem_sink_new demo_params None None None default_params None limits_default "/srv" demo_client None 77
              h a scfg cfg) as (Hmt & Hsz & _).
  - by vm_compute.
  - apply (elem_at _ 0); vm_compute; reflexivity.
  - apply (elem_at _ 2); vm_compute; reflexivity.
  - vm_compute; reflexivity.
  - reflexivity.
  - apply (elem_at _ 3); vm_compute; reflexivity.
  - apply (elem_at _ 3); vm_compute; reflexivity.
  - refine (conj Hmt _). vm_compute; reflexivity.
Defined.

Lemma requests_survive_witness :
  (demo_serve demo_push).2 ≠ Crash ∧
  ∀ cfg, EvRecv cfg ∈ (demo_serve demo_push).1 → ∃ c, recv_setup_ok c ∧ cfg = recv_defaults 1 c.
Proof.
  apply (@requests_survive MemSource MemSink mem_source castagnoli (@mem_sink castagnoli) toy_hmac toy_kex demo_server_env
           default_params None limits_default "/srv" demo_client None 77 demo_push).
  - split; vm_compute; intuition congruence.
  - unfold wf_hello, is_i64, is_uint. vm_compute. intuition congruence.
  - by left.
Defined.

(** A Hello whose ceiling is 1000 bit/s. *)
Definition demo_slow : Hello :=
  mkHello PROTOCOL_VERSION MODE_SEND "file.bin" 7 256 0 1000 true 0 0 500 0 0 false None None None.

Lemma low_ceiling_aborts_witness : (demo_serve demo_slow).2 = Crash.
Proof.
  apply (@low_ceiling_aborts MemSource MemSink mem_source castagnoli (@mem_sink castagnoli) toy_hmac toy_kex demo_server_env
           default_params None limits_default "/srv" demo_client None 77 demo_slow).
  - unfold wf_hello, is_i64, is_uint. vm_compute. intuition congruence.
  - reflexivity.
  - reflexivity.
  - reflexivity.
  - by vm_compute.
  - reflexivity.
  - exists (sent_ack 3 (demo_serve demo_slow)). split; [apply (elem_at _ 3); vm_compute; reflexivity|vm_compute; reflexivity].
Defined.
