(* ===== verification/Cli.v ===== *)
(** * The command line (src/bin/girth.rs)

    Flags and positional arguments, what the three commands do with them, and the exit status.
    [str::parse::<f64>] of the standard library is written out: its grammar, and the nearest
    double to the decimal it denotes.  [parse] is read against a grammar of argument lists. *)

From Stdlib Require Import Ascii.
From stdpp Require Import pretty.
From S2P Require Import Prelude Float64 Text Errors Net Protocol Rate Stats Runtime BlockIO Crypto Auth Control.
From S2P Require Import Transfer Sender Receiver Handlers Service.

(** ** Numbers *)

Definition take_sign (s : string) : bool * string :=
  match s with
  | String c s' => if bool_decide (c = "-"%char) then (true, s') else
                   if bool_decide (c = "+"%char) then (false, s') else (false, s)
  | EmptyString => (false, s)
  end.

(** The double nearest to [m * 10^e], ties to even. *)
Definition decimal_to_f64 (neg : bool) (m e : Z) : f64 :=
  match m with
  | Zpos p =>
      if 0 <=? e then binary_normalize 53 1024 (if neg then - (m * 10 ^ e) else m * 10 ^ e) 0 neg
      else SFdiv 53 1024 (S754_finite neg p 0) (S754_finite false (Z.to_pos (10 ^ (- e))) 0)
  | _ => S754_zero neg
  end.

(** The exponent, which ends the number. *)
Definition parse_exponent (s : string) : option Z :=
  match s with
  | EmptyString => Some 0
  | String c s' =>
      if bool_decide (c = "e"%char) || bool_decide (c = "E"%char) then
        let '(neg, s') := take_sign s' in
        match take_digits 0 0 s' with
        | (e, n, EmptyString) => if n =? 0 then None else Some (if neg : bool then - e else e)
        | _ => None
        end
      else None
  end.

Definition parse_number (neg : bool) (s : string) : option f64 :=
  let '(m, n, rest) := take_digits 0 0 s in
  let '(m, frac, rest) :=
    match rest with
    | String c rest' => if bool_decide (c = "."%char) then take_digits m 0 rest' else (m, 0, rest)
    | EmptyString => (m, 0, rest)
    end in
  if n + frac =? 0 then None else
  e ← parse_exponent rest;
  Some (decimal_to_f64 neg m (e - frac)).

(** [str::parse::<f64>]. *)
Definition parse_f64 (s : string) : option f64 :=
  let '(neg, body) := take_sign s in
  let word := to_ascii_lowercase body in
  if bool_decide (word = "inf") || bool_decide (word = "infinity") then Some (S754_infinity neg)
  else if bool_decide (word = "nan") then Some S754_nan
  else parse_number neg body.

(** ** Flags *)

(** [str::split_once] on [=]. *)
Fixpoint split_eq (s : string) : option (string * string) :=
  match s with
  | EmptyString => None
  | String c s' => if bool_decide (c = "="%char) then Some (EmptyString, s')
                   else '(n, v) ← split_eq s'; Some (String c n, v)
  end.

(** The flag an argument is, with its inline value. *)
Definition flag_of (a : string) : option (string * option string) :=
  match a with
  | String c flag =>
      if bool_decide (c = "-"%char) then
        Some match split_eq flag with Some (n, v) => (n, Some v) | None => (flag, None) end
      else None
  | EmptyString => None
  end.

Definition is_bool (name : string) : bool :=
  bool_decide (name = "adaptive") || bool_decide (name = "encrypt") || bool_decide (name = "allow-unauthenticated").

(** The variables of [parse]. *)
Record Flags := mkFlags {
  fl_rate_mbps : f64;
  fl_max_mbps : f64;
  fl_alpha_mbps : f64;
  fl_report_ms : Z;
  fl_addr : string;
  fl_dir : string;
  fl_auth_token : option string;
  fl_allow_unauthenticated : bool;
  fl_adaptive : bool;
  fl_encrypt : bool;
  fl_block_size : Z;
  fl_read_workers : Z;
  fl_feedback_interval_us : Z;
  fl_positionals : list string
}.

Definition flags_start : Flags :=
  let p := default_params in
  mkFlags (f64_of_Z 100) (f64_of_Z 10000) (f64_of_Z 30) 1000 ":7400" "." None false
    (tp_adaptive p) (tp_encrypt p) (tp_block_size p) (tp_read_workers p) (tp_feedback_interval_us p) [].

Definition set_rate_mbps x (f : Flags) : Flags :=
  mkFlags x (fl_max_mbps f) (fl_alpha_mbps f) (fl_report_ms f) (fl_addr f) (fl_dir f) (fl_auth_token f)
    (fl_allow_unauthenticated f) (fl_adaptive f) (fl_encrypt f) (fl_block_size f)
    (fl_read_workers f) (fl_feedback_interval_us f) (fl_positionals f).
Definition set_max_mbps x (f : Flags) : Flags :=
  mkFlags (fl_rate_mbps f) x (fl_alpha_mbps f) (fl_report_ms f) (fl_addr f) (fl_dir f) (fl_auth_token f)
    (fl_allow_unauthenticated f) (fl_adaptive f) (fl_encrypt f) (fl_block_size f)
    (fl_read_workers f) (fl_feedback_interval_us f) (fl_positionals f).
Definition set_alpha_mbps x (f : Flags) : Flags :=
  mkFlags (fl_rate_mbps f) (fl_max_mbps f) x (fl_report_ms f) (fl_addr f) (fl_dir f) (fl_auth_token f)
    (fl_allow_unauthenticated f) (fl_adaptive f) (fl_encrypt f) (fl_block_size f)
    (fl_read_workers f) (fl_feedback_interval_us f) (fl_positionals f).
Definition set_report_ms x (f : Flags) : Flags :=
  mkFlags (fl_rate_mbps f) (fl_max_mbps f) (fl_alpha_mbps f) x (fl_addr f) (fl_dir f) (fl_auth_token f)
    (fl_allow_unauthenticated f) (fl_adaptive f) (fl_encrypt f) (fl_block_size f)
    (fl_read_workers f) (fl_feedback_interval_us f) (fl_positionals f).
Definition set_addr x (f : Flags) : Flags :=
  mkFlags (fl_rate_mbps f) (fl_max_mbps f) (fl_alpha_mbps f) (fl_report_ms f) x (fl_dir f)
    (fl_auth_token f) (fl_allow_unauthenticated f) (fl_adaptive f) (fl_encrypt f) (fl_block_size f)
    (fl_read_workers f) (fl_feedback_interval_us f) (fl_positionals f).
Definition set_dir x (f : Flags) : Flags :=
  mkFlags (fl_rate_mbps f) (fl_max_mbps f) (fl_alpha_mbps f) (fl_report_ms f) (fl_addr f) x
    (fl_auth_token f) (fl_allow_unauthenticated f) (fl_adaptive f) (fl_encrypt f) (fl_block_size f)
    (fl_read_workers f) (fl_feedback_interval_us f) (fl_positionals f).
Definition set_auth_token x (f : Flags) : Flags :=
  mkFlags (fl_rate_mbps f) (fl_max_mbps f) (fl_alpha_mbps f) (fl_report_ms f) (fl_addr f) (fl_dir f) x
    (fl_allow_unauthenticated f) (fl_adaptive f) (fl_encrypt f) (fl_block_size f)
    (fl_read_workers f) (fl_feedback_interval_us f) (fl_positionals f).
Definition set_allow_unauthenticated x (f : Flags) : Flags :=
  mkFlags (fl_rate_mbps f) (fl_max_mbps f) (fl_alpha_mbps f) (fl_report_ms f) (fl_addr f) (fl_dir f)
    (fl_auth_token f) x (fl_adaptive f) (fl_encrypt f) (fl_block_size f) (fl_read_workers f)
    (fl_feedback_interval_us f) (fl_positionals f).
Definition set_adaptive x (f : Flags) : Flags :=
  mkFlags (fl_rate_mbps f) (fl_max_mbps f) (fl_alpha_mbps f) (fl_report_ms f) (fl_addr f) (fl_dir f)
    (fl_auth_token f) (fl_allow_unauthenticated f) x (fl_encrypt f) (fl_block_size f)
    (fl_read_workers f) (fl_feedback_interval_us f) (fl_positionals f).
Definition set_encrypt x (f : Flags) : Flags :=
  mkFlags (fl_rate_mbps f) (fl_max_mbps f) (fl_alpha_mbps f) (fl_report_ms f) (fl_addr f) (fl_dir f)
    (fl_auth_token f) (fl_allow_unauthenticated f) (fl_adaptive f) x (fl_block_size f)
    (fl_read_workers f) (fl_feedback_interval_us f) (fl_positionals f).
Definition set_block_size x (f : Flags) : Flags :=
  mkFlags (fl_rate_mbps f) (fl_max_mbps f) (fl_alpha_mbps f) (fl_report_ms f) (fl_addr f) (fl_dir f)
    (fl_auth_token f) (fl_allow_unauthenticated f) (fl_adaptive f) (fl_encrypt f) x
    (fl_read_workers f) (fl_feedback_interval_us f) (fl_positionals f).
Definition set_read_workers x (f : Flags) : Flags :=
  mkFlags (fl_rate_mbps f) (fl_max_mbps f) (fl_alpha_mbps f) (fl_report_ms f) (fl_addr f) (fl_dir f)
    (fl_auth_token f) (fl_allow_unauthenticated f) (fl_adaptive f) (fl_encrypt f) (fl_block_size f)
    x (fl_feedback_interval_us f) (fl_positionals f).
Definition set_feedback_interval_us x (f : Flags) : Flags :=
  mkFlags (fl_rate_mbps f) (fl_max_mbps f) (fl_alpha_mbps f) (fl_report_ms f) (fl_addr f) (fl_dir f)
    (fl_auth_token f) (fl_allow_unauthenticated f) (fl_adaptive f) (fl_encrypt f) (fl_block_size f)
    (fl_read_workers f) x (fl_positionals f).
Definition set_positionals x (f : Flags) : Flags :=
  mkFlags (fl_rate_mbps f) (fl_max_mbps f) (fl_alpha_mbps f) (fl_report_ms f) (fl_addr f) (fl_dir f)
    (fl_auth_token f) (fl_allow_unauthenticated f) (fl_adaptive f) (fl_encrypt f) (fl_block_size f)
    (fl_read_workers f) (fl_feedback_interval_us f) x.

(** Where a flag leaves [parse]: it goes on, it returns an error, or it shows the usage and
    exits with status 0. *)
Inductive flagged :=
| Goes (f : Flags)
| Bad (msg : string)
| Help.

(** The closure [num]. *)
Definition num (name : string) (value : option string) (k : f64 → Flags) : outcome flagged :=
  match value with
  | None => Panic
  | Some s =>
      Done match parse_f64 s with
           | Some x => Goes (k x)
           | None => Bad ("flag -" +:+ name +:+ ": invalid number")
           end
  end.
Definition unwrap {A} (v : option A) : outcome A := match v with Some a => Done a | None => Panic end.

(** The [match] on the flag's name. *)
Definition apply_flag (name : string) (value : option string) (f : Flags) : outcome flagged :=
  if bool_decide (name = "rate") then num name value (λ x, set_rate_mbps x f) else
  if bool_decide (name = "max") then num name value (λ x, set_max_mbps x f) else
  if bool_decide (name = "alpha") then num name value (λ x, set_alpha_mbps x f) else
  if bool_decide (name = "adaptive") then Done (Goes (set_adaptive true f)) else
  if bool_decide (name = "encrypt") then Done (Goes (set_encrypt true f)) else
  if bool_decide (name = "auth") then Done (Goes (set_auth_token value f)) else
  if bool_decide (name = "allow-unauthenticated") then Done (Goes (set_allow_unauthenticated true f)) else
  if bool_decide (name = "block") then num name value (λ x, set_block_size (f64_to_u64 x) f) else
  if bool_decide (name = "workers") then num name value (λ x, set_read_workers (f64_to_u64 x) f) else
  if bool_decide (name = "fb") then num name value (λ x, set_feedback_interval_us (f64_to_uint 32 x) f) else
  if bool_decide (name = "report") then num name value (λ x, set_report_ms (f64_to_i64 x) f) else
  if bool_decide (name = "addr") then v ← unwrap value; Done (Goes (set_addr v f)) else
  if bool_decide (name = "dir") then v ← unwrap value; Done (Goes (set_dir v f)) else
  if bool_decide (name = "procs") then Done (Goes f) else
  if bool_decide (name = "h") || bool_decide (name = "help") then Done Help else
  Done (Bad ("unknown flag -" +:+ name)).

(** The loop over the arguments. *)
Fixpoint parse_loop (args : list string) (f : Flags) : outcome flagged :=
  match args with
  | [] => Done (Goes f)
  | a :: rest =>
      match flag_of a with
      | None => parse_loop rest (set_positionals (fl_positionals f ++ [a]) f)
      | Some (name, inline) =>
          let go value rest' :=
            r ← apply_flag name value f;
            match r with Goes f' => parse_loop rest' f' | r => Done r end in
          if is_bool name then go None rest else
          match inline with
          | Some v => go (Some v) rest
          | None =>
              match rest with
              | [] => Done (Bad ("flag -" +:+ name +:+ " needs a value"))
              | v :: rest' =>
                  r ← apply_flag name (Some v) f;
                  match r with Goes f' => parse_loop rest' f' | r => Done r end
              end
          end
      end
  end.

(** [Parsed], from the variables. *)
Record Parsed := mkParsed {
  pa_params : TransferParams;
  pa_addr : string;
  pa_dir : string;
  pa_auth_token : option string;
  pa_allow_unauthenticated : bool;
  pa_positionals : list string
}.

Definition mbps_to_bps (x : f64) : Z := f64_to_u64 (f64_mul x (f64_of_Z 1000000)).
Definition report_interval (ms : Z) : Duration :=
  if 0 <? ms then mkDuration (ms / 1000) (ms mod 1000 * 1000000) else mkDuration 3600 0.

Definition finish_parse (f : Flags) : Parsed :=
  let p := default_params in
  mkParsed
    (mkTransferParams (fl_block_size f) (mbps_to_bps (fl_rate_mbps f)) (mbps_to_bps (fl_max_mbps f))
       (fl_adaptive f) (mbps_to_bps (fl_alpha_mbps f)) (fl_read_workers f) (fl_feedback_interval_us f)
       (tp_net_tick_interval_us p) (report_interval (fl_report_ms f)) (tp_verbose p) (fl_encrypt f))
    (fl_addr f) (fl_dir f) (fl_auth_token f) (fl_allow_unauthenticated f) (fl_positionals f).

(** [parse]: [None] when the usage was asked for. *)
Definition parse (args : list string) : outcome (option (result Parsed string)) :=
  r ← parse_loop args flags_start;
  Done match r with
       | Goes f => Some (Ok (finish_parse f))
       | Bad msg => Some (Err msg)
       | Help => None
       end.

(** ** Commands *)

(** What [main] does once the arguments are read: it exits with a status, or runs one of the
    three commands. *)
Inductive command :=
| Exits (code : Z)
| Serve (addr dir : string) (params : TransferParams) (authorizer : option Authorizer)
| Send (file addr : string) (params : TransferParams) (token : option (list byte))
| Recv (addr name out : string) (params : TransferParams) (token : option (list byte)).

Definition dispatch (argv : list string) : outcome command :=
  match argv with
  | _ :: cmd :: rest =>
      if bool_decide (cmd = "-h") || bool_decide (cmd = "--help") || bool_decide (cmd = "help") then Done (Exits 0) else
      r ← parse rest;
      match r with
      | None => Done (Exits 0)
      | Some (Err _) => Done (Exits 2)
      | Some (Ok p) =>
          let token := str_bytes <$> pa_auth_token p in
          if bool_decide (cmd = "server") then
            match token with
            | Some t => Done (Serve (pa_addr p) (pa_dir p) (pa_params p) (Some (λ _, Ok t)))
            | None => if negb (pa_allow_unauthenticated p) then Done (Exits 2)
                      else Done (Serve (pa_addr p) (pa_dir p) (pa_params p) None)
            end
          else if bool_decide (cmd = "send") then
            if negb (length (pa_positionals p) =? 2)%nat then Done (Exits 2) else
            file ← buf_get (pa_positionals p) 0; addr ← buf_get (pa_positionals p) 1;
            Done (Send file addr (pa_params p) token)
          else if bool_decide (cmd = "recv") then
            if negb (length (pa_positionals p) =? 3)%nat then Done (Exits 2) else
            addr ← buf_get (pa_positionals p) 0; name ← buf_get (pa_positionals p) 1;
            out ← buf_get (pa_positionals p) 2;
            Done (Recv addr name out (pa_params p) token)
          else Done (Exits 2)
      end
  | _ => Done (Exits 2)
  end.

(** What the command's run needs of the outside: opening and creating files, directories, the
    connections of a client, and how serving ends. *)
Record CliEnv (Src K : Type) := mkCliEnv {
  cv_open : string → result Src io_error;
  cv_create : string → result K io_error;
  cv_is_dir : string → bool;
  cv_connect : SocketAddr → result unit io_error;
  cv_client : ClientEnv Src K;
  cv_listen : Server Src K → result unit io_error
}.
Arguments mkCliEnv {Src K}.
Arguments cv_open {Src K}.
Arguments cv_create {Src K}.
Arguments cv_is_dir {Src K}.
Arguments cv_connect {Src K}.
Arguments cv_client {Src K}.
Arguments cv_listen {Src K}.

Section main.
Context {Src K : Type} `{!BlockSource Src, !Crc32c, !BlockSink K, !HmacCrate, !KexCrate}.
Implicit Types env : CliEnv Src K.

(** The status of a run: 1 after an error was printed. *)
Definition status {E} (r : result unit E) : Z := match r with Ok _ => 0 | Err _ => 1 end.

Definition run_server env (addr dir : string) params (authorizer : option Authorizer) : result unit io_error :=
  let srv := server_new addr dir params in
  cv_listen env (match authorizer with Some a => with_authorizer srv a | None => srv end).
Definition run_send env (file addr : string) params token : list (event Src) * outcome Z :=
  match cv_open env file with
  | Err _ => ([], Done 1)
  | Ok source =>
      let '(es, r) := client_send_from (cv_connect env) (cv_client env) addr source (basename file) params token in
      (es, status <$> r)
  end.
Definition run_recv env (addr name out : string) params token : list (event Src) * outcome Z :=
  match cv_create env (recv_path (cv_is_dir env) name out) with
  | Err _ => ([], Done 1)
  | Ok sink =>
      let '(es, r) := client_recv_into (cv_connect env) (cv_client env) addr name sink params token in
      (es, status <$> r)
  end.

(** [main]: what it does outside, and its exit status. *)
Definition main env (argv : list string) : list (event Src) * outcome Z :=
  match dispatch argv with
  | Panic => ([], Panic)
  | Done (Exits code) => ([], Done code)
  | Done (Serve addr dir params authorizer) => ([], Done (status (run_server env addr dir params authorizer)))
  | Done (Send file addr params token) => run_send env file addr params token
  | Done (Recv addr name out params token) => run_recv env addr name out params token
  end.
End main.

(** ** The grammar of argument lists *)

Inductive token :=
| Flag (name : string) (value : option string)
| Pos (s : string).

Inductive lexes : list string → list token → Prop :=
| lex_nil : lexes [] []
| lex_pos a rest ts : flag_of a = None → lexes rest ts → lexes (a :: rest) (Pos a :: ts)
| lex_bool a name inline rest ts :
    flag_of a = Some (name, inline) → is_bool name = true → lexes rest ts → lexes (a :: rest) (Flag name None :: ts)
| lex_inline a name v rest ts :
    flag_of a = Some (name, Some v) → is_bool name = false → lexes rest ts →
    lexes (a :: rest) (Flag name (Some v) :: ts)
| lex_next a name v rest ts :
    flag_of a = Some (name, None) → is_bool name = false → lexes rest ts →
    lexes (a :: v :: rest) (Flag name (Some v) :: ts).

(** The values a flag was given, whether it was given at all, and the other arguments. *)
Definition values (name : string) (ts : list token) : list string :=
  omap (λ t, match t with Flag n v => if bool_decide (n = name) then v else None | Pos _ => None end) ts.
Definition given (name : string) (ts : list token) : bool :=
  existsb (λ t, match t with Flag n _ => bool_decide (n = name) | Pos _ => false end) ts.
Definition positionals (ts : list token) : list string :=
  omap (λ t, match t with Pos s => Some s | Flag _ _ => None end) ts.

(** The last value of a flag counts. *)
Definition text (name d : string) (ts : list token) : string := default d (last (values name ts)).
Definition number {A} (name : string) (conv : f64 → A) (d : A) (ts : list token) : A :=
  from_option conv d (last (omap parse_f64 (values name ts))).

Definition numeric (name : string) : bool :=
  bool_decide (name ∈ ["rate"; "max"; "alpha"; "block"; "workers"; "fb"; "report"]).
Definition other_flag (name : string) : bool := bool_decide (name ∈ ["auth"; "addr"; "dir"; "procs"]).

(** A token [parse] accepts: a known flag, whose value is a number where it should be. *)
Definition acceptable_token (t : token) : Prop :=
  match t with
  | Pos _ => True
  | Flag name v =>
      is_bool name = true ∨ other_flag name = true ∨
      numeric name = true ∧ ∃ s, v = Some s ∧ is_Some (parse_f64 s)
  end.

(** The settings a list of tokens denotes over [f]. *)
Definition settings (f : Flags) (ts : list token) : Flags :=
  mkFlags (number "rate" id (fl_rate_mbps f) ts) (number "max" id (fl_max_mbps f) ts)
    (number "alpha" id (fl_alpha_mbps f) ts) (number "report" f64_to_i64 (fl_report_ms f) ts)
    (text "addr" (fl_addr f) ts) (text "dir" (fl_dir f) ts)
    (match last (values "auth" ts) with Some t => Some t | None => fl_auth_token f end)
    (fl_allow_unauthenticated f || given "allow-unauthenticated" ts) (fl_adaptive f || given "adaptive" ts)
    (fl_encrypt f || given "encrypt" ts) (number "block" f64_to_u64 (fl_block_size f) ts)
    (number "workers" f64_to_u64 (fl_read_workers f) ts) (number "fb" (f64_to_uint 32) (fl_feedback_interval_us f) ts)
    (fl_positionals f ++ positionals ts).

(** ** Reading arguments *)

Lemma last_cons_default {A} (x : A) (l : list A) : last (x :: l) = Some (default x (last l)).
Proof. rewrite last_cons. by destruct (last l). Qed.

(** A flag with a value, as the loop hands it over. *)
Definition lexed (name : string) (v : option string) : Prop :=
  if is_bool name then v = None else is_Some v.

Lemma number_step {A} name conv (d d' : A) s x ts :
  parse_f64 s = Some x → d' = conv x → number name conv d' ts = number name conv d (Flag name (Some s) :: ts).
Proof.
  intros Hx ->. unfold number, values. simpl. rewrite bool_decide_eq_true_2 by done. simpl. rewrite Hx.
  rewrite last_cons_default. by destruct (last _).
Qed.
Lemma text_step name d s ts : text name d (Flag name (Some s) :: ts) = text name s ts.
Proof.
  unfold text, values. simpl. rewrite bool_decide_eq_true_2 by done. rewrite last_cons_default. done.
Qed.

Lemma settings_pos f a ts : settings (set_positionals (fl_positionals f ++ [a]) f) ts = settings f (Pos a :: ts).
Proof. unfold settings. simpl. by rewrite <-app_assoc. Qed.

Lemma given_step name v ts : given name (Flag name v :: ts) = true.
Proof. unfold given. simpl. by rewrite bool_decide_eq_true_2. Qed.

(** Compares the settings before and after a flag, field by field. *)
Ltac settle_flag :=
  intros; simplify_eq; unfold settings; f_equal;
  first
    [ reflexivity
    | by eapply number_step
    | symmetry; by apply text_step
    | rewrite given_step; by rewrite orb_true_r
    | unfold values; simpl; rewrite last_cons_default; by destruct (last _) ].

(** What a flag does: it never panics, it is taken exactly when it is acceptable, and then it
    changes the settings as the grammar says. *)
Lemma apply_flag_spec name v f :
  lexed name v → ∃ r, apply_flag name v f = Done r ∧
    (acceptable_token (Flag name v) → ∃ f', r = Goes f') ∧
    (∀ f', r = Goes f' → acceptable_token (Flag name v) ∧ ∀ ts, settings f' ts = settings f (Flag name v :: ts)).
Proof.
  intros Hl.
  assert (Hnum : ∀ k, numeric name = true → is_bool name = false →
    (∀ s x ts, v = Some s → parse_f64 s = Some x → settings (k x) ts = settings f (Flag name v :: ts)) →
    ∃ r, num name v k = Done r ∧ (acceptable_token (Flag name v) → ∃ f', r = Goes f') ∧
      (∀ f', r = Goes f' → acceptable_token (Flag name v) ∧ ∀ ts, settings f' ts = settings f (Flag name v :: ts))).
  { intros k Hn Hb Hk. unfold lexed in Hl. rewrite Hb in Hl. destruct Hl as [s ->]. unfold num. eexists. split; [done|].
    destruct (parse_f64 s) as [x|] eqn:Hx; split; try done.
    - by eauto.
    - intros f' [= <-]. split; [right; right; eauto|]. intros ts. by eapply Hk.
    - intros [Ha|[Ha|(_ & s' & [= <-] & [x Ha])]]; [congruence| |congruence].
      unfold numeric, other_flag in *. apply bool_decide_eq_true_1 in Hn, Ha. exfalso. clear -Hn Ha. set_solver. }
  assert (Htake : ∀ f', acceptable_token (Flag name v) → (∀ ts, settings f' ts = settings f (Flag name v :: ts)) →
    ∃ r, Done (Goes f') = Done r ∧ (acceptable_token (Flag name v) → ∃ f'', r = Goes f'') ∧
      (∀ f'', r = Goes f'' → acceptable_token (Flag name v) ∧ ∀ ts, settings f'' ts = settings f (Flag name v :: ts))).
  { intros f' Ha Hs. eexists. split; [done|]. split; [by eauto|]. by intros f'' [= <-]. }
  unfold apply_flag.
  repeat (let E := fresh "Hname" in case_bool_decide as E; [subst name; first [apply Hnum; [done|done|settle_flag] | idtac]|]).
  all: try (apply Htake; [first [by left | by right; left]|settle_flag]).
  all: try (unfold lexed in Hl; simpl in Hl; destruct Hl as [t ->]; apply Htake; [by right; left|settle_flag]).
  all: eexists; split; [done|]; split; [|done]; unfold acceptable_token, is_bool, other_flag, numeric;
    intros [Ha|[Ha|[Ha _]]]; exfalso; revert Ha; repeat (rewrite bool_decide_eq_false_2 by set_solver); done.
Qed.

Lemma settings_nil f : settings f [] = f.
Proof. destruct f. unfold settings. simpl. by rewrite !orb_false_r, app_nil_r. Qed.

(** A computation that goes on exactly for the acceptable token lists in [L]. *)
Definition reads (L : list token → Prop) (f : Flags) (m : outcome flagged) : Prop :=
  ∃ r, m = Done r ∧ ∀ f', r = Goes f' ↔ ∃ ts, L ts ∧ Forall acceptable_token ts ∧ f' = settings f ts.

Lemma reads_iff L L' f m : (∀ ts, L ts ↔ L' ts) → reads L f m → reads L' f m.
Proof. intros HL (r & Hm & Hr). exists r. split; [done|]. intros f'. rewrite Hr. by setoid_rewrite HL. Qed.

Lemma reads_flag name v f rest :
  lexed name v → (∀ f, reads (lexes rest) f (parse_loop rest f)) →
  reads (λ ts, ∃ ts', ts = Flag name v :: ts' ∧ lexes rest ts') f
    (r ← apply_flag name v f; match r with Goes f' => parse_loop rest f' | r => Done r end).
Proof.
  intros Hl Hrest. destruct (apply_flag_spec name v f Hl) as (r & Hr & Hacc & Hgo). rewrite Hr. simpl.
  assert (Hno : (∀ f', r ≠ Goes f') → reads (λ ts, ∃ ts', ts = Flag name v :: ts' ∧ lexes rest ts') f (Done r)).
  { intros Hne. exists r. split; [done|]. intros f'. split; [intros ->; by destruct (Hne f')|].
    intros (ts & (ts' & -> & _) & [Ha _]%Forall_cons & _). destruct (Hacc Ha) as [f'' ->]. by destruct (Hne f''). }
  destruct r as [f1|msg|]; [|by apply Hno|by apply Hno].
  destruct (Hgo f1 eq_refl) as [Ha Hs]. destruct (Hrest f1) as (r & Hr' & Hiff). exists r. split; [done|].
  intros f'. rewrite Hiff. split.
  - intros (ts & Hts & Hall & ->). exists (Flag name v :: ts). rewrite <-Hs. split_and!; [by eauto|by constructor|done].
  - intros (ts & (ts' & -> & Hts) & [_ Hall]%Forall_cons & ->). exists ts'. by rewrite Hs.
Qed.

Lemma parse_loop_reads n : ∀ args f, (length args ≤ n)%nat → reads (lexes args) f (parse_loop args f).
Proof.
  induction n as [|n IH]; intros args f Hlen; (destruct args as [|a rest]; simpl in Hlen;
    [exists (Goes f); split; [done|]; intros f'; split;
      [intros [= <-]; exists []; rewrite settings_nil; by repeat constructor
      |intros (ts & Hl & _ & ->); inversion Hl; by rewrite settings_nil]|]); [lia|].
  assert (Hrest : ∀ f, reads (lexes rest) f (parse_loop rest f)) by (intros; apply IH; lia).
  cbn [parse_loop]. destruct (flag_of a) as [[name inline]|] eqn:Hflag.
  - destruct (is_bool name) eqn:Hb.
    + eapply reads_iff; [|apply reads_flag; [unfold lexed; by rewrite Hb|done]]. intros ts. split.
      * intros (ts' & -> & Hts). by econstructor.
      * intros Hl. inversion Hl; simplify_eq; first [congruence|by eauto].
    + destruct inline as [v|].
      * eapply reads_iff; [|apply reads_flag; [unfold lexed; rewrite Hb; by eexists|done]]. intros ts. split.
        -- intros (ts' & -> & Hts). by econstructor.
        -- intros Hl. inversion Hl; simplify_eq; first [congruence|by eauto].
      * destruct rest as [|v rest].
        -- exists (Bad ("flag -" +:+ name +:+ " needs a value")). split; [done|]. intros f'. split; [done|].
           intros (ts & Hl & _). inversion Hl; simplify_eq; congruence.
        -- eapply reads_iff; [|apply reads_flag; [unfold lexed; rewrite Hb; by eexists|]].
           ++ intros ts. split; [intros (ts' & -> & Hts); by econstructor|].
              intros Hl. inversion Hl; simplify_eq; first [congruence|by eauto].
           ++ intros. apply IH. simpl in Hlen. lia.
  - destruct (Hrest (set_positionals (fl_positionals f ++ [a]) f)) as (r & Hr & Hiff). exists r. split; [done|].
    intros f'. rewrite Hiff. split.
    + intros (ts & Hts & Hall & ->). exists (Pos a :: ts). rewrite settings_pos. split_and!; [by constructor| |done].
      by constructor.
    + intros (ts & Hl & Hall & ->). inversion Hl; simplify_eq. apply Forall_cons in Hall as [_ Hall].
      eexists. by rewrite settings_pos.
Qed.

(** A cast from a float lands in its type. *)
Lemma f64_to_uint_range w x : 0 ≤ w → 0 ≤ f64_to_uint w x < 2 ^ w.
Proof.
  intros Hw. pose proof (Z.pow_pos_nonneg 2 w ltac:(lia) Hw) as Hp.
  destruct x as [s|s| |s m e]; [simpl; lia|destruct s; simpl; lia|simpl; lia|destruct s; simpl; [lia|]].
  pose proof (proj2 (Z.shiftl_nonneg (Zpos m) e) ltac:(lia)). lia.
Qed.
Lemma number_range {A} (P : A → Prop) name conv d ts : P d → (∀ x, P (conv x)) → P (number name conv d ts).
Proof. intros Hd Hc. unfold number. by destruct (last _); simpl. Qed.

(** What [parse] returns, for any arguments. *)
Lemma parse_reads args : ∃ r, parse args = Done r ∧
  ∀ p, r = Some (Ok p) ↔ ∃ ts, lexes args ts ∧ Forall acceptable_token ts ∧ p = finish_parse (settings flags_start ts).
Proof.
  destruct (parse_loop_reads (length args) args flags_start) as (r & Hr & Hiff); [lia|].
  unfold parse. rewrite Hr. simpl. eexists. split; [done|]. intros p. split.
  - destruct r as [f| |]; try done. intros [= <-]. destruct (proj1 (Hiff f) eq_refl) as (ts & Hl & Ha & ->). by exists ts.
  - intros (ts & Hl & Ha & ->). by rewrite (proj2 (Hiff (settings flags_start ts)) (ex_intro _ ts (conj Hl (conj Ha eq_refl)))).
Qed.

(** A known command with arguments that read as [p]. *)
Lemma dispatch_parsed prog cmd rest r :
  parse rest = Done r → dispatch (prog :: cmd :: rest) =
    if bool_decide (cmd = "-h") || bool_decide (cmd = "--help") || bool_decide (cmd = "help") then Done (Exits 0) else
    match r with
    | None => Done (Exits 0)
    | Some (Err _) => Done (Exits 2)
    | Some (Ok p) =>
        let token := str_bytes <$> pa_auth_token p in
        if bool_decide (cmd = "server") then
          match token with
          | Some t => Done (Serve (pa_addr p) (pa_dir p) (pa_params p) (Some (λ _, Ok t)))
          | None => if negb (pa_allow_unauthenticated p) then Done (Exits 2)
                    else Done (Serve (pa_addr p) (pa_dir p) (pa_params p) None)
          end
        else if bool_decide (cmd = "send") then
          match pa_positionals p with
          | [file; addr] => Done (Send file addr (pa_params p) token)
          | _ => Done (Exits 2)
          end
        else if bool_decide (cmd = "recv") then
          match pa_positionals p with
          | [addr; name; out] => Done (Recv addr name out (pa_params p) token)
          | _ => Done (Exits 2)
          end
        else Done (Exits 2)
    end.
Proof.
  intros Hp. simpl. rewrite Hp. simpl. destruct (_ || _); [done|]. destruct r as [[p|]|]; [|done|done].
  case_bool_decide; [done|]. case_bool_decide; [|case_bool_decide; [|done]].
  - by destruct (pa_positionals p) as [|? [|? [|]]].
  - by destruct (pa_positionals p) as [|? [|? [|? [|]]]].
Qed.

(** C27: [parse] implements the flag grammar.  On any argument list it returns without
    panicking, and it succeeds exactly when the list reads as positional arguments and known
    flags whose numbers are numbers; then the last value of a flag counts, a boolean flag is on
    when it occurs, everything not given has its default, and the rates, sizes and intervals
    are in the range of their machine types. *)
Theorem parse_exact args :
  ∃ r, parse args = Done r ∧
    (∀ p, r = Some (Ok p) ↔
       ∃ ts, lexes args ts ∧ Forall acceptable_token ts ∧ p = finish_parse (settings flags_start ts)) ∧
    (∀ p, r = Some (Ok p) →
       is_u64 (tp_block_size (pa_params p)) ∧ is_u64 (tp_rate_bps (pa_params p)) ∧
       is_u64 (tp_max_bps (pa_params p)) ∧ is_u64 (tp_alpha_bps (pa_params p)) ∧
       is_u64 (tp_read_workers (pa_params p)) ∧ 0 ≤ tp_feedback_interval_us (pa_params p) < 2 ^ 32).
Proof.
  destruct (parse_reads args) as (r & Hr & Hiff). exists r. split; [done|]. split; [done|].
  intros p (ts & _ & _ & ->)%Hiff. unfold finish_parse, settings. cbn -[Z.pow number f64_to_uint].
  assert (Hcast : ∀ x, is_u64 (f64_to_u64 x)) by (intros x; apply f64_to_uint_range; lia).
  split_and!; try apply Hcast.
  - apply number_range; [done|apply Hcast].
  - apply number_range; [done|apply Hcast].
  - apply (number_range (λ x, 0 ≤ x)); [done|]. intros x. apply f64_to_uint_range. lia.
  - apply (number_range (λ x, x < 2 ^ 32)); [done|]. intros x. apply f64_to_uint_range. lia.
Qed.

(** A boolean flag that was given is in the list without a value. *)
Lemma given_bool args ts name :
  lexes args ts → is_bool name = true → given name ts = true → Flag name None ∈ ts.
Proof.
  intros Hl Hb. induction Hl as [|a rest ts Ha Hl IH|a n inline rest ts Ha Hn Hl IH|a n v rest ts Ha Hn Hl IH|a n v rest ts Ha Hn Hl IH];
    unfold given; simpl; [done|by intros; right; apply IH| | |];
    (destruct (bool_decide_reflect (n = name)) as [->|]; simpl; [|by intros; right; apply IH]).
  - by left.
  - congruence.
  - congruence.
Qed.

(** C26: no open server by accident.  Whatever the command line, when it starts a server it is
    the command [server], and either a token was given with [-auth] (the last one counts) and
    on every connection nothing happens for a request without a verified proof of possession
    of exactly this token, or no token was given and [-allow-unauthenticated] was. *)
Theorem cli_server_guarded {Src K} `{!BlockSource Src, !Crc32c, !BlockSink K, !HmacCrate, !KexCrate}
    argv addr dir params authz (Hserve : dispatch argv = Done (Serve addr dir params authz)) :
  ∃ prog args ts, argv = prog :: "server" :: args ∧ lexes args ts ∧
    match last (values "auth" ts) with
    | Some token =>
        ∀ limits peer range (turns : list (turn (Src := Src) (K := K))) e,
          e ∈ (handle_conn params authz limits dir peer range turns).1 → effect e = true →
          ∃ t h mac, t ∈ turns ∧ tn_hello t = Ok h ∧ h_auth_mac h = Some mac ∧
            verify_client_mac (str_bytes token) (h_version h) (h_mode h) (h_name h) (h_size h)
              (default [] (h_pub_key h)) mac = true
    | None => authz = None ∧ Flag "allow-unauthenticated" None ∈ ts
    end.
Proof.
  destruct argv as [|prog [|cmd args]]; [done|done|].
  destruct (parse_reads args) as (r & Hr & Hiff). rewrite (dispatch_parsed prog cmd args r Hr) in Hserve.
  destruct (_ || _); [done|]. destruct r as [[p|]|]; [|done|done].
  destruct (proj1 (Hiff p) eq_refl) as (ts & Hl & _ & ->).
  case_bool_decide as Hcmd; [subst cmd|repeat case_match; by simplify_eq].
  exists prog, args, ts. split; [done|]. split; [done|].
  cbn -[values given dispatch] in Hserve. destruct (last (values "auth" ts)) as [token|]; cbn -[values given] in Hserve.
  - injection Hserve as _ _ _ <-. intros limits peer range turns e He Hef.
    destruct (handle_conn_gate _ _ _ _ _ _ turns e He Hef) as (t & h & tok & mac & Ht & Hau & _).
    unfold authenticated in Hau. destruct_and! Hau. simplify_eq. by exists t, h, mac.
  - destruct (given "allow-unauthenticated" ts) eqn:Hg; [|done]. injection Hserve as _ _ _ <-.
    split; [done|]. by eapply given_bool.
Qed.

(** ** Decimal numbers *)

(** A text of digits is neither signed nor a word. *)
Lemma parse_f64_digits s v k :
  take_digits 0 0 s = (v, k, EmptyString) → 0 < k → parse_f64 s = Some (decimal_to_f64 false v 0).
Proof.
  intros Hd Hk. destruct s as [|c s]; [simpl in Hd; simplify_eq; lia|].
  assert (Hc : is_digit c = true) by (cbn [take_digits] in Hd; destruct (is_digit c); [done|simplify_eq; lia]).
  assert (Hsign : take_sign (String c s) = (false, String c s)).
  { unfold take_sign. by rewrite !bool_decide_eq_false_2 by (intros ->; done). }
  assert (Hword : to_ascii_lowercase (String c s) = String c (to_ascii_lowercase s)).
  { simpl. f_equal. clear -Hc. by destruct c as [[] [] [] [] [] [] [] []]. }
  unfold parse_f64. rewrite Hsign, Hword, !bool_decide_eq_false_2 by (intros [= ->]; done). cbn [orb].
  unfold parse_number. rewrite Hd. rewrite (proj2 (Z.eqb_neq _ _)) by lia. simpl. done.
Qed.

(** Result: the decimal text of a natural number parses as the double nearest to it. *)
Lemma parse_f64_pretty (n : N) : parse_f64 (pretty n) = Some (f64_of_Z (Z.of_N n)).
Proof.
  destruct (take_digits_pretty n) as (k & Hk & Hd). rewrite (parse_f64_digits _ _ _ Hd Hk).
  destruct n as [|p]; [done|]. unfold decimal_to_f64, f64_of_Z. simpl Z.of_N. cbn [Z.leb Z.compare].
  by rewrite Z.pow_0_r, Z.mul_1_r.
Qed.

(** Result: sizes and counts arrive exactly.  A block size, a number of workers and a feedback
    interval written in decimal, as separate arguments or after [=], go through
    [parse::<f64>] and the float-to-integer casts unchanged up to 2^53 (2^32 for the interval). *)
Theorem cli_numbers_exact (block workers fb : N) (Hblock : Z.of_N block < 2 ^ 53) (Hworkers : Z.of_N workers < 2 ^ 53)
    (Hfb : Z.of_N fb < 2 ^ 32) :
  ∃ p, parse ["-block"; pretty block; "-workers"; pretty workers; "-fb=" +:+ pretty fb] = Done (Some (Ok p)) ∧
    tp_block_size (pa_params p) = Z.of_N block ∧ tp_read_workers (pa_params p) = Z.of_N workers ∧
    tp_feedback_interval_us (pa_params p) = Z.of_N fb.
Proof.
  set (ts := [Flag "block" (Some (pretty block)); Flag "workers" (Some (pretty workers)); Flag "fb" (Some (pretty fb))]).
  destruct (parse_reads ["-block"; pretty block; "-workers"; pretty workers; "-fb=" +:+ pretty fb]) as (r & Hr & Hiff).
  exists (finish_parse (settings flags_start ts)). split.
  - rewrite Hr. f_equal. apply Hiff. exists ts. split; [|split; [|done]].
    + by repeat econstructor.
    + assert (Hok : ∀ name n, numeric name = true → acceptable_token (Flag name (Some (pretty (n : N))))).
      { intros name n Hn. right; right. split; [done|]. eexists. split; [done|]. by rewrite parse_f64_pretty. }
      by repeat (apply Forall_cons; split; [by apply Hok|]).
  - unfold ts, finish_parse, settings, number, values. simpl. rewrite !parse_f64_pretty. simpl.
    unfold f64_to_u64. split_and!; apply f64_to_uint_of_Z; lia.
Qed.

Lemma cli_numbers_exact_witness :
  ∃ p, parse ["-block"; "1400"; "-workers"; "8"; "-fb=2500"] = Done (Some (Ok p)) ∧
    tp_block_size (pa_params p) = 1400 ∧ tp_read_workers (pa_params p) = 8 ∧
    tp_feedback_interval_us (pa_params p) = 2500.
Proof. apply (cli_numbers_exact 1400 8 2500); reflexivity. Defined.

(** A server started with a token. *)
Definition demo_argv : list string := ["girth"; "server"; "-dir"; "/srv"; "-auth=old"; "-adaptive"; "-auth"; "s3"].

Definition demo_argv_params : TransferParams := pa_params (finish_parse (set_adaptive true flags_start)).

Lemma cli_server_guarded_witness :
  ∃ prog args ts token t h mac, demo_argv = prog :: "server" :: args ∧ lexes args ts ∧
    last (values "auth" ts) = Some token ∧ t ∈ [demo_turn] ∧ tn_hello t = Ok h ∧
    @verify_client_mac toy_hmac (str_bytes token) (h_version h) (h_mode h) (h_name h) (h_size h)
      (default [] (h_pub_key h)) mac = true.
Proof.
  destruct (@cli_server_guarded MemSource MemSink mem_source castagnoli (@mem_sink castagnoli) toy_hmac toy_kex demo_argv
              ":7400" "/srv" demo_argv_params (Some (λ _, Ok demo_token)))
    as (prog & args & ts & Ha & Hl & Hm); [vm_compute; reflexivity|].
  destruct (last (values "auth" ts)) as [token|] eqn:Ht; [|by destruct Hm].
  destruct (Hm limits_default demo_client None [demo_turn] (EvOpen "/srv/file.bin")) as (t & h & mac & E1 & E2 & _ & E3);
    [apply (elem_at _ 0); vm_compute; reflexivity|reflexivity|].
  exists prog, args, ts, token, t, h, mac. exact (conj Ha (conj Hl (conj Ht (conj E1 (conj E2 E3))))).
Defined.

(** Examples of the number grammar: correctly rounded decimals, and what is refused. *)
Example parse_f64_tenth : parse_f64 "0.1" = Some (S754_finite false 7205759403792794 (-56)).
Proof. reflexivity. Qed.
Example parse_f64_half_way : parse_f64 "9007199254740993" = Some (f64_of_Z 9007199254740992).
Proof. reflexivity. Qed.
Example parse_f64_grammar :
  (is_Some (parse_f64 "1.e2") ∧ is_Some (parse_f64 "-.5E-3") ∧ parse_f64 "+iNf" = Some (S754_infinity false)) ∧
  parse_f64 "." = None ∧ parse_f64 "" = None ∧ parse_f64 "1e" = None ∧ parse_f64 "1 " = None ∧ parse_f64 "0x10" = None.
Proof. vm_compute. eauto 10. Qed.
(** An inline value of a boolean flag is ignored. *)
Example bool_flag_value_ignored :
  (λ c, match c with Done (Serve _ _ _ None) => true | _ => false end)
    (dispatch ["girth"; "server"; "-allow-unauthenticated=false"]) = true.
Proof. reflexivity. Qed.
